(* ===== verification/_CoqProject ===== *)
-Q . S2P
Prelude.v
FileSystem.v
Assembler.v
Cache.v
SliceMap.v
RepairFold.v
Budget.v
Str.v
Path.v
Models.v
NzbParser.v
Capabilities.v
Wire.v
Overview.v
Client.v
Pipeline.v
WorkQueue.v
Placement.v
Engine.v
Settle.v
Failover.v
Par2Match.v
SliceTracker.v
SliceCells.v
SliceRun.v
SliceSteps.v
SliceSafe.v
SliceProps.v
Hopeless.v
HopelessProps.v
Schedule.v
Holds.v
Queue.v
QueueProps.v
QueueRun.v
QueueEngine.v
Checkpoint.v
Inflight.v
FoldRepair.v
Detect.v
Cleanup.v
PostProc.v
PostProcProps.v
PostProcRuns.v
