(* ===== verification/Prelude.v ===== *)
(** * rustnzb: a verification library for the download core

    rustnzb downloads the files an NZB lists from Usenet servers, checks and
    repairs them with PAR2 recovery data as they arrive, and unpacks them. This
    library models the part of the program that decides what is fetched, from
    where, and where the bytes go, and proves what makes it correct.

    ** The program and how its parts interact

    A job (an NZB) is handed to the worker pool of
    [crates/nzb-dispatch/src/download_engine.rs] as one work item per article.
    Workers, one per connection, take items from the shared queue, fetch the
    article over an NNTP connection ([crates/nzb-nntp]: [connection.rs],
    [pipeline.rs], with permits from [budget.rs]), decode it and write it at its
    offset through the file assembler ([crates/nzb-decode/src/assembler.rs]).
    What a worker gets back decides the fate of the article: settled, another
    try, another server, another round of questions. Written bytes are followed
    on the PAR2 slice grid ([slice_map.rs]) and folded into recovery rows
    ([repair_fold.rs]); recovery volumes are held back until the damage calls
    for them ([held_volumes.rs]). When the last article is settled the job
    reports its end.

    ** The files

    - [Prelude]: machine integers, results, list and map lemmas, tactics.
    - [FileSystem]: the interface to the kernel's file system, its laws and a
      concrete instance.
    - [Assembler]: [nzb-decode/src/assembler.rs]. [FileState] is the record of a
      file, [assemble_article] writes a segment; [Module Interleaving] splits
      [mark_written] into its two atomic steps. Articles in any order give the
      file; refusals change nothing; completion is reported once under any
      interleaving.
    - [Cache]: [nzb-decode/src/cache.rs], the bounded article cache with its
      spill loop (fuel; enough fuel is proved to exist). It refines a plain map;
      [store] ends for articles within the limit, and need not for larger ones.
    - [SliceMap]: [nzb-decode/src/slice_map.rs]. A slice is reported at the
      write that fills it; verdicts and counts are right.
    - [RepairFold]: [nzb-decode/src/repair_fold.rs] over an abstract GF(2^16)
      ([Gf16], [Gf16Laws]). Any history of feeds and growths solves to the
      damaged bytes; corrupt feeds poison the fold; memory stays bounded.
    - [Budget]: [nzb-nntp/src/budget.rs]: tiers, floors, grant order, waiters
      that leave at any moment. The WebDAV share is kept, permits are accounted
      for, dispatch settles, and one way an import is stranded.
    - [Str]: the string functions of the standard library the code uses.
    - [Path]: [nzb-core/src/path.rs]: joining beneath a root, job names safe on
      every file system, passwords in job names. Joins stay beneath the root;
      sanitised names are safe, with the two exceptions found.
    - [Models]: the jobs, files and articles of [nzb-core/src/models.rs].
    - [NzbParser]: [nzb-core/src/nzb_parser.rs], over the events of the XML
      reader. Any job it gives is well formed; documents and the names of PAR2
      volumes are read back.
    - [Capabilities], [Overview]: the parsers of those replies.
    - [Wire], [Client]: [nzb-nntp/src/connection.rs]: the byte stream with
      failures and timeouts at every read, responses, multi-line bodies, every
      command, login and posting. Bodies round-trip; a connection is ready only
      when it is in step with its peer, with the one exception found.
    - [Pipeline]: [nzb-nntp/src/pipeline.rs]: answers are matched to requests,
      every request is settled, batched STATs report their answers.
    - [WorkQueue]: the shared queue, [article_failure.rs], [held_volumes.rs].
    - [Placement]: [decode_and_assemble] and its offset check; every write stays
      within the bound of the file, once it has one: the size registered, or the
      first an article names.
    - [Engine]: jobs, the circuit breaker, the reactions of both worker loops,
      the operations on jobs and the supervisor sweep, as a step relation on
      [Pool]; the slice tracker behind the interface [JobSlices].
    - [Settle]: the invariant of the pool: every article is settled once.
    - [Failover]: what holds of each waiting article: missing only if refused,
      never without a server if it started untried, a bounded number of counted
      answers; and runs in which an article is stranded after all.
    - [Par2Match]: [nzb-core/src/par2_match.rs] and [slice_layout.rs]: NZB files
      are matched to PAR2 files by name, then by hash, each claimed once.
    - [SliceTracker]: [nzb-dispatch/src/slice_tracker.rs]. [JobSlices] holds the
      map, the failures and the repair fold of a job; a running call is a [Task],
      [step_task] the section of it between two locks or disk reads.
      [SliceCells], [SliceRun], [SliceSteps] and [SliceSafe] carry the invariant
      through every section, under any interleaving of the calls with the writes
      of the assembler; [SliceProps] concludes: verified slices are on the disk,
      the fold repairs the set, no slice falls between the calls, every call
      ends, and what a summary reports.
    - [Hopeless]: the hopeless-job tracker of
      [crates/nzb-web/src/queue_manager.rs], with the floating-point tiers in
      IEEE double precision. [HopelessProps] sets it against the release itself:
      the parity tier gives up only jobs that cannot be repaired, with the three
      exceptions found.
    - [Schedule]: [nzb-core/src/schedule.rs]. The decision of a moment is given
      by the rules whose window covers it, midnight included.
    - [Holds]: the holds of the global pause of [queue_manager.rs]: user, disk
      guard and schedule windows, their settings and their restart. They refine
      a specification with one flag per holder, in runs where no disk hold and no
      restart falls within a timed pause, whose deadline they drop.
    - [Queue]: the scheduling part of [queue_manager.rs] over the interface
      [DispatchEngine] of [dispatch_engine.rs]: slots, the limit, priorities and
      order, pausing, resuming and removing jobs, what the dispatcher and
      post-processing report, and restart. [QueueProps] carries the invariant,
      [QueueRun] the runs: the limit and the global pause hold, no job waits
      beside a free slot, slots go by rank. The runs are those of
      [QueueRun.may_happen]: in particular no download that runs is resumed,
      after which the limit may be exceeded. [QueueEngine] puts [Engine.Pool]
      behind the interface and lets queue and workers interleave: articles are
      handed out only of jobs the queue shows as downloading.
    - [Checkpoint]: how [queue_manager.rs] counts the articles of a running job,
      writes a checkpoint and reads it back at a restart or a retry. In a release
      that names no file twice the counts are those of the articles after any
      run, and what is fetched after a restart is exactly what was missing.
    - [Inflight], [FoldRepair]: [nzb-postproc/src/inflight.rs] and
      [fold_repair.rs]: a recovery set verified from the slice map and repaired
      from the fold of the download. Verification agrees with one that reads the
      disk; the repair restores the bytes of every file that is not empty.
    - [Detect]: [nzb-postproc/src/detect.rs]: archives, their first volumes and
      recovery files in a tree of files. Every archive found may be cleaned up;
      the numbers of old and new volumes are read back.
    - [Cleanup]: the last stage of [nzb-postproc/src/pipeline.rs] and its
      wildcards. Exactly what should be is deleted.
    - [PostProc]: the stages of [pipeline.rs], [run_stages], over a tree of files.
      [PostProcProps]: what is reported correct or repaired is so, extraction
      opens every archive once, the result agrees with the stages, the cleanup
      runs only after success. Of the unpackers it assumes, where it says so, that
      they write only beneath the output folder. [PostProcRuns]: concrete runs.

    ** Conventions

    Unsigned integers are [N] with wrap-around or saturation written out where
    the code can reach it, indices into vectors [nat]. A component's state is a
    record, an operation a function from state to state and result; a mutex held
    for a whole operation makes it one step. Interleavings are step relations
    ([Assembler.Interleaving], [Budget.step], [Engine.step], [SliceRun.step]). Third-party code is a parameter or
    a class with its documented laws, each with an instance in a witness.

    ** Fuel

    [Cache.spill_loop] and [Budget.dispatch_loop] take fuel, the number of turns
    a loop may do; their theorems show that the fuel given suffices
    ([Cache.store_ends], [Budget.dispatch_settles]). The readers of
    [Wire] and [Pipeline] recurse on the script of the peer or on the requests
    left; [Path.strip_nzb_extensions] on the length of the name. [Queue.start_loop],
    [requeue_loop] and [preempt_loop] take the number of queued or active jobs;
    [QueueProps.start_next_queued_no_idle] and [QueueRun] show it suffices.
    [Cleanup.match_fuel] suffices by [Cleanup.match_loop_total];
    [PostProc.extract_rounds] is bounded by the nesting depth of the source. The calls of the slice tracker have no fuel: each section leaves
    sections that are smaller in the well-founded order [SliceProps.closer].

    ** Not modelled

    Of the queue manager: admission checks, history rows,
    notifications, scripts and the files of a job. Dialling and TLS, timers and idle probing, telemetry, the renames at the end
    of a job, SQL, the HTTP interface, the unpackers, [par2_fold.rs] and the
    resource gates of post-processing, and the front end: they are input and output or third-party code around the
    parts above. *)

From stdpp Require Export base tactics decidable list gmap sets strings pretty sorting.
From Stdlib Require Export NArith ZArith Lia.
From Stdlib Require Strings.Byte.


Declare Scope rust_scope.
Delimit Scope rust_scope with rust.

(** ** Machine integers

    Unsigned Rust integers are modelled in [N]; [usize] values that index or
    measure an in-memory vector are [nat], since such a vector never holds
    more than [isize::MAX] elements. [N.sub] and [Nat.sub] truncate at zero,
    which is [saturating_sub]. *)
Definition u8_max : N := 255.
Definition u32_max : N := 4294967295.
Definition u64_max : N := 18446744073709551615.

(** [a + b] on [u64] in a release build: the result wraps. *)
Definition u64_add (a b : N) : N := (a + b) `mod` 2 ^ 64.
(** [a * b] on [u64] in a release build. *)
Definition u64_mul (a b : N) : N := (a * b) `mod` 2 ^ 64.
(** [a.saturating_add(b)] on [u64]. *)
Definition u64_sat_add (a b : N) : N := N.min (a + b) u64_max.
(** [a + b] on [u32] in a release build. *)
Definition u32_add (a b : N) : N := (a + b) `mod` 2 ^ 32.
(** [a.saturating_add(b)] on [u32]. *)
Definition u32_sat_add (a b : N) : N := N.min (a + b) u32_max.

Notation "a +64 b" := (u64_add a b) (at level 50, left associativity) : rust_scope.
Notation "a *64 b" := (u64_mul a b) (at level 40, left associativity) : rust_scope.

Lemma u32_add_small a b : (a + b < 2 ^ 32)%N → u32_add a b = (a + b)%N.
Proof. intros. apply N.mod_small. lia. Qed.
Lemma u64_add_small a b : (a + b < 2 ^ 64)%N → u64_add a b = (a + b)%N.
Proof. intros. by apply N.mod_small. Qed.
Lemma u64_mul_small a b : (a * b < 2 ^ 64)%N → u64_mul a b = (a * b)%N.
Proof. intros. by apply N.mod_small. Qed.
Lemma u64_sat_add_small a b : (a + b ≤ u64_max)%N → u64_sat_add a b = (a + b)%N.
Proof. unfold u64_sat_add. lia. Qed.

(** ** Results

    [Result<A, E>], with the [?] operator as monadic bind. *)
Inductive result (E A : Type) : Type :=
  | Ok (a : A)
  | Err (e : E).
Arguments Ok {E A} a.
Arguments Err {E A} e.

#[global] Instance result_ret E : MRet (result E) := λ A a, Ok a.
#[global] Instance result_bind E : MBind (result E) := λ A B f r,
  match r with Ok a => f a | Err e => Err e end.
#[global] Instance result_fmap E : FMap (result E) := λ A B f r,
  match r with Ok a => Ok (f a) | Err e => Err e end.

Definition is_ok {E A} (r : result E A) : bool :=
  match r with Ok _ => true | Err _ => false end.

(** [o.ok_or(e)] *)
Definition ok_or {E A} (o : option A) (e : E) : result E A :=
  match o with Some a => Ok a | None => Err e end.

#[global] Instance result_eq_dec {E A} `{EqDecision E, EqDecision A} :
  EqDecision (result E A).
Proof. solve_decision. Defined.

(** ** Bytes *)
Abbreviation byte := Byte.byte.
Abbreviation bytes := (list Byte.byte).

#[global] Instance byte_eq_dec : EqDecision byte := Byte.byte_eq_dec.

(** [vec.resize(n, x)]: truncates or pads at the end. *)
Definition vec_resize {A} (n : nat) (x : A) (v : list A) : list A :=
  take n v ++ replicate (n - length v) x.

Lemma length_vec_resize {A} n (x : A) v : length (vec_resize n x v) = n.
Proof. unfold vec_resize. rewrite length_app, length_take, length_replicate. lia. Qed.

Lemma vec_resize_id {A} n (x : A) v : length v = n → vec_resize n x v = v.
Proof.
  intros <-. unfold vec_resize. by rewrite firstn_all, Nat.sub_diag, app_nil_r.
Qed.

(** ** List lemmas shared by the components *)
Lemma sum_list_with_ext {A} (f g : A → nat) (l : list A) :
  (∀ x, x ∈ l → f x = g x) → sum_list_with f l = sum_list_with g l.
Proof.
  induction l as [|x l IH]; intros H; simpl; [done|].
  rewrite H, IH; set_solver.
Qed.

Lemma sum_list_with_zero {A} (f : A → nat) (l : list A) :
  (∀ x, x ∈ l → f x = 0) → sum_list_with f l = 0.
Proof. induction l as [|x l IH]; intros H; simpl; [done|]. rewrite H, IH; set_solver. Qed.

Lemma list_filter_id {A} (P : A → Prop) `{!∀ x, Decision (P x)} (l : list A) :
  (∀ x, x ∈ l → P x) → filter P l = l.
Proof.
  induction l as [|x l IH]; intros HP; [done|].
  rewrite filter_cons_True by set_solver. f_equal. apply IH. set_solver.
Qed.

Lemma list_filter_ext {A} (P Q : A → Prop) `{!∀ x, Decision (P x), !∀ x, Decision (Q x)}
    (l : list A) :
  (∀ x, x ∈ l → P x ↔ Q x) → filter P l = filter Q l.
Proof.
  induction l as [|x l IH]; intros HPQ; [done|].
  rewrite !filter_cons, IH by set_solver.
  specialize (HPQ x ltac:(set_solver)).
  destruct (decide (P x)), (decide (Q x)); tauto.
Qed.

Lemma length_lookup_iff {A B} (l1 : list A) (l2 : list B) :
  (∀ j, is_Some (l1 !! j) ↔ is_Some (l2 !! j)) → length l1 = length l2.
Proof.
  intros H. apply Nat.le_antisymm; apply Nat.nlt_ge; intros Hlt%lookup_lt_is_Some_2;
    apply H in Hlt; apply lookup_lt_is_Some in Hlt; lia.
Qed.

Lemma sum_list_with_filter_ne {A} `{EqDecision A} (f : A → nat) (l : list A) k :
  NoDup l → k ∈ l →
  sum_list_with f l = f k + sum_list_with f (filter (λ x, x ≠ k) l).
Proof.
  induction l as [|x l IH]; intros Hnd Hk; [set_solver|].
  apply NoDup_cons in Hnd as [Hx Hnd]. simpl. rewrite filter_cons.
  destruct (decide (x = k)) as [Heq|Hne]; [subst x|].
  - rewrite decide_False by tauto.
    rewrite list_filter_id; [done|]. intros y Hy ->. done.
  - rewrite decide_True by done. simpl. rewrite (IH Hnd) by set_solver. lia.
Qed.

(** ** [sort] then [dedup]

    [Vec::dedup] drops consecutive repetitions, so after a sort it leaves each
    element once. *)
Fixpoint dedup {A} `{EqDecision A} (l : list A) : list A :=
  match l with
  | [] => []
  | x :: l' =>
    match dedup l' with
    | [] => [x]
    | y :: t => if decide (x = y) then y :: t else x :: y :: t
    end
  end.

Definition sort_dedup {A} `{EqDecision A} (R : relation A) `{!RelDecision R}
    (l : list A) : list A := dedup (merge_sort R l).

#[global] Instance N_le_total : Total N.le.
Proof. intros x y. lia. Qed.

Section sort_dedup.
Context {A : Type} `{EqDecision A} (R : relation A).

Lemma elem_of_dedup (l : list A) x : x ∈ dedup l ↔ x ∈ l.
Proof.
  revert x. induction l as [|y l IH]; intros x; simpl; [done|].
  rewrite elem_of_cons, <-IH. destruct (dedup l) as [|z t]; [set_solver|].
  case_decide; subst; set_solver.
Qed.

Lemma StronglySorted_dedup (l : list A) : StronglySorted R l → StronglySorted R (dedup l).
Proof.
  induction 1 as [|x l Hs IH Hall]; simpl; [constructor|].
  assert (Forall (R x) (dedup l)) as Hall'.
  { apply Forall_forall. intros y Hy. rewrite elem_of_dedup in Hy.
    rewrite Forall_forall in Hall. by apply Hall. }
  destruct (dedup l) as [|z t]; [repeat constructor|].
  case_decide; [done|by constructor].
Qed.

Lemma NoDup_dedup `{!AntiSymm (=) R} (l : list A) : StronglySorted R l → NoDup (dedup l).
Proof.
  induction 1 as [|x l Hs IH Hall]; simpl; [constructor|].
  pose proof (StronglySorted_dedup _ Hs) as Hs'.
  pose proof (λ y, proj1 (elem_of_dedup l y)) as Hin.
  destruct (dedup l) as [|z t]; [apply NoDup_singleton|].
  case_decide as Hxz; [done|]. apply NoDup_cons. split; [|done].
  intros Hx. apply Hxz. apply elem_of_cons in Hx as [->|Hx]; [done|].
  rewrite Forall_forall in Hall. apply StronglySorted_inv in Hs' as [_ Hz].
  rewrite Forall_forall in Hz. apply (anti_symm R); [apply Hall, Hin; set_solver|auto].
Qed.

Context `{!RelDecision R, !Total R, !Transitive R, !AntiSymm (=) R}.

Lemma elem_of_sort_dedup (l : list A) x : x ∈ sort_dedup R l ↔ x ∈ l.
Proof. unfold sort_dedup. by rewrite elem_of_dedup, merge_sort_Permutation. Qed.
Lemma NoDup_sort_dedup (l : list A) : NoDup (sort_dedup R l).
Proof. apply NoDup_dedup. by apply StronglySorted_merge_sort. Qed.
Lemma StronglySorted_sort_dedup (l : list A) : StronglySorted R (sort_dedup R l).
Proof. apply StronglySorted_dedup. by apply StronglySorted_merge_sort. Qed.

(** The result depends only on the set of elements. *)
Lemma sort_dedup_proper (l1 l2 : list A) :
  (∀ x, x ∈ l1 ↔ x ∈ l2) → sort_dedup R l1 = sort_dedup R l2.
Proof.
  intros Hl. apply (StronglySorted_unique R);
    [apply StronglySorted_sort_dedup..|].
  apply NoDup_Permutation; [apply NoDup_sort_dedup..|].
  intros x. by rewrite !elem_of_sort_dedup.
Qed.
End sort_dedup.

(** A strictly increasing list of numbers above [a] reaches at least
    [a + length]; when it ends exactly there it is the interval. *)
Lemma increasing_last_ge (l : list N) a x :
  StronglySorted N.lt l → (∀ y, y ∈ l → (a < y)%N) → last l = Some x →
  (a + N.of_nat (length l) ≤ x)%N.
Proof.
  intros Hs. revert a x. induction Hs as [|y l Hs IH Hall]; intros a x Ha Hl; [done|].
  pose proof (Ha y ltac:(set_solver)) as Hy.
  destruct l as [|z l]; simpl in *; [simplify_eq; lia|].
  rewrite Forall_forall in Hall.
  pose proof (IH y x ltac:(auto) Hl). lia.
Qed.

Lemma increasing_interval (l : list N) a :
  StronglySorted N.lt l → (∀ y, y ∈ l → (a < y)%N) →
  last l = Some (a + N.of_nat (length l))%N →
  ∀ i, i < length l → l !! i = Some (a + 1 + N.of_nat i)%N.
Proof.
  intros Hs. revert a. induction Hs as [|y l Hs IH Hall]; intros a Ha Hl i Hi; [simpl in Hi; lia|].
  pose proof (Ha y ltac:(set_solver)) as Hy. rewrite Forall_forall in Hall.
  destruct l as [|z l].
  { simpl in *. simplify_eq. destruct i; [simpl; f_equal; lia|simpl in *; lia]. }
  change (last (y :: z :: l)) with (last (z :: l)) in Hl.
  pose proof (increasing_last_ge (z :: l) y _ Hs ltac:(auto) Hl) as Hge.
  simpl length in *.
  assert (y = a + 1)%N as -> by lia.
  destruct i as [|i]; [simpl; f_equal; lia|].
  change ((a + 1)%N :: z :: l) with ([(a + 1)%N] ++ z :: l).
  rewrite lookup_app_r by (simpl; lia). simpl. rewrite Nat.sub_0_r.
  rewrite (IH (a + 1)%N); [f_equal; lia|auto| |lia]. rewrite Hl. f_equal. lia.
Qed.

Lemma StronglySorted_lt (l : list N) :
  StronglySorted N.le l → NoDup l → StronglySorted N.lt l.
Proof.
  induction 1 as [|x l Hs IH Hall]; intros Hnd; [constructor|].
  apply NoDup_cons in Hnd as [Hx Hnd]. constructor; [auto|].
  rewrite Forall_forall in *. intros y Hy. specialize (Hall y Hy).
  assert (x ≠ y) by (intros ->; done). lia.
Qed.

(** ** Tactics *)

(** Case analysis on every [match] or [decide] of the goal, closing the
    branches that contradict the context. *)
Ltac split_cases :=
  repeat (case_decide || case_bool_decide || case_match); simplify_eq/=; try done.

(** ** Reachability *)
Lemma rtc_invariant {A} (R : relation A) (I : A → Prop) x y :
  (∀ x y, I x → R x y → I y) → rtc R x y → I x → I y.
Proof. intros Hstep Hr. induction Hr; eauto. Qed.

(** ** Chunks *)

(** [slice::chunks(n)] for [n > 0]; the first argument bounds the number of
    chunks. *)
Fixpoint chunks_of {A} (fuel n : nat) (l : list A) : list (list A) :=
  match fuel, l with
  | S fuel', _ :: _ => take n l :: chunks_of fuel' n (drop n l)
  | _, _ => []
  end.
Definition chunks {A} (n : nat) (l : list A) : list (list A) := chunks_of (length l) n l.

Lemma concat_chunks_of {A} k (l : list A) fuel : 0 < k → length l ≤ fuel → concat (chunks_of fuel k l) = l.
Proof.
  intros Hk. revert l. induction fuel as [|fuel IH]; intros [|x l] Hl; simpl in *; try done; [lia|].
  rewrite IH by (rewrite length_drop; simpl; lia). apply take_drop.
Qed.

Lemma concat_chunks {A} k (l : list A) : 0 < k → concat (chunks k l) = l.
Proof. intros. by apply concat_chunks_of. Qed.
