(* ===== verification/FileSystem.v ===== *)
(** * The file system the components write to

    The kernel's file system is not part of the program. The components reach
    it through the interface below; [FileSystemLaws] states what they rely on
    (POSIX semantics of [open], [write], [pwrite], [unlink]). [MapFs] is a
    concrete file system satisfying the laws. *)
From S2P Require Import Prelude.

Abbreviation path := string.

(** The calls the code makes, each with its success flag where it can fail. *)
Class FileSystem (FS : Type) := {
  (** [File::open] then [read_to_end]: [None] is an I/O error. *)
  fs_read : FS → path → option bytes;
  (** [create_dir_all(parent)]; [File::create]; [write_all]; [sync_data]. *)
  fs_write : FS → path → bytes → FS * bool;
  (** [fs::remove_file], its result ignored by every caller. *)
  fs_remove : FS → path → FS;
  (** [create_dir_all(parent)]; [open] with write + create, no truncation. *)
  fs_open : FS → path → FS * bool;
  (** [write_all_at(data, offset)] on an open handle. *)
  fs_write_at : FS → path → N → bytes → FS * bool;
}.

(** [pwrite] on a file's bytes: a gap before the offset reads as zeros. *)
Definition splice (old : bytes) (offset : nat) (data : bytes) : bytes :=
  take offset (vec_resize (max offset (length old)) Byte.x00 old) ++ data
  ++ drop (offset + length data) old.

Lemma lookup_splice_inside old off data i :
  off ≤ i < off + length data → splice old off data !! i = data !! (i - off).
Proof.
  intros Hi. unfold splice.
  assert (length (take off (vec_resize (off `max` length old) Byte.x00 old)) = off) as Hl.
  { rewrite length_take, length_vec_resize. lia. }
  rewrite lookup_app_r by lia. rewrite Hl.
  apply lookup_app_l. lia.
Qed.

Lemma lookup_splice_outside old off data i :
  i < length old → (i < off ∨ off + length data ≤ i) →
  splice old off data !! i = old !! i.
Proof.
  intros Hlen Hi. unfold splice.
  assert (length (take off (vec_resize (off `max` length old) Byte.x00 old)) = off) as Hl.
  { rewrite length_take, length_vec_resize. lia. }
  destruct Hi as [Hi|Hi].
  - rewrite lookup_app_l by lia. rewrite lookup_take_lt by done. unfold vec_resize.
    rewrite lookup_app_l by (rewrite length_take; lia).
    by rewrite lookup_take_lt by lia.
  - rewrite lookup_app_r by lia. rewrite Hl.
    rewrite lookup_app_r by lia. rewrite lookup_drop. f_equal. lia.
Qed.

Lemma length_splice old off data :
  length (splice old off data) = max (length old) (off + length data).
Proof.
  unfold splice. rewrite !length_app, length_take, length_vec_resize, length_drop. lia.
Qed.

Class FileSystemLaws (FS : Type) `{FileSystem FS} := {
  fs_write_read fs p d fs' : fs_write fs p d = (fs', true) → fs_read fs' p = Some d;
  fs_write_other fs p d fs' b q :
    fs_write fs p d = (fs', b) → q ≠ p → fs_read fs' q = fs_read fs q;
  fs_remove_other fs p q : q ≠ p → fs_read (fs_remove fs p) q = fs_read fs q;
  fs_open_read fs p fs' :
    fs_open fs p = (fs', true) → fs_read fs' p = Some (default [] (fs_read fs p));
  fs_open_other fs p fs' b q :
    fs_open fs p = (fs', b) → q ≠ p → fs_read fs' q = fs_read fs q;
  fs_write_at_read fs p off d fs' old :
    fs_read fs p = Some old → fs_write_at fs p off d = (fs', true) →
    fs_read fs' p = Some (splice old (N.to_nat off) d);
  fs_write_at_other fs p off d fs' b q :
    fs_write_at fs p off d = (fs', b) → q ≠ p → fs_read fs' q = fs_read fs q;
}.

(** A file system as a finite map, with a set of paths no write reaches. *)
Module MapFs.
Record t := { files : gmap path bytes; broken : gset path }.

Definition with_files (fs : t) (m : gmap path bytes) : t :=
  {| files := m; broken := broken fs |}.

#[global] Instance map_fs : FileSystem t := {
  fs_read fs p := files fs !! p;
  fs_write fs p d :=
    if decide (p ∈ broken fs) then (fs, false)
    else (with_files fs (<[p := d]> (files fs)), true);
  fs_remove fs p := with_files fs (delete p (files fs));
  fs_open fs p :=
    if decide (p ∈ broken fs) then (fs, false)
    else (with_files fs (<[p := default [] (files fs !! p)]> (files fs)), true);
  fs_write_at fs p off d :=
    if decide (p ∈ broken fs) then (fs, false)
    else (with_files fs (<[p := splice (default [] (files fs !! p)) (N.to_nat off) d]>
           (files fs)), true);
}.

#[global] Instance map_fs_laws : FileSystemLaws t.
Proof.
  split; simpl; intros; repeat case_decide; simplify_eq/=; try done;
    rewrite ?lookup_insert_eq, ?lookup_insert_ne, ?lookup_delete_ne by done;
    simplify_option_eq; done.
Qed.

Definition empty : t := {| files := ∅; broken := ∅ |}.
End MapFs.

(** The file system that accepts every write. *)
Module GoodFs.
#[global] Instance good_fs : FileSystem (gmap path bytes) := {
  fs_read fs p := fs !! p;
  fs_write fs p d := (<[p := d]> fs, true);
  fs_remove fs p := delete p fs;
  fs_open fs p := (<[p := default [] (fs !! p)]> fs, true);
  fs_write_at fs p off d :=
    (<[p := splice (default [] (fs !! p)) (N.to_nat off) d]> fs, true);
}.

#[global] Instance good_fs_laws : FileSystemLaws (gmap path bytes).
Proof.
  split; simpl; intros; simplify_eq; rewrite ?lookup_insert_eq, ?lookup_insert_ne,
    ?lookup_delete_ne by done; simplify_option_eq; done.
Qed.
End GoodFs.
