(* ===== verification/Assembler.v ===== *)
(** * The file assembler

    Models [crates/nzb-decode/src/assembler.rs]: articles arrive in any order
    and from several threads, and each is written at its offset. [FileState]
    is the per-file record (the handle is the path it was opened on), the
    assembler is the map behind the [RwLock]. [sync_data] has no effect on
    what a read sees and is not modelled; the test-only write gate is left
    out. The two atomics [mark_written] updates are modelled twice: as one
    step for the sequential theorems, and as the two separate atomic steps
    ([swap], [fetch_add]) in [Module Interleaving]. *)
From S2P Require Import Prelude FileSystem.

Inductive AssemblerError :=
  | Io
  | FileNotRegistered (job file : string)
  | SegmentOutOfRange (segment total : N)
  | EmptySegmentData (segment : N)
  | WriteBeyondDeclaredSize (segment begin end_ declared : N).

#[global] Instance AssemblerError_eq_dec : EqDecision AssemblerError.
Proof. solve_decision. Defined.

Record FileState := {
  output_path : path;
  total_segments : N;
  segment_numbers : option (list N);
  declared_bytes : option N;
  written : list bool;
  written_count : N;
}.

Record FileRegistration := {
  reg_output_path : path;
  reg_segment_numbers : option (list N);
  reg_total_segments : N;
  reg_completed_segments : list N;
  reg_declared_bytes : option N;
}.

Record FileKey := MkFileKey { job_id : string; file_id : string }.

#[global] Instance FileKey_eq_dec : EqDecision FileKey.
Proof. solve_decision. Defined.
#[global] Instance FileKey_countable : Countable FileKey.
Proof.
  refine (inj_countable' (λ k, (job_id k, file_id k)) (λ t, MkFileKey t.1 t.2) _); by intros [].
Defined.

(** The map behind the lock. *)
Abbreviation FileAssembler := (gmap FileKey FileState).

Definition new : FileAssembler := ∅.

(** [slice::binary_search(..).ok()] on a sorted vector without repetitions:
    the position of the element. *)
Definition binary_search (numbers : list N) (n : N) : option nat :=
  fst <$> list_find (λ x, x = n) numbers.

Definition index_of (s : FileState) (segment_number : N) : option nat :=
  match segment_numbers s with
  | None =>
    if decide (segment_number ≠ 0%N ∧ (segment_number ≤ total_segments s)%N)
    then Some (N.to_nat (segment_number - 1)) else None
  | Some numbers => binary_search numbers segment_number
  end.

Definition with_written (s : FileState) (w : list bool) (n : N) : FileState := {|
  output_path := output_path s; total_segments := total_segments s;
  segment_numbers := segment_numbers s; declared_bytes := declared_bytes s;
  written := w; written_count := n |}.

(** [swap(1)] on a flag, then [fetch_add] on the count when it was clear. *)
Definition set_flag (s : FileState) (idx : nat) : FileState * bool :=
  if decide (written s !! idx = Some false)
  then (with_written s (<[idx := true]> (written s)) (u32_add (written_count s) 1), true)
  else (s, false).

Definition mark_completed (s : FileState) (segment_number : N) : FileState :=
  match index_of s segment_number with
  | None => s
  | Some idx => fst (set_flag s idx)
  end.

Definition FileState_new (r : FileRegistration) : FileState :=
  foldl mark_completed
    {| output_path := reg_output_path r; total_segments := reg_total_segments r;
       segment_numbers := reg_segment_numbers r; declared_bytes := reg_declared_bytes r;
       written := replicate (N.to_nat (reg_total_segments r)) false; written_count := 0 |}
    (reg_completed_segments r).

Definition is_complete (s : FileState) : bool := bool_decide (written_count s = total_segments s).

Definition progress (s : FileState) : N * N := (written_count s, total_segments s).

(** [true] when the file just became complete. *)
Definition mark_written (s : FileState) (segment_number : N) : FileState * bool :=
  match index_of s segment_number with
  | None => (s, false)
  | Some idx =>
    let '(s', fresh) := set_flag s idx in
    (s', fresh && bool_decide (written_count s' = total_segments s'))
  end.

(** The number of the segment at position [i] ([numbers[i]] is in bounds in
    the code; the default is never used on a registered file). *)
Definition number_at (s : FileState) (i : nat) : N :=
  match segment_numbers s with
  | None => N.of_nat i + 1
  | Some numbers => default 0%N (numbers !! i)
  end.

Definition missing_of (s : FileState) : list N :=
  map (λ iw, number_at s iw.1) (filter (λ iw, iw.2 = false) (imap pair (written s))).

Section assembler.
Context {FS : Type} `{FSI : FileSystem FS}.
Implicit Types (fs : FS) (a : FileAssembler).

Definition register_inner fs a (key : FileKey) (r : FileRegistration)
    : FS * FileAssembler * result AssemblerError unit :=
  match fs_open fs (reg_output_path r) with
  | (fs', false) => (fs', a, Err Io)
  | (fs', true) => (fs', <[key := FileState_new r]> a, Ok tt)
  end.

Definition register_file_with_completed_segments fs a (key : FileKey) (out : path) (total : N)
    (completed : list N) : FS * FileAssembler * result AssemblerError unit :=
  register_inner fs a key {| reg_output_path := out; reg_segment_numbers := None;
    reg_total_segments := total; reg_completed_segments := completed;
    reg_declared_bytes := None |}.

Definition register_file fs a (key : FileKey) (out : path) (total : N) :=
  register_file_with_completed_segments fs a key out total [].

(** The registration built from the numbers an NZB lists: [None] when they
    are exactly [1..=N]. *)
Definition registration_of (out : path) (numbers completed : list N) (declared : option N)
    : FileRegistration :=
  let numbers := sort_dedup N.le (filter (λ n, n ≠ 0%N) numbers) in
  let total := (N.of_nat (length numbers) `mod` 2 ^ 32)%N in
  let contiguous :=
    match last numbers with None => true | Some l => bool_decide (l = total) end in
  {| reg_output_path := out;
     reg_segment_numbers := if contiguous then None else Some numbers;
     reg_total_segments := total; reg_completed_segments := completed;
     reg_declared_bytes := declared |}.

Definition register_file_with_segment_numbers fs a (key : FileKey) (out : path)
    (numbers completed : list N) (declared : option N) :=
  register_inner fs a key (registration_of out numbers completed declared).

Definition declared_size a (key : FileKey) : option N := a !! key ≫= declared_bytes.

Definition segment_gap a (key : FileKey) : option (N * N) :=
  s ← a !! key; numbers ← segment_numbers s;
  Some (total_segments s, default 0%N (last numbers)).

Definition assemble_article fs a (key : FileKey) (segment_number data_begin : N)
    (data : bytes) : FS * FileAssembler * result AssemblerError bool :=
  match a !! key with
  | None => (fs, a, Err (FileNotRegistered (job_id key) (file_id key)))
  | Some s =>
    if decide (index_of s segment_number = None) then
      (fs, a, Err (SegmentOutOfRange segment_number (total_segments s)))
    else if decide (data = []) then (fs, a, Err (EmptySegmentData segment_number))
    else
      let end_ := u64_sat_add data_begin (N.of_nat (length data)) in
      let beyond := match declared_bytes s with
                    | Some declared => bool_decide (declared < end_)%N
                    | None => false
                    end in
      if beyond then
        (fs, a, Err (WriteBeyondDeclaredSize segment_number data_begin end_
                       (default 0%N (declared_bytes s))))
      else
        match fs_write_at fs (output_path s) data_begin data with
        | (fs', false) => (fs', a, Err Io)
        | (fs', true) =>
          let '(s', complete) := mark_written s segment_number in
          (fs', <[key := s']> a, Ok complete)
        end
  end.

Definition is_file_complete a (key : FileKey) : bool :=
  match a !! key with Some s => is_complete s | None => false end.
Definition get_file_progress a (key : FileKey) : N * N :=
  match a !! key with Some s => progress s | None => (0, 0)%N end.
Definition missing_segments a (key : FileKey) : list N :=
  match a !! key with Some s => missing_of s | None => [] end.
Definition clear_job a (job : string) : FileAssembler :=
  filter (λ kv, job_id kv.1 ≠ job) a.
End assembler.

(** ** Expected segments

    [index_of] of a registered file is the position of the number among the
    distinct non-zero numbers the NZB lists, in both representations. *)
Definition expected (numbers : list N) : list N :=
  sort_dedup N.le (filter (λ n, n ≠ 0%N) numbers).

Lemma expected_spec numbers n : n ∈ expected numbers ↔ n ∈ numbers ∧ n ≠ 0%N.
Proof. unfold expected. rewrite elem_of_sort_dedup, list_elem_of_filter. tauto. Qed.

Lemma expected_NoDup numbers : NoDup (expected numbers).
Proof. apply (NoDup_sort_dedup N.le). Qed.

Lemma expected_increasing numbers : StronglySorted N.lt (expected numbers).
Proof.
  apply StronglySorted_lt; [apply (StronglySorted_sort_dedup N.le)|apply expected_NoDup].
Qed.

Lemma binary_search_Some l n i : NoDup l → binary_search l n = Some i ↔ l !! i = Some n.
Proof.
  intros Hnd. unfold binary_search. rewrite fmap_Some. split.
  - intros ([j x] & Hf & ->). apply list_find_Some in Hf as (? & -> & _). done.
  - intros Hi. exists (i, n). split; [|done]. apply list_find_Some. split_and!; [done..|].
    intros j y Hj Hlt ->. pose proof (NoDup_lookup _ _ _ _ Hnd Hi Hj). lia.
Qed.

Lemma binary_search_None l n : binary_search l n = None ↔ n ∉ l.
Proof.
  unfold binary_search. rewrite fmap_None, list_find_None, Forall_forall. naive_solver.
Qed.

Lemma last_elem_of {A} (l : list A) x : last l = Some x → x ∈ l.
Proof. intros H. rewrite last_lookup in H. by eapply list_elem_of_lookup_2. Qed.

(** Marking changes only the flags and their count. *)
Definition same_shape (s s' : FileState) : Prop :=
  output_path s' = output_path s ∧ total_segments s' = total_segments s ∧
  segment_numbers s' = segment_numbers s ∧ declared_bytes s' = declared_bytes s ∧
  length (written s') = length (written s).

#[global] Instance same_shape_preorder : PreOrder same_shape.
Proof. split; [by intros s|]. unfold same_shape. intros s1 s2 s3. naive_solver congruence. Qed.

Lemma set_flag_shape s i : same_shape s (fst (set_flag s i)).
Proof. unfold set_flag. case_decide; [|done]. split_and!; try done. apply length_insert. Qed.

Lemma mark_completed_shape s n : same_shape s (mark_completed s n).
Proof. unfold mark_completed. destruct (index_of s n); [apply set_flag_shape|done]. Qed.

Lemma foldl_mark_completed_shape ns s : same_shape s (foldl mark_completed s ns).
Proof.
  revert s. induction ns as [|n ns IH]; intros s; simpl; [done|].
  etrans; [apply mark_completed_shape|apply IH].
Qed.

Lemma index_of_shape s s' n : same_shape s s' → index_of s' n = index_of s n.
Proof. unfold index_of. by intros (_ & -> & -> & _). Qed.

Lemma mark_written_shape s n : same_shape s (fst (mark_written s n)).
Proof.
  unfold mark_written. destruct (index_of s n) as [i|]; [|done].
  pose proof (set_flag_shape s i). by destruct (set_flag s i).
Qed.

Lemma contiguous_search (l : list N) n :
  StronglySorted N.lt l → (∀ y, y ∈ l → (0 < y)%N) →
  (∀ x, last l = Some x → x = N.of_nat (length l)) →
  binary_search l n =
    if decide (n ≠ 0%N ∧ (n ≤ N.of_nat (length l))%N) then Some (N.to_nat (n - 1)) else None.
Proof.
  intros Hs Hpos Hlast.
  assert (∀ i, i < length l → l !! i = Some (0 + 1 + N.of_nat i)%N) as Hint.
  { destruct (last l) as [x|] eqn:Hl.
    - apply increasing_interval; [done|done|]. rewrite Hl, (Hlast x); [f_equal; lia|done].
    - apply last_None in Hl as ->. simpl. lia. }
  assert (NoDup l) as Hnd.
  { apply NoDup_alt. intros i j x Hi Hj.
    pose proof (lookup_lt_Some _ _ _ Hi). pose proof (lookup_lt_Some _ _ _ Hj).
    rewrite Hint in Hi, Hj by done. simplify_eq. lia. }
  case_decide as Hn.
  - apply binary_search_Some; [done|]. rewrite Hint by lia. f_equal. lia.
  - apply binary_search_None. intros [i Hi]%list_elem_of_lookup_1.
    pose proof (lookup_lt_Some _ _ _ Hi). rewrite Hint in Hi by done. simplify_eq. lia.
Qed.

Lemma registration_index out numbers completed declared n :
  (N.of_nat (length (expected numbers)) < 2 ^ 32)%N →
  index_of (FileState_new (registration_of out numbers completed declared)) n =
    binary_search (expected numbers) n.
Proof.
  intros Hlen. unfold FileState_new.
  rewrite (index_of_shape _ _ _ (foldl_mark_completed_shape _ _)).
  unfold index_of, registration_of. simpl. fold (expected numbers).
  rewrite N.mod_small by done.
  destruct (last (expected numbers)) as [x|] eqn:Hl.
  - case_bool_decide as Hx; [|done]. symmetry. apply contiguous_search.
    + apply expected_increasing.
    + intros y Hy%expected_spec. lia.
    + intros y Hy. congruence.
  - apply last_None in Hl. rewrite Hl. symmetry. apply contiguous_search; simpl; try done.
    + constructor.
    + set_solver.
Qed.

Lemma registration_total out numbers completed declared :
  (N.of_nat (length (expected numbers)) < 2 ^ 32)%N →
  total_segments (FileState_new (registration_of out numbers completed declared)) =
    N.of_nat (length (expected numbers)).
Proof.
  intros Hlen. unfold FileState_new.
  destruct (foldl_mark_completed_shape completed {| output_path := out;
    total_segments := reg_total_segments (registration_of out numbers completed declared);
    segment_numbers := reg_segment_numbers (registration_of out numbers completed declared);
    declared_bytes := declared;
    written := replicate (N.to_nat (reg_total_segments
      (registration_of out numbers completed declared))) false; written_count := 0 |})
    as (_ & Ht & _). simpl in *. rewrite Ht. by apply N.mod_small.
Qed.

(** ** Assembling a whole file *)
Record Segment := { seg_no : N; seg_begin : N; seg_data : bytes }.

Section run.
Context {FS : Type} `{FSI : FileSystem FS}.

(** The calls the download workers make, in the order they happen. *)
Fixpoint run (fs : FS) (a : FileAssembler) (key : FileKey) (segs : list Segment)
    : FS * FileAssembler * list (result AssemblerError bool) :=
  match segs with
  | [] => (fs, a, [])
  | sg :: rest =>
    let '(fs1, a1, r) := assemble_article fs a key (seg_no sg) (seg_begin sg) (seg_data sg) in
    let '(fs2, a2, rs) := run fs1 a1 key rest in
    (fs2, a2, r :: rs)
  end.

(** [sg] carries the bytes of [D] at its offset. *)
Definition carries (D : bytes) (sg : Segment) : Prop :=
  seg_data sg ≠ [] ∧ (N.to_nat (seg_begin sg) + length (seg_data sg) ≤ length D)%nat ∧
  ∀ i, i < length (seg_data sg) → seg_data sg !! i = D !! (N.to_nat (seg_begin sg) + i).

Definition covers (segs : list Segment) (i : nat) : Prop :=
  ∃ sg, sg ∈ segs ∧ N.to_nat (seg_begin sg) ≤ i < N.to_nat (seg_begin sg) + length (seg_data sg).

Context `{!FileSystemLaws FS}.

(** What holds after the segments [dn] have been written. *)
Record progress_inv (D : bytes) (numbers : list N) (key : FileKey) (out : path)
    (dn : list Segment) (fs : FS) (a : FileAssembler) (s : FileState) : Prop := {
  inv_lookup : a !! key = Some s;
  inv_path : output_path s = out;
  inv_index n : index_of s n = binary_search (expected numbers) n;
  inv_total : total_segments s = N.of_nat (length (expected numbers));
  inv_flags : written s = map (λ n, bool_decide (n ∈ map seg_no dn)) (expected numbers);
  inv_count : written_count s = N.of_nat (length dn);
  inv_declared : ∀ d, declared_bytes s = Some d → (N.of_nat (length D) ≤ d)%N;
  inv_file : ∃ f, fs_read fs out = Some f ∧ length f ≤ length D ∧
    ∀ i, covers dn i → f !! i = D !! i;
}.

Lemma registration_inv D numbers key out declared fs (a : FileAssembler) old :
  (N.of_nat (length (expected numbers)) < 2 ^ 32)%N →
  a !! key = Some (FileState_new (registration_of out numbers [] declared)) →
  (∀ d, declared = Some d → (N.of_nat (length D) ≤ d)%N) →
  fs_read fs out = Some old → length old ≤ length D →
  progress_inv D numbers key out [] fs a
    (FileState_new (registration_of out numbers [] declared)).
Proof.
  intros Hlen Ha Hd Hf Hold. split; try done.
  - intros n. by apply registration_index.
  - by apply registration_total.
  - simpl. fold (expected numbers). rewrite N.mod_small by done. rewrite Nat2N.id.
    apply list_eq. intros i. rewrite list_lookup_fmap.
    destruct (expected numbers !! i) as [n|] eqn:Hi; simpl.
    + apply lookup_replicate_2. by eapply lookup_lt_Some.
    + apply lookup_replicate_None. by apply lookup_ge_None.
  - exists old. split_and!; [done|done|]. intros i (sg & ? & _). set_solver.
Qed.

(** One article: it is accepted, and it completes the file exactly when it
    is the last of the expected ones. *)
Lemma assemble_step D numbers key out dn fs a s sg fs' a' r :
  (∀ fs p off d, snd (fs_write_at fs p off d) = true) →
  (N.of_nat (length (expected numbers)) < 2 ^ 32)%N →
  (N.of_nat (length D) ≤ u64_max)%N →
  progress_inv D numbers key out dn fs a s →
  carries D sg → seg_no sg ∈ expected numbers → seg_no sg ∉ map seg_no dn →
  length dn < length (expected numbers) →
  assemble_article fs a key (seg_no sg) (seg_begin sg) (seg_data sg) = (fs', a', r) →
  r = Ok (bool_decide (S (length dn) = length (expected numbers))) ∧
  ∃ s', progress_inv D numbers key out (dn ++ [sg]) fs' a' s'.
Proof.
  intros Hw Hsmall HD [Hl Hp Hi Ht Hfl Hc Hdecl (f & Hf & Hflen & Hcov)]
    (Hne & Hfit & Hbytes) Hin Hnew Hlt.
  apply list_elem_of_lookup_1 in Hin as [idx Hidx].
  pose proof (proj2 (binary_search_Some _ _ idx (expected_NoDup numbers)) Hidx) as Hbs.
  rewrite <-Hi in Hbs. unfold assemble_article. rewrite Hl.
  rewrite decide_False by (rewrite Hbs; done). rewrite decide_False by done.
  rewrite u64_sat_add_small by lia.
  assert ((match declared_bytes s with
    | Some declared => bool_decide (declared < seg_begin sg + N.of_nat (length (seg_data sg)))%N
    | None => false end) = false) as ->.
  { destruct (declared_bytes s) as [d|] eqn:Hd; [|done]. specialize (Hdecl d eq_refl).
    apply bool_decide_eq_false_2. lia. }
  destruct (fs_write_at fs (output_path s) (seg_begin sg) (seg_data sg)) as [fs1 ok] eqn:Hwr.
  pose proof (Hw fs (output_path s) (seg_begin sg) (seg_data sg)) as Hok.
  rewrite Hwr in Hok. simpl in Hok. subst ok.
  pose proof (mark_written_shape s (seg_no sg)) as Hsh. unfold mark_written in *.
  rewrite Hbs in *. unfold set_flag in *.
  assert (written s !! idx = Some false) as Hclear.
  { rewrite Hfl, list_lookup_fmap, Hidx. simpl. by rewrite bool_decide_eq_false_2. }
  rewrite decide_True in * by done. simpl in *.
  destruct Hsh as (_ & _ & Hsn & Hdb & _).
  assert (u32_add (written_count s) 1 = N.of_nat (S (length dn))) as Hcount.
  { unfold u32_add. rewrite Hc, N.mod_small by lia. lia. }
  intros [= <- <- <-]. split.
  { f_equal. rewrite Hcount, Ht. apply bool_decide_ext. lia. }
  eexists. split.
  - by rewrite lookup_insert_eq.
  - done.
  - done.
  - done.
  - simpl. rewrite Hfl. apply list_eq. intros i. rewrite list_lookup_fmap.
    rewrite list_lookup_insert, !list_lookup_fmap.
    destruct (decide (i = idx)) as [->|Hne'].
    + rewrite decide_True; [|split; [done|rewrite length_map; by eapply lookup_lt_Some]].
      rewrite Hidx. simpl. rewrite bool_decide_eq_true_2; [done|].
      rewrite map_app, elem_of_app. right. simpl. set_solver.
    + rewrite decide_False by (intros [? _]; congruence).
      destruct (expected numbers !! i) as [n|] eqn:Hn; simpl; [|done]. f_equal.
      apply bool_decide_ext. rewrite map_app, elem_of_app. simpl.
      split; [by left|]. intros [?|Hn']; [done|]. exfalso. apply Hne'.
      apply list_elem_of_singleton in Hn' as ->.
      by eapply NoDup_lookup; [apply expected_NoDup|..].
  - simpl. rewrite Hcount, length_app. simpl. lia.
  - done.
  - rewrite Hp in Hwr. exists (splice f (N.to_nat (seg_begin sg)) (seg_data sg)).
    split_and!; [by eapply fs_write_at_read|rewrite length_splice; lia|].
    intros i (sg' & Hsg' & Hrange).
    destruct (decide (N.to_nat (seg_begin sg) ≤ i <
      N.to_nat (seg_begin sg) + length (seg_data sg))) as [Hr|Hr].
    + rewrite lookup_splice_inside by done. rewrite Hbytes by lia. f_equal. lia.
    + assert (sg' ∈ dn) as Hold.
      { apply elem_of_app in Hsg' as [?|?%list_elem_of_singleton]; [done|]. subst. lia. }
      assert (f !! i = D !! i) as Hfi by (apply Hcov; by exists sg').
      destruct (decide (i < length f)) as [Hlf|Hlf].
      * rewrite lookup_splice_outside; [done|done|lia].
      * rewrite (proj2 (lookup_ge_None f i)) in Hfi by lia. rewrite <-Hfi.
        (* beyond the old file: only reachable when [D] also ends there *)
        symmetry in Hfi. apply lookup_ge_None in Hfi.
        apply lookup_ge_None. rewrite length_splice. lia.
Qed.

Lemma run_inv D numbers key out : ∀ segs dn fs a s fs' a' rs,
  (∀ fs p off d, snd (fs_write_at fs p off d) = true) →
  (N.of_nat (length (expected numbers)) < 2 ^ 32)%N →
  (N.of_nat (length D) ≤ u64_max)%N →
  progress_inv D numbers key out dn fs a s →
  Forall (carries D) segs → NoDup (map seg_no (dn ++ segs)) →
  (∀ n, n ∈ map seg_no segs → n ∈ expected numbers) →
  length dn + length segs = length (expected numbers) → segs ≠ [] →
  run fs a key segs = (fs', a', rs) →
  rs = replicate (pred (length segs)) (Ok false) ++ [Ok true] ∧
  ∃ s', progress_inv D numbers key out (dn ++ segs) fs' a' s'.
Proof.
  induction segs as [|sg segs IH]; intros dn fs a s fs' a' rs Hw Hsm HD Hinv Hcar Hnd Hin Hlen Hne; [done|].
  simpl. destruct (assemble_article fs a key (seg_no sg) (seg_begin sg) (seg_data sg))
    as [[fs1 a1] r] eqn:Hstep.
  destruct (run fs1 a1 key segs) as [[fs2 a2] rs2] eqn:Hrun. intros [= <- <- <-].
  apply Forall_cons in Hcar as [Hc Hcar]. simpl in Hlen.
  assert (seg_no sg ∉ map seg_no dn) as Hnew.
  { rewrite map_app in Hnd. apply NoDup_app in Hnd as (_ & Hdisj & _).
    intros Hd. apply (Hdisj _ Hd). simpl. set_solver. }
  edestruct (assemble_step D numbers key out dn fs a s sg) as (-> & s1 & Hinv1);
    [done..|apply Hin; simpl; set_solver|done|lia|exact Hstep|].
  destruct segs as [|sg2 segs].
  - simpl in *. simplify_eq. split; [|by exists s1].
    simpl. do 2 f_equal. apply bool_decide_eq_true_2. lia.
  - edestruct (IH (dn ++ [sg]) fs1 a1 s1 fs2 a2 rs2) as (-> & s2 & Hinv2); [done..| | | | |exact Hrun|].
    + by rewrite <-app_assoc.
    + intros n Hn. apply Hin. set_solver.
    + rewrite length_app. simpl in *. lia.
    + done.
    + split; [|exists s2; by rewrite <-app_assoc in Hinv2].
      simpl. f_equal. f_equal. apply bool_decide_eq_false_2. simpl in Hlen. lia.
Qed.
End run.

(** [missing_segments] from the flags: the expected numbers still clear. *)
Lemma missing_flags (f : nat → N) (g : N → bool) (l : list N) (h : nat → nat) :
  (∀ i n, l !! i = Some n → f (h i) = n) →
  map (λ iw, f iw.1) (filter (λ iw, iw.2 = false) (imap (λ i w, (h i, w)) (map g l))) =
    filter (λ n, g n = false) l.
Proof.
  revert h. induction l as [|n l IH]; intros h Hf; [done|]. simpl.
  rewrite !filter_cons. simpl.
  rewrite (imap_ext _ (λ i w, (h (S i), w))) by done.
  pose proof (IH (λ i, h (S i)) (λ i m Hi, Hf (S i) m Hi)) as IH'.
  case_decide; simpl; rewrite IH'; [|done]. f_equal. by apply (Hf 0).
Qed.

Lemma number_at_index s n i : index_of s n = Some i → number_at s i = n.
Proof.
  unfold index_of, number_at. destruct (segment_numbers s) as [l|].
  - unfold binary_search. rewrite fmap_Some. intros ([j x] & Hf & ->).
    apply list_find_Some in Hf as (Hx & -> & _). simpl. by rewrite Hx.
  - case_decide; [|done]. intros [= <-]. lia.
Qed.

(** ** Properties *)

(** C12. The articles of a file, written in any order, assemble exactly its
    bytes: every call succeeds, only the last one reports the file complete,
    the file on disk is the original content, and no segment is missing. The
    expected segments are the distinct non-zero numbers the NZB lists,
    contiguous or not. *)
Theorem assemble_any_order {FS} `{FSL : FileSystemLaws FS} (D : bytes) (numbers : list N)
    (key : FileKey) (out : path) (declared : option N) (segs : list Segment)
    (fs : FS) (a : FileAssembler) (old : bytes) :
  (∀ fs p off d, snd (fs_write_at fs p off d) = true) →
  (N.of_nat (length (expected numbers)) < 2 ^ 32)%N →
  (N.of_nat (length D) ≤ u64_max)%N →
  (∀ d, declared = Some d → (N.of_nat (length D) ≤ d)%N) →
  a !! key = Some (FileState_new (registration_of out numbers [] declared)) →
  fs_read fs out = Some old → length old ≤ length D →
  segs ≠ [] → NoDup (map seg_no segs) →
  (∀ n, n ∈ map seg_no segs ↔ n ∈ numbers ∧ n ≠ 0%N) →
  Forall (carries D) segs → (∀ i, i < length D → covers segs i) →
  ∃ fs' a',
    run fs a key segs = (fs', a', replicate (pred (length segs)) (Ok false) ++ [Ok true]) ∧
    fs_read fs' out = Some D ∧
    is_file_complete a' key = true ∧ missing_segments a' key = [].
Proof.
  intros Hw Hsm HD Hdecl Ha Hf Hold Hne Hnd Hset Hcar Hcov.
  assert (length segs = length (expected numbers)) as Hlen.
  { rewrite <-(length_map seg_no). apply Permutation_length, NoDup_Permutation;
      [done|apply expected_NoDup|]. intros n. by rewrite Hset, expected_spec. }
  destruct (run fs a key segs) as [[fs' a'] rs] eqn:Hrun.
  edestruct (run_inv D numbers key out segs []) as (-> & s' & [Hl Hp Hi Ht Hfl Hc _ (f & Hf' & Hfl' & Hfc)]);
    [done..|by eapply registration_inv|done|done| |simpl; lia|done|exact Hrun|].
  { intros n Hn. by apply expected_spec, Hset. }
  simpl in *. exists fs', a'. split_and!; [done| | |].
  - rewrite Hf'. f_equal. apply list_eq. intros i.
    destruct (decide (i < length D)) as [Hlt|Hge]; [by apply Hfc, Hcov|].
    rewrite !(proj2 (lookup_ge_None _ i)) by lia. done.
  - unfold is_file_complete, is_complete. rewrite Hl. apply bool_decide_eq_true_2.
    rewrite Hc, Ht. lia.
  - unfold missing_segments, missing_of. rewrite Hl, Hfl.
    rewrite (missing_flags _ (λ n, bool_decide (n ∈ map seg_no segs)) _ id).
    + apply elem_of_nil_inv. intros n [Hn Hin]%list_elem_of_filter.
      apply bool_decide_eq_false in Hn. by apply Hn, Hset, expected_spec.
    + intros i n Hin. apply number_at_index. rewrite Hi.
      by apply binary_search_Some; [apply expected_NoDup|].
Qed.

(** Every way [assemble_article] refuses an article leaves the disk and
    the progress untouched, and refusals happen exactly in the documented
    cases: an unregistered file, a number the file does not expect, an empty
    article, or a write that would end past the size the NZB declared. *)
Theorem assemble_refusals {FS} `{FSI : FileSystem FS} (fs : FS) (a : FileAssembler)
    (key : FileKey) (n begin : N) (data : bytes) fs' a' r :
  assemble_article fs a key n begin data = (fs', a', r) →
  match a !! key with
  | None => (fs', a', r) = (fs, a, Err (FileNotRegistered (job_id key) (file_id key)))
  | Some s =>
    if decide (index_of s n = None) then
      (fs', a', r) = (fs, a, Err (SegmentOutOfRange n (total_segments s)))
    else if decide (data = []) then (fs', a', r) = (fs, a, Err (EmptySegmentData n))
    else match declared_bytes s with
         | Some d =>
           if decide (d < N.min (begin + N.of_nat (length data)) u64_max)%N then
             (fs', a', r) = (fs, a, Err (WriteBeyondDeclaredSize n begin
               (N.min (begin + N.of_nat (length data)) u64_max) d))
           else fs' = fst (fs_write_at fs (output_path s) begin data) ∧ (r = Err Io ∨ is_ok r = true)
         | None =>
           fs' = fst (fs_write_at fs (output_path s) begin data) ∧ (r = Err Io ∨ is_ok r = true)
         end
  end.
Proof.
  unfold assemble_article. destruct (a !! key) as [s|]; [|by intros [= <- <- <-]].
  case_decide; [by intros [= <- <- <-]|]. case_decide; [by intros [= <- <- <-]|].
  assert (∀ x, (match fs_write_at fs (output_path s) begin data with
     | (fs2, true) => let '(s', c) := mark_written s n in (fs2, <[key := s']> a, Ok c)
     | (fs2, false) => (fs2, a, Err Io) end) = x → x = (fs', a', r) →
     fs' = fst (fs_write_at fs (output_path s) begin data) ∧ (r = Err Io ∨ is_ok r = true)) as Hwrite.
  { intros x <-. destruct (fs_write_at _ _ _ _) as [fs2 []]; [|intros [= <- <- <-]; simpl; auto].
    destruct (mark_written s n). intros [= <- <- <-]. simpl. auto. }
  fold (u64_sat_add begin (N.of_nat (length data))).
  destruct (declared_bytes s) as [d|]; [|by apply Hwrite].
  destruct (bool_decide (d < u64_sat_add begin (N.of_nat (length data)))%N) eqn:Hb.
  - intros [= <- <- <-]. apply bool_decide_eq_true in Hb. by rewrite decide_True.
  - apply bool_decide_eq_false in Hb. rewrite decide_False by done. by apply Hwrite.
Qed.

(** ** Concurrent [mark_written]

    Each worker runs [written[idx].swap(1)] and then, when it was the first,
    [written_count.fetch_add(1)], comparing the new count with the total. The
    two are separate atomic steps, and any number of workers interleave. *)
Module Interleaving.
Inductive pc :=
  | Before (idx : nat)
  | Swapped               (** was first; has not bumped the count yet *)
  | Returned (completed : bool).

Record shared := { flags : list bool; count : N; workers : list pc }.

Inductive step (total : N) : shared → shared → Prop :=
  | step_swap_first st w idx :
      workers st !! w = Some (Before idx) → flags st !! idx = Some false →
      step total st {| flags := <[idx := true]> (flags st); count := count st;
                       workers := <[w := Swapped]> (workers st) |}
  | step_swap_again st w idx :
      workers st !! w = Some (Before idx) → flags st !! idx = Some true →
      step total st {| flags := flags st; count := count st;
                       workers := <[w := Returned false]> (workers st) |}
  | step_add st w :
      workers st !! w = Some Swapped →
      step total st {| flags := flags st; count := count st + 1;
        workers := <[w := Returned (bool_decide (count st + 1 = total)%N)]> (workers st) |}.

Definition trues (l : list bool) : nat := sum_list_with (λ b : bool, if b then 1 else 0) l.
Definition pending (l : list pc) : nat :=
  sum_list_with (λ p, match p with Swapped => 1 | _ => 0 end) l.
Definition completions (l : list pc) : nat :=
  sum_list_with (λ p, match p with Returned true => 1 | _ => 0 end) l.

Record inv (total : N) (st : shared) : Prop := {
  inv_len : N.of_nat (length (flags st)) = total;
  inv_count : (count st + N.of_nat (pending (workers st)))%N = N.of_nat (trues (flags st));
  inv_completions : completions (workers st) = if decide (count st = total) then 1 else 0;
}.

Lemma sum_insert {A} (f : A → nat) (l : list A) i x y :
  l !! i = Some x → sum_list_with f (<[i := y]> l) + f x = sum_list_with f l + f y.
Proof.
  revert i. induction l as [|z l IH]; intros [|i] H; simplify_eq/=; [lia|].
  pose proof (IH i H). lia.
Qed.

Lemma trues_le l : trues l ≤ length l.
Proof. unfold trues. induction l as [|[] l IH]; simpl; lia. Qed.

Lemma step_inv total st st' : inv total st → step total st st' → inv total st'.
Proof.
  intros [Hl Hc Hk] Hs. unfold pending, trues, completions in *.
  pose proof (trues_le (flags st)) as Hle. unfold trues in Hle.
  destruct Hs as [st w idx Hw Hf|st w idx Hw Hf|st w Hw].
  - pose proof (sum_insert (λ b : bool, if b then 1 else 0) _ _ _ true Hf).
    pose proof (sum_insert (λ p, match p with Swapped => 1 | _ => 0 end) _ _ _ Swapped Hw).
    pose proof (sum_insert (λ p, match p with Returned true => 1 | _ => 0 end) _ _ _ Swapped Hw).
    simpl in *. split; simpl; [by rewrite length_insert|unfold pending, trues; lia|unfold completions; lia].
  - pose proof (sum_insert (λ p, match p with Swapped => 1 | _ => 0 end) _ _ _ (Returned false) Hw).
    pose proof (sum_insert (λ p, match p with Returned true => 1 | _ => 0 end) _ _ _ (Returned false) Hw).
    simpl in *. split; simpl; [done|unfold pending, trues; lia|unfold completions; lia].
  - set (b := bool_decide (count st + 1 = total)%N).
    pose proof (sum_insert (λ p, match p with Swapped => 1 | _ => 0 end) _ _ _ (Returned b) Hw).
    pose proof (sum_insert (λ p, match p with Returned true => 1 | _ => 0 end) _ _ _ (Returned b) Hw).
    simpl in *. split; simpl; [done|unfold pending, trues; lia|unfold completions].
    subst b. case_bool_decide; repeat case_decide; simpl in *; lia.
Qed.

Lemma steps_inv total st st' : inv total st → rtc (step total) st st' → inv total st'.
Proof. intros Hi Hr. revert Hi. induction Hr; eauto using step_inv. Qed.
End Interleaving.

Lemma trues_full l :
  Interleaving.trues l = length l ↔ Forall (λ b, b = true) l.
Proof.
  unfold Interleaving.trues. split.
  - induction l as [|b l IH]; simpl; [constructor|]. pose proof (Interleaving.trues_le l) as Hle.
    unfold Interleaving.trues in Hle. destruct b; intros H; [|lia].
    constructor; [done|]. apply IH. lia.
  - induction 1 as [|b l Hb Hall IH]; simpl; [done|]. subst. lia.
Qed.

(** However the workers' atomic steps interleave, and however many of
    them carry the same segment, at most one of them is told that the file
    just became complete; and once all have returned, one was told exactly
    when every segment is written. *)
Theorem completion_reported_once (fl : list bool) (idxs : list nat) (st : Interleaving.shared) :
  Interleaving.trues fl < length fl →
  rtc (Interleaving.step (N.of_nat (length fl)))
    {| Interleaving.flags := fl; Interleaving.count := N.of_nat (Interleaving.trues fl);
       Interleaving.workers := map Interleaving.Before idxs |} st →
  Interleaving.completions (Interleaving.workers st) ≤ 1 ∧
  (Forall (λ p, ∃ b, p = Interleaving.Returned b) (Interleaving.workers st) →
   Interleaving.completions (Interleaving.workers st) = 1 ↔
   Forall (λ b, b = true) (Interleaving.flags st)).
Proof.
  intros Hlt Hr.
  assert (Interleaving.inv (N.of_nat (length fl)) st) as [Hl Hc Hk].
  { eapply Interleaving.steps_inv; [|exact Hr]. split; simpl; [done| |].
    - assert (Interleaving.pending (map Interleaving.Before idxs) = 0) as ->; [|lia].
      apply sum_list_with_zero. intros p (i & -> & _)%list_elem_of_fmap. done.
    - rewrite decide_False by lia. apply sum_list_with_zero.
      intros p (i & -> & _)%list_elem_of_fmap. done. }
  split; [rewrite Hk; case_decide; lia|]. intros Hall.
  assert (Interleaving.pending (Interleaving.workers st) = 0) as Hp.
  { apply sum_list_with_zero. intros p Hin. rewrite Forall_forall in Hall.
    by destruct (Hall p Hin) as [b ->]. }
  rewrite <-trues_full, Hk. case_decide; [split; [intros _|done]|split; [done|]]; lia.
Qed.

(** ** Witnesses *)
Module AssemblerExample.
Definition key := MkFileKey "job" "file".
Definition D : bytes := replicate 3 Byte.x01 ++ replicate 3 Byte.x02 ++ replicate 2 Byte.x03.
Definition seg n b d := {| seg_no := n; seg_begin := b; seg_data := d |}.
(** Numbers 2, 5 and 9, listed with a repetition and a zero, arriving last
    part first. *)
Definition numbers : list N := [5; 2; 9; 5; 0]%N.
Definition segs : list Segment :=
  [seg 9 6 (replicate 2 Byte.x03); seg 2 0 (replicate 3 Byte.x01); seg 5 3 (replicate 3 Byte.x02)].
Definition start : gmap path bytes * FileAssembler :=
  let '(fs, a, _) := register_file_with_segment_numbers (FS := MapFs.t) MapFs.empty new key
    "/out" numbers [] (Some 8%N) in (MapFs.files fs, a).
End AssemblerExample.

Lemma assemble_any_order_witness :
  ∃ fs' a',
    run AssemblerExample.start.1 AssemblerExample.start.2 AssemblerExample.key
      AssemblerExample.segs = (fs', a', [Ok false; Ok false; Ok true]) ∧
    fs_read fs' "/out" = Some AssemblerExample.D.
Proof.
  destruct (assemble_any_order AssemblerExample.D AssemblerExample.numbers AssemblerExample.key
    "/out" (Some 8%N) AssemblerExample.segs AssemblerExample.start.1 AssemblerExample.start.2 [])
    as (fs' & a' & H1 & H2 & _).
  - done.
  - vm_compute. done.
  - vm_compute. done.
  - intros d [= <-]. vm_compute. done.
  - vm_compute. done.
  - vm_compute. done.
  - vm_compute. lia.
  - done.
  - vm_compute. repeat constructor; set_solver.
  - intros n. unfold AssemblerExample.segs, AssemblerExample.numbers. simpl.
    rewrite !elem_of_cons, !elem_of_nil. lia.
  - repeat constructor; try (vm_compute; done); try (vm_compute; lia);
      intros i Hi; simpl in Hi; do 3 (destruct i as [|i]; [done|]); lia.
  - intros i Hi. unfold covers, AssemblerExample.segs. vm_compute in Hi.
    destruct (decide (i < 3)); [eexists; split; [right; left|vm_compute; lia]|].
    destruct (decide (i < 6)); [eexists; split; [right; right; left|vm_compute; lia]|].
    eexists; split; [left|vm_compute; lia].
  - exists fs', a'. split; [exact H1|exact H2].
Defined.

Lemma assemble_refusals_witness :
  assemble_article (FS := MapFs.t) MapFs.empty new AssemblerExample.key 1 0 [] =
    (MapFs.empty, new, Err (FileNotRegistered "job" "file")).
Proof.
  exact (assemble_refusals MapFs.empty new AssemblerExample.key 1 0 [] MapFs.empty new
    (Err (FileNotRegistered "job" "file")) eq_refl).
Defined.

Lemma completion_reported_once_witness :
  Interleaving.completions [Interleaving.Swapped; Interleaving.Before 0] ≤ 1.
Proof.
  apply (completion_reported_once [false] [0; 0]
    {| Interleaving.flags := [true]; Interleaving.count := 0;
       Interleaving.workers := [Interleaving.Swapped; Interleaving.Before 0] |});
    [vm_compute; lia|].
  apply rtc_once.
  exact (Interleaving.step_swap_first 1
    {| Interleaving.flags := [false]; Interleaving.count := 0;
       Interleaving.workers := [Interleaving.Before 0; Interleaving.Before 0] |} 0 0 eq_refl eq_refl).
Defined.
