(* ===== verification/Cache.v ===== *)
(** * The bounded article cache

    Models [crates/nzb-decode/src/cache.rs]: decoded articles are kept in
    memory up to [max_bytes]; [store] spills the oldest to temporary files.
    The state is [CacheInner] and the three counters; the lock is not
    modelled, since every operation holds it from start to end. The spill
    loop of [store] has no bound in the code, so it is a loop with fuel:
    [None] is fuel running out. Theorems: enough fuel exists whenever the
    article fits the limit, the loop never ends when it does not fit and the
    disk accepts writes, and the cache refines a plain map from keys to
    bytes. *)
From S2P Require Import Prelude FileSystem.

Record CacheKey := MkCacheKey {
  job_id : string;
  file_id : string;
  segment_number : N;
}.

#[global] Instance CacheKey_eq_dec : EqDecision CacheKey.
Proof. solve_decision. Defined.
#[global] Instance CacheKey_countable : Countable CacheKey.
Proof.
  refine (inj_countable' (λ k, (job_id k, file_id k, segment_number k))
    (λ t, MkCacheKey t.1.1 t.1.2 t.2) _); by intros [].
Defined.

(** Where a cached entry's data lives. *)
Inductive EntryLocation :=
  | Memory (data : bytes)
  | Disk (p : path).

Record CacheEntry := { location : EntryLocation; size : nat }.

Record CacheInner := {
  entries : gmap CacheKey CacheEntry;
  insertion_order : list CacheKey;
  memory_bytes : nat;
  max_bytes : nat;
  work_dirs : gmap string path;
}.

Record ArticleCache := {
  inner : CacheInner;
  cache_hits : N;
  cache_misses : N;
  disk_spills : N;
}.

Record CacheStats := { stat_hits : N; stat_misses : N; stat_spills : N }.

(** The I/O error of a failed spill read. *)
Inductive CacheError := Io.

Definition new (limit : nat) : ArticleCache := {|
  inner := {| entries := ∅; insertion_order := []; memory_bytes := 0;
              max_bytes := limit; work_dirs := ∅ |};
  cache_hits := 0; cache_misses := 0; disk_spills := 0 |}.

Definition with_inner (c : ArticleCache) (i : CacheInner) : ArticleCache :=
  {| inner := i; cache_hits := cache_hits c; cache_misses := cache_misses c;
     disk_spills := disk_spills c |}.

Definition register_work_dir (c : ArticleCache) (job : string) (dir : path) : ArticleCache :=
  let i := inner c in
  with_inner c {| entries := entries i; insertion_order := insertion_order i;
    memory_bytes := memory_bytes i; max_bytes := max_bytes i;
    work_dirs := <[job := dir]> (work_dirs i) |}.

Definition is_memory (e : CacheEntry) : bool :=
  match location e with Memory _ => true | Disk _ => false end.

Section cache.
Context {FS : Type} `{FSI : FileSystem FS} (temp_dir : path).
Implicit Types fs : FS.

(** [base.join(".cache_{file_id}_{segment}.tmp")] *)
Definition spill_path (dirs : gmap string path) (key : CacheKey) : path :=
  let base := default temp_dir (dirs !! job_id key) in
  base +:+ "/.cache_" +:+ file_id key +:+ "_" +:+ pretty (segment_number key) +:+ ".tmp".

(** The head of [store]: an entry under the same key is dropped. *)
Definition drop_old (i : CacheInner) (key : CacheKey) : CacheInner :=
  match entries i !! key with
  | None => i
  | Some old => {|
      entries := delete key (entries i);
      insertion_order := filter (λ k, k ≠ key) (insertion_order i);
      memory_bytes :=
        if is_memory old then memory_bytes i - size old else memory_bytes i;
      max_bytes := max_bytes i;
      work_dirs := work_dirs i |}
  end.

(** One turn of the spill loop for [evict_key], popped off the order whose
    remainder is [rest]. The flag is [true] when the loop goes on, [false]
    after the [break] of a failed spill. *)
Definition spill_turn (fs : FS) (i : CacheInner) (spills : N)
    (evict_key : CacheKey) (rest : list CacheKey) : FS * CacheInner * N * bool :=
  let with_order es order mem :=
    {| entries := es; insertion_order := order; memory_bytes := mem;
       max_bytes := max_bytes i; work_dirs := work_dirs i |} in
  match entries i !! evict_key with
  | None => (fs, with_order (entries i) rest (memory_bytes i), spills, true)
  | Some entry =>
    match location entry with
    | Disk _ =>
      (fs, with_order (entries i) (rest ++ [evict_key]) (memory_bytes i), spills, true)
    | Memory mem_data =>
      let sp := spill_path (work_dirs i) evict_key in
      match fs_write fs sp mem_data with
      | (fs', false) =>
        (fs', with_order (entries i) (evict_key :: rest) (memory_bytes i), spills, false)
      | (fs', true) =>
        (fs',
         with_order (<[evict_key := {| location := Disk sp; size := size entry |}]> (entries i))
           (rest ++ [evict_key]) (memory_bytes i - size entry),
         u64_add spills 1, true)
      end
    end
  end.

(** [while memory_bytes + data_len > max_bytes && !order.is_empty()] *)
Fixpoint spill_loop (fuel : nat) (fs : FS) (i : CacheInner) (spills : N) (data_len : nat)
    : option (FS * CacheInner * N) :=
  if decide (max_bytes i < memory_bytes i + data_len) then
    match insertion_order i with
    | [] => Some (fs, i, spills)
    | evict_key :: rest =>
      match fuel with
      | 0 => None
      | S fuel' =>
        match spill_turn fs i spills evict_key rest with
        | (fs', i', spills', true) => spill_loop fuel' fs' i' spills' data_len
        | (fs', i', spills', false) => Some (fs', i', spills')
        end
      end
    end
  else Some (fs, i, spills).

(** The tail of [store]: the new entry goes in memory, last in order. *)
Definition insert_new (i : CacheInner) (key : CacheKey) (data : bytes) : CacheInner := {|
  entries := <[key := {| location := Memory data; size := length data |}]> (entries i);
  insertion_order := insertion_order i ++ [key];
  memory_bytes := memory_bytes i + length data;
  max_bytes := max_bytes i;
  work_dirs := work_dirs i |}.

(** [store] always returns [Ok(())]; [None] means the loop used up [fuel]. *)
Definition store (fuel : nat) (fs : FS) (c : ArticleCache) (key : CacheKey) (data : bytes)
    : option (FS * ArticleCache) :=
  '(fs', i', spills') ←
    spill_loop fuel fs (drop_old (inner c) key) (disk_spills c) (length data);
  Some (fs', {| inner := insert_new i' key data; cache_hits := cache_hits c;
                cache_misses := cache_misses c; disk_spills := spills' |}).

Definition load (fs : FS) (c : ArticleCache) (key : CacheKey)
    : ArticleCache * result CacheError (option bytes) :=
  let hit := {| inner := inner c; cache_hits := u64_add (cache_hits c) 1;
                cache_misses := cache_misses c; disk_spills := disk_spills c |} in
  let miss := {| inner := inner c; cache_hits := cache_hits c;
                 cache_misses := u64_add (cache_misses c) 1; disk_spills := disk_spills c |} in
  match entries (inner c) !! key with
  | Some entry =>
    match location entry with
    | Memory data => (hit, Ok (Some data))
    | Disk p => (hit, data ← ok_or (fs_read fs p) Io; Ok (Some data))
    end
  | None => (miss, Ok None)
  end.

(** Removal of one entry, shared by [remove] and [clear_job]: a spilled
    entry's file is deleted. *)
Definition drop_entry (fs : FS) (i : CacheInner) (key : CacheKey) : FS * CacheInner :=
  match entries i !! key with
  | None => (fs, i)
  | Some entry =>
    let es := delete key (entries i) in
    match location entry with
    | Memory _ =>
      (fs, {| entries := es; insertion_order := insertion_order i;
              memory_bytes := memory_bytes i - size entry;
              max_bytes := max_bytes i; work_dirs := work_dirs i |})
    | Disk p =>
      (fs_remove fs p,
       {| entries := es; insertion_order := insertion_order i;
          memory_bytes := memory_bytes i;
          max_bytes := max_bytes i; work_dirs := work_dirs i |})
    end
  end.

Definition retain_order (i : CacheInner) (P : CacheKey → Prop) `{!∀ k, Decision (P k)}
    : CacheInner := {|
  entries := entries i; insertion_order := filter P (insertion_order i);
  memory_bytes := memory_bytes i; max_bytes := max_bytes i; work_dirs := work_dirs i |}.

Definition remove (fs : FS) (c : ArticleCache) (key : CacheKey) : FS * ArticleCache :=
  match entries (inner c) !! key with
  | None => (fs, c)
  | Some _ =>
    let '(fs', i) := drop_entry fs (inner c) key in
    (fs', with_inner c (retain_order i (λ k, k ≠ key)))
  end.

(** The loop over [keys_to_remove] of [clear_job]. *)
Definition drop_entries (fs : FS) (i : CacheInner) (keys : list CacheKey) : FS * CacheInner :=
  foldl (λ st k, drop_entry st.1 st.2 k) (fs, i) keys.

Definition clear_job (fs : FS) (c : ArticleCache) (job : string) : FS * ArticleCache :=
  let keys_to_remove :=
    filter (λ k, job_id k = job) (map fst (map_to_list (entries (inner c)))) in
  let '(fs', i) := drop_entries fs (inner c) keys_to_remove in
  let i' := retain_order i (λ k, job_id k ≠ job) in
  (fs', with_inner c {| entries := entries i'; insertion_order := insertion_order i';
    memory_bytes := memory_bytes i'; max_bytes := max_bytes i';
    work_dirs := delete job (work_dirs i') |}).

Definition size_of (c : ArticleCache) : nat := memory_bytes (inner c).

Definition set_limit (c : ArticleCache) (limit : nat) : ArticleCache :=
  let i := inner c in
  with_inner c {| entries := entries i; insertion_order := insertion_order i;
    memory_bytes := memory_bytes i; max_bytes := limit; work_dirs := work_dirs i |}.

Definition stats (c : ArticleCache) : CacheStats :=
  {| stat_hits := cache_hits c; stat_misses := cache_misses c;
     stat_spills := disk_spills c |}.

(** ** Specification: a map from keys to bytes *)

Definition entry_data fs (e : CacheEntry) : option bytes :=
  match location e with Memory d => Some d | Disk p => fs_read fs p end.

(** What a [load] can see. *)
Definition contents fs (es : gmap CacheKey CacheEntry) : gmap CacheKey bytes :=
  omap (entry_data fs) es.

Definition mem_size (es : gmap CacheKey CacheEntry) (k : CacheKey) : nat :=
  match es !! k with
  | Some e => if is_memory e then size e else 0
  | None => 0
  end.

(** The bookkeeping: the order lists each key once, and [memory_bytes] is
    the size of the entries in memory. *)
Record accounting (i : CacheInner) : Prop := {
  acct_nodup : NoDup (insertion_order i);
  acct_order k : k ∈ insertion_order i ↔ is_Some (entries i !! k);
  acct_memory : memory_bytes i = sum_list_with (mem_size (entries i)) (insertion_order i);
}.

(** Every entry is readable, has the size it records, and if spilled lives
    at its key's spill path. *)
Record wf_files fs (dirs : gmap string path) (es : gmap CacheKey CacheEntry) : Prop := {
  wf_data k e : es !! k = Some e → ∃ d, entry_data fs e = Some d ∧ length d = size e;
  wf_disk k e p : es !! k = Some e → location e = Disk p → p = spill_path dirs k;
}.

Definition wf fs (i : CacheInner) : Prop :=
  accounting i ∧ wf_files fs (work_dirs i) (entries i).

(** No two of the keys [K] share a spill file. *)
Definition distinct_spills (dirs : gmap string path) (K : gset CacheKey) : Prop :=
  ∀ k1 k2, k1 ∈ K → k2 ∈ K → spill_path dirs k1 = spill_path dirs k2 → k1 = k2.

(** *** Bookkeeping lemmas *)

Lemma mem_size_insert_ne es k k' e : k' ≠ k → mem_size (<[k := e]> es) k' = mem_size es k'.
Proof. intros. unfold mem_size. by rewrite lookup_insert_ne. Qed.
Lemma mem_size_delete_ne es k k' : k' ≠ k → mem_size (delete k es) k' = mem_size es k'.
Proof. intros. unfold mem_size. by rewrite lookup_delete_ne. Qed.

Lemma accounting_new limit : accounting (inner (new limit)).
Proof.
  split; simpl; [constructor| |done].
  intros k. rewrite lookup_empty. split; [set_solver|]. by intros [? ?].
Qed.

Lemma accounting_delete i k e order mem :
  accounting i → entries i !! k = Some e →
  order = filter (λ k', k' ≠ k) (insertion_order i) →
  mem = (if is_memory e then memory_bytes i - size e else memory_bytes i) →
  accounting {| entries := delete k (entries i); insertion_order := order;
                memory_bytes := mem; max_bytes := max_bytes i; work_dirs := work_dirs i |}.
Proof.
  intros [Hnd Hord Hmem] Hk -> ->. split; simpl.
  - by apply NoDup_filter.
  - intros k'. rewrite list_elem_of_filter, Hord.
    destruct (decide (k' = k)) as [->|?].
    + rewrite lookup_delete_eq. split; [tauto|]. by intros [? ?].
    + rewrite lookup_delete_ne by done. tauto.
  - assert (k ∈ insertion_order i) as Hin by (apply Hord; eauto).
    rewrite (sum_list_with_ext _ (mem_size (entries i)))
      by (intros ? [??]%list_elem_of_filter; by apply mem_size_delete_ne).
    rewrite (sum_list_with_filter_ne _ _ k Hnd Hin) in Hmem.
    unfold mem_size at 1 in Hmem. rewrite Hk in Hmem. destruct (is_memory e); lia.
Qed.

Lemma accounting_drop_old i k : accounting i → accounting (drop_old i k).
Proof.
  intros H. unfold drop_old. destruct (entries i !! k) eqn:Hk; [|done].
  by eapply accounting_delete.
Qed.

Lemma drop_old_lookup i k k' :
  entries (drop_old i k) !! k' = if decide (k' = k) then None else entries i !! k'.
Proof.
  unfold drop_old. destruct (entries i !! k) eqn:Hk; simpl; case_decide; subst;
    rewrite ?lookup_delete_eq, ?lookup_delete_ne by done; done.
Qed.

(** One turn keeps the bookkeeping; when the loop goes on, the key moved to
    the back and is on disk. *)
Lemma spill_turn_accounting fs i sp k rest fs' i' sp' b :
  accounting i → insertion_order i = k :: rest →
  spill_turn fs i sp k rest = (fs', i', sp', b) →
  accounting i' ∧ max_bytes i' = max_bytes i ∧ work_dirs i' = work_dirs i ∧
  insertion_order i' = (if b then rest ++ [k] else k :: rest) ∧
  (b = true → ∃ e', entries i' !! k = Some e' ∧ is_memory e' = false) ∧
  (∀ k', k' ≠ k → entries i' !! k' = entries i !! k').
Proof.
  intros [Hnd Hord Hmem] Ho. rewrite Ho in Hnd, Hmem.
  assert (∀ k', k' ∈ rest ++ [k] ↔ k' ∈ k :: rest) as Hperm by set_solver.
  assert (NoDup (rest ++ [k])) as Hnd'.
  { apply NoDup_cons in Hnd as [??]. apply NoDup_app. split_and!; [done| |apply NoDup_singleton].
    set_solver. }
  destruct (proj1 (Hord k)) as [e He]; [rewrite Ho; set_solver|].
  unfold spill_turn. rewrite He. destruct (location e) as [d|p] eqn:Hl.
  - destruct (fs_write fs _ d) as [fs1 []]; intros [= <- <- <- <-]; simpl.
    + split_and!; [|done|done|done|intros _; eexists; by rewrite lookup_insert_eq|].
      2:{ intros. by rewrite lookup_insert_ne. }
      split; simpl; [done| |].
      * intros k'. rewrite Hperm, <-Ho, Hord.
        destruct (decide (k' = k)) as [->|]; [|by rewrite lookup_insert_ne].
        rewrite lookup_insert_eq, He. split; eauto.
      * rewrite sum_list_with_app. simpl. rewrite Hmem. simpl.
        assert (mem_size (entries i) k = size e) as ->
          by (unfold mem_size, is_memory; by rewrite He, Hl).
        assert (mem_size (<[k := {| location := Disk (spill_path (work_dirs i) k);
            size := size e |}]> (entries i)) k = 0) as ->
          by (unfold mem_size; by rewrite lookup_insert_eq).
        apply NoDup_cons in Hnd as [Hk _].
        rewrite (sum_list_with_ext (mem_size (<[k := _]> _)) (mem_size (entries i)) rest);
          [lia|]. intros x Hx. apply mem_size_insert_ne. intros ->. done.
    + split_and!; try done. split; simpl; [done|intros; by rewrite <-Ho|done].
  - intros [= <- <- <- <-]; simpl. split_and!; try done.
    + split; simpl; [done|intros; by rewrite Hperm, <-Ho|].
      rewrite sum_list_with_app, Hmem. simpl. lia.
    + intros _. exists e. by unfold is_memory; rewrite Hl.
Qed.

Lemma accounting_insert_new i k d :
  accounting i → entries i !! k = None → accounting (insert_new i k d).
Proof.
  intros [Hnd Hord Hmem] Hk.
  assert (k ∉ insertion_order i) as Hni.
  { rewrite Hord, Hk. by intros [? ?]. }
  split; simpl.
  - apply NoDup_app. split_and!; [done|set_solver|apply NoDup_singleton].
  - intros k'. rewrite elem_of_app, list_elem_of_singleton, Hord.
    destruct (decide (k' = k)) as [->|].
    + rewrite lookup_insert_eq. naive_solver.
    + rewrite lookup_insert_ne by done. naive_solver.
  - rewrite sum_list_with_app, Hmem. simpl.
    assert (mem_size (<[k:={| location := Memory d; size := length d |}]> (entries i)) k
      = length d) as -> by (unfold mem_size; by rewrite lookup_insert_eq).
    rewrite (sum_list_with_ext (mem_size (<[k := _]> _)) (mem_size (entries i)));
      [lia|]. intros x Hx. apply mem_size_insert_ne. by intros ->.
Qed.

(** *** Termination of the spill loop *)

Lemma memory_all_spilled i :
  accounting i → (∀ k e, k ∈ insertion_order i → entries i !! k = Some e → is_memory e = false) →
  memory_bytes i = 0.
Proof.
  intros Ha Hall. rewrite (acct_memory _ Ha). apply sum_list_with_zero.
  intros k Hk. unfold mem_size. destruct (entries i !! k) eqn:He; [|done].
  by rewrite (Hall k _ Hk He).
Qed.

(** The keys rotated to the back ([post]) are on disk, so a pass over the
    others ([pre]) is all the loop can need. *)
Lemma spill_loop_total pre : ∀ fuel fs i sp len post,
  accounting i → insertion_order i = pre ++ post →
  (∀ k e, k ∈ post → entries i !! k = Some e → is_memory e = false) →
  len ≤ max_bytes i → length pre ≤ fuel →
  is_Some (spill_loop fuel fs i sp len).
Proof.
  induction pre as [|k pre IH]; intros fuel fs i sp len post Ha Ho Hpost Hlen Hfuel;
    unfold spill_loop; fold spill_loop.
  - assert (memory_bytes i = 0) as Hm.
    { apply memory_all_spilled; [done|]. intros k e. rewrite Ho. apply Hpost. }
    destruct fuel; simpl; rewrite decide_False by lia; eauto.
  - destruct fuel as [|fuel]; simpl in Hfuel; [lia|]. simpl. rewrite Ho. simpl.
    case_decide; [|eauto].
    destruct (spill_turn fs i sp k (pre ++ post)) as [[[fs' i'] sp'] b] eqn:Ht.
    destruct (spill_turn_accounting _ _ _ _ _ _ _ _ _ Ha Ho Ht)
      as (Ha' & Hmax & _ & Ho' & Hk & Hothers).
    destruct b; [|eauto].
    apply (IH _ _ _ _ _ (post ++ [k])); [done|by rewrite app_assoc| |lia|lia].
    intros k' e Hin He. apply elem_of_app in Hin as [Hin|Hin].
    + destruct (decide (k' = k)) as [->|].
      * destruct Hk as (? & ? & ?); [done|]. by simplify_eq.
      * rewrite Hothers in He by done. eauto.
    + apply list_elem_of_singleton in Hin as ->.
      destruct Hk as (? & ? & ?); [done|]. by simplify_eq.
Qed.

Lemma spill_loop_never_ends : ∀ fuel fs i sp len,
  (∀ fs p d, snd (fs_write fs p d) = true) →
  accounting i → insertion_order i ≠ [] → max_bytes i < len →
  spill_loop fuel fs i sp len = None.
Proof.
  induction fuel as [|fuel IH]; intros fs i sp len Hw Ha Ho Hlen; simpl;
    rewrite decide_True by lia;
    destruct (insertion_order i) as [|k rest] eqn:Ho'; try done.
  destruct (spill_turn fs i sp k rest) as [[[fs' i'] sp'] b] eqn:Ht.
  destruct (spill_turn_accounting _ _ _ _ _ _ _ _ _ Ha Ho' Ht)
    as (Ha' & Hmax & _ & Ho2 & _ & _).
  destruct b.
  - apply IH; [done|done| |lia]. rewrite Ho2. by destruct rest.
  - exfalso. revert Ht. unfold spill_turn.
    destruct (entries i !! k) as [e|]; [|done].
    destruct (location e); [|done].
    specialize (Hw fs (spill_path (work_dirs i) k) data).
    destruct (fs_write _ _ _) as [? []]; simpl in Hw; done.
Qed.

Lemma drop_old_fields i k :
  max_bytes (drop_old i k) = max_bytes i ∧ work_dirs (drop_old i k) = work_dirs i ∧
  length (insertion_order (drop_old i k)) ≤ length (insertion_order i).
Proof.
  unfold drop_old. destruct (entries i !! k); simpl; split_and!; try done.
  apply length_filter.
Qed.

(** The loop leaves enough room when every write succeeds. *)
Lemma spill_loop_bound : ∀ fuel fs i sp len fs' i' sp',
  (∀ fs p d, snd (fs_write fs p d) = true) →
  accounting i → len ≤ max_bytes i →
  spill_loop fuel fs i sp len = Some (fs', i', sp') →
  memory_bytes i' + len ≤ max_bytes i ∧ max_bytes i' = max_bytes i.
Proof.
  induction fuel as [|fuel IH]; intros fs i sp len fs' i' sp' Hw Ha Hlen; simpl;
    (case_decide; [|intros; simplify_eq; lia]);
    destruct (insertion_order i) as [|k rest] eqn:Ho; intros; simplify_eq.
  - rewrite (acct_memory _ Ha), Ho in H. simpl in H. lia.
  - rewrite (acct_memory _ Ha), Ho in H. simpl in H. lia.
  - destruct (spill_turn fs i sp k rest) as [[[fs1 i1] sp1] b] eqn:Ht.
    destruct (spill_turn_accounting _ _ _ _ _ _ _ _ _ Ha Ho Ht) as (Ha1 & Hmax & _).
    destruct b.
    + rewrite <-Hmax in Hlen |- *. by eapply IH.
    + exfalso. revert Ht. unfold spill_turn.
      destruct (entries i !! k) as [e|]; [|done].
      destruct (location e); [|done].
      specialize (Hw fs (spill_path (work_dirs i) k) data).
      destruct (fs_write _ _ _) as [? []]; simpl in Hw; done.
Qed.

(** *** The file side *)

(** A change of one spill file is invisible to the entries of other keys. *)
Lemma entry_data_other fs fs' dirs K k0 k e :
  (∀ q, q ≠ spill_path dirs k0 → fs_read fs' q = fs_read fs q) →
  distinct_spills dirs K → k0 ∈ K → k ∈ K → k ≠ k0 →
  (∀ p, location e = Disk p → p = spill_path dirs k) →
  entry_data fs' e = entry_data fs e.
Proof.
  intros Hother Hd H0 Hk Hne Hp. unfold entry_data.
  destruct (location e) as [d|p] eqn:Hl; [done|].
  apply Hother. rewrite (Hp p) by done. intros Heq. by apply Hne, Hd.
Qed.

Lemma contents_lookup fs es k : contents fs es !! k = es !! k ≫= entry_data fs.
Proof. apply lookup_omap. Qed.

Lemma wf_files_delete fs dirs es k : wf_files fs dirs es → wf_files fs dirs (delete k es).
Proof. intros [H1 H2]. split; intros k' e; setoid_rewrite lookup_delete_Some; naive_solver. Qed.

Lemma contents_delete fs es k : contents fs (delete k es) = delete k (contents fs es).
Proof. apply omap_delete. Qed.

Lemma wf_files_insert_memory fs dirs es k d :
  wf_files fs dirs es →
  wf_files fs dirs (<[k := {| location := Memory d; size := length d |}]> es).
Proof.
  intros [H1 H2]. split; intros k' e; setoid_rewrite lookup_insert_Some;
    unfold entry_data in *; naive_solver.
Qed.

(** After a change confined to the spill file of [k0], the entries of other
    keys are as before. *)
Lemma wf_files_frame fs fs' dirs es K k0 :
  (∀ q, q ≠ spill_path dirs k0 → fs_read fs' q = fs_read fs q) →
  distinct_spills dirs K → k0 ∈ K → dom es ⊆ K → k0 ∉ dom es →
  wf_files fs dirs es →
  wf_files fs' dirs es ∧ contents fs' es = contents fs es.
Proof.
  intros Hother Hd Hk0 Hdom Hni [H1 H2].
  assert (∀ k e, es !! k = Some e → entry_data fs' e = entry_data fs e) as Hsame.
  { intros k e He.
    assert (k ∈ dom es) by (by apply elem_of_dom_2 in He).
    eapply (entry_data_other fs fs' dirs K k0 k); eauto. set_solver. }
  split.
  - split; [|done]. intros k e He. rewrite (Hsame _ _ He). eauto.
  - apply map_eq. intros k. rewrite !contents_lookup.
    destruct (es !! k) eqn:He; simpl; [|done]. eauto.
Qed.

Context `{!FileSystemLaws FS}.

Lemma spill_turn_files fs i sp k rest fs' i' sp' b :
  wf_files fs (work_dirs i) (entries i) →
  distinct_spills (work_dirs i) (dom (entries i)) →
  spill_turn fs i sp k rest = (fs', i', sp', b) →
  wf_files fs' (work_dirs i) (entries i') ∧
  contents fs' (entries i') = contents fs (entries i) ∧
  dom (entries i') = dom (entries i).
Proof.
  intros Hwf Hd. unfold spill_turn.
  destruct (entries i !! k) as [e|] eqn:He; [|by intros [= <- <- <- <-]].
  destruct (location e) as [d|p] eqn:Hl; [|by intros [= <- <- <- <-]].
  assert (k ∈ dom (entries i)) as Hk by (by apply elem_of_dom_2 in He).
  destruct (wf_data _ _ _ Hwf k e He) as (d' & Hd' & Hlen).
  unfold entry_data in Hd'. rewrite Hl in Hd'. simplify_eq.
  destruct (fs_write fs (spill_path (work_dirs i) k) d') as [fs1 ok] eqn:Hw.
  destruct (wf_files_frame fs fs1 (work_dirs i) (delete k (entries i)) (dom (entries i)) k)
    as [Hwf1 Hc1];
    [by intros; eapply fs_write_other|done|done|set_solver|set_solver|by apply wf_files_delete|].
  destruct Hwf1 as [Hdata1 Hdisk1].
  destruct ok; intros [= <- <- <- <-]; simpl.
  - apply fs_write_read in Hw. split_and!.
    + split.
      * intros k' e'. rewrite lookup_insert_Some. intros [[<- <-]|[Hne He']].
        { exists d'. by unfold entry_data; simpl. }
        apply Hdata1 with k'. by rewrite lookup_delete_ne.
      * intros k' e' p'. rewrite lookup_insert_Some. intros [[<- <-]|[Hne He']] Hp'.
        { simpl in Hp'. congruence. }
        apply (Hdisk1 k' e'); [by rewrite lookup_delete_ne|done].
    + apply map_eq. intros k'. rewrite !contents_lookup, lookup_insert. case_decide.
      * subst k'. rewrite He. simpl. unfold entry_data. simpl. by rewrite Hl.
      * apply (f_equal (lookup k')) in Hc1. rewrite !contents_lookup in Hc1.
        by rewrite lookup_delete_ne in Hc1.
    + rewrite dom_insert_L. set_solver.
  - split_and!; [|apply map_eq; intros k'; rewrite !contents_lookup|done].
    + split; [|apply (wf_disk _ _ _ Hwf)].
      intros k' e' He'. destruct (decide (k' = k)) as [->|].
      * simplify_eq. exists d'. by unfold entry_data; rewrite Hl.
      * apply Hdata1 with k'. by rewrite lookup_delete_ne.
    + destruct (decide (k' = k)) as [->|].
      * rewrite He. simpl. unfold entry_data. by rewrite Hl.
      * apply (f_equal (lookup k')) in Hc1. rewrite !contents_lookup in Hc1.
        by rewrite lookup_delete_ne in Hc1.
Qed.

Lemma spill_loop_wf : ∀ fuel fs i sp len fs' i' sp',
  wf fs i → distinct_spills (work_dirs i) (dom (entries i)) →
  spill_loop fuel fs i sp len = Some (fs', i', sp') →
  wf fs' i' ∧ contents fs' (entries i') = contents fs (entries i) ∧
  dom (entries i') = dom (entries i) ∧ work_dirs i' = work_dirs i.
Proof.
  induction fuel as [|fuel IH]; intros fs i sp len fs' i' sp' Hwf Hd; simpl;
    (case_decide; [|by intros; simplify_eq]);
    destruct (insertion_order i) as [|k rest] eqn:Ho; intros; simplify_eq; try done.
  destruct (spill_turn fs i sp k rest) as [[[fs1 i1] sp1] b] eqn:Ht.
  destruct Hwf as [Ha Hf].
  destruct (spill_turn_accounting _ _ _ _ _ _ _ _ _ Ha Ho Ht) as (Ha1 & _ & Hw1 & _).
  destruct (spill_turn_files _ _ _ _ _ _ _ _ _ Hf Hd Ht) as (Hf1 & Hc1 & Hdom1).
  assert (wf fs1 i1) by (split; [done|by rewrite Hw1]).
  destruct b; simplify_eq; [|done].
  destruct (IH fs1 i1 sp1 len fs' i' sp') as (?&Hc2&Hdom2&Hw2); [done| |done|].
  - by rewrite Hw1, Hdom1.
  - by rewrite Hc2, Hc1, Hdom2, Hdom1, Hw2, Hw1.
Qed.

(** *** Removing several entries, as [clear_job] does *)

Lemma drop_entry_spec fs i k fs' i' :
  wf_files fs (work_dirs i) (entries i) →
  distinct_spills (work_dirs i) (dom (entries i)) →
  drop_entry fs i k = (fs', i') →
  wf_files fs' (work_dirs i) (entries i') ∧ entries i' = delete k (entries i) ∧
  contents fs' (entries i') = delete k (contents fs (entries i)) ∧
  memory_bytes i' = memory_bytes i - mem_size (entries i) k ∧
  insertion_order i' = insertion_order i ∧ work_dirs i' = work_dirs i ∧
  max_bytes i' = max_bytes i.
Proof.
  intros Hwf Hd. unfold drop_entry, mem_size.
  destruct (entries i !! k) as [e|] eqn:He.
  - assert (k ∈ dom (entries i)) as Hk by (by apply elem_of_dom_2 in He).
    pose proof (wf_files_delete _ _ _ k Hwf) as Hwf'.
    unfold is_memory. destruct (location e) as [d|p] eqn:Hl; intros [= <- <-]; simpl.
    + split_and!; try done. apply contents_delete.
    + destruct (wf_files_frame fs (fs_remove fs p) (work_dirs i) (delete k (entries i))
        (dom (entries i)) k) as [Hwf1 Hc1]; try done; try set_solver.
      { intros q Hq. apply fs_remove_other. by rewrite (wf_disk _ _ _ Hwf k e p). }
      split_and!; try done; [|lia]. by rewrite Hc1, contents_delete.
  - intros [= <- <-]. split_and!; try done; [..|lia].
    + by rewrite delete_id.
    + rewrite delete_id; [done|]. by rewrite contents_lookup, He.
Qed.

Lemma decide_cons_delete {A} (o : option A) (k k' : CacheKey) ks :
  (if decide (k' ∈ ks) then None else if decide (k = k') then None else o) =
  (if decide (k' ∈ k :: ks) then None else o).
Proof.
  destruct (decide (k' ∈ k :: ks)) as [Hin|Hin]; rewrite elem_of_cons in Hin;
    destruct (decide (k' ∈ ks)), (decide (k = k')); naive_solver.
Qed.

Lemma drop_entries_spec ks : ∀ fs i fs' i',
  wf_files fs (work_dirs i) (entries i) →
  distinct_spills (work_dirs i) (dom (entries i)) → NoDup ks →
  drop_entries fs i ks = (fs', i') →
  wf_files fs' (work_dirs i) (entries i') ∧
  (∀ k, entries i' !! k = if decide (k ∈ ks) then None else entries i !! k) ∧
  (∀ k, contents fs' (entries i') !! k =
    if decide (k ∈ ks) then None else contents fs (entries i) !! k) ∧
  memory_bytes i' = memory_bytes i - sum_list_with (mem_size (entries i)) ks ∧
  insertion_order i' = insertion_order i ∧ work_dirs i' = work_dirs i ∧
  max_bytes i' = max_bytes i.
Proof.
  unfold drop_entries. induction ks as [|k ks IH]; intros fs i fs' i' Hwf Hd Hnd; simpl.
  - intros [= <- <-]. split_and!; try done; lia.
  - apply NoDup_cons in Hnd as [Hk Hnd].
    destruct (drop_entry fs i k) as [fs1 i1] eqn:H1.
    destruct (drop_entry_spec _ _ _ _ _ Hwf Hd H1) as (Hwf1 & He1 & Hc1 & Hm1 & Ho1 & Hw1 & Hx1).
    intros H2. destruct (IH fs1 i1 fs' i') as (Hwf2 & He2 & Hc2 & Hm2 & Ho2 & Hw2 & Hx2);
      [by rewrite Hw1| |done|done|].
    { rewrite Hw1, He1, dom_delete_L. intros k1 k2 [??]%elem_of_difference [??]%elem_of_difference.
      by apply Hd. }
    rewrite Ho2, Hw2, Hx2, Ho1, Hw1, Hx1. rewrite Hw1 in Hwf2.
    split_and!; try done.
    + intros k'. rewrite He2, He1, lookup_delete. apply decide_cons_delete.
    + intros k'. rewrite Hc2, Hc1, lookup_delete. apply decide_cons_delete.
    + rewrite Hm2, Hm1. rewrite (sum_list_with_ext (mem_size (entries i1)) (mem_size (entries i)) ks);
        [lia|]. intros x Hx. rewrite He1. apply mem_size_delete_ne. by intros ->.
Qed.

(** [remove] and [clear_job] restore the bookkeeping by filtering the
    order. *)
Lemma accounting_retain i i' (P : CacheKey → Prop) `{!∀ k, Decision (P k)} ks :
  accounting i → (∀ k, k ∈ ks ↔ k ∈ insertion_order i ∧ ¬ P k) → NoDup ks →
  (∀ k, entries i' !! k = if decide (k ∈ ks) then None else entries i !! k) →
  memory_bytes i' = memory_bytes i - sum_list_with (mem_size (entries i)) ks →
  insertion_order i' = insertion_order i →
  accounting (retain_order i' P).
Proof.
  intros [Hnd Hord Hmem] Hks Hndk He Hm Ho. split; simpl; rewrite Ho.
  - by apply NoDup_filter.
  - intros k. rewrite list_elem_of_filter, He, Hord. case_decide as Hin.
    + apply Hks in Hin as [_ Hin]. split; [by intros []|by intros []].
    + rewrite Hks, Hord in Hin.
      destruct (decide (P k)); [naive_solver|]. split; [by intros []|]. intros ?. exfalso. by apply Hin.
  - rewrite Hm, Hmem.
    assert (insertion_order i ≡ₚ filter P (insertion_order i) ++ ks) as Hp.
    { apply NoDup_Permutation; [done| |].
      - apply NoDup_app. split_and!; [by apply NoDup_filter| |done].
        intros k [??]%list_elem_of_filter. rewrite Hks. tauto.
      - intros k. rewrite elem_of_app, list_elem_of_filter, Hks.
        destruct (decide (P k)); tauto. }
    rewrite Hp at 1. rewrite sum_list_with_app.
    rewrite (sum_list_with_ext (mem_size (entries i')) (mem_size (entries i))); [lia|].
    intros k [HPk Hin]%list_elem_of_filter. unfold mem_size. rewrite He.
    rewrite decide_False; [done|]. rewrite Hks. tauto.
Qed.

Lemma elem_of_clear_keys (es : gmap CacheKey CacheEntry) job k :
  k ∈ filter (λ k, job_id k = job) (map fst (map_to_list es)) ↔
  is_Some (es !! k) ∧ job_id k = job.
Proof.
  rewrite list_elem_of_filter, list_elem_of_fmap. split.
  - intros [? ([??] & -> & ?%elem_of_map_to_list)]. simpl. eauto.
  - intros [[e He] ?]. split; [done|]. exists (k, e). by rewrite elem_of_map_to_list.
Qed.

(** ** The refinement

    One client call, and what it answers. *)
Inductive op :=
  | OpRegister (job : string) (dir : path)
  | OpStore (key : CacheKey) (data : bytes)
  | OpLoad (key : CacheKey)
  | OpRemove (key : CacheKey)
  | OpClearJob (job : string)
  | OpSetLimit (limit : nat).

Inductive reply :=
  | Done
  | Loaded (r : result CacheError (option bytes)).

Definition exec (fuel : nat) (fs : FS) (c : ArticleCache) (o : op)
    : option (FS * ArticleCache * reply) :=
  match o with
  | OpRegister job dir => Some (fs, register_work_dir c job dir, Done)
  | OpStore key data => st ← store fuel fs c key data; Some (st, Done)
  | OpLoad key => let '(c', r) := load fs c key in Some (fs, c', Loaded r)
  | OpRemove key => Some (remove fs c key, Done)
  | OpClearJob job => Some (clear_job fs c job, Done)
  | OpSetLimit limit => Some (fs, set_limit c limit, Done)
  end.

(** The abstract cache: a map, with no limit and no files. *)
Definition spec_exec (m : gmap CacheKey bytes) (o : op) : gmap CacheKey bytes * reply :=
  match o with
  | OpRegister _ _ | OpSetLimit _ => (m, Done)
  | OpStore key data => (<[key := data]> m, Done)
  | OpLoad key => (m, Loaded (Ok (m !! key)))
  | OpRemove key => (delete key m, Done)
  | OpClearJob job => (filter (λ kv, job_id kv.1 ≠ job) m, Done)
  end.

(** A store that the spill loop can make room for. *)
Definition op_fits (i : CacheInner) (o : op) : Prop :=
  match o with OpStore _ data => length data ≤ max_bytes i | _ => True end.

(** What a caller must respect: a job's directory is registered before its
    articles are stored, and the keys in play have distinct spill files. *)
Definition op_ok (i : CacheInner) (o : op) : Prop :=
  match o with
  | OpRegister job _ => ∀ k, k ∈ dom (entries i) → job_id k ≠ job
  | OpStore key _ => distinct_spills (work_dirs i) ({[key]} ∪ dom (entries i))
  | _ => distinct_spills (work_dirs i) (dom (entries i))
  end.

Lemma store_wf fuel fs c key data fs' c' :
  wf fs (inner c) → op_ok (inner c) (OpStore key data) →
  store fuel fs c key data = Some (fs', c') →
  wf fs' (inner c') ∧
  contents fs' (entries (inner c')) = <[key := data]> (contents fs (entries (inner c))).
Proof.
  intros [Ha Hf] Hd. unfold store. simpl.
  destruct (spill_loop _ _ _ _ _) as [[[fs1 i1] sp1]|] eqn:Hl; intros [= <- <-]; simpl.
  destruct (drop_old_fields (inner c) key) as (Hmax & Hdirs & _).
  assert (entries (drop_old (inner c) key) = delete key (entries (inner c))) as Hes.
  { apply map_eq. intros k. rewrite drop_old_lookup, lookup_delete. split_cases. }
  edestruct spill_loop_wf as ([Ha1 Hf1] & Hc1 & Hdom1 & Hdirs1); [..|exact Hl|].
  { split; [by apply accounting_drop_old|]. rewrite Hes, Hdirs. by apply wf_files_delete. }
  { rewrite Hes, Hdirs, dom_delete_L. intros k1 k2 [??]%elem_of_difference [??]%elem_of_difference.
    apply Hd; by apply elem_of_union_r. }
  assert (entries i1 !! key = None) as Hnone.
  { apply not_elem_of_dom. rewrite Hdom1, Hes. set_solver. }
  split.
  - split; [by apply accounting_insert_new|]. simpl. by apply wf_files_insert_memory.
  - apply map_eq. intros k. rewrite contents_lookup, !lookup_insert.
    case_decide; simpl; [done|].
    rewrite <-contents_lookup, Hc1, Hes, contents_delete. by rewrite lookup_delete_ne.
Qed.

Lemma load_inner fs c key : inner (fst (load fs c key)) = inner c.
Proof. unfold load. destruct (entries _ !! key) as [e|]; [by destruct (location e)|done]. Qed.

Lemma load_contents fs c key :
  wf fs (inner c) →
  snd (load fs c key) = Ok (contents fs (entries (inner c)) !! key).
Proof.
  intros [_ Hf]. unfold load. rewrite contents_lookup.
  destruct (entries (inner c) !! key) as [e|] eqn:He; [|done]. simpl.
  destruct (wf_data _ _ _ Hf key e He) as (d & Hd & _). revert Hd.
  unfold entry_data. destruct (location e); simpl; intros; simplify_eq; [done|].
  by rewrite Hd.
Qed.

Lemma remove_wf fs c key fs' c' :
  wf fs (inner c) → distinct_spills (work_dirs (inner c)) (dom (entries (inner c))) →
  remove fs c key = (fs', c') →
  wf fs' (inner c') ∧
  contents fs' (entries (inner c')) = delete key (contents fs (entries (inner c))).
Proof.
  intros [Ha Hf] Hd. unfold remove.
  destruct (entries (inner c) !! key) as [e|] eqn:He.
  - destruct (drop_entry fs (inner c) key) as [fs1 i1] eqn:H1. intros [= <- <-]. simpl.
    destruct (drop_entry_spec _ _ _ _ _ Hf Hd H1) as (Hf1 & He1 & Hc1 & Hm1 & Ho1 & Hw1 & _).
    split; [|done]. split; [|simpl; by rewrite Hw1].
    apply (accounting_retain (inner c) i1 _ [key]); [done| |apply NoDup_singleton| | |done].
    + intros k. rewrite list_elem_of_singleton, (acct_order _ Ha).
      split; [intros ->; rewrite He; split; [by eauto|tauto]|].
      intros [_ Hk]. by apply dec_stable.
    + intros k. rewrite He1, lookup_delete, <-decide_cons_delete. 
      by rewrite (decide_False (P := k ∈ [])) by apply not_elem_of_nil.
    + rewrite Hm1. simpl. lia.
  - intros [= <- <-]. split; [done|]. rewrite delete_id; [done|]. by rewrite contents_lookup, He.
Qed.

Lemma clear_job_wf fs c job fs' c' :
  wf fs (inner c) → distinct_spills (work_dirs (inner c)) (dom (entries (inner c))) →
  clear_job fs c job = (fs', c') →
  wf fs' (inner c') ∧
  contents fs' (entries (inner c')) =
    filter (λ kv, job_id kv.1 ≠ job) (contents fs (entries (inner c))).
Proof.
  intros [Ha Hf] Hd. unfold clear_job.
  set (ks := filter _ (map fst _)).
  assert (NoDup ks) as Hnd by (apply NoDup_filter, NoDup_fst_map_to_list).
  destruct (drop_entries fs (inner c) ks) as [fs1 i1] eqn:H1. intros [= <- <-]. simpl.
  destruct (drop_entries_spec _ _ _ _ _ Hf Hd Hnd H1) as (Hf1 & He1 & Hc1 & Hm1 & Ho1 & Hw1 & _).
  assert (∀ k, k ∈ ks ↔ is_Some (entries (inner c) !! k) ∧ job_id k = job) as Hks
    by apply elem_of_clear_keys.
  split; [split|].
  - assert (accounting (retain_order i1 (λ k, job_id k ≠ job))) as [? ? ?].
    { apply (accounting_retain (inner c) i1 _ ks); try done.
      intros k. rewrite Hks, (acct_order _ Ha).
      split; intros [??]; (split; [done|]); [tauto|by apply dec_stable]. }
    by split.
  - destruct Hf1 as [Hdata1 Hdisk1]. split; simpl; [done|].
    intros k e p He Hl. rewrite (Hdisk1 k e p He Hl). unfold spill_path. rewrite Hw1.
    rewrite lookup_delete_ne; [done|]. intros Hj. rewrite He1 in He.
    case_decide as Hin; [done|]. apply Hin, Hks. rewrite He. eauto.
  - apply map_eq. intros k. rewrite Hc1. symmetry. case_decide as Hin.
    + apply map_lookup_filter_None. right. intros ? _. simpl.
      apply Hks in Hin. tauto.
    + destruct (contents fs (entries (inner c)) !! k) as [d|] eqn:Hk.
      * apply map_lookup_filter_Some. split; [done|]. simpl. intros Hj. apply Hin, Hks.
        split; [|done]. rewrite contents_lookup in Hk. destruct (entries _ !! k); [eauto|done].
      * apply map_lookup_filter_None. by left.
Qed.
End cache.

(** ** Properties *)

(** [store] ends for an article that fits the limit: one pass over the cached
    keys is enough turns of the spill loop, and when no write fails the cache is
    back within its limit afterwards. *)
Lemma store_ends {FS} `{FSI : FileSystem FS} (temp_dir : path)
    (fuel : nat) (fs : FS) (c : ArticleCache) (key : CacheKey) (data : bytes) :
  accounting (inner c) → length data ≤ max_bytes (inner c) →
  length (insertion_order (inner c)) ≤ fuel →
  ∃ fs' c', store temp_dir fuel fs c key data = Some (fs', c') ∧
    ((∀ fs p d, snd (fs_write fs p d) = true) → size_of c' ≤ max_bytes (inner c')).
Proof.
  intros Ha Hlen Hfuel.
  destruct (drop_old_fields (inner c) key) as (Hmax & _ & Hord).
  pose proof (accounting_drop_old _ key Ha) as Ha'.
  destruct (spill_loop_total temp_dir (insertion_order (drop_old (inner c) key)) fuel fs
    (drop_old (inner c) key) (disk_spills c) (length data) []) as [[[fs' i'] sp'] Hl];
    [done|by rewrite app_nil_r|set_solver|lia|lia|].
  unfold store. rewrite Hl. simpl. eexists _, _. split; [done|].
  intros Hw. unfold size_of. simpl.
  edestruct spill_loop_bound; [exact Hw|exact Ha'| |exact Hl|]; lia.
Qed.

(** An operation on a well-formed cache, whatever the number of turns it took. *)
Lemma exec_refines {FS} `{FSL : FileSystemLaws FS} (temp_dir : path)
    (fuel : nat) (fs : FS) (c : ArticleCache) (o : op) fs' c' r :
  wf temp_dir fs (inner c) → op_ok temp_dir (inner c) o →
  exec temp_dir fuel fs c o = Some (fs', c', r) →
  wf temp_dir fs' (inner c') ∧
  spec_exec (contents fs (entries (inner c))) o = (contents fs' (entries (inner c')), r).
Proof.
  intros Hwf Hok. destruct o as [job dir|key data|key|key|job|limit]; simpl in *.
  - intros [= <- <- <-]. destruct Hwf as [[???] [Hdata Hdisk]]. split; [|done].
    split; split; simpl; try done. intros k e p He Hl.
    rewrite (Hdisk k e p He Hl). unfold spill_path. rewrite lookup_insert_ne; [done|].
    intros Hj. eapply (Hok k); [by eapply elem_of_dom_2|done].
  - destruct (store _ _ _ _ _) as [[fs1 c1]|] eqn:Hs; intros [= <- <- <-].
    destruct (store_wf _ _ _ _ _ _ _ _ Hwf Hok Hs) as [? ->]. done.
  - pose proof (load_contents temp_dir fs c key Hwf) as Hr. pose proof (load_inner fs c key) as Hi.
    destruct (load fs c key) as [c1 r1]. simpl in *. intros [= <- <- <-].
    by rewrite Hi, Hr.
  - destruct (remove fs c key) as [fs1 c1] eqn:Hr. intros [= <- <- <-].
    destruct (remove_wf _ _ _ _ _ _ Hwf Hok Hr) as [? ->]. done.
  - destruct (clear_job fs c job) as [fs1 c1] eqn:Hr. intros [= <- <- <-].
    destruct (clear_job_wf _ _ _ _ _ _ Hwf Hok Hr) as [? ->]. done.
  - intros [= <- <- <-]. destruct Hwf as [[???] ?]. done.
Qed.

(** C16. The cache is a map from keys to bytes. On a well-formed cache each
    operation (register, store, load, remove, clear a job, change the limit)
    ends, a store of an article within the limit after at most one turn of the
    spill loop per cached key; and whenever it ends, whatever the limit and
    whatever was spilled or failed to spill, it leaves the cache well formed,
    changes the visible contents as the map operation does, and [load] answers
    what the map holds, never an I/O error. The caller respects [op_ok]: a job's
    directory is registered before its articles are stored, and no two cached
    keys share a spill file. A store of an article larger than the limit may
    never end ([store_oversized_never_ends]). *)
Theorem cache_refines_map {FS} `{FSL : FileSystemLaws FS} (temp_dir : path)
    (fs : FS) (c : ArticleCache) (o : op) :
  wf temp_dir fs (inner c) → op_ok temp_dir (inner c) o →
  (op_fits (inner c) o → ∀ fuel, length (insertion_order (inner c)) ≤ fuel → is_Some (exec temp_dir fuel fs c o)) ∧
  ∀ fuel fs' c' r, exec temp_dir fuel fs c o = Some (fs', c', r) →
    wf temp_dir fs' (inner c') ∧
    spec_exec (contents fs (entries (inner c))) o = (contents fs' (entries (inner c')), r).
Proof.
  intros Hwf Hok. split; [|intros fuel fs' c' r; by apply exec_refines].
  intros Hfit fuel Hfuel. destruct o as [job dir|key data|key|key|job|limit]; try by eexists.
  - destruct (store_ends temp_dir fuel fs c key data (proj1 Hwf) Hfit Hfuel) as (fs' & c' & E & _).
    simpl. rewrite E. by eexists.
  - simpl. destruct (load fs c key). by eexists.
Qed.

(** [store] does not terminate for an article larger than the whole
    limit, as soon as another article is cached and the disk accepts writes:
    no number of turns of the loop is enough, since spilled keys go back into
    the order the loop waits to see empty. *)
Theorem store_oversized_never_ends {FS} `{FSI : FileSystem FS} (temp_dir : path)
    (fs : FS) (c : ArticleCache) (key k : CacheKey) (data : bytes) :
  accounting (inner c) → k ≠ key → is_Some (entries (inner c) !! k) →
  max_bytes (inner c) < length data →
  (∀ fs p d, snd (fs_write fs p d) = true) →
  ∀ fuel, store temp_dir fuel fs c key data = None.
Proof.
  intros Ha Hne Hk Hlen Hw fuel.
  destruct (drop_old_fields (inner c) key) as (Hmax & _ & _).
  pose proof (accounting_drop_old _ key Ha) as Ha'.
  unfold store. rewrite spill_loop_never_ends; try done; [|lia].
  intros Ho. assert (k ∈ insertion_order (drop_old (inner c) key)) as Hin.
  { apply (acct_order _ Ha'). rewrite drop_old_lookup. by rewrite decide_False. }
  rewrite Ho in Hin. set_solver.
Qed.

(** ** Witnesses *)
Module CacheExample.
Definition k1 := MkCacheKey "job" "file" 1.
Definition k2 := MkCacheKey "job" "file" 2.
Definition blob (n : nat) (b : byte) : bytes := replicate n b.
Definition start : ArticleCache := register_work_dir (new 10) "job" "/work".

(** Six bytes are stored. *)
Definition one_stored : MapFs.t * ArticleCache :=
  default (MapFs.empty, start) (store "/tmp" 5 MapFs.empty start k1 (blob 6 Byte.x01)).
(** Six bytes, then six more: the first article is spilled. *)
Definition after_two : option (MapFs.t * ArticleCache) :=
  '(fs, c) ← store "/tmp" 5 MapFs.empty start k1 (blob 6 Byte.x01);
  store "/tmp" 5 fs c k2 (blob 6 Byte.x02).
End CacheExample.
Import CacheExample.

Example two_articles_spill_one :
  match after_two with
  | Some (fs, c) => snd (load fs c k1) = Ok (Some (blob 6 Byte.x01)) ∧ size_of c = 6 ∧
                    fs_read fs "/work/.cache_file_1.tmp" = Some (blob 6 Byte.x01)
  | None => False
  end.
Proof. vm_compute. done. Qed.

Lemma wf_start {FS} `{FSL : FileSystemLaws FS} (fs : FS) : wf "/tmp" fs (inner start).
Proof. split; [by destruct (accounting_new 10); split|split; by intros]. Qed.

Lemma spills_apart K : K ⊆ ({[k1; k2]} : gset CacheKey) → distinct_spills "/tmp" (work_dirs (inner start)) K.
Proof.
  intros HK a b Ha%HK Hb%HK. apply elem_of_union in Ha, Hb. rewrite !elem_of_singleton in Ha, Hb.
  destruct Ha as [->| ->], Hb as [->| ->]; try done; intros E; vm_compute in E; discriminate E.
Qed.

(** The second article spills the first: the map has both. *)
Lemma cache_refines_map_witness :
  ∃ fs' c', exec "/tmp" 5 one_stored.1 one_stored.2 (OpStore k2 (blob 6 Byte.x02)) = Some (fs', c', Done) ∧
    disk_spills c' = 1%N ∧
    contents fs' (entries (inner c')) = <[k2 := blob 6 Byte.x02]> (<[k1 := blob 6 Byte.x01]> ∅).
Proof.
  destruct (cache_refines_map "/tmp" MapFs.empty start (OpStore k1 (blob 6 Byte.x01)) (wf_start _)) as [_ Hrun].
  { apply spills_apart. set_solver. }
  destruct (Hrun 5 one_stored.1 one_stored.2 Done) as [Hwf1 Hc1]; [by vm_compute|].
  destruct (cache_refines_map "/tmp" one_stored.1 one_stored.2 (OpStore k2 (blob 6 Byte.x02)) Hwf1) as [Hend2 Hrun2].
  { apply spills_apart. apply (bool_decide_unpack _). by vm_compute. }
  destruct (Hend2 ltac:(vm_compute; lia) 5 ltac:(vm_compute; lia)) as [[[fs2 c2] r2] E2].
  destruct (Hrun2 5 fs2 c2 r2 E2) as [_ Hc2]. apply (f_equal fst) in Hc1. cbn [fst spec_exec] in Hc1, Hc2. injection Hc2 as Hc2 <-.
  exists fs2, c2. split; [exact E2|]. split; [|by rewrite <- Hc2, <- Hc1].
  assert (disk_spills <$> ((λ x, x.1.2) <$> exec "/tmp" 5 one_stored.1 one_stored.2 (OpStore k2 (blob 6 Byte.x02))) = Some 1%N)
    as H by (by vm_compute).
  rewrite E2 in H. by injection H.
Defined.

Lemma store_oversized_never_ends_witness :
  store (FS := gmap path bytes) "/tmp" 1000 (∅ : gmap path bytes)
    (with_inner start (insert_new (inner start) k1 (blob 6 Byte.x01))) k2 (blob 11 Byte.x02) = None.
Proof.
  apply (store_oversized_never_ends "/tmp" (∅ : gmap path bytes) _ k2 k1).
  - apply accounting_insert_new; [by destruct (accounting_new 10); split|done].
  - done.
  - vm_compute. by eexists.
  - vm_compute. lia.
  - done.
Defined.
