(* ===== verification/SliceMap.v ===== *)
(** * The in-flight PAR2 slice map

    Models [crates/nzb-decode/src/slice_map.rs]: how much of each PAR2 slice
    has been written, which slices a write completes, and the verdict of a
    completed slice. The MD5 and CRC-32 implementations are third-party
    crates, so they are parameters. A Rust index out of bounds is [None]. *)
From S2P Require Import Prelude.

Inductive SliceState := Unknown | Verified | Damaged.

#[global] Instance SliceState_eq_dec : EqDecision SliceState.
Proof. solve_decision. Defined.

Record SliceDigest := { md5 : bytes; crc32 : N }.

#[global] Instance SliceDigest_eq_dec : EqDecision SliceDigest.
Proof. solve_decision. Defined.

Record FileSlices := { fsize : N; slices : list SliceDigest }.

Record SliceLayout := { layout_slice_size : N; layout_files : list FileSlices }.

Record SliceCell := {
  file_index : nat;
  start : N;
  len : N;
  filled : N;
  expected : SliceDigest;
  state : SliceState;
}.

Record SliceVerifier := {
  slice_size : N;
  cells : list SliceCell;
  file_bounds : list nat;
}.

Definition overlap (a0 a1 b0 b1 : N) : N := N.min a1 b1 - N.max a0 b0.

(** The cell of slice [i] of a file. *)
Definition new_cell (ssize : N) (fi : nat) (f : FileSlices) (i : nat) (d : SliceDigest)
    : SliceCell :=
  let st := u64_mul (N.of_nat i) ssize in
  {| file_index := fi; start := st; len := N.min (fsize f - st) ssize;
     filled := 0; expected := d; state := Unknown |}.

(** The loop over the files, [fi] being the next file's index. *)
Fixpoint new_cells (ssize : N) (fi : nat) (files : list FileSlices)
    (cs : list SliceCell) (bounds : list nat) : list SliceCell * list nat :=
  match files with
  | [] => (cs, bounds)
  | f :: rest =>
    new_cells ssize (S fi) rest
      (cs ++ imap (new_cell ssize fi f) (slices f)) (bounds ++ [length cs])
  end.

Definition new (layout : SliceLayout) : SliceVerifier :=
  let '(cs, bounds) := new_cells (layout_slice_size layout) 0 (layout_files layout) [] [] in
  {| slice_size := layout_slice_size layout; cells := cs; file_bounds := bounds ++ [length cs] |}.

Definition with_filled (c : SliceCell) (n : N) : SliceCell :=
  {| file_index := file_index c; start := start c; len := len c; filled := n;
     expected := expected c; state := state c |}.

Definition with_state (c : SliceCell) (s : SliceState) : SliceCell :=
  {| file_index := file_index c; start := start c; len := len c; filled := filled c;
     expected := expected c; state := s |}.

(** The body of [mark_written]'s loop on one cell: the cell afterwards, and
    whether this write completed it. *)
Definition mark_cell (w0 w1 : N) (c : SliceCell) : SliceCell * bool :=
  if decide (state c ≠ Unknown) then (c, false)
  else
    let ov := overlap (start c) (u64_add (start c) (len c)) w0 w1 in
    if decide (ov = 0%N) then (c, false)
    else
      let c' := with_filled c (N.min (u64_add (filled c) ov) (len c)) in
      (c', bool_decide (filled c' = len c' ∧ (0 < len c')%N)).

(** [for gi in start_g..end_g] *)
Fixpoint mark_cells (w0 w1 : N) (cs : list SliceCell) (gis : list nat)
    : option (list SliceCell * list nat) :=
  match gis with
  | [] => Some (cs, [])
  | gi :: rest =>
    c ← cs !! gi;
    let '(c', completed) := mark_cell w0 w1 c in
    '(cs', done) ← mark_cells w0 w1 (<[gi := c']> cs) rest;
    Some (cs', if completed : bool then gi :: done else done)
  end.

Definition with_cells (v : SliceVerifier) (cs : list SliceCell) : SliceVerifier :=
  {| slice_size := slice_size v; cells := cs; file_bounds := file_bounds v |}.

(** [mark_written]: [None] is the panic of [file_bounds[file_index + 1]] when
    [file_index] is the sentinel's position. *)
Definition mark_written (v : SliceVerifier) (fi : nat) (offset wlen : N)
    : option (SliceVerifier * list nat) :=
  match file_bounds v !! fi with
  | None => Some (v, [])
  | Some start_g =>
    end_g ← file_bounds v !! S fi;
    '(cs, completed) ←
      mark_cells offset (u64_add offset wlen) (cells v) (seq start_g (end_g - start_g));
    Some (with_cells v cs, completed)
  end.

Definition slice_range (v : SliceVerifier) (gi : nat) : option (nat * N * N) :=
  (λ c, (file_index c, start c, len c)) <$> cells v !! gi.

Section verify.
Context (md5_digest : bytes → bytes) (crc32_of : bytes → N).

(** The checksums of a slice's bytes, zero-padded to the slice size. *)
Definition digest_of (ssize : N) (b : bytes) : SliceDigest :=
  let padded := vec_resize (N.to_nat ssize) Byte.x00 b in
  {| md5 := md5_digest padded; crc32 := crc32_of padded |}.

Definition verify (v : SliceVerifier) (gi : nat) (b : bytes) : SliceVerifier * SliceState :=
  match cells v !! gi with
  | None => (v, Unknown)
  | Some c =>
    let d := digest_of (slice_size v) b in
    let s := if decide (md5 d = md5 (expected c) ∧ crc32 d = crc32 (expected c))
             then Verified else Damaged in
    (with_cells v (<[gi := with_state c s]> (cells v)), s)
  end.
End verify.

Definition mark_damaged (v : SliceVerifier) (gi : nat) : SliceVerifier :=
  match cells v !! gi with
  | None => v
  | Some c => with_cells v (<[gi := with_state c Damaged]> (cells v))
  end.

Definition states (v : SliceVerifier) : list SliceState := state <$> cells v.
Definition total_slices (v : SliceVerifier) : nat := length (cells v).
Definition damaged_count (v : SliceVerifier) : nat :=
  length (filter (λ c, state c = Damaged) (cells v)).
Definition is_complete (v : SliceVerifier) : bool :=
  forallb (λ c, bool_decide (state c ≠ Unknown)) (cells v).

(** ** Layout lemmas *)

Lemma new_cells_spec ssize files : ∀ fi cs bounds,
  new_cells ssize fi files cs bounds =
    (cs ++ concat (imap (λ k f, imap (new_cell ssize (fi + k) f) (slices f)) files),
     bounds ++ imap (λ k _, length cs + sum_list_with (λ f, length (slices f)) (take k files)) files).
Proof.
  induction files as [|f files IH]; intros fi cs bounds; simpl.
  { by rewrite !app_nil_r. }
  rewrite IH, <-!app_assoc, Nat.add_0_r. do 2 f_equal.
  - do 2 f_equal. apply imap_ext. intros k g _. simpl. by rewrite Nat.add_succ_r.
  - simpl. f_equal; [lia|]. apply imap_ext. intros k g _. simpl.
    rewrite length_app, length_imap. lia.
Qed.

(** Where the slices of file [fi] sit in the global order. *)
Definition first_slice (files : list FileSlices) (fi : nat) : nat :=
  sum_list_with (λ f, length (slices f)) (take fi files).

Lemma first_slice_S files fi f :
  files !! fi = Some f → first_slice files (S fi) = first_slice files fi + length (slices f).
Proof.
  intros Hf. unfold first_slice. rewrite (take_S_r _ _ _ Hf), sum_list_with_app. simpl. lia.
Qed.

Lemma lookup_concat_imap {A B} (g : nat → A → list B) (h : A → nat) (l : list A) : ∀ k f i,
  (∀ k f, length (g k f) = h f) → l !! k = Some f → i < h f →
  concat (imap g l) !! (sum_list_with h (take k l) + i) = g k f !! i.
Proof.
  revert g. induction l as [|f0 l IH]; intros g k f i Hg Hk Hi; [done|].
  destruct k as [|k]; simplify_eq/=.
  - apply lookup_app_l. by rewrite Hg.
  - rewrite lookup_app_r by (rewrite Hg; lia). rewrite Hg.
    replace (h f0 + sum_list_with h (take k l) + i - h f0) with
      (sum_list_with h (take k l) + i) by lia.
    apply (IH (g ∘ S)); [intros; apply Hg|done|done].
Qed.

Lemma length_concat_imap {A B} (g : nat → A → list B) (h : A → nat) (l : list A) :
  (∀ k f, length (g k f) = h f) → length (concat (imap g l)) = sum_list_with h l.
Proof.
  revert g. induction l as [|f0 l IH]; intros g Hg; simpl; [done|].
  rewrite length_app, Hg. f_equal. apply (IH (g ∘ S)). intros. apply Hg.
Qed.

Lemma new_cell_lookup layout fi f i d :
  layout_files layout !! fi = Some f → slices f !! i = Some d →
  cells (new layout) !! (first_slice (layout_files layout) fi + i) =
    Some (new_cell (layout_slice_size layout) fi f i d).
Proof.
  intros Hf Hd. unfold new. rewrite new_cells_spec. simpl.
  unfold first_slice.
  rewrite (lookup_concat_imap (λ k f, imap (new_cell (layout_slice_size layout) k f) (slices f))
    (λ f, length (slices f)) _ fi f i); [|intros; by rewrite length_imap|done|].
  - rewrite list_lookup_imap, Hd. done.
  - by eapply lookup_lt_Some.
Qed.

Lemma new_bounds layout fi f :
  layout_files layout !! fi = Some f →
  file_bounds (new layout) !! fi = Some (first_slice (layout_files layout) fi) ∧
  file_bounds (new layout) !! S fi = Some (first_slice (layout_files layout) (S fi)).
Proof.
  intros Hf. unfold new. rewrite new_cells_spec. simpl.
  pose proof (lookup_lt_Some _ _ _ Hf) as Hlt.
  assert (∀ k, k < length (layout_files layout) →
    imap (λ k0 (_ : FileSlices), sum_list_with (λ f0, length (slices f0)) (take k0 (layout_files layout)))
      (layout_files layout) !! k = Some (first_slice (layout_files layout) k)) as Hb.
  { intros k Hk. destruct (lookup_lt_is_Some_2 _ _ Hk) as [g Hg].
    rewrite list_lookup_imap, Hg. done. }
  split; [rewrite lookup_app_l by (rewrite length_imap; lia); by apply Hb|].
  destruct (decide (S fi < length (layout_files layout))) as [Hs|Hs].
  - rewrite lookup_app_l by (rewrite length_imap; lia). by apply Hb.
  - rewrite lookup_app_r by (rewrite length_imap; lia). rewrite length_imap.
    replace (S fi - length (layout_files layout)) with 0 by lia. simpl. f_equal.
    unfold first_slice. rewrite take_ge by lia.
    apply length_concat_imap. intros. apply length_imap.
Qed.

(** ** Counting written bytes *)
Definition in_write (w : N * N) (b : N) : bool := (w.1 <=? b)%N && (b <? w.1 + w.2)%N.
Definition covered (ws : list (N * N)) (b : N) : bool := existsb (λ w, in_write w b) ws.

(** How many of the [n] bytes from [s] satisfy [P]. *)
Fixpoint count_bytes (s : N) (n : nat) (P : N → bool) : nat :=
  match n with
  | 0 => 0
  | S n' => (if P s then 1 else 0) + count_bytes (s + 1) n' P
  end.

Lemma count_bytes_le s n P : count_bytes s n P ≤ n.
Proof. revert s. induction n as [|n IH]; intros s; simpl; [done|]. specialize (IH (s + 1)%N). destruct (P s); lia. Qed.

Lemma count_bytes_full s n P :
  count_bytes s n P = n ↔ ∀ b, (s ≤ b < s + N.of_nat n)%N → P b = true.
Proof.
  revert s. induction n as [|n IH]; intros s; simpl.
  { split; [lia|done]. }
  pose proof (count_bytes_le (s + 1) n P) as Hle. destruct (P s) eqn:Hs.
  - transitivity (count_bytes (s + 1) n P = n); [lia|]. rewrite IH. split; intros H b Hb.
    + destruct (decide (b = s)) as [->|]; [done|]. apply H. lia.
    + apply H. lia.
  - split; [lia|]. intros H. rewrite H in Hs; [done|lia].
Qed.

Lemma count_bytes_or s n P Q :
  (∀ b, P b = true → Q b = true → False) →
  count_bytes s n (λ b, P b || Q b) = count_bytes s n P + count_bytes s n Q.
Proof.
  intros H. revert s. induction n as [|n IH]; intros s; simpl; [done|]. rewrite IH.
  specialize (H s). destruct (P s), (Q s); simpl; [by destruct H|lia..].
Qed.

Lemma count_bytes_ext s n P Q : (∀ b, P b = Q b) → count_bytes s n P = count_bytes s n Q.
Proof. intros H. revert s. induction n as [|n IH]; intros s; simpl; [done|]. by rewrite H, IH. Qed.

Lemma count_bytes_write s n w :
  count_bytes s n (in_write w) = N.to_nat (overlap s (s + N.of_nat n) w.1 (w.1 + w.2)).
Proof.
  unfold overlap. revert s. induction n as [|n IH]; intros s; simpl; [lia|].
  rewrite IH. unfold in_write.
  destruct (N.leb_spec w.1 s), (N.ltb_spec s (w.1 + w.2)); simpl; lia.
Qed.

Lemma covered_snoc ws w b : covered (ws ++ [w]) b = covered ws b || in_write w b.
Proof. unfold covered. rewrite existsb_app. simpl. by rewrite orb_false_r. Qed.

(** ** [mark_written] as a map over the file's cells *)
Definition completes (w0 w1 : N) (cs : list SliceCell) (gi : nat) : bool :=
  match cs !! gi with Some c => snd (mark_cell w0 w1 c) | None => false end.

Lemma mark_cells_spec w0 w1 gis : ∀ cs,
  NoDup gis → (∀ gi, gi ∈ gis → gi < length cs) →
  ∃ cs', mark_cells w0 w1 cs gis = Some (cs', filter (λ gi, completes w0 w1 cs gi = true) gis) ∧
  ∀ j, cs' !! j = if decide (j ∈ gis) then (λ c, fst (mark_cell w0 w1 c)) <$> cs !! j else cs !! j.
Proof.
  induction gis as [|gi gis IH]; intros cs Hnd Hlt; simpl.
  { eexists. split; [done|]. intros j. by done. }
  apply NoDup_cons in Hnd as [Hni Hnd].
  destruct (lookup_lt_is_Some_2 cs gi) as [c Hc]; [apply Hlt; set_solver|].
  rewrite Hc. simpl. destruct (mark_cell w0 w1 c) as [c' b] eqn:Hm.
  destruct (IH (<[gi:=c']> cs)) as (cs' & -> & Hcs'); [done| |].
  { intros j Hj. rewrite length_insert. apply Hlt. set_solver. }
  simpl. eexists. split.
  - do 2 f_equal. rewrite filter_cons.
    assert (completes w0 w1 cs gi = b) as -> by (unfold completes; by rewrite Hc, Hm).
    assert (filter (λ gi0, completes w0 w1 (<[gi:=c']> cs) gi0 = true) gis =
      filter (λ gi0, completes w0 w1 cs gi0 = true) gis) as ->.
    { apply list_filter_ext. intros j Hj.
      unfold completes. rewrite list_lookup_insert_ne by (intros ->; done). done. }
    by destruct b.
  - intros j. rewrite Hcs'. destruct (decide (j = gi)) as [->|Hne].
    + rewrite decide_False by done. rewrite list_lookup_insert_eq by (apply Hlt; set_solver).
      rewrite decide_True by set_solver. by rewrite Hc; simpl; rewrite Hm.
    + rewrite list_lookup_insert_ne by done.
      destruct (decide (j ∈ gis)); [rewrite decide_True by set_solver|rewrite decide_False by set_solver]; done.
Qed.

(** ** Marking the writes of one file *)

(** The calls the tracker makes for one file, with what each reported. *)
Fixpoint mark_all (v : SliceVerifier) (fi : nat) (ws : list (N * N))
    : option (SliceVerifier * list (list nat)) :=
  match ws with
  | [] => Some (v, [])
  | w :: rest =>
    '(v', report) ← mark_written v fi w.1 w.2;
    '(v'', reports) ← mark_all v' fi rest;
    Some (v'', report :: reports)
  end.

(** Slice offsets and ends fit [u64]. *)
Definition fits (layout : SliceLayout) (f : FileSlices) : Prop :=
  (N.of_nat (length (slices f)) * layout_slice_size layout < 2 ^ 64)%N ∧ (fsize f < 2 ^ 64)%N.

Definition slice_start (layout : SliceLayout) (i : nat) : N :=
  N.of_nat i * layout_slice_size layout.
Definition slice_len (layout : SliceLayout) (f : FileSlices) (i : nat) : N :=
  N.min (fsize f - slice_start layout i) (layout_slice_size layout).

(** The bytes of a slice already in [ws]. *)
Definition filled_by (layout : SliceLayout) (f : FileSlices) (ws : list (N * N)) (i : nat) : nat :=
  count_bytes (slice_start layout i) (N.to_nat (slice_len layout f i)) (covered ws).

Definition slice_covered (layout : SliceLayout) (f : FileSlices) (ws : list (N * N)) (i : nat) : Prop :=
  ∀ b, (slice_start layout i ≤ b < slice_start layout i + slice_len layout f i)%N →
    covered ws b = true.

Lemma slice_covered_iff layout f ws i :
  slice_covered layout f ws i ↔ filled_by layout f ws i = N.to_nat (slice_len layout f i).
Proof. unfold filled_by. rewrite count_bytes_full, N2Nat.id. done. Qed.

Record marked (layout : SliceLayout) (fi : nat) (f : FileSlices) (dn : list (N * N))
    (v : SliceVerifier) : Prop := {
  marked_bounds : file_bounds v = file_bounds (new layout);
  marked_length : length (cells v) = length (cells (new layout));
  marked_cell i d : slices f !! i = Some d →
    cells v !! (first_slice (layout_files layout) fi + i) =
      Some (with_filled (new_cell (layout_slice_size layout) fi f i d)
        (N.of_nat (filled_by layout f dn i)));
}.

Lemma new_cell_fits layout fi f i d :
  fits layout f → slices f !! i = Some d →
  start (new_cell (layout_slice_size layout) fi f i d) = slice_start layout i ∧
  len (new_cell (layout_slice_size layout) fi f i d) = slice_len layout f i ∧
  u64_add (slice_start layout i) (slice_len layout f i) =
    (slice_start layout i + slice_len layout f i)%N ∧
  (slice_len layout f i < 2 ^ 64)%N.
Proof.
  intros [Hn Hs] Hi%lookup_lt_Some. unfold slice_len, slice_start. simpl.
  rewrite u64_mul_small by nia. split_and!; [done|done| |lia]. apply u64_add_small. nia.
Qed.

(** One write disjoint from the earlier ones, on one slice's cell. *)
Lemma mark_cell_step layout fi f dn w i d :
  fits layout f → slices f !! i = Some d →
  (∀ b, covered dn b = true → in_write w b = true → False) →
  let c := with_filled (new_cell (layout_slice_size layout) fi f i d)
             (N.of_nat (filled_by layout f dn i)) in
  fst (mark_cell w.1 (w.1 + w.2) c) =
    with_filled (new_cell (layout_slice_size layout) fi f i d)
      (N.of_nat (filled_by layout f (dn ++ [w]) i)) ∧
  (snd (mark_cell w.1 (w.1 + w.2) c) = true ↔
    (0 < slice_len layout f i)%N ∧ slice_covered layout f (dn ++ [w]) i ∧
    ¬ slice_covered layout f dn i).
Proof.
  intros Hfit Hi Hdis c.
  destruct (new_cell_fits layout fi f i d Hfit Hi) as (Hst & Hln & Hend & Hlt).
  assert (filled_by layout f (dn ++ [w]) i = filled_by layout f dn i +
    N.to_nat (overlap (slice_start layout i) (slice_start layout i + slice_len layout f i)
      w.1 (w.1 + w.2))) as Hcount.
  { unfold filled_by. rewrite (count_bytes_ext _ _ _ _ (covered_snoc dn w)).
    rewrite count_bytes_or by done. rewrite count_bytes_write, N2Nat.id. done. }
  assert (filled_by layout f (dn ++ [w]) i ≤ N.to_nat (slice_len layout f i)) as Hle
    by apply count_bytes_le.
  rewrite !slice_covered_iff. unfold mark_cell, c. simpl start. simpl len. simpl state.
  fold (slice_len layout f i). rewrite decide_False by (intros H; by apply H).
  change (u64_mul (N.of_nat i) (layout_slice_size layout)) with
    (start (new_cell (layout_slice_size layout) fi f i d)).
  rewrite Hst. fold (slice_len layout f i). rewrite Hend.
  case_decide as Hov; simpl.
  - rewrite Hov in Hcount. simpl in Hcount. rewrite Nat.add_0_r in Hcount. rewrite Hcount.
    split; [done|]. split; [done|]. intros (_ & ? & Hn). by destruct Hn.
  - fold (slice_start layout i). change (N.min (fsize f - _) _) with (slice_len layout f i).
    rewrite u64_add_small by lia.
    replace (N.min (N.of_nat (filled_by layout f dn i) + _) _) with
      (N.of_nat (filled_by layout f (dn ++ [w]) i)) by lia.
    split; [done|]. rewrite bool_decide_eq_true. lia.
Qed.

Lemma marked_new layout fi f :
  layout_files layout !! fi = Some f → marked layout fi f [] (new layout).
Proof.
  intros Hf. split; [done|done|]. intros i d Hd.
  rewrite (new_cell_lookup _ _ _ _ _ Hf Hd). do 2 f_equal.
  unfold filled_by. replace (count_bytes _ _ _) with 0; [done|].
  generalize (slice_start layout i), (N.to_nat (slice_len layout f i)). intros s n.
  revert s. induction n as [|n IH]; intros s; simpl; [done|]. apply IH.
Qed.

Lemma marked_step layout fi f dn v w :
  layout_files layout !! fi = Some f → fits layout f → marked layout fi f dn v →
  (w.1 + w.2 < 2 ^ 64)%N → (∀ b, covered dn b = true → in_write w b = true → False) →
  ∃ v' report, mark_written v fi w.1 w.2 = Some (v', report) ∧
    marked layout fi f (dn ++ [w]) v' ∧
    ∀ i d, slices f !! i = Some d →
      (first_slice (layout_files layout) fi + i ∈ report ↔
        (0 < slice_len layout f i)%N ∧ slice_covered layout f (dn ++ [w]) i ∧
        ¬ slice_covered layout f dn i).
Proof.
  intros Hf Hfit [Hb Hl Hc] Hw Hdis.
  destruct (new_bounds _ _ _ Hf) as [Hb1 Hb2].
  unfold mark_written. rewrite Hb, Hb1. simpl. rewrite Hb2. simpl.
  rewrite (first_slice_S _ _ _ Hf).
  set (base := first_slice (layout_files layout) fi) in *.
  replace (base + length (slices f) - base) with (length (slices f)) by lia.
  rewrite u64_add_small by done.
  destruct (mark_cells_spec w.1 (w.1 + w.2) (seq base (length (slices f))) (cells v))
    as (cs' & -> & Hcs').
  - apply NoDup_seq.
  - intros gi Hgi. apply elem_of_seq in Hgi.
    destruct (lookup_lt_is_Some_2 (slices f) (gi - base)) as [d Hd]; [lia|].
    specialize (Hc _ _ Hd). replace (base + (gi - base)) with gi in Hc by lia.
    by eapply lookup_lt_Some.
  - simpl. eexists _, _. split; [done|].
    assert (∀ i d, slices f !! i = Some d → base + i ∈ seq base (length (slices f))) as Hin.
    { intros i d Hd%lookup_lt_Some. apply elem_of_seq. lia. }
    split.
    + split; simpl; [done| |].
      * rewrite <-Hl. apply length_lookup_iff. intros j. rewrite Hcs'.
        case_decide; [by rewrite fmap_is_Some|done].
      * intros i d Hd. fold base. rewrite Hcs', decide_True by eauto. rewrite (Hc _ _ Hd). simpl. f_equal.
        by apply (mark_cell_step layout fi f dn w i d).
    + intros i d Hd. fold base. rewrite list_elem_of_filter.
      rewrite <-(proj2 (mark_cell_step layout fi f dn w i d Hfit Hd Hdis)).
      unfold completes. rewrite (Hc _ _ Hd). split; [by intros []|]. intros ?. split; [done|eauto].
Qed.

(** The writes of one file never touch the same byte twice. *)
Definition disjoint_writes (ws : list (N * N)) : Prop :=
  ∀ i j wi wj b, ws !! i = Some wi → ws !! j = Some wj → i ≠ j →
    in_write wi b = true → in_write wj b = true → False.

Lemma mark_all_spec layout fi f : ∀ ws dn v,
  layout_files layout !! fi = Some f → fits layout f → marked layout fi f dn v →
  disjoint_writes (dn ++ ws) → Forall (λ w, (w.1 + w.2 < 2 ^ 64)%N) ws →
  ∃ v' reports, mark_all v fi ws = Some (v', reports) ∧
    marked layout fi f (dn ++ ws) v' ∧ length reports = length ws ∧
    ∀ i d k report, slices f !! i = Some d → reports !! k = Some report →
      (first_slice (layout_files layout) fi + i ∈ report ↔
        (0 < slice_len layout f i)%N ∧ slice_covered layout f (dn ++ take (S k) ws) i ∧
        ¬ slice_covered layout f (dn ++ take k ws) i).
Proof.
  induction ws as [|w ws IH]; intros dn v Hf Hfit Hm Hdis Hbound; simpl.
  { eexists _, _. split; [done|]. rewrite app_nil_r. split_and!; [done|done|]. intros; by simplify_eq. }
  apply Forall_cons in Hbound as [Hw Hbound].
  destruct (marked_step layout fi f dn v w) as (v1 & rep & -> & Hm1 & Hrep); [done..| |].
  { intros b Hb1 Hb2. apply existsb_exists in Hb1 as (w' & Hw' & Hb1).
    apply list_elem_of_In, list_elem_of_lookup_1 in Hw' as [i Hi].
    apply (Hdis i (length dn) w' w b); [by apply lookup_app_l_Some| |pose proof (lookup_lt_Some _ _ _ Hi); lia|done..].
    rewrite lookup_app_r by lia. by rewrite Nat.sub_diag. }
  simpl. destruct (IH (dn ++ [w]) v1) as (v2 & reps & -> & Hm2 & Hlen & Hreps);
    [done..|by rewrite <-app_assoc|done|].
  simpl. eexists _, _. split; [done|]. rewrite <-app_assoc in Hm2. split_and!; [done|simpl; lia|].
  intros i d [|k] report Hi Hk; simplify_eq/=.
  - rewrite app_nil_r. rewrite (take_0 ws). by apply (Hrep i d).
  - rewrite (Hreps i d k report Hi Hk). by rewrite <-!app_assoc.
Qed.

(** ** Verifying the whole set *)
Section verify_all.
Context (md5_digest : bytes → bytes) (crc32_of : bytes → N).

(** Every slice read back with [read] and verified, as the tracker does once
    the slices are complete. *)
Definition verify_all (v : SliceVerifier) (read : nat → bytes) (gis : list nat) : SliceVerifier :=
  foldl (λ v gi, fst (verify md5_digest crc32_of v gi (read gi))) v gis.

Definition verdict (v : SliceVerifier) (c : SliceCell) (b : bytes) : SliceState :=
  if decide (digest_of md5_digest crc32_of (slice_size v) b = expected c) then Verified else Damaged.

Lemma verify_cells v gi b :
  cells (fst (verify md5_digest crc32_of v gi b)) =
    alter (λ c, with_state c (verdict v c b)) gi (cells v) ∧
  slice_size (fst (verify md5_digest crc32_of v gi b)) = slice_size v.
Proof.
  unfold verify. destruct (cells v !! gi) as [c|] eqn:Hc; simpl; (split; [|done]).
  - apply list_eq. intros j. destruct (decide (gi = j)) as [<-|Hne].
    + rewrite list_lookup_insert_eq by (by eapply lookup_lt_Some).
      rewrite list_lookup_alter_eq, Hc. simpl. do 2 f_equal. unfold verdict.
      destruct (expected c) as [em ec] eqn:He. simpl. apply decide_ext.
      unfold digest_of. simpl. split; [intros []; congruence|]. by intros [= Hm Hcr].
    + by rewrite list_lookup_insert_ne, list_lookup_alter_ne.
  - symmetry. apply list_eq. intros j. destruct (decide (gi = j)) as [<-|Hne].
    + by rewrite list_lookup_alter_eq, Hc.
    + by rewrite list_lookup_alter_ne.
Qed.

Lemma verify_all_cells gis : ∀ v read,
  NoDup gis →
  slice_size (verify_all v read gis) = slice_size v ∧
  ∀ j, cells (verify_all v read gis) !! j =
    if decide (j ∈ gis) then (λ c, with_state c (verdict v c (read j))) <$> cells v !! j
    else cells v !! j.
Proof.
  induction gis as [|gi gis IH]; intros v read Hnd; simpl.
  { split; [done|]. intros j. done. }
  apply NoDup_cons in Hnd as [Hni Hnd].
  destruct (verify_cells v gi (read gi)) as [Hcs Hss].
  destruct (IH (fst (verify md5_digest crc32_of v gi (read gi))) read Hnd) as [Hs Hj].
  unfold verify_all in *. simpl. split; [by rewrite Hs|]. intros j. rewrite Hj, Hcs.
  destruct (decide (j = gi)) as [->|Hne].
  - rewrite decide_False by done. rewrite decide_True by set_solver.
    by rewrite list_lookup_alter_eq.
  - rewrite list_lookup_alter_ne by done. unfold verdict. rewrite Hss.
    destruct (decide (j ∈ gis)); [rewrite decide_True by set_solver|rewrite decide_False by set_solver]; done.
Qed.
End verify_all.

(** ** Properties *)

(** C17. For any sequence of writes to a file that never touch a byte twice,
    in any order and with any split, [mark_written] never panics and reports
    a slice in exactly one place: at the write that fills the last of its
    missing bytes. *)
Theorem slice_reported_when_covered (layout : SliceLayout) (fi : nat) (f : FileSlices)
    (ws : list (N * N)) :
  layout_files layout !! fi = Some f → fits layout f →
  disjoint_writes ws → Forall (λ w, (w.1 + w.2 < 2 ^ 64)%N) ws →
  ∃ v reports, mark_all (new layout) fi ws = Some (v, reports) ∧ length reports = length ws ∧
    ∀ i d k report, slices f !! i = Some d → reports !! k = Some report →
      (first_slice (layout_files layout) fi + i ∈ report ↔
        (0 < slice_len layout f i)%N ∧ slice_covered layout f (take (S k) ws) i ∧
        ¬ slice_covered layout f (take k ws) i).
Proof.
  intros Hf Hfit Hdis Hb.
  destruct (mark_all_spec layout fi f ws [] (new layout)) as (v & reps & H1 & _ & H2 & H3);
    [done|done|by apply marked_new|done|done|]. eauto.
Qed.

(** Verifying every slice decides the whole map: each slice is [Verified]
    exactly when the digests of its zero-padded bytes are the expected ones,
    the map is complete, and [damaged_count] is the number of mismatches. *)
Theorem verify_all_verdicts (md5_digest : bytes → bytes) (crc32_of : bytes → N)
    (v : SliceVerifier) (read : nat → bytes) :
  let v' := verify_all md5_digest crc32_of v read (seq 0 (total_slices v)) in
  states v' = imap (λ gi c, verdict md5_digest crc32_of v c (read gi)) (cells v) ∧
  is_complete v' = true ∧
  damaged_count v' = length (filter (λ gc, verdict md5_digest crc32_of v gc.2 (read gc.1) = Damaged)
                              (imap pair (cells v))).
Proof.
  intros v'. destruct (verify_all_cells md5_digest crc32_of (seq 0 (total_slices v)) v read)
    as [_ Hc]; [apply NoDup_seq|]. fold v' in Hc.
  assert (cells v' = imap (λ gi c, with_state c (verdict md5_digest crc32_of v c (read gi))) (cells v))
    as Hcells.
  { apply list_eq. intros j. rewrite Hc, list_lookup_imap.
    destruct (cells v !! j) as [c|] eqn:Hj; [|by case_decide].
    rewrite decide_True; [done|]. apply elem_of_seq.
    pose proof (lookup_lt_Some _ _ _ Hj). unfold total_slices. lia. }
  unfold states, is_complete, damaged_count. rewrite Hcells. split_and!.
  - apply list_eq. intros j. rewrite list_lookup_fmap, !list_lookup_imap.
    by destruct (cells v !! j).
  - apply forallb_forall. intros c Hin%list_elem_of_In.
    apply elem_of_lookup_imap in Hin as (i & c0 & -> & _). simpl.
    apply bool_decide_eq_true_2. unfold verdict. by case_decide.
  - generalize (cells v). intros cs. clear Hc Hcells.
    rewrite <-(imap_ext (λ gi c, with_state c (verdict md5_digest crc32_of v c (read (0 + gi))))) by done.
    rewrite <-(imap_ext (λ gi c, (0 + gi, c))) by done.
    generalize 0 as o. induction cs as [|c cs IH]; intros o; [done|]. simpl.
    rewrite !filter_cons. simpl.
    rewrite (imap_ext _ (λ gi c, with_state c (verdict md5_digest crc32_of v c (read (S o + gi)))))
      by (intros; simpl; by rewrite Nat.add_succ_r).
    rewrite (imap_ext _ (λ gi c, (S o + gi, c))) by (intros; simpl; by rewrite Nat.add_succ_r).
    rewrite Nat.add_0_r. pose proof (IH (S o)) as IH'.
    case_decide; simpl; [f_equal|]; exact IH'.
Qed.

(** ** Witnesses *)
Module SliceMapExample.
Definition no_digest : SliceDigest := {| md5 := []; crc32 := 0 |}.
(** One file of 300 bytes in three slices. *)
Definition file : FileSlices := {| fsize := 300; slices := replicate 3 no_digest |}.
Definition layout : SliceLayout := {| layout_slice_size := 100; layout_files := [file] |}.
(** An article across all three slices, then the tail and the head. *)
Definition writes : list (N * N) := [(50, 200); (250, 50); (0, 50)]%N.
End SliceMapExample.
Import SliceMapExample.

Lemma slice_reported_when_covered_witness :
  ∃ v reports, mark_all (new layout) 0 writes = Some (v, reports) ∧ reports = [[1]; [2]; [0]].
Proof.
  destruct (slice_reported_when_covered layout 0 file writes) as (v & reports & H & _ & _).
  - reflexivity.
  - split; vm_compute; reflexivity.
  - intros i j wi wj b Hi Hj Hij. unfold in_write, writes in *.
    rewrite !andb_true_iff, !N.leb_le, !N.ltb_lt.
    destruct i as [|[|[|i]]]; simpl in Hi; simplify_eq;
      destruct j as [|[|[|j]]]; simpl in Hj; simplify_eq; simpl; lia.
  - repeat constructor; vm_compute; reflexivity.
  - exists v, reports. split; [exact H|]. vm_compute in H. by simplify_eq.
Defined.

(** Bytes are counted per write, not per byte: the first half of a slice
    written twice reports the slice while its second half is still missing,
    so an overlapping write is outside the contract of [mark_written]. *)
Example overlapping_writes_report_early :
  mark_all (new layout) 0 [(0, 50); (0, 50)]%N ≫= (λ r, Some r.2) = Some [[]; [0]] ∧
  ¬ slice_covered layout file [(0, 50); (0, 50)]%N 0.
Proof.
  split; [vm_compute; reflexivity|]. intros H. specialize (H 60%N ltac:(vm_compute; done)).
  vm_compute in H. done.
Qed.
