(* ===== verification/RepairFold.v ===== *)
(** * The in-flight PAR2 repair fold

    Models [crates/nzb-decode/src/repair_fold.rs]: accumulator rows, one per
    recovery exponent, into which verified slices are folded as they arrive,
    and the solve that turns the rows and the recovery slices into the damaged
    slices. The GF(2^16) arithmetic is the crate [rust-par2]: class [Gf16]
    lists the functions used, [Gf16Laws] what they are documented to compute
    (a linear action of field elements on slices, and matrix inversion). A
    slice is the XOR-vector of its bytes. *)
From S2P Require Import Prelude.

(** ** XOR of byte strings *)
Definition byte_xor (a b : byte) : byte :=
  match Byte.to_bits a, Byte.to_bits b with
  | (a0, (a1, (a2, (a3, (a4, (a5, (a6, a7))))))), (b0, (b1, (b2, (b3, (b4, (b5, (b6, b7))))))) =>
    Byte.of_bits (xorb a0 b0, (xorb a1 b1, (xorb a2 b2, (xorb a3 b3,
      (xorb a4 b4, (xorb a5 b5, (xorb a6 b6, xorb a7 b7)))))))
  end.

Definition xor (a b : bytes) : bytes := zip_with byte_xor a b.
Definition zeros (n : nat) : bytes := replicate n Byte.x00.

Lemma byte_xor_comm a b : byte_xor a b = byte_xor b a.
Proof.
  unfold byte_xor. destruct (Byte.to_bits a) as (?&?&?&?&?&?&?&?), (Byte.to_bits b) as (?&?&?&?&?&?&?&?).
  apply f_equal. do 7 (apply (f_equal2 pair); [apply xorb_comm|]). apply xorb_comm.
Qed.
Lemma byte_xor_assoc a b c : byte_xor a (byte_xor b c) = byte_xor (byte_xor a b) c.
Proof.
  unfold byte_xor. destruct (Byte.to_bits a) as (?&?&?&?&?&?&?&?), (Byte.to_bits b) as (?&?&?&?&?&?&?&?),
    (Byte.to_bits c) as (?&?&?&?&?&?&?&?). rewrite !Byte.to_bits_of_bits.
  apply f_equal. do 7 (apply (f_equal2 pair); [symmetry; apply xorb_assoc|]).
  symmetry. apply xorb_assoc.
Qed.
Lemma byte_xor_0_r a : byte_xor a Byte.x00 = a.
Proof. by destruct a. Qed.
Lemma byte_xor_diag a : byte_xor a a = Byte.x00.
Proof. by destruct a. Qed.

Lemma xor_comm a b : xor a b = xor b a.
Proof.
  unfold xor. revert b. induction a as [|x a IH]; intros [|y b]; simpl; [done..|].
  by rewrite byte_xor_comm, IH.
Qed.
Lemma xor_assoc a b c : xor a (xor b c) = xor (xor a b) c.
Proof.
  unfold xor. revert b c. induction a as [|x a IH]; intros [|y b] [|z c]; simpl; [done..|].
  by rewrite byte_xor_assoc, IH.
Qed.
Lemma xor_zeros_r n a : length a = n → xor a (zeros n) = a.
Proof.
  unfold xor, zeros. intros <-. induction a as [|x a IH]; simpl; [done|].
  by rewrite byte_xor_0_r, IH.
Qed.
Lemma xor_zeros_l n a : length a = n → xor (zeros n) a = a.
Proof. intros. rewrite xor_comm. by apply xor_zeros_r. Qed.
Lemma xor_diag a : xor a a = zeros (length a).
Proof. unfold xor, zeros. induction a as [|x a IH]; simpl; [done|]. by rewrite byte_xor_diag, IH. Qed.
Lemma length_xor n a b : length a = n → length b = n → length (xor a b) = n.
Proof. intros. unfold xor. rewrite length_zip_with. lia. Qed.
Lemma length_zeros n : length (zeros n) = n.
Proof. apply length_replicate. Qed.

(** ** The field arithmetic of [rust-par2] *)
Class Gf16 (G : Type) := {
  gf_zero : G;
  gf_one : G;
  gf_add : G → G → G;
  gf_mul : G → G → G;
  (** [gf::pow] *)
  gf_pow : G → N → G;
  (** a slice multiplied by a constant, what [mul_add_multi] adds *)
  gf_scale : G → bytes → bytes;
  (** [par2_input_constants] *)
  input_constants : nat → list G;
  (** [mul_add_multi(out, srcs, coeffs)] *)
  mul_add_multi : bytes → list bytes → list G → bytes;
  (** [GfMatrix::invert], a matrix being the list of its rows *)
  gf_invert : list (list G) → option (list (list G));
}.

(** The sum [Σ_e l1[e] · l2[e]] in the field. *)
Definition dot {G} `{Gf16 G} (l1 l2 : list G) : G :=
  foldr gf_add gf_zero (zip_with gf_mul l1 l2).

Definition column {G} `{Gf16 G} (m : list (list G)) (j : nat) : list G :=
  (λ row, default gf_zero (row !! j)) <$> m.

(** The laws, for slices of [n] bytes. *)
Class Gf16Laws (G : Type) `{Gf16 G} (n : nat) := {
  one_not_zero : gf_one ≠ gf_zero;
  scale_length c v : length v = n → length (gf_scale c v) = n;
  scale_xor c u v : length u = n → length v = n →
    gf_scale c (xor u v) = xor (gf_scale c u) (gf_scale c v);
  scale_zeros c : gf_scale c (zeros n) = zeros n;
  scale_add c d v : length v = n → gf_scale (gf_add c d) v = xor (gf_scale c v) (gf_scale d v);
  scale_mul c d v : length v = n → gf_scale (gf_mul c d) v = gf_scale c (gf_scale d v);
  scale_gf_zero v : length v = n → gf_scale gf_zero v = zeros n;
  scale_gf_one v : length v = n → gf_scale gf_one v = v;
  length_input_constants k : length (input_constants k) = k;
  mul_add_multi_spec out srcs coeffs :
    length out = n → Forall (λ s, length s = n) srcs → length srcs = length coeffs →
    mul_add_multi out srcs coeffs = foldl xor out (zip_with gf_scale coeffs srcs);
  (** an inverse is a left inverse, and has the shape of the matrix *)
  invert_spec m inv d :
    length m = d → Forall (λ row, length row = d) m → gf_invert m = Some inv →
    length inv = d ∧
    ∀ i j row, inv !! i = Some row → j < d →
      length row = d ∧ dot row (column m j) = if decide (i = j) then gf_one else gf_zero;
}.

(** ** Bounds *)
Definition MAX_REPAIR_ROW_BYTES : N := 256 * 1024 * 1024.
Definition MAX_FOLD_SLICE_SIZE : N := 32 * 1024 * 1024.
Definition MAX_REPAIR_BATCH : N := 8.
Definition MAX_BATCH_BYTES : N := 48 * 1024 * 1024.

Inductive FoldError :=
  | SliceTooLarge (size : N)
  | NoRows
  | Poisoned
  | NotEnoughRows (needed usable : nat)
  | OutOfRange (index : nat)
  | Singular
  | Read (index : nat) (message : string).

(** Most rows the budget allows for a slice size. *)
Definition max_rows_for (ssize : N) : N :=
  if decide (ssize = 0 ∨ MAX_FOLD_SLICE_SIZE < ssize)%N then 0 else MAX_REPAIR_ROW_BYTES `div` ssize.

(** How many slices one disk batch may hold. *)
Definition batch_len (ssize : N) : nat :=
  N.to_nat (N.min (N.max (MAX_BATCH_BYTES `div` N.max ssize 1) 1) MAX_REPAIR_BATCH).

Record Growth := { gstart : nat; pending : gset nat }.

Record GrowthTicket := { ticket_generation : N; ticket_slices : list nat }.

Record RepairFold (G : Type) := MkFold {
  slice_size : nat;
  constants : list G;
  exponents : list N;
  rows : list bytes;
  fed : list bool;
  fed_count : nat;
  poisoned : bool;
  growth : option Growth;
  generation : N;
  disk_fed : nat;
  disk_read : list bool;
  disk_reads : nat;
  disk_rereads : nat;
  disk_read_bytes : N;
  max_rows : N;
}.
Arguments MkFold {G}.
Arguments slice_size {G}. Arguments constants {G}. Arguments exponents {G}.
Arguments rows {G}. Arguments fed {G}. Arguments fed_count {G}. Arguments poisoned {G}.
Arguments growth {G}. Arguments generation {G}. Arguments disk_fed {G}.
Arguments disk_read {G}. Arguments disk_reads {G}. Arguments disk_rereads {G}.
Arguments disk_read_bytes {G}. Arguments max_rows {G}.

(** Updates of the record, one per group of fields the code assigns. *)
Definition set_rows {G} (f : RepairFold G) (es : list N) (rs : list bytes) : RepairFold G :=
  MkFold (slice_size f) (constants f) es rs (fed f) (fed_count f) (poisoned f) (growth f)
    (generation f) (disk_fed f) (disk_read f) (disk_reads f) (disk_rereads f)
    (disk_read_bytes f) (max_rows f).
Definition set_fed {G} (f : RepairFold G) (fd : list bool) (n : nat) : RepairFold G :=
  MkFold (slice_size f) (constants f) (exponents f) (rows f) fd n (poisoned f) (growth f)
    (generation f) (disk_fed f) (disk_read f) (disk_reads f) (disk_rereads f)
    (disk_read_bytes f) (max_rows f).
Definition set_poisoned {G} (f : RepairFold G) (b : bool) : RepairFold G :=
  MkFold (slice_size f) (constants f) (exponents f) (rows f) (fed f) (fed_count f) b (growth f)
    (generation f) (disk_fed f) (disk_read f) (disk_reads f) (disk_rereads f)
    (disk_read_bytes f) (max_rows f).
Definition set_growth {G} (f : RepairFold G) (g : option Growth) (gen : N) : RepairFold G :=
  MkFold (slice_size f) (constants f) (exponents f) (rows f) (fed f) (fed_count f) (poisoned f) g
    gen (disk_fed f) (disk_read f) (disk_reads f) (disk_rereads f)
    (disk_read_bytes f) (max_rows f).
Definition set_disk {G} (f : RepairFold G) (n : nat) (rd : list bool) (reads rereads : nat)
    (rbytes : N) : RepairFold G :=
  MkFold (slice_size f) (constants f) (exponents f) (rows f) (fed f) (fed_count f) (poisoned f)
    (growth f) (generation f) n rd reads rereads rbytes (max_rows f).
Definition with_row_limit {G} (f : RepairFold G) (limit : N) : RepairFold G :=
  MkFold (slice_size f) (constants f) (exponents f) (rows f) (fed f) (fed_count f) (poisoned f)
    (growth f) (generation f) (disk_fed f) (disk_read f) (disk_reads f) (disk_rereads f)
    (disk_read_bytes f) (N.min limit (max_rows_for (N.of_nat (slice_size f)))).

Section fold.
Context {G : Type} `{GF : Gf16 G}.
Implicit Types (f : RepairFold G).

(** [RepairFold::new] *)
Definition new (total : nat) (ssize : N) (exps : list N) : result FoldError (RepairFold G) :=
  if decide (MAX_FOLD_SLICE_SIZE < ssize)%N then Err (SliceTooLarge ssize)
  else if decide (exps = [] ∨ max_rows_for ssize < N.of_nat (length exps))%N then Err NoRows
  else
    let n := N.to_nat ssize in
    Ok (MkFold n (input_constants total) exps (map (λ _, zeros n) exps)
          (replicate total false) 0 false None 0 0 (replicate total false) 0 0 0
          (max_rows_for ssize)).

Definition is_fed f (i : nat) : bool := default false (fed f !! i).
Definition row_limit f : N := N.min (max_rows f) (max_rows_for (N.of_nat (slice_size f))).
Definition row_bytes f : N := N.of_nat (length (rows f) * slice_size f).
Definition note_disk_fed f (count : nat) : RepairFold G :=
  set_disk f (disk_fed f + count) (disk_read f) (disk_reads f) (disk_rereads f) (disk_read_bytes f).

Definition note_disk_read f (index : nat) (rlen : N) : RepairFold G :=
  let '(rd, rr) :=
    match disk_read f !! index with
    | Some true => (disk_read f, S (disk_rereads f))
    | Some false => (<[index := true]> (disk_read f), disk_rereads f)
    | None => (disk_read f, S (disk_rereads f))
    end in
  set_disk f (disk_fed f) rd (S (disk_reads f)) rr (u64_add (disk_read_bytes f) rlen).

(** A slice as it enters the sums: zero-padded, or cut to the slice size. *)
Definition pad (ssize : nat) (b : bytes) : bytes :=
  if decide (length b < ssize) then vec_resize ssize Byte.x00 b else take ssize b.

(** [gf::pow(constants[i], exp)]; [i] is in bounds wherever the code asks. *)
Definition coeff (cs : list G) (i : nat) (e : N) : G := gf_pow (default gf_zero (cs !! i)) e.

(** [fold_into]: add the slices to each row, row [r] having exponent
    [exps[r]]. *)
Fixpoint fold_into (rs : list bytes) (exps : list N) (cs : list G) (ssize : nat)
    (sl : list (nat * bytes)) : list bytes :=
  match rs, exps with
  | r :: rs', e :: exps' =>
    mul_add_multi r (map (λ s, pad ssize s.2) sl) (map (λ s, coeff cs s.1 e) sl)
      :: fold_into rs' exps' cs ssize sl
  | _, _ => rs
  end.

(** The collection loop of [feed_batch]. *)
Fixpoint fresh_slices (fd : list bool) (fresh sl : list (nat * bytes))
    : result FoldError (list (nat * bytes)) :=
  match sl with
  | [] => Ok fresh
  | (i, b) :: rest =>
    if decide (length fd <= i) then Err (OutOfRange i)
    else if decide (fd !! i = Some false ∧ i ∉ map fst fresh)
    then fresh_slices fd (fresh ++ [(i, b)]) rest
    else fresh_slices fd fresh rest
  end.

Definition mark_fed (fd : list bool) (sl : list (nat * bytes)) : list bool :=
  foldl (λ fd s, <[s.1 := true]> fd) fd sl.

Definition feed_batch f (sl : list (nat * bytes)) : result FoldError (RepairFold G * nat) :=
  fresh ← fresh_slices (fed f) [] sl;
  if decide (fresh = []) then Ok (f, 0)
  else
    let f1 := set_rows f (exponents f) (fold_into (rows f) (exponents f) (constants f) (slice_size f) fresh) in
    Ok (set_fed f1 (mark_fed (fed f) fresh) (fed_count f + length fresh), length fresh).

Definition feed f (i : nat) (b : bytes) : result FoldError (RepairFold G * bool) :=
  '(f', n) ← feed_batch f [(i, b)]; Ok (f', bool_decide (n = 1)).

Definition note_corrupt f (i : nat) : RepairFold G :=
  if is_fed f i then set_poisoned f true else f.

Definition abandon_growth f : RepairFold G :=
  match growth f with
  | None => f
  | Some g => set_growth (set_rows f (take (gstart g) (exponents f)) (take (gstart g) (rows f)))
                None (u64_add (generation f) 1)
  end.

Definition abandon_growth_of f (gen : N) : RepairFold G :=
  if decide (gen = generation f) then abandon_growth f else f.

Definition growing f : bool := bool_decide (is_Some (growth f)).

Definition complete_rows f : nat :=
  match growth f with None => length (rows f) | Some g => gstart g end.

(** Read every index of a chunk, stopping at the first failure. *)
Fixpoint read_chunk (read : nat → result string bytes) (idxs : list nat)
    : result FoldError (list (nat * bytes)) :=
  match idxs with
  | [] => Ok []
  | i :: rest =>
    match read i with
    | Err msg => Err (Read i msg)
    | Ok b => sl ← read_chunk read rest; Ok ((i, b) :: sl)
    end
  end.

(** [for_each_batch]: the state after the batches that were read, and the
    read error that stopped it, if any. *)
Fixpoint for_each_batch {St} (cs : list (list nat)) (read : nat → result string bytes)
    (apply : St → list (nat * bytes) → St) (s : St) : St * option FoldError :=
  match cs with
  | [] => (s, None)
  | c :: rest =>
    match read_chunk read c with
    | Err e => (s, Some e)
    | Ok batch => for_each_batch rest read apply (apply s batch)
    end
  end.

Definition new_exponents f (exps : list N) : list N := filter (λ e, e ∉ exponents f) exps.

(** The indices already folded, ascending. *)
Definition fed_indices f : list nat := filter (λ i, is_fed f i = true) (seq 0 (length (fed f))).

(** Zeroed rows for [es], appended. *)
Definition add_rows f (es : list N) : RepairFold G :=
  set_rows f (exponents f ++ es) (rows f ++ map (λ _, zeros (slice_size f)) es).

(** Fold into the rows from [st] on only. *)
Definition fold_tail (st : nat) f (sl : list (nat * bytes)) : RepairFold G :=
  set_rows f (exponents f)
    (take st (rows f) ++
     fold_into (drop st (rows f)) (drop st (exponents f)) (constants f) (slice_size f) sl).

Definition extend_rows f (exps : list N) (read : nat → result string bytes)
    : RepairFold G * result FoldError nat :=
  let f := abandon_growth f in
  let es := new_exponents f exps in
  if decide (es = []) then (f, Ok 0)
  else if decide (row_limit f < N.of_nat (length (rows f) + length es))%N then (f, Err NoRows)
  else
    let st := length (rows f) in
    let '(f', err) :=
      for_each_batch (chunks (batch_len (N.of_nat (slice_size f))) (fed_indices f)) read
        (fold_tail st) (add_rows f es) in
    match err with
    | Some e => (set_rows f' (take st (exponents f')) (take st (rows f')), Err e)
    | None => (f', Ok (length es))
    end.

Definition begin_growth f (exps : list N) : RepairFold G * result FoldError (option GrowthTicket) :=
  if decide (is_Some (growth f)) then (f, Ok None)
  else
    let es := new_exponents f exps in
    if decide (es = []) then (f, Ok None)
    else if decide (row_limit f < N.of_nat (length (rows f) + length es))%N then (f, Err NoRows)
    else
      let sl := fed_indices f in
      let f1 := add_rows f es in
      let f2 :=
        if decide (sl = []) then set_growth f1 None (u64_add (generation f) 1)
        else set_growth f1 (Some {| gstart := length (rows f); pending := list_to_set sl |}) (generation f) in
      (f2, Ok (Some {| ticket_generation := generation f2; ticket_slices := sl |})).

(** [slices.filter(|(i, _)| growth.pending.remove(i))] *)
Fixpoint take_pending (p : gset nat) (sl : list (nat * bytes)) : list (nat * bytes) * gset nat :=
  match sl with
  | [] => ([], p)
  | (i, b) :: rest =>
    if decide (i ∈ p) then
      let '(fresh, p') := take_pending (p ∖ {[i]}) rest in ((i, b) :: fresh, p')
    else take_pending p rest
  end.

Definition backfill f (gen : N) (sl : list (nat * bytes)) : RepairFold G * bool :=
  if decide (gen ≠ generation f) then (f, false)
  else match growth f with
       | None => (f, false)
       | Some g =>
         let '(fresh, p') := take_pending (pending g) sl in
         let f1 := fold_tail (gstart g) f fresh in
         (if decide (p' = ∅) then set_growth f1 None (u64_add (generation f) 1)
          else set_growth f1 (Some {| gstart := gstart g; pending := p' |}) (generation f), true)
       end.

Definition feed_missing f (damaged : list nat) (read : nat → result string bytes)
    : RepairFold G * result FoldError nat :=
  match list_find (λ j, length (fed f) <= j) damaged with
  | Some (_, j) => (f, Err (OutOfRange j))
  | None =>
    let todo := filter (λ i, is_fed f i = false ∧ i ∉ damaged) (seq 0 (length (fed f))) in
    let step (s : RepairFold G * nat * option FoldError) batch :=
      match feed_batch s.1.1 batch with
      | Ok (f', n) => (f', s.1.2 + n, s.2)
      | Err e => (s.1.1, s.1.2, Some e)
      end in
    let '(f', n, fold_err, err) :=
      for_each_batch (chunks (batch_len (N.of_nat (slice_size f))) todo) read step (f, 0, None) in
    match err, fold_err with
    | Some e, _ => (f', Err e)
    | None, Some e => (f', Err e)
    | None, None => (note_disk_fed f' n, Ok n)
    end
  end.

(** The rows [solve] can use: complete, and with recovery data of the right
    size; the first [d] of them. *)
Definition row_usable f (recovery : gmap N bytes) (r : nat) : bool :=
  match e ← exponents f !! r; recovery !! e with
  | Some data => bool_decide (length data = slice_size f)
  | None => false
  end.

Definition usable_rows f (recovery : gmap N bytes) (d : nat) : list nat :=
  take d (filter (λ r, row_usable f recovery r = true) (seq 0 (complete_rows f))).

(** The decode matrix: row [e] is the usable row, column [j] the damaged
    slice. *)
Definition decode_matrix f (usable damaged : list nat) : list (list G) :=
  map (λ r, map (λ idx, coeff (constants f) idx (default 0%N (exponents f !! r))) damaged) usable.

Definition row_of f (r : nat) : bytes := default [] (rows f !! r).
Definition recovery_of f (recovery : gmap N bytes) (r : nat) : bytes :=
  default [] (e ← exponents f !! r; recovery !! e).

Definition solve f (damaged : list nat) (recovery : gmap N bytes)
    : result FoldError (list (nat * bytes)) :=
  if decide (poisoned f = true ∨ existsb (is_fed f) damaged = true) then Err Poisoned
  else match list_find (λ j, length (fed f) <= j) damaged with
  | Some (_, j) => Err (OutOfRange j)
  | None =>
    let d := length damaged in
    if decide (fed_count f + d ≠ length (fed f)) then Err (NotEnoughRows d 0)
    else if decide (d = 0) then Ok []
    else
      let usable := usable_rows f recovery d in
      if decide (length usable < d) then Err (NotEnoughRows d (length usable))
      else match gf_invert (decode_matrix f usable damaged) with
      | None => Err Singular
      | Some inverse =>
        let rs := map (row_of f) usable in
        let recs := map (recovery_of f recovery) usable in
        Ok (imap (λ j idx,
              let coeffs := map (λ e, default gf_zero (row ← inverse !! j; row !! e)) (seq 0 d) in
              (idx, mul_add_multi (mul_add_multi (zeros (slice_size f)) rs coeffs) recs coeffs))
            damaged)
      end
  end.
End fold.

(** ** Sums of slices *)
Section sums.
Context {G : Type} `{GF : Gf16 G} (n : nat) `{!Gf16Laws G n}.

Definition xsum (l : list bytes) : bytes := foldr xor (zeros n) l.

Definition sized (l : list bytes) : Prop := Forall (λ v, length v = n) l.

Lemma xsum_length l : sized l → length (xsum l) = n.
Proof. induction 1 as [|v l Hv Hl IH]; simpl; [apply length_zeros|by apply length_xor]. Qed.

Lemma xsum_perm l1 l2 : l1 ≡ₚ l2 → xsum l1 = xsum l2.
Proof.
  induction 1 as [|x l1 l2 _ IH|x y l|l1 l2 l3 _ IH1 _ IH2]; simpl; [done|by rewrite IH| |congruence].
  by rewrite !xor_assoc, (xor_comm x y).
Qed.

Lemma xsum_app l1 l2 : sized l2 → xsum (l1 ++ l2) = xor (xsum l1) (xsum l2).
Proof.
  intros H2. induction l1 as [|v l1 IH]; simpl.
  - symmetry. by apply xor_zeros_l, xsum_length.
  - by rewrite IH, xor_assoc.
Qed.

Lemma foldl_xor out l : length out = n → sized l → foldl xor out l = xor out (xsum l).
Proof.
  intros Ho Hl. revert out Ho. induction Hl as [|v l Hv Hl IH]; intros out Ho; simpl.
  - symmetry. by apply xor_zeros_r.
  - rewrite IH by (by apply length_xor). by rewrite xor_assoc.
Qed.

Lemma xsum_xor {A} (g h : A → bytes) (l : list A) :
  xsum (map (λ x, xor (g x) (h x)) l) = xor (xsum (map g l)) (xsum (map h l)).
Proof.
  induction l as [|x l IH]; simpl; [by rewrite xor_zeros_r by apply length_zeros|].
  rewrite IH, <-!xor_assoc. f_equal. rewrite !xor_assoc. f_equal. apply xor_comm.
Qed.

Lemma xsum_zeros l : Forall (λ v, v = zeros n) l → xsum l = zeros n.
Proof.
  induction 1 as [|v l -> Hl IH]; simpl; [done|]. rewrite IH. apply xor_zeros_r, length_zeros.
Qed.

Lemma scale_xsum c l : sized l → gf_scale c (xsum l) = xsum (map (gf_scale c) l).
Proof.
  induction 1 as [|v l Hv Hl IH]; simpl; [apply scale_zeros|].
  rewrite (scale_xor (n := n)) by (done || by apply xsum_length). by rewrite IH.
Qed.

Lemma sized_map {A} (g : A → bytes) (l : list A) :
  (∀ x, x ∈ l → length (g x) = n) → sized (map g l).
Proof. intros Hg. apply Forall_fmap, Forall_forall. auto. Qed.

(** A sum with one non-zero term. *)
Lemma xsum_pick {A} (g : A → bytes) (l : list A) j x v :
  l !! j = Some x → length v = n →
  (∀ k y, l !! k = Some y → g y = if decide (j = k) then v else zeros n) →
  xsum (map g l) = v.
Proof.
  revert j. induction l as [|y l IH]; intros [|j] Hj Hv Hg; simplify_eq/=.
  - rewrite (Hg 0 x eq_refl). simpl. rewrite xsum_zeros; [by apply xor_zeros_r|].
    apply Forall_fmap, Forall_forall. intros z [k Hk]%list_elem_of_lookup_1. simpl.
    by rewrite (Hg (S k) z Hk).
  - rewrite (Hg 0 y eq_refl). simpl. rewrite xor_zeros_l.
    + apply (IH j Hj Hv). intros k z Hk. rewrite (Hg (S k) z Hk).
      by apply decide_ext; split; [intros [= ->]|intros ->].
    + assert (xsum (map g l) = v) as ->; [|done]. apply (IH j Hj Hv).
      intros k z Hk. rewrite (Hg (S k) z Hk). by apply decide_ext; split; [intros [= ->]|intros ->].
Qed.

(** ** The slices of the set *)
Context (D : list bytes) (HD : sized D).

Definition slice (i : nat) : bytes := default (zeros n) (D !! i).

Lemma slice_length i : length (slice i) = n.
Proof.
  unfold slice. destruct (D !! i) as [v|] eqn:Hi; simpl; [|apply length_zeros].
  unfold sized in HD. rewrite Forall_lookup in HD. eauto.
Qed.

(** What slice [i] contributes to a row of exponent [e]. *)
Definition term (e : N) (i : nat) : bytes :=
  gf_scale (coeff (input_constants (length D)) i e) (slice i).

Definition vsum (e : N) (l : list nat) : bytes := xsum (map (term e) l).

Lemma term_length e i : length (term e i) = n.
Proof. apply scale_length, slice_length. Qed.

Lemma sized_terms e l : sized (map (term e) l).
Proof. apply sized_map. intros. apply term_length. Qed.

Lemma vsum_length e l : length (vsum e l) = n.
Proof. apply xsum_length, sized_terms. Qed.

Lemma vsum_perm e l1 l2 : l1 ≡ₚ l2 → vsum e l1 = vsum e l2.
Proof. intros Hp. apply xsum_perm. by apply Permutation_map. Qed.

Lemma vsum_app e l1 l2 : vsum e (l1 ++ l2) = xor (vsum e l1) (vsum e l2).
Proof. unfold vsum. rewrite map_app. apply xsum_app, sized_terms. Qed.

(** Slices handed to the fold carry the set's bytes. *)
Definition good (sl : list (nat * bytes)) : Prop :=
  Forall (λ s, D !! s.1 = Some (pad n s.2)) sl.

Lemma pad_length b : length (pad n b) = n.
Proof.
  unfold pad. case_decide; [apply length_vec_resize|]. rewrite length_take. lia.
Qed.

(** One row of [fold_into] gains the sum of the slices. *)
Lemma mul_add_good row e sl :
  length row = n → good sl →
  mul_add_multi row (map (λ s, pad n s.2) sl)
    (map (λ s, coeff (input_constants (length D)) s.1 e) sl) = xor row (vsum e (map fst sl)).
Proof.
  intros Hr Hg. rewrite (mul_add_multi_spec (n := n)); [|done| |by rewrite !length_map].
  2:{ apply Forall_fmap, Forall_forall. intros s _. apply pad_length. }
  assert (zip_with gf_scale (map (λ s, coeff (input_constants (length D)) s.1 e) sl)
    (map (λ s, pad n s.2) sl) = map (term e) (map fst sl)) as ->.
  { induction Hg as [|[i b] sl Hs Hg IH]; simpl; [done|]. f_equal; [|done].
    unfold term, slice. simpl in *. by rewrite Hs. }
  apply foldl_xor; [done|apply sized_terms].
Qed.

Lemma lookup_fold_into rs exps cs ss sl r :
  length rs = length exps →
  fold_into rs exps cs ss sl !! r =
    (row ← rs !! r; e ← exps !! r;
     Some (mul_add_multi row (map (λ s, pad ss s.2) sl) (map (λ s, coeff cs s.1 e) sl))).
Proof.
  revert exps r. induction rs as [|row rs IH]; intros [|e exps] [|r] Hl; simplify_eq/=; try done.
  by apply IH.
Qed.

Lemma length_fold_into rs exps (cs : list G) ss sl : length (fold_into rs exps cs ss sl) = length rs.
Proof. revert exps. induction rs as [|row rs IH]; intros [|e exps]; simpl; auto. Qed.
End sums.

(** ** The collection loop and the fed flags *)
Lemma fresh_slices_spec fd sl : ∀ fresh res,
  fresh_slices fd fresh sl = Ok res →
  NoDup (map fst fresh) → Forall (λ s, fd !! s.1 = Some false) fresh →
  NoDup (map fst res) ∧ Forall (λ s, fd !! s.1 = Some false) res ∧
  (∀ s, s ∈ res → s ∈ fresh ∨ s ∈ sl).
Proof.
  induction sl as [|[i b] sl IH]; intros fresh res; simpl.
  { intros [= ->]. auto. }
  case_decide; [done|]. case_decide as Hi.
  - intros Hr Hnd Hall. destruct Hi as [Hi Hni].
    destruct (IH _ _ Hr) as (H1 & H2 & H3).
    + rewrite map_app. apply NoDup_app. split_and!; [done| |apply NoDup_singleton]. set_solver.
    + apply Forall_app. split; [done|]. by constructor.
    + split_and!; [done|done|]. intros s Hs. specialize (H3 s Hs). set_solver.
  - intros Hr Hnd Hall. destruct (IH _ _ Hr Hnd Hall) as (H1 & H2 & H3).
    split_and!; [done|done|]. intros s Hs. specialize (H3 s Hs). set_solver.
Qed.

Lemma mark_fed_lookup sl : ∀ fd i,
  Forall (λ s, s.1 < length fd) sl →
  mark_fed fd sl !! i = if decide (i ∈ map fst sl) then Some true else fd !! i.
Proof.
  unfold mark_fed. induction sl as [|[j b] sl IH]; intros fd i Hall; simpl; [done|].
  apply Forall_cons in Hall as [Hj Hall]. simpl in Hj.
  rewrite IH by (by rewrite length_insert).
  destruct (decide (i ∈ map fst sl)); [by rewrite decide_True by set_solver|].
  rewrite list_lookup_insert. destruct (decide (i = j)) as [->|].
  - rewrite !decide_True; [done|set_solver|done].
  - rewrite (decide_False (P := i ∈ j :: _)) by set_solver. rewrite decide_False; [done|]. naive_solver.
Qed.

Lemma length_mark_fed sl fd : length (mark_fed fd sl) = length fd.
Proof.
  unfold mark_fed. revert fd. induction sl as [|s sl IH]; intros fd; simpl; [done|].
  by rewrite IH, length_insert.
Qed.

(** ** Soundness of a fold

    [sums f sel]: row [r] is the sum of the contributions of the slices
    [sel r]. A fold is sound when its complete rows hold every fed slice, and
    the rows of a growth hold every fed slice but the pending ones. *)
Section soundness.
Context {G : Type} `{GF : Gf16 G} (n : nat) `{!Gf16Laws G n}.
Context (D : list bytes) (HD : sized n D).
Implicit Types (f : RepairFold G).

Record shape f : Prop := {
  shape_size : slice_size f = n;
  shape_constants : constants f = input_constants (length D);
  shape_fed : length (fed f) = length D;
  shape_count : fed_count f = length (fed_indices f);
  shape_rows : length (rows f) = length (exponents f);
}.

Definition sums f (sel : nat → list nat) : Prop :=
  ∀ r row e, rows f !! r = Some row → exponents f !! r = Some e →
    row = vsum n D e (sel r).

Definition growth_ok f : Prop :=
  ∀ g, growth f = Some g →
    gstart g ≤ length (rows f) ∧ ∀ i, i ∈ pending g → i ∈ fed_indices f.

Definition summed f (r : nat) : list nat :=
  match growth f with
  | Some g => if decide (r < gstart g) then fed_indices f
              else filter (λ i, i ∉ pending g) (fed_indices f)
  | None => fed_indices f
  end.

Record sound f : Prop := {
  sound_shape : shape f;
  sound_growth : growth_ok f;
  sound_sums : sums f (summed f);
}.

Lemma elem_of_fed_indices f i : i ∈ fed_indices f ↔ fed f !! i = Some true.
Proof.
  unfold fed_indices, is_fed. rewrite list_elem_of_filter, elem_of_seq. split.
  - intros [Hf _]. destruct (fed f !! i) as [[]|]; done.
  - intros Hf. rewrite Hf. split; [done|]. apply lookup_lt_Some in Hf. lia.
Qed.

Lemma NoDup_fed_indices f : NoDup (fed_indices f).
Proof. apply NoDup_filter, NoDup_seq. Qed.

Lemma fed_indices_ext f f' : fed f' = fed f → fed_indices f' = fed_indices f.
Proof. unfold fed_indices, is_fed. by intros ->. Qed.

(** *** [feed_batch] *)

(** Folding good slices into all rows, then marking them fed. *)
Lemma sums_fold_all f sl (sel sel' : nat → list nat) :
  shape f → sums f sel → good n D sl →
  (∀ r, sel' r ≡ₚ map fst sl ++ sel r) →
  sums (set_rows f (exponents f) (fold_into (rows f) (exponents f) (constants f) (slice_size f) sl)) sel'.
Proof.
  intros Hsh Hs Hg Hsel r row e. simpl. rewrite lookup_fold_into by apply Hsh.
  rewrite (shape_size _ Hsh), (shape_constants _ Hsh).
  destruct (rows f !! r) as [row0|] eqn:Hr; [|done]. simpl.
  destruct (exponents f !! r) as [e0|] eqn:He; [|done]. simpl. intros [= <-] [= <-].
  rewrite (Hs r row0 e0 Hr He).
  rewrite (mul_add_good n D HD) by (done || apply vsum_length; done).
  rewrite (vsum_perm n D _ _ _ (Hsel r)), (vsum_app n D HD). apply xor_comm.
Qed.

Lemma feed_batch_sound f sl f' k :
  sound f → good n D sl → feed_batch f sl = Ok (f', k) → sound f'.
Proof.
  intros [Hsh Hgr Hs] Hg. unfold feed_batch.
  destruct (fresh_slices (fed f) [] sl) as [fresh|] eqn:Hf; [|done]. simpl.
  case_decide as Hne; intros [= <- <-]; [done|].
  destruct (fresh_slices_spec _ _ _ _ Hf) as (Hnd & Hunfed & Hin); [constructor|constructor|].
  assert (good n D fresh) as Hgf.
  { apply Forall_forall. intros s [Hs'|Hs']%Hin; [set_solver|].
    unfold good in Hg. rewrite Forall_forall in Hg. auto. }
  assert (Forall (λ s, s.1 < length (fed f)) fresh) as Hlt.
  { eapply Forall_impl; [exact Hunfed|]. intros s Hs'. exact (lookup_lt_Some _ _ _ Hs'). }
  set (f1 := set_rows f _ _). set (f2 := set_fed f1 _ _).
  assert (fed_indices f2 ≡ₚ map fst fresh ++ fed_indices f) as Hfed.
  { apply NoDup_Permutation; [apply NoDup_fed_indices| |].
    - apply NoDup_app. split_and!; [done| |apply NoDup_fed_indices].
      intros i (s & -> & Hs')%list_elem_of_fmap. rewrite elem_of_fed_indices.
      rewrite Forall_forall in Hunfed. by rewrite (Hunfed s Hs').
    - intros i. rewrite elem_of_app, !elem_of_fed_indices. simpl.
      rewrite mark_fed_lookup by done. case_decide; naive_solver. }
  split.
  - destruct Hsh as [H1 H2 H3 H4 H5]. split; simpl; [done|done|by rewrite length_mark_fed| |].
    + rewrite Hfed, length_app, length_map. lia.
    + by rewrite length_fold_into.
  - intros g Hgrow. simpl in Hgrow. destruct (Hgr g Hgrow) as [Hst Hp]. simpl.
    rewrite length_fold_into. split; [done|]. intros i Hi. rewrite Hfed, elem_of_app. auto.
  - apply (sums_fold_all f fresh (summed f)); [done..|]. intros r. unfold summed.
    change (growth f2) with (growth f).
    destruct (growth f) as [g|] eqn:Hgrow; [|done]. case_decide; [done|].
    rewrite Hfed, filter_app, list_filter_id; [done|].
    intros i (s & -> & Hs')%list_elem_of_fmap Hi. apply (Hgr g Hgrow) in Hi.
    rewrite elem_of_fed_indices in Hi. rewrite Forall_forall in Hunfed. by rewrite (Hunfed s Hs') in Hi.
Qed.

(** *** Growths *)

Lemma shape_set_growth f g gen : shape f → shape (set_growth f g gen).
Proof. by intros []. Qed.

Lemma abandon_growth_sound f : sound f → sound (abandon_growth f).
Proof.
  intros [Hsh Hgr Hs]. unfold abandon_growth. destruct (growth f) as [g|] eqn:Hg; [|by split].
  destruct (Hgr g Hg) as [Hst _]. split.
  - destruct Hsh. split; simpl; try done. rewrite !length_take. lia.
  - by intros ? [=].
  - intros r row e. simpl. rewrite !lookup_take_Some. intros [Hr ?] [He _].
    rewrite (Hs r row e Hr He). unfold summed. rewrite Hg. by rewrite decide_True.
Qed.

Lemma abandon_growth_None f : growth (abandon_growth f) = None.
Proof. unfold abandon_growth. by destruct (growth f) eqn:Hg. Qed.

Lemma abandon_growth_of_sound f gen : sound f → sound (abandon_growth_of f gen).
Proof. intros. unfold abandon_growth_of. case_decide; [by apply abandon_growth_sound|done]. Qed.

(** New rows start at zero, so they hold no slice. *)
Lemma add_rows_sums f es sel :
  shape f → sums f sel →
  shape (add_rows f es) ∧
  sums (add_rows f es) (λ r, if decide (r < length (rows f)) then sel r else []).
Proof.
  intros Hsh Hs. split.
  { destruct Hsh. split; simpl; try done. rewrite !length_app, length_map. lia. }
  intros r row e. simpl. case_decide as Hr.
  - rewrite !lookup_app_l by (rewrite <-?(shape_rows _ Hsh); done). apply Hs.
  - rewrite !lookup_app_r by (rewrite <-?(shape_rows _ Hsh); lia).
    rewrite list_lookup_fmap. destruct (es !! _); [|done]. intros [= <-] _.
    by rewrite (shape_size _ Hsh).
Qed.

(** Folding good slices into the rows from [st] on. *)
Lemma fold_tail_sums st f sl sel :
  shape f → sums f sel → good n D sl → st ≤ length (rows f) →
  shape (fold_tail st f sl) ∧
  sums (fold_tail st f sl) (λ r, if decide (r < st) then sel r else map fst sl ++ sel r).
Proof.
  intros Hsh Hs Hg Hst. split.
  { destruct Hsh. split; simpl; try done.
    rewrite length_app, length_take, length_fold_into, length_drop. lia. }
  intros r row e. simpl. case_decide as Hr.
  - rewrite lookup_app_l by (rewrite length_take; lia). rewrite lookup_take_lt by done. apply Hs.
  - rewrite lookup_app_r by (rewrite length_take; lia). rewrite length_take, Nat.min_l by lia.
    rewrite lookup_fold_into by (rewrite !length_drop; destruct Hsh; lia).
    rewrite !lookup_drop. replace (st + (r - st)) with r by lia.
    rewrite (shape_size _ Hsh), (shape_constants _ Hsh).
    destruct (rows f !! r) as [row0|] eqn:Hrow; [|done]. simpl.
    intros Hx He. rewrite He in Hx. simplify_eq/=.
    rewrite (Hs r row0 e Hrow He).
    rewrite (mul_add_good n D HD) by (done || apply vsum_length; done).
    rewrite (vsum_app n D HD). apply xor_comm.
Qed.

Lemma begin_growth_sound f exps : sound f → sound (fst (begin_growth f exps)).
Proof.
  intros [Hsh Hgr Hs]. unfold begin_growth. case_decide as Hg; [by split|].
  case_decide; [by split|]. case_decide; [by split|].
  assert (growth f = None) as Hnone by (destruct (growth f); [by destruct Hg|done]).
  destruct (add_rows_sums f (new_exponents f exps) _ Hsh Hs) as [Hsh' Hs'].
  assert (fed_indices (add_rows f (new_exponents f exps)) = fed_indices f) as Hfi by done.
  case_decide as Hsl; simpl; split; [by apply shape_set_growth|by intros ? [=]| |by apply shape_set_growth| |].
  - intros r row e Hr He. rewrite (Hs' r row e Hr He). unfold summed. simpl. rewrite Hnone.
    case_decide; [done|]. change (fed_indices (set_growth _ _ _)) with (fed_indices f). by rewrite Hsl.
  - intros g [= <-]. simpl. split; [rewrite length_app; lia|].
    intros i. rewrite elem_of_list_to_set. done.
  - intros r row e Hr He. rewrite (Hs' r row e Hr He). unfold summed. simpl. rewrite Hnone.
    case_decide; [done|]. change (fed_indices (set_growth _ _ _)) with (fed_indices f).
    f_equal. symmetry. apply elem_of_nil_inv. intros i [Hi Hin]%list_elem_of_filter.
    apply Hi. by apply elem_of_list_to_set.
Qed.

Lemma take_pending_spec sl : ∀ p fresh p',
  take_pending p sl = (fresh, p') →
  NoDup (map fst fresh) ∧ (∀ s, s ∈ fresh → s ∈ sl) ∧
  (∀ i, i ∈ map fst fresh → i ∈ p) ∧ (∀ i, i ∈ p' ↔ i ∈ p ∧ i ∉ map fst fresh).
Proof.
  induction sl as [|[i b] sl IH]; intros p fresh p'; simpl.
  { intros [= <- <-]. split_and!; [constructor|set_solver..]. }
  case_decide as Hi.
  - destruct (take_pending (p ∖ {[i]}) sl) as [fr q] eqn:Ht. intros [= <- <-].
    destruct (IH _ _ _ Ht) as (H1 & H2 & H3 & H4). simpl. split_and!.
    + constructor; [|done]. intros Hin%H3. set_solver.
    + set_solver.
    + intros j [->|Hj]%elem_of_cons; [done|]. apply H3 in Hj. set_solver.
    + intros j. rewrite H4. set_solver.
  - intros Ht. destruct (IH _ _ _ Ht) as (H1 & H2 & H3 & H4). split_and!; [done|set_solver|done|done].
Qed.

Lemma backfill_sound f gen sl : sound f → good n D sl → sound (fst (backfill f gen sl)).
Proof.
  intros [Hsh Hgr Hs] Hg. unfold backfill. case_decide; [by split|].
  destruct (growth f) as [g|] eqn:Hgrow; [|by split].
  destruct (Hgr g Hgrow) as [Hst Hp].
  destruct (take_pending (pending g) sl) as [fresh p'] eqn:Ht.
  destruct (take_pending_spec _ _ _ _ Ht) as (Hnd & Hin & Hsub & Hp').
  assert (good n D fresh) as Hgf.
  { apply Forall_forall. intros s Hs'. unfold good in Hg. rewrite Forall_forall in Hg. auto. }
  destruct (fold_tail_sums (gstart g) f fresh _ Hsh Hs Hgf Hst) as [Hsh' Hs'].
  assert (∀ r, ¬ r < gstart g →
    map fst fresh ++ summed f r ≡ₚ filter (λ i, i ∉ p') (fed_indices f)) as Hsel.
  { intros r Hr. unfold summed. rewrite Hgrow, decide_False by done.
    apply NoDup_Permutation; [|apply NoDup_filter, NoDup_fed_indices|].
    - apply NoDup_app. split_and!; [done| |apply NoDup_filter, NoDup_fed_indices].
      intros i Hi%Hsub [Hn _]%list_elem_of_filter. done.
    - intros i. rewrite elem_of_app, !list_elem_of_filter, Hp'. split.
      + intros [Hi|[Hi Hf]]; [|naive_solver]. split; [naive_solver|auto].
      + intros [Hi Hf]. destruct (decide (i ∈ map fst fresh)); [by left|].
        right. split; [naive_solver|done]. }
  assert (∀ r, r < gstart g → summed f r = fed_indices f) as Hsel0.
  { intros r Hr. unfold summed. by rewrite Hgrow, decide_True. }
  case_decide as Hdone; simpl; split; [by apply shape_set_growth|by intros ? [=]| |by apply shape_set_growth| |].
  - intros r row e Hr He. rewrite (Hs' r row e Hr He). unfold summed at 3. simpl.
    change (fed_indices (set_growth _ _ _)) with (fed_indices f).
    case_decide as Hlt; [by rewrite Hsel0|]. apply vsum_perm. rewrite (Hsel r Hlt).
    rewrite list_filter_id; [done|]. set_solver.
  - intros g' [= <-]. simpl. rewrite length_app, length_take, length_fold_into, length_drop.
    split; [lia|]. intros i [Hi _]%Hp'. by apply Hp.
  - intros r row e Hr He. rewrite (Hs' r row e Hr He). unfold summed at 3. simpl.
    change (fed_indices (set_growth _ _ _)) with (fed_indices f).
    case_decide as Hlt; [by rewrite Hsel0|]. by apply vsum_perm, Hsel.
Qed.

(** *** Reads from disk *)

Lemma batch_len_pos ss : 0 < batch_len ss.
Proof. unfold batch_len, MAX_REPAIR_BATCH. lia. Qed.

(** The reader gives the set's bytes whenever it succeeds. *)
Definition good_read (read : nat → result string bytes) : Prop :=
  ∀ i b, read i = Ok b → D !! i = Some (pad n b).

Lemma read_chunk_good read c batch :
  good_read read → read_chunk read c = Ok batch → map fst batch = c ∧ good n D batch.
Proof.
  intros Hr. revert batch. induction c as [|i c IH]; simpl; intros batch.
  { intros [= <-]. split; [done|constructor]. }
  destruct (read i) as [b|] eqn:Hi; [|done].
  destruct (read_chunk read c) as [sl|]; [|done]. simpl. intros [= <-].
  destruct (IH sl eq_refl) as [<- Hg]. split; [done|]. constructor; [by apply Hr|done].
Qed.

(** Induction over the batches read so far. *)
Lemma for_each_batch_ind {St} (P : list nat → St → Prop) read (apply : St → list (nat * bytes) → St) :
  good_read read →
  (∀ seen s batch, P seen s → good n D batch → P (seen ++ map fst batch) (apply s batch)) →
  ∀ cs seen s s' err, P seen s → for_each_batch cs read apply s = (s', err) →
  (∃ seen', P seen' s') ∧ (err = None → P (seen ++ concat cs) s').
Proof.
  intros Hread Hstep. induction cs as [|c cs IH]; intros seen s s' err HP; simpl.
  { intros [= <- <-]. rewrite app_nil_r. eauto. }
  destruct (read_chunk read c) as [batch|e] eqn:Hc.
  - destruct (read_chunk_good _ _ _ Hread Hc) as [<- Hg]. intros Hrun.
    rewrite app_assoc. apply (IH _ _ _ _ (Hstep _ _ _ HP Hg) Hrun).
  - intros [= <- <-]. split; [eauto|done].
Qed.

Lemma sums_Permutation f sel sel' : (∀ r, r < length (rows f) → sel r ≡ₚ sel' r) → sums f sel → sums f sel'.
Proof.
  intros Hp Hs r row e Hr He. rewrite (Hs r row e Hr He). apply vsum_perm, Hp.
  by apply lookup_lt_Some in Hr.
Qed.

Lemma length_rows_fold_tail st f sl : length (rows (fold_tail st f sl)) = length (rows f).
Proof. simpl. rewrite length_app, length_take, length_fold_into, length_drop. lia. Qed.

Lemma truncate_sound f st sel :
  shape f → growth f = None → sums f sel → (∀ r, r < st → sel r ≡ₚ fed_indices f) →
  sound (set_rows f (take st (exponents f)) (take st (rows f))).
Proof.
  intros Hsh Hgr Hs Hsel. split.
  - destruct Hsh. split; simpl; try done. rewrite !length_take. lia.
  - intros g. simpl. by rewrite Hgr.
  - intros r row e. simpl. rewrite !lookup_take_Some. intros [Hr Hlt] [He _].
    rewrite (Hs r row e Hr He). unfold summed. simpl. rewrite Hgr. by apply vsum_perm, Hsel.
Qed.

Lemma sound_no_growth f : sound f → growth f = None → sums f (λ _, fed_indices f).
Proof. intros [_ _ Hs] Hg. unfold summed in Hs. by rewrite Hg in Hs. Qed.

Lemma extend_rows_sound f exps read :
  sound f → good_read read → sound (fst (extend_rows f exps read)).
Proof.
  intros Hf0 Hread. unfold extend_rows.
  pose proof (abandon_growth_sound f Hf0) as Hf. pose proof (abandon_growth_None f) as Hnone.
  set (f1 := abandon_growth f) in *. case_decide; [done|]. case_decide; [done|].
  set (st := length (rows f1)).
  destruct (add_rows_sums f1 (new_exponents f1 exps) _ (sound_shape _ Hf) (sound_no_growth _ Hf Hnone)) as [Hsh Hs].
  destruct (for_each_batch _ _ _ _) as [f' err] eqn:Hrun.
  set (P := λ (seen : list nat) (g : RepairFold G),
    shape g ∧ growth g = None ∧ fed g = fed f1 ∧ st ≤ length (rows g) ∧
    sums g (λ r, if decide (r < st) then fed_indices f1 else seen)).
  assert (∀ seen g batch, P seen g → good n D batch → P (seen ++ map fst batch) (fold_tail st g batch)) as Hstep.
  { intros seen g batch (Hg1 & Hg2 & Hg3 & Hg4 & Hg5) Hb.
    destruct (fold_tail_sums st g batch _ Hg1 Hg5 Hb Hg4) as [Hg1' Hg5'].
    split_and!; [done|done|done|by rewrite length_rows_fold_tail|].
    eapply sums_Permutation, Hg5'. intros r _. simpl. case_decide; [done|]. apply Permutation_app_comm. }
  assert (P [] (add_rows f1 (new_exponents f1 exps))) as HP0.
  { split_and!; [done|done|done| |done]. simpl. rewrite length_app. lia. }
  destruct (for_each_batch_ind P read _ Hread Hstep _ _ _ _ _ HP0 Hrun) as [[seen HP] Hall].
  assert (∀ g, fed g = fed f1 → fed_indices g = fed_indices f1) as Hfi by (intros; by apply fed_indices_ext).
  destruct err as [e|]; simpl.
  - destruct HP as (Hg1 & Hg2 & Hg3 & Hg4 & Hg5).
    eapply truncate_sound; [done..|]. intros r Hr. simpl. by rewrite decide_True, (Hfi _ Hg3).
  - destruct (Hall eq_refl) as (Hg1 & Hg2 & Hg3 & Hg4 & Hg5).
    split; [done|intros g; by rewrite Hg2|]. eapply sums_Permutation, Hg5.
    intros r _. simpl. unfold summed. rewrite Hg2, (Hfi _ Hg3).
    case_decide; [done|]. by rewrite concat_chunks by apply batch_len_pos.
Qed.

Lemma note_disk_fed_sound f k : sound f → sound (note_disk_fed f k).
Proof. by intros [[] ? ?]. Qed.

Lemma note_disk_read_sound f i len : sound f → sound (note_disk_read f i len).
Proof.
  unfold note_disk_read. destruct (match disk_read f !! i with Some true => _ | Some false => _ | None => _ end).
  by intros [[] ? ?].
Qed.

Lemma note_corrupt_sound f i : sound f → sound (note_corrupt f i).
Proof. unfold note_corrupt. destruct (is_fed f i); [|done]. by intros [[] ? ?]. Qed.

Lemma with_row_limit_sound f k : sound f → sound (with_row_limit f k).
Proof. by intros [[] ? ?]. Qed.

Lemma feed_missing_sound f damaged read :
  sound f → good_read read → sound (fst (feed_missing f damaged read)).
Proof.
  intros Hf Hread. unfold feed_missing. destruct (list_find _ _) as [[]|]; [done|].
  set (step := λ (s : RepairFold G * nat * option FoldError) batch, _).
  destruct (for_each_batch _ _ _ _) as [[[f' k] ferr] err] eqn:Hrun.
  set (P := λ (_ : list nat) (s : RepairFold G * nat * option FoldError), sound s.1.1).
  assert (∀ seen s batch, P seen s → good n D batch → P (seen ++ map fst batch) (step s batch)) as Hstep.
  { intros seen s batch HP Hb. unfold P, step in *.
    destruct (feed_batch s.1.1 batch) as [[f1 k1]|] eqn:Hfb; [|done]. by eapply feed_batch_sound. }
  assert (P [] (f, 0, None)) as HP0 by done.
  destruct (for_each_batch_ind P read _ Hread Hstep _ _ _ _ _ HP0 Hrun) as [[seen HP] _].
  destruct err, ferr; simpl; try done. by apply note_disk_fed_sound.
Qed.

Lemma new_sound ss exps f : n = N.to_nat ss → new (length D) ss exps = Ok f → sound f.
Proof.
  intros Hn. unfold new. case_decide; [done|]. case_decide; [done|]. intros [= <-]. rewrite <-Hn.
  assert (∀ k, filter (λ i, default false (replicate k false !! i) = true) (seq 0 k) = []) as Hnil.
  { intros k. apply elem_of_nil_inv. intros i [Hi _]%list_elem_of_filter.
    destruct (replicate k false !! i) as [b|] eqn:Hb; [|done].
    by apply lookup_replicate in Hb as [-> _]. }
  split.
  - split; simpl; [done|done|by rewrite length_replicate| |by rewrite length_map].
    unfold fed_indices, is_fed. simpl. by rewrite length_replicate, Hnil.
  - by intros ? [=].
  - intros r row e. simpl. rewrite list_lookup_fmap. intros Hr He. rewrite He in Hr. simplify_eq/=.
    unfold summed, fed_indices, is_fed. simpl. by rewrite length_replicate, Hnil.
Qed.

(** *** Histories *)

(** The calls that change a fold. *)
Inductive op :=
  | Feed (sl : list (nat * bytes))
  | Corrupt (i : nat)
  | Abandon
  | AbandonOf (gen : N)
  | ExtendRows (exps : list N) (read : nat → result string bytes)
  | BeginGrowth (exps : list N)
  | Backfill (gen : N) (sl : list (nat * bytes))
  | FeedMissing (damaged : list nat) (read : nat → result string bytes)
  | DiskRead (i : nat) (len : N)
  | DiskFed (count : nat)
  | RowLimit (limit : N).

Definition exec f (o : op) : RepairFold G :=
  match o with
  | Feed sl => match feed_batch f sl with Ok (f', _) => f' | Err _ => f end
  | Corrupt i => note_corrupt f i
  | Abandon => abandon_growth f
  | AbandonOf gen => abandon_growth_of f gen
  | ExtendRows exps read => fst (extend_rows f exps read)
  | BeginGrowth exps => fst (begin_growth f exps)
  | Backfill gen sl => fst (backfill f gen sl)
  | FeedMissing damaged read => fst (feed_missing f damaged read)
  | DiskRead i len => note_disk_read f i len
  | DiskFed count => note_disk_fed f count
  | RowLimit limit => with_row_limit f limit
  end.

(** Slices handed in or read carry the set's bytes. *)
Definition op_good (o : op) : Prop :=
  match o with
  | Feed sl | Backfill _ sl => good n D sl
  | ExtendRows _ read | FeedMissing _ read => good_read read
  | _ => True
  end.

Lemma exec_sound f o : sound f → op_good o → sound (exec f o).
Proof.
  intros Hf Ho. destruct o; simpl in *.
  - destruct (feed_batch f sl) as [[f' k]|] eqn:Hfb; [|done]. by eapply feed_batch_sound.
  - by apply note_corrupt_sound.
  - by apply abandon_growth_sound.
  - by apply abandon_growth_of_sound.
  - by apply extend_rows_sound.
  - by apply begin_growth_sound.
  - by apply backfill_sound.
  - by apply feed_missing_sound.
  - by apply note_disk_read_sound.
  - by apply note_disk_fed_sound.
  - by apply with_row_limit_sound.
Qed.

Lemma history_sound f ops : sound f → Forall op_good ops → sound (foldl exec f ops).
Proof.
  intros Hf Hops. revert f Hf. induction Hops as [|o ops Ho _ IH]; intros f Hf; simpl; [done|].
  by apply IH, exec_sound.
Qed.
End soundness.

(** ** The solve *)
Section solving.
Context {G : Type} `{GF : Gf16 G} (n : nat) `{!Gf16Laws G n}.
Context (D : list bytes) (HD : sized n D).
Implicit Types (f : RepairFold G).

(** Recovery slices of the right size are the ones the set's PAR2 writer
    computed: the sum over every slice. *)
Definition good_recovery (recovery : gmap N bytes) : Prop :=
  ∀ e data, recovery !! e = Some data → length data = n → data = vsum n D e (seq 0 (length D)).

Lemma default_lookup_map {A B} (g : A → B) (l : list A) k d x :
  l !! k = Some x → default d (map g l !! k) = g x.
Proof. intros Hk. by rewrite list_lookup_fmap, Hk. Qed.

Lemma map_as_seq {A B} (g : A → B) (l : list A) (d : A) :
  map g l = map (λ k, g (default d (l !! k))) (seq 0 (length l)).
Proof.
  induction l as [|x l IH]; simpl; [done|]. f_equal. rewrite IH, <-seq_shift, map_map. done.
Qed.

(** [Σ_e a_e · (Σ_k m_ek · V_k) = Σ_k (a · column k) · V_k]. *)
Lemma combine_rows (V : nat → bytes) d (a : list G) (m : list (list G)) :
  (∀ k, length (V k) = n) → length a = length m →
  xsum n (zip_with (λ c row, gf_scale c (xsum n (map (λ k, gf_scale (default gf_zero (row !! k)) (V k)) (seq 0 d)))) a m)
  = xsum n (map (λ k, gf_scale (dot a (column m k)) (V k)) (seq 0 d)).
Proof.
  intros HV. revert m. induction a as [|c a IH]; intros [|row m] Hl; try done; simpl.
  - symmetry. apply xsum_zeros, Forall_fmap, Forall_forall. intros k _. by apply scale_gf_zero.
  - rewrite IH by (simpl in Hl; lia).
    rewrite (scale_xsum n) by (apply sized_map; intros; by apply scale_length).
    rewrite map_map, <-(xsum_xor n). f_equal. apply map_ext. intros k. unfold dot, column. simpl.
    rewrite (scale_add (n := n)) by done. by rewrite (scale_mul (n := n)).
Qed.

Lemma zip_with_scale_xor (a : list G) : ∀ (us vs : list bytes),
  sized n us → sized n vs → length us = length a → length vs = length a →
  xor (xsum n (zip_with gf_scale a us)) (xsum n (zip_with gf_scale a vs)) =
  xsum n (zip_with gf_scale a (zip_with xor us vs)).
Proof.
  induction a as [|c a IH]; intros [|u us] [|v vs] Hu Hv; simpl; try done.
  { intros _ _. apply xor_zeros_r, length_zeros. }
  intros [= Hlu] [= Hlv]. apply Forall_cons in Hu as [Hu Hus]. apply Forall_cons in Hv as [Hv Hvs].
  rewrite <-(IH us vs) by done. rewrite (scale_xor (n := n)) by done.
  rewrite <-!xor_assoc. f_equal. rewrite !xor_assoc. f_equal. apply xor_comm.
Qed.

(** A usable row and its recovery slice differ by the damaged slices. *)
Lemma usable_row_sum f recovery damaged r :
  sound n D f → good_recovery recovery → row_usable f recovery r = true → r < complete_rows f →
  seq 0 (length D) ≡ₚ fed_indices f ++ damaged →
  length (row_of f r) = n ∧ length (recovery_of f recovery r) = n ∧
  xor (row_of f r) (recovery_of f recovery r) = vsum n D (default 0%N (exponents f !! r)) damaged.
Proof.
  intros [Hsh Hgr Hs] Hrec Hu Hr Hperm. unfold row_usable, recovery_of, row_of in *.
  destruct (exponents f !! r) as [e|] eqn:He; simpl in *; [|done].
  destruct (recovery !! e) as [data|] eqn:Hd; [|done]. apply bool_decide_eq_true in Hu.
  rewrite (shape_size _ _ _ Hsh) in Hu.
  destruct (rows f !! r) as [row|] eqn:Hrow; cycle 1.
  { apply lookup_lt_Some in He. apply lookup_ge_None in Hrow. rewrite (shape_rows _ _ _ Hsh) in Hrow. lia. }
  assert (summed f r = fed_indices f) as Hsel.
  { unfold summed, complete_rows in *. destruct (growth f) as [g|]; [|done]. by rewrite decide_True. }
  simpl. rewrite (Hs r row e Hrow He), Hsel, (Hrec e data Hd Hu).
  rewrite (vsum_perm n D _ _ _ Hperm), (vsum_app n D HD).
  split_and!; [by apply vsum_length|by apply length_xor; apply vsum_length|].
  rewrite xor_assoc, xor_diag, xor_zeros_l; [done|]. rewrite !vsum_length by done. done.
Qed.

Lemma decode_matrix_shape f usable damaged :
  length (decode_matrix f usable damaged) = length usable ∧
  Forall (λ row, length row = length damaged) (decode_matrix f usable damaged).
Proof.
  unfold decode_matrix. rewrite length_map. split; [done|].
  apply Forall_fmap, Forall_forall. intros r _. simpl. apply length_map.
Qed.

(** A matrix with two equal columns has no left inverse. *)
Lemma invertible_NoDup f usable damaged inv :
  length usable = length damaged →
  gf_invert (decode_matrix f usable damaged) = Some inv → NoDup damaged.
Proof.
  intros Hl Hinv. destruct (decode_matrix_shape f usable damaged) as [Hm Hrows].
  destruct (invert_spec (n := n) _ inv (length damaged) (eq_trans Hm Hl) Hrows Hinv) as [Hlen Hid].
  apply NoDup_alt. intros i j x Hi Hj. pose proof (lookup_lt_Some _ _ _ Hi) as Hlt.
  pose proof (lookup_lt_Some _ _ _ Hj) as Hltj.
  destruct (lookup_lt_is_Some_2 inv i) as [row Hrow]; [lia|].
  destruct (Hid i i row Hrow Hlt) as [_ H1]. destruct (Hid i j row Hrow Hltj) as [_ H2].
  destruct (decide (i = j)) as [|Hne]; [done|]. rewrite decide_True in H1 by done.
  destruct (one_not_zero (n := n)). rewrite <-H1, <-H2. f_equal.
  unfold column, decode_matrix. rewrite <-!list_fmap_compose. apply list_fmap_ext. intros ? r _. simpl.
  by rewrite !list_lookup_fmap, Hi, Hj.
Qed.

Lemma damaged_complement f damaged :
  sound n D f → NoDup damaged → existsb (is_fed f) damaged = false →
  (∀ j, j ∈ damaged → j < length (fed f)) → fed_count f + length damaged = length (fed f) →
  seq 0 (length D) ≡ₚ fed_indices f ++ damaged.
Proof.
  intros Hf Hnd Hex Hin Hcount. pose proof (sound_shape _ _ _ Hf) as Hsh. symmetry.
  assert (∀ i, i ∈ fed_indices f → i ∉ damaged) as Hdisj.
  { intros i Hi Hd. rewrite elem_of_fed_indices in Hi.
    assert (existsb (is_fed f) damaged = true) as Ht; [|by rewrite Ht in Hex].
    apply existsb_exists. exists i. split; [by apply list_elem_of_In|]. unfold is_fed. by rewrite Hi. }
  apply submseteq_length_Permutation.
  - apply NoDup_submseteq.
    + apply NoDup_app. split_and!; [apply NoDup_fed_indices|done|done].
    + intros i. rewrite elem_of_app, elem_of_fed_indices, elem_of_seq, <-(shape_fed _ _ _ Hsh).
      intros [Hi|Hi]; [apply lookup_lt_Some in Hi|apply Hin in Hi]; lia.
  - rewrite length_seq, length_app, <-(shape_count _ _ _ Hsh), <-(shape_fed _ _ _ Hsh). lia.
Qed.

Lemma usable_rows_spec f recovery d r :
  r ∈ usable_rows f recovery d → row_usable f recovery r = true ∧ r < complete_rows f.
Proof.
  unfold usable_rows. intros (k & Hk & _)%elem_of_take. apply list_elem_of_lookup_2 in Hk.
  rewrite list_elem_of_filter, elem_of_seq in Hk. split; [tauto|lia].
Qed.

(** One row of the inverse, applied to the usable rows and recovery slices,
    gives one damaged slice. *)
Lemma solve_row f recovery damaged usable inv j idx row :
  sound n D f → good_recovery recovery →
  seq 0 (length D) ≡ₚ fed_indices f ++ damaged →
  Forall (λ r, row_usable f recovery r = true ∧ r < complete_rows f) usable →
  length usable = length damaged →
  gf_invert (decode_matrix f usable damaged) = Some inv →
  damaged !! j = Some idx → inv !! j = Some row →
  mul_add_multi (mul_add_multi (zeros n) (map (row_of f) usable) row)
    (map (recovery_of f recovery) usable) row = slice n D idx.
Proof.
  intros Hf Hrec Hperm Hus Hl Hinv Hj Hrow.
  destruct (decode_matrix_shape f usable damaged) as [Hm Hrows].
  destruct (invert_spec (n := n) _ inv (length damaged) (eq_trans Hm Hl) Hrows Hinv) as [_ Hid].
  assert (length row = length damaged) as Hlr.
  { eapply (Hid j j row Hrow). by apply lookup_lt_Some in Hj. }
  rewrite Forall_forall in Hus.
  assert (∀ r, r ∈ usable → length (row_of f r) = n ∧ length (recovery_of f recovery r) = n ∧
    xor (row_of f r) (recovery_of f recovery r) = vsum n D (default 0%N (exponents f !! r)) damaged) as Hsum.
  { intros r Hr. destruct (Hus r Hr). by apply usable_row_sum. }
  assert (sized n (map (row_of f) usable)) as Hs1 by (apply sized_map; intros; by apply Hsum).
  assert (sized n (map (recovery_of f recovery) usable)) as Hs2 by (apply sized_map; intros; by apply Hsum).
  assert (∀ vs, sized n vs → length vs = length row → sized n (zip_with gf_scale row vs)) as Hsz.
  { intros vs Hvs Hlv. clear -Gf16Laws0 Hvs Hlv. revert row Hlv.
    induction Hvs as [|v vs Hv _ IH]; intros [|c row] Hlv; try done; simpl; [by constructor|].
    constructor; [by apply scale_length|]. apply IH. simpl in Hlv. lia. }
  assert (length (map (row_of f) usable) = length row) as Hl1 by (rewrite length_map; lia).
  assert (length (map (recovery_of f recovery) usable) = length row) as Hl2 by (rewrite length_map; lia).
  rewrite (mul_add_multi_spec (n := n) (zeros n)) by (done || apply length_zeros).
  rewrite (foldl_xor n (zeros n)) by (apply length_zeros || by apply Hsz).
  assert (length (xsum n (zip_with gf_scale row (map (row_of f) usable))) = n) as Hx by by apply xsum_length, Hsz.
  rewrite (xor_zeros_l n) by done.
  rewrite (mul_add_multi_spec (n := n)) by done.
  rewrite (foldl_xor n) by (done || by apply Hsz).
  rewrite zip_with_scale_xor by done.
  assert (zip_with xor (map (row_of f) usable) (map (recovery_of f recovery) usable) =
    map (λ mrow, xsum n (map (λ k, gf_scale (default gf_zero (mrow !! k))
      (slice n D (default 0 (damaged !! k)))) (seq 0 (length damaged)))) (decode_matrix f usable damaged)) as ->.
  { unfold decode_matrix. rewrite map_map. clear -Hsum HD Hf Gf16Laws0. induction usable as [|r usable IH]; simpl; [done|].
    f_equal; [|apply IH; intros; apply Hsum; by right].
    destruct (Hsum r ltac:(left)) as (_ & _ & ->). unfold vsum. f_equal.
    rewrite (map_as_seq _ damaged 0). apply map_ext_in. intros k Hk%in_seq.
    destruct (lookup_lt_is_Some_2 damaged k) as [x Hx]; [lia|].
    rewrite (default_lookup_map _ _ _ _ _ Hx), Hx. unfold term. simpl.
    by rewrite (shape_constants _ _ _ (sound_shape _ _ _ Hf)). }
  rewrite (zip_with_fmap_r _ _ _ (decode_matrix f usable damaged)).
  rewrite (combine_rows (λ k, slice n D (default 0 (damaged !! k)))); [|intros; by apply slice_length|lia].
  apply (xsum_pick n) with (j := j) (x := j); [|by apply slice_length|].
  - apply lookup_seq_lt. by apply lookup_lt_Some in Hj.
  - intros k y [-> Hlt]%lookup_seq. simpl. destruct (Hid j k row Hrow Hlt) as [_ ->].
    case_decide as Hjk; [subst|by apply scale_gf_zero, slice_length].
    rewrite Hj. simpl. by apply scale_gf_one, slice_length.
Qed.

(** The solved slices, from the branch of [solve] that inverts. *)
Lemma solve_inverted f recovery damaged usable inv :
  sound n D f → good_recovery recovery →
  seq 0 (length D) ≡ₚ fed_indices f ++ damaged →
  usable = usable_rows f recovery (length damaged) → length damaged ≤ length usable →
  gf_invert (decode_matrix f usable damaged) = Some inv →
  imap (λ j idx,
    let coeffs := map (λ e, default gf_zero (row ← inv !! j; row !! e)) (seq 0 (length damaged)) in
    (idx, mul_add_multi (mul_add_multi (zeros (slice_size f)) (map (row_of f) usable) coeffs)
      (map (recovery_of f recovery) usable) coeffs)) damaged
  = map (λ j, (j, slice n D j)) damaged.
Proof.
  intros Hf Hrec Hperm -> Hge Hinv. set (usable := usable_rows _ _ _) in *.
  assert (length usable = length damaged) as Hl.
  { apply (Nat.le_antisymm _ _); [|done]. unfold usable, usable_rows. rewrite length_take. lia. }
  destruct (decode_matrix_shape f usable damaged) as [Hm Hrows].
  destruct (invert_spec (n := n) _ inv (length damaged) (eq_trans Hm Hl) Hrows Hinv) as [Hlen Hid].
  apply list_eq. intros j. rewrite list_lookup_imap, list_lookup_fmap.
  destruct (damaged !! j) as [idx|] eqn:Hj; [|done]. simpl. f_equal. f_equal.
  pose proof (lookup_lt_Some _ _ _ Hj) as Hlt.
  destruct (lookup_lt_is_Some_2 inv j) as [row Hrow]; [lia|]. rewrite Hrow. simpl.
  destruct (Hid j j row Hrow Hlt) as [Hlr _].
  assert (map (λ e, default gf_zero (row !! e)) (seq 0 (length damaged)) = row) as ->.
  { rewrite <-Hlr. etrans; [symmetry; apply (map_as_seq id row gf_zero)|apply map_id]. }
  rewrite (shape_size _ _ _ (sound_shape _ _ _ Hf)).
  eapply solve_row; [done..| |done|exact Hinv|exact Hj|done].
  apply Forall_forall. intros r Hr. by apply (usable_rows_spec f recovery (length damaged)).
Qed.

(** Whatever [solve] returns is right. *)
Lemma solve_sound f recovery damaged out :
  sound n D f → good_recovery recovery → solve f damaged recovery = Ok out →
  out = map (λ j, (j, slice n D j)) damaged.
Proof.
  intros Hf Hrec. unfold solve. case_decide as Hp; [done|].
  destruct (list_find _ damaged) as [[]|] eqn:Hfind; [done|].
  case_decide as Hcount; [done|]. case_decide as Hd.
  { destruct damaged; [by intros [= <-]|done]. }
  case_decide as Huse; [done|]. destruct (gf_invert _) as [inv|] eqn:Hinv; [|done]. intros [= <-].
  assert (length (usable_rows f recovery (length damaged)) = length damaged) as Hl.
  { apply (Nat.le_antisymm _ _); [|lia]. unfold usable_rows. rewrite length_take. lia. }
  eapply solve_inverted; [done|done| |done|lia|done].
  apply damaged_complement; [done|by eapply invertible_NoDup| | |lia].
  - destruct (existsb _ _); [|done]. destruct Hp. by right.
  - intros j Hj. apply list_find_None in Hfind. rewrite Forall_forall in Hfind.
    specialize (Hfind j Hj). lia.
Qed.

(** With the unfed slices as damaged and a usable row for each, only a
    singular matrix stops the solve. *)
Lemma solve_complete f recovery damaged :
  sound n D f → good_recovery recovery → poisoned f = false →
  damaged ≡ₚ filter (λ i, is_fed f i = false) (seq 0 (length (fed f))) →
  length damaged ≤ length (usable_rows f recovery (length damaged)) →
  solve f damaged recovery = Ok (map (λ j, (j, slice n D j)) damaged) ∨
  solve f damaged recovery = Err Singular.
Proof.
  intros Hf Hrec Hp Hdam Huse.
  assert (∀ j, j ∈ damaged ↔ is_fed f j = false ∧ j < length (fed f)) as Hin.
  { intros j. rewrite Hdam, list_elem_of_filter, elem_of_seq. naive_solver lia. }
  assert (existsb (is_fed f) damaged = false) as Hex.
  { apply not_true_iff_false. intros (j & Hj & Hfed)%existsb_exists.
    apply list_elem_of_In, Hin in Hj as [Hj _]. congruence. }
  assert (list_find (λ j, length (fed f) <= j) damaged = None) as Hfind.
  { apply list_find_None, Forall_forall. intros j [_ Hj]%Hin. lia. }
  assert (fed_count f + length damaged = length (fed f)) as Hcount.
  { rewrite (shape_count _ _ _ (sound_shape _ _ _ Hf)), Hdam. unfold fed_indices.
    rewrite <-(length_seq (length (fed f)) 0) at 3. generalize (seq 0 (length (fed f))). intros l.
    clear. induction l as [|i l IH]; [done|]. rewrite !filter_cons.
    destruct (is_fed f i); simpl; lia. }
  unfold solve. rewrite decide_False by (rewrite Hp, Hex; naive_solver). rewrite Hfind.
  rewrite decide_False by lia. case_decide as Hd; [left; by destruct damaged|].
  rewrite decide_False by lia. destruct (gf_invert _) as [inv|] eqn:Hinv; [left|by right].
  f_equal. eapply solve_inverted; [done|done| |done|done|done].
  apply damaged_complement; [done| |done| |done].
  - rewrite Hdam. apply NoDup_filter, NoDup_seq.
  - intros j Hj. by apply Hin.
Qed.
End solving.

(** ** What no call undoes *)
Section monotone.
Context {G : Type} `{GF : Gf16 G}.
Implicit Types (f : RepairFold G).

(** [keeps f f']: [f'] has the slice size of [f], is poisoned if [f] is, has
    fed what [f] has fed, and respects the row budget if [f] does. *)
Definition within_budget f : Prop :=
  (N.of_nat (length (rows f)) <= max_rows_for (N.of_nat (slice_size f)))%N.

Record keeps f f' : Prop := {
  keeps_size : slice_size f' = slice_size f;
  keeps_poison : poisoned f = true → poisoned f' = true;
  keeps_fed : ∀ i, is_fed f i = true → is_fed f' i = true;
  keeps_budget : within_budget f → within_budget f';
}.

Global Instance keeps_preorder : PreOrder keeps.
Proof.
  split; [by intros f; split|]. intros f g h [] []. split; [congruence|auto..].
Qed.

(** Calls that change neither the size, the poison nor the fed flags, and add
    no row. *)
Lemma keeps_same f f' :
  slice_size f' = slice_size f → poisoned f' = poisoned f → fed f' = fed f →
  length (rows f') ≤ length (rows f) → keeps f f'.
Proof.
  intros Hs Hp Hf Hr. split; [done|by rewrite Hp|unfold is_fed; by rewrite Hf|].
  unfold within_budget. rewrite Hs. lia.
Qed.

Lemma feed_batch_keeps f sl f' k : feed_batch f sl = Ok (f', k) → keeps f f'.
Proof.
  unfold feed_batch. destruct (fresh_slices (fed f) [] sl) as [fresh|] eqn:Hf; [|done]. simpl.
  case_decide; intros [= <- <-]; [done|].
  destruct (fresh_slices_spec (fed f) sl [] fresh Hf) as (_ & Hunfed & _); [constructor|constructor|].
  split; simpl; [done|done| |unfold within_budget; simpl; by rewrite length_fold_into].
  intros i. unfold is_fed. simpl. rewrite mark_fed_lookup; [by case_decide|].
  eapply Forall_impl; [exact Hunfed|]. intros s Hs. exact (lookup_lt_Some _ _ _ Hs).
Qed.

Lemma abandon_growth_keeps f : keeps f (abandon_growth f).
Proof.
  unfold abandon_growth. destruct (growth f); [|done]. apply keeps_same; try done.
  simpl. rewrite length_take. lia.
Qed.

(** New rows are added only within the limit. *)
Lemma add_rows_keeps f es :
  ¬ (row_limit f < N.of_nat (length (rows f) + length es))%N → keeps f (add_rows f es).
Proof.
  intros Hlim. split; [done..|]. intros _. unfold within_budget, row_limit in *. simpl.
  rewrite length_app, length_map. lia.
Qed.

Lemma fold_tail_keeps st f sl : keeps f (fold_tail st f sl).
Proof. apply keeps_same; try done. by rewrite length_rows_fold_tail. Qed.

Lemma for_each_batch_inv {St} (P : St → Prop) read (apply : St → list (nat * bytes) → St) :
  (∀ s batch, P s → P (apply s batch)) → ∀ cs s, P s → P (fst (for_each_batch cs read apply s)).
Proof.
  intros Hstep. induction cs as [|c cs IH]; intros s Hs; simpl; [done|].
  destruct (read_chunk read c); [|done]. auto.
Qed.

Lemma extend_rows_keeps f exps read : keeps f (fst (extend_rows f exps read)).
Proof.
  unfold extend_rows. etrans; [apply abandon_growth_keeps|]. set (f1 := abandon_growth f).
  case_decide; [done|]. case_decide as Hlim; [done|].
  pose proof (for_each_batch_inv (keeps f1) read (fold_tail (length (rows f1)))
    ltac:(intros s b Hs; etrans; [exact Hs|apply fold_tail_keeps])
    (chunks (batch_len (N.of_nat (slice_size f1))) (fed_indices f1)) _ (add_rows_keeps f1 _ Hlim)) as Hk.
  destruct (for_each_batch _ _ _ _) as [f' [e|]]; simpl in *; [|done].
  etrans; [exact Hk|]. apply keeps_same; try done. simpl. rewrite length_take. lia.
Qed.

Lemma begin_growth_keeps f exps : keeps f (fst (begin_growth f exps)).
Proof.
  unfold begin_growth. case_decide; [done|]. case_decide; [done|]. case_decide as Hlim; [done|].
  etrans; [by apply add_rows_keeps|]. simpl. case_decide; by apply keeps_same.
Qed.

Lemma backfill_keeps f gen sl : keeps f (fst (backfill f gen sl)).
Proof.
  unfold backfill. case_decide; [done|]. destruct (growth f) as [g|]; [|done].
  destruct (take_pending _ _) as [fresh p']. simpl.
  etrans; [apply (fold_tail_keeps (gstart g) f fresh)|]. case_decide; by apply keeps_same.
Qed.

Lemma feed_missing_keeps f damaged read : keeps f (fst (feed_missing f damaged read)).
Proof.
  unfold feed_missing. destruct (list_find _ _) as [[]|]; [done|].
  set (step := λ (s : RepairFold G * nat * option FoldError) batch, _).
  pose proof (for_each_batch_inv (λ s, keeps f s.1.1) read step) as Hinv.
  match goal with |- context [for_each_batch ?cs read step ?s] =>
    specialize (λ H, Hinv H cs s); destruct (for_each_batch cs read step s) as [[[f' k] ferr] err] end.
  assert (keeps f f') as Hk.
  { apply Hinv; [|done]. intros s batch Hs. unfold step.
    destruct (feed_batch s.1.1 batch) as [[f1 k1]|] eqn:Hf; [|done]. simpl.
    etrans; [exact Hs|by eapply feed_batch_keeps]. }
  destruct err, ferr; simpl; try done. etrans; [exact Hk|by apply keeps_same].
Qed.

Lemma exec_keeps f o : keeps f (exec f o).
Proof.
  destruct o; simpl; try by apply keeps_same.
  - destruct (feed_batch f sl) as [[f' k]|] eqn:Hfb; [|done]. by eapply feed_batch_keeps.
  - unfold note_corrupt. destruct (is_fed f i); [|done]. by split.
  - apply abandon_growth_keeps.
  - unfold abandon_growth_of. case_decide; [apply abandon_growth_keeps|done].
  - apply extend_rows_keeps.
  - apply begin_growth_keeps.
  - apply backfill_keeps.
  - apply feed_missing_keeps.
  - unfold note_disk_read. destruct (match disk_read f !! i with Some true => _ | Some false => _ | None => _ end).
    by apply keeps_same.
Qed.

Lemma history_keeps f ops : keeps f (foldl exec f ops).
Proof.
  revert f. induction ops as [|o ops IH]; intros f; simpl; [done|].
  etrans; [apply exec_keeps|apply IH].
Qed.

Lemma new_within_budget total ss exps f : new total ss exps = Ok f → within_budget f.
Proof.
  unfold new. case_decide; [done|]. case_decide as He; [done|]. intros [= <-].
  unfold within_budget. simpl. rewrite length_map, N2Nat.id. naive_solver lia.
Qed.

Lemma max_rows_for_budget ss : (max_rows_for ss * ss <= MAX_REPAIR_ROW_BYTES)%N.
Proof.
  unfold max_rows_for. case_decide as Hs; [apply N.le_0_l|].
  rewrite N.mul_comm. apply N.Div0.mul_div_le.
Qed.
End monotone.

(** ** The properties of the fold *)

(** C2. A fold created for a set of slices and driven by any history of calls
    (feeds, growths and their backfills, abandoned growths, extensions and
    fills from disk, with whatever read errors) that were handed the set's own
    bytes: if [solve] returns slices, they are the bytes of the damaged slices.
    And when the fold is not poisoned, the damaged slices are the unfed ones
    and there is a usable row for each, it returns them unless the matrix is
    singular. *)
Theorem fold_solves_damaged {G} `{GF : Gf16 G} (n : nat) `{!Gf16Laws G n}
    (D : list bytes) (ss : N) (exps : list N) (f0 : RepairFold G) (ops : list op)
    (damaged : list nat) (recovery : gmap N bytes) :
  sized n D → n = N.to_nat ss → new (length D) ss exps = Ok f0 →
  Forall (op_good n D) ops → good_recovery n D recovery →
  let f := foldl exec f0 ops in
  (∀ out, solve f damaged recovery = Ok out → out = map (λ j, (j, slice n D j)) damaged) ∧
  (poisoned f = false →
   damaged ≡ₚ filter (λ i, is_fed f i = false) (seq 0 (length (fed f))) →
   length damaged ≤ length (usable_rows f recovery (length damaged)) →
   solve f damaged recovery = Ok (map (λ j, (j, slice n D j)) damaged) ∨
   solve f damaged recovery = Err Singular).
Proof.
  intros HD Hn Hnew Hops Hrec f.
  assert (sound n D f) as Hf by (apply history_sound; try done; by eapply new_sound).
  split; [intros out; by apply solve_sound|intros; by apply solve_complete].
Qed.

(** A slice found corrupt after it was folded ends the fold: whatever
    follows, [solve] refuses with [Poisoned]. And through any history the
    accumulators stay within the 256 MiB budget. *)
Theorem corrupt_feed_poisons {G} `{GF : Gf16 G} (total : nat) (ss : N) (exps : list N)
    (f0 : RepairFold G) (ops : list op) :
  new total ss exps = Ok f0 →
  let f := foldl exec f0 ops in
  (row_bytes f <= MAX_REPAIR_ROW_BYTES)%N ∧
  ∀ i ops' damaged recovery, is_fed f i = true →
    solve (foldl exec (note_corrupt f i) ops') damaged recovery = Err Poisoned.
Proof.
  intros Hnew f. pose proof (history_keeps f0 ops) as Hk. split.
  - assert (within_budget f) as Hb by (eapply keeps_budget; [exact Hk|by eapply new_within_budget]).
    unfold row_bytes. pose proof (max_rows_for_budget (N.of_nat (slice_size f))). unfold within_budget in Hb. nia.
  - intros i ops' damaged recovery Hi. unfold solve. rewrite decide_True; [done|]. left.
    apply (keeps_poison _ _ (history_keeps _ ops')). unfold note_corrupt. by rewrite Hi.
Qed.

Lemma extend_rows_shape {G} `{GF : Gf16 G} (f : RepairFold G) exps read f' r :
  growth f = None → length (rows f) = length (exponents f) → extend_rows f exps read = (f', r) →
  match r with
  | Err _ => f' = f
  | Ok k => k = length (new_exponents f exps) ∧
      exponents f' = exponents f ++ new_exponents f exps ∧
      take (length (rows f)) (rows f') = rows f ∧ length (rows f') = length (rows f) + k ∧
      fed f' = fed f ∧ fed_count f' = fed_count f
  end.
Proof.
  intros Hg Hl. unfold extend_rows, abandon_growth. rewrite Hg. case_decide as Hes.
  { intros [= <- <-]. rewrite Hes. simpl. rewrite app_nil_r, take_ge by lia. naive_solver lia. }
  case_decide; [by intros [= <- <-]|].
  set (es := new_exponents f exps) in *.
  set (Q := λ g : RepairFold G,
    set_rows g (take (length (rows f)) (exponents g)) (take (length (rows f)) (rows g)) = f ∧
    exponents g = exponents f ++ es ∧ length (rows g) = length (rows f) + length es).
  assert (Q (add_rows f es)) as HQ0.
  { split; [|split]; simpl; [|done|by rewrite length_app, length_map].
    unfold set_rows. simpl. rewrite take_app_length. rewrite Hl at 1. rewrite take_app_length. by destruct f. }
  assert (∀ s (b : list (nat * bytes)), Q s → Q (fold_tail (length (rows f)) s b)) as Hstep.
  { intros s b (H1 & H2 & H3). split; [|split; [done|by rewrite length_rows_fold_tail]].
    rewrite <-H1 at 4. unfold fold_tail. simpl.
    rewrite take_app_length' by (rewrite length_take; lia). done. }
  pose proof (for_each_batch_inv Q read _ Hstep
    (chunks (batch_len (N.of_nat (slice_size f))) (fed_indices f)) _ HQ0) as Hinv.
  destruct (for_each_batch _ _ _ _) as [g [e|]]; simpl in Hinv; destruct Hinv as (H1 & H2 & H3).
  - by intros [= <- <-].
  - intros [= <- <-]. pose proof (f_equal rows H1). pose proof (f_equal fed H1).
    pose proof (f_equal fed_count H1). done.
Qed.

(** Extending the rows from disk is all or nothing: on any read error, or
    when the budget refuses, the fold is left exactly as it was (its unfinished
    growth abandoned); on success every new exponent has its row, and the old
    rows and the fed slices are untouched. *)
Theorem extend_rows_all_or_nothing {G} `{GF : Gf16 G} (f : RepairFold G) exps read f' r :
  length (rows f) = length (exponents f) → extend_rows f exps read = (f', r) →
  let g := abandon_growth f in
  match r with
  | Err _ => f' = g
  | Ok k => k = length (new_exponents g exps) ∧
      exponents f' = exponents g ++ new_exponents g exps ∧
      take (length (rows g)) (rows f') = rows g ∧ length (rows f') = length (rows g) + k ∧
      fed f' = fed g ∧ fed_count f' = fed_count g
  end.
Proof.
  intros Hl Hrun g. apply (extend_rows_shape g exps read).
  - apply abandon_growth_None.
  - unfold g, abandon_growth. destruct (growth f); simpl; [rewrite !length_take; lia|done].
  - rewrite <-Hrun. unfold extend_rows, g. f_equal.
    replace (abandon_growth (abandon_growth f)) with (abandon_growth f); [done|].
    unfold abandon_growth at 2. by rewrite abandon_growth_None.
Qed.

(** ** A concrete arithmetic, for the witnesses: the field of two elements *)
Definition bool_scale (c : bool) (v : bytes) : bytes := if c then v else zeros (length v).

Definition BoolGf : Gf16 bool := {|
  gf_zero := false; gf_one := true; gf_add := xorb; gf_mul := andb;
  gf_pow := λ b k, if decide (k = 0)%N then true else b;
  gf_scale := bool_scale;
  input_constants := λ k, replicate k true;
  mul_add_multi := λ out srcs coeffs, foldl xor out (zip_with bool_scale coeffs srcs);
  gf_invert := λ m, if decide (m = [[true]]) then Some [[true]] else None;
|}.

Lemma BoolGfLaws n : @Gf16Laws bool BoolGf n.
Proof.
  split; simpl; unfold bool_scale.
  - done.
  - intros [] v Hv; [done|by rewrite length_zeros].
  - intros [] u v Hu Hv; [done|]. rewrite (length_xor n) by done. rewrite Hu, Hv.
    symmetry. apply xor_zeros_r, length_zeros.
  - intros []; [done|by rewrite length_zeros].
  - intros [] [] v Hv; simpl; rewrite ?Hv; symmetry;
      [by rewrite xor_diag, Hv|by apply xor_zeros_r|by apply xor_zeros_l|apply xor_zeros_r, length_zeros].
  - intros [] [] v Hv; simpl; rewrite ?length_zeros; done.
  - by intros v ->.
  - done.
  - intros k. apply length_replicate.
  - done.
  - intros m inv d Hd _. case_decide as Hm; intros [= <-]. subst m. simpl in Hd. subst d.
    split; [done|]. intros [|i] [|j] row Hrow Hj; simpl in *; simplify_eq; try lia. done.
Qed.

Definition demo_set : list bytes := [[Byte.x0f]; [Byte.x55]].

Definition demo_recovery : gmap N bytes := {[0%N := [Byte.x5a]]}.

Definition demo_fold : RepairFold bool :=
  match @new bool BoolGf 2 1 [0%N] with Ok f => f | Err _ => MkFold 0 [] [] [] [] 0 false None 0 0 [] 0 0 0 0 end.

Lemma demo_good : @good_recovery bool BoolGf 1 demo_set demo_recovery.
Proof.
  intros e data He _. unfold demo_recovery in He. apply lookup_singleton_Some in He as [<- <-].
  vm_compute. done.
Qed.

Lemma fold_solves_damaged_witness :
  @solve bool BoolGf (foldl (@exec bool BoolGf) demo_fold [Feed [(0, [Byte.x0f])]]) [1] demo_recovery
    = Ok [(1, [Byte.x55])] ∨
  @solve bool BoolGf (foldl (@exec bool BoolGf) demo_fold [Feed [(0, [Byte.x0f])]]) [1] demo_recovery
    = Err Singular.
Proof.
  apply (@fold_solves_damaged bool BoolGf 1 (BoolGfLaws 1) demo_set 1 [0%N] demo_fold
    [Feed [(0, [Byte.x0f])]] [1] demo_recovery).
  - by repeat constructor.
  - reflexivity.
  - reflexivity.
  - by repeat constructor.
  - apply demo_good.
  - reflexivity.
  - vm_compute. done.
  - vm_compute. lia.
Defined.

Lemma corrupt_feed_poisons_witness :
  @solve bool BoolGf (note_corrupt (foldl (@exec bool BoolGf) demo_fold [Feed [(0, [Byte.x0f])]]) 0)
    [1] demo_recovery = Err Poisoned.
Proof.
  apply (proj2 (@corrupt_feed_poisons bool BoolGf 2 1 [0%N] demo_fold [Feed [(0, [Byte.x0f])]] eq_refl) 0 []).
  reflexivity.
Defined.

Lemma extend_rows_all_or_nothing_witness :
  fst (@extend_rows bool BoolGf (foldl (@exec bool BoolGf) demo_fold [Feed [(0, [Byte.x0f])]]) [1%N]
    (λ _, Err "gone"%string)) = foldl (@exec bool BoolGf) demo_fold [Feed [(0, [Byte.x0f])]].
Proof.
  exact (@extend_rows_all_or_nothing bool BoolGf (foldl (@exec bool BoolGf) demo_fold [Feed [(0, [Byte.x0f])]])
    [1%N] (λ _, Err "gone"%string) _ (Err (Read 0 "gone")) eq_refl ltac:(vm_compute; reflexivity)).
Defined.
