(* ===== verification/Budget.v ===== *)
(** * The per-server connection budget

    Models [crates/nzb-nntp/src/budget.rs]: the permits of one provider account
    shared by four tiers of consumers, with a floor kept free for WebDAV and a
    floor guaranteed to repair, and the registry of the servers' budgets.

    A waiter is a number, standing for the sender half of its oneshot channel;
    [closed] is the set of waiters whose receiver was dropped. The receiver can
    also be dropped while the lock is held, between the prune and the send: the
    set [late] of a dispatch is those waiters. A permit is the pair of the
    waiter it was sent to and its tier. *)
From S2P Require Import Prelude.

(** ** Tiers and floors *)
Definition DEFAULT_PLAYBACK_RESERVE_PCT : nat := 25.
Definition DEFAULT_REPAIR_RESERVE_PCT : nat := 25.

Inductive BudgetTier := Playback | Import | Download | Repair.

#[export] Instance BudgetTier_eq_dec : EqDecision BudgetTier.
Proof. solve_decision. Defined.

Definition ALL : list BudgetTier := [Playback; Import; Download; Repair].

Record BudgetPolicy := { playback_reserve_pct : nat; repair_reserve_pct : nat }.

Definition default_policy : BudgetPolicy :=
  {| playback_reserve_pct := 0; repair_reserve_pct := DEFAULT_REPAIR_RESERVE_PCT |}.

(** [a.div_ceil(b)] *)
Definition div_ceil (a b : nat) : nat := (a + (b - 1)) / b.

Definition floors (p : BudgetPolicy) (total : nat) : nat * nat :=
  if decide (total < 2) then (0, 0)
  else
    let mx := total - 1 in
    let pct q := div_ceil (total * (q `min` 100)) 100 in
    let playback := pct (playback_reserve_pct p) `min` mx in
    let repair := pct (repair_reserve_pct p) `min` (mx - playback) in
    (playback, repair).

(** ** The state of one budget *)
Record State := {
  total : nat;
  playback_floor : nat;
  repair_floor : nat;
  held : BudgetTier → nat;
  waiters : BudgetTier → list nat;
}.

Definition upd {A} (g : BudgetTier → A) (t : BudgetTier) (v : A) : BudgetTier → A :=
  λ t', if decide (t' = t) then v else g t'.

Definition with_held (s : State) (t : BudgetTier) (n : nat) : State :=
  {| total := total s; playback_floor := playback_floor s; repair_floor := repair_floor s;
     held := upd (held s) t n; waiters := waiters s |}.
Definition with_waiters (s : State) (t : BudgetTier) (q : list nat) : State :=
  {| total := total s; playback_floor := playback_floor s; repair_floor := repair_floor s;
     held := held s; waiters := upd (waiters s) t q |}.

Definition held_total (s : State) : nat := sum_list_with (held s) ALL.
Definition free (s : State) : nat := total s - held_total s.
Definition waiting (s : State) (t : BudgetTier) : bool := bool_decide (waiters s t ≠ []).
Definition unmet_playback (s : State) : nat :=
  playback_floor s - (held s Playback + held s Import).

Definition prune (closed : gset nat) (s : State) : State :=
  {| total := total s; playback_floor := playback_floor s; repair_floor := repair_floor s;
     held := held s; waiters := λ t, filter (λ w, w ∉ closed) (waiters s t) |}.

Definition unmet_repair (s : State) : nat :=
  if bool_decide (0 < held s Repair) || waiting s Repair
  then repair_floor s - held s Repair else 0.

(** The tier whose first waiter gets the next permit. *)
Definition next_grantable (s : State) : option BudgetTier :=
  if decide (free s = 0) then None
  else if waiting s Playback then Some Playback
  else if waiting s Import && bool_decide (unmet_repair s < free s) then Some Import
  else if waiting s Repair && bool_decide (held s Repair < repair_floor s)
          && bool_decide (unmet_playback s < free s) then Some Repair
  else if waiting s Download && bool_decide (unmet_playback s + unmet_repair s < free s)
       then Some Download
  else if waiting s Repair && bool_decide (unmet_playback s < free s) then Some Repair
  else None.

(** All the waiters of all the queues. *)
Definition queued (s : State) : nat := sum_list_with (λ t, length (waiters s t)) ALL.

(** ** Operations *)
Definition new_state (n : nat) (p : BudgetPolicy) : State :=
  {| total := n; playback_floor := (floors p n).1; repair_floor := (floors p n).2;
     held := λ _, 0; waiters := λ _, [] |}.

(** The loop of [dispatch]; every turn takes a waiter off a queue, so [queued s]
    turns are enough. The result lists the permits sent, in order. *)
Fixpoint dispatch_loop (fuel : nat) (late : gset nat) (s : State)
    : State * list (nat * BudgetTier) :=
  match fuel with
  | 0 => (s, [])
  | S fuel' =>
    match next_grantable s with
    | None => (s, [])
    | Some t =>
      match waiters s t with
      | [] => (s, [])
      | w :: q =>
        let s1 := with_waiters s t q in
        if decide (w ∈ late) then dispatch_loop fuel' late s1
        else
          let '(s2, sent) := dispatch_loop fuel' late (with_held s1 t (held s1 t + 1)) in
          (s2, (w, t) :: sent)
      end
    end
  end.

Definition dispatch (closed late : gset nat) (s : State) : State * list (nat * BudgetTier) :=
  let s1 := prune closed s in dispatch_loop (queued s1) late s1.

(** The locked block of [acquire]; the flag says whether the caller was left
    unserved, in which case [contended] is notified. *)
Definition acquire (closed late : gset nat) (s : State) (t : BudgetTier) (w : nat)
    : State * list (nat * BudgetTier) * bool :=
  let '(s', sent) := dispatch closed late (with_waiters s t (waiters s t ++ [w])) in
  (s', sent, waiting s' t).

Definition set_total (closed late : gset nat) (s : State) (n : nat) (p : BudgetPolicy)
    : State * list (nat * BudgetTier) :=
  dispatch closed late
    {| total := n; playback_floor := (floors p n).1; repair_floor := (floors p n).2;
       held := held s; waiters := waiters s |}.

Definition others_waiting (closed : gset nat) (s : State) (t : BudgetTier) : bool :=
  existsb (λ t', existsb (λ w, bool_decide (w ∉ closed)) (waiters s t'))
    (filter (λ t', t' ≠ t) ALL).

Definition wanted_elsewhere (closed : gset nat) (s : State) (t : BudgetTier) : State * bool :=
  if decide (held s t = 0) then (s, false)
  else
    let s1 := prune closed s in
    let next := next_grantable (with_held s1 t (held s1 t - 1)) in
    (s1, match next with Some t' => bool_decide (t' ≠ t) | None => false end).

(** Dropping a permit. *)
Definition release (closed late : gset nat) (s : State) (t : BudgetTier)
    : State * list (nat * BudgetTier) :=
  dispatch closed late (with_held s t (held s t - 1)).

(** ** The registry *)
Record BudgetRegistry := { policy : BudgetPolicy; budgets : gmap string State }.

Definition registry_new (p : BudgetPolicy) : BudgetRegistry := {| policy := p; budgets := ∅ |}.

(** The receivers closed and dropped late are those of the whole registry. *)
Definition set_policy (closed late : gset nat) (r : BudgetRegistry) (p : BudgetPolicy)
    : BudgetRegistry :=
  {| policy := p; budgets := (λ s, (set_total closed late s (total s) p).1) <$> budgets r |}.

Definition ensure (closed late : gset nat) (r : BudgetRegistry) (id : string) (n : nat)
    : BudgetRegistry :=
  {| policy := policy r;
     budgets := <[id := match budgets r !! id with
                        | Some s => (set_total closed late s n (policy r)).1
                        | None => new_state n (policy r)
                        end]> (budgets r) |}.

Definition get (r : BudgetRegistry) (id : string) : option State := budgets r !! id.

(** ** The consumers and the budget together *)
Record World := {
  st : State;
  closed : gset nat;
  (** the permits alive *)
  granted : list (nat * BudgetTier);
}.

Definition waits (w : nat) (t : BudgetTier) (W : World) : Prop := w ∈ waiters (st W) t.

Inductive step : World → World → Prop :=
  | step_acquire W t w late s sent u :
      (∀ t', ¬ waits w t' W) → (∀ t', (w, t') ∉ granted W) → w ∉ closed W → w ∉ late →
      acquire (closed W) late (st W) t w = (s, sent, u) →
      step W {| st := s; closed := closed W ∪ late; granted := sent ++ granted W |}
  | step_cancel W w t :
      waits w t W →
      step W {| st := st W; closed := closed W ∪ {[w]}; granted := granted W |}
  | step_release W w t rest late s sent :
      granted W ≡ₚ (w, t) :: rest →
      release (closed W) late (st W) t = (s, sent) →
      step W {| st := s; closed := closed W ∪ late; granted := sent ++ rest |}
  | step_set_total W n p late s sent :
      set_total (closed W) late (st W) n p = (s, sent) →
      step W {| st := s; closed := closed W ∪ late; granted := sent ++ granted W |}
  | step_wanted W t :
      step W {| st := (wanted_elsewhere (closed W) (st W) t).1; closed := closed W;
                granted := granted W |}.

Definition start (n : nat) (p : BudgetPolicy) : World :=
  {| st := new_state n p; closed := ∅; granted := [] |}.

(** ** Dispatch as a relation *)
Inductive grants (late : gset nat) : State → list (nat * BudgetTier) → State → Prop :=
  | grants_done s : next_grantable s = None → grants late s [] s
  | grants_skip s t w q sent s' :
      next_grantable s = Some t → waiters s t = w :: q → w ∈ late →
      grants late (with_waiters s t q) sent s' → grants late s sent s'
  | grants_send s t w q sent s' :
      next_grantable s = Some t → waiters s t = w :: q → w ∉ late →
      grants late (with_held (with_waiters s t q) t (held s t + 1)) sent s' →
      grants late s ((w, t) :: sent) s'.

Lemma next_grantable_Some s t :
  next_grantable s = Some t → waiters s t ≠ [] ∧ 0 < free s.
Proof.
  unfold next_grantable, waiting. case_decide as Hf; [done|].
  repeat case_bool_decide; simpl; intros [= <-]; split; done || lia.
Qed.

Lemma queued_pop s t w q : waiters s t = w :: q → queued s = S (queued (with_waiters s t q)).
Proof. intros Hw. unfold queued, with_waiters, upd. destruct t; simpl; rewrite Hw; simpl; lia. Qed.

Lemma queued_with_held s t k : queued (with_held s t k) = queued s.
Proof. done. Qed.

Lemma held_total_S s t : held_total (with_held s t (held s t + 1)) = S (held_total s).
Proof. unfold held_total, with_held, upd. destruct t; simpl; lia. Qed.

Lemma dispatch_loop_grants late fuel s s' sent :
  queued s ≤ fuel → dispatch_loop fuel late s = (s', sent) → grants late s sent s'.
Proof.
  revert s s' sent. induction fuel as [|fuel IH]; intros s s' sent Hq; simpl.
  - intros [= <- <-]. constructor. destruct (next_grantable s) as [t|] eqn:Ht; [|done].
    apply next_grantable_Some in Ht as [Hw _]. destruct (waiters s t) eqn:Hwt; [done|].
    apply queued_pop in Hwt. lia.
  - destruct (next_grantable s) as [t|] eqn:Ht; [|intros [= <- <-]; by constructor].
    pose proof (next_grantable_Some _ _ Ht) as [Hne _].
    destruct (waiters s t) as [|w q] eqn:Hw; [done|]. pose proof (queued_pop _ _ _ _ Hw).
    case_decide as Hl.
    + intros Hr. eapply grants_skip; [done..|]. apply IH; [lia|done].
    + destruct (dispatch_loop fuel late _) as [s2 sent2] eqn:Hr. intros [= <- <-].
      eapply grants_send; [done..|]. apply IH; [rewrite queued_with_held; lia|done].
Qed.

Lemma dispatch_grants closed late s s' sent :
  dispatch closed late s = (s', sent) → grants late (prune closed s) sent s'.
Proof. apply dispatch_loop_grants. done. Qed.

Lemma grants_settled late s sent s' : grants late s sent s' → next_grantable s' = None.
Proof. by induction 1. Qed.

Lemma grants_first late s sent s' t w q :
  grants late s sent s' → next_grantable s = Some t → waiters s t = w :: q → w ∉ late →
  ∃ sent', sent = (w, t) :: sent' ∧
    grants late (with_held (with_waiters s t q) t (held s t + 1)) sent' s'.
Proof.
  intros Hg Ht Hw Hl.
  destruct Hg as [s Hn|s t' w' q' sent s' Hn Hw' Hin Hg|s t' w' q' sent s' Hn Hw' Hin Hg];
    [congruence| |]; assert (t' = t) as -> by congruence;
    assert (w' = w ∧ q' = q) as [-> ->] by (split; congruence); [done|eauto].
Qed.

Definition same_limits (s s' : State) : Prop :=
  total s' = total s ∧ playback_floor s' = playback_floor s ∧ repair_floor s' = repair_floor s.

Lemma grants_limits late s sent s' : grants late s sent s' → same_limits s s'.
Proof. by induction 1. Qed.

Definition count (t : BudgetTier) (l : list (nat * BudgetTier)) : nat :=
  length (filter (λ p, p.2 = t) l).

Lemma count_cons t p l : count t (p :: l) = (if decide (p.2 = t) then 1 else 0) + count t l.
Proof. unfold count. rewrite filter_cons. by case_decide. Qed.
Lemma count_app t l k : count t (l ++ k) = count t l + count t k.
Proof. unfold count. by rewrite filter_app, length_app. Qed.

Lemma grants_held late s sent s' t :
  grants late s sent s' → held s' t = held s t + count t sent.
Proof.
  induction 1 as [| |s t' w q sent s' Ht Hw Hl _ IH]; simpl in *; [unfold count; simpl; lia|done|].
  rewrite IH, count_cons. unfold upd. simpl. destruct (decide (t = t')) as [->|].
  - rewrite decide_True by done. lia.
  - rewrite decide_False by done. lia.
Qed.

Lemma grants_total late s sent s' :
  grants late s sent s' → held_total s' ≤ held_total s `max` total s.
Proof.
  induction 1 as [| |s t' w q sent s' Ht Hw Hl _ IH]; simpl in *; [lia|done|].
  apply next_grantable_Some in Ht as [_ Hf]. unfold free in Hf.
  pose proof (held_total_S (with_waiters s t' q) t') as Hs. simpl in Hs. rewrite Hs in IH.
  change (held_total (with_waiters s t' q)) with (held_total s) in IH. lia.
Qed.

(** Each queue is served from its head, and skips only those who left. *)
Lemma grants_fifo late s sent s' t :
  grants late s sent s' →
  ∃ popped, waiters s t = popped ++ waiters s' t ∧
    map fst (filter (λ p, p.2 = t) sent) = filter (λ w, w ∉ late) popped.
Proof.
  induction 1 as [|s t' w q sent s' Ht Hw Hl _ (popped & IH1 & IH2)
                  |s t' w q sent s' Ht Hw Hl _ (popped & IH1 & IH2)]; simpl in *; [by exists []| |].
  - unfold upd in IH1. destruct (decide (t = t')) as [->|].
    + exists (w :: popped). rewrite Hw, IH1. split; [done|].
      rewrite filter_cons_False by naive_solver. done.
    + exists popped. done.
  - unfold upd in IH1. destruct (decide (t = t')) as [->|].
    + exists (w :: popped). rewrite Hw, IH1. split; [done|].
      rewrite !filter_cons_True by done. simpl. by rewrite IH2.
    + exists popped. split; [done|]. rewrite filter_cons_False by naive_solver. done.
Qed.

(** The WebDAV share: what download and repair hold never reaches into the
    part of the floor that playback and import do not hold. *)
Definition share_kept (s : State) : Prop :=
  held s Download + held s Repair + (held s Playback + held s Import) `max` playback_floor s ≤ total s.

Lemma next_grantable_share s t :
  next_grantable s = Some t → share_kept s →
  (t = Download ∨ t = Repair → unmet_playback s < free s).
Proof.
  unfold next_grantable. case_decide; [done|].
  repeat case_bool_decide; repeat destruct (waiting s _); simpl; intros [= <-] _ [|]; done || lia.
Qed.

Lemma grant_share s t : next_grantable s = Some t → share_kept s →
  share_kept (with_held s t (held s t + 1)).
Proof.
  intros Ht Hs. pose proof (next_grantable_share s t Ht Hs) as Hd.
  apply next_grantable_Some in Ht as [_ Hf].
  unfold share_kept, free, unmet_playback, held_total, with_held, upd in *. simpl in *.
  destruct t; simpl; try (specialize (Hd ltac:(auto))); lia.
Qed.

Lemma grants_share late s sent s' : grants late s sent s' → share_kept s → share_kept s'.
Proof.
  induction 1 as [| |s t w q sent s' Ht Hw Hl _ IH]; [done|auto|]. intros Hs.
  apply IH. exact (grant_share s t Ht Hs).
Qed.

Lemma dispatch_share closed late s s' sent :
  dispatch closed late s = (s', sent) → share_kept s → share_kept s'.
Proof. intros Hd Hs. exact (grants_share _ _ _ _ (dispatch_grants _ _ _ _ _ Hd) Hs). Qed.

Lemma dispatch_limits closed late s s' sent :
  dispatch closed late s = (s', sent) → same_limits s s'.
Proof. intros Hd. exact (grants_limits _ _ _ _ (dispatch_grants _ _ _ _ _ Hd)). Qed.

Lemma dispatch_held closed late s s' sent t :
  dispatch closed late s = (s', sent) → held s' t = held s t + count t sent.
Proof. intros Hd. exact (grants_held _ _ _ _ t (dispatch_grants _ _ _ _ _ Hd)). Qed.

Lemma dispatch_total closed late s s' sent :
  dispatch closed late s = (s', sent) → held_total s' ≤ held_total s `max` total s.
Proof. intros Hd. exact (grants_total _ _ _ _ (dispatch_grants _ _ _ _ _ Hd)). Qed.

(** A waiter that did not leave stays in line or has its permit. *)
Lemma dispatch_alive closed late s s' sent w t :
  dispatch closed late s = (s', sent) → w ∈ waiters s t → w ∉ closed → w ∉ late →
  w ∈ waiters s' t ∨ (w, t) ∈ sent.
Proof.
  intros Hd%dispatch_grants Hw Hc Hl. destruct (grants_fifo _ _ _ _ t Hd) as (popped & Hq & Hs).
  assert (w ∈ waiters (prune closed s) t) as Hw' by (simpl; by apply list_elem_of_filter).
  rewrite Hq in Hw'. apply elem_of_app in Hw' as [Hw'|]; [right|by left].
  assert (w ∈ map fst (filter (λ p, p.2 = t) sent)) as (p & -> & Hp)%list_elem_of_fmap.
  { rewrite Hs. by apply list_elem_of_filter. }
  apply list_elem_of_filter in Hp as [<- Hp]. by destruct p.
Qed.

Definition accounted (W : World) : Prop := ∀ t, held (st W) t = count t (granted W).

Lemma step_accounted W W' : accounted W → step W W' → accounted W'.
Proof.
  intros Ha Hs t. destruct Hs as [W t' w late s sent u _ _ _ _ Hac|W w t' _|W w t' rest late s sent Hp Hr
    |W n p late s sent Hset|W t']; simpl.
  - unfold acquire in Hac. destruct (dispatch _ _ _) as [s1 sent1] eqn:Hd. simplify_eq.
    rewrite (dispatch_held _ _ _ _ _ t Hd), count_app. simpl. rewrite (Ha t). lia.
  - apply Ha.
  - unfold release in Hr. rewrite (dispatch_held _ _ _ _ _ t Hr), count_app.
    assert (count t (granted W) = (if decide (t' = t) then 1 else 0) + count t rest) as Hc.
    { rewrite <-(count_cons t (w, t')). unfold count. by rewrite Hp. }
    pose proof (Ha t) as Hat. unfold with_held, upd. simpl.
    destruct (decide (t = t')) as [->|]; [rewrite decide_True in Hc by done|rewrite decide_False in Hc by done]; lia.
  - unfold set_total in Hset. rewrite (dispatch_held _ _ _ _ _ t Hset), count_app. simpl. rewrite (Ha t). lia.
  - unfold wanted_elsewhere. case_decide; apply Ha.
Qed.

Lemma step_alive W W' w t :
  step W W' → waits w t W → w ∉ closed W' → waits w t W' ∨ (w, t) ∈ granted W'.
Proof.
  intros Hs Hw Hc. unfold waits in *. destruct Hs as [W t' w' late s sent u _ _ _ _ Hac|W w' t' _|W w' t' rest late s sent Hp Hr
    |W n p late s sent Hset|W t']; simpl in *.
  - unfold acquire in Hac. destruct (dispatch _ _ _) as [s1 sent1] eqn:Hd. simplify_eq.
    destruct (dispatch_alive _ _ _ _ _ w t Hd); [|set_solver..|by left|right; set_solver].
    simpl. unfold upd. case_decide; [subst; set_solver|done].
  - by left.
  - destruct (dispatch_alive _ _ _ _ _ w t Hr); [done|set_solver..|by left|right; set_solver].
  - destruct (dispatch_alive _ _ _ _ _ w t Hset); [done|set_solver..|by left|right; set_solver].
  - left. unfold wanted_elsewhere. case_decide; simpl; [done|]. by apply list_elem_of_filter.
Qed.

Lemma step_total W W' :
  step W W' → held_total (st W') ≤ held_total (st W) `max` total (st W').
Proof.
  intros Hs. destruct Hs as [W t' w' late s sent u _ _ _ _ Hac|W w' t' _|W w' t' rest late s sent Hp Hr
    |W n p late s sent Hset|W t']; simpl in *.
  - unfold acquire in Hac. destruct (dispatch _ _ _) as [s1 sent1] eqn:Hd. simplify_eq.
    pose proof (dispatch_total _ _ _ _ _ Hd) as Ht. destruct (dispatch_limits _ _ _ _ _ Hd) as [-> _].
    exact Ht.
  - lia.
  - pose proof (dispatch_total _ _ _ _ _ Hr) as Ht. destruct (dispatch_limits _ _ _ _ _ Hr) as [-> _].
    simpl in *. etrans; [exact Ht|]. apply Nat.max_le_compat_r.
    unfold held_total, with_held, upd. destruct t'; simpl; lia.
  - pose proof (dispatch_total _ _ _ _ _ Hset) as Ht. destruct (dispatch_limits _ _ _ _ _ Hset) as [-> _].
    exact Ht.
  - unfold wanted_elsewhere. case_decide; simpl; [lia|].
    change (held_total (prune (closed W) (st W))) with (held_total (st W)). lia.
Qed.

(** Steps that do not change the allowance. *)
Definition step_fixed (W W' : World) : Prop := step W W' ∧ same_limits (st W) (st W').

Lemma step_share W W' : step_fixed W W' → share_kept (st W) → share_kept (st W').
Proof.
  intros [Hs Hlim] Hk. destruct Hs as [W t' w' late s sent u _ _ _ _ Hac|W w' t' _|W w' t' rest late s sent Hp Hr
    |W n p late s sent Hset|W t']; simpl in *.
  - unfold acquire in Hac. destruct (dispatch _ _ _) as [s1 sent1] eqn:Hd. simplify_eq.
    exact (dispatch_share _ _ _ _ _ Hd Hk).
  - done.
  - apply (dispatch_share _ _ _ _ _ Hr). unfold share_kept, with_held, upd in *.
    destruct t'; simpl in *; lia.
  - apply (dispatch_share _ _ _ _ _ Hset).
    destruct (dispatch_limits _ _ _ _ _ Hset) as (H1 & H2 & H3). simpl in *.
    destruct Hlim as (H4 & H5 & H6). unfold share_kept in *. simpl in *. lia.
  - unfold wanted_elsewhere. by case_decide.
Qed.

Lemma div_ceil_100 a : a ≤ 100 * div_ceil a 100 < a + 100.
Proof. unfold div_ceil. pose proof (Nat.div_mod_eq (a + 99) 100). pose proof (Nat.mod_upper_bound (a + 99) 100). simpl (100 - 1). lia. Qed.

Lemma floors_fit p n : let '(pb, rp) := floors p n in pb + rp ≤ n - 1.
Proof. unfold floors. case_decide; simpl; lia. Qed.

Lemma start_share n p : share_kept (st (start n p)).
Proof. unfold share_kept. simpl. pose proof (floors_fit p n). destruct (floors p n). simpl. lia. Qed.

Lemma reach_share n p W : rtc step_fixed (start n p) W → share_kept (st W).
Proof.
  intros Hr. apply (rtc_invariant step_fixed (λ W, share_kept (st W)) _ _) with (2 := Hr);
    [eauto using step_share|apply start_share].
Qed.

(** ** The properties of the budget *)

(** C20. However the consumers acquire, give up, return permits, and change the
    allowance: what the budget counts as held at each tier is exactly the
    permits alive there (so a returned permit never underflows the count);
    the total held never grows past the allowance; and a waiter that does not
    leave is never dropped: it stays in line or is sent a permit. *)
Theorem permits_accounted (n : nat) (p : BudgetPolicy) (W : World) :
  rtc step (start n p) W →
  (∀ t, held (st W) t = count t (granted W)) ∧
  (∀ W', step W W' →
    held_total (st W') ≤ held_total (st W) `max` total (st W') ∧
    ∀ w t, waits w t W → w ∉ closed W' → waits w t W' ∨ (w, t) ∈ granted W').
Proof.
  intros Hr. split.
  - apply (rtc_invariant step accounted _ _ step_accounted Hr). by intros [].
  - intros W' Hs. split; [by apply step_total|]. eauto using step_alive.
Qed.

(** C13. The playback floor, for a fixed allowance: download and repair never
    hold permits of the share that playback and import leave unused, all tiers
    together stay within the allowance, and while WebDAV holds less than its
    floor a playback read that is first in line is served by its own request,
    before anyone else. *)
Theorem webdav_share_kept (n : nat) (p : BudgetPolicy) (W : World) :
  rtc step_fixed (start n p) W →
  held (st W) Download + held (st W) Repair
    + (held (st W) Playback + held (st W) Import) `max` playback_floor (st W) ≤ total (st W) ∧
  held_total (st W) ≤ total (st W) ∧
  ∀ w late, w ∉ closed W → w ∉ late → waiters (st W) Playback = [] →
    held (st W) Playback + held (st W) Import < playback_floor (st W) →
    let '(_, sent, unserved) := acquire (closed W) late (st W) Playback w in
    head sent = Some (w, Playback) ∧ unserved = false.
Proof.
  intros Hr%reach_share. split_and!; [exact Hr|unfold share_kept, held_total in *; simpl; lia|].
  intros w late Hc Hl Hq Hf. unfold acquire.
  destruct (dispatch _ _ _) as [s' sent] eqn:Hd. apply dispatch_grants in Hd.
  pose proof (grants_fifo _ _ _ _ Playback Hd) as (popped & Hp & _).
  set (s1 := prune _ _) in *.
  assert (waiters s1 Playback = [w]) as Hw.
  { subst s1. unfold prune, with_waiters, upd. simpl. rewrite Hq. simpl.
    by rewrite filter_cons_True. }
  assert (next_grantable s1 = Some Playback) as Hn.
  { unfold next_grantable, waiting. rewrite Hw, decide_False; [done|].
    unfold free, share_kept in *. change (total s1) with (total (st W)).
    change (held_total s1) with (held_total (st W)). unfold held_total. simpl. lia. }
  assert (waiters s' Playback = [] ∧ head sent = Some (w, Playback)) as [Hs' Hh].
  { destruct (grants_first _ _ _ _ _ _ _ Hd Hn Hw Hl) as (sent' & -> & Hg).
    destruct (grants_fifo _ _ _ _ Playback Hg) as (popped' & Hp' & _). split; [|done].
    unfold with_held, with_waiters, upd in Hp'. simpl in Hp'. by destruct popped'. }
  split; [done|]. unfold waiting. rewrite Hs'. done.
Qed.

(** Every dispatch ends, and ends settled: a playback waiter is left only
    when no permit is free, an import waiter only when the free permits are
    within the unmet repair floor, a repair waiter only when they are within
    the unmet playback floor, a download waiter only when they are within both.
    Each tier is served in order of arrival, and nothing is granted beyond the
    allowance. *)
Theorem dispatch_settles (closed late : gset nat) (s : State) :
  let '(s', sent) := dispatch closed late s in
  (waiters s' Playback = [] ∨ free s' = 0) ∧
  (waiters s' Import = [] ∨ free s' ≤ unmet_repair s') ∧
  (waiters s' Repair = [] ∨ free s' ≤ unmet_playback s') ∧
  (waiters s' Download = [] ∨ free s' ≤ unmet_playback s' + unmet_repair s') ∧
  held_total s' ≤ held_total s `max` total s ∧
  ∀ t, ∃ popped, filter (λ w, w ∉ closed) (waiters s t) = popped ++ waiters s' t ∧
    map fst (filter (λ p, p.2 = t) sent) = filter (λ w, w ∉ late) popped.
Proof.
  destruct (dispatch closed late s) as [s' sent] eqn:Hd.
  pose proof (dispatch_total _ _ _ _ _ Hd) as Ht. apply dispatch_grants in Hd.
  pose proof (grants_settled _ _ _ _ Hd) as Hn.
  assert ((waiters s' Playback = [] ∨ free s' = 0) ∧
    (waiters s' Import = [] ∨ free s' ≤ unmet_repair s') ∧
    (waiters s' Repair = [] ∨ free s' ≤ unmet_playback s') ∧
    (waiters s' Download = [] ∨ free s' ≤ unmet_playback s' + unmet_repair s')) as (? & ? & ? & ?).
  { unfold next_grantable, waiting in Hn. case_decide as Hf; [split_and!; right; lia|].
    revert Hn. repeat case_bool_decide; simpl; intros Hn; try done; split_and!;
      first [by left|right; lia]. }
  split_and!; try done. intros t. by apply (grants_fifo _ _ _ _ t Hd).
Qed.

(** The floors of a server with [n] connections: each is the percentage
    rounded up, unless that would leave download without a connection; a server
    of one connection has none. *)
Theorem floors_rounded_up (p : BudgetPolicy) (n : nat) :
  let '(pb, rp) := floors p n in
  pb + rp ≤ n - 1 ∧
  (n < 2 → pb = 0 ∧ rp = 0) ∧
  (2 ≤ n →
    (pb = n - 1 ∨ n * (playback_reserve_pct p `min` 100) ≤ 100 * pb < n * (playback_reserve_pct p `min` 100) + 100) ∧
    (pb + rp = n - 1 ∨ n * (repair_reserve_pct p `min` 100) ≤ 100 * rp < n * (repair_reserve_pct p `min` 100) + 100)).
Proof.
  pose proof (floors_fit p n) as Hfit. unfold floors in *.
  pose proof (div_ceil_100 (n * (playback_reserve_pct p `min` 100))) as H1.
  pose proof (div_ceil_100 (n * (repair_reserve_pct p `min` 100))) as H2.
  destruct (decide (n < 2)) as [Hn|Hn]; cbv zeta in *; split_and!; lia.
Qed.

(** [wanted_elsewhere] says true exactly when returning one permit of the
    tier would send the first permit granted to another tier. *)
Theorem wanted_elsewhere_iff (closed : gset nat) (s : State) (t : BudgetTier) :
  (wanted_elsewhere closed s t).2 = true ↔
  0 < held s t ∧ ∃ w t' rest, t' ≠ t ∧ (release closed ∅ s t).2 = (w, t') :: rest.
Proof.
  unfold wanted_elsewhere, release. case_decide as Hh; [simpl; split; [done|lia]|]. simpl.
  change (with_held (prune closed s) t (held s t - 1)) with (prune closed (with_held s t (held s t - 1))).
  set (s1 := with_held s t (held s t - 1)).
  destruct (dispatch closed ∅ s1) as [s' sent] eqn:Hd. apply dispatch_grants in Hd. simpl.
  destruct (next_grantable (prune closed s1)) as [t'|] eqn:Hn.
  - destruct (waiters (prune closed s1) t') as [|w q] eqn:Hw.
    { by apply next_grantable_Some in Hn as [Hn _]. }
    destruct (grants_first _ _ _ _ _ _ _ Hd Hn Hw (not_elem_of_empty w)) as (sent' & -> & _).
    rewrite bool_decide_eq_true. split.
    + intros Hne. split; [lia|]. by exists w, t', sent'.
    + intros (_ & w' & t2 & rest & Hne & Heq). by simplify_eq.
  - assert (sent = []) as -> by (destruct Hd; congruence).
    split; [done|]. by intros (_ & ? & ? & ? & _ & ?).
Qed.

(** ** Concrete worlds *)
Definition acquire_step (W : World) (t : BudgetTier) (w : nat) : World :=
  let '(s, sent, _) := acquire (closed W) ∅ (st W) t w in
  {| st := s; closed := closed W ∪ ∅; granted := sent ++ granted W |}.

Definition cancel_step (W : World) (w : nat) : World :=
  {| st := st W; closed := closed W ∪ {[w]}; granted := granted W |}.

Definition fresh (W : World) (w : nat) : Prop :=
  Forall (λ t, w ∉ waiters (st W) t) ALL ∧ Forall (λ p, p.1 ≠ w) (granted W) ∧ w ∉ closed W.

Lemma acquire_step_ok W t w : fresh W w → step_fixed W (acquire_step W t w).
Proof.
  intros (Hq & Hg & Hc). unfold acquire_step.
  destruct (acquire _ _ _ _ _) as [[s sent] u] eqn:Ha. split; simpl.
  - eapply step_acquire; [| |done| |exact Ha].
    + rewrite Forall_forall in Hq. intros t'. apply Hq. destruct t'; set_solver.
    + rewrite Forall_forall in Hg. intros t' Hin. by apply Hg in Hin.
    + set_solver.
  - unfold acquire in Ha. destruct (dispatch _ _ _) as [s1 sent1] eqn:Hd. simplify_eq.
    exact (dispatch_limits _ _ _ _ _ Hd).
Qed.

Lemma cancel_step_ok W w t : waits w t W → step_fixed W (cancel_step W w).
Proof. intros Hw. split; [by eapply step_cancel|done]. Qed.

(** Eight connections with both default reserves: floors of two. *)
Definition demo_policy : BudgetPolicy :=
  {| playback_reserve_pct := DEFAULT_PLAYBACK_RESERVE_PCT; repair_reserve_pct := DEFAULT_REPAIR_RESERVE_PCT |}.

Definition demo_busy : World :=
  foldl (λ W w, acquire_step W Download w) (start 8 demo_policy) (seq 0 6).

Definition demo_waiting : World := acquire_step (acquire_step demo_busy Repair 6) Import 7.

Definition fresh_b (W : World) (w : nat) : bool :=
  forallb (λ t, bool_decide (w ∉ waiters (st W) t)) ALL
    && forallb (λ p, bool_decide (p.1 ≠ w)) (granted W) && bool_decide (w ∉ closed W).

Lemma fresh_dec W w : fresh_b W w = true → fresh W w.
Proof.
  unfold fresh_b. rewrite !andb_true_iff, !forallb_forall, bool_decide_eq_true. intros [[H1 H2] H3].
  split_and!; [| |done]; apply Forall_forall; intros x Hx%list_elem_of_In.
  - apply H1 in Hx. by apply bool_decide_eq_true in Hx.
  - apply H2 in Hx. by apply bool_decide_eq_true in Hx.
Qed.

Fixpoint all_fresh (W : World) (t : BudgetTier) (ws : list nat) : bool :=
  match ws with
  | [] => true
  | w :: ws' => fresh_b W w && all_fresh (acquire_step W t w) t ws'
  end.

Lemma acquires_reached W t ws :
  all_fresh W t ws = true → rtc step_fixed W (foldl (λ W w, acquire_step W t w) W ws).
Proof.
  revert W. induction ws as [|w ws IH]; intros W; simpl; [intros; apply rtc_refl|].
  intros [Hf Hr]%andb_true_iff. eapply rtc_l; [by apply acquire_step_ok, fresh_dec|by apply IH].
Qed.

Lemma demo_busy_reached : rtc step_fixed (start 8 demo_policy) demo_busy.
Proof.
  apply acquires_reached. vm_compute. reflexivity.
Qed.

Lemma demo_waiting_reached : rtc step_fixed (start 8 demo_policy) demo_waiting.
Proof.
  eapply rtc_r; [eapply rtc_r; [apply demo_busy_reached|]|]; apply acquire_step_ok, fresh_dec;
    vm_compute; reflexivity.
Qed.

Lemma rtc_step_of_fixed W W' : rtc step_fixed W W' → rtc step W W'.
Proof. apply rtc_subrel. by intros ? ? []. Qed.

(** Import is not always served from the WebDAV floor, and a waiter that
    leaves wakes nobody: with eight connections and the default reserves, six
    downloads, a waiting repair and then a waiting import leave two permits
    free that WebDAV does not hold, and the import waits; when the repair
    waiter then leaves, the import is the only waiter alive, a dispatch would
    serve it, and it still waits. *)
Theorem import_stranded_by_repair :
  rtc step (start 8 demo_policy) demo_waiting ∧ step demo_waiting (cancel_step demo_waiting 6) ∧
  free (st demo_waiting) = 2 ∧ playback_floor (st demo_waiting) = 2 ∧
  held (st demo_waiting) Playback = 0 ∧ held (st demo_waiting) Import = 0 ∧
  waiters (st demo_waiting) Import = [7] ∧
  let W := cancel_step demo_waiting 6 in
  waiters (st W) Import = [7] ∧ free (st W) = 2 ∧
  next_grantable (prune (closed W) (st W)) = Some Import.
Proof.
  split_and!; [apply rtc_step_of_fixed, demo_waiting_reached| |try by vm_compute..].
  apply (cancel_step_ok demo_waiting 6 Repair). unfold waits.
  replace (waiters (st demo_waiting) Repair) with [6] by (vm_compute; reflexivity). left.
Qed.

Lemma permits_accounted_witness : held (st demo_waiting) Download = count Download (granted demo_waiting).
Proof.
  apply (proj1 (permits_accounted 8 demo_policy demo_waiting
    (rtc_step_of_fixed _ _ demo_waiting_reached))).
Defined.

Lemma webdav_share_kept_witness :
  let '(_, sent, unserved) := acquire (closed demo_waiting) ∅ (st demo_waiting) Playback 8 in
  head sent = Some (8, Playback) ∧ unserved = false.
Proof.
  apply (proj2 (proj2 (webdav_share_kept 8 demo_policy demo_waiting demo_waiting_reached))).
  - apply (bool_decide_unpack _). vm_compute. exact I.
  - apply not_elem_of_empty.
  - vm_compute. reflexivity.
  - vm_compute. lia.
Defined.

(** ** The registry *)
Inductive reg_op :=
  | REnsure (id : string) (n : nat)
  | RSetPolicy (p : BudgetPolicy)
  | RAcquire (id : string) (t : BudgetTier) (w : nat)
  | RRelease (id : string) (t : BudgetTier).

Definition reg_exec (closed late : gset nat) (r : BudgetRegistry) (o : reg_op) : BudgetRegistry :=
  match o with
  | REnsure id n => ensure closed late r id n
  | RSetPolicy p => set_policy closed late r p
  | RAcquire id t w =>
    {| policy := policy r; budgets := alter (λ s, (acquire closed late s t w).1.1) id (budgets r) |}
  | RRelease id t =>
    {| policy := policy r; budgets := alter (λ s, (release closed late s t).1) id (budgets r) |}
  end.

Definition follows (p : BudgetPolicy) (s : State) : Prop :=
  (playback_floor s, repair_floor s) = floors p (total s).

Lemma same_limits_follows p s s' : same_limits s s' → follows p s → follows p s'.
Proof. unfold follows. by intros (-> & -> & ->). Qed.

Lemma set_total_follows closed late s n p : follows p (set_total closed late s n p).1.
Proof.
  unfold set_total. destruct (dispatch _ _ _) as [s' sent] eqn:Hd.
  apply (same_limits_follows p _ _ (dispatch_limits _ _ _ _ _ Hd)).
  unfold follows. simpl. by destruct (floors p n).
Qed.

Lemma release_follows closed late s t p : follows p s → follows p (release closed late s t).1.
Proof.
  intros Hp. unfold release. destruct (dispatch _ _ _) as [s' sent] eqn:Hd.
  exact (same_limits_follows p _ _ (dispatch_limits _ _ _ _ _ Hd) Hp).
Qed.

Lemma acquire_follows closed late s t w p : follows p s → follows p (acquire closed late s t w).1.1.
Proof.
  intros Hp. unfold acquire. destruct (dispatch _ _ _) as [s' sent] eqn:Hd.
  exact (same_limits_follows p _ _ (dispatch_limits _ _ _ _ _ Hd) Hp).
Qed.

Definition reg_ok (r : BudgetRegistry) : Prop := map_Forall (λ _ s, follows (policy r) s) (budgets r).

Lemma alter_ok (g : State → State) r id :
  (∀ s, follows (policy r) s → follows (policy r) (g s)) → reg_ok r →
  map_Forall (λ _ s, follows (policy r) s) (alter g id (budgets r)).
Proof.
  intros Hg Hr i s Hi. destruct (decide (id = i)) as [->|Hne].
  - rewrite lookup_alter_eq in Hi. destruct (budgets r !! i) as [s0|] eqn:Hs; [|done].
    simplify_eq/=. apply Hg, (Hr i s0 Hs).
  - rewrite lookup_alter_ne in Hi by done. by apply (Hr i s).
Qed.

Lemma reg_exec_ok closed late r o : reg_ok r → reg_ok (reg_exec closed late r o).
Proof.
  intros Hr. destruct o as [id n|p|id t w|id t]; simpl.
  - intros i s. unfold ensure. simpl. rewrite lookup_insert. case_decide; [|apply Hr].
    intros [= <-]. destruct (budgets r !! id); [apply set_total_follows|].
    unfold follows. simpl. by destruct (floors _ _).
  - intros i s. simpl. rewrite lookup_fmap. destruct (budgets r !! i); simpl; [|done].
    intros [= <-]. apply set_total_follows.
  - apply (alter_ok (λ s, (acquire closed late s t w).1.1) r id); [|done]. intros. by apply acquire_follows.
  - apply (alter_ok (λ s, (release closed late s t).1) r id); [|done]. intros. by apply release_follows.
Qed.

(** The registry: through any sequence of [ensure], [set_policy] and use
    of the budgets, every budget's floors are those its policy gives its own
    allowance; [ensure] sets the allowance it was asked for and leaves the other
    servers alone, and [set_policy] keeps every allowance. *)
Theorem registry_follows_policy (p : BudgetPolicy) (closed late : gset nat) (ops : list reg_op) :
  let r := foldl (reg_exec closed late) (registry_new p) ops in
  (∀ id s, get r id = Some s → (playback_floor s, repair_floor s) = floors (policy r) (total s)) ∧
  (∀ id n, ∃ s, get (ensure closed late r id n) id = Some s ∧ total s = n ∧
     ∀ id', id' ≠ id → get (ensure closed late r id n) id' = get r id') ∧
  (∀ p' id, total <$> get (set_policy closed late r p') id = total <$> get r id).
Proof.
  intros r. assert (reg_ok r) as Hr.
  { subst r. assert (reg_ok (registry_new p)) as H0 by (apply map_Forall_empty).
    revert H0. generalize (registry_new p). induction ops as [|o ops IH]; intros r0 H0; simpl; [done|].
    apply IH, reg_exec_ok, H0. }
  split_and!; [intros id s; apply Hr| |].
  - intros id n. unfold get, ensure. simpl. rewrite lookup_insert, decide_True by done.
    eexists. split; [done|]. split.
    + destruct (budgets r !! id) as [s|]; [|done]. unfold set_total.
      destruct (dispatch _ _ _) as [s' sent] eqn:Hd. by destruct (dispatch_limits _ _ _ _ _ Hd).
    + intros id' Hne. by rewrite lookup_insert_ne.
  - intros p' id. unfold get, set_policy. simpl. rewrite lookup_fmap.
    destruct (budgets r !! id) as [s|]; [|done]. simpl. f_equal. unfold set_total.
    destruct (dispatch _ _ _) as [s' sent] eqn:Hd. by destruct (dispatch_limits _ _ _ _ _ Hd).
Qed.
