(* ===== verification/Str.v ===== *)
(** * Rust strings

    The string functions of Rust's standard library that the NNTP client and
    the parsers call. A [&str] is the list of its code points; its bytes are
    its UTF-8 encoding. *)
From S2P Require Import Prelude.

(** ** Literals and code points *)
Abbreviation str := (list N).

Definition lit (s : string) : str := Ascii.N_of_ascii <$> String.list_ascii_of_string s.

Definition NL : N := 10.
Definition CR : N := 13.
Definition SP : N := 32.
Definition TAB : N := 9.
Definition REPLACEMENT : N := 0xFFFD.

(** [char::is_whitespace] *)
Definition is_whitespace (c : N) : bool :=
  bool_decide ((9 ≤ c ≤ 13) ∨ c = 32 ∨ c = 0x85 ∨ c = 0xA0 ∨ c = 0x1680 ∨ (0x2000 ≤ c ≤ 0x200A) ∨
    c = 0x2028 ∨ c = 0x2029 ∨ c = 0x202F ∨ c = 0x205F ∨ c = 0x3000)%N.

Definition is_ascii_digit (c : N) : bool := bool_decide (48 ≤ c ≤ 57)%N.

Definition to_ascii_uppercase_char (c : N) : N :=
  if bool_decide (97 ≤ c ≤ 122)%N then (c - 32)%N else c.
Definition to_ascii_lowercase_char (c : N) : N :=
  if bool_decide (65 ≤ c ≤ 90)%N then (c + 32)%N else c.
Definition to_ascii_uppercase (s : str) : str := map to_ascii_uppercase_char s.
Definition to_ascii_lowercase (s : str) : str := map to_ascii_lowercase_char s.
Definition eq_ignore_ascii_case (s t : str) : bool :=
  bool_decide (to_ascii_lowercase s = to_ascii_lowercase t).

(** ** Searching *)
Fixpoint starts_with (p s : str) : bool :=
  match p, s with
  | [], _ => true
  | x :: p', y :: s' => bool_decide (x = y) && starts_with p' s'
  | _, _ => false
  end.

Definition ends_with (p s : str) : bool := starts_with (reverse p) (reverse s).

Fixpoint contains (p s : str) : bool :=
  starts_with p s || match s with [] => false | _ :: s' => contains p s' end.

(** [find(pat)] and [rfind(pat)]: where the pattern first, or last, begins. *)
Fixpoint find_sub (p s : str) : option nat :=
  if starts_with p s then Some 0
  else match s with [] => None | _ :: s' => S <$> find_sub p s' end.
Fixpoint rfind_sub (p s : str) : option nat :=
  match (match s with [] => None | _ :: s' => S <$> rfind_sub p s' end) with
  | Some i => Some i
  | None => if starts_with p s then Some 0 else None
  end.

(** ** Trimming *)
Fixpoint trim_start_by (g : N → bool) (s : str) : str :=
  match s with
  | c :: s' => if g c then trim_start_by g s' else s
  | [] => []
  end.
Definition trim_end_by (g : N → bool) (s : str) : str := reverse (trim_start_by g (reverse s)).
Definition trim_by (g : N → bool) (s : str) : str := trim_end_by g (trim_start_by g s).
Definition trim (s : str) : str := trim_by is_whitespace s.
Definition trim_start (s : str) : str := trim_start_by is_whitespace s.

(** ** Splitting *)

(** [split(pred)]: the pieces between the matching elements; [n] matches give
    [n + 1] pieces. *)
Fixpoint split_by {A} (g : A → bool) (s : list A) : list (list A) :=
  match s with
  | [] => [[]]
  | c :: s' =>
    if g c then [] :: split_by g s'
    else match split_by g s' with
         | p :: ps => (c :: p) :: ps
         | [] => [[c]]
         end
  end.

Definition split_char (c : N) (s : str) : list str := split_by (λ x, bool_decide (x = c)) s.

Definition split_whitespace (s : str) : list str :=
  filter (λ p, p ≠ []) (split_by is_whitespace s).

(** [strip_suffix(c)] *)
Definition strip_last {A} `{EqDecision A} (c : A) (s : list A) : list A :=
  match last s with
  | Some x => if decide (x = c) then take (length s - 1) s else s
  | None => s
  end.

(** [lines]: the lines lose their line feed and one carriage return before it;
    what follows the last line feed is a line of its own, unless empty. *)
Definition lines (s : str) : list str :=
  let ps := split_char NL s in
  let ended := take (length ps - 1) ps in
  map (strip_last CR) ended ++ filter (λ p, p ≠ []) (drop (length ps - 1) ps).

(** ** Numbers *)
Fixpoint digits_value (acc : N) (s : str) : option N :=
  match s with
  | [] => Some acc
  | c :: s' => if is_ascii_digit c then digits_value (10 * acc + (c - 48)) s' else None
  end.

(** [parse] to an unsigned integer with maximum [mx]: an optional plus sign,
    at least one digit, and no overflow. *)
Definition parse_uint (mx : N) (s : str) : option N :=
  let ds := match s with 43%N :: s' => s' | _ => s end in
  if decide (ds = []) then None
  else v ← digits_value 0 ds; if decide (v <= mx)%N then Some v else None.

Definition parse_u64 : str → option N := parse_uint u64_max.

(** [format!] of an unsigned integer *)
Definition show_N (n : N) : str := lit (pretty n).

(** [join(sep)] *)
Fixpoint join (sep : str) (l : list str) : str :=
  match l with
  | [] => []
  | [s] => s
  | s :: l' => s ++ sep ++ join sep l'
  end.

(** ** UTF-8 *)
Definition byte_of (n : N) : byte := default Byte.x00 (Byte.of_N n).
Definition cont (b : byte) : bool := bool_decide (0x80 ≤ Byte.to_N b ≤ 0xBF)%N.
Definition cbits (b : byte) : N := Byte.to_N b - 0x80.

(** The second byte of a sequence whose first is [lead] (3 and 4 bytes): no
    overlong form, no surrogate, nothing above U+10FFFF. *)
Definition second_ok (lead : N) (b : byte) : bool :=
  let n := Byte.to_N b in
  let within lo hi := bool_decide (lo ≤ n ≤ hi)%N in
  match lead with
  | 0xE0 => within 0xA0 0xBF
  | 0xED => within 0x80 0x9F
  | 0xF0 => within 0x90 0xBF
  | 0xF4 => within 0x80 0x8F
  | _ => within 0x80 0xBF
  end%N.

(** One step of the decoder: the code point at the head, or [None] for an
    invalid sequence, and the bytes it takes. *)
Definition utf8_step (b0 : byte) (rest : bytes) : option N * nat :=
  let n0 := Byte.to_N b0 in
  if decide (n0 < 0x80)%N then (Some n0, 1)
  else if decide (0xC2 ≤ n0 ≤ 0xDF)%N then
    match rest with
    | b1 :: _ => if cont b1 then (Some ((n0 - 0xC0) * 64 + cbits b1)%N, 2) else (None, 1)
    | [] => (None, 1)
    end
  else if decide (0xE0 ≤ n0 ≤ 0xEF)%N then
    match rest with
    | b1 :: rest' =>
      if second_ok n0 b1 then
        match rest' with
        | b2 :: _ => if cont b2 then (Some ((n0 - 0xE0) * 4096 + cbits b1 * 64 + cbits b2)%N, 3) else (None, 2)
        | [] => (None, 2)
        end
      else (None, 1)
    | [] => (None, 1)
    end
  else if decide (0xF0 ≤ n0 ≤ 0xF4)%N then
    match rest with
    | b1 :: rest' =>
      if second_ok n0 b1 then
        match rest' with
        | b2 :: rest'' =>
          if cont b2 then
            match rest'' with
            | b3 :: _ =>
              if cont b3
              then (Some ((n0 - 0xF0) * 262144 + cbits b1 * 4096 + cbits b2 * 64 + cbits b3)%N, 4)
              else (None, 3)
            | [] => (None, 3)
            end
          else (None, 2)
        | [] => (None, 2)
        end
      else (None, 1)
    | [] => (None, 1)
    end
  else (None, 1).

(** The decoded sequence; every step takes at least one byte. *)
Fixpoint utf8_chunks (fuel : nat) (b : bytes) : list (option N) :=
  match fuel, b with
  | S fuel', b0 :: rest =>
    let '(c, k) := utf8_step b0 rest in c :: utf8_chunks fuel' (drop (k - 1) rest)
  | _, _ => []
  end.

(** [String::from_utf8_lossy] *)
Definition from_utf8_lossy (b : bytes) : str :=
  default REPLACEMENT <$> utf8_chunks (length b) b.

(** [str::from_utf8] *)
Definition from_utf8 (b : bytes) : option str :=
  let cs := utf8_chunks (length b) b in
  if forallb (λ c, bool_decide (is_Some c)) cs then Some (default REPLACEMENT <$> cs) else None.

Definition utf8_char (c : N) : bytes :=
  if decide (c < 0x80)%N then [byte_of c]
  else if decide (c < 0x800)%N then [byte_of (0xC0 + c `div` 64); byte_of (0x80 + c `mod` 64)]
  else if decide (c < 0x10000)%N then
    [byte_of (0xE0 + c `div` 4096); byte_of (0x80 + (c `div` 64) `mod` 64); byte_of (0x80 + c `mod` 64)]
  else
    [byte_of (0xF0 + c `div` 262144); byte_of (0x80 + (c `div` 4096) `mod` 64);
     byte_of (0x80 + (c `div` 64) `mod` 64); byte_of (0x80 + c `mod` 64)].

(** The bytes of a string. *)
Definition as_bytes (s : str) : bytes := s ≫= utf8_char.

(** Strings in order, as [sort] puts them. *)
Fixpoint str_leb (a b : str) : bool :=
  match a, b with
  | [], _ => true
  | _, [] => false
  | x :: a', y :: b' => if decide (x = y) then str_leb a' b' else bool_decide (x < y)%N
  end.
Definition str_le (a b : str) : Prop := str_leb a b = true.
#[export] Instance str_le_dec : RelDecision str_le.
Proof. intros a b. unfold str_le. apply _. Defined.

(** ** Lemmas *)
Lemma lower_app s t : to_ascii_lowercase (s ++ t) = to_ascii_lowercase s ++ to_ascii_lowercase t.
Proof. apply map_app. Qed.

Lemma split_by_ne {A} (g : A → bool) s : split_by g s ≠ [].
Proof. destruct s as [|c s]; simpl; [done|]. destruct (g c); [done|]. by destruct (split_by g s). Qed.

(** The pieces hold no separator, and rejoin to the list. *)
Lemma split_by_pieces {A} (g : A → bool) s :
  Forall (Forall (λ x, g x = false)) (split_by g s).
Proof.
  induction s as [|c s IH]; simpl; [by repeat constructor|].
  destruct (g c) eqn:Hc; [by constructor|].
  destruct (split_by g s) as [|p ps]; [by repeat constructor|].
  apply Forall_cons in IH as [Hp Hps]. by repeat constructor.
Qed.

Lemma split_by_app {A} (g : A → bool) s x t :
  Forall (λ y, g y = false) s → g x = true → split_by g (s ++ x :: t) = s :: split_by g t.
Proof.
  intros Hs Hx. induction Hs as [|y s Hy _ IH]; simpl; [by rewrite Hx|]. by rewrite Hy, IH.
Qed.

Lemma split_by_none {A} (g : A → bool) s : Forall (λ y, g y = false) s → split_by g s = [s].
Proof. induction 1 as [|y s Hy _ IH]; simpl; [done|]. by rewrite Hy, IH. Qed.

Lemma starts_with_spec p s : starts_with p s = true ↔ ∃ t, s = p ++ t.
Proof.
  revert s. induction p as [|x p IH]; intros s; simpl; [split; eauto|].
  destruct s as [|y s]; [split; [done|by intros [? [=]]]|].
  rewrite andb_true_iff, bool_decide_eq_true, IH. split.
  - intros [-> [t ->]]. by exists t.
  - intros [t [= -> ->]]. eauto.
Qed.

(** The pieces of a list with a separator in it. *)
Lemma split_by_sep {A} (g : A → bool) s x t :
  g x = true → split_by g (s ++ x :: t) = split_by g s ++ split_by g t.
Proof.
  intros Hx. induction s as [|y s IH]; simpl; [by rewrite Hx|]. rewrite IH.
  destruct (g y); [done|]. pose proof (split_by_ne g s). by destruct (split_by g s).
Qed.

(** What trimming takes off, and where it stops. *)
Lemma trim_start_by_spec g s :
  (∃ a, s = a ++ trim_start_by g s ∧ Forall (λ c, g c = true) a) ∧
  ∀ c, head (trim_start_by g s) = Some c → g c = false.
Proof.
  induction s as [|c s [(a & Ha & Hg) Hh]]; simpl; [split; [by exists []|done]|].
  destruct (g c) eqn:Hc; [|split; [by exists []|by intros ? [= <-]]].
  split; [exists (c :: a); split; [simpl; congruence|by constructor]|done].
Qed.

Lemma trim_end_by_spec g s :
  (∃ b, s = trim_end_by g s ++ b ∧ Forall (λ c, g c = true) b) ∧
  ∀ c, last (trim_end_by g s) = Some c → g c = false.
Proof.
  unfold trim_end_by. destruct (trim_start_by_spec g (reverse s)) as [(a & Ha & Hg) Hh]. split.
  - exists (reverse a). split; [|by apply Forall_reverse].
    rewrite <-reverse_app, <-Ha. by rewrite reverse_involutive.
  - intros c. rewrite last_reverse. apply Hh.
Qed.

Lemma trim_by_spec g s :
  ∃ a b, s = a ++ trim_by g s ++ b ∧ Forall (λ c, g c = true) a ∧ Forall (λ c, g c = true) b ∧
    (∀ c, head (trim_by g s) = Some c → g c = false) ∧ (∀ c, last (trim_by g s) = Some c → g c = false).
Proof.
  unfold trim_by. destruct (trim_start_by_spec g s) as [(a & Ha & Hga) Hh].
  destruct (trim_end_by_spec g (trim_start_by g s)) as [(b & Hb & Hgb) Hl].
  exists a, b. rewrite <-Hb. repeat split; try done.
  intros c Hc. apply Hh. rewrite Hb. by destruct (trim_end_by g _).
Qed.

Lemma trim_start_by_id g s : (∀ c, head s = Some c → g c = false) → trim_start_by g s = s.
Proof. destruct s as [|c s]; simpl; [done|]. intros H. by rewrite H. Qed.

Lemma trim_by_id g s :
  (∀ c, head s = Some c → g c = false) → (∀ c, last s = Some c → g c = false) → trim_by g s = s.
Proof.
  intros Hh Hl. unfold trim_by, trim_end_by. rewrite (trim_start_by_id g s) by done.
  rewrite trim_start_by_id; [apply reverse_involutive|]. intros c. rewrite head_reverse. apply Hl.
Qed.

Lemma trim_by_elem_of g s c : c ∈ trim_by g s → c ∈ s.
Proof.
  destruct (trim_by_spec g s) as (a & b & Hs & _). intros Hc. rewrite Hs.
  rewrite !elem_of_app. auto.
Qed.

Lemma starts_with_app p s t : starts_with p s = true → starts_with p (s ++ t) = true.
Proof. rewrite !starts_with_spec. intros [u ->]. exists (u ++ t). by rewrite <-app_assoc. Qed.

Lemma find_sub_Some p s i :
  find_sub p s = Some i →
  (∃ t, s = take i s ++ p ++ t) ∧ i ≤ length s ∧ ∀ j, j < i → starts_with p (drop j s) = false.
Proof.
  revert i. induction s as [|c s IH]; intros i; simpl; destruct (starts_with p _) eqn:Hp.
  - intros [= <-]. apply starts_with_spec in Hp as [t Ht]. split; [by exists t|]. split; [lia|intros; lia].
  - done.
  - intros [= <-]. apply starts_with_spec in Hp as [t Ht]. split; [by exists t|]. split; [lia|intros; lia].
  - intros (k & Hk & ->)%fmap_Some. simpl in *. destruct (IH _ Hk) as ([t Ht] & Hlen & Hb).
    split; [exists t; congruence|]. split; [lia|]. intros [|j] Hj; [done|]. apply Hb. lia.
Qed.

Lemma find_sub_None p s j : find_sub p s = None → starts_with p (drop j s) = false.
Proof.
  revert j. induction s as [|c s IH]; intros j; simpl; destruct (starts_with p _) eqn:Hp; try done.
  - intros _. by destruct j.
  - intros Hf%fmap_None. destruct j as [|j]; [done|]. simpl. by apply IH.
Qed.

(** A pattern that begins nowhere before is found where it stands. *)
Lemma find_sub_at p s i :
  i ≤ length s → starts_with p (drop i s) = true →
  (∀ j, j < i → starts_with p (drop j s) = false) → find_sub p s = Some i.
Proof.
  revert i. induction s as [|c s IH]; intros i Hi Hat Hb.
  - simpl in Hi. assert (i = 0) as -> by lia. simpl in *. by rewrite Hat.
  - simpl. destruct i as [|i]; simpl in *; [by rewrite Hat|].
    pose proof (Hb 0 ltac:(lia)) as H0. simpl in H0. rewrite H0, (IH i); [done|lia|done|]. intros j Hj. apply (Hb (S j)). lia.
Qed.

Lemma rfind_sub_Some p s i :
  rfind_sub p s = Some i →
  (∃ t, s = take i s ++ p ++ t) ∧ i ≤ length s ∧ ∀ j, i < j → j ≤ length s → starts_with p (drop j s) = false.
Proof.
  revert i. induction s as [|c s IH]; intros i; simpl.
  - destruct (starts_with p []) eqn:Hp; [|done]. intros [= <-].
    apply starts_with_spec in Hp as [t Ht]. split; [by exists t|]. split; [lia|intros; lia].
  - assert (∀ k, rfind_sub p s = None → k ≤ length s → starts_with p (drop k s) = false) as Hnone.
    { clear IH. induction s as [|d s IH]; intros k; simpl.
      - destruct (starts_with p []) eqn:E; [done|]. by rewrite drop_nil.
      - destruct (rfind_sub p s) eqn:E; [done|]. simpl. destruct (starts_with p (d :: s)) eqn:E2; [done|].
        intros _ Hk. destruct k as [|k]; [done|]. apply IH; [done|lia]. }
    destruct (rfind_sub p s) as [k|] eqn:Hk; simpl.
    + intros [= <-]. destruct (IH _ eq_refl) as ([t Ht] & Hlen & Hb).
      simpl. split; [exists t; congruence|]. split; [lia|]. intros [|j] Hj Hjl; [lia|]. simpl. apply Hb; lia.
    + destruct (starts_with p (c :: s)) eqn:Hp; [|done]. intros [= <-].
      apply starts_with_spec in Hp as [t Ht]. split; [by exists t|]. split; [lia|].
      intros [|j] Hj Hjl; [lia|]. apply Hnone; [done|lia].
Qed.

Lemma rfind_sub_None p s j : rfind_sub p s = None → j ≤ length s → starts_with p (drop j s) = false.
Proof.
  revert j. induction s as [|c s IH]; intros j; simpl.
  - destruct (starts_with p []) eqn:E; [done|]. by rewrite drop_nil.
  - destruct (rfind_sub p s) eqn:E; [done|]. simpl. destruct (starts_with p (c :: s)) eqn:E2; [done|].
    intros _ Hj. destruct j as [|j]; [done|]. apply IH; [done|lia].
Qed.

Lemma rfind_sub_at p s i :
  i ≤ length s → starts_with p (drop i s) = true →
  (∀ j, i < j → j ≤ length s → starts_with p (drop j s) = false) → rfind_sub p s = Some i.
Proof.
  intros Hi Hat Hb. destruct (rfind_sub p s) as [k|] eqn:Hk.
  - destruct (rfind_sub_Some _ _ _ Hk) as ([t Ht] & Hkl & Hkb).
    destruct (decide (k = i)) as [->|]; [done|]. exfalso.
    assert (starts_with p (drop k s) = true) as Hs.
    { apply starts_with_spec. exists t. rewrite Ht at 1. rewrite drop_app_length'; [done|].
      rewrite length_take. lia. }
    destruct (decide (i < k)); [rewrite Hb in Hs; [done|lia|lia]|].
    rewrite Hkb in Hat; [done|lia|lia].
  - by rewrite (rfind_sub_None _ _ _ Hk Hi) in Hat.
Qed.

Lemma contains_false p s : contains p s = false ↔ ∀ j, starts_with p (drop j s) = false.
Proof.
  induction s as [|c s IH]; simpl.
  - rewrite orb_false_r. split; [intros H j; by rewrite drop_nil|intros H; exact (H 0)].
  - rewrite orb_false_iff, IH. split.
    + intros [H1 H2] [|j]; [done|apply H2].
    + intros H. split; [exact (H 0)|intros j; exact (H (S j))].
Qed.

Lemma to_N_byte_of n : (n < 256)%N → Byte.to_N (byte_of n) = n.
Proof.
  intros Hn. unfold byte_of. destruct (Byte.of_N n) as [b|] eqn:Hb; simpl.
  - by apply Byte.to_of_N.
  - apply Byte.of_N_None_iff in Hb. lia.
Qed.

(** ** Numbers and their digits *)
Lemma pretty_N_char_digit x :
  (x < 10)%N → Ascii.N_of_ascii (pretty_N_char x) = (48 + x)%N.
Proof.
  intros Hx.
  assert (x = 0 ∨ x = 1 ∨ x = 2 ∨ x = 3 ∨ x = 4 ∨ x = 5 ∨ x = 6 ∨ x = 7 ∨ x = 8 ∨ x = 9)%N as Hc by lia.
  by repeat (destruct Hc as [->|Hc]; [done|]); subst x.
Qed.

Lemma lit_cons c s : lit (String c s) = Ascii.N_of_ascii c :: lit s.
Proof. done. Qed.

Lemma digits_value_go x s :
  digits_value 0 (lit (pretty_N_go x s)) = digits_value x (lit s).
Proof.
  revert s. induction (N.lt_wf_0 x) as [x _ IH]; intros s.
  destruct (decide (x = 0)%N) as [->|Hx]; [by rewrite pretty_N_go_0|].
  rewrite pretty_N_go_step by lia. rewrite IH by (apply N.div_lt; lia).
  rewrite lit_cons. simpl. rewrite pretty_N_char_digit by (apply N.mod_lt; lia).
  pose proof (N.mod_lt x 10 ltac:(lia)) as Hr. pose proof (N.div_mod' x 10) as Hd.
  revert Hr Hd. generalize (x mod 10)%N (x / 10)%N. intros r q Hr ->.
  unfold is_ascii_digit. rewrite bool_decide_eq_true_2 by lia. f_equal. lia.
Qed.

Lemma digits_go x s : Forall (λ c, is_ascii_digit c = true) (lit s) →
  Forall (λ c, is_ascii_digit c = true) (lit (pretty_N_go x s)).
Proof.
  revert s. induction (N.lt_wf_0 x) as [x _ IH]; intros s Hs.
  destruct (decide (x = 0)%N) as [->|Hx]; [by rewrite pretty_N_go_0|].
  rewrite pretty_N_go_step by lia. apply IH; [apply N.div_lt; lia|].
  rewrite lit_cons. constructor; [|done]. rewrite pretty_N_char_digit by (apply N.mod_lt; lia).
  pose proof (N.mod_lt x 10 ltac:(lia)) as Hr. revert Hr. generalize (x mod 10)%N. intros r Hr.
  apply bool_decide_eq_true. lia.
Qed.

Lemma show_N_digits n : Forall (λ c, is_ascii_digit c = true) (show_N n).
Proof.
  unfold show_N, pretty, pretty_N. case_decide; [by repeat constructor|]. by apply digits_go.
Qed.

Lemma digits_value_show n : digits_value 0 (show_N n) = Some n.
Proof.
  unfold show_N, pretty, pretty_N. case_decide as Hn; [by rewrite Hn|]. by rewrite digits_value_go.
Qed.

Lemma show_N_nonempty n : show_N n ≠ [].
Proof.
  intros E. pose proof (digits_value_show n) as Hd. rewrite E in Hd. injection Hd as <-. by vm_compute in E.
Qed.

(** Reading back a number that was written out. *)
Lemma parse_uint_show mx n : (n ≤ mx)%N → parse_uint mx (show_N n) = Some n.
Proof.
  intros Hn. unfold parse_uint.
  pose proof (show_N_digits n) as Hd. pose proof (show_N_nonempty n) as Hne. pose proof (digits_value_show n) as Hv.
  assert (match show_N n with 43%N :: s' => s' | _ => show_N n end = show_N n) as ->.
  { destruct (show_N n) as [|c s]; [done|]. apply Forall_cons in Hd as [Hc _].
    destruct (decide (c = 43)%N) as [->|]; [done|]. repeat (case_match; try done); congruence. }
  rewrite decide_False by done. rewrite Hv. simpl. by rewrite decide_True.
Qed.

(** The scalar values: what a [char] can be. *)
Definition scalar (c : N) : Prop := (c < 0xD800 ∨ 0xE000 ≤ c < 0x110000)%N.

Lemma cont_byte_of n : (n < 64)%N → cont (byte_of (0x80 + n)) = true ∧ cbits (byte_of (0x80 + n)) = n.
Proof.
  intros Hn. unfold cont, cbits. rewrite to_N_byte_of by lia. split; [|lia].
  apply bool_decide_eq_true. lia.
Qed.

Lemma second_ok_intro lead n :
  (n < 64)%N → (lead = 0xE0 → 0x20 ≤ n)%N → (lead = 0xED → n < 0x20)%N →
  (lead = 0xF0 → 0x10 ≤ n)%N → (lead = 0xF4 → n < 0x10)%N →
  second_ok lead (byte_of (0x80 + n)) = true.
Proof.
  intros Hn H1 H2 H3 H4. unfold second_ok. rewrite to_N_byte_of by lia.
  destruct (decide (lead = 0xE0)%N) as [->|]; [apply bool_decide_eq_true; lia|].
  destruct (decide (lead = 0xED)%N) as [->|]; [apply bool_decide_eq_true; lia|].
  destruct (decide (lead = 0xF0)%N) as [->|]; [apply bool_decide_eq_true; lia|].
  destruct (decide (lead = 0xF4)%N) as [->|]; [apply bool_decide_eq_true; lia|].
  assert (bool_decide (0x80 ≤ 0x80 + n ≤ 0xBF)%N = true) as Hb by (apply bool_decide_eq_true; lia).
  repeat (case_match; simplify_eq; try done).
Qed.

Lemma utf8_step_char c :
  scalar c → ∃ b0 bs, utf8_char c = b0 :: bs ∧
    ∀ rest, utf8_step b0 (bs ++ rest) = (Some c, S (length bs)).
Proof.
  intros Hc. unfold utf8_char.
  pose proof (N.mod_lt c 64 ltac:(lia)) as Hm0. pose proof (N.div_mod' c 64) as Hd0.
  pose proof (N.mod_lt (c `div` 64) 64 ltac:(lia)) as Hm1. pose proof (N.div_mod' (c `div` 64) 64) as Hd1.
  pose proof (N.mod_lt (c `div` 4096) 64 ltac:(lia)) as Hm2. pose proof (N.div_mod' (c `div` 4096) 64) as Hd2.
  assert ((c `div` 64) `div` 64 = c `div` 4096)%N as E1 by by rewrite N.Div0.div_div.
  assert ((c `div` 4096) `div` 64 = c `div` 262144)%N as E2 by by rewrite N.Div0.div_div.
  rewrite E1 in Hd1. rewrite E2 in Hd2. unfold scalar in Hc.
  destruct (cont_byte_of (c `mod` 64) Hm0) as [C0 V0].
  destruct (cont_byte_of ((c `div` 64) `mod` 64) Hm1) as [C1 V1].
  destruct (cont_byte_of ((c `div` 4096) `mod` 64) Hm2) as [C2 V2].
  case_decide as H1; [|case_decide as H2; [|case_decide as H3]].
  - exists (byte_of c), []. split; [done|]. intros rest. unfold utf8_step. rewrite to_N_byte_of by lia.
    by rewrite decide_True.
  - eexists _, [_]. split; [done|]. intros rest. unfold utf8_step. rewrite to_N_byte_of by lia.
    rewrite decide_False, decide_True by lia. simpl. rewrite C0, V0. do 2 f_equal. lia.
  - eexists _, [_; _]. split; [done|]. intros rest. unfold utf8_step. rewrite to_N_byte_of by lia.
    rewrite decide_False, decide_False, decide_True by lia. cbn [app]. rewrite second_ok_intro by lia.
    rewrite C0, V0, V1. do 2 f_equal. lia.
  - eexists _, [_; _; _]. split; [done|]. intros rest. unfold utf8_step. rewrite to_N_byte_of by lia.
    rewrite decide_False, decide_False, decide_False, decide_True by lia. cbn [app].
    rewrite second_ok_intro by lia. rewrite C1, C0, V0, V1, V2. do 2 f_equal. lia.
Qed.

Lemma utf8_chunks_char c fuel rest :
  scalar c → length (utf8_char c ++ rest) ≤ fuel →
  utf8_chunks fuel (utf8_char c ++ rest) = Some c :: utf8_chunks (fuel - 1) rest.
Proof.
  intros Hc Hf. destruct (utf8_step_char c Hc) as (b0 & bs & E & Hs).
  rewrite E in *. destruct fuel as [|fuel]; [simpl in Hf; lia|]. simpl. rewrite Hs. simpl.
  rewrite !Nat.sub_0_r. by rewrite drop_app_length.
Qed.

Lemma utf8_char_length c : 1 ≤ length (utf8_char c).
Proof. unfold utf8_char. repeat case_decide; simpl; lia. Qed.

Lemma byte_of_to_N n : (0 < Byte.to_N (byte_of n))%N → Byte.to_N (byte_of n) = n.
Proof.
  unfold byte_of. destruct (Byte.of_N n) eqn:E; simpl; [by intros _; apply Byte.to_of_N|lia].
Qed.

Lemma high_byte k x : (128 <= k)%N → ¬ (k + x < 128)%N.
Proof. lia. Qed.

(** An ASCII byte stands for itself only. *)
Lemma utf8_char_ascii c b : b ∈ utf8_char c → (0 < Byte.to_N b < 128)%N → c = Byte.to_N b.
Proof.
  unfold utf8_char. intros Hb Hn.
  repeat case_decide; repeat (apply elem_of_cons in Hb as [->|Hb]); try (by apply elem_of_nil in Hb);
    pose proof (byte_of_to_N _ (proj1 Hn)) as E; rewrite E in *; try done;
    (exfalso; eapply high_byte; [|apply Hn]; done).
Qed.

Lemma as_bytes_ascii s b : b ∈ as_bytes s → (0 < Byte.to_N b < 128)%N → Byte.to_N b ∈ s.
Proof.
  intros (c & Hb & Hc)%list_elem_of_bind Hn. by rewrite <-(utf8_char_ascii c b).
Qed.

Lemma as_bytes_cons c s : as_bytes (c :: s) = utf8_char c ++ as_bytes s.
Proof. done. Qed.

Lemma utf8_chunks_string s fuel :
  Forall scalar s → length (as_bytes s) ≤ fuel → utf8_chunks fuel (as_bytes s) = Some <$> s.
Proof.
  intros Hs. revert fuel. induction Hs as [|c s Hc _ IH]; intros fuel Hf.
  - by destruct fuel.
  - rewrite as_bytes_cons in *. rewrite utf8_chunks_char by done. rewrite length_app in Hf. pose proof (utf8_char_length c).
    rewrite IH by lia. done.
Qed.

(** Decoding what was encoded. *)
Lemma from_utf8_as_bytes s : Forall scalar s → from_utf8 (as_bytes s) = Some s.
Proof.
  intros Hs. unfold from_utf8. rewrite utf8_chunks_string by done.
  replace (forallb _ (Some <$> s)) with true.
  - f_equal. rewrite <-list_fmap_compose. apply list_fmap_id.
  - symmetry. apply forallb_forall. intros o (c & -> & _)%list_elem_of_In%list_elem_of_fmap. done.
Qed.

Lemma from_utf8_lossy_as_bytes s : Forall scalar s → from_utf8_lossy (as_bytes s) = s.
Proof.
  intros Hs. unfold from_utf8_lossy. rewrite utf8_chunks_string by done.
  rewrite <-list_fmap_compose. apply list_fmap_id.
Qed.

(** ** The order of strings *)
#[export] Instance str_le_total : Total str_le.
Proof.
  unfold str_le. intros a. induction a as [|x a IH]; intros [|y b]; simpl; auto.
  repeat case_decide; subst; try done; rewrite ?bool_decide_eq_true; try lia.
Qed.
#[export] Instance str_le_antisymm : AntiSymm (=) str_le.
Proof.
  unfold str_le. intros a. induction a as [|x a IH]; intros [|y b]; simpl; try done.
  repeat case_decide; subst; try done; rewrite ?bool_decide_eq_true; try lia.
  intros ??. f_equal. by apply IH.
Qed.
#[export] Instance str_le_trans : Transitive str_le.
Proof.
  unfold str_le. intros a. induction a as [|x a IH]; intros [|y b] [|z c]; simpl; try done.
  repeat case_decide; subst; try done; rewrite ?bool_decide_eq_true; try lia. apply IH.
Qed.
