(* ===== verification/Path.v ===== *)
(** * Names made safe for the file system

    [crates/nzb-core/src/path.rs]: joining an untrusted name beneath a root,
    job names that are one valid directory name everywhere, and the password
    conventions of job names. A path is the list of its code points, as a Unix
    [PathBuf] reads them; Unicode normalisation is third-party code. *)
From S2P Require Import Prelude Str.

(** ** Paths of the standard library (Unix) *)
Definition SLASH : N := 47.
Definition DOT : N := 46.

Inductive Component := RootDir | CurDir | ParentDir | Normal (s : str).
#[export] Instance component_eq_dec : EqDecision Component.
Proof. solve_decision. Defined.

Definition piece (s : str) : option Component :=
  if decide (s = [] ∨ s = [DOT]) then None
  else if decide (s = [DOT; DOT]) then Some ParentDir else Some (Normal s).

Definition is_absolute (p : str) : bool := bool_decide (head p = Some SLASH).

(** [Path::components] *)
Definition components (p : str) : list Component :=
  let ps := split_char SLASH p in
  (if is_absolute p then [RootDir] else if decide (head ps = Some [DOT]) then [CurDir] else [])
  ++ omap piece ps.

(** [PathBuf::push] *)
Definition push (p c : str) : str :=
  if is_absolute c then c
  else if decide (p = [] ∨ last p = Some SLASH) then p ++ c else p ++ SLASH :: c.

(** [Path::starts_with] *)
Definition path_starts_with (p root : str) : bool :=
  bool_decide (take (length (components root)) (components p) = components root).

(** ** Joining beneath a root *)

(** [char::is_control] *)
Definition is_control (c : N) : bool := bool_decide (c < 32 ∨ 127 ≤ c < 160)%N.

Definition normalize_separators (name : str) : str := (λ c, if decide (c = 92)%N then SLASH else c) <$> name.

Fixpoint push_components (output : str) (ps : list str) : option str :=
  match ps with
  | [] => Some output
  | c :: ps' =>
    if decide (c = [] ∨ c = [DOT]) then push_components output ps'
    else if decide (c = [DOT; DOT]) then None
    else push_components (push output c) ps'
  end.

Definition safe_join (root name : str) : option str :=
  let normalized := normalize_separators name in
  if bool_decide (normalized = []) || is_absolute normalized
     || bool_decide (as_bytes normalized !! 1 = Some Byte.x3a) || existsb is_control normalized
  then None
  else
    output ← push_components root (split_char SLASH normalized);
    if path_starts_with output root then Some output else None.

Definition is_bidi_or_invisible_control (ch : N) : bool :=
  bool_decide ((0x202A ≤ ch ≤ 0x202E) ∨ (0x2066 ≤ ch ≤ 0x2069) ∨ ch = 0x200E ∨ ch = 0x200F ∨
    ch = 0x061C ∨ ch = 0x200B ∨ ch = 0xFEFF)%N.

Definition safe_component (value : str) : option str :=
  if bool_decide (value = []) || bool_decide (value = [DOT]) || bool_decide (value = [DOT; DOT])
     || existsb (λ c, bool_decide (c = SLASH)) value || existsb (λ c, bool_decide (c = 92%N)) value
     || existsb is_control value || existsb is_bidi_or_invisible_control value
  then None else Some value.

Definition category_output_root (complete_dir output_dir : str) : option str :=
  if is_absolute output_dir then
    if negb (existsb (λ c, bool_decide (c = ParentDir)) (components output_dir))
       && negb (existsb is_control output_dir)
    then Some output_dir else None
  else safe_join complete_dir output_dir.

(** ** Job names *)
Definition MAX_JOB_NAME_BYTES : nat := 240.
Definition UNNAMED_JOB : str := lit "unnamed".

(** [char]s of a normalised name to their replacements; [prev] is what was
    written so far. *)
Definition illegal (c : N) : bool := bool_decide (c ∈ lit "<>/\|?*" ++ [34%N]).

Fixpoint replace_chars (replaced chars : str) : str :=
  match chars with
  | [] => replaced
  | ch :: rest =>
    replace_chars
      (replaced ++
       (if decide (ch = 58)%N then
          if match head rest with Some next => is_whitespace next | None => false end
             && negb (match last replaced with Some c => is_whitespace c | None => false end)
          then lit " -" else lit "-"
        else if illegal ch then lit "_"
        else if is_control ch then lit "_"
        else if is_bidi_or_invisible_control ch then []
        else [ch])) rest
  end.

Definition trim_name (s : str) : str := trim_by (λ c, is_whitespace c || bool_decide (c = DOT)) s.

(** The longest prefix of whole characters within [n] bytes. *)
Fixpoint truncate (n : nat) (s : str) : str :=
  match s with
  | [] => []
  | c :: s' =>
    if decide (length (utf8_char c) ≤ n) then c :: truncate (n - length (utf8_char c)) s' else []
  end.

Definition is_windows_reserved_name (name : str) : bool :=
  let stem := trim_end_by is_whitespace (default name (head (split_char DOT name))) in
  let upper := to_ascii_uppercase stem in
  bool_decide (upper ∈ [lit "CON"; lit "PRN"; lit "AUX"; lit "NUL"]) ||
  (bool_decide (length (as_bytes upper) = 4) &&
   (starts_with (lit "COM") upper || starts_with (lit "LPT") upper) &&
   match as_bytes upper !! 3 with Some b => bool_decide (49 ≤ Byte.to_N b ≤ 57)%N | None => false end).

Section names.
Context (nfc : str → str).

Definition sanitize_job_name (name : str) : str :=
  let out := trim_name (replace_chars [] (nfc name)) in
  if decide (out = []) then UNNAMED_JOB
  else
    let out := if is_windows_reserved_name out then 95%N :: out else out in
    if decide (MAX_JOB_NAME_BYTES < length (as_bytes out))
    then trim_name (truncate MAX_JOB_NAME_BYTES out) else out.
End names.

(** ** Passwords in job names *)

(** One turn of the loop of [strip_nzb_extensions]: the name without its
    extension, when that is one of the three. *)
Definition strip_extension (name : str) : option str :=
  let base_start := match rfind_sub [SLASH] name with Some index => index + 1 | None => 0 end in
  let base := drop base_start name in
  let leading := length base - length (trim_start_by (λ c, bool_decide (c = DOT)) base) in
  index ← rfind_sub [DOT] (drop leading base);
  let dot := index + leading in
  let ext := drop dot base in
  if existsb (eq_ignore_ascii_case ext) [lit ".nzb"; lit ".par"; lit ".par2"]
  then Some (take (base_start + dot) name) else None.

Fixpoint strip_loop (fuel : nat) (name : str) : str :=
  match fuel with
  | 0 => name
  | S fuel => match strip_extension name with Some name' => strip_loop fuel name' | None => name end
  end.
Definition strip_nzb_extensions (name : str) : str := strip_loop (length name) name.

Definition strip (s : str) : str := trim_by (λ c, bool_decide (c = DOT) || bool_decide (c = SP)) s.

(** A head that is not empty, with its password. *)
Definition named (head pw : str) : option (str * str) := if decide (head = []) then None else Some (head, pw).

Definition by_slash (name : str) (slash : nat) : option (str * str) :=
  named (strip (take slash name)) (drop (slash + 1) name).

Definition by_spaced_slash (name : str) (slash : nat) : option (str * str) :=
  if decide (S <$> find_sub (lit " / ") name = Some slash)
  then named (strip (take (slash - 1) name)) (drop (slash + 2) name) else None.

Definition by_password_word (name : str) : option (str * str) :=
  pw ← find_sub (lit "password=") name;
  if decide (0 < pw) then named (strip (take pw name)) (drop (pw + 9) name) else None.

Definition by_braces (name : str) (braces : nat) : option (str * str) :=
  if decide (braces < length name) then
    closing ← rfind_sub (lit "}}") name;
    if decide (braces < closing)
    then named (strip (take braces name)) (take (closing - (braces + 2)) (drop (braces + 2) name)) else None
  else None.

Definition or_else {A} (a b : option A) : option A := match a with Some _ => a | None => b end.

Definition split_job_password (name : str) : option (str * str) :=
  if contains (lit "http://") name || contains (lit "https://") name then None
  else
    let name := strip_nzb_extensions name in
    let first_len := match name with [] => 0 | _ => 1 end in
    let braces := match find_sub (lit "{{") (drop first_len name) with
                  | Some index => index + first_len | None => length name end in
    let slash := find_sub [SLASH] name in
    or_else
      (slash ← slash;
       if decide (0 < slash ∧ slash < braces ∧ contains (lit "password=") name = false)
       then or_else (by_spaced_slash name slash) (by_slash name slash) else None)
    (or_else (by_password_word name)
    (or_else (by_braces name braces)
       (slash ← slash; if decide (0 < slash) then by_slash name slash else None))).

(** ** Lemmas on paths *)
Lemma is_absolute_app p q : p ≠ [] → is_absolute (p ++ q) = is_absolute p.
Proof. by destruct p. Qed.

Lemma existsb_false {A} (g : A → bool) l : existsb g l = false ↔ ∀ x, x ∈ l → g x = false.
Proof.
  rewrite <-not_true_iff_false, existsb_exists. split.
  - intros H x Hx%list_elem_of_In. destruct (g x) eqn:E; [|done]. destruct H. eauto.
  - intros H (x & Hx%list_elem_of_In & Hg). by rewrite H in Hg.
Qed.

(** A name that is one component. *)
Record one_component (c : str) : Prop := {
  one_nonempty : c ≠ [];
  one_dot : c ≠ [DOT];
  one_dots : c ≠ [DOT; DOT];
  one_slash : SLASH ∉ c;
}.

Lemma one_component_split c : one_component c → split_char SLASH c = [c].
Proof.
  intros []. apply split_by_none, Forall_forall. intros x Hx. apply bool_decide_eq_false. by intros ->.
Qed.

Lemma one_component_piece c : one_component c → piece c = Some (Normal c).
Proof. intros []. unfold piece. rewrite decide_False by tauto. by rewrite decide_False. Qed.

Lemma one_component_relative c : one_component c → is_absolute c = false.
Proof.
  intros []. apply bool_decide_eq_false. destruct c; [done|]. intros [= ->]. apply one_slash0, list_elem_of_here.
Qed.

Lemma split_char_sep c s t : split_char c (s ++ c :: t) = split_char c s ++ split_char c t.
Proof. apply split_by_sep. by apply bool_decide_eq_true. Qed.

Lemma split_char_ne c s : split_char c s ≠ [].
Proof. apply split_by_ne. Qed.

Lemma components_slash q c :
  one_component c → components (q ++ SLASH :: c) = components (q ++ [SLASH]) ++ [Normal c].
Proof.
  intros Hc. unfold components. rewrite !split_char_sep.
  rewrite (one_component_split c Hc). simpl. rewrite !omap_app. simpl. rewrite (one_component_piece c Hc).
  assert (is_absolute (q ++ SLASH :: c) = is_absolute (q ++ [SLASH])) as -> by by destruct q.
  rewrite <-app_assoc. simpl.
  pose proof (split_char_ne SLASH q). destruct (split_char SLASH q); [done|]. by rewrite <-!app_assoc.
Qed.

Lemma components_trailing q : q ≠ [] → components (q ++ [SLASH]) = components q.
Proof.
  intros Hq. unfold components. rewrite split_char_sep.
  rewrite omap_app, is_absolute_app by done. simpl. rewrite app_nil_r.
  pose proof (split_char_ne SLASH q). by destruct (split_char SLASH q).
Qed.

Lemma components_push p c : one_component c → components (push p c) = components p ++ [Normal c].
Proof.
  intros Hc. unfold push. rewrite one_component_relative by done. case_decide as Hp.
  - destruct Hp as [->|[q ->]%last_Some].
    + simpl. unfold components. rewrite one_component_split, one_component_relative by done. simpl.
      rewrite one_component_piece by done. rewrite decide_False; [done|]. destruct Hc. congruence.
    + rewrite <-app_assoc. by apply components_slash.
  - rewrite components_slash by done. rewrite components_trailing by tauto. done.
Qed.

(** Pushing pieces: the proper ones in order, unless one is a parent. *)
Lemma push_components_spec ps output :
  Forall (λ c, SLASH ∉ c) ps →
  match push_components output ps with
  | Some p => ([DOT; DOT] ∉ ps) ∧
      components p = components output ++ (Normal <$> filter (λ c, c ≠ [] ∧ c ≠ [DOT]) ps)
  | None => ([DOT; DOT] ∈ ps)
  end.
Proof.
  intros Hps. revert output. induction Hps as [|c ps Hc _ IH]; intros output; simpl.
  - split; [by apply not_elem_of_nil|]. by rewrite app_nil_r.
  - case_decide as H1; [|case_decide as H2].
    + specialize (IH output). rewrite filter_cons_False by tauto.
      destruct (push_components output ps).
      * destruct IH. split; [|done]. intros [Hd|]%elem_of_cons; [|done]. rewrite <-Hd in H1. naive_solver.
      * by right.
    + subst c. apply list_elem_of_here.
    + assert (one_component c) as Ho by (split; [tauto|tauto|done|done]).
      specialize (IH (push output c)). rewrite filter_cons_True by tauto.
      destruct (push_components (push output c) ps) as [p|].
      * destruct IH as [Hd ->]. split; [rewrite not_elem_of_cons; auto|].
        rewrite components_push by done. by rewrite <-app_assoc.
      * by right.
Qed.

Lemma path_starts_with_app p root cs : components p = components root ++ cs → path_starts_with p root = true.
Proof. intros E. apply bool_decide_eq_true. rewrite E. apply take_app_length. Qed.

Lemma split_char_no_sep c s : Forall (λ p, c ∉ p) (split_char c s).
Proof.
  eapply Forall_impl; [apply split_by_pieces|]. intros p Hp Hc. rewrite Forall_forall in Hp.
  specialize (Hp c Hc). by apply bool_decide_eq_false in Hp.
Qed.

(** ** Job names: every character of a replaced name is harmless *)
Definition harmless (c : N) : bool :=
  negb (bool_decide (c = 58%N) || illegal c || is_control c || is_bidi_or_invisible_control c).

Lemma replace_chars_harmless chars replaced :
  Forall (λ c, harmless c = true) replaced → Forall (λ c, harmless c = true) (replace_chars replaced chars).
Proof.
  revert replaced. induction chars as [|ch rest IH]; intros replaced Hr; simpl; [done|]. apply IH.
  apply Forall_app. split; [done|].
  case_decide as H1; [destruct (_ && _); by repeat constructor|].
  destruct (illegal ch) eqn:H2; [by repeat constructor|].
  destruct (is_control ch) eqn:H3; [by repeat constructor|].
  destruct (is_bidi_or_invisible_control ch) eqn:H4; [done|].
  constructor; [|done]. unfold harmless. by rewrite H2, H3, H4, bool_decide_eq_false_2.
Qed.

Lemma replace_chars_id chars replaced :
  Forall (λ c, harmless c = true) chars → replace_chars replaced chars = replaced ++ chars.
Proof.
  intros Hc. revert replaced. induction Hc as [|ch rest Hch _ IH]; intros replaced; simpl; [by rewrite app_nil_r|].
  apply negb_true_iff in Hch. rewrite !orb_false_iff, bool_decide_eq_false in Hch. destruct Hch as [[[H1 H2] H3] H4].
  rewrite decide_False by done. rewrite H2, H3, H4, IH. by rewrite <-app_assoc.
Qed.

Lemma harmless_spec c :
  harmless c = true →
  c ≠ SLASH ∧ c ≠ 92%N ∧ c ≠ 58%N ∧ is_control c = false ∧ is_bidi_or_invisible_control c = false.
Proof.
  intros Hc%negb_true_iff. rewrite !orb_false_iff, bool_decide_eq_false in Hc.
  destruct Hc as [[[H1 H2] H3] H4]. repeat split; try done; intros ->; by vm_compute in H2.
Qed.

Lemma trim_name_ends s c :
  (head (trim_name s) = Some c ∨ last (trim_name s) = Some c) → is_whitespace c = false ∧ c ≠ DOT.
Proof.
  destruct (trim_by_spec (λ c, is_whitespace c || bool_decide (c = DOT)) s) as (a & b & _ & _ & _ & Hh & Hl).
  intros H. assert ((is_whitespace c || bool_decide (c = DOT)) = false) as E by (destruct H; auto).
  by rewrite orb_false_iff, bool_decide_eq_false in E.
Qed.

Lemma truncate_prefix n s : ∃ t, s = truncate n s ++ t.
Proof.
  revert n. induction s as [|c s IH]; intros n; simpl; [by exists []|].
  case_decide; [|by exists (c :: s)]. destruct (IH (n - length (utf8_char c))) as [t Ht].
  exists t. simpl. congruence.
Qed.

Lemma as_bytes_app s t : as_bytes (s ++ t) = as_bytes s ++ as_bytes t.
Proof. apply bind_app. Qed.

Lemma truncate_length n s : length (as_bytes (truncate n s)) ≤ n.
Proof.
  revert n. induction s as [|c s IH]; intros n; simpl; [lia|].
  case_decide; [|simpl; lia]. rewrite as_bytes_cons, length_app.
  specialize (IH (n - length (utf8_char c))). lia.
Qed.

Lemma trim_name_length s : length (as_bytes (trim_name s)) ≤ length (as_bytes s).
Proof.
  destruct (trim_by_spec (λ c, is_whitespace c || bool_decide (c = DOT)) s) as (a & b & Hs & _).
  unfold trim_name. rewrite Hs at 2. rewrite !as_bytes_app, !length_app. lia.
Qed.

(** ** The properties *)

(** C33. [safe_join] keeps an untrusted name beneath its root: it refuses a name
    exactly when it is empty, absolute, a drive (a colon as its second byte), has
    a control character, or a parent component; and the path it gives for any
    other has the components of the root, then the pieces of the name that are
    neither empty nor a dot, each a proper name with no separator in it. *)
Theorem safe_join_beneath (root name : str) :
  let nm := normalize_separators name in
  let ps := split_char SLASH nm in
  let cs := filter (λ c, c ≠ [] ∧ c ≠ [DOT]) ps in
  (safe_join root name = None ↔
     nm = [] ∨ is_absolute nm = true ∨ as_bytes nm !! 1 = Some Byte.x3a ∨
     (∃ c, c ∈ nm ∧ is_control c = true) ∨ [DOT; DOT] ∈ ps) ∧
  ∀ p, safe_join root name = Some p →
    components p = components root ++ (Normal <$> cs) ∧ Forall one_component cs.
Proof.
  intros nm ps cs. unfold safe_join. cbv zeta. fold nm.
  destruct (bool_decide (nm = [])) eqn:H1; simpl; [apply bool_decide_eq_true in H1; naive_solver|].
  destruct (is_absolute nm) eqn:H2; simpl; [naive_solver|].
  destruct (bool_decide (as_bytes nm !! 1 = _)) eqn:H3; simpl; [apply bool_decide_eq_true in H3; naive_solver|].
  destruct (existsb is_control nm) eqn:H4; simpl.
  { apply existsb_exists in H4 as (c & Hc%list_elem_of_In & Hg). naive_solver. }
  apply bool_decide_eq_false in H1, H3.
  assert (¬ ∃ c, c ∈ nm ∧ is_control c = true) as Hctl.
  { intros (c & Hc%list_elem_of_In & Hg). assert (existsb is_control nm = true) by (apply existsb_exists; eauto). congruence. }
  pose proof (push_components_spec ps root (split_char_no_sep SLASH nm)) as Hp. fold ps.
  destruct (push_components root ps) as [p|]; simpl; [|naive_solver].
  destruct Hp as [Hd Hp]. rewrite (path_starts_with_app p root _ Hp). split; [naive_solver|].
  intros p' [= <-]. split; [done|].
  apply Forall_forall. intros c [[Hc1 Hc2] Hc]%list_elem_of_filter. split; [done|done|by intros ->|].
  pose proof (split_char_no_sep SLASH nm) as Hs. rewrite Forall_forall in Hs. by apply Hs.
Qed.

Lemma safe_join_one root c :
  one_component c → Forall (λ x, harmless x = true) c → safe_join root c = Some (push root c).
Proof.
  intros Hc Hh. unfold safe_join.
  assert (normalize_separators c = c) as ->.
  { unfold normalize_separators. rewrite <-(list_fmap_id c) at 2. apply list_fmap_ext. intros i x Hx.
    rewrite Forall_lookup in Hh. apply Hh, harmless_spec in Hx as (_ & Hx & _). by rewrite decide_False. }
  rewrite bool_decide_eq_false_2 by apply Hc. rewrite one_component_relative by done.
  assert (existsb is_control c = false) as ->.
  { apply existsb_false. intros x Hx. rewrite Forall_forall in Hh. by apply Hh, harmless_spec in Hx as (_ & _ & _ & ? & _). }
  rewrite bool_decide_eq_false_2.
  - simpl. rewrite one_component_split by done. simpl. destruct (Hc).
    rewrite decide_False, decide_False by tauto. simpl.
    by rewrite (path_starts_with_app _ root _ (components_push root c Hc)).
  - intros Hb%list_elem_of_lookup_2%as_bytes_ascii; [|done]. rewrite Forall_forall in Hh.
    by apply Hh, harmless_spec in Hb as (_ & _ & [] & _).
Qed.

Section sanitized.
Context (nfc : str → str).

(** The name before its length is looked at. *)
Definition untruncated (name : str) : str :=
  let out := trim_name (replace_chars [] (nfc name)) in
  if decide (out = []) then UNNAMED_JOB
  else if is_windows_reserved_name out then 95%N :: out else out.

Lemma sanitize_untruncated name :
  sanitize_job_name nfc name =
  if decide (MAX_JOB_NAME_BYTES < length (as_bytes (untruncated name)))
  then trim_name (truncate MAX_JOB_NAME_BYTES (untruncated name)) else untruncated name.
Proof.
  unfold sanitize_job_name, untruncated. cbv zeta. case_decide as Ht; [|done].
  rewrite decide_False; [done|vm_compute; lia].
Qed.

(** What both the whole and the truncated name satisfy. *)
Record tidy (out : str) : Prop := {
  tidy_nonempty : out ≠ [];
  tidy_harmless : Forall (λ c, harmless c = true) out;
  tidy_ends c : head out = Some c ∨ last out = Some c → is_whitespace c = false ∧ c ≠ DOT;
}.

Lemma not_reserved_underscore s : is_windows_reserved_name (95%N :: s) = false.
Proof.
  unfold is_windows_reserved_name.
  assert (∃ t, default (95%N :: s) (head (split_char DOT (95%N :: s))) = 95%N :: t) as [t ->].
  { unfold split_char. simpl. pose proof (split_by_ne (λ x, bool_decide (x = DOT)) s).
    destruct (split_by _ s) as [|q ps]; [done|]. by exists q. }
  assert (∃ t', trim_end_by is_whitespace (95%N :: t) = 95%N :: t') as [t' ->].
  { destruct (trim_end_by_spec is_whitespace (95%N :: t)) as [(b & Hb & Hw) _].
    destruct (trim_end_by is_whitespace (95%N :: t)) as [|y ys].
    - simpl in Hb. subst b. apply Forall_cons in Hw as [Hw _]. by vm_compute in Hw.
    - injection Hb as <- _. by exists ys. }
  set (u := to_ascii_uppercase t').
  change (to_ascii_uppercase (95%N :: t')) with (95%N :: u).
  rewrite bool_decide_eq_false_2.
  - simpl. by rewrite andb_false_r.
  - rewrite !elem_of_cons, elem_of_nil. intros [[=]|[[=]|[[=]|[[=]|[]]]]].
Qed.

Lemma tidy_untruncated name : tidy (untruncated name).
Proof.
  unfold untruncated. cbv zeta. set (out := trim_name _).
  assert (Forall (λ c, harmless c = true) out) as Hh.
  { apply Forall_forall. intros c Hc%trim_by_elem_of.
    pose proof (replace_chars_harmless (nfc name) [] (Forall_nil_2 _)) as Hr. rewrite Forall_forall in Hr. auto. }
  case_decide as Ho.
  - split; [done|by repeat constructor|]. intros c [[= <-]|[= <-]]; split; by vm_compute.
  - destruct (is_windows_reserved_name out); [|split; [done|done|intros c; apply trim_name_ends]].
    split; [done|by constructor|]. intros c [[= <-]|Hl]; [split; by vm_compute|].
    apply (trim_name_ends (replace_chars [] (nfc name))). right.
    fold out. destruct out; [done|]. simpl in *. done.
Qed.

Lemma tidy_truncated out : tidy out → tidy (trim_name (truncate MAX_JOB_NAME_BYTES out)).
Proof.
  intros [Hne Hh He]. split.
  - destruct out as [|c out]; [done|]. specialize (He c (or_introl eq_refl)) as [Hw Hd].
    destruct (trim_by_spec (λ c, is_whitespace c || bool_decide (c = DOT)) (truncate MAX_JOB_NAME_BYTES (c :: out)))
      as (a & b & Ht & Ha & Hb & _). unfold trim_name. intros E. rewrite E in Ht. simpl in Ht.
    assert (length (utf8_char c) ≤ MAX_JOB_NAME_BYTES) as Hl.
    { unfold utf8_char, MAX_JOB_NAME_BYTES. repeat case_decide; simpl; lia. }
    rewrite decide_True in Ht by done.
    assert (c ∈ a ++ b) as Hc by (rewrite <-Ht; apply list_elem_of_here).
    rewrite Forall_forall in Ha, Hb. rewrite elem_of_app in Hc.
    assert ((is_whitespace c || bool_decide (c = DOT)) = true) as Hg by (destruct Hc; auto).
    by rewrite Hw, bool_decide_eq_false_2 in Hg.
  - destruct (truncate_prefix MAX_JOB_NAME_BYTES out) as [t Ht].
    apply Forall_forall. intros c Hc%trim_by_elem_of. rewrite Forall_forall in Hh. apply Hh.
    rewrite Ht. apply elem_of_app. by left.
  - intros c. apply trim_name_ends.
Qed.

Lemma tidy_sanitized name : tidy (sanitize_job_name nfc name).
Proof.
  rewrite sanitize_untruncated. case_decide; [apply tidy_truncated|]; apply tidy_untruncated.
Qed.

Lemma tidy_one_component out : tidy out → one_component out.
Proof.
  intros [Hne Hh He]. split; [done|..].
  - intros ->. by destruct (He DOT (or_introl eq_refl)).
  - intros ->. by destruct (He DOT (or_introl eq_refl)).
  - intros Hs. rewrite Forall_forall in Hh. by apply Hh, harmless_spec in Hs as [? _].
Qed.

Lemma tidy_safe_component out : tidy out → safe_component out = Some out.
Proof.
  intros Ht. destruct (tidy_one_component out Ht) as [H1 H2 H3 H4]. destruct Ht as [_ Hh _].
  rewrite Forall_forall in Hh. unfold safe_component.
  rewrite !bool_decide_eq_false_2 by done.
  assert (∀ g, (∀ c, harmless c = true → g c = false) → existsb g out = false) as He
    by (intros g Hg; apply existsb_false; auto).
  rewrite !He; [done|..]; intros c Hc%harmless_spec; rewrite ?bool_decide_eq_false; tauto.
Qed.

Lemma sanitize_length name : length (as_bytes (sanitize_job_name nfc name)) ≤ MAX_JOB_NAME_BYTES.
Proof.
  rewrite sanitize_untruncated. case_decide; [|lia]. etrans; [apply trim_name_length|apply truncate_length].
Qed.

(** A tidy name that is short and not a device is left as it is. *)
Lemma sanitize_tidy out :
  tidy out → nfc out = out → is_windows_reserved_name out = false →
  length (as_bytes out) ≤ MAX_JOB_NAME_BYTES → sanitize_job_name nfc out = out.
Proof.
  intros [Hne Hh He] Hn Hr Hl. unfold sanitize_job_name. rewrite Hn, replace_chars_id by done. cbn [app].
  assert (trim_name out = out) as ->.
  { apply trim_by_id; intros c Hc; destruct (He c ltac:(auto)) as [-> ?]; by apply bool_decide_eq_false. }
  rewrite decide_False by done. cbv zeta. rewrite Hr. rewrite decide_False by lia. done.
Qed.

(** C34. A sanitised job name is one safe directory name: whatever the input
    and whatever normalisation does, it passes [safe_component] and, beneath
    any root, [safe_join]; it takes at most 240 bytes, is no reserved device
    name unless it was cut to that length, and sanitising it again changes
    nothing when it is normalised and not reserved. *)
Theorem sanitize_job_name_safe (name : str) :
  let out := sanitize_job_name nfc name in
  safe_component out = Some out ∧
  (∀ root, safe_join root out = Some (push root out) ∧
           components (push root out) = components root ++ [Normal out]) ∧
  length (as_bytes out) ≤ MAX_JOB_NAME_BYTES ∧
  (length (as_bytes (untruncated name)) ≤ MAX_JOB_NAME_BYTES → is_windows_reserved_name out = false) ∧
  (nfc out = out → is_windows_reserved_name out = false → sanitize_job_name nfc out = out).
Proof.
  intros out. pose proof (tidy_sanitized name) as Ht. fold out in Ht.
  pose proof (tidy_one_component out Ht) as Ho. repeat split.
  - by apply tidy_safe_component.
  - apply safe_join_one; [done|apply Ht].
  - by apply components_push.
  - apply sanitize_length.
  - intros Hl. unfold out. rewrite sanitize_untruncated, decide_False by lia.
    unfold untruncated. cbv zeta. case_decide; [done|].
    destruct (is_windows_reserved_name (trim_name _)) eqn:E; [apply not_reserved_underscore|done].
  - intros Hn Hr. apply sanitize_tidy; [done..|]. apply sanitize_length.
Qed.
End sanitized.

(** ** Passwords *)
Lemma strip_extension_shorter name name' : strip_extension name = Some name' → length name' < length name.
Proof.
  unfold strip_extension. cbv zeta. set (bs := match rfind_sub [SLASH] name with Some _ => _ | None => _ end).
  set (ld := _ - _). intros (index & Hi & Hs)%bind_Some. case_match; [|done]. injection Hs as <-.
  destruct (rfind_sub_Some _ _ _ Hi) as ([t Ht] & Hl & _).
  apply (f_equal length) in Ht. rewrite !length_app, length_take, !length_drop in Ht. simpl in Ht.
  rewrite length_take. lia.
Qed.

(** The fuel is enough: what the loop leaves has none of the extensions. *)
Lemma strip_loop_done fuel name :
  length name ≤ fuel → strip_extension (strip_loop fuel name) = None.
Proof.
  revert name. induction fuel as [|fuel IH]; intros name Hf; simpl;
    (destruct (strip_extension name) as [name'|] eqn:E; [|by rewrite ?E]);
    pose proof (strip_extension_shorter _ _ E); [lia|]. apply IH. lia.
Qed.

Lemma strip_extension_prefix name name' : strip_extension name = Some name' → ∃ t, name = name' ++ t.
Proof.
  unfold strip_extension. cbv zeta. intros (index & _ & E)%bind_Some. case_match; [|done].
  injection E as <-. eexists. symmetry. apply take_drop.
Qed.

Lemma strip_loop_prefix fuel name : ∃ t, name = strip_loop fuel name ++ t.
Proof.
  revert name. induction fuel as [|fuel IH]; intros name; simpl; [by exists []; rewrite app_nil_r|].
  destruct (strip_extension name) as [name'|] eqn:E; [|by exists []; rewrite app_nil_r].
  destruct (strip_extension_prefix _ _ E) as [u ->]. destruct (IH name') as [t Ht].
  exists (t ++ u). by rewrite app_assoc, <-Ht.
Qed.

Lemma named_Some h pw r : named h pw = Some r → r = (h, pw) ∧ h ≠ [].
Proof. unfold named. case_decide; [done|]. by intros [= <-]. Qed.

Lemma or_else_Some {A} (a b : option A) r : or_else a b = Some r → a = Some r ∨ b = Some r.
Proof. destruct a; simpl; auto. Qed.

(** How a name divides around its password. *)
Definition divides (name head pw : str) : Prop :=
  ∃ pre sep suf, name = pre ++ sep ++ pw ++ suf ∧ head = strip pre ∧ head ≠ [] ∧
    ((sep ∈ [lit "/"; lit " / "; lit "password="]) ∧ suf = [] ∨
     sep = lit "{{" ∧ ∃ t, suf = lit "}}" ++ t).

Lemma found_at (p s : str) i t : s = take i s ++ p ++ t → i ≤ length s → drop (i + length p) s = t.
Proof.
  intros Hs Hi. rewrite Hs at 1. rewrite app_assoc. apply drop_app_length'.
  rewrite length_app, length_take. lia.
Qed.

Lemma by_slash_divides name slash head pw :
  find_sub [SLASH] name = Some slash → by_slash name slash = Some (head, pw) → divides name head pw.
Proof.
  intros ([t Ht] & Hl & _)%find_sub_Some (E & Hne)%named_Some. injection E as -> ->.
  exists (take slash name), (lit "/"), []. rewrite app_nil_r. repeat split; [|done|left; split; [|done]].
  - pose proof (found_at _ _ _ _ Ht Hl) as Hd. simpl in Hd. rewrite Hd. done.
  - apply list_elem_of_here.
Qed.

Lemma by_spaced_slash_divides name slash head pw :
  by_spaced_slash name slash = Some (head, pw) → divides name head pw.
Proof.
  unfold by_spaced_slash. case_decide as Hs; [|done]. apply fmap_Some in Hs as (i & Hi & ->).
  destruct (find_sub_Some _ _ _ Hi) as ([t Ht] & Hl & _). intros (E & Hne)%named_Some. injection E as -> ->.
  rewrite ?Nat.sub_succ, ?Nat.sub_0_r in *.
  exists (take i name), (lit " / "), []. rewrite app_nil_r. repeat split; [|done|left; split; [|done]].
  - replace (S (i + 2)) with (i + 3) by lia. pose proof (found_at _ _ _ _ Ht Hl) as Hd. simpl in Hd. rewrite Hd. done.
  - rewrite !elem_of_cons. auto.
Qed.

Lemma by_password_word_divides name head pw : by_password_word name = Some (head, pw) → divides name head pw.
Proof.
  unfold by_password_word. intros (i & Hi & Hs)%bind_Some. case_decide; [|done].
  destruct (find_sub_Some _ _ _ Hi) as ([t Ht] & Hl & _).
  apply named_Some in Hs as [E Hne]. injection E as -> ->.
  exists (take i name), (lit "password="), []. rewrite app_nil_r. repeat split; [|done|left; split; [|done]].
  - pose proof (found_at _ _ _ _ Ht Hl) as Hd. simpl in Hd. rewrite Hd. done.
  - rewrite !elem_of_cons. auto.
Qed.

Lemma by_braces_divides name braces head pw :
  (braces < length name → ∃ t, name = take braces name ++ lit "{{" ++ t) →
  by_braces name braces = Some (head, pw) → divides name head pw.
Proof.
  intros Hb. unfold by_braces. case_decide as Hlt; [|done]. destruct (Hb Hlt) as [t Ht].
  intros (closing & Hc & Hs)%bind_Some. case_decide as Hbc; [|done].
  destruct (rfind_sub_Some _ _ _ Hc) as ([u Hu] & Hl & _).
  apply named_Some in Hs as [E Hne]. injection E as -> ->.
  pose proof (found_at _ _ _ _ Ht ltac:(lia)) as Hd. simpl in Hd.
  assert (braces + 2 ≤ closing) as Hge.
  { (* the closing pair cannot begin on the second opening brace *)
    destruct (decide (closing = braces + 1)) as [->|]; [|lia]. exfalso.
    assert (name !! (braces + 1) = Some 123%N) as H1.
    { rewrite Ht, lookup_app_r; rewrite length_take; [|lia]. by replace (_ - _) with 1 by lia. }
    assert (name !! (braces + 1) = Some 125%N) as H2.
    { rewrite Hu, lookup_app_r; rewrite length_take; [|lia]. by replace (_ - _) with 0 by lia. }
    congruence. }
  exists (take braces name), (lit "{{"), (lit "}}" ++ u). repeat split; [|done|right; split; [done|by exists u]].
  rewrite Ht at 1. f_equal. f_equal. rewrite Hd.
  rewrite <-(take_drop (closing - (braces + 2)) t) at 1. f_equal.
  rewrite <-Hd, drop_drop. replace (braces + 2 + (closing - (braces + 2))) with closing by lia.
  rewrite Hu at 1. apply drop_app_length'. rewrite length_take. lia.
Qed.

Lemma starts_with_pair a b s j :
  starts_with [a; b] (drop j s) = true ↔ s !! j = Some a ∧ s !! S j = Some b.
Proof.
  rewrite starts_with_spec. split.
  - intros [t Ht]. pose proof (lookup_drop s j 0) as H0. pose proof (lookup_drop s j 1) as H1.
    rewrite Ht in H0, H1. simpl in H0, H1. rewrite Nat.add_0_r in H0. rewrite Nat.add_1_r in H1. auto.
  - intros [Ha Hb]. exists (drop (S (S j)) s). by rewrite (drop_S _ _ _ Ha), (drop_S _ _ _ Hb).
Qed.

Lemma starts_with_single a s j : starts_with [a] (drop j s) = true ↔ s !! j = Some a.
Proof.
  rewrite starts_with_spec. split.
  - intros [t Ht]. pose proof (lookup_drop s j 0) as H0. rewrite Ht, Nat.add_0_r in H0. done.
  - intros Ha. exists (drop (S j) s). by rewrite (drop_S _ _ _ Ha).
Qed.

Lemma find_sub_in_head p h t :
  starts_with p t = true → (∀ j, j < length h → starts_with p (drop j (h ++ t)) = false) →
  find_sub p (h ++ t) = Some (length h).
Proof.
  intros Ht Hh. apply find_sub_at; [rewrite length_app; lia| |done]. by rewrite drop_app_length.
Qed.

Lemma find_sub_not_contained p s : contains p s = false → find_sub p s = None.
Proof.
  rewrite contains_false. intros Hc. destruct (find_sub p s) as [i|] eqn:E; [|done].
  destruct (find_sub_Some _ _ _ E) as ([t Ht] & Hl & _).
  assert (starts_with p (drop i s) = true) as Hs; [|by rewrite Hc in Hs].
  apply starts_with_spec. exists t. rewrite Ht at 1. apply drop_app_length'. rewrite length_take. lia.
Qed.

Lemma strip_extension_last name name' :
  strip_extension name = Some name' → ∃ c, last name = Some c ∧ to_ascii_lowercase_char c ∈ lit "br2".
Proof.
  unfold strip_extension. cbv zeta. set (bs := match rfind_sub [SLASH] name with Some _ => _ | None => _ end).
  set (ld := _ - _). intros (index & _ & Hs)%bind_Some. set (ext := drop _ (drop bs name)) in Hs.
  destruct (existsb _ _) eqn:He; [|done]. apply existsb_exists in He as (k & Hk%list_elem_of_In & He).
  apply bool_decide_eq_true in He.
  assert (∃ c, last ext = Some c ∧ to_ascii_lowercase_char c ∈ lit "br2") as (c & Hc & Hin).
  { pose proof (f_equal last He) as Hl. unfold to_ascii_lowercase in Hl.
    change (map to_ascii_lowercase_char) with (fmap (M := list) to_ascii_lowercase_char) in Hl. rewrite !fmap_last in Hl.
    rewrite !elem_of_cons, elem_of_nil in Hk.
    destruct Hk as [->|[->|[->|[]]]]; simpl in Hl; apply fmap_Some in Hl as (c & Hc & Hl);
      exists c; (split; [done|]); rewrite <-Hl; refine (proj1 (bool_decide_eq_true _) _); by vm_compute. }
  exists c. split; [|done]. unfold ext in Hc. rewrite drop_drop in Hc.
  rewrite <-(take_drop (bs + (index + ld)) name), last_app. by rewrite Hc.
Qed.

Lemma strip_loop_id fuel name : strip_extension name = None → strip_loop fuel name = name.
Proof. intros E. destruct fuel; simpl; [done|]. by rewrite E. Qed.

(** A name that [split_job_password] can take apart again: trimmed, without a
    slash, and with no brace that could pair up with the ones that follow. *)
Record plain_head (h : str) : Prop := {
  plain_nonempty : h ≠ [];
  plain_trimmed : strip h = h;
  plain_slash : SLASH ∉ h;
  plain_braces : contains (lit "{{") (drop 1 h ++ lit "{") = false;
}.

Lemma plain_no_slash h t j : plain_head h → j < length h → starts_with [SLASH] (drop j (h ++ t)) = false.
Proof.
  intros Hh Hj. destruct (starts_with _ _) eqn:E; [|done]. apply starts_with_single in E.
  rewrite lookup_app_l in E by done. by apply list_elem_of_lookup_2, (plain_slash h Hh) in E.
Qed.

(** No pair of braces begins inside the head, whatever follows it. *)
Lemma plain_no_braces h t j :
  plain_head h → 0 < j → j < length h → starts_with (lit "{{") (drop j (h ++ t)) = false.
Proof.
  intros Hh Hj Hl. destruct (starts_with _ _) eqn:E; [|done]. apply starts_with_pair in E as [E1 E2].
  pose proof (proj1 (contains_false _ _) (plain_braces h Hh) (j - 1)) as Hc.
  assert (starts_with (lit "{{") (drop (j - 1) (drop 1 h ++ lit "{")) = true) as Hs; [|by rewrite Hc in Hs].
  rewrite lookup_app_l in E1 by done.
  assert (∀ k, drop 1 h !! k = h !! S k) as Hd by (intros k; by rewrite lookup_drop).
  assert (length (drop 1 h) = length h - 1) as Hdl by apply length_drop.
  apply starts_with_pair. split.
  - rewrite lookup_app_l, Hd by lia. by replace (S (j - 1)) with j by lia.
  - replace (S (j - 1)) with j by lia. destruct (decide (S j < length h)).
    + rewrite lookup_app_l in E2 by done. rewrite lookup_app_l, Hd by lia. done.
    + rewrite lookup_app_r by lia. by replace (_ - _) with 0 by lia.
Qed.

Lemma named_plain h pw : plain_head h → named (strip h) pw = Some (h, pw).
Proof. intros [H1 H2 _ _]. unfold named. rewrite H2. by rewrite decide_False. Qed.

(** ** The properties of [split_job_password] *)

(** The password taken off a job name is what stands after the separator:
    the name, less its extensions, is the head, a slash or [password=] and the
    password, or the head, the password in double braces and a rest; the head
    is trimmed and not empty, and no extension is left. *)
Theorem split_job_password_divides (name head pw : str) :
  split_job_password name = Some (head, pw) →
  divides (strip_nzb_extensions name) head pw ∧
  (∃ t, name = strip_nzb_extensions name ++ t) ∧ strip_extension (strip_nzb_extensions name) = None.
Proof.
  unfold split_job_password. destruct (_ || _); [done|]. cbv zeta.
  set (nm := strip_nzb_extensions name). intros Hs.
  split; [|split; [apply strip_loop_prefix|by apply strip_loop_done]].
  apply or_else_Some in Hs as [Hs|[Hs|[Hs|Hs]%or_else_Some]%or_else_Some].
  - apply bind_Some in Hs as (slash & Hf & Hs). case_decide; [|done].
    apply or_else_Some in Hs as [Hs|Hs]; [by eapply by_spaced_slash_divides|by eapply by_slash_divides].
  - by apply by_password_word_divides.
  - eapply by_braces_divides; [|exact Hs]. intros Hlt.
    destruct (find_sub (lit "{{") _) as [i|] eqn:Hf; [|lia].
    destruct (find_sub_Some _ _ _ Hf) as ([t Ht] & Hl & _). exists t.
    destruct nm as [|c nm']; [simpl in Hlt; lia|]. rewrite Nat.add_1_r. simpl in *. f_equal. exact Ht.
  - apply bind_Some in Hs as (slash & Hf & Hs). case_decide; [|done]. by eapply by_slash_divides.
Qed.

Lemma by_password_word_none name : contains (lit "password=") name = false → by_password_word name = None.
Proof. intros Hc. unfold by_password_word. by rewrite find_sub_not_contained. Qed.

Lemma by_braces_plain h pw :
  plain_head h → by_braces (h ++ lit "{{" ++ pw ++ lit "}}") (length h) = Some (h, pw).
Proof.
  intros Hh. unfold by_braces. rewrite decide_True by (rewrite length_app; simpl; lia).
  rewrite (rfind_sub_at _ _ (length h + (2 + length pw))).
  - simpl. rewrite decide_True by lia. rewrite take_app_length.
    replace (length h + S (S (length pw)) - (length h + 2)) with (length pw) by lia.
    rewrite drop_app_add, skipn_cons, skipn_cons, drop_0, take_app_length. by apply named_plain.
  - rewrite !length_app. simpl. lia.
  - rewrite drop_app_add, drop_app_add', drop_app_length by done. done.
  - intros j Hj Hl. rewrite !length_app in Hl. simpl in Hl.
    destruct (starts_with _ _) eqn:E; [|done]. apply starts_with_pair in E as [_ E%lookup_lt_Some].
    rewrite !length_app in E. simpl in E. lia.
Qed.

(** The braces are found right after a plain head, or later. *)
Lemma braces_after_head h t :
  plain_head h →
  match find_sub (lit "{{") (drop 1 (h ++ t)) with
  | Some i => length h ≤ i + 1
  | None => True
  end.
Proof.
  intros Hh. destruct (find_sub _ _) as [i|] eqn:E; [|done].
  destruct (find_sub_Some _ _ _ E) as ([u Hu] & Hl & _).
  destruct (decide (length h ≤ i + 1)); [done|]. exfalso.
  assert (starts_with (lit "{{") (drop (1 + i) (h ++ t)) = true) as Hs.
  { rewrite <-drop_drop. apply starts_with_spec. exists u. rewrite Hu at 1. apply drop_app_length'.
    rewrite length_take. lia. }
  rewrite plain_no_braces in Hs by (done || lia). done.
Qed.

(** A name with a password in double braces, or after a slash, comes apart
    into the head and the password it was made of. *)
Theorem job_password_roundtrip (h pw : str) :
  plain_head h →
  (let name := h ++ lit "{{" ++ pw ++ lit "}}" in
   contains (lit "password=") name = false → contains (lit "http://") name = false →
   contains (lit "https://") name = false →
   split_job_password name = Some (h, pw)) ∧
  (let name := h ++ lit "/" ++ pw in
   contains (lit "password=") name = false → contains (lit "http://") name = false →
   contains (lit "https://") name = false → strip_extension name = None →
   split_job_password name = Some (h, pw)).
Proof.
  intros Hh. assert (0 < length h) as Hlen by (destruct h; [by destruct Hh|simpl; lia]).
  split; intros name Hp H1 H2; unfold split_job_password; rewrite H1, H2; cbn [orb]; cbv zeta.
  - assert (strip_extension name = None) as Hx.
    { destruct (strip_extension name) eqn:E; [|done].
      apply strip_extension_last in E as (c & Hc & Hin). unfold name in Hc.
      rewrite !last_app in Hc. injection Hc as <-.
      apply (proj2 (bool_decide_eq_true _)) in Hin. by vm_compute in Hin. }
    unfold strip_nzb_extensions. rewrite strip_loop_id by done.
    assert (match name with [] => 0 | _ => 1 end = 1) as -> by (unfold name; destruct h; [simpl in Hlen; lia|done]).
    assert (find_sub (lit "{{") (drop 1 name) = Some (length h - 1)) as ->.
    { unfold name. rewrite drop_app_le by lia. rewrite <-(length_drop h 1). apply find_sub_in_head; [done|].
      intros j Hj. rewrite length_drop in Hj. rewrite <-drop_app_le by lia. rewrite drop_drop.
      apply plain_no_braces; [done|lia|lia]. }
    replace (length h - 1 + 1) with (length h) by lia.
    rewrite by_password_word_none by done. cbn [or_else].
    destruct (find_sub [SLASH] name) as [slash|] eqn:Hs; cbn [mbind option_bind].
    + rewrite decide_False; [cbn [or_else]; unfold name; by rewrite by_braces_plain|].
      intros (_ & Hlt & _). destruct (find_sub_Some _ _ _ Hs) as ([t Ht] & Hl & _).
      assert (starts_with [SLASH] (drop slash name) = true) as Hd.
      { apply starts_with_spec. exists t. rewrite Ht at 1. apply drop_app_length'. rewrite length_take. lia. }
      unfold name in Hd. by rewrite plain_no_slash in Hd.
    + cbn [or_else]. unfold name. by rewrite by_braces_plain.
  - intros Hx. unfold strip_nzb_extensions. rewrite strip_loop_id by done.
    assert (find_sub [SLASH] name = Some (length h)) as Hs.
    { apply find_sub_in_head; [done|]. intros j Hj. by apply plain_no_slash. }
    rewrite Hs. cbn [mbind option_bind]. rewrite decide_True.
    + assert (by_spaced_slash name (length h) = None) as ->.
      { unfold by_spaced_slash. rewrite decide_False; [done|]. intros E. apply fmap_Some in E as (i & Hi & E).
        destruct (find_sub_Some _ _ _ Hi) as ([t Ht] & Hl & _).
        assert (last h = Some SP) as Hlast.
        { rewrite last_lookup, E. simpl.
          rewrite <-(lookup_app_l h (lit "/" ++ pw)) by lia. fold name. rewrite Ht, lookup_app_r; rewrite length_take; [|lia].
          by replace (_ - _) with 0 by lia. }
        destruct (trim_by_spec (λ c, bool_decide (c = DOT) || bool_decide (c = SP)) h) as (a & b & _ & _ & _ & _ & Hw).
        pose proof (plain_trimmed h Hh) as Htr. unfold strip in Htr. rewrite Htr in Hw.
        by apply Hw in Hlast. }
      cbn [or_else]. unfold by_slash, name. rewrite take_app_length, drop_app_add, named_plain by done. done.
    + split; [done|]. split; [|done].
      assert (match name with [] => 0 | _ => 1 end = 1) as -> by (unfold name; destruct h; [simpl in Hlen; lia|done]).
      unfold name.
      pose proof (braces_after_head h (lit "/" ++ pw) Hh) as Hb.
      destruct (find_sub (lit "{{") _) as [i|] eqn:E; [|rewrite length_app; simpl; lia].
      enough (i + 1 ≠ length h) by lia. intros Ei.
      destruct (find_sub_Some _ _ _ E) as ([t Ht] & Hl & _).
      assert ((h ++ lit "/" ++ pw) !! (1 + i) = Some 123%N) as Hc.
      { rewrite <-lookup_drop, Ht, lookup_app_r; rewrite length_take; [|lia]. by replace (_ - _) with 0 by lia. }
      rewrite lookup_app_r in Hc by lia. by replace (1 + i - length h) with 0 in Hc by lia.
Qed.

(** ** Where the promises of [sanitize_job_name] fail *)
Module Sanitize.
(** Normalisation as far as the example needs it: e with an acute accent. *)
Fixpoint compose (s : str) : str :=
  match s with
  | 101%N :: (769%N :: s') as t => 233%N :: compose s'
  | c :: s' => c :: compose s'
  | [] => []
  end.

(** Taking a zero-width space out leaves a name that is not normalised:
    sanitising it again changes it. *)
Example not_idempotent :
  sanitize_job_name compose [101; 0x200B; 769]%N = [101; 769]%N ∧
  sanitize_job_name compose [101; 769]%N = [233]%N.
Proof. by vm_compute. Qed.

(** Cutting a long name leaves a device name. *)
Example reserved_after_truncation :
  sanitize_job_name (λ s, s) (lit "CON" ++ replicate 240 SP ++ lit "x") = lit "CON" ∧
  is_windows_reserved_name (lit "CON") = true.
Proof. by vm_compute. Qed.
End Sanitize.

(** [sanitize_job_name_safe] on a name with a colon, normalised and short. *)
Lemma sanitize_job_name_safe_witness :
  sanitize_job_name (λ s, s) (sanitize_job_name (λ s, s) (lit "a: b.")) = sanitize_job_name (λ s, s) (lit "a: b.").
Proof.
  apply (proj2 (proj2 (proj2 (proj2 (sanitize_job_name_safe (λ s, s) (lit "a: b.")))))); by vm_compute.
Defined.

(** [split_job_password_divides] on a name with an extension. *)
Lemma split_job_password_divides_witness :
  split_job_password (lit "Job password=Test.par2") = Some (lit "Job", lit "Test") ∧
  divides (strip_nzb_extensions (lit "Job password=Test.par2")) (lit "Job") (lit "Test").
Proof.
  split; [by vm_compute|].
  apply (split_job_password_divides (lit "Job password=Test.par2") (lit "Job") (lit "Test")). by vm_compute.
Defined.

(** [job_password_roundtrip] on a head of two letters. *)
Lemma job_password_roundtrip_witness :
  split_job_password (lit "ab{{c}d}}") = Some (lit "ab", lit "c}d").
Proof.
  refine (proj1 (job_password_roundtrip (lit "ab") (lit "c}d") _) _ _ _); try by vm_compute.
  split; try by vm_compute. intros Hs. apply (proj2 (bool_decide_eq_true _)) in Hs. by vm_compute in Hs.
Defined.

Lemma safe_join_Some root name p :
  safe_join root name = Some p → ∃ cs, components p = components root ++ (Normal <$> cs).
Proof.
  unfold safe_join. cbv zeta. case_match; [done|].
  pose proof (push_components_spec _ root (split_char_no_sep SLASH (normalize_separators name))) as Hp.
  destruct (push_components root _) as [q|]; simpl; [|done]. case_match; [|done].
  intros [= <-]. destruct Hp as [_ ->]. eauto.
Qed.

(** The root of a category's jobs: beneath [complete_dir], or an absolute
    path that never goes up. *)
Lemma category_output_root_clean complete_dir output_dir root :
  category_output_root complete_dir output_dir = Some root →
  (∃ cs, components root = components complete_dir ++ (Normal <$> cs)) ∨
  root = output_dir ∧ is_absolute root = true ∧ ParentDir ∉ components root.
Proof.
  unfold category_output_root. destruct (is_absolute output_dir) eqn:Ha.
  - destruct (negb _ && _) eqn:E; [|done]. intros [= <-]. right. split; [done|]. split; [done|].
    apply andb_true_iff in E as [E%negb_true_iff _]. intros Hp.
    rewrite existsb_false in E. apply E in Hp. by apply bool_decide_eq_false in Hp.
  - intros Hs. left. apply safe_join_Some in Hs. eauto.
Qed.
