(* ===== verification/Models.v ===== *)
(** * Jobs, files and articles

    The plain data of [crates/nzb-core/src/models.rs] and of the article of
    [crates/nzb-nntp/src/config.rs], with the conversions they carry. *)
From S2P Require Import Prelude Str.

(** ** Status *)
Inductive JobStatus :=
  | Queued | Downloading | Paused | Verifying | Repairing | Extracting | PostProcessing | Completed | Failed.
#[export] Instance job_status_eq_dec : EqDecision JobStatus.
Proof. solve_decision. Defined.

Inductive JobFailureCode :=
  | ArticlesUnavailable | RepairFailed | ArchivePasswordRequired | ArchiveInvalid | StorageUnavailable
  | DownloadFailed.
#[export] Instance job_failure_code_eq_dec : EqDecision JobFailureCode.
Proof. solve_decision. Defined.

(** [Display] and [FromStr] of the failure codes *)
Definition failure_code_str (c : JobFailureCode) : string :=
  match c with
  | ArticlesUnavailable => "articles_unavailable"
  | RepairFailed => "repair_failed"
  | ArchivePasswordRequired => "archive_password_required"
  | ArchiveInvalid => "archive_invalid"
  | StorageUnavailable => "storage_unavailable"
  | DownloadFailed => "download_failed"
  end.

Definition failure_code_of_str (s : string) : result string JobFailureCode :=
  if decide (s = "articles_unavailable") then Ok ArticlesUnavailable
  else if decide (s = "repair_failed") then Ok RepairFailed
  else if decide (s = "archive_password_required") then Ok ArchivePasswordRequired
  else if decide (s = "archive_invalid") then Ok ArchiveInvalid
  else if decide (s = "storage_unavailable") then Ok StorageUnavailable
  else if decide (s = "download_failed") then Ok DownloadFailed
  else Err s.

Lemma failure_code_roundtrip c : failure_code_of_str (failure_code_str c) = Ok c.
Proof. by destruct c. Qed.

(** ** Priority *)
Inductive Priority := Low | Normal | High | Force.
#[export] Instance priority_eq_dec : EqDecision Priority.
Proof. solve_decision. Defined.

Definition priority_u8 (p : Priority) : N := match p with Low => 0 | Normal => 1 | High => 2 | Force => 3 end.
Definition priority_of_u8 (v : N) : result N Priority :=
  match v with 0%N => Ok Low | 1%N => Ok Normal | 2%N => Ok High | 3%N => Ok Force | other => Err other end.

Lemma priority_roundtrip p : priority_of_u8 (priority_u8 p) = Ok p.
Proof. by destruct p. Qed.

(** ** Articles, files and jobs *)
Record Article := {
  message_id : str;
  segment_number : N;
  a_bytes : N;
  downloaded : bool;
  data_begin : option N;
  data_size : option N;
  crc32 : option N;
  tried_servers : list str;
  tries : N;
}.

Record NzbFile := {
  file_id : string;
  filename : str;
  f_bytes : N;
  bytes_downloaded : N;
  is_par2 : bool;
  par2_setname : option str;
  par2_vol : option N;
  par2_blocks : option N;
  assembled : bool;
  groups : list str;
  articles : list Article;
}.

(** A job, without the fields only the queue manager fills in later. *)
Record NzbJob := {
  name : str;
  category : str;
  status : JobStatus;
  priority : Priority;
  total_bytes : N;
  downloaded_bytes : N;
  file_count : nat;
  files_completed : nat;
  article_count : nat;
  articles_downloaded : nat;
  articles_failed : nat;
  password : option str;
  files : list NzbFile;
}.
