(* ===== verification/NzbParser.v ===== *)
(** * The NZB parser

    [crates/nzb-core/src/nzb_parser.rs]: the checks on the data, the loop over
    the events of the XML reader, file names taken from subject lines, and the
    volume numbers in PAR2 names. The XML reader and Unicode normalisation are
    third-party code; a string is the list of its code points, cut at byte
    offsets where the code does so, which panics inside a character. *)
From S2P Require Import Prelude Str Path Models.

(** ** Strings by byte offset *)
Definition byte_len (s : str) : nat := length (as_bytes s).

(** [&s[..n]] and [&s[n..]]; [None] where they panic. *)
Fixpoint split_bytes (n : nat) (s : str) : option (str * str) :=
  match n, s with
  | 0, _ => Some ([], s)
  | _, [] => None
  | _, c :: s' =>
    let k := length (utf8_char c) in
    if decide (k ≤ n) then '(pre, suf) ← split_bytes (n - k) s'; Some (c :: pre, suf) else None
  end.

(** [rfind(pat)] as the byte offset it gives. *)
Definition rfind_bytes (p s : str) : option nat := (λ i, byte_len (take i s)) <$> rfind_sub p s.

(** ** Names *)
Definition trim_end_dots (s : str) : str := trim_end_by (λ c, bool_decide (c = DOT)) s.

Definition dropped_char (ch : N) : bool :=
  bool_decide (ch ∈ lit "<>:|?*\" ++ [34%N]) || is_control ch || is_bidi_or_invisible_control ch.

(** Where a character first, or last, stands. *)
Definition find_char (c : N) (s : str) : option nat := find_sub [c] s.
Definition rfind_char (c : N) (s : str) : option nat := rfind_sub [c] s.
Definition has_dot (s : str) : bool := bool_decide (DOT ∈ s).

Definition quoted (subject : str) : option str :=
  start ← find_char 34 subject;
  end_ ← find_char 34 (drop (start + 1) subject);
  Some (take end_ (drop (start + 1) subject)).

Definition before_paren (subject : str) : option str :=
  paren_pos ← rfind_char 40 subject;
  let before := trim (take paren_pos subject) in
  match (last_space ← rfind_char SP before;
         let candidate := drop (last_space + 1) before in
         if has_dot candidate then Some candidate else None) with
  | Some candidate => Some candidate
  | None => if has_dot before then Some before else None
  end.

Definition extract_filename (subject : str) : str :=
  default subject (or_else (quoted subject) (before_paren subject)).

(** The digits of a volume or block count. *)
Definition number (s : str) : option N :=
  if negb (bool_decide (s = [])) && forallb is_ascii_digit s then parse_uint u32_max s else None.

(** The two numbers around the first separator. *)
Definition volume_numbers (vol_part : str) : option (N * N) :=
  '(separator_pos, _) ← list_find (λ c, c = 43%N ∨ c = 45%N) vol_part;
  vol ← number (take separator_pos vol_part);
  blocks ← number (drop (separator_pos + 1) vol_part);
  Some (vol, blocks).

(** ** What the XML reader yields *)
Record Attr := { attr_key : bytes; attr_value : bytes; attr_decoded : option str }.

Inductive Event :=
  | Start (local_name : bytes) (attributes : list Attr)
  | End_ (local_name : bytes)
  | Text (raw : bytes) (decoded : option str)
  | CData (raw : bytes)
  | GeneralRef (raw : bytes)
  | Other.

Definition tag (s : string) : bytes := String.list_byte_of_string s.

Record FileBuilder := { subject : str }.
Record SegmentBuilder := { number_ : N; bytes_ : N; message_id_ : str }.

Record ParserState := {
  ps_files : list NzbFile;
  current_file : option FileBuilder;
  current_groups : list str;
  current_segments : list SegmentBuilder;
  in_groups : bool;
  in_segments : bool;
  meta_password : option str;
  reading_password_meta : bool;
  text_buf : str;
}.

Definition parser_start : ParserState :=
  {| ps_files := []; current_file := None; current_groups := []; current_segments := [];
     in_groups := false; in_segments := false; meta_password := None; reading_password_meta := false;
     text_buf := [] |}.

Definition with_text (t : str) (s : ParserState) : ParserState :=
  {| ps_files := ps_files s; current_file := current_file s; current_groups := current_groups s;
     current_segments := current_segments s; in_groups := in_groups s; in_segments := in_segments s;
     meta_password := meta_password s; reading_password_meta := reading_password_meta s; text_buf := t |}.
Definition with_groups (i : bool) (g : list str) (s : ParserState) : ParserState :=
  {| ps_files := ps_files s; current_file := current_file s; current_groups := g;
     current_segments := current_segments s; in_groups := i; in_segments := in_segments s;
     meta_password := meta_password s; reading_password_meta := reading_password_meta s;
     text_buf := text_buf s |}.
Definition with_segments (i : bool) (l : list SegmentBuilder) (s : ParserState) : ParserState :=
  {| ps_files := ps_files s; current_file := current_file s; current_groups := current_groups s;
     current_segments := l; in_groups := in_groups s; in_segments := i;
     meta_password := meta_password s; reading_password_meta := reading_password_meta s;
     text_buf := text_buf s |}.
Definition with_file (f : option FileBuilder) (s : ParserState) : ParserState :=
  {| ps_files := ps_files s; current_file := f; current_groups := current_groups s;
     current_segments := current_segments s; in_groups := in_groups s; in_segments := in_segments s;
     meta_password := meta_password s; reading_password_meta := reading_password_meta s;
     text_buf := text_buf s |}.
Definition with_files (l : list NzbFile) (s : ParserState) : ParserState :=
  {| ps_files := l; current_file := current_file s; current_groups := current_groups s;
     current_segments := current_segments s; in_groups := in_groups s; in_segments := in_segments s;
     meta_password := meta_password s; reading_password_meta := reading_password_meta s;
     text_buf := text_buf s |}.
Definition with_meta (p : option str) (r : bool) (s : ParserState) : ParserState :=
  {| ps_files := ps_files s; current_file := current_file s; current_groups := current_groups s;
     current_segments := current_segments s; in_groups := in_groups s; in_segments := in_segments s;
     meta_password := p; reading_password_meta := r; text_buf := text_buf s |}.

(** [parse().unwrap_or(0)] of an attribute's value. *)
Definition parse_or_0 (mx : N) (v : bytes) : N := default 0%N (parse_uint mx (from_utf8_lossy v)).

(** The last attribute with a key wins, as in the loop over them. *)
Definition attr_last {A} (key : bytes) (f : Attr → A) (dflt : A) (attrs : list Attr) : A :=
  foldl (λ acc a, if decide (attr_key a = key) then f a else acc) dflt attrs.

Definition segment_of (attrs : list Attr) : SegmentBuilder :=
  {| number_ := attr_last (tag "number") (λ a, parse_or_0 u32_max (attr_value a)) 0%N attrs;
     bytes_ := attr_last (tag "bytes") (λ a, parse_or_0 u64_max (attr_value a)) 0%N attrs;
     message_id_ := [] |}.

Definition on_start (n : bytes) (attrs : list Attr) (s : ParserState) : ParserState :=
  if decide (n = tag "file") then
    with_file (Some {| subject := attr_last (tag "subject")
                         (λ a, default (from_utf8_lossy (attr_value a)) (attr_decoded a)) [] attrs |})
      (with_groups (in_groups s) [] (with_segments (in_segments s) [] (with_text [] s)))
  else if decide (n = tag "groups") then with_groups true (current_groups s) s
  else if decide (n = tag "group") then with_text [] s
  else if decide (n = tag "segments") then with_segments true (current_segments s) s
  else if decide (n = tag "segment") then
    with_segments (in_segments s) (current_segments s ++ [segment_of attrs]) (with_text [] s)
  else if decide (n = tag "meta") then
    with_meta (meta_password s)
      (reading_password_meta s ||
       existsb (λ a, bool_decide (attr_key a = tag "type") && bool_decide (attr_value a = tag "password")) attrs)
      (with_text [] s)
  else s.

(** ** Closing a file *)
Definition valid_segment (s : SegmentBuilder) : bool :=
  bool_decide (0 < number_ s)%N && bool_decide (0 < bytes_ s)%N && negb (bool_decide (message_id_ s = [])).

(** [sort_by_key(|s| s.number)], which is stable *)
Fixpoint insert_segment (x : SegmentBuilder) (l : list SegmentBuilder) : list SegmentBuilder :=
  match l with
  | [] => [x]
  | y :: l' => if decide (number_ x ≤ number_ y)%N then x :: y :: l' else y :: insert_segment x l'
  end.
Definition sort_segments (l : list SegmentBuilder) : list SegmentBuilder := foldr insert_segment [] l.

(** [dedup_by_key(|s| s.number)] keeps the first of a run. *)
Fixpoint dedup_segments (l : list SegmentBuilder) : list SegmentBuilder :=
  match l with
  | [] => []
  | x :: l' =>
    match dedup_segments l' with
    | y :: t => if decide (number_ x = number_ y) then x :: t else x :: y :: t
    | [] => [x]
    end
  end.

Definition article_of (s : SegmentBuilder) : Article :=
  {| message_id := message_id_ s; segment_number := number_ s; a_bytes := bytes_ s; downloaded := false;
     data_begin := None; data_size := None; crc32 := None; tried_servers := []; tries := 0 |}.

Definition sum_u64 (l : list N) : N := foldl u64_add 0%N l.

(** What closing a file makes of its segments. *)
Definition kept_segments (l : list SegmentBuilder) : list SegmentBuilder :=
  dedup_segments (sort_segments (filter (λ s, valid_segment s = true) l)).

Inductive NzbError := InvalidNzb (msg : string) | ParseError.

Section parser.
Context (nfc to_lowercase : str → str) (predefined_entity : str → option str).
Context (uuid : nat → string).

Definition sanitize_filename (name : str) : str :=
  let out := filter (λ ch, dropped_char ch = false) (nfc name) in
  let trimmed := trim_end_dots (trim out) in
  if decide (trimmed = []) then lit "unnamed" else trimmed.

(** [None] is a panic. *)
Definition parse_par2_filename (filename : str) : option (option str * option N * option N) :=
  let lower := to_lowercase filename in
  if negb (ends_with (lit ".par2") lower) then Some (None, None, None)
  else
    '(without_ext, _) ← split_bytes (byte_len filename - 5) filename;
    match rfind_bytes (lit ".vol") (to_lowercase without_ext) with
    | Some vol_pos =>
      '(setname, _) ← split_bytes vol_pos without_ext;
      '(_, vol_part) ← split_bytes (vol_pos + 4) without_ext;
      match volume_numbers vol_part with
      | Some (vol, blocks) => Some (Some setname, Some vol, Some blocks)
      | None => Some (Some without_ext, None, None)
      end
    | None => Some (Some without_ext, None, None)
    end.

Definition close_file (fb : FileBuilder) (s : ParserState) : option ParserState :=
  let filename := sanitize_filename (extract_filename (subject fb)) in
  let segs := kept_segments (current_segments s) in
  let is_par2 := ends_with (lit ".par2") (to_lowercase filename) in
  '(par2_setname, par2_vol, par2_blocks) ←
    (if is_par2 then parse_par2_filename filename else Some (None, None, None));
  Some (with_files (ps_files s ++
          [{| file_id := uuid (length (ps_files s)); filename := filename;
              f_bytes := sum_u64 (bytes_ <$> segs); bytes_downloaded := 0; is_par2 := is_par2;
              par2_setname := par2_setname; par2_vol := par2_vol; par2_blocks := par2_blocks;
              assembled := false; groups := current_groups s; articles := article_of <$> segs |}])
          (with_file None (with_segments (in_segments s) [] s))).

Definition set_last_id (id : str) (l : list SegmentBuilder) : list SegmentBuilder :=
  match last l with
  | Some seg => take (length l - 1) l ++ [{| number_ := number_ seg; bytes_ := bytes_ seg; message_id_ := id |}]
  | None => l
  end.

Definition on_end (n : bytes) (s : ParserState) : option ParserState :=
  if decide (n = tag "file") then
    match current_file s with Some fb => close_file fb s | None => Some s end
  else if decide (n = tag "groups") then Some (with_groups false (current_groups s) s)
  else if decide (n = tag "group") then
    let group := trim (text_buf s) in
    Some (with_text []
      (if in_groups s && negb (bool_decide (group = []))
       then with_groups (in_groups s) (current_groups s ++ [group]) s else s))
  else if decide (n = tag "segments") then Some (with_segments false (current_segments s) s)
  else if decide (n = tag "segment") then
    Some (with_text []
      (if in_segments s
       then with_segments (in_segments s) (set_last_id (trim (text_buf s)) (current_segments s)) s else s))
  else if decide (n = tag "meta") then
    Some (with_text []
      (if reading_password_meta s then with_meta (Some (trim (text_buf s))) false s else s))
  else Some s.

Fixpoint hex_value (acc : N) (s : str) : option N :=
  match s with
  | [] => Some acc
  | c :: s' =>
    d ← (if is_ascii_digit c then Some (c - 48)%N
         else if bool_decide (97 ≤ c ≤ 102)%N then Some (c - 87)%N
         else if bool_decide (65 ≤ c ≤ 70)%N then Some (c - 55)%N else None);
    hex_value (16 * acc + d) s'
  end.

(** [u32::from_str_radix(hex, 16)] *)
Definition parse_hex (s : str) : option N :=
  let ds := match s with 43%N :: s' => s' | _ => s end in
  if decide (ds = []) then None
  else v ← hex_value 0 ds; if decide (v ≤ u32_max)%N then Some v else None.

Definition resolve_char_ref (name : str) : option N :=
  match name with
  | 35%N :: digits =>
    code ← match digits with
           | 120%N :: hex | 88%N :: hex => parse_hex hex
           | _ => parse_uint u32_max digits
           end;
    if decide (scalar code) then Some code else None
  | _ => None
  end.

(** The text a reference stands for. *)
Definition reference_text (raw : bytes) : str :=
  let name := from_utf8_lossy raw in
  match resolve_char_ref name with
  | Some ch => [ch]
  | None => match predefined_entity name with
            | Some text => text
            | None => lit "&" ++ name ++ lit ";"
            end
  end.

Definition on_event (e : Event) (s : ParserState) : option ParserState :=
  match e with
  | Start n attrs => Some (on_start n attrs s)
  | End_ n => on_end n s
  | Text raw decoded => Some (with_text (text_buf s ++ default (from_utf8_lossy raw) decoded) s)
  | CData raw => Some (with_text (text_buf s ++ from_utf8_lossy raw) s)
  | GeneralRef raw => Some (with_text (text_buf s ++ reference_text raw) s)
  | Other => Some s
  end.

(** The loop: [None] in the list is an error of the reader, the end of the
    list the end of the file. *)
Fixpoint run (events : list (option Event)) (s : ParserState) : option (result NzbError ParserState) :=
  match events with
  | [] => Some (Ok s)
  | None :: _ => Some (Err ParseError)
  | Some e :: events' => s' ← on_event e s; run events' s'
  end.

(** ** The whole parser *)
Definition rejected (data : bytes) : option string :=
  if decide (data = []) then Some "NZB data is empty"
  else if decide (take 2 data = [Byte.x1f; Byte.x8b]) then
    Some "NZB data appears to be gzip-compressed; decompress before parsing"
  else
    let prefix_lower := to_ascii_lowercase (from_utf8_lossy (take 512 data)) in
    let start := trim_start prefix_lower in
    if starts_with (lit "{") start || starts_with (lit "[") start then
      Some "NZB data appears to be a JSON response rather than an NZB XML file"
    else if contains (lit "<html") prefix_lower || contains (lit "<!doctype html") prefix_lower then
      Some "NZB data appears to be an HTML error page rather than an NZB XML file"
    else None.

Definition job_of (nm : str) (s : ParserState) : NzbJob :=
  {| name := sanitize_job_name nfc nm; category := lit "Default"; status := Queued; priority := Normal;
     total_bytes := sum_u64 (f_bytes <$> ps_files s); downloaded_bytes := 0;
     file_count := length (ps_files s); files_completed := 0;
     article_count := sum_list (length ∘ articles <$> ps_files s);
     articles_downloaded := 0; articles_failed := 0; password := meta_password s; files := ps_files s |}.

Definition parse_nzb (read_events : bytes → list (option Event)) (nm : str) (data : bytes)
    : option (result NzbError NzbJob) :=
  match rejected data with
  | Some msg => Some (Err (InvalidNzb msg))
  | None =>
    r ← run (read_events data) parser_start;
    Some (s ← r;
          if decide (ps_files s = []) then Err (InvalidNzb "No files found in NZB") else Ok (job_of nm s))
  end.
End parser.

(** ** Lemmas on strings *)
Lemma byte_len_app s t : byte_len (s ++ t) = byte_len s + byte_len t.
Proof. unfold byte_len. by rewrite as_bytes_app, length_app. Qed.

(** Cutting at the end of a prefix never panics. *)
Lemma split_bytes_app a b : split_bytes (byte_len a) (a ++ b) = Some (a, b).
Proof.
  induction a as [|c a IH]; [by destruct b|].
  pose proof (utf8_char_length c) as Hc.
  assert (byte_len (c :: a) = length (utf8_char c) + byte_len a) as E
    by (unfold byte_len; by rewrite as_bytes_cons, length_app).
  assert (∃ n, length (utf8_char c) + byte_len a = S n) as [n En] by (exists (length (utf8_char c) + byte_len a - 1); lia).
  rewrite E, En. cbn [app split_bytes]. rewrite decide_True by lia.
  replace (S n - length (utf8_char c)) with (byte_len a) by lia. by rewrite IH.
Qed.

Definition ascii (s : str) : Prop := Forall (λ c, c < 128)%N s.

Lemma byte_len_ascii s : ascii s → byte_len s = length s.
Proof.
  induction 1 as [|c s Hc _ IH]; [done|]. unfold byte_len in *.
  rewrite as_bytes_cons, length_app, IH. unfold utf8_char. by rewrite decide_True.
Qed.

Lemma ascii_lower s : ascii s → ascii (to_ascii_lowercase s).
Proof.
  intros Hs. apply Forall_fmap. eapply Forall_impl; [exact Hs|]. intros c Hc.
  unfold to_ascii_lowercase_char. simpl in *. case_bool_decide; lia.
Qed.

Lemma lower_digits s : Forall (λ c, is_ascii_digit c = true) s → to_ascii_lowercase s = s.
Proof.
  induction 1 as [|c s Hc _ IH]; [done|]. simpl. rewrite IH. f_equal.
  apply bool_decide_eq_true in Hc. unfold to_ascii_lowercase_char. rewrite bool_decide_eq_false_2; [done|lia].
Qed.

Lemma digits_ascii s : Forall (λ c, is_ascii_digit c = true) s → ascii s.
Proof. intros Hs. eapply Forall_impl; [exact Hs|]. intros c Hc%bool_decide_eq_true. lia. Qed.

Lemma ends_with_app p s : ends_with p (s ++ p) = true.
Proof. unfold ends_with. rewrite reverse_app. apply starts_with_spec. eauto. Qed.

Lemma trim_trim s : trim (trim s) = trim s.
Proof.
  destruct (trim_by_spec is_whitespace s) as (a & b & _ & _ & _ & Hh & Hl). by apply trim_by_id.
Qed.

(** ** The segments that are kept *)
Definition number_lt (x y : SegmentBuilder) : Prop := (number_ x < number_ y)%N.
Definition number_le (x y : SegmentBuilder) : Prop := (number_ x ≤ number_ y)%N.

Lemma insert_segment_Permutation x l : insert_segment x l ≡ₚ x :: l.
Proof.
  induction l as [|y l IH]; simpl; [done|]. case_decide; [done|]. by rewrite IH, Permutation_swap.
Qed.

Lemma sort_segments_Permutation l : sort_segments l ≡ₚ l.
Proof. induction l as [|x l IH]; simpl; [done|]. by rewrite insert_segment_Permutation, IH. Qed.

Lemma insert_segment_sorted x l : StronglySorted number_le l → StronglySorted number_le (insert_segment x l).
Proof.
  unfold number_le. induction 1 as [|y l Hl IH Hy]; simpl; [by repeat constructor|].
  case_decide as Hxy.
  - constructor; [by constructor|]. constructor; [done|]. eapply Forall_impl; [exact Hy|]. simpl. lia.
  - constructor; [done|]. rewrite insert_segment_Permutation. constructor; [lia|done].
Qed.

Lemma sort_segments_sorted l : StronglySorted number_le (sort_segments l).
Proof. induction l; simpl; [constructor|by apply insert_segment_sorted]. Qed.

(** The segment with a number that stands first. *)
Definition first_of (n : N) (l : list SegmentBuilder) : option SegmentBuilder :=
  head (filter (λ s, number_ s = n) l).

Lemma first_of_cons n x l : first_of n (x :: l) = if decide (number_ x = n) then Some x else first_of n l.
Proof.
  unfold first_of. case_decide; [by rewrite filter_cons_True|by rewrite filter_cons_False].
Qed.

Lemma first_of_insert n x l :
  StronglySorted number_le l → first_of n (insert_segment x l) = first_of n (x :: l).
Proof.
  intros Hs. induction Hs as [|y l Hl IH Hy]; [done|]. simpl. case_decide as Hxy; [done|].
  rewrite first_of_cons, IH, !first_of_cons. repeat case_decide; try done. lia.
Qed.

(** Sorting is stable. *)
Lemma first_of_sort n l : first_of n (sort_segments l) = first_of n l.
Proof.
  induction l as [|x l IH]; [done|]. simpl. rewrite first_of_insert by apply sort_segments_sorted.
  by rewrite !first_of_cons, IH.
Qed.

Lemma dedup_segments_subset x l : x ∈ dedup_segments l → x ∈ l.
Proof.
  revert x. induction l as [|y l IH]; intros x; simpl; [done|].
  destruct (dedup_segments l) as [|z t]; [by rewrite list_elem_of_singleton; intros ->; left|].
  case_decide; rewrite !elem_of_cons; intros [->|Hin]; [by left|right|by left|right].
  - apply IH. by right.
  - apply IH. by rewrite elem_of_cons.
Qed.

Lemma dedup_segments_sorted l :
  StronglySorted number_le l →
  StronglySorted number_lt (dedup_segments l) ∧ ∀ n, first_of n (dedup_segments l) = first_of n l.
Proof.
  induction 1 as [|x l Hl [IHs IHf] Hx]; simpl; [split; [constructor|done]|].
  assert (Forall (number_le x) (dedup_segments l)) as Hxd.
  { apply Forall_forall. intros y Hy%dedup_segments_subset. rewrite Forall_forall in Hx. auto. }
  destruct (dedup_segments l) as [|y t]; [split; [repeat constructor|]|].
  - intros n. rewrite !first_of_cons. by rewrite <-IHf.
  - apply StronglySorted_inv in IHs as [Ht Hyt]. case_decide as Hxy; split.
    + constructor; [done|]. eapply Forall_impl; [exact Hyt|]. unfold number_lt. intros z. lia.
    + intros n. rewrite !first_of_cons, <-IHf, first_of_cons. repeat case_decide; try done. lia.
    + apply Forall_cons in Hxd as [Hle _]. unfold number_le, number_lt in *.
      constructor; [by constructor|]. constructor; [lia|]. eapply Forall_impl; [exact Hyt|]. simpl. intros z. lia.
    + intros n. by rewrite !(first_of_cons n x), <-IHf.
Qed.

Lemma sorted_first_of l x : StronglySorted number_lt l → x ∈ l ↔ first_of (number_ x) l = Some x.
Proof.
  induction 1 as [|y l Hl IH Hy]; [by rewrite elem_of_nil; split|]. rewrite elem_of_cons, first_of_cons.
  rewrite Forall_forall in Hy. case_decide as E.
  - split; [|by intros [= ->]; left]. intros [->|Hin]; [done|]. apply Hy in Hin. unfold number_lt in Hin. lia.
  - rewrite <-IH. split; [intros [->|]; done|auto].
Qed.

Lemma kept_segments_sorted l : StronglySorted number_lt (kept_segments l).
Proof. apply dedup_segments_sorted, sort_segments_sorted. Qed.

Lemma kept_segments_subset l x : x ∈ kept_segments l → x ∈ l ∧ valid_segment x = true.
Proof.
  intros Hx%dedup_segments_subset. rewrite sort_segments_Permutation in Hx.
  apply list_elem_of_filter in Hx. tauto.
Qed.

Lemma first_of_Some n x l :
  first_of n l = Some x ↔
  number_ x = n ∧ ∃ l1 l2, l = l1 ++ x :: l2 ∧ ∀ y, y ∈ l1 → number_ y ≠ n.
Proof.
  induction l as [|y l IH].
  - split; [done|]. intros (_ & [|z l1] & l2 & [=] & _).
  - rewrite first_of_cons. case_decide as E.
    + split.
      * intros [= ->]. split; [done|]. exists [], l. split; [done|]. by intros z Hz%elem_of_nil.
      * intros (Hx & [|z l1] & l2 & [= -> ->] & Hb); [done|]. exfalso. by apply (Hb z); [left|].
    + rewrite IH. split.
      * intros (Hx & l1 & l2 & -> & Hb). split; [done|]. exists (y :: l1), l2. split; [done|].
        intros z [->|Hz]%elem_of_cons; auto.
      * intros (Hx & [|z l1] & l2 & [= -> ->] & Hb); [done|]. split; [done|]. exists l1, l2.
        split; [done|]. intros w Hw. apply Hb. by right.
Qed.

Lemma filter_split {A} (P : A → Prop) `{!∀ x, Decision (P x)} l m1 x m2 :
  filter P l = m1 ++ x :: m2 → ∃ l1 l2, l = l1 ++ x :: l2 ∧ filter P l1 = m1 ∧ P x.
Proof.
  revert m1. induction l as [|y l IH]; intros m1; [by destruct m1|].
  destruct (decide (P y)) as [Hy|Hy].
  - rewrite filter_cons_True by done. destruct m1 as [|z m1]; intros [= -> Hf].
    + exists [], l. done.
    + destruct (IH _ Hf) as (l1 & l2 & -> & <- & Hx). exists (z :: l1), l2. split; [done|].
      by rewrite filter_cons_True.
  - rewrite filter_cons_False by done. intros Hf. destruct (IH _ Hf) as (l1 & l2 & -> & <- & Hx).
    exists (y :: l1), l2. split; [done|]. by rewrite filter_cons_False.
Qed.

(** The segments a file keeps: in increasing order of their numbers, they
    are the valid ones that no valid one with the same number comes before. *)
Theorem kept_segments_exact (l : list SegmentBuilder) :
  StronglySorted number_lt (kept_segments l) ∧
  ∀ x, x ∈ kept_segments l ↔
    valid_segment x = true ∧
    ∃ l1 l2, l = l1 ++ x :: l2 ∧ ∀ y, y ∈ l1 → valid_segment y = true → number_ y ≠ number_ x.
Proof.
  split; [apply kept_segments_sorted|]. intros x.
  rewrite sorted_first_of by apply kept_segments_sorted. unfold kept_segments.
  rewrite (proj2 (dedup_segments_sorted _ (sort_segments_sorted _))), first_of_sort, first_of_Some. split.
  - intros (_ & m1 & m2 & Hf & Hb). destruct (filter_split _ _ _ _ _ Hf) as (l1 & l2 & -> & <- & Hx).
    split; [done|]. exists l1, l2. split; [done|]. intros y Hy Hv. apply Hb. by apply list_elem_of_filter.
  - intros (Hv & l1 & l2 & -> & Hb). split; [done|].
    exists (filter (λ s, valid_segment s = true) l1), (filter (λ s, valid_segment s = true) l2).
    rewrite filter_app, filter_cons_True by done. split; [done|].
    intros y [Hvy Hy]%list_elem_of_filter. by apply Hb.
Qed.

(** ** Jobs the parser gives *)
Record article_ok (a : Article) : Prop := {
  ok_number : (0 < segment_number a)%N;
  ok_bytes : (0 < a_bytes a)%N;
  ok_id : message_id a ≠ [];
  ok_trimmed : trim (message_id a) = message_id a;
  ok_fresh : downloaded a = false ∧ data_begin a = None ∧ tried_servers a = [] ∧ tries a = 0%N;
}.

Section properties.
Context (nfc to_lowercase : str → str) (predefined_entity : str → option str) (uuid : nat → string).

Record file_ok (i : nat) (f : NzbFile) : Prop := {
  ok_file_id : file_id f = uuid i;
  ok_articles : Forall article_ok (articles f);
  ok_order : StronglySorted (λ a b, segment_number a < segment_number b)%N (articles f);
  ok_size : f_bytes f = sum_u64 (a_bytes <$> articles f);
  ok_name : filename f ≠ [] ∧ Forall (λ c, dropped_char c = false) (filename f);
  ok_par2 : is_par2 f = ends_with (lit ".par2") (to_lowercase (filename f));
  ok_volume : par2_vol f = None ↔ par2_blocks f = None;
  ok_content : is_par2 f = false → par2_setname f = None ∧ par2_vol f = None;
  ok_groups : Forall (λ g, g ≠ [] ∧ trim g = g) (groups f);
}.

Record job_ok (j : NzbJob) : Prop := {
  ok_files : ∀ i f, files j !! i = Some f → file_ok i f;
  ok_some : files j ≠ [];
  ok_total : total_bytes j = sum_u64 (f_bytes <$> files j);
  ok_counts : file_count j = length (files j) ∧ article_count j = sum_list (length ∘ articles <$> files j);
  ok_job_name : safe_component (name j) = Some (name j);
  ok_queued : status j = Queued ∧ priority j = Normal ∧ downloaded_bytes j = 0%N;
}.

Record state_ok (s : ParserState) : Prop := {
  st_files : ∀ i f, ps_files s !! i = Some f → file_ok i f;
  st_ids : Forall (λ x, trim (message_id_ x) = message_id_ x) (current_segments s);
  st_groups : Forall (λ g, g ≠ [] ∧ trim g = g) (current_groups s);
}.

Lemma sanitize_filename_ok nm :
  sanitize_filename nfc nm ≠ [] ∧ Forall (λ c, dropped_char c = false) (sanitize_filename nfc nm).
Proof.
  unfold sanitize_filename. cbv zeta. case_decide as Ht; [split; [done|by repeat constructor]|].
  split; [done|]. apply Forall_forall. intros c Hc.
  destruct (trim_end_by_spec (λ c, bool_decide (c = DOT)) (trim (filter (λ ch, dropped_char ch = false) (nfc nm))))
    as [(b & Hb & _) _].
  assert (c ∈ trim (filter (λ ch, dropped_char ch = false) (nfc nm))) as Hin.
  { rewrite Hb. apply elem_of_app. by left. }
  apply trim_by_elem_of, list_elem_of_filter in Hin. tauto.
Qed.

Lemma articles_ok l :
  Forall (λ x, trim (message_id_ x) = message_id_ x) l →
  Forall article_ok (article_of <$> kept_segments l) ∧
  StronglySorted (λ a b, segment_number a < segment_number b)%N (article_of <$> kept_segments l).
Proof.
  intros Hl. split.
  - apply Forall_fmap, Forall_forall. intros x [Hx Hv]%kept_segments_subset. rewrite Forall_forall in Hl.
    unfold valid_segment in Hv. rewrite !andb_true_iff, negb_true_iff, !bool_decide_eq_true, bool_decide_eq_false in Hv.
    destruct Hv as [[H1 H2] H3]. split; simpl; auto.
  - induction (kept_segments_sorted l) as [|x k Hk IH Hx]; simpl; constructor; [done|].
    apply Forall_fmap. eapply Forall_impl; [exact Hx|]. done.
Qed.

Lemma parse_par2_volume f sn v b :
  parse_par2_filename to_lowercase f = Some (sn, v, b) → v = None ↔ b = None.
Proof.
  unfold parse_par2_filename. cbv zeta. case_match; [by intros [= <- <- <-]|].
  intros ([w ?] & _ & Hs)%bind_Some. case_match; [|by injection Hs as <- <- <-].
  apply bind_Some in Hs as ([? ?] & _ & Hs). apply bind_Some in Hs as ([? ?] & _ & Hs).
  destruct (volume_numbers _) as [[? ?]|]; by injection Hs as <- <- <-.
Qed.

Lemma close_file_ok fb s s' :
  state_ok s → close_file nfc to_lowercase uuid fb s = Some s' → state_ok s'.
Proof.
  intros [Hf Hi Hg] (r & Hr & Hs)%bind_Some. destruct r as [[sn v] b]. injection Hs as <-.
  split; simpl; [|constructor|done]. intros i f.
  rewrite lookup_app_Some. intros [Hlk|[Hlen Hlk]]; [by apply Hf|].
  apply list_lookup_singleton_Some in Hlk as [Hi0 <-].
  destruct (articles_ok (current_segments s) Hi). assert (i = length (ps_files s)) as -> by lia.
  split; simpl; try done.
  - f_equal. rewrite <-list_fmap_compose. done.
  - apply sanitize_filename_ok.
  - destruct (ends_with _ _); [by eapply parse_par2_volume|by injection Hr as <- <- <-].
  - intros Hp. rewrite Hp in Hr. by injection Hr as <- <- <-.
Qed.

Lemma set_last_id_ok id l :
  trim id = id → Forall (λ x, trim (message_id_ x) = message_id_ x) l →
  Forall (λ x, trim (message_id_ x) = message_id_ x) (set_last_id id l).
Proof.
  intros Hid Hl. unfold set_last_id. destruct (last l); [|done]. apply Forall_app. split; [by apply Forall_take|].
  by repeat constructor.
Qed.

Lemma on_end_ok n s s' :
  state_ok s → on_end nfc to_lowercase uuid n s = Some s' → state_ok s'.
Proof.
  intros Hok. unfold on_end. destruct Hok as [Hf Hi Hg] eqn:E. clear E.
  repeat case_decide; [destruct (current_file s); [by apply close_file_ok|]|..]; intros [= <-];
    try (by split); [| |].
  - split; simpl; try done; try (by destruct (_ && _)).
    destruct (_ && _) eqn:Hb; simpl; [|done]. apply Forall_app. split; [done|]. constructor; [|done].
    apply andb_true_iff in Hb as [_ Hb%negb_true_iff%bool_decide_eq_false]. split; [done|apply trim_trim].
  - split; simpl; try (by destruct (in_segments s)).
    destruct (in_segments s); simpl; [|done]. apply set_last_id_ok; [apply trim_trim|done].
  - split; simpl; by destruct (reading_password_meta s).
Qed.

Lemma on_start_ok n attrs s : state_ok s → state_ok (on_start n attrs s).
Proof.
  intros [Hf Hi Hg]. unfold on_start. repeat case_decide; split; simpl; try done.
  apply Forall_app. split; [done|]. by repeat constructor.
Qed.

Lemma run_ok events s r :
  state_ok s → run nfc to_lowercase predefined_entity uuid events s = Some (Ok r) → state_ok r.
Proof.
  revert s. induction events as [|[e|] events IH]; intros s Hs; simpl; [by intros [= <-]| |done].
  intros (s' & He & Hr)%bind_Some. apply (IH s'); [|done]. clear Hr IH.
  destruct e; simpl in He; [injection He as <-; by apply on_start_ok|by eapply on_end_ok|..];
    injection He as <-; destruct Hs; by split.
Qed.

(** C35. Whatever the data, a job the parser gives is well formed: it has
    files, each with the id it was given, a name without control, bidirectional
    or illegal characters, groups that are trimmed and not empty, and fresh
    articles in strictly increasing order of their positive numbers, each of
    positive size and with a trimmed, non-empty message-id; volume numbers come
    together and on PAR2 files only; and the totals of the job add up. *)
Theorem parse_nzb_well_formed read_events nm data j :
  parse_nzb nfc to_lowercase predefined_entity uuid read_events nm data = Some (Ok j) → job_ok j.
Proof.
  unfold parse_nzb. destruct (rejected data); [done|]. intros (r & Hr & Hj)%bind_Some.
  injection Hj as Hj. destruct r as [s|]; [|done]. simpl in Hj. case_decide as Hne; [done|]. injection Hj as <-.
  assert (state_ok s) as [Hf _ _] by (eapply run_ok; [|exact Hr]; by split).
  split; simpl; try done.
  apply (tidy_safe_component nfc), tidy_sanitized.
Qed.

(** ** Documents *)
Definition is_text (e : Event) : bool :=
  match e with Text _ _ | CData _ | GeneralRef _ => true | _ => false end.
Definition is_gap (e : Event) : bool := match e with Other => true | _ => is_text e end.

Definition text_of (e : Event) : str :=
  match e with
  | Text raw decoded => default (from_utf8_lossy raw) decoded
  | CData raw => from_utf8_lossy raw
  | GeneralRef raw => reference_text predefined_entity raw
  | _ => []
  end.

Record SegmentDoc := { d_number : N; d_bytes : N; d_id : list Event }.
Record FileDoc := { d_subject : str; d_groups : list (list Event); d_segments : list SegmentDoc }.

Definition number_attr (key : string) (n : N) : Attr :=
  {| attr_key := tag key; attr_value := as_bytes (show_N n); attr_decoded := None |}.

(** The events of a document, with [gap] between its elements. *)
Definition segment_events (gap : list Event) (d : SegmentDoc) : list Event :=
  Start (tag "segment") [number_attr "bytes" (d_bytes d); number_attr "number" (d_number d)] ::
  d_id d ++ End_ (tag "segment") :: gap.
Definition group_events (gap group : list Event) : list Event :=
  Start (tag "group") [] :: group ++ End_ (tag "group") :: gap.
Definition file_events (gap : list Event) (d : FileDoc) : list Event :=
  Start (tag "file") [{| attr_key := tag "subject"; attr_value := []; attr_decoded := Some (d_subject d) |}] ::
  gap ++ Start (tag "groups") [] :: gap ++ (d_groups d ≫= group_events gap) ++ End_ (tag "groups") ::
  gap ++ Start (tag "segments") [] :: gap ++ (d_segments d ≫= segment_events gap) ++ End_ (tag "segments") ::
  gap ++ End_ (tag "file") :: gap.
Definition nzb_events (gap : list Event) (docs : list FileDoc) : list (option Event) :=
  Some <$> Start (tag "nzb") [] :: gap ++ (docs ≫= file_events gap) ++ [End_ (tag "nzb")].

Definition segment_ok (d : SegmentDoc) : Prop :=
  (d_number d ≤ u32_max)%N ∧ (d_bytes d ≤ u64_max)%N ∧ Forall (λ e, is_text e = true) (d_id d).
Definition doc_ok (d : FileDoc) : Prop :=
  Forall segment_ok (d_segments d) ∧ Forall (Forall (λ e, is_text e = true)) (d_groups d).

Definition segment_of_doc (d : SegmentDoc) : SegmentBuilder :=
  {| number_ := d_number d; bytes_ := d_bytes d; message_id_ := trim (d_id d ≫= text_of) |}.

(** The file a document describes; [None] where its name makes the code panic. *)
Definition file_of_doc (i : nat) (d : FileDoc) : option NzbFile :=
  let filename := sanitize_filename nfc (extract_filename (d_subject d)) in
  let segs := kept_segments (segment_of_doc <$> d_segments d) in
  let par2 := ends_with (lit ".par2") (to_lowercase filename) in
  '(setname, vol, blocks) ← (if par2 then parse_par2_filename to_lowercase filename else Some (None, None, None));
  Some {| file_id := uuid i; filename := filename; f_bytes := sum_u64 (bytes_ <$> segs);
          bytes_downloaded := 0; is_par2 := par2; par2_setname := setname; par2_vol := vol;
          par2_blocks := blocks; assembled := false;
          groups := filter (λ g, g ≠ []) ((λ g, trim (g ≫= text_of)) <$> d_groups d);
          articles := article_of <$> segs |}.

Abbreviation run_nzb := (run nfc to_lowercase predefined_entity uuid).

Lemma run_gap gap rest s :
  Forall (λ e, is_gap e = true) gap →
  run_nzb ((Some <$> gap) ++ rest) s = run_nzb rest (with_text (text_buf s ++ (gap ≫= text_of)) s).
Proof.
  intros Hg. revert s. induction Hg as [|e gap He _ IH]; intros s.
  - simpl. rewrite app_nil_r. by destruct s.
  - destruct e; try done; simpl; rewrite IH; simpl; f_equal; unfold with_text; simpl; f_equal; by rewrite app_assoc.
Qed.

Lemma is_text_gap l : Forall (λ e, is_text e = true) l → Forall (λ e, is_gap e = true) l.
Proof. intros Hl. eapply Forall_impl; [exact Hl|]. by intros []. Qed.

Lemma number_attr_value mx key n : (n ≤ mx)%N → parse_or_0 mx (attr_value (number_attr key n)) = n.
Proof.
  intros Hn. unfold parse_or_0. simpl. rewrite from_utf8_lossy_as_bytes, parse_uint_show; [done|done|].
  eapply Forall_impl; [apply show_N_digits|]. intros c Hc%bool_decide_eq_true. left. lia.
Qed.

Lemma run_segment gap d rest s :
  Forall (λ e, is_gap e = true) gap → segment_ok d → in_segments s = true →
  ∃ t, run_nzb ((Some <$> segment_events gap d) ++ rest) s =
       run_nzb rest (with_text t (with_segments true (current_segments s ++ [segment_of_doc d]) s)).
Proof.
  intros Hg (Hn & Hb & Ht) Hin. unfold segment_events. rewrite fmap_cons, fmap_app, fmap_cons.
  cbn [app]. rewrite <-app_assoc. simpl run at 1. rewrite run_gap by by apply is_text_gap. simpl.
  rewrite Hin. eexists. rewrite run_gap by done. simpl. f_equal. unfold with_text, with_segments; simpl. f_equal.
  unfold set_last_id. rewrite last_snoc, length_app. simpl.
  rewrite Nat.add_sub, take_app_length. do 2 f_equal. unfold segment_of, segment_of_doc. simpl. f_equal.
  - by apply (number_attr_value u32_max "number").
  - by apply (number_attr_value u64_max "bytes").
Qed.

Lemma run_segments gap ds rest s :
  Forall (λ e, is_gap e = true) gap → Forall segment_ok ds → in_segments s = true →
  ∃ t, run_nzb ((Some <$> (ds ≫= segment_events gap)) ++ rest) s =
       run_nzb rest (with_text t (with_segments true (current_segments s ++ (segment_of_doc <$> ds)) s)).
Proof.
  intros Hg Hds. revert s. induction Hds as [|d ds Hd _ IH]; intros s Hin.
  - exists (text_buf s). simpl. rewrite app_nil_r. f_equal. destruct s; simpl in *. by rewrite Hin.
  - rewrite bind_cons, fmap_app, <-app_assoc. destruct (run_segment gap d ((Some <$> (ds ≫= segment_events gap)) ++ rest) s Hg Hd Hin)
      as [t ->].
    destruct (IH (with_text t (with_segments true (current_segments s ++ [segment_of_doc d]) s)) eq_refl) as [t' ->].
    exists t'. f_equal. unfold with_text, with_segments; simpl. by rewrite <-app_assoc.
Qed.

Lemma run_group gap g rest s :
  Forall (λ e, is_gap e = true) gap → Forall (λ e, is_text e = true) g → in_groups s = true →
  ∃ t, run_nzb ((Some <$> group_events gap g) ++ rest) s =
       run_nzb rest (with_text t (with_groups true
         (current_groups s ++ filter (λ g, g ≠ []) [trim (g ≫= text_of)]) s)).
Proof.
  intros Hg Ht Hin. unfold group_events. rewrite fmap_cons, fmap_app, fmap_cons.
  cbn [app]. rewrite <-app_assoc. simpl run at 1. rewrite run_gap by by apply is_text_gap. simpl.
  rewrite Hin. simpl. rewrite run_gap by done. eexists. f_equal.
  destruct (decide (trim (g ≫= text_of) = [])) as [E|E].
  - rewrite E. simpl. rewrite filter_cons_False, filter_nil, app_nil_r by naive_solver. destruct s; simpl in *. by rewrite Hin.
  - rewrite bool_decide_eq_false_2 by done. simpl. by rewrite filter_cons_True.
Qed.

Lemma run_groups gap gs rest s :
  Forall (λ e, is_gap e = true) gap → Forall (Forall (λ e, is_text e = true)) gs → in_groups s = true →
  ∃ t, run_nzb ((Some <$> (gs ≫= group_events gap)) ++ rest) s =
       run_nzb rest (with_text t (with_groups true
         (current_groups s ++ filter (λ g, g ≠ []) ((λ g, trim (g ≫= text_of)) <$> gs)) s)).
Proof.
  intros Hg Hds. revert s. induction Hds as [|d ds Hd _ IH]; intros s Hin.
  - exists (text_buf s). simpl. rewrite app_nil_r. f_equal. destruct s; simpl in *. by rewrite Hin.
  - rewrite bind_cons, fmap_app, <-app_assoc. destruct (run_group gap d ((Some <$> (ds ≫= group_events gap)) ++ rest) s Hg Hd Hin)
      as [t ->].
    destruct (IH (with_text t (with_groups true
         (current_groups s ++ filter (λ g, g ≠ []) [trim (d ≫= text_of)]) s)) eq_refl) as [t' ->].
    exists t'. f_equal. unfold with_text, with_groups; simpl. rewrite <-app_assoc, <-filter_app. done.
Qed.

Lemma on_end_groups s :
  on_end nfc to_lowercase uuid (tag "groups") s = Some (with_groups false (current_groups s) s).
Proof. done. Qed.
Lemma on_end_segments s :
  on_end nfc to_lowercase uuid (tag "segments") s = Some (with_segments false (current_segments s) s).
Proof. done. Qed.
Lemma on_end_file s fb :
  current_file s = Some fb →
  on_end nfc to_lowercase uuid (tag "file") s = close_file nfc to_lowercase uuid fb s.
Proof. intros E. unfold on_end. by rewrite decide_True, E. Qed.

Lemma run_file gap d rest s :
  Forall (λ e, is_gap e = true) gap → doc_ok d →
  match file_of_doc (length (ps_files s)) d with
  | Some f => ∃ s', run_nzb ((Some <$> file_events gap d) ++ rest) s = run_nzb rest s' ∧
                    ps_files s' = ps_files s ++ [f] ∧ meta_password s' = meta_password s
  | None => run_nzb ((Some <$> file_events gap d) ++ rest) s = None
  end.
Proof.
  intros Hg [Hsegs Hgroups]. unfold file_events.
  repeat (rewrite fmap_cons || rewrite fmap_app || rewrite <-app_assoc || rewrite <-app_comm_cons).
  cbn [run on_event]. cbn [mbind option_bind]. rewrite run_gap by done.
  cbn [run on_event]. cbn [mbind option_bind]. rewrite run_gap by done.
  edestruct (run_groups gap (d_groups d)) as [t1 ->]; [done|done|done|].
  cbn [run on_event]. rewrite on_end_groups. cbn [mbind option_bind]. rewrite run_gap by done.
  cbn [run on_event]. cbn [mbind option_bind]. rewrite run_gap by done.
  edestruct (run_segments gap (d_segments d)) as [t2 ->]; [done|done|done|].
  cbn [run on_event]. rewrite on_end_segments. cbn [mbind option_bind]. rewrite run_gap by done.
  cbn [run on_event]. rewrite (on_end_file _ {| subject := d_subject d |}) by done.
  unfold close_file, file_of_doc. simpl.
  destruct (if ends_with _ _ then _ else _) as [[[sn v] b]|]; simpl; [|done].
  rewrite run_gap by done. eexists. split; [done|]. done.
Qed.

Lemma run_files gap docs rest s :
  Forall (λ e, is_gap e = true) gap → Forall doc_ok docs →
  match mapM (λ x, file_of_doc x.1 x.2) (imap (λ i d, (length (ps_files s) + i, d)) docs) with
  | Some fs => ∃ s', run_nzb ((Some <$> (docs ≫= file_events gap)) ++ rest) s = run_nzb rest s' ∧
                     ps_files s' = ps_files s ++ fs ∧ meta_password s' = meta_password s
  | None => run_nzb ((Some <$> (docs ≫= file_events gap)) ++ rest) s = None
  end.
Proof.
  intros Hg Hdocs. revert s. induction Hdocs as [|d docs Hd _ IH]; intros s.
  - simpl. exists s. by rewrite app_nil_r.
  - rewrite bind_cons, fmap_app, <-app_assoc. cbn [imap]. cbn [mapM]. rewrite Nat.add_0_r. cbn [fst snd].
    pose proof (run_file gap d ((Some <$> (docs ≫= file_events gap)) ++ rest) s Hg Hd) as Hf.
    destruct (file_of_doc (length (ps_files s)) d) as [f|]; [|done]. cbn [mbind option_bind].
    destruct Hf as (s1 & -> & Hps & Hm). specialize (IH s1).
    assert (imap (λ i d, (length (ps_files s1) + i, d)) docs = imap ((λ i d, (length (ps_files s) + i, d)) ∘ S) docs) as E.
    { apply imap_ext. intros i x _. simpl. rewrite Hps, length_app. simpl. f_equal. lia. }
    rewrite E in IH. destruct (mapM _ _) as [fs|]; simpl; [|done].
    destruct IH as (s2 & -> & Hps2 & Hm2). exists s2. split; [done|].
    rewrite Hps2, Hps, <-app_assoc. split; [done|congruence].
Qed.

(** C36. The parser reads a document back: given the events of a list of files
    with any text between the elements, message-ids and groups written in any
    mix of plain text, character data and references, it gives exactly those
    files in order, and fails exactly when there are none. *)
Theorem parse_nzb_roundtrip read_events nm data gap docs :
  rejected data = None → read_events data = nzb_events gap docs →
  Forall (λ e, is_gap e = true) gap → Forall doc_ok docs →
  parse_nzb nfc to_lowercase predefined_entity uuid read_events nm data =
  (fs ← mapM (λ x, file_of_doc x.1 x.2) (imap pair docs);
   Some (if decide (fs = []) then Err (InvalidNzb "No files found in NZB")
         else Ok (job_of nfc nm (with_files fs parser_start)))).
Proof.
  intros Hr He Hg Hdocs. unfold parse_nzb, nzb_events in *. rewrite Hr, He.
  rewrite fmap_cons, fmap_app, fmap_app. cbn [run on_event]. cbn [mbind option_bind].
  rewrite run_gap by done.
  pose proof (run_files gap docs (Some <$> [End_ (tag "nzb")])
                (with_text (text_buf (on_start (tag "nzb") [] parser_start) ++ (gap ≫= text_of))
                   (on_start (tag "nzb") [] parser_start)) Hg Hdocs) as Hf.
  cbn [ps_files with_text] in Hf. change (length (ps_files _)) with 0 in Hf. simpl plus in Hf.
  destruct (mapM _ _) as [fs|]; [|by rewrite Hf].
  destruct Hf as (s' & -> & Hps & Hm). simpl in *. unfold job_of. rewrite Hps, Hm. case_decide; done.
Qed.
End properties.

(** ** Names of PAR2 volumes *)
Section par2_names.
Context (to_lowercase : str → str).
Context (to_lowercase_ascii : ∀ s, ascii s → to_lowercase s = to_ascii_lowercase s).

Definition volume_name (setname : str) (vol : N) (sep : N) (blocks : N) : str :=
  setname ++ lit ".vol" ++ show_N vol ++ sep :: show_N blocks ++ lit ".par2".

Lemma starts_with_head a p s j : starts_with (a :: p) (drop j s) = true → s !! j = Some a.
Proof.
  intros [t Ht]%starts_with_spec. pose proof (lookup_drop s j 0) as H0. by rewrite Ht, Nat.add_0_r in H0.
Qed.

Lemma find_separator ds sep rest :
  Forall (λ c, is_ascii_digit c = true) ds → sep = 43%N ∨ sep = 45%N →
  list_find (λ c, c = 43%N ∨ c = 45%N) (ds ++ sep :: rest) = Some (length ds, sep).
Proof.
  intros Hd Hs. induction Hd as [|c ds Hc _ IH]; simpl; [by rewrite decide_True|].
  apply bool_decide_eq_true in Hc. rewrite decide_False by lia. by rewrite IH.
Qed.

Lemma number_show n : (n ≤ u32_max)%N → number (show_N n) = Some n.
Proof.
  intros Hn. unfold number. rewrite bool_decide_eq_false_2 by apply show_N_nonempty. simpl.
  assert (forallb is_ascii_digit (show_N n) = true) as ->.
  { apply forallb_forall. intros c Hc%list_elem_of_In. pose proof (show_N_digits n) as Hd.
    rewrite Forall_forall in Hd. auto. }
  by apply parse_uint_show.
Qed.

Lemma volume_numbers_show vol sep blocks :
  sep = 43%N ∨ sep = 45%N → (vol ≤ u32_max)%N → (blocks ≤ u32_max)%N →
  volume_numbers (show_N vol ++ sep :: show_N blocks) = Some (vol, blocks).
Proof.
  intros Hs Hv Hb. unfold volume_numbers. rewrite find_separator by (done || apply show_N_digits). simpl.
  rewrite take_app_length, number_show by done. simpl.
  rewrite Nat.add_comm. simpl. rewrite cons_middle, app_assoc, drop_app_length'; [|rewrite length_app; simpl; lia].
  by rewrite number_show.
Qed.

(** The name of a recovery volume is read back: its set, and both numbers,
    whatever the set is called and whichever separator is used; and the name
    of an index gives its set alone. *)
Theorem parse_par2_filename_roundtrip (setname : str) (vol sep blocks : N) :
  ascii setname → sep = 43%N ∨ sep = 45%N → (vol ≤ u32_max)%N → (blocks ≤ u32_max)%N →
  parse_par2_filename to_lowercase (volume_name setname vol sep blocks) = Some (Some setname, Some vol, Some blocks) ∧
  (contains (lit ".vol") (to_ascii_lowercase setname) = false →
   parse_par2_filename to_lowercase (setname ++ lit ".par2") = Some (Some setname, None, None)).
Proof.
  intros Ha Hs Hv Hb.
  assert (∀ w, ascii w → parse_par2_filename to_lowercase (w ++ lit ".par2") =
            match rfind_bytes (lit ".vol") (to_ascii_lowercase w) with
            | Some vol_pos =>
              '(setname, _) ← split_bytes vol_pos w; '(_, vol_part) ← split_bytes (vol_pos + 4) w;
              match volume_numbers vol_part with
              | Some (vol, blocks) => Some (Some setname, Some vol, Some blocks)
              | None => Some (Some w, None, None)
              end
            | None => Some (Some w, None, None)
            end) as Hw.
  { intros w Hw. unfold parse_par2_filename. cbv zeta.
    rewrite to_lowercase_ascii by (apply Forall_app; split; [done|by repeat constructor]).
    rewrite lower_app, ends_with_app. cbn [negb].
    replace (byte_len (w ++ lit ".par2") - 5) with (byte_len w) by (rewrite byte_len_app; change (byte_len (lit ".par2")) with 5; lia).
    rewrite split_bytes_app. cbn [mbind option_bind]. by rewrite to_lowercase_ascii. }
  pose proof (show_N_digits vol) as Dv. pose proof (show_N_digits blocks) as Db.
  assert (ascii (sep :: show_N blocks)) as Asb by (constructor; [lia|by apply digits_ascii]).
  assert (ascii (show_N vol ++ sep :: show_N blocks)) as Anum by (apply Forall_app; split; [by apply digits_ascii|done]).
  split.
  - set (w := setname ++ lit ".vol" ++ show_N vol ++ sep :: show_N blocks).
    assert (volume_name setname vol sep blocks = w ++ lit ".par2") as ->.
    { unfold volume_name, w. by rewrite <-!app_assoc. }
    rewrite Hw; [|apply Forall_app; split; [done|]; apply Forall_app; split; [by repeat constructor|done]].
    assert (rfind_bytes (lit ".vol") (to_ascii_lowercase w) = Some (byte_len setname)) as ->.
    { unfold rfind_bytes, w. rewrite !lower_app. change (to_ascii_lowercase (lit ".vol")) with (lit ".vol").
      rewrite (rfind_sub_at _ _ (length (to_ascii_lowercase setname))).
      - simpl. rewrite take_app_length, !byte_len_ascii; [by unfold to_ascii_lowercase; rewrite length_map|done|by apply ascii_lower].
      - rewrite length_app. lia.
      - by rewrite drop_app_length.
      - intros j Hj _. destruct (starts_with _ _) eqn:E; [|done]. apply starts_with_head in E.
        rewrite lookup_app_r in E by lia. revert E. rewrite <-lower_app.
        set (tl := to_ascii_lowercase (show_N vol ++ _)). intros E.
        remember (j - length (to_ascii_lowercase setname)) as k eqn:Ek.
        destruct k as [|[|[|[|k]]]]; [lia|done..|]. simpl in E.
        apply list_elem_of_lookup_2, list_elem_of_fmap in E as (c & Ec & Hin).
        assert (c = 46%N) as -> by (unfold to_ascii_lowercase_char in Ec; case_bool_decide; lia).
        rewrite Forall_forall in Dv, Db.
        apply elem_of_app in Hin as [Hin%Dv|[<-|Hin%Db]%elem_of_cons]; [done|lia|done]. }
    unfold w. rewrite split_bytes_app. cbn [mbind option_bind].
    replace (byte_len setname + 4) with (byte_len (setname ++ lit ".vol")) by (rewrite byte_len_app; done).
    rewrite app_assoc, split_bytes_app. cbn [mbind option_bind]. by rewrite volume_numbers_show.
  - intros Hc. rewrite Hw by done. unfold rfind_bytes.
    destruct (rfind_sub _ _) as [i|] eqn:Hr; [|done]. exfalso.
    destruct (rfind_sub_Some _ _ _ Hr) as ([t Ht] & Hl & _). rewrite contains_false in Hc.
    specialize (Hc i). assert (starts_with (lit ".vol") (drop i (to_ascii_lowercase setname)) = true) as Hx; [|by rewrite Hx in Hc].
    apply starts_with_spec. exists t. rewrite Ht at 1. apply drop_app_length'. rewrite length_take. lia.
Qed.
End par2_names.

(** ** Examples *)
Module NzbExample.
Definition lower (s : str) : str := s ≫= λ c, if decide (c = 0x130)%N then [105; 0x307]%N else [to_ascii_lowercase_char c].
Definition entity (n : str) : option str := if decide (n = lit "amp") then Some (lit "&") else None.
Definition uuid (i : nat) : string := pretty i.
Definition data : bytes := tag "<nzb>".

(** Segments out of order, one twice, one without an id, an id in pieces. *)
Definition doc : FileDoc :=
  {| d_subject := [34%N] ++ lit "a.vol00+02.par2" ++ [34%N] ++ lit " (1/2)";
     d_groups := [[Text [] (Some (lit " alt.bin "))]];
     d_segments :=
       [{| d_number := 2; d_bytes := 5; d_id := [Text [] (Some (lit "b")); GeneralRef (tag "amp"); CData (tag "c@x ")] |};
        {| d_number := 1; d_bytes := 7; d_id := [Text [] (Some (lit "a@x"))] |};
        {| d_number := 2; d_bytes := 9; d_id := [Text [] (Some (lit "late@x"))] |};
        {| d_number := 3; d_bytes := 4; d_id := [] |}] |}.
Definition read_events (_ : bytes) : list (option Event) := nzb_events [Other] [doc].

(** A name that grows in lower case is cut past its end. *)
Example hostile_name_panics :
  parse_par2_filename lower (replicate 5 0x130%N ++ lit ".vol.par2") = None.
Proof. by vm_compute. Qed.

(** A quoted subject names any place on the disk: the file is joined to the
    work directory as it is. *)
Example name_leaves_work_dir :
  let relative := sanitize_filename (λ s, s) (extract_filename ([34%N] ++ lit "../../x.rar" ++ [34%N])) in
  let absolute := sanitize_filename (λ s, s) (extract_filename ([34%N] ++ lit "/etc/x" ++ [34%N])) in
  components (push (lit "/w/job") relative) =
    [RootDir; Path.Normal (lit "w"); Path.Normal (lit "job"); ParentDir; ParentDir; Path.Normal (lit "x.rar")] ∧
  push (lit "/w/job") absolute = lit "/etc/x".
Proof. by vm_compute. Qed.
End NzbExample.

(** [kept_segments_exact], [parse_nzb_well_formed] and [parse_nzb_roundtrip]
    on the document of the example. *)
Lemma parse_nzb_well_formed_witness :
  ∃ j, parse_nzb (λ s, s) NzbExample.lower NzbExample.entity NzbExample.uuid NzbExample.read_events (lit "n")
         NzbExample.data = Some (Ok j) ∧
       job_ok NzbExample.lower NzbExample.uuid j.
Proof.
  eexists. split; [vm_compute; reflexivity|].
  apply (parse_nzb_well_formed (λ s, s) NzbExample.lower NzbExample.entity NzbExample.uuid
           NzbExample.read_events (lit "n") NzbExample.data).
  vm_compute. reflexivity.
Defined.

Lemma parse_nzb_roundtrip_witness :
  ∃ j, parse_nzb (λ s, s) NzbExample.lower NzbExample.entity NzbExample.uuid NzbExample.read_events (lit "n")
         NzbExample.data = Some (Ok j) ∧
       (segment_number <$> (files j ≫= articles)) = [1; 2]%N ∧
       (message_id <$> (files j ≫= articles)) = [lit "a@x"; lit "b&c@x"] ∧
       (par2_blocks <$> files j) = [Some 2%N].
Proof.
  rewrite (parse_nzb_roundtrip (λ s, s) NzbExample.lower NzbExample.entity NzbExample.uuid
             NzbExample.read_events (lit "n") NzbExample.data [Other] [NzbExample.doc]).
  - eexists. split; [vm_compute; reflexivity|]. by vm_compute.
  - by vm_compute.
  - done.
  - by repeat constructor.
  - repeat constructor; by vm_compute.
Defined.

Lemma parse_par2_filename_roundtrip_witness :
  parse_par2_filename to_ascii_lowercase (volume_name (lit "My.Set") 7 45 16) =
  Some (Some (lit "My.Set"), Some 7%N, Some 16%N).
Proof.
  apply (parse_par2_filename_roundtrip to_ascii_lowercase (λ s _, eq_refl) (lit "My.Set") 7 45 16);
    [by repeat constructor|by right|by vm_compute..].
Defined.
