(* ===== verification/Capabilities.v ===== *)
(** * NNTP server capabilities

    Models [crates/nzb-nntp/src/capabilities.rs]: the CAPABILITIES reply parsed
    into feature flags. *)
From S2P Require Import Prelude Str.

Record NntpCapabilities := MkCaps {
  version : option str;
  implementation : option str;
  reader : bool;
  post : bool;
  ihave : bool;
  newnews : bool;
  hdr : bool;
  over : bool;
  over_msgid : bool;
  list_keywords : list str;
  mode_reader_required : bool;
  compress : bool;
  other : list str;
  have_body : bool;
  have_stat : bool;
  have_article : bool;
  have_head : bool;
  probed : bool;
}.

(** [Default::default()] *)
Definition caps_default : NntpCapabilities :=
  MkCaps None None false false false false false false false [] false false [] false false false false false.

(** All four content commands, available or not. *)
Definition with_content (c : NntpCapabilities) (b : bool) : NntpCapabilities :=
  MkCaps (version c) (implementation c) (reader c) (post c) (ihave c) (newnews c) (hdr c) (over c)
    (over_msgid c) (list_keywords c) (mode_reader_required c) (compress c) (other c) b b b b (probed c).

Definition default_assumed : NntpCapabilities :=
  MkCaps None None true false false false false false false [] false false [] true true true true false.

(** The labels of the [match] in [parse]. *)
Inductive Label :=
  | VERSION | IMPLEMENTATION | READER | POST | IHAVE | NEWNEWS | HDR | OVER | LIST
  | MODE_READER | COMPRESS | OTHER.

#[export] Instance Label_eq_dec : EqDecision Label.
Proof. solve_decision. Defined.

Definition label_of (word : str) : Label :=
  let w := to_ascii_uppercase word in
  if decide (w = lit "VERSION") then VERSION
  else if decide (w = lit "IMPLEMENTATION") then IMPLEMENTATION
  else if decide (w = lit "READER") then READER
  else if decide (w = lit "POST") then POST
  else if decide (w = lit "IHAVE") then IHAVE
  else if decide (w = lit "NEWNEWS") then NEWNEWS
  else if decide (w = lit "HDR") then HDR
  else if decide (w = lit "OVER") then OVER
  else if decide (w = lit "LIST") then LIST
  else if decide (w = lit "MODE-READER") then MODE_READER
  else if decide (w = lit "COMPRESS" ∨ w = lit "XFEATURE-COMPRESS") then COMPRESS
  else OTHER.

(** One arm of the [match]. *)
Definition apply_label (c : NntpCapabilities) (l : Label) (args : list str) (line : str)
    : NntpCapabilities :=
  let '(MkCaps v i r p ih nn h o om lk mr co ot hb hs ha hh pr) := c in
  match l with
  | VERSION => MkCaps (head args) i r p ih nn h o om lk mr co ot hb hs ha hh pr
  | IMPLEMENTATION => MkCaps v (Some (join [SP] args)) r p ih nn h o om lk mr co ot hb hs ha hh pr
  | READER => MkCaps v i true p ih nn h o om lk mr co ot hb hs ha hh pr
  | POST => MkCaps v i r true ih nn h o om lk mr co ot hb hs ha hh pr
  | IHAVE => MkCaps v i r p true nn h o om lk mr co ot hb hs ha hh pr
  | NEWNEWS => MkCaps v i r p ih true h o om lk mr co ot hb hs ha hh pr
  | HDR => MkCaps v i r p ih nn true o om lk mr co ot hb hs ha hh pr
  | OVER => MkCaps v i r p ih nn h true (existsb (eq_ignore_ascii_case (lit "MSGID")) args) lk mr co ot hb hs ha hh pr
  | LIST => MkCaps v i r p ih nn h o om (map to_ascii_uppercase args) mr co ot hb hs ha hh pr
  | MODE_READER => MkCaps v i r p ih nn h o om lk true co ot hb hs ha hh pr
  | COMPRESS => MkCaps v i r p ih nn h o om lk mr true ot hb hs ha hh pr
  | OTHER => MkCaps v i r p ih nn h o om lk mr co (ot ++ [line]) hb hs ha hh pr
  end.

Definition parse_line (c : NntpCapabilities) (raw_line : str) : NntpCapabilities :=
  let line := trim raw_line in
  match split_whitespace line with
  | [] => c
  | label :: args => apply_label c (label_of label) args line
  end.

Definition parse (body : bytes) : NntpCapabilities :=
  let text := default [] (from_utf8 body) in
  let start := MkCaps None None false false false false false false false [] false false [] false false false false true in
  let caps := foldl parse_line start (lines text) in
  let reader_active := reader caps || mode_reader_required caps in
  let caps := with_content caps reader_active in
  if negb reader_active && (over caps || hdr caps || post caps || ihave caps)
  then with_content caps true else caps.

(** ** The flags *)

(** A line of the reply carrying the label. *)
Definition advertises (ls : list str) (l : Label) : bool :=
  existsb (λ raw, match split_whitespace (trim raw) with
                  | [] => false
                  | w :: _ => bool_decide (label_of w = l)
                  end) ls.

(** The boolean flag a label raises. *)
Definition flag (l : Label) (c : NntpCapabilities) : bool :=
  match l with
  | READER => reader c | POST => post c | IHAVE => ihave c | NEWNEWS => newnews c
  | HDR => hdr c | OVER => over c | MODE_READER => mode_reader_required c | COMPRESS => compress c
  | _ => false
  end.

Definition is_flag (l : Label) : bool :=
  match l with VERSION | IMPLEMENTATION | LIST | OTHER => false | _ => true end.

Lemma flag_apply_label l c l' args line :
  is_flag l = true → flag l (apply_label c l' args line) = flag l c || bool_decide (l' = l).
Proof.
  destruct c. destruct l, l'; simpl; try done; intros _; by rewrite ?orb_false_r, ?orb_true_r.
Qed.

Lemma flag_parse_lines l ls c :
  is_flag l = true → flag l (foldl parse_line c ls) = flag l c || advertises ls l.
Proof.
  intros Hl. revert c. induction ls as [|raw ls IH]; intros c; simpl; [by rewrite orb_false_r|].
  rewrite IH. unfold parse_line. destruct (split_whitespace (trim raw)) as [|w args]; [done|].
  rewrite flag_apply_label by done. by rewrite orb_assoc.
Qed.

Definition unknown_lines (ls : list str) : list str :=
  omap (λ raw, match split_whitespace (trim raw) with
               | [] => None
               | w :: _ => if decide (label_of w = OTHER) then Some (trim raw) else None
               end) ls.

Lemma other_parse_lines ls c :
  other (foldl parse_line c ls) = other c ++ unknown_lines ls.
Proof.
  revert c. induction ls as [|raw ls IH]; intros c; simpl; [by rewrite app_nil_r|].
  rewrite IH. unfold parse_line, unknown_lines. simpl.
  destruct (split_whitespace (trim raw)) as [|w args]; [done|].
  destruct c, (label_of w); simpl; try done. by rewrite <-app_assoc.
Qed.

Lemma flag_with_content l c b : flag l (with_content c b) = flag l c.
Proof. by destruct l. Qed.

(** What [parse] reports of a reply: each flag is set exactly when a line's
    first word is its label, in any case; the four content commands are assumed
    together, when the server is a reader, may become one, or advertises any of
    OVER, HDR, POST and IHAVE; the lines of unknown labels are kept in order. A
    reply that is not UTF-8 counts as an empty one. *)
Theorem parse_flags (body : bytes) :
  let ls := lines (default [] (from_utf8 body)) in
  let caps := parse body in
  probed caps = true ∧
  (∀ l, is_flag l = true → flag l caps = advertises ls l) ∧
  (∀ have, have ∈ [have_body; have_stat; have_article; have_head] →
    have caps = existsb (advertises ls) [READER; MODE_READER; OVER; HDR; POST; IHAVE]) ∧
  other caps = unknown_lines ls.
Proof.
  intros ls caps. unfold caps, parse. fold ls.
  set (start := MkCaps None _ _ _ _ _ _ _ _ _ _ _ _ _ _ _ _ _).
  pose proof (λ l Hl, flag_parse_lines l ls start Hl) as Hf.
  pose proof (other_parse_lines ls start) as Ho.
  assert (probed (foldl parse_line start ls) = true) as Hp.
  { assert (probed start = true) as Hs by done. revert Hs. generalize start. clear.
    induction ls as [|raw ls IH]; intros c Hc; simpl; [done|]. apply IH. unfold parse_line.
    destruct (split_whitespace (trim raw)); [done|]. by destruct c, (label_of _). }
  set (cs := foldl parse_line start ls) in *.
  pose proof (Hf READER eq_refl) as H1. pose proof (Hf MODE_READER eq_refl) as H2.
  pose proof (Hf OVER eq_refl) as H3. pose proof (Hf HDR eq_refl) as H4.
  pose proof (Hf POST eq_refl) as H5. pose proof (Hf IHAVE eq_refl) as H6.
  change (flag READER cs) with (reader cs) in H1. change (flag MODE_READER cs) with (mode_reader_required cs) in H2.
  change (flag OVER cs) with (over cs) in H3. change (flag HDR cs) with (hdr cs) in H4.
  change (flag POST cs) with (post cs) in H5. change (flag IHAVE cs) with (ihave cs) in H6.
  simpl in H1, H2, H3, H4, H5, H6.
  split_and!.
  - case_match; done.
  - intros l Hl. assert (flag l cs = advertises ls l) as <- by (rewrite (Hf l Hl); by destruct l).
    case_match; by rewrite !flag_with_content.
  - intros have Hh. cbn [existsb]. rewrite <-H1, <-H2, <-H3, <-H4, <-H5, <-H6.
    simpl. assert (∀ c b, have (with_content c b) = b) as Hb.
    { intros c b. rewrite !elem_of_cons in Hh. by destruct Hh as [->|[->|[->|[->|?%elem_of_nil]]]]. }
    destruct (reader cs), (mode_reader_required cs), (over cs), (hdr cs), (post cs), (ihave cs);
      simpl; by rewrite ?Hb.
  - case_match; done.
Qed.
