(* ===== verification/Wire.v ===== *)
(** * The NNTP connection: transport, replies and multi-line bodies

    Models the lower half of [crates/nzb-nntp/src/connection.rs] and the errors
    of [error.rs]. The socket is [Transport]: what the peer will send, as a
    list of bytes, stalls (a read that outlasts its timeout) and failures,
    ending where the peer closes; what was written; and the outcome of the next
    writes. An error's text is its format template and arguments. The logging,
    the liveness heartbeat and the pool of reused body buffers are left out. *)
From S2P Require Import Prelude Str Capabilities.

(** ** Errors *)
Inductive text := Fmt (template : string) (args : list str).
Definition Text (s : str) : text := Fmt "{}" [s].

Inductive NntpError :=
  | Connection (t : text) | Tls (t : text) | Auth (t : text) | AuthRequired (t : text)
  | PermissionDenied (t : text) | ServiceUnavailable (t : text) | ArticleNotFound (t : text)
  | NoSuchGroup (t : text) | NoArticleSelected (t : text) | Protocol (t : text)
  | UnsupportedCommand (t : text) | ResponseTooLarge (t : text) | Io (t : text)
  | NoConnectionsAvailable (t : text) | Timeout (t : text) | AllServersExhausted (t : text)
  | Shutdown.

(** [unexpected_article_response] *)
Definition unexpected_article_response (code : N) (message : str) : NntpError :=
  let normalized := to_ascii_lowercase message in
  let has w := contains (lit w) normalized in
  let expired_session :=
    bool_decide (code = 400%N) &&
    ((has "idle" && has "timeout")
     || (has "session" && (has "timeout" || has "expired" || has "closed"))) in
  if expired_session
  then Connection (Fmt "NNTP session expired ({}): {}" [show_N code; message])
  else Protocol (Fmt "Unexpected ARTICLE response {}: {}" [show_N code; message]).

(** ** Replies *)
Record NntpResponse := { code : N; message : str; data : option bytes }.

Definition with_data (r : NntpResponse) (d : bytes) : NntpResponse :=
  {| code := code r; message := message r; data := Some d |}.

Definition is_success (r : NntpResponse) : bool := bool_decide (200 ≤ code r < 300)%N.
Definition needs_auth (r : NntpResponse) : bool := bool_decide (code r = 480)%N.

Definition digit_of (b : byte) : N := Byte.to_N b - 48.

Definition parse_response_line (line : str) : result NntpError NntpResponse :=
  let trimmed := trim_end_by (λ c, bool_decide (c = CR ∨ c = NL)) line in
  let bs := as_bytes trimmed in
  if decide (length bs < 3)
  then Err (Protocol (Fmt "Response line too short: {:?}" [trimmed]))
  else if forallb (λ b, is_ascii_digit (Byte.to_N b)) (take 3 bs) then
    Ok {| code := foldl (λ acc b, acc * 10 + digit_of b)%N 0%N (take 3 bs);
          message := drop 1 (drop 3 trimmed); data := None |}
  else Err (Protocol (Fmt "Invalid response code in: {:?}" [trimmed])).

(** ** The transport *)
Inductive inp := InByte (b : byte) | InStall | InFail (msg : str).

Record Transport := {
  input : list inp;
  output : bytes;
  (** the outcome of the next writes and flushes: a failure's message, or
      success; writes succeed when the list is used up *)
  writes : list (option str);
}.

Inductive ConnectionState :=
  | Disconnected | Connecting | Authenticating | Ready | Busy | ErrorState | PeerClosed.

#[export] Instance ConnectionState_eq_dec : EqDecision ConnectionState.
Proof. solve_decision. Defined.

(** [{:?}] of a state *)
Definition state_name (s : ConnectionState) : str :=
  lit match s with
      | Disconnected => "Disconnected" | Connecting => "Connecting"
      | Authenticating => "Authenticating" | Ready => "Ready" | Busy => "Busy"
      | ErrorState => "Error" | PeerClosed => "PeerClosed"
      end.

Record NntpConnection := MkConn {
  server_id : str;
  state : ConnectionState;
  transport : option Transport;
  compress_enabled : bool;
  capabilities : NntpCapabilities;
}.

Definition new (id : str) : NntpConnection := MkConn id Disconnected None false default_assumed.

Definition with_state (c : NntpConnection) (s : ConnectionState) : NntpConnection :=
  MkConn (server_id c) s (transport c) (compress_enabled c) (capabilities c).
Definition with_transport (c : NntpConnection) (t : option Transport) : NntpConnection :=
  MkConn (server_id c) (state c) t (compress_enabled c) (capabilities c).
Definition with_compress (c : NntpConnection) (b : bool) : NntpConnection :=
  MkConn (server_id c) (state c) (transport c) b (capabilities c).
Definition with_capabilities (c : NntpConnection) (k : NntpCapabilities) : NntpConnection :=
  MkConn (server_id c) (state c) (transport c) (compress_enabled c) k.

(** ** The connection monad: a state and an error *)
Definition M (A : Type) : Type := NntpConnection → NntpConnection * result NntpError A.

#[export] Instance M_ret : MRet M := λ A x c, (c, Ok x).
#[export] Instance M_bind : MBind M := λ A B k m c,
  match m c with
  | (c', Ok x) => k x c'
  | (c', Err e) => (c', Err e)
  end.

Definition throw {A} (e : NntpError) : M A := λ c, (c, Err e).
Definition lift {A} (r : result NntpError A) : M A := λ c, (c, r).
Definition gets {A} (g : NntpConnection → A) : M A := λ c, (c, Ok (g c)).
Definition modify (g : NntpConnection → NntpConnection) : M unit := λ c, (g c, Ok tt).
Definition set_state (s : ConnectionState) : M unit := modify (λ c, with_state c s).

(** [.inspect_err(|_| self.state = ConnectionState::Error)] *)
Definition or_error {A} (m : M A) : M A := λ c,
  match m c with
  | (c', Err e) => (with_state c' ErrorState, Err e)
  | (c', Ok x) => (c', Ok x)
  end.

(** The result of a call, caught by the caller. *)
Definition attempt {A} (m : M A) : M (result NntpError A) := λ c, let '(c', r) := m c in (c', Ok r).

(** ** Writing *)
Definition not_connected : NntpError := Connection (Text (lit "Not connected")).

(** One write or flush of the bytes [b]. *)
Definition write (b : bytes) : M unit := λ c,
  match transport c with
  | None => (c, Err not_connected)
  | Some t =>
    match writes t with
    | Some msg :: ws =>
      (with_transport c (Some {| input := input t; output := output t; writes := ws |}),
       Err (Io (Text msg)))
    | ws =>
      (with_transport c (Some {| input := input t; output := output t ++ b; writes := tail ws |}), Ok tt)
    end
  end.

Definition send_command_no_flush (cmd : str) : M unit := write (as_bytes (cmd ++ [CR; NL])).
Definition flush : M unit := write [].
Definition send_command (cmd : str) : M unit := send_command_no_flush cmd;; flush.

(** ** Reading a line *)
Inductive line_read := Line (b : bytes) | Stalled | Failed (msg : str).

(** [read_until(b'\n')]: the line with its line feed, or what the peer sent
    before closing. *)
Fixpoint read_until (acc : bytes) (i : list inp) : list inp * line_read :=
  match i with
  | [] => ([], Line acc)
  | InByte b :: i' =>
    if decide (b = Byte.x0a) then (i', Line (acc ++ [b])) else read_until (acc ++ [b]) i'
  | InStall :: i' => (i', Stalled)
  | InFail msg :: i' => (i', Failed msg)
  end.

Definition read_line_bytes : M line_read := λ c,
  match transport c with
  | None => (c, Err not_connected)
  | Some t =>
    let '(i', r) := read_until [] (input t) in
    (with_transport c (Some {| input := i'; output := output t; writes := writes t |}), Ok r)
  end.

Definition read_response_line : M NntpResponse :=
  r ← read_line_bytes;
  match r with
  | Stalled => throw (Io (Fmt "read_response_line timed out after {}s" [show_N 60]))
  | Failed msg => throw (Io (Text msg))
  | Line [] => throw (Connection (Text (lit "Server closed connection")))
  | Line b =>
    match from_utf8 b with
    | None => throw (Io (Text (lit "stream did not contain valid UTF-8")))
    | Some line => lift (parse_response_line line)
    end
  end.

(** ** Multi-line bodies *)
Definition dot : byte := Byte.x2e.
Definition crlf : bytes := [Byte.x0d; Byte.x0a].

Definition is_terminator (line : bytes) : bool :=
  bool_decide (line = dot :: crlf ∨ line = [dot; Byte.x0a]).

(** A line beginning with two dots loses the first. *)
Definition unstuff (line : bytes) : bytes :=
  match line with
  | b0 :: b1 :: rest => if decide (b0 = dot ∧ b1 = dot) then b1 :: rest else line
  | _ => line
  end.

Definition over_bound (mx : option nat) (n : nat) : bool :=
  match mx with Some m => bool_decide (m < n) | None => false end.

(** The loop of [read_multiline_body_into_bounded] over what the peer sends;
    every turn reads at least one item or ends. *)
Fixpoint body_loop (fuel : nat) (mx : option nat) (out : bytes) (i : list inp)
    : list inp * result NntpError bytes :=
  match fuel with
  | 0 => (i, Ok out)
  | S fuel' =>
    match read_until [] i with
    | (i', Stalled) =>
      (i', Err (Io (Fmt "read_multiline_body timed out after {}s (received {} bytes so far)"
                      [show_N 20; show_N (N.of_nat (length out))])))
    | (i', Failed msg) => (i', Err (Io (Text msg)))
    | (i', Line []) =>
      (i', Err (Connection (Text (lit "Server closed connection during multi-line read"))))
    | (i', Line line) =>
      if is_terminator line then (i', Ok out)
      else
        let l := unstuff line in
        if over_bound mx (length out + length l)
        then (i', Err (ResponseTooLarge (Text (lit "multi-line response exceeds its byte bound"))))
        else body_loop fuel' mx (out ++ l) i'
    end
  end.

Definition read_multiline_body_into_bounded (mx : option nat) : M bytes := λ c,
  match transport c with
  | None => (c, Err not_connected)
  | Some t =>
    let '(i', r) := body_loop (S (length (input t))) mx [] (input t) in
    (with_transport c (Some {| input := i'; output := output t; writes := writes t |}), r)
  end.

Definition read_multiline_body : M bytes := read_multiline_body_into_bounded None.
Definition read_multiline_body_bounded (m : nat) : M bytes := read_multiline_body_into_bounded (Some m).

Record BodyPrefixResponse := { prefix_data : bytes; complete : bool }.

(** The loop of [read_multiline_body_prefix]. *)
Fixpoint prefix_loop (fuel mx : nat) (out : bytes) (i : list inp)
    : list inp * result NntpError BodyPrefixResponse :=
  match fuel with
  | 0 => (i, Ok {| prefix_data := out; complete := false |})
  | S fuel' =>
    match read_until [] i with
    | (i', Stalled) => (i', Err (Timeout (Text (lit "BODY prefix line timed out"))))
    | (i', Failed msg) => (i', Err (Io (Text msg)))
    | (i', Line []) =>
      (i', Err (Connection (Text (lit "Server closed connection during BODY prefix"))))
    | (i', Line line) =>
      if is_terminator line then (i', Ok {| prefix_data := out; complete := true |})
      else if decide (16 * 1024 < N.of_nat (length line))%N
      then (i', Err (ResponseTooLarge (Text (lit "BODY prefix line exceeds its byte bound"))))
      else
        let l := unstuff line in
        let remaining := mx - length out in
        let out' := out ++ take remaining l in
        if decide (remaining < length l ∨ length out' = mx)
        then (i', Ok {| prefix_data := out'; complete := false |})
        else prefix_loop fuel' mx out' i'
    end
  end.

Definition read_multiline_body_prefix (mx : nat) : M BodyPrefixResponse := λ c,
  match transport c with
  | None => (c, Err not_connected)
  | Some t =>
    let '(i', r) := prefix_loop (S (length (input t))) mx [] (input t) in
    (with_transport c (Some {| input := i'; output := output t; writes := writes t |}), r)
  end.

Definition mark_peer_closed (c : NntpConnection) : NntpConnection := with_state c PeerClosed.
Definition is_connected (c : NntpConnection) : bool :=
  bool_decide (is_Some (transport c)) && bool_decide (state c ≠ Disconnected).
Definition disable_compression (c : NntpConnection) : NntpConnection := with_compress c false.

(** ** Lines on the wire *)

(** A line as the reader sees it: it ends at its only line feed. *)
Definition wire_line (l : bytes) : Prop := ∃ p, l = p ++ [Byte.x0a] ∧ Byte.x0a ∉ p.

Definition sent (b : bytes) : list inp := InByte <$> b.

Lemma read_until_line acc p rest :
  Byte.x0a ∉ p → read_until acc (sent (p ++ [Byte.x0a]) ++ rest) = (rest, Line (acc ++ p ++ [Byte.x0a])).
Proof.
  revert acc. induction p as [|b p IH]; intros acc Hp; simpl; [done|].
  apply not_elem_of_cons in Hp as [Hb Hp]. rewrite decide_False by congruence.
  rewrite IH by done. by rewrite <-app_assoc.
Qed.

Lemma read_until_wire_line l rest :
  wire_line l → read_until [] (sent l ++ rest) = (rest, Line l).
Proof. intros (p & -> & Hp). by apply read_until_line. Qed.

(** A read never lengthens the input, and a line consumes its bytes. *)
Lemma read_until_split i : ∀ acc i' r,
  read_until acc i = (i', r) →
  match r with
  | Line l => ∃ p, l = acc ++ p ∧ i = sent p ++ i' ∧ (p = [] ∧ i' = [] ∨ wire_line p ∨ i' = [])
  | _ => True
  end ∧ length i' ≤ length i.
Proof.
  induction i as [|x i IH]; intros acc i' r; simpl.
  { intros [= <- <-]. split; [|done]. exists []. rewrite app_nil_r. eauto. }
  destruct x as [b| |msg]; [|by intros [= <- <-]; split; [|simpl; lia]..].
  case_decide as Hb.
  - intros [= <- <-]. split; [|simpl; lia]. exists [b]. split_and!; [done|done|].
    right; left. exists []. subst. split; [done|apply not_elem_of_nil].
  - intros Hr. destruct (IH _ _ _ Hr) as [Hl Hlen]. split; [|simpl; lia].
    destruct r as [l| |]; [|done..]. destruct Hl as (p & -> & -> & Hp).
    exists (b :: p). rewrite <-app_assoc. split_and!; [done|done|].
    destruct Hp as [[-> ->]|[(q & -> & Hq)| ->]]; [by do 2 right| |by do 2 right].
    right; left. exists (b :: q). split; [done|]. apply not_elem_of_cons. split; [congruence|done].
Qed.

(** ** Dot-stuffing *)

(** What a server sends for a line: a leading dot is doubled. *)
Definition stuff (line : bytes) : bytes :=
  match line with
  | b :: _ => if decide (b = dot) then dot :: line else line
  | [] => []
  end.

Lemma unstuff_stuff l : unstuff (stuff l) = l.
Proof.
  destruct l as [|b l]; simpl; [done|]. case_decide as Hb; simpl.
  - subst. rewrite decide_True by done. done.
  - destruct l as [|b1 l]; [done|]. rewrite decide_False by naive_solver. done.
Qed.

Lemma stuff_not_terminator l : is_terminator (stuff l) = false.
Proof.
  unfold is_terminator. apply bool_decide_eq_false. unfold stuff, crlf.
  destruct l as [|b l]; [by intros [|]|]. case_decide as Hb; [|intros [[=]|[=]]; congruence].
  subst b. by intros [[=]|[=]].
Qed.

Lemma wire_line_stuff l : wire_line l → wire_line (stuff l).
Proof.
  intros (p & -> & Hp). unfold stuff. destruct p as [|b p]; simpl.
  - by exists [].
  - case_decide as Hb; [|by exists (b :: p)]. exists (dot :: b :: p). split; [done|].
    apply not_elem_of_cons. split; [done|done].
Qed.

Lemma wire_line_ne l : wire_line l → l ≠ [].
Proof. intros (p & -> & _). by destruct p. Qed.

Lemma wire_terminator : wire_line (dot :: crlf).
Proof. exists [dot; Byte.x0d]. split; [done|]. by rewrite !not_elem_of_cons; split_and!; [..|apply not_elem_of_nil]. Qed.

Lemma body_loop_terminator fuel mx out rest :
  body_loop (S fuel) mx out (sent (dot :: crlf) ++ rest) = (rest, Ok out).
Proof. cbn [body_loop]. rewrite (read_until_wire_line _ _ wire_terminator). done. Qed.

Lemma body_loop_line fuel mx out l rest :
  wire_line l →
  body_loop (S fuel) mx out (sent (stuff l) ++ rest) =
    if over_bound mx (length out + length l)
    then (rest, Err (ResponseTooLarge (Text (lit "multi-line response exceeds its byte bound"))))
    else body_loop fuel mx (out ++ l) rest.
Proof.
  intros Hl. pose proof (wire_line_stuff l Hl) as Hs. cbn [body_loop].
  rewrite (read_until_wire_line _ _ Hs). pose proof (wire_line_ne _ Hs) as Hne.
  destruct (stuff l) as [|b s] eqn:E; [done|]. rewrite <-E, stuff_not_terminator, unstuff_stuff. done.
Qed.

(** The encoding of a body: its lines stuffed, then the terminator. *)
Definition encode_body (ls : list bytes) : bytes := concat (map stuff ls) ++ dot :: crlf.

Lemma body_loop_encode ls : ∀ fuel mx out rest,
  Forall wire_line ls → length ls < fuel → over_bound mx (length out + length (concat ls)) = false →
  body_loop fuel mx out (sent (encode_body ls) ++ rest) = (rest, Ok (out ++ concat ls)).
Proof.
  unfold encode_body. induction ls as [|l ls IH]; intros fuel mx out rest Hls Hf Hb.
  - destruct fuel as [|fuel]; [lia|]. simpl concat. rewrite app_nil_r. apply body_loop_terminator.
  - destruct fuel as [|fuel]; [simpl in Hf; lia|]. apply Forall_cons in Hls as [Hl Hls].
    simpl in Hb. rewrite length_app in Hb. simpl concat.
    rewrite <-app_assoc. unfold sent in *. rewrite fmap_app, <-app_assoc.
    rewrite body_loop_line by done.
    assert (over_bound mx (length out + length l) = false) as ->.
    { destruct mx; simpl in *; [|done]. apply bool_decide_eq_false in Hb. apply bool_decide_eq_false. lia. }
    rewrite IH; [by rewrite <-app_assoc|done|simpl in Hf; lia|].
    rewrite length_app. by rewrite <-Nat.add_assoc.
Qed.

Lemma body_loop_too_large ls : ∀ fuel m out rest,
  Forall wire_line ls → length ls < fuel → length out ≤ m → m < length out + length (concat ls) →
  ∃ i', body_loop fuel (Some m) out (sent (encode_body ls) ++ rest) =
    (i', Err (ResponseTooLarge (Text (lit "multi-line response exceeds its byte bound")))).
Proof.
  unfold encode_body. induction ls as [|l ls IH]; intros fuel m out rest Hls Hf Ho Hm.
  - simpl in Hm. lia.
  - destruct fuel as [|fuel]; [simpl in Hf; lia|]. apply Forall_cons in Hls as [Hl Hls].
    simpl in Hm. rewrite length_app in Hm. simpl concat.
    rewrite <-app_assoc. unfold sent in *. rewrite fmap_app, <-app_assoc, body_loop_line by done.
    simpl. case_bool_decide; [eauto|].
    apply IH; [done|simpl in Hf; lia|rewrite length_app; lia|rewrite length_app; lia].
Qed.

Lemma encode_body_length ls : Forall wire_line ls → length ls < S (length (encode_body ls)).
Proof.
  unfold encode_body. rewrite length_app. intros Hls.
  assert (length ls ≤ length (concat (map stuff ls))) as Hle; [|lia].
  induction Hls as [|l ls Hl _ IH]; simpl; [done|]. rewrite length_app.
  apply wire_line_stuff, wire_line_ne in Hl. destruct (stuff l); simpl; [done|lia].
Qed.

Definition with_input (c : NntpConnection) (i : list inp) : NntpConnection :=
  match transport c with
  | Some t => with_transport c (Some {| input := i; output := output t; writes := writes t |})
  | None => c
  end.

Lemma read_body_encoded mx ls rest c :
  Forall wire_line ls → over_bound mx (length (concat ls)) = false →
  input <$> transport c = Some (sent (encode_body ls) ++ rest) →
  read_multiline_body_into_bounded mx c = (with_input c rest, Ok (concat ls)).
Proof.
  intros Hls Hb Hi. unfold read_multiline_body_into_bounded, with_input.
  destruct (transport c) as [t|]; [|done]. simpl in Hi. injection Hi as Hi. rewrite Hi.
  pose proof (encode_body_length ls Hls) as Hlen. rewrite body_loop_encode; [done|done| |done].
  unfold sent. rewrite length_app, length_fmap. lia.
Qed.

(** C18. A body of any lines a server sends dot-stuffed is read back exactly,
    however its lines begin, and the reader stops right after the terminator;
    with a bound, a body within it is read the same, and a larger one is refused
    with [ResponseTooLarge] and never returned cut. *)
Theorem body_roundtrip (ls : list bytes) (rest : list inp) (mx : option nat) (c : NntpConnection) :
  Forall wire_line ls → input <$> transport c = Some (sent (encode_body ls) ++ rest) →
  if over_bound mx (length (concat ls))
  then (read_multiline_body_into_bounded mx c).2 =
         Err (ResponseTooLarge (Text (lit "multi-line response exceeds its byte bound")))
  else read_multiline_body_into_bounded mx c = (with_input c rest, Ok (concat ls)).
Proof.
  intros Hls Hi. destruct (over_bound mx (length (concat ls))) eqn:Hb; [|by apply read_body_encoded].
  destruct mx as [m|]; [|done]. apply bool_decide_eq_true in Hb.
  unfold read_multiline_body_into_bounded. destruct (transport c) as [t|]; [|done].
  simpl in Hi. injection Hi as Hi. rewrite Hi. pose proof (encode_body_length ls Hls) as Hlen.
  destruct (body_loop_too_large ls (S (length (sent (encode_body ls) ++ rest))) m [] rest Hls) as [i' Hr];
    [unfold sent; rewrite length_app, length_fmap; lia|simpl; lia|done|]. by rewrite Hr.
Qed.
