(* ===== verification/Overview.v ===== *)
(** * Lossless overview rows

    Models [crates/nzb-nntp/src/overview.rs]: the reply to LIST OVERVIEW.FMT,
    and the rows of an XOVER reply, sorted into rows that can be kept whole and
    defective ones kept as they came. *)
From S2P Require Import Prelude Str Wire.

Definition bytes_of (s : string) : bytes := as_bytes (lit s).
Definition LF : byte := Byte.x0a.
Definition TABB : byte := Byte.x09.

Definition REQUIRED_HEADER_FIELDS : list bytes :=
  map bytes_of ["Subject:"%string; "From:"%string; "Date:"%string; "Message-ID:"%string; "References:"%string].
Definition MAX_OVERVIEW_FIELDS : nat := 64.
Definition MAX_FIELD_DESCRIPTOR_BYTES : nat := 256.

Record OverviewFormat := { fields : list bytes }.

Record LosslessOverviewRow := { article_number : N; row_fields : list bytes }.

Inductive DefectiveOverviewRowCode :=
  | ArticleNumberInvalid | ArticleNumberOutOfRange | DuplicateArticleNumber | FieldCountInvalid.

Definition as_str (c : DefectiveOverviewRowCode) : string :=
  match c with
  | ArticleNumberInvalid => "article_number_invalid"
  | ArticleNumberOutOfRange => "article_number_out_of_range"
  | DuplicateArticleNumber => "duplicate_article_number"
  | FieldCountInvalid => "field_count_invalid"
  end.

Record DefectiveOverviewRow := {
  def_number : option N; wire_line_bytes : bytes; failure_code : DefectiveOverviewRowCode }.

Record LosslessOverviewRows := {
  ov_rows : list LosslessOverviewRow; defective_rows : list DefectiveOverviewRow }.

(** The non-empty lines, each without its line end. *)
Definition wire_lines (d : bytes) : list bytes :=
  filter (λ l, l ≠ []) (map (strip_last Byte.x0d) (split_by (λ b, bool_decide (b = LF)) d)).

Definition lower (b : byte) : N := to_ascii_lowercase_char (Byte.to_N b).
Definition eq_ignore_case (a b : bytes) : bool := bool_decide (map lower a = map lower b).

Definition is_ascii (b : byte) : bool := bool_decide (Byte.to_N b < 128)%N.

Definition descriptor_ok (f : bytes) : bool :=
  negb (bool_decide (f = [])) && bool_decide (length f <= MAX_FIELD_DESCRIPTOR_BYTES) && forallb is_ascii f.

(** The loop over the fields, from index [i]. *)
Fixpoint check_fields (i : nat) (fs : list bytes) : option NntpError :=
  match fs with
  | [] => None
  | f :: fs' =>
    if negb (descriptor_ok f)
    then Some (Protocol (Text (lit "LIST OVERVIEW.FMT field descriptor is invalid")))
    else match REQUIRED_HEADER_FIELDS !! i with
         | Some required =>
           if eq_ignore_case f required then check_fields (S i) fs'
           else Some (Protocol (Text (lit "LIST OVERVIEW.FMT required field order is invalid")))
         | None => check_fields (S i) fs'
         end
  end.

Definition parse_overview_format (d : bytes) : result NntpError OverviewFormat :=
  let fs := wire_lines d in
  if decide (length fs < length REQUIRED_HEADER_FIELDS + 2 ∨ MAX_OVERVIEW_FIELDS < length fs)
  then Err (Protocol (Text (lit "LIST OVERVIEW.FMT field count is invalid")))
  else
    let f5 := default [] (fs !! 5) in
    let f6 := default [] (fs !! 6) in
    let metadata_fields_valid :=
      (eq_ignore_case f5 (bytes_of ":bytes") && eq_ignore_case f6 (bytes_of ":lines"))
      || (eq_ignore_case f5 (bytes_of "Bytes:") && eq_ignore_case f6 (bytes_of "Lines:")) in
    if negb metadata_fields_valid
    then Err (Protocol (Text (lit "LIST OVERVIEW.FMT metadata fields are invalid")))
    else match check_fields 0 fs with
         | Some e => Err e
         | None => Ok {| fields := fs |}
         end.

Definition parse_ascii_u64 (v : bytes) : option N :=
  if decide (v = []) then None
  else if forallb (λ b, is_ascii_digit (Byte.to_N b)) v
  then s ← from_utf8 v; parse_u64 s
  else None.

(** What the loop does to one line: the row or the defective row it becomes. *)
Definition classify (fmt : OverviewFormat) (start_article end_article : N) (seen : gset N)
    (line : bytes) : LosslessOverviewRow + DefectiveOverviewRow :=
  let parts := split_by (λ b, bool_decide (b = TABB)) line in
  let number := parse_ascii_u64 (default [] (head parts)) in
  let fs := tail parts in
  let defect code := inr {| def_number := number; wire_line_bytes := line; failure_code := code |} in
  match number with
  | None => defect ArticleNumberInvalid
  | Some n =>
    if decide (n < start_article ∨ end_article < n)%N then defect ArticleNumberOutOfRange
    else if decide (length fs ≠ length (fields fmt)) then defect FieldCountInvalid
    else if decide (n ∈ seen) then defect DuplicateArticleNumber
    else inl {| article_number := n; row_fields := fs |}
  end.

Fixpoint rows_loop (fmt : OverviewFormat) (start_article end_article : N) (seen : gset N)
    (acc : LosslessOverviewRows) (ls : list bytes) : LosslessOverviewRows :=
  match ls with
  | [] => acc
  | l :: ls' =>
    match classify fmt start_article end_article seen l with
    | inl r =>
      rows_loop fmt start_article end_article ({[article_number r]} ∪ seen)
        {| ov_rows := ov_rows acc ++ [r]; defective_rows := defective_rows acc |} ls'
    | inr d =>
      rows_loop fmt start_article end_article seen
        {| ov_rows := ov_rows acc; defective_rows := defective_rows acc ++ [d] |} ls'
    end
  end.

Definition parse_lossless_overview_rows (d : bytes) (fmt : OverviewFormat)
    (start_article end_article : N) : LosslessOverviewRows :=
  rows_loop fmt start_article end_article ∅ {| ov_rows := []; defective_rows := [] |} (wire_lines d).

(** ** What the rows are *)

(** The tab-separated pieces put back together. *)
Fixpoint join_tabs (l : list bytes) : bytes :=
  match l with
  | [] => []
  | [s] => s
  | s :: l' => s ++ TABB :: join_tabs l'
  end.

Lemma join_tabs_cons s l : l ≠ [] → join_tabs (s :: l) = s ++ TABB :: join_tabs l.
Proof. by destruct l. Qed.

Lemma join_tabs_split line : join_tabs (split_by (λ b, bool_decide (b = TABB)) line) = line.
Proof.
  induction line as [|b line IH]; simpl; [done|].
  pose proof (split_by_ne (λ b, bool_decide (b = TABB)) line) as Hne.
  case_bool_decide as Hb.
  - rewrite join_tabs_cons by done. by rewrite IH, Hb.
  - destruct (split_by _ line) as [|p ps]; [done|]. rewrite <-IH. by destruct ps.
Qed.

(** A kept row: its line is the number and the fields between tabs. *)
Definition row_ok (fmt : OverviewFormat) (start_article end_article : N) (ls : list bytes)
    (r : LosslessOverviewRow) : Prop :=
  (start_article <= article_number r <= end_article)%N ∧ length (row_fields r) = length (fields fmt) ∧
  ∃ num, parse_ascii_u64 num = Some (article_number r) ∧ join_tabs (num :: row_fields r) ∈ ls.

Definition defect_ok (start_article end_article : N) (ls : list bytes) (nums : list N)
    (d : DefectiveOverviewRow) : Prop :=
  wire_line_bytes d ∈ ls ∧
  match failure_code d, def_number d with
  | ArticleNumberInvalid, None => True
  | ArticleNumberOutOfRange, Some n => ¬ (start_article <= n <= end_article)%N
  | FieldCountInvalid, Some n => (start_article <= n <= end_article)%N
  | DuplicateArticleNumber, Some n => n ∈ nums
  | _, _ => False
  end.

Lemma classify_row fmt s e seen line r :
  classify fmt s e seen line = inl r →
  article_number r ∉ seen ∧ ∀ ls, line ∈ ls → row_ok fmt s e ls r.
Proof.
  unfold classify. pose proof (join_tabs_split line) as Hj.
  pose proof (split_by_ne (λ b, bool_decide (b = TABB)) line) as Hne.
  destruct (split_by _ line) as [|num fs]; [done|]. simpl.
  destruct (parse_ascii_u64 num) as [n|] eqn:Hn; [|done].
  case_decide as Hr; [done|]. case_decide as Hf; [done|]. case_decide as Hs; [done|].
  intros [= <-]. split; [done|]. intros ls Hin. split_and!; simpl; [lia|lia|lia|].
  exists num. split; [done|]. rewrite <-Hj in Hin. exact Hin.
Qed.

Lemma classify_defect fmt s e seen line d nums :
  classify fmt s e seen line = inr d → (∀ n, n ∈ seen → n ∈ nums) →
  ∀ ls, line ∈ ls → defect_ok s e ls nums d.
Proof.
  unfold classify. intros Hc Hseen ls Hin. destruct (parse_ascii_u64 _) as [n|]; [|by simplify_eq].
  repeat case_decide; simplify_eq; split; simpl; try done; [lia|lia|auto].
Qed.

Lemma rows_loop_spec fmt s e ls all : ∀ seen acc,
  (∀ n, n ∈ seen ↔ n ∈ article_number <$> ov_rows acc) →
  NoDup (article_number <$> ov_rows acc) → (∀ l, l ∈ ls → l ∈ all) →
  Forall (row_ok fmt s e all) (ov_rows acc) →
  Forall (defect_ok s e all (article_number <$> ov_rows acc)) (defective_rows acc) →
  let out := rows_loop fmt s e seen acc ls in
  length (ov_rows out) + length (defective_rows out)
    = length (ov_rows acc) + length (defective_rows acc) + length ls ∧
  NoDup (article_number <$> ov_rows out) ∧ Forall (row_ok fmt s e all) (ov_rows out) ∧
  Forall (defect_ok s e all (article_number <$> ov_rows out)) (defective_rows out).
Proof.
  induction ls as [|l ls IH]; intros seen acc Hseen Hnd Hin Hrows Hdef; cbn [rows_loop].
  { split_and!; [simpl; lia|done..]. }
  destruct (classify fmt s e seen l) as [r|d] eqn:Hc.
  - destruct (classify_row _ _ _ _ _ _ Hc) as [Hnew Hrow].
    destruct (IH ({[article_number r]} ∪ seen)
      {| ov_rows := ov_rows acc ++ [r]; defective_rows := defective_rows acc |}) as (Hl & ? & ? & ?).
    + intros n. simpl. rewrite fmap_app, elem_of_union, elem_of_app, elem_of_singleton, Hseen. simpl.
      rewrite list_elem_of_singleton. naive_solver.
    + simpl. rewrite fmap_app. apply NoDup_app. split_and!; [done| |apply NoDup_singleton].
      intros n Hn Hn'. apply list_elem_of_singleton in Hn'. subst n. by apply Hnew, Hseen.
    + intros; apply Hin; by right.
    + simpl. apply Forall_app. split; [done|]. constructor; [|done]. apply Hrow, Hin. left.
    + simpl. eapply Forall_impl; [exact Hdef|]. intros d [Hd1 Hd2]. split; [done|].
      destruct (failure_code d), (def_number d); try done. rewrite fmap_app. apply elem_of_app. by left.
    + split_and!; [|done..]. simpl in *. rewrite length_app in Hl. simpl in Hl. lia.
  - destruct (IH seen {| ov_rows := ov_rows acc; defective_rows := defective_rows acc ++ [d] |})
      as (Hl & ? & ? & ?); [done|done|intros; apply Hin; by right|done| |].
    + simpl. apply Forall_app. split; [done|]. constructor; [|done].
      eapply classify_defect; [done|intros; by apply Hseen|]. apply Hin. left.
    + split_and!; [|done..]. simpl in *. rewrite length_app in Hl. simpl in Hl. lia.
Qed.

(** Every non-empty line of the reply becomes exactly one row or one
    defective row. The rows have distinct article numbers within the range asked
    for and as many fields as the format, and lose nothing: the number and the
    fields, between tabs, are the line. The defective ones keep their line and
    say what is wrong with it. *)
Theorem overview_rows_lossless (d : bytes) (fmt : OverviewFormat) (s e : N) :
  let out := parse_lossless_overview_rows d fmt s e in
  length (ov_rows out) + length (defective_rows out) = length (wire_lines d) ∧
  NoDup (article_number <$> ov_rows out) ∧
  Forall (row_ok fmt s e (wire_lines d)) (ov_rows out) ∧
  Forall (defect_ok s e (wire_lines d) (article_number <$> ov_rows out)) (defective_rows out).
Proof.
  apply (rows_loop_spec fmt s e (wire_lines d) (wire_lines d) ∅); simpl; try done.
  - intros n. split; [by intros ?%elem_of_empty|by intros ?%elem_of_nil].
  - constructor.
Qed.
