(* ===== verification/Client.v ===== *)
(** * The NNTP client's commands

    Models the upper half of [crates/nzb-nntp/src/connection.rs]: connecting
    (welcome, authentication, capabilities, reader mode, compression) and the
    commands. [Gzip] is the decoder of the crate flate2, as the bytes it can
    decode and the error it stops at; dialling (TCP, SOCKS, TLS) is a parameter
    of [connect_inner]. *)
From S2P Require Import Prelude Str Capabilities Wire Overview.

Class Gzip := { gz_read : bytes → bytes * option str }.

(** ** Helpers *)
Definition normalize_message_id (mid : str) : str :=
  if starts_with (lit "<") mid && ends_with (lit ">") mid then mid
  else lit "<" ++ mid ++ lit ">".

(** The loop of [strip_article_headers], on what is left of the article. *)
Fixpoint strip_article_headers (a : bytes) : bytes :=
  match a with
  | b0 :: (b1 :: rest) as tl =>
    if decide (b0 = Byte.x0d ∧ b1 = LF) then
      match rest with
      | b2 :: b3 :: body => if decide (b2 = Byte.x0d ∧ b3 = LF) then body else strip_article_headers tl
      | _ => strip_article_headers tl
      end
    else if decide (b0 = LF ∧ b1 = LF) then rest
    else strip_article_headers tl
  | _ => []
  end.

Inductive ArticleRange := Range (start stop : N) | MessageId (mid : str).

Definition to_command_arg (r : ArticleRange) : str :=
  match r with
  | Range s e => show_N s ++ lit "-" ++ show_N e
  | MessageId mid => normalize_message_id mid
  end.

Record GroupResponse := { group_count : N; first : N; last_article : N; group_name : str }.

Record XoverEntry := {
  article_num : N; subject : str; from : str; date : str; message_id : str;
  references : str; xbytes : N; xlines : N }.

Record HeaderEntry := { header_num : N; value : str }.
Record ListActiveEntry := { name : str; high : N; low : N; status : str }.

Definition number_or_0 (s : str) : N := default 0%N (parse_u64 s).

Definition parse_xover_line (line : str) : option XoverEntry :=
  match split_char TAB line with
  | p0 :: p1 :: p2 :: p3 :: p4 :: p5 :: p6 :: p7 :: _ =>
    Some {| article_num := number_or_0 p0; subject := p1; from := p2; date := p3;
            message_id := trim_by (λ c, bool_decide (c = 60 ∨ c = 62)%N) p4; references := p5;
            xbytes := number_or_0 p6; xlines := number_or_0 (trim p7) |}
  | _ => None
  end.

Definition parse_xover_data (d : bytes) : list XoverEntry :=
  omap parse_xover_line (lines (from_utf8_lossy d)).

(** [find([' ', '\t'])], as the two parts around the position found. *)
Fixpoint split_at_blank (s : str) : option (str * str) :=
  match s with
  | [] => None
  | c :: s' => if decide (c = SP ∨ c = TAB) then Some ([], s)
               else '(a, b) ← split_at_blank s'; Some (c :: a, b)
  end.

Definition parse_header_line (line : str) : option HeaderEntry :=
  let trimmed := trim line in
  if decide (trimmed = []) then None
  else
    '(num_str, rest) ← split_at_blank trimmed;
    n ← parse_u64 num_str;
    Some {| header_num := n; value := trim_start rest |}.

Definition parse_header_data (d : bytes) : list HeaderEntry :=
  omap parse_header_line (lines (from_utf8_lossy d)).

Definition parse_list_active_line (line : str) : option ListActiveEntry :=
  match split_whitespace (trim line) with
  | p0 :: p1 :: p2 :: p3 :: _ =>
    Some {| name := p0; high := number_or_0 p1; low := number_or_0 p2; status := p3 |}
  | _ => None
  end.

Definition parse_list_active_data (d : bytes) : list ListActiveEntry :=
  omap parse_list_active_line (lines (from_utf8_lossy d)).

(** ** Commands *)
Section client.
Context {GZ : Gzip}.

Definition is_gzip (raw : bytes) : bool :=
  match raw with b0 :: b1 :: _ => bool_decide (b0 = Byte.x1f ∧ b1 = Byte.x8b) | _ => false end.

Definition read_multiline_body_maybe_decompress : M bytes :=
  raw ← read_multiline_body;
  ce ← gets compress_enabled;
  mret (if (ce : bool) && is_gzip raw then
          match gz_read raw with
          | (d, None) => d
          | (_, Some _) => raw
          end
        else raw).

Definition read_multiline_body_maybe_decompress_bounded (mx : nat) : M bytes :=
  raw ← read_multiline_body_bounded mx;
  ce ← gets compress_enabled;
  if (ce : bool) && is_gzip raw then
    let '(d, err) := gz_read raw in
    if decide (mx < length d)
    then throw (ResponseTooLarge (Text (lit "decompressed multi-line response exceeds its byte bound")))
    else match err with
         | Some e => throw (Protocol (Fmt "gzip HEAD decode failed: {}" [e]))
         | None => mret d
         end
  else mret raw.

(** The state is checked, and a command the connection is not ready for is
    refused. *)
Definition ensure_ready (what : string) : M unit :=
  s ← gets state;
  if decide (s ≠ Ready)
  then throw (Protocol (Fmt what [state_name s]))
  else mret tt.

(** The start every command shares: busy, the command sent, its status read. *)
Definition request (cmd : str) : M NntpResponse :=
  set_state Busy;;
  or_error (send_command cmd);;
  or_error read_response_line.

(** An arm of a command's [match]: the state it leaves and the error. *)
Definition ending {A} (s : ConnectionState) (e : NntpError) : M A := set_state s;; throw e.

Definition code_in (r : NntpResponse) (l : list N) : bool := bool_decide (code r ∈ l).

(** An error text with the reply's code and message. *)
Definition with_reply (template : string) (r : NntpResponse) : text :=
  Fmt template [show_N (code r); message r].

Definition fetch_article (id : str) : M NntpResponse :=
  ensure_ready "Cannot fetch article in state {:?}";;
  let mid := normalize_message_id id in
  r ← request (lit "ARTICLE " ++ mid);
  if code_in r [220%N] then
    d ← or_error read_multiline_body_maybe_decompress;
    set_state Ready;; mret (with_data r d)
  else if code_in r [430%N] then ending Ready (ArticleNotFound (Text mid))
  else if code_in r [411%N] then ending Ready (NoSuchGroup (Text (message r)))
  else if code_in r [412; 420; 423]%N then ending Ready (NoArticleSelected (Text (message r)))
  else if code_in r [403%N] then ending ErrorState (PermissionDenied (Text (message r)))
  else if code_in r [480%N] then ending ErrorState (AuthRequired (Text (message r)))
  else if code_in r [481; 482]%N then ending ErrorState (Auth (with_reply "ARTICLE rejected ({}): {}" r))
  else if code_in r [502%N] then ending ErrorState (ServiceUnavailable (Text (message r)))
  else ending ErrorState (unexpected_article_response (code r) (message r)).

Definition fetch_head_number (n : N) (max_header_bytes : nat) : M NntpResponse :=
  k ← gets capabilities;
  if negb (have_head k) then throw (Protocol (Text (lit "Server does not support HEAD")))
  else if decide (n = 0 ∨ N.of_nat max_header_bytes = 0 ∨ 64 * 1024 < N.of_nat max_header_bytes)%N
  then throw (Protocol (Text (lit "HEAD request bound is invalid")))
  else
    ensure_ready "Cannot HEAD in state {:?}";;
    r ← request (lit "HEAD " ++ show_N n);
    if code_in r [221%N] then
      d ← or_error (read_multiline_body_maybe_decompress_bounded max_header_bytes);
      set_state Ready;; mret (with_data r d)
    else if code_in r [423%N] then ending Ready (ArticleNotFound (Text (show_N n)))
    else if code_in r [411%N] then ending Ready (NoSuchGroup (Text (message r)))
    else if code_in r [412; 420]%N then ending Ready (NoArticleSelected (Text (message r)))
    else if code_in r [403%N] then ending ErrorState (PermissionDenied (Text (message r)))
    else if code_in r [480%N] then ending ErrorState (AuthRequired (Text (message r)))
    else if code_in r [481; 482]%N then ending ErrorState (Auth (with_reply "HEAD rejected ({}): {}" r))
    else if code_in r [502%N] then ending ErrorState (ServiceUnavailable (Text (message r)))
    else ending ErrorState (Protocol (with_reply "Unexpected HEAD response {}: {}" r)).

Definition stat_article (id : str) : M NntpResponse :=
  k ← gets capabilities;
  if negb (have_stat k) then throw (ArticleNotFound (Text (normalize_message_id id)))
  else
    ensure_ready "Cannot STAT in state {:?}";;
    let mid := normalize_message_id id in
    r ← request (lit "STAT " ++ mid);
    if code_in r [223%N] then set_state Ready;; mret r
    else if code_in r [430%N] then ending Ready (ArticleNotFound (Text mid))
    else if code_in r [403%N] then ending ErrorState (PermissionDenied (Text (message r)))
    else if code_in r [502%N] then ending ErrorState (ServiceUnavailable (Text (message r)))
    else if code_in r [480%N] then ending ErrorState (AuthRequired (Text (message r)))
    else if code_in r [481; 482]%N then ending ErrorState (Auth (with_reply "STAT rejected ({}): {}" r))
    else ending ErrorState (Protocol (with_reply "Unexpected STAT response {}: {}" r)).

Definition ping : M unit :=
  ensure_ready "Cannot ping in state {:?}";;
  r ← request (lit "DATE");
  if code_in r [400; 403; 480; 481; 482; 502]%N
  then ending ErrorState (Connection (with_reply "Health check rejected ({}): {}" r))
  else set_state Ready.

Definition group (nm : str) : M GroupResponse :=
  ensure_ready "Cannot GROUP in state {:?}";;
  r ← request (lit "GROUP " ++ nm);
  set_state Ready;;
  if code_in r [211%N] then
    match split_whitespace (message r) with
    | p0 :: p1 :: p2 :: ps =>
      mret {| group_count := number_or_0 p0; first := number_or_0 p1; last_article := number_or_0 p2;
              group_name := default nm (head ps) |}
    | _ => throw (Protocol (Fmt "Malformed GROUP response: {}" [message r]))
    end
  else if code_in r [411%N] then throw (NoSuchGroup (Text nm))
  else if code_in r [480%N] then ending ErrorState (AuthRequired (Text (message r)))
  else if code_in r [481; 482]%N then ending ErrorState (Auth (with_reply "GROUP rejected ({}): {}" r))
  else if code_in r [502%N] then ending ErrorState (ServiceUnavailable (Text (message r)))
  else ending ErrorState (Protocol (with_reply "Unexpected GROUP response {}: {}" r)).

Definition overview_format : M OverviewFormat :=
  ensure_ready "Cannot LIST OVERVIEW.FMT in state {:?}";;
  r ← request (lit "LIST OVERVIEW.FMT");
  if code_in r [215%N] then
    d ← or_error read_multiline_body_maybe_decompress;
    set_state Ready;; lift (parse_overview_format d)
  else if code_in r [480%N] then ending ErrorState (AuthRequired (Text (message r)))
  else if code_in r [481; 482]%N then ending ErrorState (Auth (with_reply "LIST OVERVIEW.FMT rejected ({}): {}" r))
  else if code_in r [502%N] then ending ErrorState (ServiceUnavailable (Text (message r)))
  else ending ErrorState (Protocol (with_reply "Unexpected LIST OVERVIEW.FMT response {}: {}" r)).

Record BoundedResponse (A : Type) := { bvalue : A; response_bytes : nat }.
Arguments bvalue {A}. Arguments response_bytes {A}.

(** The body, with the bound if there is one. *)
Definition read_bounded_or_not (mx : option nat) : M bytes :=
  match mx with
  | Some m => read_multiline_body_maybe_decompress_bounded m
  | None => read_multiline_body_maybe_decompress
  end.

Definition no_group : NntpError :=
  NoSuchGroup (Text (lit "No newsgroup selected (send GROUP first)")).

Definition range_arg (s e : N) : str := show_N s ++ lit "-" ++ show_N e.

Definition xover_lossless_with_limit (s e : N) (fmt : OverviewFormat) (mx : option nat)
    : M (BoundedResponse LosslessOverviewRows) :=
  ensure_ready "Cannot XOVER in state {:?}";;
  r ← request (lit "XOVER " ++ range_arg s e);
  if code_in r [224%N] then
    d ← or_error (read_bounded_or_not mx);
    set_state Ready;;
    mret {| bvalue := parse_lossless_overview_rows d fmt s e; response_bytes := length d |}
  else if code_in r [420; 423]%N then
    set_state Ready;;
    mret {| bvalue := {| ov_rows := []; defective_rows := [] |}; response_bytes := 0 |}
  else if code_in r [412%N] then ending Ready no_group
  else if code_in r [481; 482]%N then ending ErrorState (Auth (with_reply "XOVER rejected ({}): {}" r))
  else if code_in r [502%N] then ending ErrorState (ServiceUnavailable (Text (message r)))
  else ending ErrorState (Protocol (with_reply "Unexpected XOVER response {}: {}" r)).

Definition xover_lossless (s e : N) (fmt : OverviewFormat) : M LosslessOverviewRows :=
  r ← xover_lossless_with_limit s e fmt None; mret (bvalue r).

(** A response bound must be in 1 .. 8 MiB. *)
Definition bound_invalid (mx : nat) : Prop :=
  (N.of_nat mx = 0 ∨ 8 * 1024 * 1024 < N.of_nat mx)%N.

Definition xover_lossless_bounded (s e : N) (fmt : OverviewFormat) (mx : nat)
    : M (BoundedResponse LosslessOverviewRows) :=
  if decide (N.of_nat mx = 0 ∨ 8 * 1024 * 1024 < N.of_nat mx)%N
  then throw (Protocol (Text (lit "XOVER response bound is invalid")))
  else xover_lossless_with_limit s e fmt (Some mx).

Definition xover (s e : N) : M (list XoverEntry) :=
  ensure_ready "Cannot XOVER in state {:?}";;
  r ← request (lit "XOVER " ++ range_arg s e);
  if code_in r [224%N] then
    d ← or_error read_multiline_body_maybe_decompress;
    set_state Ready;; mret (parse_xover_data d)
  else if code_in r [420; 423]%N then set_state Ready;; mret []
  else if code_in r [412%N] then ending Ready no_group
  else if code_in r [481; 482]%N then ending ErrorState (Auth (with_reply "XOVER rejected ({}): {}" r))
  else if code_in r [502%N] then ending ErrorState (ServiceUnavailable (Text (message r)))
  else ending ErrorState (Protocol (with_reply "Unexpected XOVER response {}: {}" r)).

Definition xhdr (header : str) (range : ArticleRange) : M (list HeaderEntry) :=
  ensure_ready "Cannot XHDR in state {:?}";;
  let arg := to_command_arg range in
  r ← request (lit "XHDR " ++ header ++ [SP] ++ arg);
  if code_in r [221%N] then
    d ← or_error read_multiline_body_maybe_decompress;
    set_state Ready;; mret (parse_header_data d)
  else if code_in r [420; 423]%N then set_state Ready;; mret []
  else if code_in r [412%N] then ending Ready no_group
  else if code_in r [430%N] then ending Ready (ArticleNotFound (Text arg))
  else if code_in r [481; 482]%N then ending ErrorState (Auth (with_reply "XHDR rejected ({}): {}" r))
  else if code_in r [502%N] then ending ErrorState (ServiceUnavailable (Text (message r)))
  else ending ErrorState (Protocol (with_reply "Unexpected XHDR response {}: {}" r)).

Definition xpat_with_limit (header : str) (range : ArticleRange) (patterns : list str)
    (mx : option nat) : M (BoundedResponse (list HeaderEntry)) :=
  ensure_ready "Cannot XPAT in state {:?}";;
  if decide (patterns = []) then throw (Protocol (Text (lit "XPAT requires at least one pattern")))
  else
    let arg := to_command_arg range in
    r ← request (lit "XPAT " ++ header ++ [SP] ++ arg ++ [SP] ++ join [SP] patterns);
    if code_in r [221%N] then
      d ← or_error (read_bounded_or_not mx);
      set_state Ready;; mret {| bvalue := parse_header_data d; response_bytes := length d |}
    else if code_in r [420; 423]%N then set_state Ready;; mret {| bvalue := []; response_bytes := 0 |}
    else if code_in r [412%N] then ending Ready no_group
    else if code_in r [430%N] then ending Ready (ArticleNotFound (Text arg))
    else if code_in r [481; 482]%N then ending ErrorState (Auth (with_reply "XPAT rejected ({}): {}" r))
    else if code_in r [502%N] then ending ErrorState (ServiceUnavailable (Text (message r)))
    else if code_in r [500; 501]%N then ending Ready (UnsupportedCommand (with_reply "XPAT unsupported ({}): {}" r))
    else ending ErrorState (Protocol (with_reply "Unexpected XPAT response {}: {}" r)).

Definition xpat (header : str) (range : ArticleRange) (patterns : list str) : M (list HeaderEntry) :=
  r ← xpat_with_limit header range patterns None; mret (bvalue r).

Definition xpat_bounded (header : str) (range : ArticleRange) (patterns : list str) (mx : nat)
    : M (BoundedResponse (list HeaderEntry)) :=
  if decide (N.of_nat mx = 0 ∨ 8 * 1024 * 1024 < N.of_nat mx)%N
  then throw (Protocol (Text (lit "XPAT response bound is invalid")))
  else xpat_with_limit header range patterns (Some mx).

Definition fetch_body (id : str) : M NntpResponse :=
  k ← gets capabilities;
  if negb (have_body k) && have_article k then
    r ← fetch_article id;
    mret {| code := 222; message := message r; data := strip_article_headers <$> data r |}
  else
    ensure_ready "Cannot BODY in state {:?}";;
    let mid := normalize_message_id id in
    r ← request (lit "BODY " ++ mid);
    if code_in r [222%N] then
      d ← or_error read_multiline_body_maybe_decompress;
      set_state Ready;; mret (with_data r d)
    else if code_in r [430%N] then ending Ready (ArticleNotFound (Text mid))
    else if code_in r [412; 420; 423]%N then ending Ready (NoArticleSelected (Text (message r)))
    else if code_in r [480%N] then ending ErrorState (AuthRequired (Text (message r)))
    else if code_in r [481; 482]%N then ending ErrorState (Auth (with_reply "BODY rejected ({}): {}" r))
    else if code_in r [502%N] then ending ErrorState (ServiceUnavailable (Text (message r)))
    else ending ErrorState (Protocol (with_reply "Unexpected BODY response {}: {}" r)).

Definition fetch_body_prefix (id : str) (max_bytes : nat) : M BodyPrefixResponse :=
  if decide (N.of_nat max_bytes = 0 ∨ 256 * 1024 < N.of_nat max_bytes)%N
  then throw (Protocol (Text (lit "BODY prefix request bound is invalid")))
  else
    ce ← gets compress_enabled;
    if (ce : bool) then throw (UnsupportedCommand (Text (lit "BODY prefix requires an uncompressed observation connection")))
    else
      k ← gets capabilities;
      if negb (have_body k) then throw (UnsupportedCommand (Text (lit "Server does not support BODY prefix observation")))
      else
        ensure_ready "Cannot BODY prefix in state {:?}";;
        let mid := normalize_message_id id in
        r ← request (lit "BODY " ++ mid);
        if code_in r [222%N] then
          p ← or_error (read_multiline_body_prefix max_bytes);
          (if complete p then set_state Ready
           else modify (λ c, with_state (with_compress (with_transport c None) false) Disconnected));;
          mret p
        else if code_in r [430%N] then ending Ready (ArticleNotFound (Text mid))
        else if code_in r [412; 420; 423]%N then ending Ready (NoArticleSelected (Text (message r)))
        else if code_in r [403%N] then ending ErrorState (PermissionDenied (Text (message r)))
        else if code_in r [480%N] then ending ErrorState (AuthRequired (Text (message r)))
        else if code_in r [481; 482]%N then ending ErrorState (Auth (with_reply "BODY prefix rejected ({}): {}" r))
        else if code_in r [500; 501]%N then ending Ready (UnsupportedCommand (Text (message r)))
        else if code_in r [502%N] then ending ErrorState (ServiceUnavailable (Text (message r)))
        else ending ErrorState (Protocol (with_reply "Unexpected BODY prefix response {}: {}" r)).

Definition list_active (wildmat : option str) : M (list ListActiveEntry) :=
  ensure_ready "Cannot LIST ACTIVE in state {:?}";;
  let cmd := match wildmat with
             | Some p => lit "LIST ACTIVE " ++ p
             | None => lit "LIST ACTIVE"
             end in
  r ← request cmd;
  if code_in r [215%N] then
    d ← or_error read_multiline_body_maybe_decompress;
    set_state Ready;; mret (parse_list_active_data d)
  else if code_in r [481; 482]%N then ending ErrorState (Auth (with_reply "LIST ACTIVE rejected ({}): {}" r))
  else if code_in r [502%N] then ending ErrorState (ServiceUnavailable (Text (message r)))
  else ending ErrorState (Protocol (with_reply "Unexpected LIST ACTIVE response {}: {}" r)).

(** *** Posting *)

(** Write the pieces in order, stopping at the first failure. *)
Fixpoint write_all (ps : list bytes) : M unit :=
  match ps with
  | [] => mret tt
  | p :: ps' => or_error (write p);; write_all ps'
  end.

(** What [post_article] writes for a line. *)
Definition post_piece (line : str) : bytes :=
  if starts_with (lit ".") line then as_bytes (lit "." ++ line ++ [CR; NL])
  else as_bytes (line ++ [CR; NL]).

(** The end both posting commands share. *)
Definition post_pieces (pieces : list bytes) : M NntpResponse :=
  ensure_ready "Cannot POST in state {:?}";;
  r ← request (lit "POST");
  if code_in r [340%N] then
    write_all (pieces ++ [dot :: crlf]);;
    res ← or_error read_response_line;
    set_state Ready;; mret res
  else if code_in r [440%N] then set_state Ready;; mret r
  else ending ErrorState (Protocol (with_reply "Unexpected POST response {}: {}" r)).

Definition post_article (article : str) : M NntpResponse :=
  post_pieces (map post_piece (lines article)).

(** The lines [post_article_bytes] sends: what ends at a line feed, or at the
    end, less one carriage return. *)
Definition article_lines (article : bytes) : list bytes :=
  let ps := split_by (λ b, bool_decide (b = LF)) article in
  map (strip_last Byte.x0d) (take (length ps - 1) ps ++ filter (λ p, p ≠ []) (drop (length ps - 1) ps)).

(** The writes for one line: the extra dot, the line, the line end. *)
Definition byte_pieces (line : bytes) : list bytes :=
  (if bool_decide (head line = Some dot) then [[dot]] else []) ++ [line; crlf].

Definition post_article_bytes (article : bytes) : M NntpResponse :=
  post_pieces (article_lines article ≫= byte_pieces).

Definition quit : M unit :=
  t ← gets transport;
  match t with
  | None => mret tt
  | Some _ =>
    sent ← attempt (send_command (lit "QUIT"));
    match sent with
    | Err _ => mret tt
    | Ok _ => attempt read_response_line;; mret tt
    end
  end;;
  modify (λ c, with_state (with_transport c None) Disconnected).

(** *** Connecting *)
Record ServerConfig := {
  username : option str; password : option str; cfg_compress : bool }.

Definition authenticate (cfg : ServerConfig) : M unit :=
  set_state Authenticating;;
  match username cfg with
  | None => throw (Auth (Text (lit "No username configured")))
  | Some user =>
    send_command (lit "AUTHINFO USER " ++ user);;
    r ← read_response_line;
    if code_in r [281%N] then set_state Ready
    else if code_in r [381; 480]%N then
      match password cfg with
      | None => throw (Auth (Text (lit "Server requires password but none configured")))
      | Some pass =>
        send_command (lit "AUTHINFO PASS " ++ pass);;
        r2 ← read_response_line;
        if code_in r2 [281%N] then set_state Ready
        else if code_in r2 [481; 482]%N then ending ErrorState (Auth (with_reply "PASS rejected ({}): {}" r2))
        else if code_in r2 [502%N] then ending ErrorState (ServiceUnavailable (Text (message r2)))
        else ending ErrorState (Protocol (with_reply "Unexpected PASS response {}: {}" r2))
      end
    else if code_in r [481; 482]%N then ending ErrorState (Auth (with_reply "USER rejected ({}): {}" r))
    else if code_in r [502%N] then ending ErrorState (ServiceUnavailable (Text (message r)))
    else ending ErrorState (Protocol (with_reply "Unexpected USER response {}: {}" r))
  end.

Definition query_capabilities : M unit :=
  ensure_ready "Cannot query CAPABILITIES in state {:?}";;
  send_command (lit "CAPABILITIES");;
  r ← read_response_line;
  if code_in r [101%N] then
    body ← read_multiline_body;
    let caps := parse body in
    let caps := if negb (have_body caps) && negb (have_stat caps) && negb (have_article caps)
                   && negb (have_head caps)
                then with_content caps true else caps in
    modify (λ c, with_capabilities c caps)
  else modify (λ c, with_capabilities c default_assumed).

Definition reader_mode_on (k : NntpCapabilities) : NntpCapabilities :=
  with_content (MkCaps (version k) (implementation k) true (post k) (ihave k) (newnews k) (hdr k)
    (over k) (over_msgid k) (list_keywords k) (mode_reader_required k) (compress k) (other k)
    (have_body k) (have_stat k) (have_article k) (have_head k) (probed k)) true.

Definition enter_reader_mode : M unit :=
  ensure_ready "Cannot MODE READER in state {:?}";;
  send_command (lit "MODE READER");;
  r ← read_response_line;
  if code_in r [200; 201]%N
  then modify (λ c, with_capabilities c (reader_mode_on (capabilities c)))
  else throw (Protocol (with_reply "Unexpected MODE READER response {}: {}" r)).

Definition negotiate_compression : M unit :=
  send_command (lit "LIST EXTENSIONS");;
  r ← read_response_line;
  if code_in r [202%N] then
    d ← read_multiline_body;
    if existsb (λ line, eq_ignore_ascii_case (trim line) (lit "XFEATURE COMPRESS GZIP"))
         (lines (from_utf8_lossy d))
    then
      send_command (lit "XFEATURE COMPRESS GZIP");;
      r2 ← read_response_line;
      if code_in r2 [290%N] then modify (λ c, with_compress c true) else mret tt
    else mret tt
  else mret tt.

(** [connect_inner], the dialled transport being given; a failed dial leaves the
    state it set. *)
Definition connect_inner (cfg : ServerConfig) (dial : result (ConnectionState * NntpError) Transport)
    : M unit :=
  set_state Connecting;;
  t ← (match dial with
       | Err (s, e) => ending s e
       | Ok t => mret t
       end : M Transport);
  modify (λ c, with_transport c (Some t));;
  welcome ← read_response_line;
  (if code_in welcome [200; 201]%N then mret tt
   else if code_in welcome [502%N] then ending ErrorState (ServiceUnavailable (Text (message welcome)))
   else ending ErrorState (Protocol (with_reply "Unexpected welcome code {}: {}" welcome)));;
  (match username cfg with Some _ => authenticate cfg | None => set_state Ready end);;
  q ← attempt query_capabilities;
  (match q with
   | Err _ => modify (λ c, with_capabilities c default_assumed)
   | Ok _ => mret tt
   end);;
  k ← gets capabilities;
  (if mode_reader_required k && negb (reader k) then attempt enter_reader_mode;; mret tt else mret tt);;
  (if cfg_compress cfg then attempt negotiate_compression;; mret tt else mret tt).
End client.

(** ** What a reply takes off the stream *)

(** The status a line carries. *)
Definition status_of (l : bytes) : option NntpResponse :=
  s ← from_utf8 l;
  match parse_response_line s with Ok r => Some r | Err _ => None end.

(** A status line and what follows it: only the peer closing cuts a line short. *)
Definition status_line (l : bytes) (rest : list inp) (r : NntpResponse) : Prop :=
  (wire_line l ∨ rest = []) ∧ status_of l = Some r.

(** A whole multi-line body, terminator included. *)
Definition terminated (b : list inp) : Prop :=
  ∃ ls t, b = sent (concat ls ++ t) ∧ is_terminator t = true ∧
    Forall (λ l, wire_line l ∧ is_terminator l = false) ls.

(** One whole reply: a status line, with a body after the codes [multi], and a
    second status line after the codes [cont]. *)
Inductive reply (multi cont : list N) : list inp → list inp → Prop :=
  | reply_single l r rest :
      status_line l rest r → code r ∉ multi → code r ∉ cont → reply multi cont (sent l) rest
  | reply_multi l r b rest :
      status_line l (b ++ rest) r → code r ∈ multi → terminated b →
      reply multi cont (sent l ++ b) rest
  | reply_cont l r l2 r2 rest :
      status_line l (sent l2 ++ rest) r → code r ∈ cont → status_line l2 rest r2 →
      reply multi cont (sent l ++ sent l2) rest.

Definition inputs (c : NntpConnection) : list inp :=
  match transport c with Some t => input t | None => [] end.

(** *** Reading *)

Lemma read_line_bytes_spec c c' r :
  read_line_bytes c = (c', r) →
  match r with
  | Ok (Line l) => ∃ t i', transport c = Some t ∧ c' = with_input c i' ∧
      input t = sent l ++ i' ∧ (l = [] ∧ i' = [] ∨ wire_line l ∨ i' = [])
  | Ok _ => ∃ i', c' = with_input c i'
  | Err _ => c' = c
  end.
Proof.
  unfold read_line_bytes, with_input. destruct (transport c) as [t|]; [|by intros [= <- <-]].
  destruct (read_until [] (input t)) as [i' lr] eqn:Hr. intros [= <- <-].
  destruct (read_until_split _ _ _ _ Hr) as [Hl _]. destruct lr as [l| |]; [|by exists i'..].
  destruct Hl as (p & -> & Hi & Hp). by exists t, i'.
Qed.

Lemma state_with_input c i : state (with_input c i) = state c.
Proof. unfold with_input. by destruct (transport c). Qed.

Lemma inputs_with_input c i t : transport c = Some t → inputs (with_input c i) = i.
Proof. unfold inputs, with_input. by intros ->. Qed.

Lemma read_response_line_spec c c' r :
  read_response_line c = (c', r) → state c' = state c ∧
  match r with
  | Ok s => ∃ l, inputs c = sent l ++ inputs c' ∧ status_line l (inputs c') s
  | Err _ => True
  end.
Proof.
  unfold read_response_line, mbind, M_bind.
  destruct (read_line_bytes c) as [c1 [lr|e]] eqn:Hr; apply read_line_bytes_spec in Hr;
    [|intros [= <- <-]; by subst].
  destruct lr as [[|b l]| |].
  - destruct Hr as (t & i' & _ & -> & _). intros [= <- <-]. by rewrite state_with_input.
  - destruct Hr as (t & i' & Ht & -> & Hi & Hl). unfold lift, throw.
    destruct (from_utf8 (b :: l)) as [s|] eqn:Hu; intros [= <- <-]; rewrite state_with_input; [|done].
    split; [done|]. destruct (parse_response_line s) as [rs|] eqn:Hp; [|done].
    exists (b :: l). rewrite (inputs_with_input c i' t Ht). unfold inputs. rewrite Ht.
    split; [done|]. split; [by destruct Hl as [[? _]|[|]]; auto|]. unfold status_of. rewrite Hu. simpl. by rewrite Hp.
  - destruct Hr as [i' ->]. intros [= <- <-]. by rewrite state_with_input.
  - destruct Hr as [i' ->]. intros [= <- <-]. by rewrite state_with_input.
Qed.

Lemma body_loop_split fuel mx : ∀ out i i' d,
  length i < fuel → body_loop fuel mx out i = (i', Ok d) → ∃ b, i = b ++ i' ∧ terminated b.
Proof.
  induction fuel as [|fuel IH]; intros out i i' d Hf; [lia|]. cbn [body_loop].
  destruct (read_until [] i) as [i1 r] eqn:Hr. destruct (read_until_split _ _ _ _ Hr) as [Hl Hlen].
  destruct r as [[|b l]| |]; [done| |done..]. destruct Hl as (p & Hp & Hi & Hw). simpl in Hp. subst p.
  destruct (is_terminator (b :: l)) eqn:Ht.
  - intros [= <- <-]. exists (sent (b :: l)). split; [done|]. exists [], (b :: l). by rewrite app_nil_l.
  - destruct (over_bound mx _); [done|]. intros Hrun.
    assert (length i1 < length i) as Hlt by (rewrite Hi; unfold sent; rewrite length_app, length_fmap; simpl; lia).
    destruct Hw as [[? _]|[Hw| ->]]; [done| |].
    + assert (length i1 < fuel) as Hf1 by lia. destruct (IH _ _ _ _ Hf1 Hrun) as (b' & -> & ls & t & -> & Hterm & Hls).
      exists (sent (b :: l) ++ sent (concat ls ++ t)). split; [by rewrite <-app_assoc|].
      exists ((b :: l) :: ls), t. split_and!; [|done|by constructor].
      unfold sent. by rewrite <-fmap_app, app_assoc.
    + destruct fuel as [|fuel']; [simpl in Hlt; lia|]. by simpl in Hrun.
Qed.

Lemma prefix_loop_split fuel mx : ∀ out i i' d,
  length i < fuel → prefix_loop fuel mx out i = (i', Ok {| prefix_data := d; complete := true |}) →
  ∃ b, i = b ++ i' ∧ terminated b.
Proof.
  induction fuel as [|fuel IH]; intros out i i' d Hf; [lia|]. cbn [prefix_loop].
  destruct (read_until [] i) as [i1 r] eqn:Hr. destruct (read_until_split _ _ _ _ Hr) as [Hl Hlen].
  destruct r as [[|b l]| |]; [done| |done..]. destruct Hl as (p & Hp & Hi & Hw). simpl in Hp. subst p.
  destruct (is_terminator (b :: l)) eqn:Ht.
  - intros [= <- <-]. exists (sent (b :: l)). split; [done|]. exists [], (b :: l). by rewrite app_nil_l.
  - case_decide; [done|]. case_decide; [done|]. intros Hrun.
    assert (length i1 < length i) as Hlt by (rewrite Hi; unfold sent; rewrite length_app, length_fmap; simpl; lia).
    destruct Hw as [[? _]|[Hw| ->]]; [done| |].
    + assert (length i1 < fuel) as Hf1 by lia. destruct (IH _ _ _ _ Hf1 Hrun) as (b' & -> & ls & t & -> & Hterm & Hls).
      exists (sent (b :: l) ++ sent (concat ls ++ t)). split; [by rewrite <-app_assoc|].
      exists ((b :: l) :: ls), t. split_and!; [|done|by constructor].
      unfold sent. by rewrite <-fmap_app, app_assoc.
    + destruct fuel as [|fuel']; [simpl in Hlt; lia|]. by simpl in Hrun.
Qed.

(** A computation that reads one whole body when it succeeds. *)
Definition reads_body {A} (m : M A) : Prop := ∀ c c' x,
  m c = (c', Ok x) → state c' = state c ∧ ∃ b, inputs c = b ++ inputs c' ∧ terminated b.

Lemma read_into_bounded_reads mx : reads_body (read_multiline_body_into_bounded mx).
Proof.
  intros c c' x. unfold read_multiline_body_into_bounded. destruct (transport c) as [t|] eqn:Ht; [|done].
  destruct (body_loop _ mx [] (input t)) as [i' r] eqn:Hb. intros [= <- ->].
  apply body_loop_split in Hb as (b & Hi & Hterm); [|lia]. split; [done|].
  exists b. unfold inputs. rewrite Ht. done.
Qed.

Lemma reads_body_bind {A B} (m : M A) (k : A → M B) :
  reads_body m → (∀ x c c' y, k x c = (c', Ok y) → c' = c) → reads_body (m ≫= k).
Proof.
  intros Hm Hk c c' y. unfold mbind, M_bind. destruct (m c) as [c1 [x|e]] eqn:Hc; [|done].
  intros Hrun. apply Hk in Hrun as ->. eauto.
Qed.

Section reading.
Context {GZ : Gzip}.

Lemma decompress_reads : reads_body read_multiline_body_maybe_decompress.
Proof.
  apply reads_body_bind; [apply read_into_bounded_reads|].
  intros raw c c' y. cbv [mbind M_bind gets mret M_ret]. by intros [= <- _].
Qed.

Lemma decompress_bounded_reads mx : reads_body (read_multiline_body_maybe_decompress_bounded mx).
Proof.
  apply reads_body_bind; [apply read_into_bounded_reads|].
  intros raw c c' y. cbv [mbind M_bind gets mret M_ret throw]. destruct (compress_enabled c && is_gzip raw); [|by intros [= <- _]].
  destruct (gz_read raw) as [d err]. case_decide; [done|]. destruct err; [done|]. by intros [= <- _].
Qed.

Lemma read_bounded_or_not_reads mx : reads_body (read_bounded_or_not mx).
Proof. destruct mx; [apply decompress_bounded_reads|apply decompress_reads]. Qed.

(** *** A command *)

Lemma write_spec b c c' r :
  write b c = (c', r) → state c' = state c ∧ inputs c' = inputs c.
Proof.
  unfold write, inputs. destruct (transport c) as [t|] eqn:Ht; [|intros [= <- <-]; by rewrite Ht].
  destruct (writes t) as [|[msg|] ws]; by intros [= <- <-].
Qed.

Lemma send_command_spec cmd c c' r :
  send_command cmd c = (c', r) → state c' = state c ∧ inputs c' = inputs c.
Proof.
  unfold send_command, send_command_no_flush, flush, mbind, M_bind.
  destruct (write _ c) as [c1 [[]|e]] eqn:Hw; apply write_spec in Hw as [Hs Hi].
  - intros [Hs' Hi']%write_spec. split; congruence.
  - by intros [= <- <-].
Qed.

Lemma request_spec cmd c c' r :
  request cmd c = (c', r) →
  match r with
  | Err _ => state c' = ErrorState
  | Ok s => state c' = Busy ∧ ∃ l, inputs c = sent l ++ inputs c' ∧ status_line l (inputs c') s
  end.
Proof.
  unfold request, mbind, M_bind, or_error, set_state, modify.
  destruct (send_command cmd (with_state c Busy)) as [c1 [[]|e]] eqn:Hw; apply send_command_spec in Hw as [Hs Hi].
  - destruct (read_response_line c1) as [c2 [s|e]] eqn:Hr; apply read_response_line_spec in Hr as [Hs' Hr'];
      intros [= <- <-]; [|done]. split; [by rewrite Hs', Hs|].
    destruct Hr' as (l & Hl & Hst). exists l. by rewrite <-Hl, Hi.
  - by intros [= <- <-].
Qed.

(** What an arm may do after the status [s], from a busy connection [c1]: leave
    the connection unusable, or ready with the rest of the reply read. *)
Definition arm_ok (multi : list N) (s : NntpResponse) (c1 c' : NntpConnection) : Prop :=
  state c' = ErrorState ∨ state c' = Disconnected ∨
  state c' = Ready ∧
    (code s ∉ multi ∧ inputs c' = inputs c1 ∨
     code s ∈ multi ∧ ∃ b, inputs c1 = b ++ inputs c' ∧ terminated b).

Definition arms_ok {A} (multi : list N) (k : NntpResponse → M A) : Prop :=
  ∀ s c1 c' r, k s c1 = (c', r) → arm_ok multi s c1 c'.

Lemma arms_ending_error {A} multi s c1 c' (e : NntpError) (r : result NntpError A) :
  ending ErrorState e c1 = (c', r) → arm_ok multi s c1 c'.
Proof. intros [= <- <-]. by left. Qed.

(** The state is decided and nothing else is read. *)
Lemma arms_ready {A} multi s l c1 c' (m : M A) r :
  code_in s l = true → Forall (λ n, n ∉ multi) l → (∀ c2, ∃ x, m c2 = (c2, x)) →
  (set_state Ready;; m) c1 = (c', r) → arm_ok multi s c1 c'.
Proof.
  intros Hc Hl Hm. unfold mbind, M_bind, set_state, modify. destruct (Hm (with_state c1 Ready)) as [x ->].
  intros [= <- <-]. right; right. split; [done|]. left. split; [|done].
  apply bool_decide_eq_true in Hc. rewrite Forall_forall in Hl. auto.
Qed.

Lemma arms_body {A B} multi s l c1 c' (m : M A) (k : A → M B) r :
  code_in s l = true → Forall (λ n, n ∈ multi) l → reads_body m → (∀ x c2, ∃ y, k x c2 = (c2, y)) →
  (x ← or_error m; set_state Ready;; k x) c1 = (c', r) → arm_ok multi s c1 c'.
Proof.
  intros Hc Hl Hm Hk. unfold mbind, M_bind, or_error, set_state, modify.
  destruct (m c1) as [c2 [x|e]] eqn:Hrun; [|intros [= <- <-]; by left].
  destruct (Hk x (with_state c2 Ready)) as [y ->]. intros [= <- <-].
  destruct (Hm _ _ _ Hrun) as (_ & b & Hb & Ht). right; right. split; [done|]. right.
  split; [|by exists b]. apply bool_decide_eq_true in Hc. rewrite Forall_forall in Hl. auto.
Qed.

(** A command made of the readiness check, the request and arms. *)
Lemma command_ok {A} multi what cmd (k : NntpResponse → M A) c c' r :
  arms_ok multi k → (ensure_ready what;; (s ← request cmd; k s)) c = (c', r) →
  (state c ≠ Ready → c' = c ∧ ∃ e, r = Err e) ∧
  (state c = Ready →
    state c' ≠ Busy ∧ (state c' = Ready → ∃ p, inputs c = p ++ inputs c' ∧ reply multi [] p (inputs c'))).
Proof.
  intros Hk. unfold ensure_ready. cbn. unfold M_bind, mbind, gets. cbn. case_decide as Hs.
  { intros [= <- <-]. split; [eauto|done]. }
  cbn. destruct (request cmd c) as [c1 [s|e]] eqn:Hr; apply request_spec in Hr.
  - intros Hrun. split; [done|]. intros _. destruct Hr as (Hb & l & Hl & Hst).
    destruct (Hk _ _ _ _ Hrun) as [He|[He|(He & Harm)]]; [by rewrite He..|]. split; [by rewrite He|]. intros _.
    destruct Harm as [[Hc Hi]|(Hc & b & Hb' & Ht)].
    + exists (sent l). rewrite Hi. split; [done|]. eapply reply_single; [done|done|apply not_elem_of_nil].
    + exists (sent l ++ b). rewrite <-app_assoc, <-Hb'. split; [done|].
      eapply reply_multi; [by rewrite <-Hb'|done|done].
  - intros [= <- <-]. split; [done|]. intros _. by rewrite Hr.
Qed.
End reading.

(** Discharges the arms of a command, one code list at a time. *)
Ltac arm :=
  match goal with
  | |- (if code_in ?s ?l then _ else _) _ = _ → _ => destruct (code_in s l) eqn:?
  | |- ending ErrorState _ _ = _ → _ => apply arms_ending_error
  | H : code_in ?s ?l = true |- ending Ready ?e ?c = _ → _ =>
    apply (arms_ready _ s l c _ (throw e)); [exact H|repeat constructor; set_solver|by eexists]
  | H : code_in ?s ?l = true |- (set_state Ready;; ?m) ?c = _ → _ =>
    apply (arms_ready _ s l c _ m); [exact H|repeat constructor; set_solver|by eexists]
  | H : code_in ?s ?l = true |- (_ ≫= _) ?c = _ → _ =>
    eapply arms_body; [exact H|repeat constructor; set_solver| |by eexists]
  end.

Section calls.
Context {GZ : Gzip}.

(** The commands, with their arguments. *)
Inductive call :=
  | FetchArticle (id : str)
  | FetchHead (n : N) (mx : nat)
  | Stat (id : str)
  | Ping
  | Group (nm : str)
  | OverviewFmt
  | XoverLossless (s e : N) (fmt : OverviewFormat) (mx : option nat)
  | Xover (s e : N)
  | Xhdr (h : str) (range : ArticleRange)
  | Xpat (h : str) (range : ArticleRange) (ps : list str) (mx : option nat)
  | FetchBody (id : str)
  | FetchPrefix (id : str) (mx : nat)
  | ListActive (w : option str)
  | Post (article : str)
  | PostBytes (article : bytes).

Definition ignore {A} (m : M A) : M unit := m;; mret tt.

Definition run_call (k : call) : M unit :=
  match k with
  | FetchArticle id => ignore (fetch_article id)
  | FetchHead n mx => ignore (fetch_head_number n mx)
  | Stat id => ignore (stat_article id)
  | Ping => ignore ping
  | Group nm => ignore (group nm)
  | OverviewFmt => ignore overview_format
  | XoverLossless s e fmt None => ignore (xover_lossless s e fmt)
  | XoverLossless s e fmt (Some mx) => ignore (xover_lossless_bounded s e fmt mx)
  | Xover s e => ignore (xover s e)
  | Xhdr h range => ignore (xhdr h range)
  | Xpat h range ps None => ignore (xpat h range ps)
  | Xpat h range ps (Some mx) => ignore (xpat_bounded h range ps mx)
  | FetchBody id => ignore (fetch_body id)
  | FetchPrefix id mx => ignore (fetch_body_prefix id mx)
  | ListActive w => ignore (list_active w)
  | Post a => ignore (post_article a)
  | PostBytes a => ignore (post_article_bytes a)
  end.

(** The codes a command's body follows, and the code that asks it to go on. *)
Definition multi_codes (k : call) : list N :=
  match k with
  | FetchArticle _ => [220] | FetchHead _ _ => [221] | OverviewFmt => [215]
  | XoverLossless _ _ _ _ | Xover _ _ => [224] | Xhdr _ _ | Xpat _ _ _ _ => [221]
  | FetchBody _ => [220; 222] | FetchPrefix _ _ => [222] | ListActive _ => [215]
  | _ => []
  end%N.

Definition cont_codes (k : call) : list N :=
  match k with Post _ | PostBytes _ => [340%N] | _ => [] end.

(** What a call guarantees. *)
Definition call_ok (multi cont : list N) {A} (m : M A) : Prop := ∀ c c' r,
  m c = (c', r) →
  (state c ≠ Ready → c' = c ∧ ∃ e, r = Err e) ∧
  (state c = Ready → state c' ≠ Busy ∧
    (state c' = Ready →
       c' = c ∨ ∃ p, inputs c = p ++ inputs c' ∧ reply multi cont p (inputs c'))).

Lemma call_ok_command {A} multi what cmd (k : NntpResponse → M A) :
  arms_ok multi k → call_ok multi [] (ensure_ready what;; (s ← request cmd; k s)).
Proof.
  intros Hk c c' r Hrun. destruct (command_ok multi what cmd k c c' r Hk Hrun) as [H1 H2].
  split; [done|]. intros Hs. destruct (H2 Hs) as [Hb Hr]. split; [done|]. intros Hs'. right. auto.
Qed.

Lemma call_ok_throw {A} multi cont (e : NntpError) : call_ok multi cont (throw e : M A).
Proof. intros c c' r [= <- <-]. split; [eauto|]. intros ->. split; [done|]. by left. Qed.

Lemma call_ok_gets {A B} multi cont (g : NntpConnection → B) (k : B → M A) :
  (∀ x, call_ok multi cont (k x)) → call_ok multi cont (x ← gets g; k x).
Proof. intros Hk c c' r Hrun. by apply (Hk (g c)). Qed.

Lemma call_ok_map {A B} multi cont (m : M A) (g : A → B) :
  call_ok multi cont m → call_ok multi cont (x ← m; mret (g x)).
Proof.
  intros Hm c c' r. unfold mbind, M_bind, mret, M_ret. destruct (m c) as [c1 [x|e]] eqn:Hc;
    intros [= <- <-]; destruct (Hm _ _ _ Hc) as [H1 H2]; split; try done.
  intros Hs. destruct (H1 Hs) as [-> [? ?]]. done. intros Hs. destruct (H1 Hs) as [-> _]. eauto.
Qed.
End calls.

Section alignment.
Context {GZ : Gzip}.

Lemma fetch_article_ok id : call_ok [220%N] [] (fetch_article id).
Proof. apply call_ok_command. intros st c1 c' res. repeat arm; apply decompress_reads. Qed.

Lemma fetch_head_ok n mx : call_ok [221%N] [] (fetch_head_number n mx).
Proof.
  apply call_ok_gets. intros k. destruct (negb (have_head k)); [apply call_ok_throw|].
  case_decide; [apply call_ok_throw|].
  apply call_ok_command. intros st c1 c' res. repeat arm; apply decompress_bounded_reads.
Qed.

Lemma stat_ok id : call_ok [] [] (stat_article id).
Proof.
  apply call_ok_gets. intros k. destruct (negb (have_stat k)); [apply call_ok_throw|].
  apply call_ok_command. intros st c1 c' res. repeat arm.
Qed.

(** Arms of a command without a body that only decide the state. *)
Lemma arms_single (s : NntpResponse) c1 c' :
  state c' = ErrorState ∨ (state c' = Ready ∧ inputs c' = inputs c1) → arm_ok [] s c1 c'.
Proof.
  intros [H|[H1 H2]]; [by left|]. right; right. split; [done|]. left. split; [apply not_elem_of_nil|done].
Qed.

Lemma ping_ok : call_ok [] [] ping.
Proof.
  apply call_ok_command. intros st c1 c' res. intros H. apply arms_single. revert H.
  destruct (code_in st _); intros [= <- <-]; [by left|by right].
Qed.

Lemma group_ok nm : call_ok [] [] (group nm).
Proof.
  apply call_ok_command. intros st c1 c' res. intros H. apply arms_single. revert H.
  cbv [mbind M_bind set_state modify ending throw mret M_ret].
  repeat case_match; intros; simplify_eq; simpl; auto.
Qed.

Lemma overview_format_ok : call_ok [215%N] [] overview_format.
Proof. apply call_ok_command. intros st c1 c' res. repeat arm; apply decompress_reads. Qed.

Lemma xover_limit_ok s e fmt mx : call_ok [224%N] [] (xover_lossless_with_limit s e fmt mx).
Proof. apply call_ok_command. intros st c1 c' res. repeat arm; apply read_bounded_or_not_reads. Qed.

Lemma xover_ok s e : call_ok [224%N] [] (xover s e).
Proof. apply call_ok_command. intros st c1 c' res. repeat arm; apply decompress_reads. Qed.

Lemma xhdr_ok h range : call_ok [221%N] [] (xhdr h range).
Proof. apply call_ok_command. intros st c1 c' res. repeat arm; apply decompress_reads. Qed.

Lemma xpat_limit_ok h range ps mx : call_ok [221%N] [] (xpat_with_limit h range ps mx).
Proof.
  unfold xpat_with_limit. destruct (decide (ps = [])) as [Hp|Hp].
  - intros c c' r. unfold ensure_ready. cbv [mbind M_bind gets mret M_ret throw].
    case_decide; intros [= <- <-]; (split; [intros _; split; [done|by eexists]|]);
      intros Hs; (split; [by rewrite Hs|by left]).
  - apply call_ok_command. intros st c1 c' res. repeat arm; apply read_bounded_or_not_reads.
Qed.

Lemma fetch_article_body_ok id : call_ok [220; 222]%N [] (fetch_article id).
Proof. apply call_ok_command. intros st c1 c' res. repeat arm; apply decompress_reads. Qed.

Lemma fetch_body_ok id : call_ok [220; 222]%N [] (fetch_body id).
Proof.
  apply call_ok_gets. intros k. destruct (negb (have_body k) && have_article k).
  - apply (call_ok_map _ _ (fetch_article id)), fetch_article_body_ok.
  - apply call_ok_command. intros st c1 c' res. repeat arm; apply decompress_reads.
Qed.

Lemma prefix_reads mx c c' p :
  read_multiline_body_prefix mx c = (c', Ok p) → complete p = true →
  state c' = state c ∧ ∃ b, inputs c = b ++ inputs c' ∧ terminated b.
Proof.
  unfold read_multiline_body_prefix. destruct (transport c) as [t|] eqn:Ht; [|done].
  destruct (prefix_loop _ mx [] (input t)) as [i' r] eqn:Hb. intros [= <- ->] Hc.
  destruct p as [d []]; [|done]. apply prefix_loop_split in Hb as (b & Hi & Hterm); [|lia].
  split; [done|]. exists b. unfold inputs. rewrite Ht. done.
Qed.

Lemma fetch_body_prefix_ok id mx : call_ok [222%N] [] (fetch_body_prefix id mx).
Proof.
  unfold fetch_body_prefix. case_decide; [apply call_ok_throw|].
  apply call_ok_gets. intros [|]; [apply call_ok_throw|].
  apply call_ok_gets. intros k. destruct (negb (have_body k)); [apply call_ok_throw|].
  apply call_ok_command. intros st c1 c' res.
  destruct (code_in st [222%N]) eqn:Hc; [|repeat arm].
  cbv [mbind M_bind or_error set_state modify mret M_ret].
  destruct (read_multiline_body_prefix mx c1) as [c2 [p|e]] eqn:Hr; [|intros [= <- <-]; by left].
  destruct (complete p) eqn:Hp; intros [= <- <-]; [|by right; left].
  destruct (prefix_reads _ _ _ _ Hr Hp) as (_ & b & Hb & Ht). right; right. split; [done|]. right.
  apply bool_decide_eq_true in Hc. split; [done|by exists b].
Qed.

Lemma list_active_ok w : call_ok [215%N] [] (list_active w).
Proof. apply call_ok_command. intros st c1 c' res. repeat arm; apply decompress_reads. Qed.

Lemma write_all_spec ps : ∀ c c' r,
  write_all ps c = (c', r) →
  inputs c' = inputs c ∧ match r with Err _ => state c' = ErrorState | Ok _ => state c' = state c end.
Proof.
  induction ps as [|p ps IH]; intros c c' r; simpl; [by intros [= <- <-]|].
  cbv [mbind M_bind or_error]. destruct (write p c) as [c1 [[]|e]] eqn:Hw; apply write_spec in Hw as [Hs Hi].
  - intros [Hi' Hr]%IH. split; [congruence|]. destruct r; congruence.
  - by intros [= <- <-].
Qed.

Lemma post_pieces_ok ps : call_ok [] [340%N] (post_pieces ps).
Proof.
  intros c c' r. unfold post_pieces, ensure_ready. cbv [mbind M_bind gets mret M_ret throw].
  case_decide as Hs.
  { intros [= <- <-]. split; [intros _; split; [done|by eexists]|done]. }
  destruct (request (lit "POST") c) as [c1 [st|e]] eqn:Hr; apply request_spec in Hr; cycle 1.
  { intros [= <- <-]. split; [done|]. intros _. by rewrite Hr. }
  destruct Hr as (Hb & l & Hl & Hst). intros Hrun. split; [done|]. intros _. revert Hrun.
  destruct (code_in st [340%N]) eqn:Hc; [|destruct (code_in st [440%N]) eqn:Hc2].
  - destruct (write_all _ c1) as [c2 [[]|e]] eqn:Hw; apply write_all_spec in Hw as [Hi Hw];
      [|intros [= <- <-]; by rewrite Hw].
    cbv [or_error set_state modify]. destruct (read_response_line c2) as [c3 [res|e]] eqn:Hr;
      apply read_response_line_spec in Hr as [Hs' Hr]; intros [= <- <-]; [|done].
    split; [done|]. intros _. right. destruct Hr as (l2 & Hl2 & Hst2).
    assert (inputs (with_state c3 Ready) = inputs c3) as E by done. rewrite E.
    exists (sent l ++ sent l2). rewrite Hl, <-Hi, Hl2, app_assoc. split; [done|].
    apply bool_decide_eq_true in Hc. eapply reply_cont; [by rewrite <-Hl2, Hi|done|done].
  - intros [= <- <-]. split; [done|]. intros _. right. exists (sent l). split; [done|].
    apply bool_decide_eq_true, list_elem_of_singleton in Hc2.
    eapply reply_single; [done|apply not_elem_of_nil|]. rewrite Hc2. by intros ?%list_elem_of_singleton.
  - intros [= <- <-]. by split.
Qed.

Lemma run_call_ok k : call_ok (multi_codes k) (cont_codes k) (run_call k).
Proof.
  destruct k as [| | | | | |s e fmt [mx|]| | |h range ps [mx|]| | | | |]; simpl;
    apply (call_ok_map _ _ _ (λ _, tt)).
  - apply fetch_article_ok.
  - apply fetch_head_ok.
  - apply stat_ok.
  - apply ping_ok.
  - apply group_ok.
  - apply overview_format_ok.
  - unfold xover_lossless_bounded. case_decide; [apply call_ok_throw|apply xover_limit_ok].
  - apply call_ok_map, xover_limit_ok.
  - apply xover_ok.
  - apply xhdr_ok.
  - unfold xpat_bounded. case_decide; [apply call_ok_throw|apply xpat_limit_ok].
  - apply call_ok_map, xpat_limit_ok.
  - apply fetch_body_ok.
  - apply fetch_body_prefix_ok.
  - apply list_active_ok.
  - apply post_pieces_ok.
  - apply post_pieces_ok.
Qed.
End alignment.

(** ** The properties of the client *)

(** C11. A command leaves the connection ready only in step with the server.
    Issued on a ready connection, whatever the peer sends, stalls or fails: the
    command ends in a state other than busy, and if it ends ready it has taken
    exactly one whole reply off the stream (or, refused locally, touched
    nothing): a status line, with a whole multi-line body after the codes that
    announce one. On a connection that is not ready it is refused and nothing
    changes. *)
Theorem ready_means_aligned `{GZ : Gzip} (k : call) (c : NntpConnection) :
  let '(c', r) := run_call k c in
  (state c ≠ Ready → c' = c ∧ is_ok r = false) ∧
  (state c = Ready → state c' ≠ Busy ∧
    (state c' = Ready → c' = c ∨
      ∃ p, inputs c = p ++ inputs c' ∧ reply (multi_codes k) (cont_codes k) p (inputs c'))).
Proof.
  destruct (run_call k c) as [c' r] eqn:Hrun. destruct (run_call_ok k c c' r Hrun) as [H1 H2].
  split; [|done]. intros Hs. destruct (H1 Hs) as [-> [e ->]]. done.
Qed.

(** *** Reading an article *)

Lemma read_response_line_wire c l r rest :
  wire_line l → status_of l = Some r → inputs c = sent l ++ rest → is_Some (transport c) →
  read_response_line c = (with_input c rest, Ok r).
Proof.
  intros Hl Hst Hi [t Ht]. unfold inputs in Hi. rewrite Ht in Hi.
  unfold read_response_line, read_line_bytes, with_input. cbv [mbind M_bind]. rewrite Ht, Hi.
  rewrite read_until_wire_line by done. pose proof (wire_line_ne l Hl).
  unfold status_of in Hst. destruct l as [|b l]; [done|].
  destruct (from_utf8 (b :: l)) as [s|]; [|done]. simpl in Hst. unfold lift.
  destruct (parse_response_line s); [|done]. by simplify_eq.
Qed.

(** A connection whose next writes all succeed. *)
Definition healthy (c : NntpConnection) : Prop :=
  ∃ t, transport c = Some t ∧ writes t = [].

Definition outputs (c : NntpConnection) : bytes :=
  match transport c with Some t => output t | None => [] end.

(** The connection after writing [b] and leaving [i] to read. *)
Definition moved (c : NntpConnection) (b : bytes) (i : list inp) (s : ConnectionState) : NntpConnection :=
  MkConn (server_id c) s (Some {| input := i; output := outputs c ++ b; writes := [] |})
    (compress_enabled c) (capabilities c).

Lemma write_moved c b : healthy c → write b c = (moved c b (inputs c) (state c), Ok tt).
Proof.
  intros (t & Ht & Hw). unfold write, moved, outputs, inputs. rewrite Ht, Hw.
  done.
Qed.

Lemma healthy_moved c b i s : healthy (moved c b i s).
Proof. by eexists. Qed.

Lemma moved_moved c b1 i1 s1 b2 i2 s2 :
  moved (moved c b1 i1 s1) b2 i2 s2 = moved c (b1 ++ b2) i2 s2.
Proof. unfold moved, outputs. simpl. by rewrite <-app_assoc. Qed.

Lemma request_moved cmd c l r rest :
  healthy c → inputs c = sent l ++ rest → wire_line l → status_of l = Some r →
  request cmd c = (moved c (as_bytes (cmd ++ [CR; NL])) rest Busy, Ok r).
Proof.
  intros Hh Hi Hl Hst.
  assert (healthy (with_state c Busy)) as Hh' by exact Hh.
  unfold request, send_command, send_command_no_flush, flush.
  cbv [mbind M_bind or_error set_state modify].
  rewrite (write_moved _ _ Hh'), (write_moved _ _ (healthy_moved _ _ _ _)), moved_moved, app_nil_r.
  set (c1 := moved _ _ _ _). assert (inputs c1 = sent l ++ rest) as Hi1 by exact Hi.
  assert (is_Some (transport c1)) as Hs1 by by eexists.
  rewrite (read_response_line_wire c1 l r rest Hl Hst Hi1 Hs1). done.
Qed.

Lemma ensure_ready_ok what c : state c = Ready → ensure_ready what c = (c, Ok tt).
Proof.
  intros Hs. unfold ensure_ready. cbv [mbind M_bind gets mret M_ret].
  rewrite decide_False; [done|by intros []].
Qed.

(** Reading an article: when the server answers a ready, uncompressed
    connection with a 220 line and the dot-stuffed lines of the article,
    [fetch_article] sends one ARTICLE command with the message-id in angle
    brackets, returns exactly the article, and leaves the connection ready with
    the reply fully read. *)
Theorem fetch_article_roundtrip `{GZ : Gzip} (id : str) (c : NntpConnection) (l : bytes)
    (r : NntpResponse) (ls : list bytes) (rest : list inp) :
  state c = Ready → healthy c → compress_enabled c = false →
  wire_line l → status_of l = Some r → code r = 220%N → Forall wire_line ls →
  inputs c = sent (l ++ encode_body ls) ++ rest →
  fetch_article id c =
    (moved c (as_bytes (lit "ARTICLE " ++ normalize_message_id id ++ [CR; NL])) rest Ready,
     Ok {| code := 220; message := message r; data := Some (concat ls) |}).
Proof.
  intros Hs Hh Hce Hl Hst Hc Hls Hi. unfold fetch_article.
  unfold sent in Hi. rewrite fmap_app, <-app_assoc in Hi.
  pose proof (request_moved (lit "ARTICLE " ++ normalize_message_id id) c l r _ Hh Hi Hl Hst) as Hreq.
  unfold mbind at 1, M_bind at 1. rewrite ensure_ready_ok by done.
  unfold mbind at 1, M_bind at 1. rewrite Hreq. unfold code_in.
  rewrite bool_decide_eq_true_2 by (rewrite Hc; left).
  set (c1 := moved _ _ _ _).
  assert (read_multiline_body c1 = (with_input c1 rest, Ok (concat ls))) as Hbody.
  { exact (read_body_encoded None ls rest c1 Hls eq_refl eq_refl). }
  unfold read_multiline_body_maybe_decompress. cbv [mbind M_bind or_error gets mret M_ret set_state modify].
  rewrite Hbody. replace (compress_enabled (with_input c1 rest)) with false by (by rewrite <-Hce).
  cbn [andb]. unfold with_data. rewrite Hc, app_assoc. done.
Qed.

(** *** Posting *)

Lemma write_all_moved ps : ∀ c,
  healthy c → write_all ps c = (moved c (concat ps) (inputs c) (state c), Ok tt).
Proof.
  induction ps as [|p ps IH]; intros c Hh; simpl.
  - destruct Hh as (t & Ht & Hw). unfold moved, outputs, inputs. rewrite Ht, app_nil_r.
    destruct c, t; simpl in *. by subst.
  - cbv [mbind M_bind or_error]. rewrite write_moved by done.
    rewrite IH by apply healthy_moved. by rewrite moved_moved.
Qed.

(** The writes for a line are its stuffed form. *)
Lemma concat_byte_pieces line : concat (byte_pieces line) = stuff (line ++ crlf).
Proof.
  unfold byte_pieces, stuff, crlf. destruct line as [|b line]; simpl; [done|].
  case_bool_decide as Hb; case_decide; simplify_eq; by rewrite ?app_nil_r.
Qed.

Lemma concat_pieces ls :
  concat ((ls ≫= byte_pieces) ++ [dot :: crlf]) = encode_body (map (λ l, l ++ crlf) ls).
Proof.
  unfold encode_body. rewrite concat_app. f_equal.
  induction ls as [|l ls IH]; [done|]. rewrite bind_cons, concat_app, concat_byte_pieces, IH. done.
Qed.

(** The article made of the lines [ls]. *)
Definition article_of (ls : list bytes) : bytes := concat (map (λ l, l ++ crlf) ls).

Definition plain_line (l : bytes) : Prop := LF ∉ l ∧ last l ≠ Some Byte.x0d.

Lemma split_article ls :
  Forall (λ l, LF ∉ l) ls →
  split_by (λ b, bool_decide (b = LF)) (article_of ls) = map (λ l, l ++ [Byte.x0d]) ls ++ [[]].
Proof.
  unfold article_of. induction 1 as [|l ls Hl _ IH]; [done|]. simpl.
  replace ((l ++ crlf) ++ concat (map (λ l, l ++ crlf) ls))
    with ((l ++ [Byte.x0d]) ++ LF :: concat (map (λ l, l ++ crlf) ls)) by (by rewrite <-!app_assoc).
  rewrite split_by_app; [by rewrite IH| |done].
  apply Forall_app. split; [|by repeat constructor]. apply Forall_forall. intros b Hb.
  apply bool_decide_eq_false. by intros ->.
Qed.

Lemma strip_last_snoc {A} `{EqDecision A} (x : A) l : strip_last x (l ++ [x]) = l.
Proof.
  unfold strip_last. rewrite last_snoc, decide_True by done.
  rewrite length_app. simpl. by rewrite Nat.add_sub, take_app_length.
Qed.

Lemma article_lines_of ls : Forall (λ l, LF ∉ l) ls → article_lines (article_of ls) = ls.
Proof.
  intros Hls. unfold article_lines. rewrite split_article by done.
  rewrite length_app. simpl. rewrite Nat.add_sub, take_app_length, drop_app_length. simpl.
  rewrite app_nil_r, map_map. clear Hls. induction ls as [|l ls IH]; [done|].
  simpl. by rewrite strip_last_snoc, IH.
Qed.

(** C19. Posting: an article of any lines, given with CRLF line ends, goes out
    after one POST command dot-stuffed and terminated, so that a peer reading
    what was sent as a multi-line body reads back exactly the article; the
    connection is left ready with the two replies fully read. *)
Theorem post_article_roundtrip (ls : list bytes) (c peer : NntpConnection) (l1 l2 : bytes)
    (r1 r2 : NntpResponse) (rest peer_rest : list inp) :
  state c = Ready → healthy c → Forall (λ l, LF ∉ l) ls →
  wire_line l1 → status_of l1 = Some r1 → code r1 = 340%N →
  wire_line l2 → status_of l2 = Some r2 →
  inputs c = sent l1 ++ sent l2 ++ rest →
  ∃ wire,
    post_article_bytes (article_of ls) c =
      (moved c (as_bytes (lit "POST" ++ [CR; NL]) ++ wire) rest Ready, Ok r2) ∧
    (input <$> transport peer = Some (sent wire ++ peer_rest) →
     read_multiline_body peer = (with_input peer peer_rest, Ok (article_of ls))).
Proof.
  intros Hs Hh Hls Hl1 Hst1 Hc1 Hl2 Hst2 Hi. exists (encode_body (map (λ l, l ++ crlf) ls)). split.
  - unfold post_article_bytes, post_pieces. unfold mbind at 1, M_bind at 1. rewrite ensure_ready_ok by done.
    unfold mbind at 1, M_bind at 1. rewrite (request_moved _ c l1 r1 _ Hh Hi Hl1 Hst1).
    unfold code_in. rewrite bool_decide_eq_true_2 by (rewrite Hc1; left).
    rewrite article_lines_of by done. cbv [mbind M_bind or_error set_state modify].
    rewrite write_all_moved by apply healthy_moved.
    rewrite concat_pieces, moved_moved.
    set (c2 := moved _ _ _ _).
    assert (inputs c2 = sent l2 ++ rest) as Hi2 by done.
    rewrite (read_response_line_wire c2 l2 r2 rest Hl2 Hst2 Hi2 ltac:(by eexists)). done.
  - intros Hp. apply (read_body_encoded None _ peer_rest peer); [|done|done].
    apply Forall_fmap. eapply Forall_impl; [exact Hls|]. intros l Hl. exists (l ++ [Byte.x0d]). simpl.
    unfold crlf. rewrite <-app_assoc. split; [done|]. rewrite elem_of_app.
    intros [?|?%list_elem_of_singleton]; done.
Qed.

(** *** Connecting *)

(** Computations that leave the state alone and keep the transport. *)
Definition quiet {A} (m : M A) : Prop := ∀ c c' r,
  m c = (c', r) → state c' = state c ∧ (is_Some (transport c) → is_Some (transport c')).

Lemma quiet_bind {A B} (m : M A) (k : A → M B) : quiet m → (∀ x, quiet (k x)) → quiet (x ← m; k x).
Proof.
  intros Hm Hk c c' r. unfold mbind, M_bind. destruct (m c) as [c1 [x|e]] eqn:Hc.
  - intros Hr. destruct (Hm _ _ _ Hc) as [? ?]. destruct (Hk _ _ _ _ Hr) as [? ?]. split; [congruence|auto].
  - intros [= <- <-]. by apply (Hm _ _ _ Hc).
Qed.

Lemma quiet_pure {A} (m : M A) : (∀ c, ∃ r, m c = (c, r)) → quiet m.
Proof. intros Hm c c' r. destruct (Hm c) as [r' ->]. by intros [= <- <-]. Qed.

Lemma quiet_write b : quiet (write b).
Proof.
  intros c c' r. unfold write. destruct (transport c) as [t|] eqn:Ht; [|intros [= <- <-]; by rewrite Ht].
  destruct (writes t) as [|[msg|] ws]; intros [= <- <-]; by split.
Qed.

Lemma quiet_send cmd : quiet (send_command cmd).
Proof. apply quiet_bind; [apply quiet_write|intros []; apply quiet_write]. Qed.

Lemma quiet_read_line : quiet read_line_bytes.
Proof.
  intros c c' r. unfold read_line_bytes. destruct (transport c) as [t|] eqn:Ht; [|intros [= <- <-]; by rewrite Ht].
  destruct (read_until _ _). intros [= <- <-]. by split.
Qed.

Lemma quiet_read_response : quiet read_response_line.
Proof.
  apply quiet_bind; [apply quiet_read_line|]. intros r. apply quiet_pure. intros c.
  destruct r as [[|b l]| |]; [by eexists| |by eexists..]. destruct (from_utf8 (b :: l)); by eexists.
Qed.

Lemma quiet_read_body mx : quiet (read_multiline_body_into_bounded mx).
Proof.
  intros c c' r. unfold read_multiline_body_into_bounded.
  destruct (transport c) as [t|] eqn:Ht; [|intros [= <- <-]; by rewrite Ht].
  destruct (body_loop _ _ _ _). intros [= <- <-]. by split.
Qed.

Lemma quiet_ensure what : quiet (ensure_ready what).
Proof. apply quiet_pure. intros c. unfold ensure_ready. cbv [mbind M_bind gets]. case_decide; by eexists. Qed.

Lemma quiet_attempt {A} (m : M A) : quiet m → quiet (attempt m).
Proof. intros Hm c c' r. unfold attempt. destruct (m c) as [c1 r1] eqn:Hc. intros [= <- <-]. by apply (Hm _ _ _ Hc). Qed.

Lemma quiet_capabilities g : quiet (modify (λ c, with_capabilities c (g c))).
Proof. intros c c' r [= <- <-]. by split. Qed.

Lemma quiet_query : quiet query_capabilities.
Proof.
  apply quiet_bind; [apply quiet_ensure|intros []]. apply quiet_bind; [apply quiet_send|intros []].
  apply quiet_bind; [apply quiet_read_response|]. intros r. destruct (code_in r _).
  - apply quiet_bind; [apply quiet_read_body|]. intros b. apply quiet_capabilities.
  - apply quiet_capabilities.
Qed.

Lemma quiet_reader_mode : quiet enter_reader_mode.
Proof.
  apply quiet_bind; [apply quiet_ensure|intros []]. apply quiet_bind; [apply quiet_send|intros []].
  apply quiet_bind; [apply quiet_read_response|]. intros r. destruct (code_in r _).
  - apply quiet_capabilities.
  - apply quiet_pure. by eexists.
Qed.

Lemma quiet_compression : quiet negotiate_compression.
Proof.
  apply quiet_bind; [apply quiet_send|intros []]. apply quiet_bind; [apply quiet_read_response|].
  intros r. destruct (code_in r _); [|apply quiet_pure; by eexists].
  apply quiet_bind; [apply quiet_read_body|]. intros d.
  destruct (existsb _ _); [|apply quiet_pure; by eexists].
  apply quiet_bind; [apply quiet_send|intros []]. apply quiet_bind; [apply quiet_read_response|].
  intros r2. destruct (code_in r2 _); [|apply quiet_pure; by eexists].
  intros c c' r3 [= <- <-]. by split.
Qed.

(** Ends ready exactly when it succeeds. *)
Definition decides (m : M unit) : Prop := ∀ c c' r,
  m c = (c', r) → state c ≠ Ready →
  (is_Some (transport c) → is_Some (transport c')) ∧
  match r with Ok _ => state c' = Ready | Err _ => state c' ≠ Ready end.

Lemma decides_bind {A} (m : M A) (k : A → M unit) : quiet m → (∀ x, decides (k x)) → decides (x ← m; k x).
Proof.
  intros Hm Hk c c' r. unfold mbind, M_bind. destruct (m c) as [c1 [x|e]] eqn:Hc;
    destruct (Hm _ _ _ Hc) as [Hs Ht]; intros Hr Hn.
  - destruct (Hk _ _ _ _ Hr) as [? ?]; [congruence|]. split; [auto|done].
  - injection Hr as <- <-. split; [done|congruence].
Qed.

Lemma decides_ready : decides (set_state Ready).
Proof. intros c c' r [= <- <-] _. by split. Qed.
Lemma decides_error e : decides (ending ErrorState e).
Proof. intros c c' r [= <- <-] _. by split. Qed.
Lemma decides_throw e : decides (throw e).
Proof. intros c c' r [= <- <-] Hn. by split. Qed.

Lemma decides_set s m : s ≠ Ready → decides m → decides (set_state s;; m).
Proof. intros Hs Hm c c' r Hrun _. exact (Hm (with_state c s) c' r Hrun Hs). Qed.

Ltac deciding :=
  repeat first [apply decides_bind; [apply quiet_send|intros []]
               |apply decides_bind; [apply quiet_read_response|intros ?]
               |apply decides_ready|apply decides_error|apply decides_throw
               |case_match].

Lemma authenticate_decides cfg : decides (authenticate cfg).
Proof. apply (decides_set Authenticating); [done|]. deciding. Qed.

(** Steps after the connection is ready: they never fail. *)
Definition optional (m : M unit) : Prop := quiet m ∧ ∀ c, is_ok (m c).2 = true.

Lemma optional_bind {A} (m : M A) (k : A → M unit) :
  quiet m → (∀ c, is_ok (m c).2 = true) → (∀ x, optional (k x)) → optional (x ← m; k x).
Proof.
  intros Hm Hok Hk. split; [apply quiet_bind; [done|apply Hk]|]. intros c.
  unfold mbind, M_bind. pose proof (Hok c) as Hc. destruct (m c) as [c1 [x|e]]; [apply Hk|done].
Qed.

Lemma optional_attempt {A} (m : M A) : quiet m → optional (attempt m;; mret tt).
Proof.
  intros Hm. apply optional_bind; [by apply quiet_attempt| |].
  - intros c. unfold attempt. by destruct (m c).
  - intros x. split; [apply quiet_pure; by eexists|done].
Qed.

Lemma optional_ret : optional (mret tt).
Proof. split; [apply quiet_pure; by eexists|done]. Qed.

Lemma decides_then (m k : M unit) : decides m → optional k → decides (m;; k).
Proof.
  intros Hm [Hq Hok] c c' r. unfold mbind, M_bind. destruct (m c) as [c1 [[]|e]] eqn:Hc; intros Hr Hn;
    destruct (Hm _ _ _ Hc Hn) as [Ht Hs].
  - pose proof (Hok c1) as H1. destruct (Hq _ _ _ Hr) as [Hs' Ht']. rewrite Hr in H1.
    split; [auto|]. destruct r; [congruence|done].
  - by injection Hr as <- <-.
Qed.

(** The welcome, the login, and the optional steps. *)
Definition greet `{GZ : Gzip} (cfg : ServerConfig) : M unit :=
  welcome ← read_response_line;
  (if code_in welcome [200; 201]%N then mret tt
   else if code_in welcome [502%N] then ending ErrorState (ServiceUnavailable (Text (message welcome)))
   else ending ErrorState (Protocol (with_reply "Unexpected welcome code {}: {}" welcome)));;
  (match username cfg with Some _ => authenticate cfg | None => set_state Ready end);;
  q ← attempt query_capabilities;
  (match q with
   | Err _ => modify (λ c, with_capabilities c default_assumed)
   | Ok _ => mret tt
   end);;
  k ← gets capabilities;
  (if mode_reader_required k && negb (reader k) then attempt enter_reader_mode;; mret tt else mret tt);;
  (if cfg_compress cfg then attempt negotiate_compression;; mret tt else mret tt).

Lemma greet_decides `{GZ : Gzip} cfg : decides (greet cfg).
Proof.
  apply decides_bind; [apply quiet_read_response|]. intros w.
  assert (∀ m, decides m → decides ((if code_in w [200; 201]%N then mret tt
    else if code_in w [502%N] then ending ErrorState (ServiceUnavailable (Text (message w)))
    else ending ErrorState (Protocol (with_reply "Unexpected welcome code {}: {}" w)));; m)) as Hw.
  { intros m Hm. destruct (code_in w [200; 201]%N); [exact Hm|].
    destruct (code_in w [502%N]); intros c c' r [= <- <-] _; by split. }
  apply Hw, decides_then; [destruct (username cfg); [apply authenticate_decides|apply decides_ready]|].
  apply optional_bind; [apply quiet_attempt, quiet_query|intros c; unfold attempt; by destruct (query_capabilities c)|].
  intros q. apply optional_bind.
  - destruct q; [apply quiet_pure; by eexists|apply quiet_capabilities].
  - intros c. by destruct q.
  - intros []. apply optional_bind; [apply quiet_pure; by eexists|done|]. intros k.
    apply optional_bind.
    + destruct (_ && _); [apply optional_attempt, quiet_reader_mode|apply optional_ret].
    + intros c. destruct (_ && _); [apply (optional_attempt _ quiet_reader_mode)|done].
    + intros []. destruct (cfg_compress cfg); [apply optional_attempt, quiet_compression|apply optional_ret].
Qed.

(** Connecting: it succeeds exactly when it leaves the connection ready, and
    then with a transport; every failure (dial, welcome, login) leaves it in
    another state, which no command accepts. *)
Theorem connect_ready_iff_ok `{GZ : Gzip} (cfg : ServerConfig)
    (dial : result (ConnectionState * NntpError) Transport) (c : NntpConnection) :
  (∀ s e, dial = Err (s, e) → s ≠ Ready) →
  let '(c', r) := connect_inner cfg dial c in
  match r with
  | Ok _ => state c' = Ready ∧ is_connected c' = true
  | Err _ => state c' ≠ Ready
  end.
Proof.
  intros Hdial. destruct (connect_inner cfg dial c) as [c' r] eqn:Hrun.
  destruct dial as [t|[s e]].
  - assert (greet cfg (with_transport (with_state c Connecting) (Some t)) = (c', r)) as Hg by exact Hrun.
    destruct (greet_decides cfg _ _ _ Hg) as [Ht Hr]; [done|]. destruct r as [[]|]; [|done].
    split; [done|]. unfold is_connected. rewrite bool_decide_eq_true_2 by (apply Ht; by eexists).
    by rewrite Hr.
  - injection Hrun as <- <-. by eapply Hdial.
Qed.

(** ** Concrete sessions *)

#[export] Instance NoGzip : Gzip := {| gz_read b := (b, Some []) |}.

Definition wire (s : string) : bytes := as_bytes (lit s) ++ crlf.

Definition session (i : list inp) : Transport := {| input := i; output := []; writes := [] |}.

Definition ready_with (i : list inp) : NntpConnection :=
  MkConn [] Ready (Some (session i)) false default_assumed.

Definition anonymous : ServerConfig := {| username := None; password := None; cfg_compress := false |}.

(** A server that stalls within its capability list, then goes on. *)
Definition stalling : list inp :=
  sent (wire "200 welcome" ++ wire "101 capabilities" ++ wire "READER") ++ [InStall]
    ++ sent (wire "223 0 <other>" ++ wire ".").

(** A failed CAPABILITIES exchange leaves the connection out of step: when
    the server stalls within the list for longer than the timeout, connecting
    still succeeds and the connection is ready, with the rest of the list still
    to come; the next command takes a line of that list for its own reply, here
    reporting an article as present. *)
Theorem connect_ready_out_of_step :
  let '(c, r) := connect_inner anonymous (Ok (session stalling)) (new []) in
  r = Ok tt ∧ state c = Ready ∧ inputs c = sent (wire "223 0 <other>" ++ wire ".") ∧
  let '(c', r') := stat_article (lit "mine") c in
  state c' = Ready ∧ is_ok r' = true.
Proof. vm_compute. done. Qed.

Lemma body_roundtrip_witness :
  read_multiline_body_into_bounded (Some 100)
    (ready_with (sent (encode_body [wire "..dots"; wire "."; wire "x"]) ++ [InStall]))
  = (with_input (ready_with (sent (encode_body [wire "..dots"; wire "."; wire "x"]) ++ [InStall])) [InStall],
     Ok (wire "..dots" ++ wire "." ++ wire "x")).
Proof.
  apply (body_roundtrip [wire "..dots"; wire "."; wire "x"] [InStall] (Some 100)); [|reflexivity].
  repeat constructor.
  - exists (as_bytes (lit "..dots") ++ [Byte.x0d]). split; [reflexivity|]. apply (bool_decide_unpack _). vm_compute. exact I.
  - exists (as_bytes (lit ".") ++ [Byte.x0d]). split; [reflexivity|]. apply (bool_decide_unpack _). vm_compute. exact I.
  - exists (as_bytes (lit "x") ++ [Byte.x0d]). split; [reflexivity|]. apply (bool_decide_unpack _). vm_compute. exact I.
Defined.

Lemma wire_line_ascii (s : string) :
  bool_decide (Byte.x0a ∉ as_bytes (lit s)) = true → wire_line (wire s).
Proof.
  intros Hs%bool_decide_eq_true. exists (as_bytes (lit s) ++ [Byte.x0d]). unfold wire, crlf.
  rewrite <-app_assoc. split; [done|]. rewrite elem_of_app. intros [?|?%list_elem_of_singleton]; done.
Qed.

Lemma fetch_article_roundtrip_witness :
  (fetch_article (lit "a@b") (ready_with (sent (wire "220 0 <a@b>" ++ encode_body [wire "Subject: x"; wire ""; wire ".y"]) ++ []))).2
  = Ok {| code := 220; message := lit "0 <a@b>"; data := Some (concat [wire "Subject: x"; wire ""; wire ".y"]) |}.
Proof.
  rewrite (fetch_article_roundtrip (lit "a@b")
    (ready_with (sent (wire "220 0 <a@b>" ++ encode_body [wire "Subject: x"; wire ""; wire ".y"]) ++ []))
    (wire "220 0 <a@b>") {| code := 220; message := lit "0 <a@b>"; data := None |}
    [wire "Subject: x"; wire ""; wire ".y"] []).
  - reflexivity.
  - reflexivity.
  - by eexists.
  - reflexivity.
  - by apply wire_line_ascii.
  - vm_compute. reflexivity.
  - reflexivity.
  - repeat constructor; by apply wire_line_ascii.
  - reflexivity.
Defined.

Lemma post_article_roundtrip_witness :
  (post_article_bytes (article_of [as_bytes (lit "From: x"); []; as_bytes (lit ".z")])
     (ready_with (sent (wire "340 go") ++ sent (wire "240 done") ++ []))).2
  = Ok {| code := 240; message := lit "done"; data := None |}.
Proof.
  destruct (post_article_roundtrip [as_bytes (lit "From: x"); []; as_bytes (lit ".z")]
    (ready_with (sent (wire "340 go") ++ sent (wire "240 done") ++ [])) (ready_with [])
    (wire "340 go") (wire "240 done") {| code := 340; message := lit "go"; data := None |}
    {| code := 240; message := lit "done"; data := None |} [] []) as (w & Hw & _).
  - reflexivity.
  - by eexists.
  - repeat constructor; apply (bool_decide_unpack _); vm_compute; exact I.
  - by apply wire_line_ascii.
  - vm_compute. reflexivity.
  - reflexivity.
  - by apply wire_line_ascii.
  - vm_compute. reflexivity.
  - reflexivity.
  - rewrite Hw. reflexivity.
Defined.

Lemma connect_ready_iff_ok_witness :
  state (fst (connect_inner anonymous (Ok (session stalling)) (new []))) = Ready.
Proof.
  pose proof (connect_ready_iff_ok anonymous (Ok (session stalling)) (new []) ltac:(by intros ? ? [=])) as H.
  destruct (connect_inner anonymous (Ok (session stalling)) (new [])) as [c' r] eqn:E.
  assert (r = Ok tt) as ->.
  { change r with (snd (c', r)). rewrite <-E. vm_compute. reflexivity. }
  apply H.
Defined.
