(* ===== verification/Pipeline.v ===== *)
(** * Pipelined requests

    Models [crates/nzb-nntp/src/pipeline.rs]: several ARTICLE or STAT commands
    sent before their replies are read, the replies being matched to the oldest
    outstanding request. A pipeline call threads the pipeline and the
    connection; on an error both are as the call left them. *)
From S2P Require Import Prelude Str Capabilities Wire Client.

Record PipelineRequest := { req_id : str; tag : N }.

Record PipelineResult := { pr_request : PipelineRequest; pr_result : result NntpError NntpResponse }.

Record Pipeline := {
  depth : nat;
  in_flight : list PipelineRequest;
  pending : list PipelineRequest;
}.

Definition new_pipeline (d : nat) : Pipeline := {| depth := d `max` 1; in_flight := []; pending := [] |}.

Definition submit (p : Pipeline) (id : str) (t : N) : Pipeline :=
  {| depth := depth p; in_flight := in_flight p; pending := pending p ++ [{| req_id := id; tag := t |}] |}.

Definition in_flight_count (p : Pipeline) : nat := length (in_flight p).
Definition pending_count (p : Pipeline) : nat := length (pending p).
Definition is_empty (p : Pipeline) : bool := bool_decide (in_flight p = []) && bool_decide (pending p = []).

(** [inspect_err] on a pipeline's connection *)
Definition article_command (r : PipelineRequest) : str :=
  let mid := if starts_with (lit "<") (req_id r) then req_id r else lit "<" ++ req_id r ++ lit ">" in
  lit "ARTICLE " ++ mid.

(** The loop of [flush_sends]: what is in flight, what is still pending, and how
    many were sent. *)
Fixpoint send_loop (d : nat) (flying waiting : list PipelineRequest) (sent : nat) (c : NntpConnection)
    : list PipelineRequest * list PipelineRequest * NntpConnection * result NntpError nat :=
  match waiting with
  | [] => (flying, [], c, Ok sent)
  | r :: waiting' =>
    if decide (length flying < d) then
      match or_error (send_command_no_flush (article_command r)) c with
      | (c', Err e) => (flying, waiting', c', Err e)
      | (c', Ok _) => send_loop d (flying ++ [r]) waiting' (S sent) c'
      end
    else (flying, waiting, c, Ok sent)
  end.

Definition flush_sends (p : Pipeline) (c : NntpConnection) : Pipeline * NntpConnection * result NntpError unit :=
  let '(fl, wa, c1, r) := send_loop (depth p) (in_flight p) (pending p) 0 c in
  let p1 := {| depth := depth p; in_flight := fl; pending := wa |} in
  match r with
  | Err e => (p1, c1, Err e)
  | Ok sent =>
    if decide (0 < sent) then
      let '(c2, r2) := or_error flush c1 in (p1, c2, r2)
    else (p1, c1, Ok tt)
  end.

(** The outcome of one reply, from its status line on. *)
Definition article_outcome (id : str) (r : NntpResponse) : M NntpResponse :=
  if code_in r [220%N] then d ← or_error read_multiline_body; mret (with_data r d)
  else if code_in r [430%N] then throw (ArticleNotFound (Text id))
  else if code_in r [411%N] then throw (NoSuchGroup (Text (message r)))
  else if code_in r [412; 420; 423]%N then throw (NoArticleSelected (Text (message r)))
  else if code_in r [403%N] then ending ErrorState (PermissionDenied (Text (message r)))
  else if code_in r [480%N] then ending ErrorState (AuthRequired (Text (message r)))
  else if code_in r [481; 482]%N then ending ErrorState (Auth (with_reply "ARTICLE rejected ({}): {}" r))
  else if code_in r [502%N] then ending ErrorState (ServiceUnavailable (Text (message r)))
  else ending ErrorState (unexpected_article_response (code r) (message r)).

Definition receive_one (p : Pipeline) (c : NntpConnection)
    : Pipeline * NntpConnection * result NntpError (option PipelineResult) :=
  match in_flight p with
  | [] => (p, c, Ok None)
  | req :: fl =>
    let p1 := {| depth := depth p; in_flight := fl; pending := pending p |} in
    match or_error read_response_line c with
    | (c1, Err e) => (p1, c1, Err e)
    | (c1, Ok status) =>
      let '(c2, res) := article_outcome (req_id req) status c1 in
      (p1, c2, Ok (Some {| pr_request := req; pr_result := res |}))
    end
  end.

Definition is_fatal (r : result NntpError NntpResponse) : bool :=
  match r with
  | Err (Auth _) | Err (AuthRequired _) | Err (PermissionDenied _) | Err (ServiceUnavailable _)
  | Err (Connection _) | Err (Io _) => true
  | _ => false
  end.

Definition aborted (r : PipelineRequest) : PipelineResult :=
  {| pr_request := r; pr_result := Err (Connection (Text (lit "Pipeline aborted due to fatal error"))) |}.

(** The loop of [process_all]; every turn but the last settles one request, so
    one more turn than there are requests is enough. *)
Fixpoint process_loop (fuel : nat) (p : Pipeline) (c : NntpConnection) (results : list PipelineResult)
    : Pipeline * NntpConnection * option (result NntpError (list PipelineResult)) :=
  match fuel with
  | 0 => (p, c, None)
  | S fuel' =>
    match flush_sends p c with
    | (p1, c1, Err e) => (p1, c1, Some (Err e))
    | (p1, c1, Ok _) =>
      match in_flight p1 with
      | [] => (p1, c1, Some (Ok results))
      | _ :: _ =>
        match receive_one p1 c1 with
        | (p2, c2, Err e) => (p2, c2, Some (Err e))
        | (p2, c2, Ok None) => process_loop fuel' p2 c2 results
        | (p2, c2, Ok (Some res)) =>
          let results := results ++ [res] in
          if is_fatal (pr_result res) then
            ({| depth := depth p2; in_flight := []; pending := [] |}, c2,
             Some (Ok (results ++ map aborted (in_flight p2) ++ map aborted (pending p2))))
          else process_loop fuel' p2 c2 results
        end
      end
    end
  end.

Definition process_all (p : Pipeline) (c : NntpConnection) :=
  process_loop (S (length (in_flight p) + length (pending p))) p c [].

(** ** STAT *)
Record StatResult := { stat_id : str; exists_ : bool }.

Definition STAT_BATCH_SIZE : nat := 100.

Definition stat_command (mid : str) : str := lit "STAT " ++ normalize_message_id mid.

Fixpoint stat_sends (ids : list str) : M unit :=
  match ids with
  | [] => mret tt
  | mid :: ids' => or_error (send_command_no_flush (stat_command mid));; stat_sends ids'
  end.

Fixpoint stat_reads (ids : list str) (acc : list StatResult) : M (list StatResult) :=
  match ids with
  | [] => mret acc
  | mid :: ids' =>
    r ← or_error read_response_line;
    if code_in r [223%N] then stat_reads ids' (acc ++ [{| stat_id := mid; exists_ := true |}])
    else if code_in r [430%N] then stat_reads ids' (acc ++ [{| stat_id := mid; exists_ := false |}])
    else if code_in r [480%N] then ending ErrorState (AuthRequired (Text (message r)))
    else if code_in r [481; 482]%N then ending ErrorState (Auth (with_reply "STAT rejected ({}): {}" r))
    else if code_in r [502%N] then ending ErrorState (ServiceUnavailable (Text (message r)))
    else ending ErrorState (Protocol (with_reply "Unexpected STAT response {}: {}" r))
  end.

(** One batch. *)
Definition stat_batch (batch : list str) (acc : list StatResult) : M (list StatResult) :=
  set_state Busy;;
  stat_sends batch;;
  or_error flush;;
  acc' ← stat_reads batch acc;
  set_state Ready;; mret acc'.

Fixpoint stat_batches (bs : list (list str)) (acc : list StatResult) : M (list StatResult) :=
  match bs with
  | [] => mret acc
  | b :: bs' => acc' ← stat_batch b acc; stat_batches bs' acc'
  end.

(** [execute]: the queue is emptied whatever happens. *)
Definition execute (queue : list str) : M (list StatResult) :=
  stat_batches (chunks STAT_BATCH_SIZE queue) [].

(** ** Every request is settled once *)

Lemma or_error_spec {A} (m : M A) c c' r :
  or_error m c = (c', r) → match r with Err _ => state c' = ErrorState | Ok x => m c = (c', Ok x) end.
Proof. unfold or_error. destruct (m c) as [c1 [x|e]]; by intros [= <- <-]. Qed.

Lemma send_loop_spec d : ∀ wa fl n c fl' wa' c' r,
  send_loop d fl wa n c = (fl', wa', c', r) →
  match r with
  | Err _ => state c' = ErrorState
  | Ok _ => fl' ++ wa' = fl ++ wa ∧ length fl' ≤ d `max` length fl ∧ (0 < d → fl' = [] → wa' = [])
  end.
Proof.
  induction wa as [|w wa IH]; intros fl n c fl' wa' c' r; simpl.
  { intros [= <- <- <- <-]. split_and!; [done|lia|done]. }
  case_decide as Hd.
  - destruct (or_error _ c) as [c1 [[]|e]] eqn:Hw; apply or_error_spec in Hw; [|by intros [= <- <- <- <-]].
    intros Hr%IH. destruct r as [k|]; [|done]. destruct Hr as (H1 & H2 & H3).
    rewrite length_app in H2. simpl in H2. split_and!; [|lia|].
    + by rewrite H1, <-app_assoc.
    + intros Hp ->. simpl in H1. rewrite H3 in H1 by done. by destruct fl.
  - intros [= <- <- <- <-]. split_and!; [done|lia|]. intros Hp ->. simpl in Hd. lia.
Qed.

Lemma flush_sends_spec p c p' c' r :
  flush_sends p c = (p', c', r) →
  depth p' = depth p ∧
  match r with
  | Err _ => state c' = ErrorState
  | Ok _ => in_flight p' ++ pending p' = in_flight p ++ pending p ∧
      length (in_flight p') ≤ depth p `max` length (in_flight p) ∧
      (0 < depth p → in_flight p' = [] → pending p' = [])
  end.
Proof.
  unfold flush_sends. destruct (send_loop _ _ _ _ c) as [[[fl wa] c1] r1] eqn:Hs.
  apply send_loop_spec in Hs. destruct r1 as [k|e]; [|by intros [= <- <- <-]].
  case_decide; [|by intros [= <- <- <-]].
  destruct (or_error flush c1) as [c2 r2] eqn:Hf. apply or_error_spec in Hf. intros [= <- <- <-].
  destruct r2; done.
Qed.

Lemma receive_one_spec p c p' c' r req fl :
  in_flight p = req :: fl → receive_one p c = (p', c', r) →
  depth p' = depth p ∧ in_flight p' = fl ∧ pending p' = pending p ∧
  match r with
  | Err _ => state c' = ErrorState
  | Ok o => ∃ res, o = Some {| pr_request := req; pr_result := res |}
  end.
Proof.
  intros Hf. unfold receive_one. rewrite Hf.
  destruct (or_error read_response_line c) as [c1 [st|e]] eqn:Hr; apply or_error_spec in Hr.
  - destruct (article_outcome _ _ c1) as [c2 res]. intros [= <- <- <-]. simpl. eauto 6.
  - by intros [= <- <- <-].
Qed.

Lemma map_aborted l : map pr_request (map aborted l) = l.
Proof. rewrite map_map. apply map_id. Qed.

Lemma process_loop_accounts fuel : ∀ p c results p' c' o,
  0 < depth p → length (in_flight p) + length (pending p) < fuel →
  process_loop fuel p c results = (p', c', o) →
  match o with
  | None => False
  | Some (Err _) => state c' = ErrorState
  | Some (Ok rs) =>
    map pr_request rs = map pr_request results ++ in_flight p ++ pending p ∧ is_empty p' = true
  end.
Proof.
  induction fuel as [|fuel IH]; intros p c results p' c' o Hd Hf; [lia|]. cbn [process_loop].
  destruct (flush_sends p c) as [[p1 c1] [[]|e]] eqn:Hfl; apply flush_sends_spec in Hfl as [Hd1 Hfl];
    [|by intros [= <- <- <-]].
  destruct Hfl as (Hall & _ & Hemp). rewrite <-Hall.
  assert (length (in_flight p1) + length (pending p1) = length (in_flight p) + length (pending p)) as Hlen.
  { rewrite <-!length_app. by rewrite Hall. }
  destruct (in_flight p1) as [|req fl] eqn:Hin.
  { intros [= <- <- <-]. rewrite (Hemp Hd eq_refl). simpl. rewrite app_nil_r. split; [done|].
    unfold is_empty. by rewrite Hin, (Hemp Hd eq_refl). }
  destruct (receive_one p1 c1) as [[p2 c2] r2] eqn:Hrec.
  destruct (receive_one_spec _ _ _ _ _ _ _ Hin Hrec) as (Hd2 & Hf2 & Hp2 & Hr2).
  destruct r2 as [o2|e]; [|by intros [= <- <- <-]]. destruct Hr2 as [res ->].
  case_match eqn:Hfat.
  - intros [= <- <- <-]. split; [|done]. rewrite !map_app, !map_aborted, Hf2, Hp2. simpl.
    by rewrite <-app_assoc.
  - intros Hrun. apply IH in Hrun; [|congruence|rewrite Hf2, Hp2; simpl in Hlen; lia].
    destruct o as [[rs|]|]; [|done..]. destruct Hrun as [Hrs ?]. split; [|done].
    rewrite Hrs, map_app, Hf2, Hp2. simpl. by rewrite <-app_assoc.
Qed.

(** The pipeline, on any connection and whatever the server does:
    [process_all] ends; when it returns results there is exactly one for each
    request, in the order of submission, and the pipeline is empty; when it
    returns an error the connection is in the error state. And it never has more
    requests in flight than its depth. *)
Theorem pipeline_settles_all (d : nat) (reqs : list PipelineRequest) (c : NntpConnection) :
  let p := {| depth := d `max` 1; in_flight := []; pending := reqs |} in
  let '(p', c', o) := process_all p c in
  match o with
  | None => False
  | Some (Err _) => state c' = ErrorState
  | Some (Ok rs) => map pr_request rs = reqs ∧ is_empty p' = true
  end ∧
  ∀ q c1 q' c2 r, length (in_flight q) ≤ depth q → flush_sends q c1 = (q', c2, Ok r) →
    length (in_flight q') ≤ depth q'.
Proof.
  intros p. destruct (process_all p c) as [[p' c'] o] eqn:Hrun. split.
  - apply process_loop_accounts in Hrun; [done|simpl; lia|simpl; lia].
  - intros q c1 q' c2 r Hq Hf. apply flush_sends_spec in Hf as (-> & _ & Hf & _). lia.
Qed.

(** ** In step with a server that answers in order *)

(** An answer to one ARTICLE command: the article, or a miss. *)
Inductive answer :=
  | Found (l : bytes) (r : NntpResponse) (ls : list bytes)
  | Missing (l : bytes) (r : NntpResponse).

Definition answer_bytes (a : answer) : bytes :=
  match a with Found l _ ls => l ++ encode_body ls | Missing l _ => l end.

Definition answer_ok (a : answer) : Prop :=
  match a with
  | Found l r ls => wire_line l ∧ status_of l = Some r ∧ code r = 220%N ∧ Forall wire_line ls
  | Missing l r => wire_line l ∧ status_of l = Some r ∧ code r ∈ [430; 411; 412; 420; 423]%N
  end.

Definition outcome (req : PipelineRequest) (a : answer) : PipelineResult :=
  {| pr_request := req;
     pr_result := match a with
       | Found _ r ls => Ok (with_data r (concat ls))
       | Missing _ r =>
         if code_in r [430%N] then Err (ArticleNotFound (Text (req_id req)))
         else if code_in r [411%N] then Err (NoSuchGroup (Text (message r)))
         else Err (NoArticleSelected (Text (message r)))
       end |}.

Definition commands (l : list PipelineRequest) : bytes :=
  concat (map (λ r, as_bytes (article_command r ++ [CR; NL])) l).

Lemma moved_same c : healthy c → moved c [] (inputs c) (state c) = c.
Proof.
  intros (t & Ht & Hw). unfold moved, outputs, inputs. rewrite Ht, app_nil_r.
  destruct c, t; simpl in *. by subst.
Qed.

Lemma send_loop_healthy d : ∀ wa fl n c,
  healthy c → ∃ k,
    send_loop d fl wa n c = (fl ++ take k wa, drop k wa, moved c (commands (take k wa)) (inputs c) (state c), Ok (n + k)).
Proof.
  induction wa as [|w wa IH]; intros fl n c Hh; simpl.
  { exists 0. rewrite moved_same, app_nil_r, Nat.add_0_r by done. done. }
  case_decide.
  - unfold or_error, send_command_no_flush. rewrite write_moved by done.
    destruct (IH (fl ++ [w]) (S n) (moved c (as_bytes (article_command w ++ [CR; NL])) (inputs c) (state c))
      (healthy_moved _ _ _ _)) as [k Hk].
    exists (S k). rewrite Hk. simpl. rewrite moved_moved, <-app_assoc. do 2 f_equal. lia.
  - exists 0. rewrite moved_same, app_nil_r, Nat.add_0_r by done. done.
Qed.

Lemma flush_sends_healthy p c :
  healthy c → ∃ k, flush_sends p c =
    ({| depth := depth p; in_flight := in_flight p ++ take k (pending p); pending := drop k (pending p) |},
     moved c (commands (take k (pending p))) (inputs c) (state c), Ok tt).
Proof.
  intros Hh. unfold flush_sends. destruct (send_loop_healthy (depth p) (pending p) (in_flight p) 0 c Hh) as [k ->].
  exists k. case_decide; [|done]. unfold or_error, flush. rewrite write_moved by apply healthy_moved.
  by rewrite moved_moved, app_nil_r.
Qed.

Lemma receive_answer p c req fl a rest :
  in_flight p = req :: fl → healthy c → inputs c = sent (answer_bytes a) ++ rest → answer_ok a →
  receive_one p c = ({| depth := depth p; in_flight := fl; pending := pending p |},
    moved c [] rest (state c), Ok (Some (outcome req a))).
Proof.
  intros Hf Hh Hi Ha. unfold receive_one. rewrite Hf.
  assert (is_Some (transport c)) as Hs by (destruct Hh as (t & Ht & _); by eexists).
  assert (∀ i, with_input c i = moved c [] i (state c)) as Hm.
  { intros i. destruct Hh as (t & Ht & Hw). unfold with_input, moved, outputs, with_transport.
    by rewrite Ht, Hw, app_nil_r. }
  destruct a as [l r ls|l r]; simpl in Hi, Ha.
  - destruct Ha as (Hl & Hst & Hc & Hls). unfold sent in Hi. rewrite fmap_app, <-app_assoc in Hi.
    unfold or_error at 1. rewrite (read_response_line_wire c l r _ Hl Hst Hi Hs).
    unfold article_outcome, code_in. rewrite bool_decide_eq_true_2 by (rewrite Hc; left).
    rewrite Hm. set (c1 := moved _ _ _ _).
    assert (read_multiline_body c1 = (with_input c1 rest, Ok (concat ls))) as Hb.
    { exact (read_body_encoded None ls rest c1 Hls eq_refl eq_refl). }
    cbv [mbind M_bind or_error mret M_ret]. rewrite Hb. done.
  - destruct Ha as (Hl & Hst & Hc). unfold or_error at 1.
    rewrite (read_response_line_wire c l r _ Hl Hst Hi Hs), Hm.
    unfold article_outcome, outcome, code_in. rewrite !elem_of_cons in Hc.
    destruct Hc as [Hc|[Hc|[Hc|[Hc|[Hc|Hc%elem_of_nil]]]]]; [..|done]; rewrite Hc; done.
Qed.

Lemma outcome_not_fatal req a : is_fatal (pr_result (outcome req a)) = false.
Proof. destruct a; simpl; [done|]. repeat case_match; done. Qed.

Lemma commands_app l k : commands (l ++ k) = commands l ++ commands k.
Proof. unfold commands. by rewrite map_app, concat_app. Qed.

Lemma process_loop_in_step fuel : ∀ p c results answers rest,
  0 < depth p → length (in_flight p) + length (pending p) < fuel → healthy c →
  Forall answer_ok answers → length answers = length (in_flight p ++ pending p) →
  inputs c = sent (concat (map answer_bytes answers)) ++ rest →
  process_loop fuel p c results =
    ({| depth := depth p; in_flight := []; pending := [] |},
     moved c (commands (pending p)) rest (state c),
     Some (Ok (results ++ zip_with outcome (in_flight p ++ pending p) answers))).
Proof.
  induction fuel as [|fuel IH]; intros p c results answers rest Hd Hf Hh Hok Hlen Hi; [lia|].
  cbn [process_loop]. destruct (flush_sends_healthy p c Hh) as [k Hfl].
  pose proof (flush_sends_spec _ _ _ _ _ Hfl) as (_ & Hall & _ & Hemp). rewrite Hfl.
  simpl in Hall, Hemp. set (c1 := moved c _ _ _). set (p1 := {| depth := depth p; in_flight := _; pending := _ |}).
  assert (in_flight p1 ++ pending p1 = in_flight p ++ pending p) as Hall1 by exact Hall.
  assert (commands (pending p) = commands (take k (pending p)) ++ commands (pending p1)) as Hcmd.
  { change (pending p1) with (drop k (pending p)). by rewrite <-commands_app, take_drop. }
  rewrite <-Hall1 in Hlen |- *. rewrite Hcmd.
  destruct (in_flight p1) as [|req fl] eqn:Hin.
  { assert (pending p1 = []) as Hp1 by exact (Hemp Hd Hin). rewrite Hp1 in Hlen |- *.
    destruct answers; [|done].
    assert (p1 = {| depth := depth p; in_flight := []; pending := [] |}) as ->.
    { unfold p1 in *. simpl in Hin, Hp1. by rewrite Hin, Hp1. }
    simpl. rewrite app_nil_r. subst c1. change (commands []) with (@nil byte).
    by rewrite app_nil_r, Hi. }
  destruct answers as [|a answers]; [done|]. apply Forall_cons in Hok as [Ha Hok].
  simpl in Hi. unfold sent in Hi. rewrite fmap_app, <-app_assoc in Hi. fold sent in Hi.
  assert (inputs c1 = sent (answer_bytes a) ++ sent (concat (map answer_bytes answers)) ++ rest) as Hi1 by exact Hi.
  rewrite (receive_answer p1 c1 req fl a _ Hin (healthy_moved _ _ _ _) Hi1 Ha).
  rewrite outcome_not_fatal.
  assert (length (in_flight p1) + length (pending p1) = length (in_flight p) + length (pending p)) as Hsum.
  { rewrite <-!length_app. by rewrite Hin, Hall1. }
  rewrite (IH _ _ _ answers rest); [|done| |apply healthy_moved|done|by injection Hlen|done].
  - simpl. subst c1. rewrite !moved_moved, app_nil_l. rewrite <-app_assoc. done.
  - rewrite Hin in Hsum. simpl in *. lia.
Qed.

(** C14. In step: when writes succeed and the server answers the requests in the
    order they were sent, with articles or misses, every request gets its own
    answer: the article's exact bytes, or the miss. The commands go out in the
    order of submission, the replies are fully read and the connection's state
    is untouched, whatever the depth. *)
Theorem pipeline_matches_answers (d : nat) (reqs : list PipelineRequest) (answers : list answer)
    (c : NntpConnection) (rest : list inp) :
  healthy c → Forall answer_ok answers → length answers = length reqs →
  inputs c = sent (concat (map answer_bytes answers)) ++ rest →
  process_all {| depth := d `max` 1; in_flight := []; pending := reqs |} c =
    ({| depth := d `max` 1; in_flight := []; pending := [] |},
     moved c (commands reqs) rest (state c), Some (Ok (zip_with outcome reqs answers))).
Proof.
  intros Hh Hok Hlen Hi. unfold process_all.
  by rewrite (process_loop_in_step _ _ _ _ answers rest); simpl; [|lia|lia|..].
Qed.

(** ** STAT batches *)

(** A one-line answer: there or not. *)
Definition stat_answer_ok (a : bytes * NntpResponse) : Prop :=
  wire_line a.1 ∧ status_of a.1 = Some a.2 ∧ code a.2 ∈ [223; 430]%N.

Definition stat_outcome (id : str) (a : bytes * NntpResponse) : StatResult :=
  {| stat_id := id; exists_ := bool_decide (code a.2 = 223%N) |}.

Definition stat_commands (ids : list str) : bytes :=
  concat (map (λ id, as_bytes (stat_command id ++ [CR; NL])) ids).

Lemma stat_sends_healthy ids : ∀ c,
  healthy c → stat_sends ids c = (moved c (stat_commands ids) (inputs c) (state c), Ok tt).
Proof.
  induction ids as [|id ids IH]; intros c Hh; simpl.
  - cbv [mret M_ret]. by rewrite moved_same.
  - cbv [mbind M_bind or_error send_command_no_flush]. rewrite write_moved by done.
    rewrite IH by apply healthy_moved. by rewrite moved_moved.
Qed.

Lemma stat_reads_answers : ∀ answers ids acc c rest,
  healthy c → Forall stat_answer_ok answers → length answers = length ids →
  inputs c = sent (concat (map fst answers)) ++ rest →
  stat_reads ids acc c = (moved c [] rest (state c), Ok (acc ++ zip_with stat_outcome ids answers)).
Proof.
  induction answers as [|[l r] answers IH]; intros [|id ids] acc c rest Hh Hok Hlen Hi; try done; simpl.
  - cbv [mret M_ret]. simpl in Hi. by rewrite <-Hi, moved_same, app_nil_r.
  - apply Forall_cons in Hok as [(Hl & Hst & Hc) Hok]. simpl in *.
    unfold sent in Hi. rewrite fmap_app, <-app_assoc in Hi. fold sent in Hi.
    assert (is_Some (transport c)) as Hs by (destruct Hh as (t & Ht & _); by eexists).
    unfold mbind at 1, M_bind at 1. unfold or_error at 1.
    rewrite (read_response_line_wire c l r _ Hl Hst Hi Hs).
    assert (∀ i, with_input c i = moved c [] i (state c)) as Hm.
    { intros i. destruct Hh as (t & Ht & Hw). unfold with_input, moved, outputs, with_transport.
      by rewrite Ht, Hw, app_nil_r. }
    rewrite Hm. rewrite !elem_of_cons in Hc. unfold code_in, stat_outcome. simpl.
    destruct Hc as [Hc|[Hc|Hc%elem_of_nil]]; [..|done]; rewrite Hc; simpl.
    + rewrite (IH ids _ _ rest); [|apply healthy_moved|done|by injection Hlen|done].
      by rewrite moved_moved, <-app_assoc.
    + rewrite (IH ids _ _ rest); [|apply healthy_moved|done|by injection Hlen|done].
      by rewrite moved_moved, <-app_assoc.
Qed.

Lemma stat_batch_answers batch acc c answers rest :
  healthy c → Forall stat_answer_ok answers → length answers = length batch →
  inputs c = sent (concat (map fst answers)) ++ rest →
  stat_batch batch acc c = (moved c (stat_commands batch) rest Ready, Ok (acc ++ zip_with stat_outcome batch answers)).
Proof.
  intros Hh Hok Hlen Hi. unfold stat_batch. cbv [mbind M_bind set_state modify mret M_ret or_error flush].
  assert (healthy (with_state c Busy)) as Hh' by exact Hh.
  rewrite stat_sends_healthy by done. rewrite write_moved by apply healthy_moved.
  rewrite (stat_reads_answers answers batch acc _ rest); [|apply healthy_moved|done|done|exact Hi].
  rewrite !moved_moved, !app_nil_r. done.
Qed.

Lemma stat_batches_answers bs : ∀ acc c answers rest,
  healthy c → bs ≠ [] → Forall stat_answer_ok answers → length answers = length (concat bs) →
  inputs c = sent (concat (map fst answers)) ++ rest →
  stat_batches bs acc c =
    (moved c (stat_commands (concat bs)) rest Ready, Ok (acc ++ zip_with stat_outcome (concat bs) answers)).
Proof.
  induction bs as [|b bs IH]; intros acc c answers rest Hh Hne Hok Hlen Hi; [done|]. simpl.
  simpl in Hlen. rewrite length_app in Hlen.
  rewrite <-(take_drop (length b) answers) in Hi, Hok |- *. rewrite map_app, concat_app in Hi.
  unfold sent in Hi. rewrite fmap_app, <-app_assoc in Hi. fold sent in Hi.
  apply Forall_app in Hok as [Hok1 Hok2].
  unfold mbind, M_bind. rewrite (stat_batch_answers b acc c (take (length b) answers)
    (sent (concat (map fst (drop (length b) answers))) ++ rest) Hh Hok1); [|rewrite length_take; lia|exact Hi].
  rewrite zip_with_app by (rewrite length_take; lia). rewrite app_assoc.
  destruct bs as [|b' bs].
  - simpl in *. cbv [mret M_ret]. assert (drop (length b) answers = []) as Hd by (apply drop_ge; lia).
    rewrite Hd. simpl. by rewrite !app_nil_r.
  - rewrite (IH _ _ (drop (length b) answers) rest); [|apply healthy_moved|done|done|rewrite length_drop; lia|done].
    rewrite moved_moved. unfold stat_commands. by rewrite map_app, concat_app.
Qed.

(** STAT in batches: when writes succeed and the server answers each STAT
    with 223 or 430, every message-id queued, in order and however many batches
    of a hundred that takes, is reported present or absent as its own answer
    says; every command is sent once, and the connection ends ready. *)
Theorem stat_reports_answers (ids : list str) (answers : list (bytes * NntpResponse))
    (c : NntpConnection) (rest : list inp) :
  healthy c → ids ≠ [] → Forall stat_answer_ok answers → length answers = length ids →
  inputs c = sent (concat (map fst answers)) ++ rest →
  execute ids c = (moved c (stat_commands ids) rest Ready, Ok (zip_with stat_outcome ids answers)).
Proof.
  intros Hh Hne Hok Hlen Hi. unfold execute.
  assert (concat (chunks STAT_BATCH_SIZE ids) = ids) as Hc by (apply concat_chunks; unfold STAT_BATCH_SIZE; lia).
  rewrite (stat_batches_answers _ [] c answers rest); rewrite ?Hc; try done.
  intros Hn. apply Hne. by rewrite <-Hc, Hn.
Qed.

(** ** Concrete runs *)
Definition demo_requests : list PipelineRequest :=
  [{| req_id := lit "a"; tag := 1 |}; {| req_id := lit "<b>"; tag := 2 |}; {| req_id := lit "c"; tag := 3 |}].

Definition demo_answers : list answer :=
  [Found (wire "220 0 <a>") {| code := 220; message := lit "0 <a>"; data := None |} [wire "x"; wire ".y"];
   Missing (wire "430 none") {| code := 430; message := lit "none"; data := None |};
   Found (wire "220 0 <c>") {| code := 220; message := lit "0 <c>"; data := None |} []].

Lemma pipeline_matches_answers_witness :
  (process_all {| depth := 2 `max` 1; in_flight := []; pending := demo_requests |}
    (ready_with (sent (concat (map answer_bytes demo_answers)) ++ []))).2
  = Some (Ok (zip_with outcome demo_requests demo_answers)).
Proof.
  rewrite (pipeline_matches_answers 2 demo_requests demo_answers
    (ready_with (sent (concat (map answer_bytes demo_answers)) ++ [])) []).
  - reflexivity.
  - by eexists.
  - repeat constructor; try (by apply wire_line_ascii); try (vm_compute; reflexivity).
  - reflexivity.
  - reflexivity.
Defined.

Definition demo_stats : list (bytes * NntpResponse) :=
  [(wire "223 0 <a>", {| code := 223; message := lit "0 <a>"; data := None |});
   (wire "430 no", {| code := 430; message := lit "no"; data := None |})].

Lemma stat_reports_answers_witness :
  (execute [lit "a"; lit "b"] (ready_with (sent (concat (map fst demo_stats)) ++ []))).2
  = Ok [{| stat_id := lit "a"; exists_ := true |}; {| stat_id := lit "b"; exists_ := false |}].
Proof.
  rewrite (stat_reports_answers [lit "a"; lit "b"] demo_stats (ready_with (sent (concat (map fst demo_stats)) ++ [])) []).
  - reflexivity.
  - by eexists.
  - done.
  - constructor; [|constructor; [|constructor]]; (split; [by apply wire_line_ascii|]);
      (split; [vm_compute; reflexivity|simpl]); [left|right; left].
  - reflexivity.
  - reflexivity.
Defined.

(** A reply that puts the connection in the error state without counting as
    fatal: the loop goes on reading from it. *)
Example error_state_not_fatal :
  let '(_, c, o) := process_all {| depth := 2; in_flight := []; pending := take 2 demo_requests |}
    (ready_with (sent (wire "500 what" ++ wire "430 none"))) in
  state c = ErrorState ∧
  map (λ r, is_ok (pr_result r)) <$> (match o with Some (Ok rs) => Some rs | _ => None end) = Some [false; false] ∧
  inputs c = [].
Proof. vm_compute. done. Qed.
