(* ===== verification/WorkQueue.v ===== *)
(** * The article work queue and the held recovery volumes

    Models [SharedWorkQueue] and [WorkItem] of
    [crates/nzb-dispatch/src/download_engine.rs], the failure taxonomy of
    [article_failure.rs] and [held_volumes.rs].

    Server, job and file ids are strings; a file name is a list of code points.
    [Notify] only wakes sleeping workers and has no state of its own here. The
    lock around the queue makes each operation atomic. *)
From S2P Require Import Prelude Str Wire.

(** ** The failure taxonomy *)
Module ArticleFailureKind.
Inductive ArticleFailureKind :=
  | NotFound | ServerDown | AuthFailed | PermissionDenied | DecodeError
  | Timeout | ConnectionClosed | Protocol | Other.

#[export] Instance ArticleFailureKind_eq_dec : EqDecision ArticleFailureKind.
Proof. solve_decision. Defined.

Definition is_per_server (k : ArticleFailureKind) : bool :=
  match k with
  | NotFound | ServerDown | AuthFailed | PermissionDenied | Timeout | ConnectionClosed
  | Protocol => true
  | DecodeError | Other => false
  end.

Definition counts_toward_hopeless (k : ArticleFailureKind) : bool :=
  match k with NotFound | DecodeError => true | _ => false end.

Definition should_break_server (k : ArticleFailureKind) : bool :=
  match k with AuthFailed | PermissionDenied => true | _ => false end.

Definition as_str (k : ArticleFailureKind) : str :=
  lit match k with
  | NotFound => "not_found"
  | ServerDown => "server_down"
  | AuthFailed => "auth_failed"
  | PermissionDenied => "permission_denied"
  | DecodeError => "decode_error"
  | Timeout => "timeout"
  | ConnectionClosed => "connection_closed"
  | Protocol => "protocol"
  | Other => "other"
  end.

(** The kind [ArticleFailure::from_nntp] gives an error. *)
Definition kind_of_nntp (e : NntpError) : ArticleFailureKind :=
  match e with
  | Wire.ArticleNotFound _ => NotFound
  | Wire.ServiceUnavailable _ => ServerDown
  | Wire.Auth _ | Wire.AuthRequired _ => AuthFailed
  | Wire.PermissionDenied _ => PermissionDenied
  | Wire.Connection _ | Wire.Io _ => ConnectionClosed
  | Wire.Timeout _ => Timeout
  | Wire.Protocol _ | Wire.UnsupportedCommand _ | Wire.ResponseTooLarge _ => Protocol
  | Wire.NoSuchGroup _ | Wire.NoArticleSelected _ => Protocol
  | Wire.NoConnectionsAvailable _ | Wire.AllServersExhausted _ | Wire.Tls _ | Wire.Shutdown => Other
  end.
End ArticleFailureKind.
Export (hints) ArticleFailureKind.
Abbreviation FailureKind := ArticleFailureKind.ArticleFailureKind.

(** A classified failure. The message is for logs only and is left out, except
    for what it says of the providers' outcomes. *)
Record ArticleFailure := { kind : FailureKind; server_id : string }.

Definition decode_error (server_id : string) : ArticleFailure :=
  {| kind := ArticleFailureKind.DecodeError; server_id := server_id |}.
Definition not_found_anywhere (server_id : string) : ArticleFailure :=
  {| kind := ArticleFailureKind.NotFound; server_id := server_id |}.

(** ** Work items *)
Record WorkItem := {
  job_id : string;
  file_id : string;
  filename : str;
  message_id : str;
  segment_number : N;
  tried_servers : list string;
  provider_outcomes : gmap string FailureKind;
  tries_on_current : N;
  outage_tries : N;
  confirm_rounds : N;
}.

#[export] Instance WorkItem_eq_dec : EqDecision WorkItem.
Proof. solve_decision. Defined.

(** Index files first, then volumes, then data. [to_lowercase] maps no
    character outside ASCII to one of those searched for, so the ASCII mapping
    gives the same answer. *)
Definition par2_sort_key (filename : str) : nat :=
  let lower := to_ascii_lowercase filename in
  if ends_with (lit ".par2") lower then
    if contains (lit ".vol") lower then 1 else 0
  else 2.

(** [slice::sort_by_key], which is stable. *)
Fixpoint insert_by_key {A} (key : A → nat) (x : A) (l : list A) : list A :=
  match l with
  | [] => [x]
  | y :: l' => if decide (key x ≤ key y) then x :: y :: l' else y :: insert_by_key key x l'
  end.
Definition sort_by_key {A} (key : A → nat) (l : list A) : list A :=
  foldr (insert_by_key key) [] l.

(** ** The shared queue *)
Record QueueState := { items : list WorkItem; last_served : gmap string string }.

Definition empty_queue : QueueState := {| items := []; last_served := ∅ |}.

Definition submit_items (its : list WorkItem) (q : QueueState) : QueueState :=
  {| items := items q ++ sort_by_key (λ i, par2_sort_key (filename i)) its;
     last_served := last_served q |}.

Definition push_front (i : WorkItem) (q : QueueState) : QueueState :=
  {| items := i :: items q; last_served := last_served q |}.
Definition push_back (i : WorkItem) (q : QueueState) : QueueState :=
  {| items := items q ++ [i]; last_served := last_served q |}.

Definition is_eligible (server_id : string) (higher_priority_servers : list string)
    (i : WorkItem) : bool :=
  bool_decide (server_id ∉ tried_servers i) &&
  bool_decide (Forall (λ hp, hp ∈ tried_servers i) higher_priority_servers).

Definition workable_count_for (server_id : string) (hp : list string) (q : QueueState) : nat * nat :=
  (length (filter (λ i, is_eligible server_id hp i = true) (items q)), length (items q)).

(** [iter().position(pred)] *)
Definition position {A} (P : A → bool) (l : list A) : option nat :=
  fst <$> list_find (λ x, P x = true) l.

Definition pop_workable (server_id : string) (hp : list string) (q : QueueState) :
    option WorkItem * QueueState :=
  let eligible := is_eligible server_id hp in
  let other_job last i := eligible i && bool_decide (job_id i ≠ last) in
  let selected :=
    match last_served q !! server_id ≫= λ last, position (other_job last) (items q) with
    | Some index => Some index
    | None => position eligible (items q)
    end in
  match selected with
  | Some index =>
    match items q !! index with
    | Some i =>
      (Some i, {| items := delete index (items q);
                  last_served := <[server_id := job_id i]> (last_served q) |})
    | None => (None, q)
    end
  | None => (None, q)
  end.

Definition drain_job (jid : string) (q : QueueState) : list WorkItem * QueueState :=
  (filter (λ i, job_id i = jid) (items q),
   {| items := filter (λ i, job_id i ≠ jid) (items q); last_served := last_served q |}).

Definition take_where (P : WorkItem → bool) (q : QueueState) : list WorkItem * QueueState :=
  (filter (λ i, P i = true) (items q),
   {| items := filter (λ i, P i ≠ true) (items q); last_served := last_served q |}).

(** [requeue_all] pushes the items to the front one by one, in the order the
    hash map yields them. *)
Definition requeue_all (its : list WorkItem) (q : QueueState) : QueueState :=
  foldl (λ q i, push_front i q) q its.

(** ** Held recovery volumes *)
Definition REPAIR_MARGIN : N := 8.

Record HeldVolume := {
  held_file_id : string;
  first_exponent : N;
  blocks : N;
  held_items : list WorkItem;
}.

(** [has_queue]: whether [hold] has stored the queue to release to; it is the
    pool's one queue. *)
Record HeldVolumes := { held : list HeldVolume; released_blocks : N; has_queue : bool }.

Definition no_held : HeldVolumes := {| held := []; released_blocks := 0; has_queue := false |}.

(** One turn of the loop of [hold]: the item joins the entry of its file. *)
Fixpoint add_to_file (fid : string) (e b : N) (i : WorkItem) (vs : list HeldVolume) :
    list HeldVolume :=
  match vs with
  | [] => [{| held_file_id := fid; first_exponent := e; blocks := b; held_items := [i] |}]
  | v :: vs' =>
    if decide (held_file_id v = fid) then
      {| held_file_id := held_file_id v; first_exponent := first_exponent v; blocks := blocks v;
         held_items := held_items v ++ [i] |} :: vs'
    else v :: add_to_file fid e b i vs'
  end.

Fixpoint split_items (its : list WorkItem) (volumes : gmap string (N * N))
    (by_file : list HeldVolume) : list WorkItem * list HeldVolume :=
  match its with
  | [] => ([], by_file)
  | i :: its' =>
    match volumes !! file_id i with
    | Some (e, b) => split_items its' volumes (add_to_file (file_id i) e b i by_file)
    | None => let (now, vs) := split_items its' volumes by_file in (i :: now, vs)
    end
  end.

(** [into_values] is the order in which the hash map of [hold] yields its
    values. *)
Definition hold (into_values : list HeldVolume → list HeldVolume) (its : list WorkItem)
    (volumes : gmap string (N * N)) (h : HeldVolumes) : list WorkItem * HeldVolumes :=
  let (now, by_file) := split_items its volumes [] in
  (now, {| held := sort_by_key (λ v, N.to_nat (first_exponent v)) (into_values by_file);
           released_blocks := released_blocks h; has_queue := true |}).

(** The loop of [release_for]. *)
Fixpoint release_loop (need released : N) (vs : list HeldVolume) :
    list WorkItem * N * list HeldVolume :=
  match vs with
  | [] => ([], released, [])
  | v :: vs' =>
    if decide (released < need)%N then
      let '(its, r, rest) := release_loop need (released + blocks v) vs' in
      (held_items v ++ its, r, rest)
    else ([], released, vs)
  end.

Definition release_for (need : N) (h : HeldVolumes) : option (list WorkItem) * HeldVolumes :=
  let '(its, r, rest) := release_loop need (released_blocks h) (held h) in
  let h' := {| held := rest; released_blocks := r; has_queue := has_queue h |} in
  (match its with
   | [] => None
   | _ => if has_queue h then Some its else None
   end, h').

Definition release_all (h : HeldVolumes) : option (list WorkItem) * HeldVolumes :=
  release_for u64_max h.

Definition held_file_ids (h : HeldVolumes) : list string := held_file_id <$> held h.

Definition sum_blocks (vs : list HeldVolume) : N := foldr (λ v n, (blocks v + n)%N) 0%N vs.
Definition total_blocks (h : HeldVolumes) : N := (released_blocks h + sum_blocks (held h))%N.

(** ** Sorting by key *)
Lemma insert_by_key_Permutation {A} (key : A → nat) x l : insert_by_key key x l ≡ₚ x :: l.
Proof.
  induction l as [|y l IH]; simpl; [done|]. case_decide; [done|]. by rewrite IH, Permutation_swap.
Qed.
Lemma sort_by_key_Permutation {A} (key : A → nat) l : sort_by_key key l ≡ₚ l.
Proof.
  induction l as [|x l IH]; [done|]. unfold sort_by_key in *. simpl.
  by rewrite insert_by_key_Permutation, IH.
Qed.

(** ** The queue *)
Lemma is_eligible_spec sid hp i :
  is_eligible sid hp i = true ↔ ((sid ∉ tried_servers i) ∧ ∀ h, h ∈ hp → h ∈ tried_servers i).
Proof.
  unfold is_eligible. rewrite andb_true_iff, !bool_decide_eq_true, Forall_forall. done.
Qed.

Lemma position_Some {A} (P : A → bool) l n :
  position P l = Some n →
  ∃ x l1 l2, l = l1 ++ x :: l2 ∧ length l1 = n ∧ P x = true ∧ ∀ y, y ∈ l1 → P y = false.
Proof.
  unfold position. intros H. apply fmap_Some in H as ([m x] & Hf & Hn). simpl in Hn. subst m.
  apply list_find_Some in Hf as (Hx & HP & Hlt).
  exists x, (take n l), (drop (S n) l).
  split; [symmetry; by apply take_drop_middle|].
  split; [rewrite length_take; apply lookup_lt_Some in Hx; lia|]. split; [done|].
  intros y Hy. apply list_elem_of_lookup in Hy as [k Hk].
  apply lookup_take_Some in Hk as [Hk Hlt'].
  apply not_true_is_false. by eapply Hlt.
Qed.

Lemma position_None {A} (P : A → bool) l : position P l = None → ∀ x, x ∈ l → P x = false.
Proof.
  unfold position. intros H%fmap_None. apply list_find_None in H.
  rewrite Forall_forall in H. intros x Hx. apply not_true_is_false. auto.
Qed.

Lemma delete_middle_length {A} (l1 l2 : list A) x n :
  length l1 = n → delete n (l1 ++ x :: l2) = l1 ++ l2.
Proof. intros <-. apply delete_middle. Qed.

(** What a pop does, in one statement: the item taken is eligible; when it is
    of the job the server took last, no other job had an eligible item; and the
    eligible items passed over are of that job. *)
Definition popped (sid : string) (hp : list string) (q : QueueState)
    (r : option WorkItem) (q' : QueueState) : Prop :=
  match r with
  | None => q' = q ∧ ∀ j, j ∈ items q → is_eligible sid hp j = false
  | Some i => ∃ l1 l2, items q = l1 ++ i :: l2 ∧ items q' = l1 ++ l2 ∧
      is_eligible sid hp i = true ∧
      last_served q' = <[sid := job_id i]> (last_served q) ∧
      (∀ j, j ∈ items q → is_eligible sid hp j = true →
        last_served q !! sid = Some (job_id i) → job_id j = job_id i) ∧
      (∀ j, j ∈ l1 → is_eligible sid hp j = true →
        last_served q !! sid = Some (job_id j) ∧ job_id j ≠ job_id i)
  end.

Lemma pop_workable_spec sid hp q :
  popped sid hp q (pop_workable sid hp q).1 (pop_workable sid hp q).2.
Proof.
  unfold pop_workable. set (el := is_eligible sid hp).
  destruct (last_served q !! sid ≫= _) as [n|] eqn:Hp1.
  - apply bind_Some in Hp1 as (last & Hlast & Hp).
    apply position_Some in Hp as (i & l1 & l2 & Hq & Hn & Hi & Hl1).
    apply andb_true_iff in Hi as [Hel Hjob%bool_decide_eq_true].
    rewrite Hq, <-Hn, list_lookup_middle, delete_middle by done.
    exists l1, l2. rewrite Hlast. split_and!; try done; [congruence|].
    intros j Hj He. specialize (Hl1 j Hj). fold el in He. rewrite He in Hl1. simpl in Hl1.
    apply bool_decide_eq_false, dec_stable in Hl1. split; congruence.
  - destruct (position el (items q)) as [n|] eqn:Hp2; simpl.
    + apply position_Some in Hp2 as (i & l1 & l2 & Hq & Hn & Hel & Hl1).
      rewrite Hq, <-Hn, list_lookup_middle, delete_middle by done.
      exists l1, l2. split_and!; try done.
      * intros j Hj He Hlast. rewrite Hlast in Hp1. simpl in Hp1.
        pose proof (position_None _ _ Hp1 j Hj) as Hother. simpl in Hother.
        fold el in He. rewrite He in Hother.
        by apply bool_decide_eq_false, dec_stable in Hother.
      * intros j Hj He. fold el in He. by rewrite (Hl1 j Hj) in He.
    + split; [done|]. by apply position_None.
Qed.

(** A pop keeps the items, less the one popped. *)
Lemma pop_workable_Permutation sid hp q i q' :
  pop_workable sid hp q = (Some i, q') → items q ≡ₚ i :: items q'.
Proof.
  intros H. pose proof (pop_workable_spec sid hp q) as Hs. rewrite H in Hs.
  destruct Hs as (l1 & l2 & Hq & Hq' & _). simpl in *.
  by rewrite Hq, Hq', Permutation_middle.
Qed.
Lemma pop_workable_None sid hp q q' : pop_workable sid hp q = (None, q') → q' = q.
Proof.
  intros H. pose proof (pop_workable_spec sid hp q) as Hs. rewrite H in Hs. apply Hs.
Qed.

Lemma requeue_all_items its q : items (requeue_all its q) = reverse its ++ items q.
Proof.
  revert q. induction its as [|i its IH]; intros q; [done|].
  simpl. rewrite IH. simpl. by rewrite reverse_cons, <-app_assoc.
Qed.
Lemma submit_items_Permutation its q : items (submit_items its q) ≡ₚ items q ++ its.
Proof. simpl. by rewrite sort_by_key_Permutation. Qed.

(** ** Held volumes *)
Definition volume_items (vs : list HeldVolume) : list WorkItem := vs ≫= held_items.

Lemma sum_blocks_app vs1 vs2 : sum_blocks (vs1 ++ vs2) = (sum_blocks vs1 + sum_blocks vs2)%N.
Proof. induction vs1 as [|v vs IH]; simpl; [done|]. rewrite IH. lia. Qed.

#[export] Instance volume_items_proper : Proper ((≡ₚ) ==> (≡ₚ)) volume_items.
Proof. intros vs1 vs2 Hp. unfold volume_items. by rewrite Hp. Qed.

(** The loop releases a prefix, the shortest that reaches [need] if one does. *)
Lemma release_loop_spec need r vs its r' rest :
  release_loop need r vs = (its, r', rest) →
  ∃ pre, vs = pre ++ rest ∧ its = volume_items pre ∧ r' = (r + sum_blocks pre)%N ∧
    ((need ≤ r')%N ∨ rest = []) ∧
    ∀ pre' v, pre = pre' ++ [v] → (r + sum_blocks pre' < need)%N.
Proof.
  revert r its. induction vs as [|v vs IH]; intros r its; simpl.
  - intros [= <- <- <-]. exists []. simpl. split_and!; try done; [lia|by right|].
    intros [|??] ? [=].
  - case_decide as Hlt.
    + destruct (release_loop need (r + blocks v) vs) as [[its' r''] rest'] eqn:Hr.
      intros [= <- <- <-]. destruct (IH _ _ Hr) as (pre & -> & -> & -> & Hor & Hmin).
      exists (v :: pre). split_and!; try done; [simpl; lia|].
      intros [|w pre'] v' [= Hv Hpre]; [simpl; lia|]. subst. specialize (Hmin _ _ eq_refl).
      simpl. lia.
    + intros [= <- <- <-]. exists []. simpl. split_and!; try done; [lia|left; lia|].
      intros [|??] ? [=].
Qed.

Lemma release_for_spec need h r h' :
  release_for need h = (r, h') → has_queue h = true →
  ∃ pre, held h = pre ++ held h' ∧ default [] r = volume_items pre ∧
    released_blocks h' = (released_blocks h + sum_blocks pre)%N ∧
    has_queue h' = true ∧ total_blocks h' = total_blocks h ∧
    ((need ≤ released_blocks h')%N ∨ held h' = []) ∧
    ∀ pre' v, pre = pre' ++ [v] → (released_blocks h + sum_blocks pre' < need)%N.
Proof.
  unfold release_for, total_blocks.
  destruct (release_loop _ _ _) as [[its b] rest] eqn:Hr. intros Heq Hq.
  destruct (release_loop_spec _ _ _ _ _ _ Hr) as (pre & Hh & Hi & Hb & Hor & Hmin).
  rewrite Hq in Heq. simplify_eq/=. exists pre. rewrite Hh, sum_blocks_app.
  split_and!; try done; [by destruct (volume_items pre)|lia].
Qed.

Lemma add_to_file_items fid e b i vs :
  volume_items (add_to_file fid e b i vs) ≡ₚ i :: volume_items vs.
Proof.
  induction vs as [|v vs IH]; [done|]. simpl. case_decide; simpl.
  - unfold volume_items. simpl. rewrite <-!app_assoc. simpl. by rewrite Permutation_middle.
  - change (held_items v ++ volume_items (add_to_file fid e b i vs)
      ≡ₚ i :: held_items v ++ volume_items vs). by rewrite IH, Permutation_middle.
Qed.

Lemma split_items_items its volumes vs now vs' :
  split_items its volumes vs = (now, vs') →
  now ++ volume_items vs' ≡ₚ its ++ volume_items vs.
Proof.
  revert vs now. induction its as [|i its IH]; intros vs now; simpl; [by intros [= <- <-]|].
  destruct (volumes !! file_id i) as [[e b]|].
  - intros H. rewrite (IH _ _ H), add_to_file_items. by rewrite <-Permutation_middle.
  - destruct (split_items its volumes vs) as [now' vs''] eqn:Hs. intros [= <- <-].
    simpl. by rewrite (IH _ _ Hs).
Qed.

Lemma hold_items into_values its volumes h now h' :
  (∀ l, into_values l ≡ₚ l) →
  hold into_values its volumes h = (now, h') →
  now ++ volume_items (held h') ≡ₚ its.
Proof.
  intros Hperm. unfold hold. destruct (split_items its volumes []) as [now' vs] eqn:Hs.
  intros [= <- <-]. simpl. rewrite sort_by_key_Permutation, Hperm.
  by rewrite (split_items_items _ _ _ _ _ Hs), app_nil_r.
Qed.

(** ** Properties *)

(** A pop takes an item the server may serve: one it has not tried and
    every higher-priority server has. It keeps the other items in their order,
    leaves the queue alone when no item is eligible, is first in first out
    within a job, and never serves the job the server took last while another
    job has an eligible item: a server that pops the same job twice in a row
    leaves no eligible item of another job behind. *)
Theorem pop_takes_fair_share sid hp q r q' :
  pop_workable sid hp q = (r, q') →
  popped sid hp q r q' ∧ items q ≡ₚ option_list r ++ items q' ∧
  ∀ i i' q'', r = Some i → pop_workable sid hp q' = (Some i', q'') → job_id i' = job_id i →
    ∀ j, j ∈ items q' → is_eligible sid hp j = true → job_id j = job_id i.
Proof.
  intros Hp. pose proof (pop_workable_spec sid hp q) as Hs. rewrite Hp in Hs.
  split; [done|]. split.
  - destruct r as [i|]; simpl; [by eapply pop_workable_Permutation|].
    by rewrite (pop_workable_None _ _ _ _ Hp).
  - intros i i' q'' -> Hp' Hjob j Hj He.
    pose proof (pop_workable_spec sid hp q') as Hs'. rewrite Hp' in Hs'. simpl in *.
    destruct Hs as (_ & _ & _ & _ & _ & Hl & _ & _).
    destruct Hs' as (_ & _ & _ & _ & _ & _ & Hfair & _).
    rewrite <-Hjob. apply Hfair; [done..|]. rewrite Hl, lookup_insert_eq. by rewrite Hjob.
Qed.

Definition ex_item (jid : string) (tried : list string) : WorkItem :=
  {| job_id := jid; file_id := "f"; filename := lit "a.rar"; message_id := lit "m";
     segment_number := 1; tried_servers := tried; provider_outcomes := ∅;
     tries_on_current := 0; outage_tries := 0; confirm_rounds := 0 |}.

Lemma pop_takes_fair_share_witness :
  let q := {| items := [ex_item "j1" ["main"]; ex_item "j1" []; ex_item "j2" ["main"]];
              last_served := {["backup" := "j1"]} |} in
  popped "backup" ["main"] q (Some (ex_item "j2" ["main"]))
    {| items := [ex_item "j1" ["main"]; ex_item "j1" []]; last_served := {["backup" := "j2"]} |}.
Proof.
  intros q. refine (proj1 (pop_takes_fair_share "backup" ["main"] q _ _ _)).
  vm_compute. reflexivity.
Defined.
