(* ===== verification/Placement.v ===== *)
(** * Placing a decoded article in its file

    Models the decode-and-write part of
    [crates/nzb-dispatch/src/download_engine.rs]: the offset check
    ([validated_write_offset]), the size record of each file, the bounds of an
    NZB that leaves segments out, and [decode_and_assemble], which calls the
    file assembler. The yEnc decoder is the crate [yenc-simd]: a parameter. The
    size record is always passed by the program ([pinned_file_sizes] is absent
    only in tests). Timings and log lines are left out; an error keeps its kind
    and not its text. *)
From S2P Require Import Prelude Str FileSystem Assembler Wire WorkQueue.

(** ** The decoder's result: the fields the program reads *)
Record YencDecodeResult := {
  yenc_name : option str;
  file_size : option N;
  part_begin : option N;
  part_end : option N;
  yenc_data : bytes;
}.

Inductive ArticleError :=
  | ArticleNotFound
  | ConnectionLost
  | ServerError (k : FailureKind)
  | ProviderUnavailable (k : FailureKind)
  | DecodeError
  | AssemblyError
  | IncompleteNzb
  | Cancelled.

Record ProcessResult := {
  decoded_bytes : N;
  write_offset : N;
  file_complete : bool;
  yenc_filename : option str;
}.

(** ** NZBs that leave segments out *)
Definition INCOMPLETE_NZB_MAX_SPREAD : N := 2.

Definition nzb_segment_gap (segment_numbers : list N) : option (N * N) :=
  let numbers := sort_dedup N.le (filter (λ n, n ≠ 0%N) segment_numbers) in
  let listed := (N.of_nat (length numbers) `mod` 2 ^ 32)%N in
  highest ← last numbers;
  if decide (highest ≠ listed) then Some (listed, highest) else None.

(** [saturating_mul] on [u32] and [u64]. *)
Definition u32_sat_mul (a b : N) : N := N.min (a * b) u32_max.
Definition u64_sat_mul (a b : N) : N := N.min (a * b) u64_max.

Definition incomplete_nzb_size_cap (listed highest_segment largest_segment_bytes : N) : N :=
  let counted := N.min highest_segment (u32_sat_mul listed INCOMPLETE_NZB_MAX_SPREAD) in
  let raw := u64_sat_mul counted largest_segment_bytes in
  u64_sat_add raw (raw / 10).

(** ** The write offset *)
Definition u64_checked_add (a b : N) : option N :=
  if decide (a + b ≤ u64_max)%N then Some (a + b)%N else None.

Definition check_bound (begin data_len size : N) (pend : option N) : result text unit :=
  if decide (size = 0)%N then Err (Fmt "declared file size is 0" [])
  else if decide (size ≤ begin)%N then
    Err (Fmt "=ypart begin {} is past the declared file size {}" [show_N begin; show_N size])
  else
    let too_long := Err (Fmt "part range begin={} len={} exceeds declared file size {}"
                          [show_N begin; show_N data_len; show_N size]) in
    match u64_checked_add begin data_len with
    | Some end_ =>
      if decide (end_ ≤ size)%N then
        match pend with
        | Some pe =>
          if decide (pe ≠ end_) then
            Err (Fmt "=ypart end {} does not match the decoded bytes ending at {}"
                   [show_N pe; show_N end_])
          else Ok tt
        | None => Ok tt
        end
      else too_long
    | None => too_long
    end.

Definition or_else {A} (o o' : option A) : option A :=
  match o with Some _ => o | None => o' end.

Definition validated_write_offset (segment_number : N) (decoded : YencDecodeResult)
    (data_len : N) (declared_bytes pinned_size : option N) : result text N :=
  bound ← match or_else declared_bytes pinned_size with
          | Some size => Ok (Some size)
          | None =>
            if decide (segment_number ≤ 1)%N then Ok None
            else Err (Fmt "no declared file size for multi-segment file (segment {})"
                        [show_N segment_number])
          end;
  begin ← match part_begin decoded with
          | Some b => Ok b
          | None =>
            if decide (segment_number ≤ 1)%N then Ok 0%N
            else Err (Fmt "no =ypart header on segment {} of a multi-part file"
                        [show_N segment_number])
          end;
  _ ← match bound with
      | Some size => check_bound begin data_len size (part_end decoded)
      | None => Ok tt
      end;
  Ok begin.

(** ** The sizes seen, per file: first, smallest, largest, logged *)
Abbreviation PinnedSizes := (gmap string (N * N * N * bool)).

Definition pin_size (sizes : PinnedSizes) (fid : string) (size : option N) :
    PinnedSizes * option N :=
  match size with
  | Some s =>
    match sizes !! fid with
    | Some (first, mn, mx, logged) =>
      let widened := bool_decide (s < mn)%N || bool_decide (mx < s)%N in
      (if widened || negb logged
       then <[fid := (first, N.min mn s, N.max mx s, logged || widened)]> sizes else sizes,
       Some first)
    | None => (<[fid := (s, s, s, false)]> sizes, Some s)
    end
  | None => (sizes, (λ r : N * N * N * bool, r.1.1.1) <$> sizes !! fid)
  end.

Section decode.
Context {FS : Type} `{FSI : FileSystem FS}.
Context (decode_yenc : bytes → option YencDecodeResult).

(** The write passed the cap of a file whose NZB has a gap. *)
Definition past_cap (declared : option N) (d : YencDecodeResult) (decoded_len : N) : bool :=
  match declared, part_begin d with
  | Some cap, Some begin =>
    bool_decide (cap ≤ begin)%N || bool_decide (cap < u64_sat_add begin decoded_len)%N
  | _, _ => false
  end.

Definition decode_and_assemble (fs : FS) (assembler : FileAssembler) (pinned : PinnedSizes)
    (i : WorkItem) (raw_data : bytes) :
    FS * FileAssembler * PinnedSizes * result ArticleError ProcessResult :=
  match decode_yenc raw_data with
  | None => (fs, assembler, pinned, Err DecodeError)
  | Some d =>
    let key := MkFileKey (WorkQueue.job_id i) (WorkQueue.file_id i) in
    let declared := declared_size assembler key in
    let '(pinned', pinned_size) := pin_size pinned (WorkQueue.file_id i) (file_size d) in
    let gap := segment_gap assembler key in
    let pinned_bound := match declared with Some _ => None | None => pinned_size end in
    let decoded_len := N.of_nat (length (yenc_data d)) in
    match validated_write_offset (segment_number i) d decoded_len declared pinned_bound with
    | Err _ =>
      let e := match gap with
               | Some _ => if past_cap declared d decoded_len then IncompleteNzb else DecodeError
               | None => DecodeError
               end in
      (fs, assembler, pinned', Err e)
    | Ok data_begin =>
      match assemble_article fs assembler key (segment_number i) data_begin (yenc_data d) with
      | (fs', a', Err _) => (fs', a', pinned', Err AssemblyError)
      | (fs', a', Ok complete) =>
        (fs', a', pinned', Ok {| decoded_bytes := decoded_len; write_offset := data_begin;
                                 file_complete := complete; yenc_filename := yenc_name d |})
      end
    end
  end.

(** The articles of a job decoded one after another, in the order the workers
    happen to take them. *)
Fixpoint decode_all (fs : FS) (a : FileAssembler) (pinned : PinnedSizes)
    (l : list (WorkItem * bytes)) :
    FS * FileAssembler * PinnedSizes * list (result ArticleError ProcessResult) :=
  match l with
  | [] => (fs, a, pinned, [])
  | (i, raw) :: l' =>
    let '(fs1, a1, p1, r) := decode_and_assemble fs a pinned i raw in
    let '(fs2, a2, p2, rs) := decode_all fs1 a1 p1 l' in
    (fs2, a2, p2, r :: rs)
  end.
End decode.

(** ** The bound of a file *)
Definition bound_of (s : FileState) (pinned : PinnedSizes) (fid : string) : option N :=
  or_else (Assembler.declared_bytes s) ((λ r : N * N * N * bool, r.1.1.1) <$> pinned !! fid).

Lemma check_bound_Ok begin len size pe :
  check_bound begin len size pe = Ok tt →
  (begin + len ≤ size)%N ∧ (begin < size)%N ∧ ∀ e, pe = Some e → e = (begin + len)%N.
Proof.
  unfold check_bound, u64_checked_add. intros H.
  repeat case_decide; simplify_eq/=; try done; repeat case_decide; simplify_eq/=; try done.
  destruct pe as [e|]; [|split_and!; [lia..|done]].
  case_decide; [done|]. split_and!; [lia..|]. intros ? [= <-]. lia.
Qed.

Lemma validated_write_offset_Ok n d len declared pinned off size :
  validated_write_offset n d len declared pinned = Ok off →
  or_else declared pinned = Some size →
  (off + len ≤ size)%N ∧ (off < size)%N ∧ off = default 0%N (part_begin d) ∧
  ∀ e, part_end d = Some e → e = (off + len)%N.
Proof.
  intros H Hb. unfold validated_write_offset in H. rewrite Hb in H.
  cbv [mbind result_bind] in H.
  destruct (part_begin d) as [b|]; [|case_decide; [|done]];
    destruct (check_bound _ _ _ _) as [[]|] eqn:Hc; simplify_eq/=;
    apply check_bound_Ok in Hc as (? & ? & ?); done.
Qed.

Definition first_pinned (sizes : PinnedSizes) (fid : string) : option N :=
  (λ r : N * N * N * bool, r.1.1.1) <$> sizes !! fid.

(** The first size recorded for a file stays, and is what the write is held to. *)
Lemma pin_size_first sizes fid size sizes' p :
  pin_size sizes fid size = (sizes', p) →
  p = first_pinned sizes' fid ∧
  ∀ fid', first_pinned sizes' fid' =
    if decide (fid' = fid) then or_else (first_pinned sizes fid) size else first_pinned sizes fid'.
Proof.
  unfold pin_size, first_pinned. intros Hp. destruct size as [s|].
  2: { simplify_eq. split; [done|]. intros fid'. case_decide; [subst|done]. by destruct (sizes' !! fid). }
  destruct (sizes !! fid) as [[[[f mn] mx] lg]|] eqn:Hf; injection Hp as <- <-; split.
  - destruct (_ || _); [by rewrite lookup_insert_eq|by rewrite Hf].
  - intros fid'. case_decide as E; [subst|]; destruct (_ || _);
      rewrite ?lookup_insert_eq, ?lookup_insert_ne, ?Hf by done; done.
  - by rewrite lookup_insert_eq.
  - intros fid'. case_decide as E; [subst; by rewrite lookup_insert_eq|by rewrite lookup_insert_ne].
Qed.

Lemma or_else_assoc {A} (a b c : option A) : or_else (or_else a b) c = or_else a (or_else b c).
Proof. by destruct a. Qed.

Lemma bound_of_pinned s sizes fid : bound_of s sizes fid = or_else (Assembler.declared_bytes s) (first_pinned sizes fid).
Proof. done. Qed.

Lemma validated_unbounded n d len off :
  validated_write_offset n d len None None = Ok off → (n ≤ 1)%N ∧ off = default 0%N (part_begin d).
Proof.
  unfold validated_write_offset. simpl. intros H. case_decide; [|done]. split; [done|].
  destruct (part_begin d); by simplify_eq/=.
Qed.

Section bounds.
Context {FS : Type} `{FSI : FileSystem FS} `{!FileSystemLaws FS}.
Context (decode_yenc : bytes → option YencDecodeResult).

(** A write that fails midway reaches no further than the whole write. *)
Definition partial_writes : Prop := ∀ (fs : FS) p off d fs' old,
  fs_write_at fs p off d = (fs', false) → fs_read fs p = Some old →
  ∃ f, fs_read fs' p = Some f ∧ length f ≤ max (length old) (N.to_nat off + length d).

(** A write changes at most one file, and one accepted article stays below
    its end. *)
Lemma assemble_article_grows fs a key n begin data fs' a' r out f :
  partial_writes →
  assemble_article fs a key n begin data = (fs', a', r) → fs_read fs out = Some f →
  (fs' = fs ∨ ∃ s, a !! key = Some s) ∧
  (∀ s, a !! key = Some s → output_path s ≠ out → fs_read fs' out = Some f) ∧
  ∃ f', fs_read fs' out = Some f' ∧
    length f' ≤ max (length f) (N.to_nat begin + length data).
Proof.
  intros Hpart Has Hf. unfold assemble_article in Has.
  destruct (a !! key) as [s|] eqn:Hs; simplify_eq.
  2: { split_and!; [by left|done|]. exists f. split; [done|lia]. }
  assert ((∃ ok, fs_write_at fs (output_path s) begin data = (fs', ok)) ∨ fs' = fs) as Hw.
  { repeat case_decide; simplify_eq; [by right..|]. case_match; simplify_eq; [by right|].
    destruct (fs_write_at _ _ _ _) as [fs1 ok] eqn:Hw. left. exists ok.
    destruct ok; [destruct (mark_written s n)|]; by simplify_eq. }
  destruct Hw as [[ok Hw]| ->].
  2: { split_and!; [by left|done|]. exists f. split; [done|lia]. }
  split; [right; by exists s|]. split.
  { intros ? [= <-] Hne. rewrite <-Hf. by eapply fs_write_at_other. }
  destruct (decide (output_path s = out)) as [<-|Hne].
  - destruct ok.
    + exists (splice f (N.to_nat begin) data). split; [by eapply fs_write_at_read|].
      rewrite length_splice. lia.
    + by eapply Hpart.
  - exists f. split; [|lia]. rewrite <-Hf. by eapply fs_write_at_other.
Qed.

Lemma assemble_article_shape fs a key n begin data fs' a' r k :
  assemble_article fs a key n begin data = (fs', a', r) →
  (∀ s, a !! k = Some s → ∃ s', a' !! k = Some s' ∧ same_shape s s') ∧
  (∀ s', a' !! k = Some s' → ∃ s, a !! k = Some s ∧ same_shape s s').
Proof.
  intros Has.
  assert (a' = a ∨ ∃ s, a !! key = Some s ∧ a' = <[key := (mark_written s n).1]> a) as Ha.
  { unfold assemble_article in Has. destruct (a !! key) as [s|]; simplify_eq; [|by left].
    repeat case_decide; simplify_eq; [by left..|]. case_match; simplify_eq; [by left|].
    destruct (fs_write_at _ _ _ _) as [fs1 []]; [|simplify_eq; by left].
    destruct (mark_written s n) eqn:Hm. simplify_eq. right. exists s. by rewrite Hm. }
  destruct Ha as [Ha|(s0 & Hs0 & Ha)]; subst a'; [by split; intros s Hs; exists s|].
  pose proof (mark_written_shape s0 n) as Hsh.
  destruct (decide (k = key)) as [Hk|Hne]; [subst k|].
  - rewrite lookup_insert_eq. split; intros s Hs; simplify_eq; eauto.
  - rewrite lookup_insert_ne by done. by split; intros s Hs; exists s.
Qed.

(** The size an article of a file names. *)
Definition named (key : FileKey) (i : WorkItem) (raw : bytes) : option N :=
  if decide (WorkQueue.file_id i = Assembler.file_id key) then d ← decode_yenc raw; file_size d else None.
(** The first size that is named. *)
Definition first_named (key : FileKey) (l : list (WorkItem * bytes)) : option N :=
  foldr (λ x b, or_else (named key x.1 x.2) b) None l.

(** What holds of the file [out] between two articles: [b] is its bound, once
    it has one. *)
Record placed (key : FileKey) (out : path) (b : option N) (M : nat)
    (fs : FS) (a : FileAssembler) (pinned : PinnedSizes) : Prop := {
  placed_state : ∃ s, a !! key = Some s ∧ output_path s = out ∧
    bound_of s pinned (Assembler.file_id key) = b;
  placed_unique k s : a !! k = Some s → output_path s = out → k = key;
  placed_file : ∃ f, fs_read fs out = Some f ∧ length f ≤ M;
}.

(** An article may lengthen the file to [M] at most. *)
Definition room (key : FileKey) (b : option N) (M : nat) (i : WorkItem) : Prop :=
  WorkQueue.file_id i = Assembler.file_id key →
  match b with Some B => N.to_nat B ≤ M | None => (1 < segment_number i)%N end.

(** What an accepted article of the file satisfies under its bound. *)
Definition accepted_in (key : FileKey) (b : option N) (i : WorkItem) (pr : ProcessResult) : Prop :=
  WorkQueue.file_id i = Assembler.file_id key →
  match b with Some B => (write_offset pr + decoded_bytes pr ≤ B)%N | None => (segment_number i ≤ 1)%N end.

Lemma decode_and_assemble_placed key out b M fs a pinned i raw fs' a' pinned' r :
  partial_writes →
  placed key out b M fs a pinned → WorkQueue.job_id i = Assembler.job_id key →
  decode_and_assemble decode_yenc fs a pinned i raw = (fs', a', pinned', r) →
  let b' := or_else b (named key i raw) in
  (room key b' M i → placed key out b' M fs' a' pinned') ∧
  (∃ s', a' !! key = Some s' ∧ output_path s' = out ∧ bound_of s' pinned' (Assembler.file_id key) = b') ∧
  (∀ k s', a' !! k = Some s' → output_path s' = out → k = key) ∧
  (∃ f', fs_read fs' out = Some f') ∧
  ∀ pr, r = Ok pr → accepted_in key b' i pr.
Proof.
  intros Hpart [(s & Hs & Hout & <-) Huniq (f & Hf & Hlen)] Hjob Hd b'.
  unfold decode_and_assemble in Hd. unfold named in b'. destruct (decode_yenc raw) as [d|].
  2: { injection Hd as <- <- <- <-. assert (b' = bound_of s pinned (Assembler.file_id key)) as ->.
       { subst b'. case_decide; by destruct (bound_of _ _ _). }
       split_and!; [intros _; split; eauto|eauto|done|eauto|done]. }
  destruct (pin_size pinned (WorkQueue.file_id i) (file_size d)) as [p1 pinned_size] eqn:Hpin.
  destruct (pin_size_first _ _ _ _ _ Hpin) as [-> Hfirst].
  set (k := MkFileKey (WorkQueue.job_id i) (WorkQueue.file_id i)) in *.
  set (len := N.of_nat (length (yenc_data d))) in *.
  assert (bound_of s p1 (Assembler.file_id key) = b') as HB.
  { subst b'. rewrite !bound_of_pinned, Hfirst, or_else_assoc. f_equal.
    destruct (decide (WorkQueue.file_id i = Assembler.file_id key)) as [E|E].
    - rewrite decide_True by done. rewrite <- E. done.
    - rewrite decide_False by congruence. clear. unfold first_pinned. by destruct (_ <$> _). }
  assert (WorkQueue.file_id i = Assembler.file_id key ↔ k = key) as Hk.
  { unfold k. split; [intros Hfid; rewrite Hjob, Hfid; by destruct key|intros <-; done]. }
  clearbody b'. destruct (validated_write_offset _ _ _ _ _) as [off|] eqn:Hoff.
  2: { injection Hd as <- <- <- <-. split_and!; [intros _; split; eauto|eauto|done|eauto|done]. }
  assert (k = key → match b' with Some B => (off + len ≤ B)%N | None => (segment_number i ≤ 1)%N end) as Hfit.
  { intros Hkk. unfold declared_size in Hoff. rewrite Hkk, Hs in Hoff. cbn [mbind option_bind] in Hoff.
    rewrite (proj2 Hk Hkk) in Hoff. rewrite bound_of_pinned in HB.
    destruct b' as [B|].
    - destruct (validated_write_offset_Ok _ _ _ _ _ _ B Hoff) as (? & _); [|done].
      destruct (Assembler.declared_bytes s); done.
    - destruct (Assembler.declared_bytes s); [done|]. simpl in HB. rewrite HB in Hoff.
      by destruct (validated_unbounded _ _ _ _ Hoff). }
  destruct (assemble_article fs a k (segment_number i) off (yenc_data d))
    as [[fs1 a1] ra] eqn:Has.
  destruct (assemble_article_grows _ _ _ _ _ _ _ _ _ _ _ Hpart Has Hf)
    as (Hchg & Hother & f' & Hf' & Hgrow).
  destruct (assemble_article_shape _ _ _ _ _ _ _ _ _ key Has) as [Hfw _].
  destruct (Hfw _ Hs) as (s' & Hs' & Hop & _ & _ & Hdecl & _).
  assert (fs' = fs1 ∧ a' = a1 ∧ pinned' = p1 ∧
    ∀ pr, r = Ok pr → write_offset pr = off ∧ decoded_bytes pr = len) as (-> & -> & -> & Hpr)
    by (destruct ra; simplify_eq; split_and!; try done; by intros ? [= <-]).
  assert (∃ s', a1 !! key = Some s' ∧ output_path s' = out ∧ bound_of s' p1 (Assembler.file_id key) = b') as Hst.
  { exists s'. split_and!; [done|congruence|]. unfold bound_of in *. by rewrite Hdecl. }
  assert (∀ k2 s2, a1 !! k2 = Some s2 → output_path s2 = out → k2 = key) as Hun.
  { intros k2 s2 Hk2 Hout2. destruct (assemble_article_shape _ _ _ _ _ _ _ _ _ k2 Has) as [_ Hbw].
    destruct (Hbw _ Hk2) as (s0 & Hs0 & Hop0 & _). eapply Huniq; [done|congruence]. }
  split_and!; [|done|done|by exists f'|].
  - intros Hroom. split; [done|done|]. destruct (decide (k = key)) as [Hkk|Hne].
    + exists f'. split; [done|]. specialize (Hfit Hkk). specialize (Hroom (proj2 Hk Hkk)). destruct b'; lia.
    + exists f. split; [|done]. destruct Hchg as [->|[s0 Hs0]]; [done|].
      apply (Hother s0); [done|]. intros Ho. by apply Hne, (Huniq _ s0).
  - intros pr Hr Hfid. destruct (Hpr pr Hr) as [-> ->]. by apply Hfit, Hk.
Qed.

(** A run of articles, the bound becoming known on the way. *)
Lemma decode_all_accepted key out l : ∀ b M fs a pinned fs' a' pinned' rs,
  partial_writes → placed key out b M fs a pinned →
  (∀ i raw, (i, raw) ∈ l → WorkQueue.job_id i = Assembler.job_id key) →
  decode_all decode_yenc fs a pinned l = (fs', a', pinned', rs) →
  ∀ n i raw pr, l !! n = Some (i, raw) → rs !! n = Some (Ok pr) →
    accepted_in key (or_else b (first_named key (take (S n) l))) i pr.
Proof.
  induction l as [|[i raw] l IH]; intros b M fs a pinned fs' a' pinned' rs Hpart Hpl Hjob Hrun; [done|].
  cbn [decode_all] in Hrun.
  destruct (decode_and_assemble _ _ _ _ _ _) as [[[fs1 a1] p1] r] eqn:Hd.
  destruct (decode_all _ _ _ _ _) as [[[fs2 a2] p2] rs2] eqn:Hrest. simplify_eq.
  edestruct decode_and_assemble_placed as (_ & Hst & Hun & [f' Hf'] & Hr); [done|exact Hpl| |exact Hd|].
  { eapply Hjob. by left. }
  intros [|n] i' raw' pr; cbn [lookup list_lookup take first_named foldr fst snd]; intros; simplify_eq.
  - specialize (Hr pr eq_refl). by destruct (named key i' raw').
  - rewrite <- or_else_assoc.
    eapply (IH _ (length f')); [done| |intros; eapply Hjob; by right|exact Hrest|done|done].
    split; [done|done|]. by exists f'.
Qed.

(** The file stays within [M] when every article has the room. *)
Lemma decode_all_length key out M l : ∀ b fs a pinned fs' a' pinned' rs,
  partial_writes → placed key out b M fs a pinned →
  (∀ i raw, (i, raw) ∈ l → WorkQueue.job_id i = Assembler.job_id key) →
  (∀ n i raw, l !! n = Some (i, raw) → room key (or_else b (first_named key (take (S n) l))) M i) →
  decode_all decode_yenc fs a pinned l = (fs', a', pinned', rs) →
  ∃ f, fs_read fs' out = Some f ∧ length f ≤ M.
Proof.
  induction l as [|[i raw] l IH]; intros b fs a pinned fs' a' pinned' rs Hpart Hpl Hjob Hroom Hrun;
    cbn [decode_all] in Hrun.
  { simplify_eq. by apply placed_file in Hpl. }
  destruct (decode_and_assemble _ _ _ _ _ _) as [[[fs1 a1] p1] r] eqn:Hd.
  destruct (decode_all _ _ _ _ _) as [[[fs2 a2] p2] rs2] eqn:Hrest. simplify_eq.
  edestruct decode_and_assemble_placed as (Hpl1 & _); [done|exact Hpl| |exact Hd|].
  { eapply Hjob. by left. }
  eapply (IH (or_else b (named key i raw))); [done| |intros; eapply Hjob; by right| |exact Hrest].
  - apply Hpl1. specialize (Hroom 0 i raw eq_refl). cbn [take first_named foldr fst snd] in Hroom.
    by destruct (named key i raw).
  - intros n i' raw' Hn. specialize (Hroom (S n) i' raw' Hn).
    cbn [take first_named foldr fst snd] in Hroom. by rewrite or_else_assoc.
Qed.

Lemma first_named_take key l : ∀ n B,
  first_named key (take n l) = Some B → first_named key l = Some B.
Proof.
  induction l as [|[i raw] l IH]; intros [|n] B; try done.
  cbn [take first_named foldr fst snd]. destruct (named key i raw); [done|]. apply IH.
Qed.
End bounds.

(** ** Properties *)


Module PlacementExample.
Definition key := MkFileKey "job" "file".
Definition item (n : N) : WorkItem :=
  {| WorkQueue.job_id := "job"; WorkQueue.file_id := "file"; filename := lit "a"; message_id := lit "m";
     segment_number := n; tried_servers := []; provider_outcomes := ∅;
     tries_on_current := 0; outage_tries := 0; confirm_rounds := 0 |}.
(** A decoder for which the first byte of the body is the part's offset and
    which claims the size [size] for the file. *)
Definition decoder (size : option N) (raw : bytes) : option YencDecodeResult :=
  match raw with
  | b :: d => Some {| yenc_name := None; file_size := size; part_begin := Some (Byte.to_N b);
                      part_end := None; yenc_data := d |}
  | [] => None
  end.
Definition start (declared : option N) : gmap path bytes * FileAssembler :=
  let '(fs, a, _) := register_file_with_segment_numbers (FS := gmap path bytes) ∅ Assembler.new key
    "/out" [1; 2]%N [] declared in (fs, a).
(** One part that fits, one that ends past the declared size. *)
Definition articles : list (WorkItem * bytes) :=
  [(item 2, [Byte.x02; Byte.x61; Byte.x62]); (item 1, [Byte.x03; Byte.x61; Byte.x62])].

(** A file system that takes every write and keeps nothing. *)
#[export] Instance null_fs : FileSystem unit := {
  fs_read _ _ := None; fs_write _ _ _ := (tt, true); fs_remove _ _ := tt;
  fs_open _ _ := (tt, true); fs_write_at _ _ _ _ := (tt, true);
}.
End PlacementExample.
Import (hints) PlacementExample.


(** Without any bound the offset of the first segment is not checked at all:
    an article that names no size places its bytes wherever it says, although
    the file has a second segment. *)
Example first_segment_unbounded :
  let a := (register_file_with_segment_numbers tt Assembler.new PlacementExample.key "/out"
    [1; 2]%N [] None).1.2 in
  (decode_and_assemble
    (λ _, Some {| yenc_name := None; file_size := None; part_begin := Some 1000000000000%N;
                  part_end := None; yenc_data := [Byte.x61] |})
    tt a ∅ (PlacementExample.item 1) []).2
  = Ok {| decoded_bytes := 1; write_offset := 1000000000000; file_complete := false;
          yenc_filename := None |}.
Proof. vm_compute. reflexivity. Qed.
