(* ===== verification/Engine.v ===== *)
(** * The download engine

    Models the job and failover part of
    [crates/nzb-dispatch/src/download_engine.rs]: the circuit breaker of each
    server, [JobContext], the answers of the workers and what they do to an
    article, and the operations of [WorkerPool] on jobs, as steps of a pool
    that any number of workers take in any order.

    Time is a number of milliseconds, read once per operation. The fetch and
    the decode of an article are the environment: a step takes their result as
    an argument (the pipelined and the serial loop differ only in the results
    they can see and in how they map them). The slice tracker is reached
    through the interface [JobSlices]. A progress channel is the list of the
    updates handed to it; [try_send] drops an update only when ten thousand
    wait, which is not modelled. Names on disk, clocks of a job, sockets,
    permits, the watchdog and log texts are left out. Job ids are used once. *)
From S2P Require Import Prelude Str Wire WorkQueue.
From S2P Require Placement.

(** ** Constants *)
Definition MAX_TRIES_PER_SERVER : N := 3.
Definition MAX_OUTAGE_TRIES_PER_SERVER : N := 10.
Definition CIRCUIT_BREAK_THRESHOLD : N := 3.
Definition AUTH_FAILURE_COOLDOWN : N := 120000.
Definition TRANSIENT_FAILURE_COOLDOWN : N := 30000.
Definition CONFIRM_ASKS_PER_SERVER : N := 2.

(** ** The slice tracker, as the engine uses it *)
Record SliceMapSummary := { damaged : N; unknown : N }.

Class JobSlices (SL : Type) := {
  damage_hint : SL → N;
  (** Decides the remaining slices, so it may change the tracker. *)
  summary : SL → option SliceMapSummary * SL;
  record_failure : SL → string → bool → SL;
  record_write : SL → string → N → N → bool → SL;
}.
Class JobSlicesLaws (SL : Type) `{JobSlices SL} := {
  summary_again sl : summary (summary sl).2 = summary sl;
}.

(** ** Servers and their health *)
Record ServerConfig := { server : string; priority : N; enabled : bool; optional : bool }.

Record ServerHealth := {
  consecutive_failures : N;
  disabled_until : option N;
  is_auth_failure : bool;
}.
Definition new_health : ServerHealth :=
  {| consecutive_failures := 0; disabled_until := None; is_auth_failure := false |}.

Definition is_available (now : N) (h : ServerHealth) : bool :=
  match disabled_until h with None => true | Some until => bool_decide (until ≤ now)%N end.

Definition health_failure (now : N) (is_auth : bool) (h : ServerHealth) : ServerHealth :=
  let n := u32_add (consecutive_failures h) 1 in
  {| consecutive_failures := n;
     disabled_until :=
       if is_auth || bool_decide (CIRCUIT_BREAK_THRESHOLD ≤ n)%N then
         Some (now + if is_auth then AUTH_FAILURE_COOLDOWN else TRANSIENT_FAILURE_COOLDOWN)%N
       else disabled_until h;
     is_auth_failure := is_auth |}.
Definition health_success (h : ServerHealth) : ServerHealth := new_health.

Abbreviation ServerHealthMap := (gmap string ServerHealth).

Definition unavailable (now : N) (health : ServerHealthMap) (id : string) : bool :=
  match health !! id with Some h => negb (is_available now h) | None => false end.

Definition note_failure (now : N) (is_auth : bool) (id : string) (health : ServerHealthMap) :
    ServerHealthMap :=
  <[id := health_failure now is_auth (default new_health (health !! id))]> health.

Definition higher_priority_servers (now : N) (servers : list ServerConfig)
    (health : ServerHealthMap) (my_priority : N) (my_server_id : string) : list string :=
  server <$> filter (λ s, unavailable now health (server s) = false)
    (filter (λ s, enabled s = true ∧ (priority s < my_priority)%N ∧ server s ≠ my_server_id) servers).

Definition provider_unavailable (now : N) (servers : list ServerConfig)
    (health : ServerHealthMap) : bool :=
  match filter (λ s, enabled s = true) servers with
  | [] => true
  | es => forallb (λ s, unavailable now health (server s)) es
  end.

Definition all_enabled_providers_definitive (now : N) (servers : list ServerConfig)
    (health : ServerHealthMap) (outcomes : gmap string FailureKind) : bool :=
  forallb (λ s, bool_decide (is_Some (outcomes !! server s)))
    (filter (λ s, ¬ (optional s = true ∧ unavailable now health (server s) = true))
      (filter (λ s, enabled s = true) servers)).

Definition counts_against_circuit_breaker (e : NntpError) : bool :=
  match e with
  | Connection _ | Io _ | Tls _ | Auth _ | AuthRequired _ | PermissionDenied _
  | ServiceUnavailable _ | Timeout _ => true
  | _ => false
  end.

(** ** Progress updates *)
Inductive Outcome := Present | Refused (server : string) | Transport (server : string).
#[export] Instance Outcome_eq_dec : EqDecision Outcome.
Proof. solve_decision. Defined.

Inductive ProgressUpdate :=
  | WaitingForProviders
  | ProvidersAvailable
  | ArticleComplete (file_id : string) (segment : N) (decoded_bytes : N) (file_complete : bool)
      (server : string)
  | ArticleFailed (file_id : string) (segment : N) (failure : ArticleFailure)
  | ArticleOutcome (file_id : string) (segment : N) (message_id : str) (outcome : Outcome)
  | JobFinished (success : bool) (articles_failed : N) (slice_map : option SliceMapSummary)
  | JobAborted (reason : str) (articles_failed : N).

(** ** The context of a job *)
Record JobContext (SL : Type) := {
  articles_remaining : N;
  articles_failed : N;
  paused : bool;
  cancelled : bool;
  abort_reason : option str;
  finished : bool;
  waiting_reported : bool;
  slices : SL;
  par2_volumes : gmap string (N * N);
  held_volumes : HeldVolumes;
  incomplete_nzb : bool;
  sent : list ProgressUpdate;
}.
Arguments articles_remaining {SL} _.
Arguments articles_failed {SL} _.
Arguments paused {SL} _.
Arguments cancelled {SL} _.
Arguments abort_reason {SL} _.
Arguments finished {SL} _.
Arguments waiting_reported {SL} _.
Arguments slices {SL} _.
Arguments par2_volumes {SL} _.
Arguments held_volumes {SL} _.
Arguments incomplete_nzb {SL} _.
Arguments sent {SL} _.

Section engine.
Context {SL : Type} `{JSL : JobSlices SL}.
Implicit Types (c : JobContext SL) (q : QueueState).

(** *** Field updates *)
Definition with_remaining (v : N) c : JobContext SL :=
  {| articles_remaining := v; articles_failed := articles_failed c; paused := paused c;
     cancelled := cancelled c; abort_reason := abort_reason c; finished := finished c;
     waiting_reported := waiting_reported c; slices := slices c; par2_volumes := par2_volumes c;
     held_volumes := held_volumes c; incomplete_nzb := incomplete_nzb c; sent := sent c |}.
Definition with_failed (v : N) c : JobContext SL :=
  {| articles_remaining := articles_remaining c; articles_failed := v; paused := paused c;
     cancelled := cancelled c; abort_reason := abort_reason c; finished := finished c;
     waiting_reported := waiting_reported c; slices := slices c; par2_volumes := par2_volumes c;
     held_volumes := held_volumes c; incomplete_nzb := incomplete_nzb c; sent := sent c |}.
Definition with_paused (v : bool) c : JobContext SL :=
  {| articles_remaining := articles_remaining c; articles_failed := articles_failed c;
     paused := v; cancelled := cancelled c; abort_reason := abort_reason c;
     finished := finished c; waiting_reported := waiting_reported c; slices := slices c;
     par2_volumes := par2_volumes c; held_volumes := held_volumes c;
     incomplete_nzb := incomplete_nzb c; sent := sent c |}.
Definition with_cancelled (v : bool) c : JobContext SL :=
  {| articles_remaining := articles_remaining c; articles_failed := articles_failed c;
     paused := paused c; cancelled := v; abort_reason := abort_reason c; finished := finished c;
     waiting_reported := waiting_reported c; slices := slices c; par2_volumes := par2_volumes c;
     held_volumes := held_volumes c; incomplete_nzb := incomplete_nzb c; sent := sent c |}.
Definition with_abort (v : option str) c : JobContext SL :=
  {| articles_remaining := articles_remaining c; articles_failed := articles_failed c;
     paused := paused c; cancelled := cancelled c; abort_reason := v; finished := finished c;
     waiting_reported := waiting_reported c; slices := slices c; par2_volumes := par2_volumes c;
     held_volumes := held_volumes c; incomplete_nzb := incomplete_nzb c; sent := sent c |}.
Definition with_finished (v : bool) c : JobContext SL :=
  {| articles_remaining := articles_remaining c; articles_failed := articles_failed c;
     paused := paused c; cancelled := cancelled c; abort_reason := abort_reason c; finished := v;
     waiting_reported := waiting_reported c; slices := slices c; par2_volumes := par2_volumes c;
     held_volumes := held_volumes c; incomplete_nzb := incomplete_nzb c; sent := sent c |}.
Definition with_waiting (v : bool) c : JobContext SL :=
  {| articles_remaining := articles_remaining c; articles_failed := articles_failed c;
     paused := paused c; cancelled := cancelled c; abort_reason := abort_reason c;
     finished := finished c; waiting_reported := v; slices := slices c;
     par2_volumes := par2_volumes c; held_volumes := held_volumes c;
     incomplete_nzb := incomplete_nzb c; sent := sent c |}.
Definition with_slices (v : SL) c : JobContext SL :=
  {| articles_remaining := articles_remaining c; articles_failed := articles_failed c;
     paused := paused c; cancelled := cancelled c; abort_reason := abort_reason c;
     finished := finished c; waiting_reported := waiting_reported c; slices := v;
     par2_volumes := par2_volumes c; held_volumes := held_volumes c;
     incomplete_nzb := incomplete_nzb c; sent := sent c |}.
Definition with_held (v : HeldVolumes) c : JobContext SL :=
  {| articles_remaining := articles_remaining c; articles_failed := articles_failed c;
     paused := paused c; cancelled := cancelled c; abort_reason := abort_reason c;
     finished := finished c; waiting_reported := waiting_reported c; slices := slices c;
     par2_volumes := par2_volumes c; held_volumes := v; incomplete_nzb := incomplete_nzb c;
     sent := sent c |}.
Definition with_sent (v : list ProgressUpdate) c : JobContext SL :=
  {| articles_remaining := articles_remaining c; articles_failed := articles_failed c;
     paused := paused c; cancelled := cancelled c; abort_reason := abort_reason c;
     finished := finished c; waiting_reported := waiting_reported c; slices := slices c;
     par2_volumes := par2_volumes c; held_volumes := held_volumes c;
     incomplete_nzb := incomplete_nzb c; sent := v |}.

Definition try_send_progress (u : ProgressUpdate) c : JobContext SL := with_sent (sent c ++ [u]) c.

(** [fetch_sub] on [usize] wraps. *)
Definition usize_sub (a b : N) : N := ((a + 2 ^ 64 - b) `mod` 2 ^ 64)%N.

Definition report_waiting_for_providers c : JobContext SL :=
  if waiting_reported c then c else try_send_progress WaitingForProviders (with_waiting true c).
Definition report_providers_available c : JobContext SL :=
  if waiting_reported c then try_send_progress ProvidersAvailable (with_waiting false c) else c.

(** *** The end of a job, and the recovery volumes it needs *)
Definition emit_terminal c : JobContext SL :=
  if finished c then c
  else
    let c := with_finished true c in
    match abort_reason c with
    | Some reason => try_send_progress (JobAborted reason (articles_failed c)) c
    | None =>
      let (slice_map, sl) := summary (slices c) in
      try_send_progress
        (JobFinished (bool_decide (articles_failed c = 0%N) && negb (incomplete_nzb c))
           (articles_failed c) slice_map)
        (with_slices sl c)
    end.

(** What the held volumes release: the released items if any, with the held
    volumes and the tracker after. *)
Definition decide_release (at_data_end : bool) c : option (list WorkItem) * HeldVolumes * SL :=
  if at_data_end then
    let (map, sl) := summary (slices c) in
    match map with
    | Some m =>
      let damage := (damaged m + unknown m)%N in
      if decide (damage = 0%N) then (None, held_volumes c, sl)
      else (release_for (damage + REPAIR_MARGIN) (held_volumes c), sl)
    | None => (release_all (held_volumes c), sl)
    end
  else
    let damage := damage_hint (slices c) in
    if decide (damage = 0%N) then (None, held_volumes c, slices c)
    else (release_for (damage + REPAIR_MARGIN) (held_volumes c), slices c).

Definition release_held (at_data_end : bool) c q : bool * JobContext SL * QueueState :=
  if bool_decide (held (held_volumes c) = []) || cancelled c || bool_decide (is_Some (abort_reason c))
  then (false, c, q)
  else
    let '(released, h, sl) := decide_release at_data_end c in
    let c := with_slices sl (with_held h c) in
    match released with
    | None => (false, c, q)
    | Some its =>
      (true, with_remaining (u64_add (articles_remaining c) (N.of_nat (length its))) c,
       submit_items its q)
    end.

Definition resolve_one c q : JobContext SL * QueueState :=
  let '(_, c, q) := release_held false c q in
  let prev := articles_remaining c in
  let c := with_remaining (usize_sub prev 1) c in
  if decide (prev ≠ 1%N) then (c, q)
  else
    let '(more, c, q) := release_held true c q in
    if more then (c, q) else (emit_terminal c, q).

(** *** What an answer does to an article

    The state a worker's handler changes: the job's context, the shared queue,
    and the items sleeping before a confirm round. [Env] is what it reads. *)
Record Env := { now : N; env_servers : list ServerConfig; env_health : ServerHealthMap }.
Record JobSt := { jctx : JobContext SL; jqueue : QueueState; jsleeping : list WorkItem }.

Definition on_ctx (f : JobContext SL → JobContext SL) (s : JobSt) : JobSt :=
  {| jctx := f (jctx s); jqueue := jqueue s; jsleeping := jsleeping s |}.
Definition on_queue (f : QueueState → QueueState) (s : JobSt) : JobSt :=
  {| jctx := jctx s; jqueue := f (jqueue s); jsleeping := jsleeping s |}.
Definition sleep (i : WorkItem) (s : JobSt) : JobSt :=
  {| jctx := jctx s; jqueue := jqueue s; jsleeping := i :: jsleeping s |}.
Definition resolve (s : JobSt) : JobSt :=
  let (c, q) := resolve_one (jctx s) (jqueue s) in
  {| jctx := c; jqueue := q; jsleeping := jsleeping s |}.

Definition send_outcome (i : WorkItem) (o : Outcome) (s : JobSt) : JobSt :=
  on_ctx (try_send_progress (ArticleOutcome (file_id i) (segment_number i) (message_id i) o)) s.

(** The article is failed for good: the update, the count and the resolution. *)
Definition send_failed (i : WorkItem) (f : ArticleFailure) (s : JobSt) : JobSt :=
  resolve (on_ctx (λ c, with_failed (u64_add (articles_failed c) 1) c)
    (on_ctx (try_send_progress (ArticleFailed (file_id i) (segment_number i) f)) s)).

Definition note_slices (i : WorkItem) (confirmed : bool) (s : JobSt) : JobSt :=
  on_ctx (λ c, with_slices (record_failure (slices c) (file_id i) confirmed) c) s.

Definition fail_incomplete_nzb_article (i : WorkItem) (server_id : string) (s : JobSt) : JobSt :=
  send_failed i (decode_error server_id) (note_slices i false (send_outcome i Present s)).

Definition all_not_found (outcomes : gmap string FailureKind) : bool :=
  bool_decide (map_Forall (λ _ k, k = ArticleFailureKind.NotFound) outcomes).

Definition fail_article_everywhere (i : WorkItem) (server_id : string) (s : JobSt) : JobSt :=
  let nf := all_not_found (provider_outcomes i) in
  send_failed i (if nf then not_found_anywhere server_id else decode_error server_id)
    (note_slices i nf s).

(** The item after server [server_id] has given outcome [k]. *)
Definition mark_tried (server_id : string) (k : FailureKind) (i : WorkItem) : WorkItem :=
  {| job_id := job_id i; file_id := file_id i; filename := filename i;
     message_id := message_id i; segment_number := segment_number i;
     tried_servers := if decide (server_id ∈ tried_servers i) then tried_servers i
                      else tried_servers i ++ [server_id];
     provider_outcomes := <[server_id := k]> (provider_outcomes i);
     tries_on_current := 0; outage_tries := 0; confirm_rounds := confirm_rounds i |}.

Definition start_confirm_round (i : WorkItem) : WorkItem :=
  {| job_id := job_id i; file_id := file_id i; filename := filename i;
     message_id := message_id i; segment_number := segment_number i;
     tried_servers := []; provider_outcomes := ∅;
     tries_on_current := tries_on_current i; outage_tries := outage_tries i;
     confirm_rounds := u32_add (confirm_rounds i) 1 |}.

Definition with_tries (t o : N) (i : WorkItem) : WorkItem :=
  {| job_id := job_id i; file_id := file_id i; filename := filename i;
     message_id := message_id i; segment_number := segment_number i;
     tried_servers := tried_servers i; provider_outcomes := provider_outcomes i;
     tries_on_current := t; outage_tries := o; confirm_rounds := confirm_rounds i |}.

Definition handle_article_not_available (e : Env) (server_id : string) (k : FailureKind)
    (i : WorkItem) (s : JobSt) : bool * JobSt :=
  let i := mark_tried server_id k i in
  let all_definitive := all_enabled_providers_definitive (now e) (env_servers e) (env_health e)
    (provider_outcomes i) in
  if all_definitive && all_not_found (provider_outcomes i) &&
     bool_decide (confirm_rounds i < CONFIRM_ASKS_PER_SERVER)%N
  then (false, sleep (start_confirm_round i) s)
  else if all_definitive then (true, fail_article_everywhere i server_id s)
  else (false, on_queue (push_front i) s).

Definition retry_or_fail_over (e : Env) (server_id : string) (k : FailureKind)
    (i : WorkItem) (s : JobSt) : bool * JobSt :=
  let i := with_tries (u32_add (tries_on_current i) 1) (outage_tries i) i in
  if decide (tries_on_current i < MAX_TRIES_PER_SERVER)%N then (false, on_queue (push_front i) s)
  else handle_article_not_available e server_id k i s.

(** A decoded and written article. *)
Definition complete_article (server_id : string) (i : WorkItem) (pr : Placement.ProcessResult)
    (s : JobSt) : JobSt :=
  resolve (on_ctx (try_send_progress (ArticleComplete (file_id i) (segment_number i)
      (Placement.decoded_bytes pr) (Placement.file_complete pr) server_id))
    (send_outcome i Present
      (on_ctx (λ c, with_slices (record_write (slices c) (file_id i) (Placement.write_offset pr)
         (Placement.decoded_bytes pr) (Placement.file_complete pr)) c) s))).

Definition assembly_failed (server_id : string) (i : WorkItem) (s : JobSt) : JobSt :=
  send_failed i (decode_error server_id) (note_slices i false (send_outcome i Present s)).

(** *** Reactions of a worker

    What a worker does with the result of a fetch: first something on the job,
    then, when the provider itself failed, the circuit breaker (with the flag
    [is_auth]), then the rest, which reads the health as it then is. *)
Record Reaction := {
  before : JobSt → JobSt;
  breaker : option bool;
  after : Env → JobSt → JobSt;
}.
Definition just (f : Env → JobSt → JobSt) : Reaction :=
  {| before := λ s, s; breaker := None; after := f |}.

Definition is_auth_kind (k : FailureKind) : bool :=
  bool_decide (k = ArticleFailureKind.AuthFailed ∨ k = ArticleFailureKind.PermissionDenied).

(** The serial worker; [None] is its stall timeout. *)
Definition serial_reaction (server_id : string) (i : WorkItem)
    (r : option (result Placement.ArticleError Placement.ProcessResult)) : Reaction :=
  let transport := send_outcome i (Transport server_id) in
  match r with
  | None => just (λ e s,
      (retry_or_fail_over e server_id ArticleFailureKind.Timeout i (transport s)).2)
  | Some (Ok pr) => just (λ _, complete_article server_id i pr)
  | Some (Err Placement.ArticleNotFound) => just (λ e s,
      (handle_article_not_available e server_id ArticleFailureKind.NotFound i
         (send_outcome i (Refused server_id) s)).2)
  | Some (Err Placement.ConnectionLost) => just (λ _ s, on_queue (push_front i) (transport s))
  | Some (Err (Placement.ProviderUnavailable k)) =>
    {| before := transport; breaker := Some (is_auth_kind k);
       after := λ _, on_queue (push_front i) |}
  | Some (Err (Placement.ServerError k)) => just (λ e s,
      (retry_or_fail_over e server_id k i (transport s)).2)
  | Some (Err Placement.DecodeError) => just (λ e s,
      (handle_article_not_available e server_id ArticleFailureKind.DecodeError i (transport s)).2)
  | Some (Err Placement.Cancelled) => just (λ _, resolve)
  | Some (Err Placement.IncompleteNzb) => just (λ _, fail_incomplete_nzb_article i server_id)
  | Some (Err Placement.AssemblyError) => just (λ _, assembly_failed server_id i)
  end.

(** [fetch_article_with_retry]: what the serial worker makes of the errors of
    the connection. *)
Definition article_error_of (e : NntpError) : Placement.ArticleError :=
  match e with
  | Wire.ArticleNotFound _ => Placement.ArticleNotFound
  | NoSuchGroup _ | NoArticleSelected _ => Placement.ArticleNotFound
  | Connection _ | Io _ => Placement.ConnectionLost
  | Tls _ => Placement.ConnectionLost
  | ServiceUnavailable _ => Placement.ProviderUnavailable ArticleFailureKind.ServerDown
  | AuthRequired _ | Auth _ => Placement.ProviderUnavailable ArticleFailureKind.AuthFailed
  | PermissionDenied _ => Placement.ProviderUnavailable ArticleFailureKind.PermissionDenied
  | _ => Placement.ServerError (ArticleFailureKind.kind_of_nntp e)
  end.

(** The last case of the pipelined worker: a failed request. *)
Definition pipelined_failure (server_id : string) (i : WorkItem) (err : NntpError) : Reaction :=
  let k := ArticleFailureKind.kind_of_nntp err in
  {| before := send_outcome i (Transport server_id);
     breaker := if counts_against_circuit_breaker err then Some (is_auth_kind k) else None;
     after := λ e s,
       if bool_decide (k = ArticleFailureKind.ServerDown ∨ k = ArticleFailureKind.AuthFailed ∨
            k = ArticleFailureKind.PermissionDenied)
       then on_queue (push_front i) s
       else if bool_decide (k = ArticleFailureKind.Timeout ∨ k = ArticleFailureKind.ConnectionClosed ∨
                 k = ArticleFailureKind.Other)
       then
         let i := with_tries (tries_on_current i) (u32_add (outage_tries i) 1) i in
         if decide (outage_tries i < MAX_OUTAGE_TRIES_PER_SERVER)%N
         then on_queue (push_front i) s
         else (retry_or_fail_over e server_id k i s).2
       else (retry_or_fail_over e server_id k i s).2 |}.

(** The pipelined worker: the answer to one request, by the pipeline or, for an
    article received, by the decoder. *)
Definition pipelined_reaction (server_id : string) (i : WorkItem)
    (r : result NntpError (result Placement.ArticleError Placement.ProcessResult)) : Reaction :=
  let transport := send_outcome i (Transport server_id) in
  match r with
  | Ok (Ok pr) => just (λ _, complete_article server_id i pr)
  | Ok (Err Placement.DecodeError) => just (λ e s,
      (handle_article_not_available e server_id ArticleFailureKind.DecodeError i (transport s)).2)
  | Ok (Err Placement.IncompleteNzb) => just (λ _, fail_incomplete_nzb_article i server_id)
  | Ok (Err Placement.AssemblyError) => just (λ _, assembly_failed server_id i)
  | Ok (Err _) => just (λ _ s, s)
  | Err (Wire.ArticleNotFound _ | NoSuchGroup _ | NoArticleSelected _) => just (λ e s,
      (handle_article_not_available e server_id ArticleFailureKind.NotFound i
         (send_outcome i (Refused server_id) s)).2)
  | Err (Connection _ | Io _) => just (λ _ s, on_queue (push_front i) (transport s))
  | Err err => pipelined_failure server_id i err
  end.

(** ** The pool *)
Record Pool := {
  work_queue : QueueState;
  sleeping : list WorkItem;             (** waiting for their confirm round *)
  contexts : gmap string (JobContext SL);
  registered : gset string;             (** the keys of [job_contexts] *)
  in_flight : list (nat * string * WorkItem);  (** worker, its server, item *)
  servers : list ServerConfig;
  server_health : ServerHealthMap;
  defer_par2_volumes : bool;
}.

Definition with_queue (q : QueueState) (p : Pool) : Pool :=
  {| work_queue := q; sleeping := sleeping p; contexts := contexts p; registered := registered p;
     in_flight := in_flight p; servers := servers p; server_health := server_health p;
     defer_par2_volumes := defer_par2_volumes p |}.
Definition with_in_flight (l : list (nat * string * WorkItem)) (p : Pool) : Pool :=
  {| work_queue := work_queue p; sleeping := sleeping p; contexts := contexts p;
     registered := registered p; in_flight := l; servers := servers p;
     server_health := server_health p; defer_par2_volumes := defer_par2_volumes p |}.
Definition with_sleeping (l : list WorkItem) (p : Pool) : Pool :=
  {| work_queue := work_queue p; sleeping := l; contexts := contexts p;
     registered := registered p; in_flight := in_flight p; servers := servers p;
     server_health := server_health p; defer_par2_volumes := defer_par2_volumes p |}.
Definition with_contexts (m : gmap string (JobContext SL)) (p : Pool) : Pool :=
  {| work_queue := work_queue p; sleeping := sleeping p; contexts := m;
     registered := registered p; in_flight := in_flight p; servers := servers p;
     server_health := server_health p; defer_par2_volumes := defer_par2_volumes p |}.
Definition with_registered (r : gset string) (p : Pool) : Pool :=
  {| work_queue := work_queue p; sleeping := sleeping p; contexts := contexts p;
     registered := r; in_flight := in_flight p; servers := servers p;
     server_health := server_health p; defer_par2_volumes := defer_par2_volumes p |}.
Definition with_servers (ss : list ServerConfig) (h : ServerHealthMap) (p : Pool) : Pool :=
  {| work_queue := work_queue p; sleeping := sleeping p; contexts := contexts p;
     registered := registered p; in_flight := in_flight p; servers := ss; server_health := h;
     defer_par2_volumes := defer_par2_volumes p |}.

(** A handler run on one job. *)
Definition with_job (j : string) (f : JobSt → JobSt) (p : Pool) : Pool :=
  match contexts p !! j with
  | None => p
  | Some c =>
    let s := f {| jctx := c; jqueue := work_queue p; jsleeping := sleeping p |} in
    with_queue (jqueue s) (with_sleeping (jsleeping s)
      (with_contexts (<[j := jctx s]> (contexts p)) p))
  end.

(** The context found in [job_contexts]. *)
Definition lookup_job (p : Pool) (j : string) : option (JobContext SL) :=
  if decide (j ∈ registered p) then contexts p !! j else None.

Definition on_registered (f : JobContext SL → JobContext SL) (p : Pool) : Pool :=
  with_contexts (map_imap (λ j c, Some (if decide (j ∈ registered p) then f c else c)) (contexts p)) p.

Definition report_provider_outage (t : N) (p : Pool) : Pool :=
  if provider_unavailable t (servers p) (server_health p)
  then on_registered report_waiting_for_providers p else p.
Definition pool_report_providers_available (p : Pool) : Pool :=
  on_registered report_providers_available p.

Definition trip_breaker (t : N) (server_id : string) (b : option bool) (p : Pool) : Pool :=
  match b with
  | None => p
  | Some is_auth =>
    report_provider_outage t
      (with_servers (servers p) (note_failure t is_auth server_id (server_health p)) p)
  end.

Definition env_of (t : N) (p : Pool) : Env :=
  {| now := t; env_servers := servers p; env_health := server_health p |}.

Definition react (t : N) (server_id : string) (j : string) (rc : Reaction) (p : Pool) : Pool :=
  let p := trip_breaker t server_id (breaker rc) (with_job j (before rc) p) in
  with_job j (after rc (env_of t p)) p.

(** *** Submission *)
Record Article := {
  a_message_id : str;
  a_segment : N;
  a_downloaded : bool;
  a_tried : list string;
}.
Record NzbFile := {
  f_id : string;
  f_name : str;
  f_articles : list Article;
  f_par2_vol : option N;
  f_par2_blocks : option N;
}.

(** A failure is final only if every server enabled now was tried. *)
Definition is_previously_failed (enabled_server_ids : list string) (a : Article) : bool :=
  negb (a_downloaded a) && negb (bool_decide (enabled_server_ids = [])) &&
  forallb (λ sv, bool_decide (sv ∈ a_tried a)) enabled_server_ids.

Definition work_items (j : string) (files : list NzbFile) (enabled_server_ids : list string) :
    list WorkItem :=
  files ≫= λ f,
    (λ a, {| job_id := j; file_id := f_id f; filename := f_name f; message_id := a_message_id a;
             segment_number := a_segment a; tried_servers := a_tried a; provider_outcomes := ∅;
             tries_on_current := 0; outage_tries := 0; confirm_rounds := 0 |}) <$>
    filter (λ a, a_downloaded a = false ∧ is_previously_failed enabled_server_ids a = false)
      (f_articles f).

Definition previously_failed (files : list NzbFile) (enabled_server_ids : list string) : N :=
  N.of_nat (length (filter (λ a, is_previously_failed enabled_server_ids a = true)
    (files ≫= f_articles))).

(** [slice_tracker::is_par2_index] *)
Definition is_par2_index (name : str) : bool := bool_decide (par2_sort_key name = 0).

Fixpoint volumes_of (files : list NzbFile) (acc : gmap string (N * N)) : gmap string (N * N) :=
  match files with
  | [] => acc
  | f :: files' =>
    if decide (par2_sort_key (f_name f) ≠ 1) then volumes_of files' acc
    else match f_par2_vol f, f_par2_blocks f with
         | Some vol, Some blocks => volumes_of files' (<[f_id f := (vol, blocks)]> acc)
         | _, _ => ∅
         end
  end.
Definition deferrable_volumes (files : list NzbFile) : gmap string (N * N) :=
  if existsb (λ f, is_par2_index (f_name f)) files then volumes_of files ∅ else ∅.

Definition incomplete_nzb_reason (files : list NzbFile) : bool :=
  existsb (λ f, bool_decide (is_Some (Placement.nzb_segment_gap (a_segment <$> f_articles f)))) files.

Definition new_context (files : list NzbFile) (sl : SL) (total_articles : N) : JobContext SL :=
  {| articles_remaining := total_articles; articles_failed := 0; paused := false;
     cancelled := false; abort_reason := None; finished := false; waiting_reported := false;
     slices := sl; par2_volumes := deferrable_volumes files; held_volumes := no_held;
     incomplete_nzb := incomplete_nzb_reason files; sent := [] |}.

Definition build_job_submission (j : string) (files : list NzbFile) (sl : SL)
    (enabled_server_ids : list string) : JobContext SL * list WorkItem :=
  let its := work_items j files enabled_server_ids in
  (with_failed (previously_failed files enabled_server_ids)
     (new_context files sl (N.of_nat (length its))), its).

Definition submit_job (into_values : list HeldVolume → list HeldVolume) (t : N) (j : string)
    (c : JobContext SL) (its : list WorkItem) (p : Pool) : Pool :=
  match its with
  | [] => with_contexts (<[j := emit_terminal c]> (contexts p)) p
  | _ =>
    let p := with_registered ({[j]} ∪ registered p) p in
    let '(nowi, c) :=
      if defer_par2_volumes p && negb (bool_decide (par2_volumes c = ∅)) then
        let (nowi, h) := hold into_values its (par2_volumes c) (held_volumes c) in
        (nowi, with_remaining (usize_sub (articles_remaining c)
                 (N.of_nat (length its - length nowi))) (with_held h c))
      else (its, c) in
    match nowi with
    | [] =>
      let '(more, c, q) := release_held true c (work_queue p) in
      let c := if more : bool then c else emit_terminal c in
      with_queue q (with_contexts (<[j := c]> (contexts p)) p)
    | _ =>
      report_provider_outage t
        (with_queue (submit_items nowi (work_queue p))
           (with_contexts (<[j := c]> (contexts p)) p))
    end
  end.

(** *** Operations on a job *)
Definition release_completed_job (j : string) (p : Pool) : Pool :=
  with_registered (registered p ∖ {[j]}) p.

Definition pause_job (j : string) (p : Pool) : Pool :=
  match lookup_job p j with
  | Some c => with_contexts (<[j := with_paused true c]> (contexts p)) p
  | None => p
  end.
Definition resume_job (j : string) (p : Pool) : Pool :=
  match lookup_job p j with
  | Some c => with_contexts (<[j := with_paused false c]> (contexts p)) p
  | None => p
  end.

Definition abort_job (j : string) (reason : str) (p : Pool) : bool * Pool :=
  match lookup_job p j with
  | None => (false, p)
  | Some c =>
    match abort_reason c with
    | Some _ => (false, p)
    | None =>
      let c := with_cancelled true (with_abort (Some reason) c) in
      let (drained, q) := drain_job j (work_queue p) in
      let p := with_queue q (with_contexts (<[j := c]> (contexts p)) p) in
      (true,
       with_job j (λ s, on_ctx (λ c, if decide (articles_remaining c = 0%N) then emit_terminal c else c)
         (Nat.iter (length drained) resolve s)) p)
    end
  end.

Definition cancel_job (j : string) (p : Pool) : Pool :=
  match lookup_job p j with
  | None => p
  | Some c =>
    with_queue (drain_job j (work_queue p)).2
      (with_registered (registered p ∖ {[j]})
        (with_contexts (<[j := with_cancelled true c]> (contexts p)) p))
  end.

(** *** The workers *)

(** One turn of the loop of [next_work_item], or of the loop that fills the
    pipeline: the priority gate [hp] was computed earlier. *)
Definition take_turn (w : nat) (server_id : string) (hp : list string) (p : Pool) : Pool :=
  match pop_workable server_id hp (work_queue p) with
  | (None, _) => p
  | (Some i, q) =>
    let p := with_queue q p in
    match lookup_job p (job_id i) with
    | None => p
    | Some c =>
      if cancelled c then with_job (job_id i) resolve p
      else if paused c then with_queue (push_back i q) p
      else with_in_flight ((w, server_id, i) :: in_flight p) p
    end
  end.

(** The serial worker keeps its reference to the context; the pipelined one
    looks the job up again, and drops the answer when the job is gone. *)
Definition finish_serial (t : N) (server_id : string) (i : WorkItem)
    (r : option (result Placement.ArticleError Placement.ProcessResult)) (p : Pool) : Pool :=
  react t server_id (job_id i) (serial_reaction server_id i r) p.

Definition finish_pipelined (t : N) (server_id : string) (i : WorkItem)
    (r : result NntpError (result Placement.ArticleError Placement.ProcessResult)) (p : Pool) : Pool :=
  match lookup_job p (job_id i) with
  | None => p
  | Some c =>
    if cancelled c then with_job (job_id i) resolve p
    else react t server_id (job_id i) (pipelined_reaction server_id i r) p
  end.

(** A worker gives its items back; on a stalled connection each is first
    reported as unanswered. *)
Definition requeue_worker (w : nat) (its : list WorkItem) (p : Pool) : Pool :=
  with_queue (requeue_all its (work_queue p))
    (with_in_flight (filter (λ x, x.1.1 ≠ w) (in_flight p)) p).
Definition transport_sent (server_id : string) (p : Pool) (i : WorkItem) : Pool :=
  match lookup_job p (job_id i) with
  | None => p
  | Some _ => with_job (job_id i) (send_outcome i (Transport server_id)) p
  end.

(** *** The supervisor *)
Definition resolve_taken (p : Pool) (i : WorkItem) : Pool :=
  match lookup_job p (job_id i) with
  | None => p
  | Some c =>
    if cancelled c then with_job (job_id i) resolve p
    else with_job (job_id i)
           (fail_article_everywhere i (default "" (last (tried_servers i)))) p
  end.

Definition resolve_items_not_waiting_on_required_providers (t : N) (p : Pool) : Pool :=
  if existsb (λ s, enabled s && optional s && unavailable t (server_health p) (server s)) (servers p)
  then
    let (taken, q) := take_where (λ i, negb (bool_decide (provider_outcomes i = ∅)) &&
      all_enabled_providers_definitive t (servers p) (server_health p) (provider_outcomes i))
      (work_queue p) in
    foldl resolve_taken (with_queue q p) taken
  else p.

(** *** The steps *)
Definition decoder_error (e : Placement.ArticleError) : Prop :=
  e = Placement.DecodeError ∨ e = Placement.IncompleteNzb ∨ e = Placement.AssemblyError.

(** What the serial worker can get back. *)
Definition serial_result (r : option (result Placement.ArticleError Placement.ProcessResult)) :
    Prop :=
  match r with
  | Some (Err er) => er = Placement.Cancelled ∨ decoder_error er ∨ ∃ e, er = article_error_of e
  | _ => True
  end.

Inductive step : Pool → Pool → Prop :=
  | step_submit p into_values t j files sl ids :
      contexts p !! j = None → (∀ l, into_values l ≡ₚ l) →
      let sub := build_job_submission j files sl ids in
      (N.of_nat (length (files ≫= f_articles)) < 2 ^ 63)%N →
      step p (submit_job into_values t j sub.1 sub.2 p)
  | step_take p w server_id hp : step p (take_turn w server_id hp p)
  | step_serial p t n w server_id i r :
      in_flight p !! n = Some (w, server_id, i) →
      serial_result r →
      (r = Some (Err Placement.Cancelled) → ∃ c, contexts p !! job_id i = Some c ∧ cancelled c = true) →
      step p (finish_serial t server_id i r (with_in_flight (delete n (in_flight p)) p))
  | step_pipelined p t n w server_id i r :
      in_flight p !! n = Some (w, server_id, i) →
      (∀ e, r = Ok (Err e) → decoder_error e) →
      step p (finish_pipelined t server_id i r (with_in_flight (delete n (in_flight p)) p))
  | step_requeue p w its :
      its ≡ₚ (snd <$> filter (λ x, x.1.1 = w) (in_flight p)) →
      step p (requeue_worker w its p)
  | step_stalled p w server_id its :
      its ≡ₚ (snd <$> filter (λ x, x.1.1 = w) (in_flight p)) →
      step p (requeue_worker w its (foldl (transport_sent server_id) p its))
  | step_wake p n i :
      sleeping p !! n = Some i →
      step p (with_queue (push_front i (work_queue p)) (with_sleeping (delete n (sleeping p)) p))
  | step_abort p j reason : step p (abort_job j reason p).2
  | step_cancel p j : step p (cancel_job j p)
  | step_pause p j : step p (pause_job j p)
  | step_resume p j : step p (resume_job j p)
  | step_release p j :
      (∀ c, contexts p !! j = Some c → finished c = true) →
      step p (release_completed_job j p)
  | step_supervise p t : step p (resolve_items_not_waiting_on_required_providers t p)
  | step_connected p server_id :
      step p (pool_report_providers_available
        (with_servers (servers p) (<[server_id := health_success
           (default new_health (server_health p !! server_id))]> (server_health p)) p))
  | step_connect_failed p t server_id is_auth :
      step p (with_servers (servers p) (note_failure t is_auth server_id (server_health p)) p)
  | step_report_outage p t : step p (report_provider_outage t p)
  | step_update_servers p ss : step p (with_servers ss (server_health p) p).

Definition empty_pool (ss : list ServerConfig) (defer : bool) : Pool :=
  {| work_queue := empty_queue; sleeping := []; contexts := ∅; registered := ∅; in_flight := [];
     servers := ss; server_health := ∅; defer_par2_volumes := defer |}.
End engine.
Arguments Pool SL : clear implicits.
Arguments JobSt SL : clear implicits.
Arguments Reaction SL : clear implicits.

