(* ===== verification/Settle.v ===== *)
(** * Every article of a job is settled once

    The invariant of the pool of [Engine], kept by every step: each article of
    a job is settled, held, or in exactly one of the queue, the workers' hands
    and the articles asleep; the count of remaining articles is the count of
    the latter; the job ends when, and only when, none is left. *)
From S2P Require Import Prelude Str Wire WorkQueue Engine.
From S2P Require Placement.

(** ** What a job's context promises

    The invariant of the job [j] submitted with the items [its], of which
    [base] had failed before: [pl] are its items in the queue, in the workers'
    hands or sleeping, and [m] items are settled but not yet counted down. *)
Definition key (i : WorkItem) : string * N := (file_id i, segment_number i).

Definition settled_key (u : ProgressUpdate) : option (string * N) :=
  match u with
  | ArticleComplete f s _ _ _ | ArticleFailed f s _ => Some (f, s)
  | _ => None
  end.
Definition is_failed (u : ProgressUpdate) : bool :=
  match u with ArticleFailed _ _ _ => true | _ => false end.
Definition is_terminal (u : ProgressUpdate) : bool :=
  match u with JobFinished _ _ _ | JobAborted _ _ => true | _ => false end.
Definition count_of (P : ProgressUpdate → bool) (l : list ProgressUpdate) : nat :=
  length (filter (λ u, P u = true) l).

Section invariant.
Context {SL : Type} `{JSL : JobSlices SL} `{!JobSlicesLaws SL}.
Implicit Types (c : JobContext SL) (q : QueueState).

Definition held_items_of c : list WorkItem := volume_items (held (held_volumes c)).

(** The recovery volumes a finished job leaves unfetched are not needed. *)
Definition enough_recovery c : Prop :=
  match (summary (slices c)).1 with
  | Some d => (damaged d + unknown d = 0)%N ∨ held (held_volumes c) = [] ∨
              (damaged d + unknown d + REPAIR_MARGIN ≤ released_blocks (held_volumes c))%N
  | None => held (held_volumes c) = [] ∨ (u64_max ≤ released_blocks (held_volumes c))%N
  end.

Record job_ok (j : string) (its : list WorkItem) (base : N) c (pl : list WorkItem) (m : nat) :
    Prop := {
  jo_remaining : articles_remaining c = N.of_nat (length pl + m);
  jo_bound : length pl + m + length (held_items_of c) ≤ S (length its);
  jo_total : (base + N.of_nat (length its) < 2 ^ 63)%N;
  jo_held : Forall (λ i, job_id i = j) (held_items_of c);
  jo_queue : held (held_volumes c) ≠ [] → has_queue (held_volumes c) = true;
  jo_settled : cancelled c = false →
    key <$> its ≡ₚ omap settled_key (sent c) ++ (key <$> pl) ++ (key <$> held_items_of c);
  jo_finished : finished c = true ↔ pl = [] ∧ m = 0;
  jo_terminal : count_of is_terminal (sent c) = if finished c then 1 else 0;
  jo_failed : articles_failed c = (base + N.of_nat (count_of is_failed (sent c)))%N;
  jo_failed_bound : count_of is_failed (sent c) + length pl + length (held_items_of c) ≤ length its;
  jo_abort : is_Some (abort_reason c) → cancelled c = true;
  jo_enough : finished c = true → cancelled c = false → enough_recovery c;
  jo_verdict ok n sm : JobFinished ok n sm ∈ sent c →
    n = articles_failed c ∧ ok = bool_decide (n = 0%N) && negb (incomplete_nzb c) ∧
    sm = (summary (slices c)).1 ∧ finished c = true;
}.

#[export] Instance job_ok_proper j its base c : Proper ((≡ₚ) ==> (=) ==> iff) (job_ok j its base c).
Proof.
  intros pl1 pl2 Hpl m ? <-.
  assert (∀ pl1 pl2, pl1 ≡ₚ pl2 → job_ok j its base c pl1 m → job_ok j its base c pl2 m) as Himp.
  { clear. intros pl1 pl2 Hpl []. pose proof (Permutation_length Hpl) as Hlen.
    split; try done; rewrite <-?Hlen; try done.
    - intros Hc. by rewrite <-Hpl, jo_settled0.
    - rewrite jo_finished0. split; intros [Hp Hm]; split; try done; apply Permutation_nil_r;
        by rewrite <-Hp, Hpl. }
  split; by apply Himp.
Qed.

(** *** Sending updates *)
Lemma count_of_app P l1 l2 : count_of P (l1 ++ l2) = count_of P l1 + count_of P l2.
Proof. unfold count_of. by rewrite filter_app, length_app. Qed.
Lemma count_of_nil P : count_of P [] = 0.
Proof. done. Qed.
Lemma count_of_one P u : count_of P [u] = if P u then 1 else 0.
Proof. unfold count_of. simpl. rewrite filter_cons. by destruct (P u). Qed.

Lemma usize_sub_1 n : (0 < n)%N → (n < 2 ^ 64)%N → usize_sub n 1 = (n - 1)%N.
Proof.
  intros Hn Hlt. unfold usize_sub.
  replace (n + 2 ^ 64 - 1)%N with (n - 1 + 1 * 2 ^ 64)%N by lia.
  rewrite N.Div0.mod_add, N.mod_small; lia.
Qed.

Lemma sent_update j its base c pl m u :
  settled_key u = None → is_failed u = false → is_terminal u = false →
  job_ok j its base c pl m → job_ok j its base (try_send_progress u c) pl m.
Proof.
  intros Hs Hf Ht []. split; simpl; try done.
  - intros Hc. rewrite omap_app. simpl. rewrite Hs, app_nil_r. auto.
  - by rewrite count_of_app, count_of_one, Ht, Nat.add_0_r.
  - by rewrite count_of_app, count_of_one, Hf, Nat.add_0_r.
  - by rewrite count_of_app, count_of_one, Hf, Nat.add_0_r.
  - intros ok n sm Hin. apply elem_of_app in Hin as [Hin|Hin%list_elem_of_singleton]; [by eapply jo_verdict0|].
    by subst u.
Qed.

Lemma waiting_ok j its base c pl m b :
  job_ok j its base c pl m → job_ok j its base (with_waiting b c) pl m.
Proof. intros []. by split. Qed.
Lemma paused_ok j its base c pl m b :
  job_ok j its base c pl m → job_ok j its base (with_paused b c) pl m.
Proof. intros []. by split. Qed.
Lemma report_waiting_ok j its base c pl m :
  job_ok j its base c pl m → job_ok j its base (report_waiting_for_providers c) pl m.
Proof.
  intros H. unfold report_waiting_for_providers. destruct (waiting_reported c); [done|].
  by apply sent_update, waiting_ok.
Qed.
Lemma report_available_ok j its base c pl m :
  job_ok j its base c pl m → job_ok j its base (report_providers_available c) pl m.
Proof.
  intros H. unfold report_providers_available. destruct (waiting_reported c); [|done].
  by apply sent_update, waiting_ok.
Qed.

Lemma unfinished j its base c pl m :
  job_ok j its base c pl m → (pl ≠ [] ∨ m ≠ 0) → finished c = false.
Proof. intros [] Hne. apply not_true_is_false. rewrite jo_finished0. intros [-> ->]. naive_solver. Qed.

Lemma slices_ok j its base c pl m sl :
  job_ok j its base c pl m → (pl ≠ [] ∨ m ≠ 0) → job_ok j its base (with_slices sl c) pl m.
Proof.
  intros Hok Hne. pose proof (unfinished _ _ _ _ _ _ Hok Hne) as Hf. destruct Hok.
  split; simpl; try done; [by rewrite Hf|].
  intros ok n sm Hin. apply jo_verdict0 in Hin as (_ & _ & _ & Hin). congruence.
Qed.

(** *** Settling an item *)
Lemma settle_ok j its base c i pl m u :
  settled_key u = Some (key i) → is_failed u = false → is_terminal u = false →
  job_ok j its base c (i :: pl) m → job_ok j its base (try_send_progress u c) pl (S m).
Proof.
  intros Hs Hf Ht Hok.
  assert (finished c = false) as Hfin by (eapply unfinished; [done|by left]).
  destruct Hok. unfold held_items_of in *. simpl in *. split; unfold held_items_of; simpl; try done.
  - rewrite jo_remaining0. f_equal. lia.
  - lia.
  - intros Hc. rewrite omap_app. simpl. rewrite Hs. rewrite (jo_settled0 Hc).
    by rewrite <-!app_assoc.
  - rewrite Hfin. split; [done|]. by intros [_ [=]].
  - by rewrite count_of_app, count_of_one, Ht, Nat.add_0_r.
  - by rewrite count_of_app, count_of_one, Hf, Nat.add_0_r.
  - rewrite count_of_app, count_of_one, Hf. lia.
  - intros ok n sm Hin. apply elem_of_app in Hin as [Hin|Hin%list_elem_of_singleton]; [by eapply jo_verdict0|].
    by subst u.
Qed.

Lemma fail_ok j its base c i pl m f :
  job_ok j its base c (i :: pl) m →
  job_ok j its base
    (with_failed (u64_add (articles_failed c) 1)
       (try_send_progress (ArticleFailed (file_id i) (segment_number i) f) c)) pl (S m).
Proof.
  intros Hok.
  assert (finished c = false) as Hfin by (eapply unfinished; [done|by left]).
  destruct Hok. unfold held_items_of in *. simpl in *. split; unfold held_items_of; simpl; try done.
  - rewrite jo_remaining0. f_equal. lia.
  - lia.
  - intros Hc. rewrite omap_app. simpl. rewrite (jo_settled0 Hc).
    by rewrite <-!app_assoc.
  - rewrite Hfin. split; [done|]. by intros [_ [=]].
  - by rewrite count_of_app, count_of_one, Nat.add_0_r.
  - rewrite count_of_app, count_of_one, jo_failed0. simpl. rewrite u64_add_small; lia.
  - rewrite count_of_app, count_of_one. simpl. lia.
  - intros ok n sm Hin. apply elem_of_app in Hin as [Hin|Hin%list_elem_of_singleton]; [|done].
    apply jo_verdict0 in Hin as (_ & _ & _ & Hin). congruence.
Qed.

Lemma drop_ok j its base c i pl m :
  cancelled c = true → job_ok j its base c (i :: pl) m → job_ok j its base c pl (S m).
Proof.
  intros Hcan Hok.
  assert (finished c = false) as Hfin by (eapply unfinished; [done|by left]).
  destruct Hok. unfold held_items_of in *. simpl in *. split; unfold held_items_of; simpl; try done.
  - rewrite jo_remaining0. f_equal. lia.
  - lia.
  - intros Hc. congruence.
  - rewrite Hfin. split; [done|]. by intros [_ [=]].
  - lia.
Qed.

(** *** Releasing held volumes *)
Record release_facts (at_end : bool) c q (r : bool) c' q' (add : list WorkItem) : Prop := {
  rf_items : items q' ≡ₚ add ++ items q;
  rf_held : held_items_of c ≡ₚ add ++ held_items_of c';
  rf_remaining : articles_remaining c' = u64_add (articles_remaining c) (N.of_nat (length add)) ∨
                 (add = [] ∧ articles_remaining c' = articles_remaining c);
  rf_flag : r = true ↔ add ≠ [];
  rf_same : articles_failed c' = articles_failed c ∧ cancelled c' = cancelled c ∧
            abort_reason c' = abort_reason c ∧ finished c' = finished c ∧
            incomplete_nzb c' = incomplete_nzb c ∧ sent c' = sent c;
  rf_queue : held (held_volumes c') ≠ [] → has_queue (held_volumes c') = true;
  rf_cancelled : cancelled c = true → add = [] ∧ c' = c;
  rf_enough : at_end = true → r = false → cancelled c = false → abort_reason c = None →
    enough_recovery c';
}.

Lemma decide_release_spec at_end c r h sl :
  has_queue (held_volumes c) = true →
  decide_release at_end c = (r, h, sl) →
  (∃ pre, held (held_volumes c) = pre ++ held h ∧ default [] r = volume_items pre ∧
    r ≠ Some [] ∧ has_queue h = true) ∧
  (at_end = true → r = None → enough_recovery (with_slices sl (with_held h c))).
Proof.
  intros Hq. unfold decide_release, enough_recovery. simpl.
  assert (∀ need rr hh, release_for need (held_volumes c) = (rr, hh) →
    (∃ pre, held (held_volumes c) = pre ++ held hh ∧ default [] rr = volume_items pre ∧
      rr ≠ Some [] ∧ has_queue hh = true) ∧
    ((need ≤ released_blocks hh)%N ∨ held hh = [])) as Hrel.
  { intros need rr hh Hr.
    destruct (release_for_spec _ _ _ _ Hr Hq) as (pre & H1 & H2 & _ & H4 & _ & H6 & _).
    split; [|done]. exists pre. split_and!; try done. unfold release_for in Hr. intros ->.
    destruct (release_loop _ _ _) as [[its b] rest]. by destruct its, (has_queue _). }
  destruct at_end.
  - pose proof (summary_again (slices c)) as Hagain.
    destruct (summary (slices c)) as [[sm|] sl'] eqn:Hsum; simpl in *.
    + case_decide as Hd; simpl.
      * intros [= <- <- <-]. rewrite Hagain. simpl. split; [|by left]. by exists [].
      * destruct (release_for _ _) as [rr hh] eqn:Hr. intros [= <- <- <-].
        destruct (Hrel _ _ _ Hr) as [? ?]. split; [done|]. intros _ _. rewrite Hagain. simpl. tauto.
    + unfold release_all. destruct (release_for _ _) as [rr hh] eqn:Hr. intros [= <- <- <-].
      destruct (Hrel _ _ _ Hr) as [? ?]. split; [done|]. intros _ _. rewrite Hagain. simpl. tauto.
  - case_decide.
    + intros [= <- <- <-]. split; [|done]. by exists [].
    + destruct (release_for _ _) as [rr hh] eqn:Hr. intros [= <- <- <-].
      by destruct (Hrel _ _ _ Hr).
Qed.

Lemma release_held_facts at_end c q :
  (held (held_volumes c) ≠ [] → has_queue (held_volumes c) = true) →
  ∃ r c' q' add, release_held at_end c q = (r, c', q') ∧ release_facts at_end c q r c' q' add.
Proof.
  intros Hq. unfold release_held.
  destruct (bool_decide (held (held_volumes c) = [])) eqn:Hempty; simpl.
  { apply bool_decide_eq_true in Hempty. exists false, c, q, [].
    split; [done|]. split; try done; [by right|].
    intros _ _ _ _. unfold enough_recovery. case_match; auto. }
  apply bool_decide_eq_false in Hempty. specialize (Hq Hempty).
  destruct (cancelled c) eqn:Hcan; simpl.
  { exists false, c, q, []. split; [done|]. split; try done; [by right|congruence]. }
  case_bool_decide as Hab.
  { exists false, c, q, []. split; [done|]. split; try done; [by right|].
    intros _ _ _ Habn. destruct Hab as [x Hx]. congruence. }
  destruct (decide_release at_end c) as [[r h] sl] eqn:Hd.
  destruct (decide_release_spec _ _ _ _ _ Hq Hd) as [(pre & Hpre & Hits & Hne & Hq') Hen].
  assert (held_items_of c = volume_items pre ++ volume_items (held h)) as Hheld.
  { unfold held_items_of. rewrite Hpre. unfold volume_items. by rewrite bind_app. }
  destruct r as [its|]; simpl in *.
  - eexists true, _, _, its. split; [done|]. split; simpl; try done.
    + rewrite sort_by_key_Permutation. by rewrite Permutation_app_comm.
    + by rewrite Hheld, Hits.
    + by left.
    + split; [by intros _ ->|done].
    + by rewrite Hcan.
  - eexists false, _, _, []. split; [done|]. split; simpl; try done.
    + rewrite Hheld, <-Hits. done.
    + by right.
    + by rewrite Hcan.
    + intros -> _ _ _. by apply Hen.
Qed.

Lemma released_ok j its base b c q r c' q' add pl m :
  job_ok j its base c pl m → (pl ≠ [] ∨ m ≠ 0) →
  release_facts b c q r c' q' add →
  job_ok j its base c' (add ++ pl) m ∧ Forall (λ i, job_id i = j) add.
Proof.
  intros Hok Hne [Hit Hheld Hrem Hflag (Hf & Hc & Ha & Hfin & Hinc & Hs) Hq Hcan _].
  pose proof (unfinished _ _ _ _ _ _ Hok Hne) as Hnf. destruct Hok.
  pose proof (Permutation_length Hheld) as Hlen. rewrite length_app in Hlen.
  rewrite Hheld, Forall_app in jo_held0. destruct jo_held0 as [Hadd Hrest].
  split; [|done]. split; rewrite ?Hf, ?Hc, ?Ha, ?Hfin, ?Hinc, ?Hs, ?length_app; try done.
  - destruct Hrem as [Hrem|[-> Hrem]]; rewrite Hrem, jo_remaining0; [|done].
    rewrite u64_add_small; lia.
  - lia.
  - intros Hc0. rewrite (jo_settled0 Hc0), Hheld, !fmap_app.
    f_equiv. rewrite !(assoc_L (++)). f_equiv. apply Permutation_app_comm.
  - rewrite Hnf. split; [done|]. intros [[-> ->]%app_eq_nil ->]. naive_solver.
  - lia.
  - congruence.
  - intros ok n sm Hin. apply jo_verdict0 in Hin as (_ & _ & _ & Hin). congruence.
Qed.

(** The last item of a job is resolved: either held volumes go out, or the job
    is finished. *)
Lemma last_release_ok j its base c q r c' q' add :
  job_ok j its base c [] 1 →
  release_facts true (with_remaining 0 c) q r c' q' add →
  Forall (λ i, job_id i = j) add ∧
  job_ok j its base (if r then c' else emit_terminal c') add 0.
Proof.
  intros Hok [Hit Hheld Hrem Hflag (Hf & Hc & Ha & Hfin & Hinc & Hs) Hq Hcan Hen].
  assert (finished c = false) as Hnf by (eapply unfinished; [done|by right]). destruct Hok.
  unfold held_items_of in *. simpl in *.
  pose proof (Permutation_length Hheld) as Hlen. rewrite length_app in Hlen.
  rewrite Hheld, Forall_app in jo_held0. destruct jo_held0 as [Hadd Hrest].
  split; [done|]. rewrite Hnf in *. destruct r.
  - assert (add ≠ []) as Hne by (by apply Hflag).
    split; unfold held_items_of; rewrite ?Hf, ?Hc, ?Ha, ?Hfin, ?Hinc, ?Hs; try done.
    + destruct Hrem as [Hrem|[-> _]]; [|done]. rewrite Hrem, u64_add_small; lia.
    + lia.
    + intros Hc0. by rewrite (jo_settled0 Hc0), Hheld, fmap_app.
    + split; [done|]. by intros [-> _].
    + lia.
    + intros ok n sm Hin. by apply jo_verdict0 in Hin as (_ & _ & _ & Hin).
  - assert (add = []) as -> by (apply dec_stable; intros Hne; by apply Hflag in Hne).
    simpl in *. unfold emit_terminal. rewrite Hfin. simpl.
    assert (articles_remaining c' = 0%N) as Hr0.
    { destruct Hrem as [Hrem|[_ Hrem]]; rewrite Hrem; [|done]. by vm_compute. }
    assert (∀ u, settled_key u = None → is_failed u = false → is_terminal u = true →
      omap settled_key (sent c' ++ [u]) = omap settled_key (sent c) ∧
      count_of is_failed (sent c' ++ [u]) = count_of is_failed (sent c) ∧
      count_of is_terminal (sent c' ++ [u]) = 1) as Hu.
    { intros u H1 H2 H3. rewrite Hs, omap_app, !count_of_app, !count_of_one, H2, H3, jo_terminal0.
      simpl. rewrite H1, app_nil_r, Nat.add_0_r. done. }
    destruct (abort_reason c') as [reason|] eqn:Hab.
    + destruct (Hu (JobAborted reason (articles_failed c'))) as (Hu1 & Hu2 & Hu3); [done..|].
      split; unfold held_items_of; simpl; rewrite ?Hu1, ?Hu2, ?Hu3; try done; rewrite ?Hc, ?Hf; try done.
      * lia.
      * intros Hc0. by rewrite (jo_settled0 Hc0), Hheld.
      * lia.
      * intros _. apply jo_abort0. by rewrite <-Ha.
      * intros _ Hc0. rewrite jo_abort0 in Hc0; [done|]. by rewrite <-Ha.
      * intros ok n sm Hin. rewrite Hs in Hin.
        apply elem_of_app in Hin as [Hin|Hin%list_elem_of_singleton]; [|done].
        by apply jo_verdict0 in Hin as (_ & _ & _ & Hin).
    + destruct (summary (slices c')) as [sm sl] eqn:Hsum.
      pose proof (summary_again (slices c')) as Hagain. rewrite Hsum in Hagain. simpl in Hagain.
      match goal with |- context [JobFinished ?ok ?n sm] =>
        destruct (Hu (JobFinished ok n sm)) as (Hu1 & Hu2 & Hu3); [done..|] end.
      split; unfold held_items_of; simpl; rewrite ?Hu1, ?Hu2, ?Hu3; try done; rewrite ?Hc, ?Hf; try done.
      * lia.
      * intros Hc0. by rewrite (jo_settled0 Hc0), Hheld.
      * lia.
      * intros Habs. apply jo_abort0. congruence.
      * intros _ Hc0. unfold enough_recovery. simpl. rewrite Hagain.
        assert (enough_recovery c') as He by (apply Hen; congruence).
        unfold enough_recovery in He. by rewrite Hsum in He.
      * intros ok n sm' Hin. rewrite Hs in Hin.
        apply elem_of_app in Hin as [Hin|Hin%list_elem_of_singleton].
        -- by apply jo_verdict0 in Hin as (_ & _ & _ & Hin).
        -- simplify_eq. rewrite ?Hagain, ?Hf. done.
Qed.

Lemma resolve_one_ok j its base c q pl m :
  job_ok j its base c pl (S m) →
  ∃ c' q' add, resolve_one c q = (c', q') ∧ items q' ≡ₚ add ++ items q ∧
    Forall (λ i, job_id i = j) add ∧ job_ok j its base c' (add ++ pl) m.
Proof.
  intros Hok. unfold resolve_one.
  destruct (release_held_facts false c q (jo_queue _ _ _ _ _ _ Hok)) as (r1 & c1 & q1 & add1 & -> & Hr1).
  destruct (released_ok _ _ _ _ _ _ _ _ _ _ _ _ Hok ltac:(by right) Hr1) as [Hok1 Hadd1].
  pose proof (rf_items _ _ _ _ _ _ _ Hr1) as Hq1.
  assert (articles_remaining c1 = N.of_nat (length (add1 ++ pl) + S m)) as Hrem by apply Hok1.
  assert (N.of_nat (length (add1 ++ pl) + S m) < 2 ^ 64)%N as Hlt.
  { destruct Hok1. lia. }
  rewrite Hrem, usize_sub_1 by lia. case_decide as Hprev.
  - exists (with_remaining (N.of_nat (length (add1 ++ pl) + S m) - 1) c1), q1, add1.
    split_and!; try done.
    assert (finished c1 = false) as Hnf by (eapply unfinished; [exact Hok1|by right]).
    destruct Hok1. split; simpl; try done; [lia|unfold held_items_of in *; simpl; lia|].
    rewrite Hnf. split; [done|]. intros [Hnil ->]. rewrite Hnil in Hprev. simpl in Hprev. lia.
  - rename Hprev into Hone.
    assert (add1 = [] ∧ pl = [] ∧ m = 0) as (-> & -> & ->).
    { destruct (add1 ++ pl) eqn:Happ; [|simpl in Hone; lia]. apply app_eq_nil in Happ as [-> ->].
      simpl in Hone. split_and!; [done..|lia]. }
    simpl in *. replace (N.of_nat 1 - 1)%N with 0%N by lia.
    destruct (release_held_facts true (with_remaining 0 c1) q1) as (r2 & c2 & q2 & add2 & -> & Hr2).
    { apply Hok1. }
    destruct (last_release_ok _ _ _ _ _ _ _ _ _ Hok1 Hr2) as [Hadd2 Hok2].
    exists (if r2 then c2 else emit_terminal c2), q2, add2. rewrite app_nil_r.
    split_and!; [by destruct r2| |done|done].
    by rewrite (rf_items _ _ _ _ _ _ _ Hr2), Hq1.
Qed.

Lemma replace_ok j its base c i i' pl m :
  key i' = key i → job_ok j its base c (i :: pl) m → job_ok j its base c (i' :: pl) m.
Proof.
  intros Hk []. split; simpl in *; try done; [by rewrite Hk|].
  rewrite jo_finished0. split; by intros [? _].
Qed.

(** *** A context, of a job that counts or of one that was cancelled

    A job removed by [cancel_job] keeps a context that workers may still hold;
    nothing is promised of it but that it stays cancelled. *)
Definition ctx_inv (z : bool) (j : string) (its : list WorkItem) (base : N) c
    (pl : list WorkItem) (m : nat) : Prop :=
  if z then cancelled c = true else job_ok j its base c pl m.

Definition body (s : JobSt SL) : list WorkItem := items (jqueue s) ++ jsleeping s.

(** What a handler leaves behind: it adds items of its job to those in the
    queue or asleep, and the context is right for them. *)
Definition effect (z : bool) (j : string) (its : list WorkItem) (base : N)
    (s s' : JobSt SL) (pl : list WorkItem) (m : nat) : Prop :=
  ∃ add, body s' ≡ₚ add ++ body s ∧ Forall (λ i, job_id i = j) add ∧
    ctx_inv z j its base (jctx s') (add ++ pl) m.

Lemma ctx_inv_sent z j its base c pl m u :
  settled_key u = None → is_failed u = false → is_terminal u = false →
  ctx_inv z j its base c pl m → ctx_inv z j its base (try_send_progress u c) pl m.
Proof. destruct z; [done|]. apply sent_update. Qed.
Lemma ctx_inv_slices z j its base c i pl m sl :
  ctx_inv z j its base c (i :: pl) m → ctx_inv z j its base (with_slices sl c) (i :: pl) m.
Proof. destruct z; [done|]. intros H. apply slices_ok; [done|by left]. Qed.

Lemma outcome_inv z j its base i o s pl m :
  ctx_inv z j its base (jctx s) pl m → ctx_inv z j its base (jctx (send_outcome i o s)) pl m.
Proof. by apply ctx_inv_sent. Qed.
Lemma note_slices_inv z j its base i i' b s pl m :
  ctx_inv z j its base (jctx s) (i :: pl) m →
  ctx_inv z j its base (jctx (note_slices i' b s)) (i :: pl) m.
Proof. apply ctx_inv_slices. Qed.

Lemma push_effect z j its base i i' s pl m :
  ctx_inv z j its base (jctx s) (i :: pl) m → key i' = key i → job_id i' = j →
  effect z j its base s (on_queue (push_front i') s) pl m.
Proof.
  intros Hc Hk Hj. exists [i']. split_and!; [done|by constructor|].
  destruct z; [done|]. by eapply replace_ok.
Qed.
Lemma sleep_effect z j its base i i' s pl m :
  ctx_inv z j its base (jctx s) (i :: pl) m → key i' = key i → job_id i' = j →
  effect z j its base s (sleep i' s) pl m.
Proof.
  intros Hc Hk Hj. exists [i']. split_and!; [|by constructor|].
  - unfold body. simpl. by rewrite Permutation_middle.
  - destruct z; [done|]. by eapply replace_ok.
Qed.

Lemma resolve_effect z j its base s pl m :
  ctx_inv z j its base (jctx s) pl (S m) → effect z j its base s (resolve s) pl m.
Proof.
  unfold resolve, effect, body. destruct z; simpl.
  - intros Hc. exists []. unfold resolve_one.
    assert (∀ b c q, cancelled c = true → release_held b c q = (false, c, q)) as Hno.
    { intros b c q Hcan. unfold release_held. by rewrite Hcan, orb_true_r. }
    rewrite (Hno false) by done. case_decide; simpl; [done|].
    rewrite (Hno true) by done. simpl. split_and!; [done..|].
    unfold emit_terminal. repeat case_match; done.
  - intros Hok. destruct (resolve_one_ok _ _ _ _ (jqueue s) _ _ Hok) as (c' & q' & add & -> & Hq & Hadd & Hok').
    exists add. simpl. by rewrite Hq, app_assoc.
Qed.

Lemma effect_body z j its base s1 s2 s3 pl m :
  body s2 = body s1 → effect z j its base s2 s3 pl m → effect z j its base s1 s3 pl m.
Proof. unfold effect. by intros ->. Qed.

Lemma send_failed_effect z j its base i f s pl :
  ctx_inv z j its base (jctx s) (i :: pl) 0 → effect z j its base s (send_failed i f s) pl 0.
Proof.
  intros Hc. unfold send_failed. eapply effect_body; [|apply resolve_effect]; [done|].
  destruct z; [done|]. by apply (fail_ok _ _ _ (jctx s)).
Qed.

Lemma complete_effect z j its base sv i pr s pl :
  ctx_inv z j its base (jctx s) (i :: pl) 0 →
  effect z j its base s (complete_article sv i pr s) pl 0.
Proof.
  intros Hc. unfold complete_article. eapply effect_body; [|apply resolve_effect]; [done|].
  destruct z; [done|]. eapply settle_ok; [done..|].
  apply (outcome_inv false), (ctx_inv_slices false). done.
Qed.

Lemma incomplete_effect z j its base sv i s pl :
  ctx_inv z j its base (jctx s) (i :: pl) 0 →
  effect z j its base s (fail_incomplete_nzb_article i sv s) pl 0.
Proof.
  intros Hc. eapply effect_body; [|apply send_failed_effect]; [done|].
  by apply note_slices_inv, outcome_inv.
Qed.

Lemma fail_everywhere_effect z j its base i sv s pl :
  ctx_inv z j its base (jctx s) (i :: pl) 0 →
  effect z j its base s (fail_article_everywhere i sv s) pl 0.
Proof.
  intros Hc. eapply effect_body; [|apply send_failed_effect]; [done|].
  by apply note_slices_inv.
Qed.

Lemma not_available_effect z j its base e sv k i s pl :
  ctx_inv z j its base (jctx s) (i :: pl) 0 → job_id i = j →
  effect z j its base s (handle_article_not_available e sv k i s).2 pl 0.
Proof.
  intros Hc Hj. unfold handle_article_not_available.
  repeat case_match; simpl.
  - by eapply sleep_effect.
  - apply fail_everywhere_effect. destruct z; [done|]. by eapply replace_ok; [|exact Hc].
  - by eapply push_effect.
Qed.

Lemma retry_effect z j its base e sv k i s pl :
  ctx_inv z j its base (jctx s) (i :: pl) 0 → job_id i = j →
  effect z j its base s (retry_or_fail_over e sv k i s).2 pl 0.
Proof.
  intros Hc Hj. unfold retry_or_fail_over. case_decide; simpl.
  - by eapply push_effect.
  - apply not_available_effect; [|done]. destruct z; [done|]. by eapply replace_ok; [|exact Hc].
Qed.

(** *** Reactions *)
Lemma serial_before z j its base sv i r s pl :
  ctx_inv z j its base (jctx s) (i :: pl) 0 →
  ctx_inv z j its base (jctx (before (serial_reaction sv i r) s)) (i :: pl) 0.
Proof. intros Hc. destruct r as [[pr|[]]|]; try done; by apply outcome_inv. Qed.

Lemma serial_after z j its base sv i r e s pl :
  (r = Some (Err Placement.Cancelled) → cancelled (jctx s) = true) →
  ctx_inv z j its base (jctx s) (i :: pl) 0 → job_id i = j →
  effect z j its base s (after (serial_reaction sv i r) e s) pl 0.
Proof.
  intros Hcan Hc Hj. destruct r as [[pr|[]]|]; simpl.
  - by apply complete_effect.
  - eapply effect_body; [|apply not_available_effect]; [done|by apply outcome_inv|done].
  - eapply effect_body; [|eapply push_effect]; [done|by apply outcome_inv|done..].
  - eapply effect_body; [|apply retry_effect]; [done|by apply outcome_inv|done].
  - by eapply push_effect.
  - eapply effect_body; [|apply not_available_effect]; [done|by apply outcome_inv|done].
  - eapply effect_body; [|apply send_failed_effect]; [done|by apply note_slices_inv, outcome_inv].
  - by apply incomplete_effect.
  - apply resolve_effect. destruct z; [done|]. apply (drop_ok _ _ _ _ i); auto.
  - eapply effect_body; [|apply retry_effect]; [done|by apply outcome_inv|done].
Qed.

Lemma pipelined_before z j its base sv i r s pl :
  ctx_inv z j its base (jctx s) (i :: pl) 0 →
  ctx_inv z j its base (jctx (before (pipelined_reaction sv i r) s)) (i :: pl) 0.
Proof. intros Hc. destruct r as [[pr|[]]|[]]; try done; by apply outcome_inv. Qed.

Lemma pipelined_failure_after z j its base sv i err e s pl :
  ctx_inv z j its base (jctx s) (i :: pl) 0 → job_id i = j →
  effect z j its base s (after (pipelined_failure sv i err) e s) pl 0.
Proof.
  intros Hc Hj. unfold pipelined_failure. simpl.
  repeat case_bool_decide; try case_decide; first
    [by eapply push_effect|apply retry_effect; [|done]; destruct z; [done|];
     by first [exact Hc|eapply replace_ok; [|exact Hc]]].
Qed.

Lemma pipelined_after z j its base sv i r e s pl :
  (∀ er, r = Ok (Err er) → decoder_error er) →
  ctx_inv z j its base (jctx s) (i :: pl) 0 → job_id i = j →
  effect z j its base s (after (pipelined_reaction sv i r) e s) pl 0.
Proof.
  intros Hdec Hc Hj. destruct r as [[pr|er]|er].
  - simpl. by apply complete_effect.
  - destruct (Hdec er eq_refl) as [->|[->| ->]]; simpl.
    + eapply effect_body; [|apply not_available_effect]; [done|by apply outcome_inv|done].
    + by apply incomplete_effect.
    + eapply effect_body; [|apply send_failed_effect]; [done|by apply note_slices_inv, outcome_inv].
  - destruct er; cbn [pipelined_reaction];
      lazymatch goal with
      | |- context [pipelined_failure] => by apply pipelined_failure_after
      | |- context [push_front] =>
        simpl; eapply effect_body; [|eapply push_effect]; [done|by apply outcome_inv|done..]
      | |- _ => simpl; eapply effect_body; [|apply not_available_effect]; [done|by apply outcome_inv|done]
      end.
Qed.

(** ** The invariant of the pool

    [subs] are the jobs submitted; [l] are items that a step has taken out and
    not yet put anywhere. *)
Definition all_places (p : Pool SL) : list WorkItem :=
  items (work_queue p) ++ sleeping p ++ (snd <$> in_flight p).
Definition of_job (j : string) (l : list WorkItem) : list WorkItem :=
  filter (λ i, job_id i = j) l.

Definition pool_okx (subs : gmap string (list WorkItem * N)) (p : Pool SL) (l : list WorkItem) :
    Prop := ∀ j,
  match contexts p !! j with
  | None => of_job j (l ++ all_places p) = []
  | Some c => ∃ its base z, subs !! j = Some (its, base) ∧
      ctx_inv z j its base c (of_job j (l ++ all_places p)) 0 ∧
      (z = true → j ∉ registered p) ∧ (j ∉ registered p → z = true ∨ finished c = true)
  end.
Definition pool_ok subs p := pool_okx subs p [].

#[export] Instance of_job_proper j : Proper ((≡ₚ) ==> (≡ₚ)) (of_job j).
Proof. intros l1 l2 Hl. unfold of_job. by rewrite Hl. Qed.
Lemma of_job_app j l1 l2 : of_job j (l1 ++ l2) = of_job j l1 ++ of_job j l2.
Proof. apply filter_app. Qed.
Lemma of_job_all j l : Forall (λ i, job_id i = j) l → of_job j l = l.
Proof. intros H. apply list_filter_id. by apply Forall_forall. Qed.
Lemma of_job_other j j' l : Forall (λ i, job_id i = j) l → j' ≠ j → of_job j' l = [].
Proof.
  induction 1 as [|i l Hi Hl IH]; intros Hne; [done|]. unfold of_job in *.
  rewrite filter_cons_False by congruence. auto.
Qed.

#[export] Instance ctx_inv_proper z j its base c :
  Proper ((≡ₚ) ==> (=) ==> iff) (ctx_inv z j its base c).
Proof. intros l1 l2 Hl m ? <-. destruct z; [done|]. simpl. by rewrite Hl. Qed.

Lemma pool_okx_places subs p p' l l' :
  contexts p' = contexts p → registered p' = registered p →
  l' ++ all_places p' ≡ₚ l ++ all_places p → pool_okx subs p l → pool_okx subs p' l'.
Proof.
  intros Hc Hr Hp Hok j. specialize (Hok j). rewrite Hc, Hr.
  destruct (contexts p !! j) as [c|].
  - destruct Hok as (its & base & z & ? & Hinv & ?). exists its, base, z. by rewrite Hp.
  - apply Permutation_nil_r. by rewrite Hp, Hok.
Qed.

Lemma pool_okx_Some subs p i l : pool_okx subs p (i :: l) → is_Some (contexts p !! job_id i).
Proof.
  intros Hok. specialize (Hok (job_id i)). destruct (contexts p !! job_id i); [done|].
  unfold of_job in Hok. simpl in Hok. by rewrite filter_cons_True in Hok.
Qed.

Lemma of_job_cons j i l : job_id i = j → of_job j (i :: l) = i :: of_job j l.
Proof. intros Hi. unfold of_job. by rewrite filter_cons_True. Qed.

(** The job of an item that is out has a context; if it still counts, it is
    registered and not finished. *)
Lemma pool_okx_head subs p i l :
  pool_okx subs p (i :: l) →
  ∃ c its base z, contexts p !! job_id i = Some c ∧ subs !! job_id i = Some (its, base) ∧
    ctx_inv z (job_id i) its base c (i :: of_job (job_id i) (l ++ all_places p)) 0 ∧
    (z = true → job_id i ∉ registered p) ∧ (job_id i ∉ registered p → z = true).
Proof.
  intros Hok. destruct (pool_okx_Some _ _ _ _ Hok) as [c Hc].
  specialize (Hok (job_id i)). rewrite Hc in Hok.
  destruct Hok as (its & base & z & Hsub & Hinv & Hz & Hz').
  simpl in Hinv. rewrite of_job_cons in Hinv by done.
  exists c, its, base, z. split_and!; try done.
  intros Hr. destruct z; [done|]. destruct (Hz' Hr) as [|Hfin]; [done|].
  pose proof (unfinished _ _ _ _ _ _ Hinv ltac:(by left)). congruence.
Qed.

(** A handler of the job [j] that consumes the items [out]. *)
Lemma with_job_gen subs p j f out l :
  Forall (λ i, job_id i = j) out →
  (∀ c z its base pl, contexts p !! j = Some c →
    ctx_inv z j its base c (out ++ pl) 0 → (j ∉ registered p → z = true ∨ finished c = true) →
    let s := {| jctx := c; jqueue := work_queue p; jsleeping := sleeping p |} in
    effect z j its base s (f s) pl 0 ∧ (j ∉ registered p → z = true ∨ finished (jctx (f s)) = true)) →
  pool_okx subs p (out ++ l) → pool_okx subs (with_job j f p) l.
Proof.
  intros Hout Hf Hok. pose proof (Hok j) as Hokj. unfold with_job.
  destruct (contexts p !! j) as [c|] eqn:Hc.
  2: { rewrite <-app_assoc, of_job_app, (of_job_all _ _ Hout) in Hokj.
       by apply app_eq_nil in Hokj as [-> _]. }
  destruct Hokj as (its & base & z & Hsub & Hinv & Hz & Hz').
  rewrite <-app_assoc, of_job_app, (of_job_all _ _ Hout) in Hinv.
  destruct (Hf c z its base _ eq_refl Hinv Hz') as [(add & Hbody & Hadd & Hinv') Hfin].
  set (s' := f _) in *. unfold body in Hbody. simpl in Hbody.
  assert (∀ k, of_job k (l ++ items (jqueue s') ++ jsleeping s' ++ (snd <$> in_flight p)) ≡ₚ
    of_job k add ++ of_job k (l ++ all_places p)) as Hplaces.
  { intros k. unfold all_places. rewrite (assoc_L (++) (items (jqueue s'))), Hbody, <-of_job_app.
    f_equiv. rewrite <-!(assoc_L (++)). by rewrite Permutation_app_swap_app. }
  intros k. simpl. destruct (decide (k = j)) as [->|Hne].
  - rewrite lookup_insert_eq. exists its, base, z. split_and!; [done| |done|done].
    unfold all_places. simpl. rewrite Hplaces, (of_job_all _ add) by done. done.
  - rewrite lookup_insert_ne by done. specialize (Hok k).
    assert (of_job k (l ++ items (jqueue s') ++ jsleeping s' ++ (snd <$> in_flight p)) ≡ₚ
      of_job k ((out ++ l) ++ all_places p)) as Hk.
    { by rewrite Hplaces, <-app_assoc, (of_job_app _ out),
        (of_job_other j k add), (of_job_other j k out). }
    destruct (contexts p !! k) as [c'|].
    + destruct Hok as (its' & base' & z' & ? & Hinv2 & ? & ?). exists its', base', z'.
      split_and!; try done. unfold all_places. simpl. by rewrite Hk.
    + unfold all_places. simpl. apply Permutation_nil_r. by rewrite Hk, Hok.
Qed.

Lemma with_job_okx subs p f i l :
  (∀ c z its base q sl pl, contexts p !! job_id i = Some c →
    ctx_inv z (job_id i) its base c (i :: pl) 0 →
    effect z (job_id i) its base {| jctx := c; jqueue := q; jsleeping := sl |}
      (f {| jctx := c; jqueue := q; jsleeping := sl |}) pl 0) →
  pool_okx subs p (i :: l) → pool_okx subs (with_job (job_id i) f p) l.
Proof.
  intros Hf. apply (with_job_gen _ _ _ _ [i]); [by constructor|].
  intros c z its base pl Hc Hinv Hz' s. split; [by apply Hf|].
  intros Hr. destruct z; [by left|]. destruct (Hz' Hr) as [|Hfin]; [done|].
  pose proof (unfinished _ _ _ _ _ _ Hinv ltac:(by left)). congruence.
Qed.

(** A change of contexts alone. *)
Lemma contexts_okx subs p l g :
  (∀ j c z its base pl, contexts p !! j = Some c → ctx_inv z j its base c pl 0 →
    ctx_inv z j its base (g j c) pl 0 ∧ finished (g j c) = finished c) →
  pool_okx subs p l →
  pool_okx subs (with_contexts (map_imap (λ j c, Some (g j c)) (contexts p)) p) l.
Proof.
  intros Hg Hok j. specialize (Hok j). simpl. rewrite map_lookup_imap.
  destruct (contexts p !! j) as [c|] eqn:Hc; simpl; [|done].
  destruct Hok as (its & base & z & Hs & Hinv & Hz & Hz').
  destruct (Hg j c z its base _ Hc Hinv) as [Hinv' Hfin].
  exists its, base, z. rewrite Hfin. done.
Qed.

Lemma insert_as_imap {A} (m : gmap string A) j (f : A → A) (x : A) :
  m !! j = Some x →
  <[j := f x]> m = map_imap (λ j' x', Some (if decide (j' = j) then f x' else x')) m.
Proof.
  intros Hj. apply map_eq. intros k. rewrite map_lookup_imap.
  destruct (decide (k = j)) as [->|Hne].
  - by rewrite lookup_insert_eq, Hj.
  - rewrite lookup_insert_ne by done. by destruct (m !! k).
Qed.

Lemma ctx_update_okx subs p l j c f :
  contexts p !! j = Some c →
  (∀ z its base pl, ctx_inv z j its base c pl 0 →
    ctx_inv z j its base (f c) pl 0 ∧ finished (f c) = finished c) →
  pool_okx subs p l → pool_okx subs (with_contexts (<[j := f c]> (contexts p)) p) l.
Proof.
  intros Hj Hf Hok. rewrite (insert_as_imap _ _ f _ Hj). apply contexts_okx; [|done].
  intros j' c' z its base pl Hc' Hinv. case_decide; [|done]. subst. simplify_eq. eauto.
Qed.

Lemma report_outage_okx subs p l t :
  pool_okx subs p l → pool_okx subs (report_provider_outage t p) l.
Proof.
  intros Hok. unfold report_provider_outage. case_match; [|done].
  apply contexts_okx; [|done]. intros j c z its base pl _ Hinv. case_decide; [|done].
  unfold report_waiting_for_providers. split; [|by destruct (waiting_reported c)].
  destruct z; [simpl in *; by destruct (waiting_reported c)|]. by apply report_waiting_ok.
Qed.
Lemma report_available_okx subs p l :
  pool_okx subs p l → pool_okx subs (pool_report_providers_available p) l.
Proof.
  intros Hok. apply contexts_okx; [|done]. intros j c z its base pl _ Hinv. case_decide; [|done].
  unfold report_providers_available. split; [|by destruct (waiting_reported c)].
  destruct z; [simpl in *; by destruct (waiting_reported c)|]. by apply report_available_ok.
Qed.
Lemma trip_breaker_okx subs p l t sv b :
  pool_okx subs p l → pool_okx subs (trip_breaker t sv b p) l.
Proof.
  intros Hok. destruct b as [is_auth|]; [|done]. apply report_outage_okx.
  by eapply pool_okx_places; [..|exact Hok].
Qed.

(** *** The operations of the pool keep the invariant *)
Lemma send_outcome_okx subs p l j i o :
  pool_okx subs p l → pool_okx subs (with_job j (send_outcome i o) p) l.
Proof.
  intros Hok. unfold with_job. destruct (contexts p !! j) as [c|] eqn:Hc; [|done].
  eapply pool_okx_places; [..|eapply (ctx_update_okx subs p l j c
    (try_send_progress (ArticleOutcome (file_id i) (segment_number i) (message_id i) o)));
    [done| |exact Hok]]; [done..|].
  intros z its base pl Hinv. split; [by apply ctx_inv_sent|done].
Qed.

Lemma react_okx subs p t sv i rc l :
  (∀ s, before rc s = s ∨ ∃ o, before rc s = send_outcome i o s) →
  (∀ e s z its base pl, ctx_inv z (job_id i) its base (jctx s) (i :: pl) 0 →
    effect z (job_id i) its base s (after rc e s) pl 0) →
  pool_okx subs p (i :: l) → pool_okx subs (react t sv (job_id i) rc p) l.
Proof.
  intros Hb Ha Hok. unfold react. apply with_job_okx; [intros; by apply Ha|].
  apply trip_breaker_okx. unfold with_job.
  destruct (contexts p !! job_id i) as [c|] eqn:Hc; [|done].
  pose proof (send_outcome_okx subs p (i :: l) (job_id i) i) as Hsend. unfold with_job in Hsend.
  rewrite Hc in Hsend.
  destruct (Hb {| jctx := c; jqueue := work_queue p; jsleeping := sleeping p |}) as [->|[o ->]].
  - simpl. eapply pool_okx_places; [..|exact Hok]; try done. simpl. by rewrite insert_id.
  - by apply Hsend.
Qed.

Lemma resolve_dropped subs p i l :
  (∀ c, contexts p !! job_id i = Some c → cancelled c = true) →
  pool_okx subs p (i :: l) → pool_okx subs (with_job (job_id i) resolve p) l.
Proof.
  intros Hcan. apply with_job_okx. intros c z its base q sl pl Hc Hinv.
  apply resolve_effect. destruct z; [done|]. apply (drop_ok _ _ _ _ i); [by apply Hcan|done].
Qed.

Lemma drop_unregistered subs p i l :
  lookup_job p (job_id i) = None → pool_okx subs p (i :: l) → pool_okx subs p l.
Proof.
  intros Hl Hok. destruct (pool_okx_head _ _ _ _ Hok) as (c & its & base & z & Hc & Hsub & Hinv & Hz & Hz').
  unfold lookup_job in Hl. case_decide as Hr; [congruence|]. specialize (Hz' Hr). subst z.
  intros j. specialize (Hok j). destruct (decide (j = job_id i)) as [->|Hne].
  - rewrite Hc in *. exists its, base, true. split_and!; try done. by left.
  - unfold of_job in *. simpl in Hok. by rewrite filter_cons_False in Hok by congruence.
Qed.

Lemma lookup_job_Some (p : Pool SL) j c :
  lookup_job p j = Some c → j ∈ registered p ∧ contexts p !! j = Some c.
Proof. unfold lookup_job. case_decide; [done|]. done. Qed.

Lemma finish_serial_okx subs p t sv i r l :
  (r = Some (Err Placement.Cancelled) → ∃ c, contexts p !! job_id i = Some c ∧ cancelled c = true) →
  pool_okx subs p (i :: l) → pool_okx subs (finish_serial t sv i r p) l.
Proof.
  intros Hcan Hok. unfold finish_serial.
  assert (r = Some (Err Placement.Cancelled) ∨ r ≠ Some (Err Placement.Cancelled)) as [->|Hne]
    by (destruct r as [[pr|[]]|]; first [by right|by left]).
  - destruct (Hcan eq_refl) as (c & Hc & Hcc).
    change (pool_okx subs (with_job (job_id i) resolve (with_job (job_id i) (λ s, s) p)) l).
    assert (with_job (job_id i) (λ s, s) p = p) as ->.
    { unfold with_job. rewrite Hc. simpl. rewrite insert_id by done. by destruct p. }
    apply resolve_dropped; [|done]. intros c' Hc'. congruence.
  - apply react_okx; [| |done].
    + intros s. destruct r as [[pr|[]]|]; simpl; eauto.
    + intros e s z its base pl Hinv. by apply serial_after.
Qed.

Lemma finish_pipelined_okx subs p t sv i r l :
  (∀ e, r = Ok (Err e) → decoder_error e) →
  pool_okx subs p (i :: l) → pool_okx subs (finish_pipelined t sv i r p) l.
Proof.
  intros Hdec Hok. unfold finish_pipelined.
  destruct (lookup_job p (job_id i)) as [c|] eqn:Hl; [|by eapply drop_unregistered].
  apply lookup_job_Some in Hl as [_ Hc]. destruct (cancelled c) eqn:Hcan.
  - apply resolve_dropped; [|done]. intros c' Hc'. congruence.
  - apply react_okx; [| |done].
    + intros s. destruct r as [[pr|[]]|[]]; simpl; eauto.
    + intros e s z its base pl Hinv. by apply pipelined_after.
Qed.

Lemma take_turn_okx subs p w sv hp :
  pool_ok subs p → pool_ok subs (take_turn w sv hp p).
Proof.
  intros Hok. unfold take_turn.
  destruct (pop_workable sv hp (work_queue p)) as [[i|] q] eqn:Hpop; [|done].
  apply pop_workable_Permutation in Hpop.
  assert (pool_okx subs (with_queue q p) [i]) as Hok1.
  { eapply pool_okx_places; [..|exact Hok]; [done..|]. unfold all_places. simpl. by rewrite Hpop. }
  change (lookup_job (with_queue q p) (job_id i)) with (lookup_job p (job_id i)).
  destruct (lookup_job p (job_id i)) as [c|] eqn:Hl.
  - apply lookup_job_Some in Hl as [Hr Hc]. destruct (cancelled c) eqn:Hcan.
    { apply resolve_dropped; [|done]. simpl. intros c' Hc'. congruence. }
    destruct (paused c).
    + eapply pool_okx_places; [..|exact Hok]; [done..|]. unfold all_places. simpl.
      rewrite Hpop, <-app_assoc. simpl. by rewrite <-Permutation_middle.
    + eapply pool_okx_places; [..|exact Hok]; [done..|]. unfold all_places. simpl.
      rewrite Hpop. rewrite <-!Permutation_middle. done.
  - by eapply drop_unregistered.
Qed.

Lemma delete_Permutation {A} (l : list A) n x : l !! n = Some x → l ≡ₚ x :: delete n l.
Proof. intros Hn. rewrite <-(take_drop_middle l n x Hn) at 1. rewrite delete_take_drop. by rewrite Permutation_middle. Qed.

Lemma take_in_flight_okx subs p n w sv i :
  in_flight p !! n = Some (w, sv, i) → pool_ok subs p →
  pool_okx subs (with_in_flight (delete n (in_flight p)) p) [i].
Proof.
  intros Hn Hok. eapply pool_okx_places; [..|exact Hok]; [done..|].
  unfold all_places. simpl. apply (delete_Permutation _ _ _) in Hn.
  apply (fmap_Permutation snd) in Hn. simpl in Hn. rewrite Hn. by rewrite !Permutation_middle.
Qed.

Lemma requeue_okx subs p w its :
  its ≡ₚ (snd <$> filter (λ x, x.1.1 = w) (in_flight p)) →
  pool_ok subs p → pool_ok subs (requeue_worker w its p).
Proof.
  intros Hits Hok. eapply pool_okx_places; [..|exact Hok]; [done..|].
  unfold all_places. simpl. rewrite requeue_all_items, (reverse_Permutation its), Hits.
  assert (in_flight p ≡ₚ filter (λ x, x.1.1 = w) (in_flight p) ++ filter (λ x, x.1.1 ≠ w) (in_flight p)) as Hsplit.
  { clear. induction (in_flight p) as [|x l IH]; [done|]. rewrite !filter_cons.
    case_decide; [rewrite decide_False by tauto; simpl; by rewrite <-IH|].
    rewrite decide_True by done. by rewrite <-Permutation_middle, <-IH. }
  apply (fmap_Permutation snd) in Hsplit. rewrite fmap_app in Hsplit. rewrite Hsplit.
  set (a := snd <$> filter (λ x, x.1.1 = w) (in_flight p)).
  rewrite <-app_assoc. rewrite (Permutation_app_swap_app a (items _)).
  f_equiv. by rewrite Permutation_app_swap_app.
Qed.

Lemma supervise_okx subs p t : pool_ok subs p →
  pool_ok subs (resolve_items_not_waiting_on_required_providers t p).
Proof.
  intros Hok. unfold resolve_items_not_waiting_on_required_providers. case_match; [|done].
  unfold take_where.
  set (P := λ i, negb (bool_decide (provider_outcomes i = ∅)) &&
    all_enabled_providers_definitive t (servers p) (server_health p) (provider_outcomes i)).
  assert (pool_okx subs (with_queue
    {| items := filter (λ i, P i ≠ true) (items (work_queue p)); last_served := last_served (work_queue p) |} p)
    (filter (λ i, P i = true) (items (work_queue p)))) as Hok1.
  { eapply pool_okx_places; [..|exact Hok]; [done..|]. unfold all_places. simpl.
    rewrite (assoc_L (++)). f_equiv. clear. induction (items (work_queue p)) as [|x l IH]; [done|].
    rewrite !filter_cons. destruct (P x); simpl; [by rewrite IH|]. by rewrite <-Permutation_middle, IH. }
  change (pool_ok subs (foldl resolve_taken (with_queue
    {| items := filter (λ i, P i ≠ true) (items (work_queue p)); last_served := last_served (work_queue p) |} p)
    (filter (λ i, P i = true) (items (work_queue p))))).
  revert Hok1. generalize (filter (λ i, P i = true) (items (work_queue p))) as taken.
  generalize (with_queue {| items := filter (λ i, P i ≠ true) (items (work_queue p));
    last_served := last_served (work_queue p) |} p) as p1.
  intros p1 taken. revert p1. induction taken as [|i taken IH]; intros p1 Hok1; simpl; [done|].
  apply IH. unfold resolve_taken. destruct (lookup_job p1 (job_id i)) as [c|] eqn:Hl.
  - apply lookup_job_Some in Hl as [_ Hc]. destruct (cancelled c) eqn:Hcan.
    + apply resolve_dropped; [|done]. intros. congruence.
    + apply with_job_okx; [|done]. intros c' z its base q sl pl _ Hinv. by apply fail_everywhere_effect.
  - by eapply drop_unregistered.
Qed.

(** *** Ending and submitting a job *)
Lemma iter_resolve_effect z j its base n s pl m :
  ctx_inv z j its base (jctx s) pl (n + m) →
  effect z j its base s (Nat.iter n resolve s) pl m.
Proof.
  revert m. induction n as [|n IH]; intros m Hinv; [by exists []|].
  destruct (IH (S m)) as (add & Hb & Hadd & Hinv'); [by rewrite Nat.add_succ_r|].
  destruct (resolve_effect _ _ _ _ _ _ _ Hinv') as (add2 & Hb2 & Hadd2 & Hinv2).
  exists (add2 ++ add). change (Nat.iter (S n) resolve s) with (resolve (Nat.iter n resolve s)).
  rewrite Hb2, Hb, Forall_app, <-!app_assoc. done.
Qed.

Lemma drop_many j its base c l pl m :
  cancelled c = true → job_ok j its base c (l ++ pl) m → job_ok j its base c pl (length l + m).
Proof.
  intros Hc. revert m. induction l as [|i l IH]; intros m Hok; [done|].
  apply (drop_ok _ _ _ _ i) in Hok; [|done]. apply IH in Hok. simpl. by rewrite Nat.add_succ_r in Hok.
Qed.

Lemma abort_ok j its base c pl m reason :
  job_ok j its base c pl m →
  job_ok j its base (with_cancelled true (with_abort (Some reason) c)) pl m.
Proof. intros []. by split. Qed.

Lemma drain_split j q : items q ≡ₚ (drain_job j q).1 ++ items (drain_job j q).2.
Proof.
  simpl. induction (items q) as [|i l IH]; [done|]. rewrite !filter_cons.
  case_decide; [rewrite decide_False by tauto; simpl; by rewrite <-IH|].
  rewrite decide_True by done. by rewrite <-Permutation_middle, <-IH.
Qed.
Lemma drain_jobs j q : Forall (λ i, job_id i = j) (drain_job j q).1.
Proof. apply Forall_forall. intros i Hi. simpl in Hi. by apply list_elem_of_filter in Hi as [? _]. Qed.

Lemma abort_okx subs p j reason : pool_ok subs p → pool_ok subs (abort_job j reason p).2.
Proof.
  intros Hok. unfold abort_job. destruct (lookup_job p j) as [c|] eqn:Hl; [|done].
  apply lookup_job_Some in Hl as [Hr Hc]. destruct (abort_reason c) eqn:Hab; [done|].
  pose proof (drain_split j (work_queue p)) as Hsplit.
  pose proof (drain_jobs j (work_queue p)) as Hjobs.
  destruct (drain_job j (work_queue p)) as [drained q]. simpl in Hsplit, Hjobs |- *.
  apply (with_job_gen _ _ _ _ drained); [done| |].
  - intros c' z its base pl Hc' Hinv _ s. split; [|done]. simpl in Hc'.
    rewrite lookup_insert_eq in Hc'. simplify_eq.
    assert (ctx_inv z j its base (jctx s) pl (length drained + 0)) as Hinv0.
    { destruct z; [done|]. by apply drop_many. }
    destruct (iter_resolve_effect _ _ _ _ _ _ _ _ Hinv0) as (add & Hb & Hadd & Hinv').
    exists add. split_and!; [done|done|]. simpl. case_decide as Hrem; [|done].
    destruct z.
    + simpl in *. unfold emit_terminal. repeat case_match; done.
    + assert (finished (jctx (Nat.iter (length drained) resolve s)) = true) as Hfin.
      { destruct Hinv'. apply jo_finished0. split; [|done]. apply length_zero_iff_nil. lia. }
      unfold emit_terminal. by rewrite Hfin.
  - rewrite app_nil_r. eapply pool_okx_places;
      [..|eapply (ctx_update_okx subs p [] j c (λ c, with_cancelled true (with_abort (Some reason) c)));
       [done| |exact Hok]]; [done..| |].
    + rewrite app_nil_l. unfold all_places. simpl. by rewrite Hsplit, <-app_assoc.
    + intros z its base pl Hinv. split; [|done]. destruct z; [done|]. by apply abort_ok.
Qed.

Lemma cancel_okx subs p j : pool_ok subs p → pool_ok subs (cancel_job j p).
Proof.
  intros Hok. unfold cancel_job. destruct (lookup_job p j) as [c|] eqn:Hl; [|done].
  apply lookup_job_Some in Hl as [Hr Hc]. intros k. specialize (Hok k). simpl.
  destruct (decide (k = j)) as [->|Hne].
  - rewrite lookup_insert_eq, Hc in *. destruct Hok as (its & base & z & Hsub & _).
    exists its, base, true. split_and!; [done|done|set_solver|by left].
  - rewrite lookup_insert_ne by done.
    assert (of_job k ([] ++ all_places p) ≡ₚ of_job k (filter (λ i, job_id i ≠ j) (items (work_queue p)) ++
      sleeping p ++ (snd <$> in_flight p))) as Hk.
    { simpl. unfold all_places. rewrite !of_job_app. f_equiv. unfold of_job.
      rewrite list_filter_filter. erewrite list_filter_ext; [done|]. intros x _. naive_solver. }
    destruct (contexts p !! k) as [c'|].
    + destruct Hok as (its' & base' & z' & ? & Hinv2 & ? & ?). exists its', base', z'.
      unfold all_places. simpl. rewrite <-Hk. split_and!; try done; set_solver.
    + unfold all_places. simpl. apply Permutation_nil_r. by rewrite <-Hk, Hok.
Qed.

Lemma pause_okx subs p j b : pool_ok subs p →
  pool_ok subs (match lookup_job p j with
                | Some c => with_contexts (<[j := with_paused b c]> (contexts p)) p | None => p end).
Proof.
  intros Hok. destruct (lookup_job p j) as [c|] eqn:Hl; [|done].
  apply lookup_job_Some in Hl as [Hr Hc]. apply (ctx_update_okx _ _ _ _ _ (with_paused b)); [done| |done].
  intros z its base pl Hinv. split; [|done]. destruct z; [done|]. by apply paused_ok.
Qed.

Lemma release_okx subs p j :
  (∀ c, contexts p !! j = Some c → finished c = true) →
  pool_ok subs p → pool_ok subs (release_completed_job j p).
Proof.
  intros Hfin Hok k. specialize (Hok k). simpl. destruct (contexts p !! k) as [c|] eqn:Hc; [|done].
  destruct Hok as (its & base & z & ? & Hinv & Hz & Hz'). exists its, base, z.
  split_and!; [done|done|set_solver|]. intros Hk.
  destruct (decide (k = j)) as [->|Hne]; [right; by apply Hfin|]. apply Hz'. set_solver.
Qed.

(** A context before its first item is handed out. *)
Record fresh c (n : nat) (base : N) : Prop := {
  fr_remaining : articles_remaining c = N.of_nat n;
  fr_failed : articles_failed c = base;
  fr_flags : cancelled c = false ∧ abort_reason c = None ∧ finished c = false ∧ sent c = [];
}.

Lemma fresh_ok j its base c nowi :
  fresh c (length nowi) base → (base + N.of_nat (length its) < 2 ^ 63)%N →
  its ≡ₚ nowi ++ held_items_of c → Forall (λ i, job_id i = j) its →
  (held (held_volumes c) ≠ [] → has_queue (held_volumes c) = true) →
  nowi ≠ [] → job_ok j its base c nowi 0.
Proof.
  intros [Hrem Hf (Hc & Ha & Hfin & Hs)] Htot Hits Hjob Hq Hne.
  pose proof (Permutation_length Hits) as Hlen. rewrite length_app in Hlen.
  assert (Forall (λ i, job_id i = j) (held_items_of c)) as Hheld.
  { rewrite Hits, Forall_app in Hjob. tauto. }
  split; rewrite ?Hc, ?Ha, ?Hfin, ?Hs; try done.
  - by rewrite Nat.add_0_r.
  - lia.
  - intros _. by rewrite Hits, fmap_app.
  - split; [done|]. by intros [-> _].
  - rewrite Hf, count_of_nil. lia.
  - rewrite count_of_nil. lia.
  - intros ok n sm Hin. by apply not_elem_of_nil in Hin.
Qed.

(** A job whose items are all held, or that has none. *)
Lemma start_last_ok j its base c q r c' q' add :
  fresh c 0 base → (base + N.of_nat (length its) < 2 ^ 63)%N →
  its ≡ₚ held_items_of c → Forall (λ i, job_id i = j) its →
  (held (held_volumes c) ≠ [] → has_queue (held_volumes c) = true) →
  release_facts true c q r c' q' add →
  Forall (λ i, job_id i = j) add ∧ job_ok j its base (if r then c' else emit_terminal c') add 0.
Proof.
  intros [Hrem Hf (Hc & Ha & Hfin & Hs)] Htot Hits Hjob Hq Hfacts.
  pose proof (Permutation_length Hits) as Hlen.
  apply (last_release_ok j its base (with_remaining 1 c) q r c' q').
  - split; simpl; rewrite ?Hc, ?Ha, ?Hfin, ?Hs; try done.
    + unfold held_items_of in *. simpl. lia.
    + by rewrite <-Hits.
    + intros _. by rewrite Hits.
    + split; [done|]. by intros [_ ?].
    + rewrite Hf, count_of_nil. lia.
    + rewrite count_of_nil. unfold held_items_of in *. simpl. lia.
    + intros ok n sm Hin. by apply not_elem_of_nil in Hin.
  - assert (with_remaining 0 (with_remaining 1 c) = c) as ->; [|done].
    destruct c. simpl in *. by subst.
Qed.

Lemma new_job_okx subs p j its base c q' reg' add :
  contexts p !! j = None → pool_ok subs p → Forall (λ i, job_id i = j) add →
  items q' ≡ₚ add ++ items (work_queue p) → job_ok j its base c add 0 →
  reg' ∖ {[j]} = registered p ∖ {[j]} → (j ∉ reg' → finished c = true) →
  pool_ok (<[j := (its, base)]> subs)
    (with_queue q' (with_contexts (<[j := c]> (contexts p)) (with_registered reg' p))).
Proof.
  intros Hnone Hok Hadd Hq Hc Hreg Hfin k. specialize (Hok k).
  unfold all_places in *. simpl in *.
  assert (of_job k (items q' ++ sleeping p ++ (snd <$> in_flight p)) ≡ₚ
    of_job k add ++ of_job k (items (work_queue p) ++ sleeping p ++ (snd <$> in_flight p))) as Hk.
  { by rewrite Hq, <-app_assoc, of_job_app. }
  destruct (decide (k = j)) as [->|Hne].
  - rewrite lookup_insert_eq. rewrite Hnone in Hok. rewrite Hok, app_nil_r, (of_job_all _ add) in Hk by done.
    exists its, base, false. rewrite lookup_insert_eq. split_and!; [done| |done|].
    + simpl. by rewrite Hk.
    + intros Hr. right. by apply Hfin.
  - rewrite !lookup_insert_ne by done. rewrite (of_job_other j k add) in Hk by done. simpl in Hk.
    assert (k ∈ reg' ↔ k ∈ registered p) as Hr by set_solver.
    destruct (contexts p !! k) as [c'|].
    + destruct Hok as (its' & base' & z' & ? & Hinv & Hz & Hz'). exists its', base', z'.
      rewrite Hr, Hk. done.
    + apply Permutation_nil_r. by rewrite Hk, Hok.
Qed.

(** The second half of [submit_job]: [nowi] are the items not held. *)
Lemma submit_tail_okx subs p t j c its base nowi :
  contexts p !! j = None → fresh c (length nowi) base →
  (base + N.of_nat (length its) < 2 ^ 63)%N →
  its ≡ₚ nowi ++ held_items_of c → Forall (λ i, job_id i = j) its →
  (held (held_volumes c) ≠ [] → has_queue (held_volumes c) = true) →
  pool_ok subs p →
  pool_ok (<[j := (its, base)]> subs)
    (let p := with_registered ({[j]} ∪ registered p) p in
     match nowi with
     | [] =>
       let '(more, c, q) := release_held true c (work_queue p) in
       let c := if more : bool then c else emit_terminal c in
       with_queue q (with_contexts (<[j := c]> (contexts p)) p)
     | _ =>
       report_provider_outage t
         (with_queue (submit_items nowi (work_queue p))
            (with_contexts (<[j := c]> (contexts p)) p))
     end).
Proof.
  intros Hnone Hfr Htot Hits Hjob Hq Hok. simpl.
  assert (({[j]} ∪ registered p) ∖ {[j]} = registered p ∖ {[j]}) as Hreg by set_solver.
  destruct (decide (nowi = [])) as [->|Hne].
  - destruct (release_held_facts true c (work_queue p)) as (r & c' & q' & add & -> & Hf); [done|].
    destruct (start_last_ok j its base c (work_queue p) r c' q' add) as [Hadd Hc']; [done..|].
    apply (new_job_okx subs p j its base _ q' ({[j]} ∪ registered p) add); try done.
    + by apply (rf_items _ _ _ _ _ _ _ Hf).
    + set_solver.
  - assert (Forall (λ i, job_id i = j) nowi) as Hnow by (rewrite Hits, Forall_app in Hjob; tauto).
    destruct nowi as [|i0 nowi0] eqn:Hn; [done|]. rewrite <-Hn in *. apply report_outage_okx.
    apply (new_job_okx subs p j its base c _ ({[j]} ∪ registered p) nowi); try done.
    + simpl. rewrite sort_by_key_Permutation. by rewrite Permutation_app_comm.
    + by apply fresh_ok.
    + set_solver.
Qed.

Lemma usize_sub_le a b : (b ≤ a)%N → (a < 2 ^ 64)%N → usize_sub a b = (a - b)%N.
Proof.
  intros Hn Hlt. unfold usize_sub.
  replace (a + 2 ^ 64 - b)%N with (a - b + 1 * 2 ^ 64)%N by lia.
  rewrite N.Div0.mod_add, N.mod_small; lia.
Qed.

Lemma submit_okx subs p iv t j c its base :
  contexts p !! j = None → (∀ l, iv l ≡ₚ l) → fresh c (length its) base →
  held_volumes c = no_held → (base + N.of_nat (length its) < 2 ^ 63)%N →
  Forall (λ i, job_id i = j) its →
  pool_ok subs p → pool_ok (<[j := (its, base)]> subs) (submit_job iv t j c its p).
Proof.
  intros Hnone Hiv Hfr Hheld Htot Hjob Hok.
  assert (held_items_of c = []) as Hnil by (unfold held_items_of; by rewrite Hheld).
  destruct (decide (its = [])) as [->|Hne].
  { assert (release_facts true c (work_queue p) false c (work_queue p) []) as Hfacts.
    { destruct (release_held_facts true c (work_queue p)) as (r & c' & q' & add & Hr & Hf);
        [by rewrite Hheld|]. unfold release_held in Hr. rewrite Hheld in Hr. simpl in Hr.
      injection Hr as <- <- <-. destruct Hf. assert (add = []) as ->; [|by split].
      apply dec_stable. intros Ha. by apply rf_flag0 in Ha. }
    destruct (start_last_ok j [] base c (work_queue p) false c (work_queue p) []) as [_ Hc];
      [done..|by rewrite Hnil|done|by rewrite Hheld|done|].
    apply (new_job_okx subs p j [] base _ (work_queue p) (registered p) []); try done.
    intros _. by apply Hc. }
  unfold submit_job. destruct its as [|i0 its0] eqn:Hits; [done|]. rewrite <-Hits in *.
  destruct (defer_par2_volumes (with_registered ({[j]} ∪ registered p) p) && _).
  - destruct (hold iv its (par2_volumes c) (held_volumes c)) as [nowi h] eqn:Hh.
    pose proof (hold_items _ _ _ _ _ _ Hiv Hh) as Hperm.
    assert (has_queue h = true) as Hhq.
    { unfold hold in Hh. destruct (split_items _ _ _). by injection Hh as <- <-. }
    pose proof (Permutation_length Hperm) as Hlen. rewrite length_app in Hlen.
    apply (submit_tail_okx subs p t j _ its base nowi); try done.
    destruct Hfr as [Hrem Hfl Hflags]. split; [|done..]. simpl.
    rewrite Hrem, usize_sub_le; lia.
  - apply (submit_tail_okx subs p t j c its base its); try done.
    + by rewrite Hnil, app_nil_r.
    + by rewrite Hheld.
Qed.
(** *** What a submission starts from *)
Lemma work_items_length j files ids :
  length (work_items j files ids) + length (filter (λ a, is_previously_failed ids a = true)
    (files ≫= f_articles)) ≤ length (files ≫= f_articles).
Proof.
  assert (∀ l : list Article,
    length (filter (λ a, a_downloaded a = false ∧ is_previously_failed ids a = false) l) +
    length (filter (λ a, is_previously_failed ids a = true) l) ≤ length l) as Hl.
  { induction l as [|a l IH]; [done|]. rewrite !filter_cons.
    destruct (is_previously_failed ids a);
      [rewrite decide_False by (by intros []); rewrite decide_True by done
      |rewrite (decide_False (P := false = true)) by done; case_decide]; simpl; lia. }
  unfold work_items. induction files as [|f files IH]; [done|].
  simpl. rewrite filter_app, !length_app, length_fmap. specialize (Hl (f_articles f)).
  unfold mbind, list_bind in *. lia.
Qed.

Lemma work_items_job j files ids : Forall (λ i, job_id i = j) (work_items j files ids).
Proof.
  apply Forall_forall. intros i Hi. unfold work_items in Hi.
  apply list_elem_of_bind in Hi as (f & Hi & _).
  apply list_elem_of_fmap in Hi as (a & -> & _). done.
Qed.

Lemma submission_fresh j files (sl : SL) ids :
  let sub := build_job_submission j files sl ids in
  fresh sub.1 (length sub.2) (previously_failed files ids).
Proof. by split. Qed.

Lemma submission_okx subs p iv t j files sl ids :
  let sub := build_job_submission j files sl ids in
  contexts p !! j = None → (∀ l, iv l ≡ₚ l) →
  (N.of_nat (length (files ≫= f_articles)) < 2 ^ 63)%N →
  pool_ok subs p →
  pool_ok (<[j := (sub.2, previously_failed files ids)]> subs) (submit_job iv t j sub.1 sub.2 p).
Proof.
  intros sub Hnone Hiv Hlen Hok. apply submit_okx; try done.
  - pose proof (work_items_length j files ids). unfold previously_failed. simpl. lia.
  - apply work_items_job.
Qed.

(** *** The other steps *)
Lemma wake_okx subs p n i :
  sleeping p !! n = Some i → pool_ok subs p →
  pool_ok subs (with_queue (push_front i (work_queue p)) (with_sleeping (delete n (sleeping p)) p)).
Proof.
  intros Hn Hok. eapply pool_okx_places; [..|exact Hok]; [done..|]. unfold all_places. simpl.
  pose proof (delete_Permutation _ _ _ Hn) as Hd. set (d := delete n (sleeping p)) in *.
  clearbody d. rewrite Hd. simpl. by rewrite <-Permutation_middle.
Qed.

Lemma transport_sent_all_okx subs sv its p :
  pool_ok subs p →
  pool_ok subs (foldl (transport_sent sv) p its) ∧
  in_flight (foldl (transport_sent sv) p its) = in_flight p.
Proof.
  revert p. induction its as [|i its IH]; intros p Hok; [done|]. simpl.
  destruct (IH (transport_sent sv p i)) as [Hok' Hfl].
  { unfold transport_sent. destruct (lookup_job p (job_id i)); [|done]. by apply send_outcome_okx. }
  split; [done|]. rewrite Hfl. unfold transport_sent, with_job. by repeat case_match.
Qed.

(** Which jobs have been submitted only grows, and what was submitted stays. *)
Definition extends (subs subs' : gmap string (list WorkItem * N)) (p : Pool SL) : Prop :=
  ∀ j, is_Some (contexts p !! j) → subs' !! j = subs !! j.

Lemma step_ok subs p p' :
  pool_ok subs p → step p p' →
  ∃ subs', pool_ok subs' p' ∧ extends subs subs' p.
Proof.
  intros Hok Hst.
  assert ((∃ subs', pool_ok subs' p' ∧ extends subs subs' p) ∨ pool_ok subs p') as [?|?];
    [|done|by exists subs].
  destruct Hst as [p iv t j files sl ids Hnone Hiv sub Hlen|p w sv hp|p t n w sv i r Hn Hr Hcan
    |p t n w sv i r Hn Hdec|p w its Hits|p w sv its Hits|p n i Hn|p j reason|p j|p j|p j|p j Hfin
    |p t|p sv|p t sv b|p t|p ss].
  - left. eexists. split; [by apply submission_okx|]. intros j' [c Hc].
    rewrite lookup_insert_ne; [done|]. intros ->. congruence.
  - right. by apply take_turn_okx.
  - right. apply finish_serial_okx; [done|]. by eapply take_in_flight_okx.
  - right. apply finish_pipelined_okx; [done|]. by eapply take_in_flight_okx.
  - right. by apply requeue_okx.
  - right. destruct (transport_sent_all_okx subs sv its p Hok) as [Hok' Hfl].
    apply requeue_okx; [|done]. by rewrite Hfl.
  - right. by apply wake_okx.
  - right. by apply abort_okx.
  - right. by apply cancel_okx.
  - right. by apply (pause_okx _ _ _ true).
  - right. by apply (pause_okx _ _ _ false).
  - right. by apply release_okx.
  - right. by apply supervise_okx.
  - right. apply report_available_okx. by eapply pool_okx_places; [..|exact Hok].
  - right. by eapply pool_okx_places; [..|exact Hok].
  - right. by apply report_outage_okx.
  - right. by eapply pool_okx_places; [..|exact Hok].
Qed.

Lemma empty_pool_ok ss defer : pool_ok ∅ (empty_pool ss defer).
Proof. done. Qed.

Lemma pool_ok_context subs p j : pool_ok subs p → is_Some (contexts p !! j) → is_Some (subs !! j).
Proof. intros Hok [c Hc]. specialize (Hok j). rewrite Hc in Hok. destruct Hok as (?&?&?&?&_). eauto. Qed.

(** Contexts are never thrown away: workers hold them as long as they need. *)
Definition keeps (p p' : Pool SL) : Prop := ∀ j, is_Some (contexts p !! j) → is_Some (contexts p' !! j).

Lemma keeps_refl p : keeps p p.
Proof. by intros j. Qed.
Lemma keeps_insert p m' m j c :
  contexts m' = <[j := c]> (contexts m) → keeps p m → keeps p m'.
Proof. intros Heq Hk k Hj. rewrite Heq, lookup_insert_is_Some'. right. by apply Hk. Qed.
Lemma keeps_with_job p m j f : keeps p m → keeps p (with_job j f m).
Proof.
  intros Hk. unfold with_job. destruct (contexts m !! j) as [c|]; [|done]. by eapply keeps_insert.
Qed.
Lemma keeps_registered p m f : keeps p m → keeps p (on_registered f m).
Proof. intros Hk k Hj. simpl. rewrite map_lookup_imap. destruct (Hk k Hj) as [c ->]. by eexists. Qed.
Lemma keeps_outage p m t : keeps p m → keeps p (report_provider_outage t m).
Proof. intros. unfold report_provider_outage. case_match; [by apply keeps_registered|done]. Qed.
Lemma keeps_react p m t sv j rc : keeps p m → keeps p (react t sv j rc m).
Proof.
  intros. unfold react. apply keeps_with_job. unfold trip_breaker. case_match; [|by apply keeps_with_job].
  by apply keeps_outage, (keeps_with_job p m).
Qed.
Lemma keeps_foldl p m f (l : list WorkItem) :
  (∀ m i, keeps p m → keeps p (f m i)) → keeps p m → keeps p (foldl f m l).
Proof. intros Hf. revert m. induction l as [|i l IH]; intros m Hm; simpl; auto. Qed.

Lemma submit_context p iv t j (c : JobContext SL) its : is_Some (contexts (submit_job iv t j c its p) !! j).
Proof.
  unfold submit_job, report_provider_outage.
  repeat case_match; simpl; rewrite ?map_lookup_imap, lookup_insert_eq; by eexists.
Qed.

Lemma keeps_submit p iv t j c its : keeps p (submit_job iv t j c its p).
Proof.
  pose proof (keeps_refl p). unfold submit_job.
  repeat case_match; try apply keeps_outage; by eapply (keeps_insert p _ p).
Qed.

Lemma step_keeps p p' : step p p' → keeps p p'.
Proof.
  pose proof (keeps_refl p) as Hp.
  destruct 1; try done.
  - by apply keeps_submit.
  - unfold take_turn. repeat case_match; try done. by apply keeps_with_job.
  - by apply (keeps_react p (with_in_flight (delete n (in_flight p)) p)).
  - unfold finish_pipelined. repeat case_match; try done;
      [by apply (keeps_with_job p (with_in_flight (delete n (in_flight p)) p))
      |by apply (keeps_react p (with_in_flight (delete n (in_flight p)) p))].
  - apply (keeps_foldl p p); [|done]. intros m i Hm. unfold transport_sent.
    case_match; [by apply keeps_with_job|done].
  - unfold abort_job. repeat case_match; try done. apply keeps_with_job. by eapply (keeps_insert p _ p).
  - unfold cancel_job. repeat case_match; [|done]. by eapply (keeps_insert p _ p).
  - unfold pause_job. repeat case_match; [|done]. by eapply (keeps_insert p _ p).
  - unfold resume_job. repeat case_match; [|done]. by eapply (keeps_insert p _ p).
  - unfold resolve_items_not_waiting_on_required_providers. case_match; [|done].
    destruct (take_where _ _) as [taken q].
    apply (keeps_foldl p (with_queue q p)); [|done]. intros m i Hm. unfold resolve_taken.
    repeat case_match; try done; by apply keeps_with_job.
  - by apply (keeps_registered p p).
  - by apply keeps_outage.
Qed.

Lemma reachable_ok subs p p' :
  pool_ok subs p → rtc step p p' → ∃ subs', pool_ok subs' p' ∧ extends subs subs' p.
Proof.
  intros Hok Hst. revert subs Hok. induction Hst as [p|p p1 p' Hst Hrtc IH]; intros subs Hok.
  { by exists subs. }
  destruct (step_ok _ _ _ Hok Hst) as (subs1 & Hok1 & Hex1).
  destruct (IH _ Hok1) as (subs' & Hok' & Hex). exists subs'. split; [done|].
  intros j Hj. rewrite Hex; [by apply Hex1|]. by eapply step_keeps.
Qed.

Lemma pool_ok_job subs p j c its base :
  pool_ok subs p → contexts p !! j = Some c → subs !! j = Some (its, base) →
  j ∈ registered p ∨ cancelled c = false →
  job_ok j its base c (of_job j (all_places p)) 0.
Proof.
  intros Hok Hc Hsub Hreg. specialize (Hok j). rewrite Hc in Hok.
  destruct Hok as (its' & base' & z & Hsub' & Hinv & Hz & Hz'). simplify_eq.
  destruct z; [|done]. destruct Hreg as [Hr|Hr]; [by apply Hz in Hr|]. simpl in Hinv. congruence.
Qed.

(** ** Properties *)

(** C1. Every article handed out is settled exactly once, and the job ends
    exactly when the last one is. After a job has been submitted, in every
    state any sequence of steps can reach: the count of remaining articles is
    the number of the job's items in the queue, in the workers' hands and
    asleep; unless the job is being aborted, its items are together those
    reported complete or failed, each once, those in these places and those
    held back; the terminal update has been sent once if no item is left in
    these places and not yet otherwise; the failure count is the one at the
    submission plus the failures reported; a job reported finished is reported
    as a success just if no article failed and the NZB lists every segment;
    and the recovery volumes it then leaves unfetched are not needed. *)
Theorem every_article_settles_once ss defer p0 iv t j files (sl : SL) ids p c :
  rtc step (empty_pool ss defer) p0 →
  contexts p0 !! j = None → (∀ l, iv l ≡ₚ l) →
  (N.of_nat (length (files ≫= f_articles)) < 2 ^ 63)%N →
  let sub := build_job_submission j files sl ids in
  rtc step (submit_job iv t j sub.1 sub.2 p0) p →
  contexts p !! j = Some c → j ∈ registered p ∨ cancelled c = false →
  let out := of_job j (all_places p) in
  articles_remaining c = N.of_nat (length out) ∧
  (cancelled c = false → key <$> sub.2 ≡ₚ
     omap settled_key (sent c) ++ (key <$> out) ++ (key <$> held_items_of c)) ∧
  count_of is_terminal (sent c) = (if decide (out = []) then 1 else 0) ∧
  articles_failed c =
    (previously_failed files ids + N.of_nat (count_of is_failed (sent c)))%N ∧
  (∀ ok n sm, JobFinished ok n sm ∈ sent c →
     n = articles_failed c ∧ ok = bool_decide (n = 0%N) && negb (incomplete_nzb c) ∧
     sm = (summary (slices c)).1) ∧
  (out = [] → cancelled c = false → enough_recovery c).
Proof.
  intros H0 Hnone Hiv Hlen sub Hst Hc Hreg. cbv zeta.
  destruct (reachable_ok ∅ _ _ (empty_pool_ok ss defer) H0) as (subs0 & Hok0 & _).
  pose proof (submission_okx _ _ iv t j files sl ids Hnone Hiv Hlen Hok0) as Hok1.
  destruct (reachable_ok _ _ _ Hok1 Hst) as (subs' & Hok & Hex).
  assert (subs' !! j = Some (sub.2, previously_failed files ids)) as Hsub.
  { rewrite Hex; [by rewrite lookup_insert_eq|].
    apply submit_context. }
  pose proof (pool_ok_job _ _ _ _ _ _ Hok Hc Hsub Hreg) as [].
  rewrite Nat.add_0_r in *. split_and!; try done.
  - rewrite jo_terminal0. case_decide as Ho; [by rewrite (proj2 jo_finished0)|].
    destruct (finished c); [|done]. by destruct (proj1 jo_finished0 eq_refl).
  - intros ok n sm Hin. by apply jo_verdict0 in Hin as (? & ? & ? & _).
  - intros Ho. apply jo_enough0. by apply jo_finished0.
Qed.
End invariant.

(** *** A job of one article, fetched at once *)
#[export] Instance ex_tracker : JobSlices N := {
  damage_hint n := n;
  summary n := (Some {| damaged := n; unknown := 0 |}, n);
  record_failure n _ _ := (n + 1)%N;
  record_write n _ _ _ _ := n;
}.
#[export] Instance ex_tracker_laws : JobSlicesLaws N.
Proof. done. Qed.

Definition ex_main : ServerConfig :=
  {| server := "main"; priority := 0; enabled := true; optional := false |}.
Definition ex_files : list NzbFile :=
  [{| f_id := "f"; f_name := lit "a.rar"; f_par2_vol := None; f_par2_blocks := None;
      f_articles := [{| a_message_id := lit "m"; a_segment := 1; a_downloaded := false; a_tried := [] |}] |}].
Definition ex_submitted : Pool N :=
  let sub := build_job_submission "j" ex_files 0%N ["main"] in
  submit_job (λ l, l) 0 "j" sub.1 sub.2 (empty_pool [ex_main] true).
Definition ex_taken : Pool N := take_turn 0 "main" [] ex_submitted.
Definition ex_written : Placement.ProcessResult :=
  {| Placement.decoded_bytes := 10; Placement.file_complete := true; Placement.write_offset := 0;
     Placement.yenc_filename := None |}.
Definition ex_done : Pool N :=
  finish_serial 5 "main" (ex_item "j" []) (Some (Ok ex_written))
    (with_in_flight (delete 0 (in_flight ex_taken)) ex_taken).

Lemma every_article_settles_once_witness :
  ∃ c, contexts ex_done !! "j" = Some c ∧ all_places ex_done = [] ∧ 
    count_of is_terminal (sent c) = 1 ∧ articles_failed c = 0%N.
Proof.
  destruct (contexts ex_done !! "j") as [c|] eqn:Hc; [|by vm_compute in Hc].
  exists c. assert (all_places ex_done = []) as Hno by by vm_compute.
  destruct (every_article_settles_once [ex_main] true (empty_pool [ex_main] true) (λ l, l) 0 "j"
    ex_files 0%N ["main"] ex_done c) as (_ & _ & Ht & Hf & _).
  - done.
  - done.
  - done.
  - done.
  - eapply rtc_l; [apply (step_take _ 0 "main" [])|]. apply rtc_once.
    unfold ex_done. eapply step_serial; [|exact I|by intros [=]]. by vm_compute.
  - done.
  - left. by vm_compute.
  - rewrite Hno in Ht. split_and!; [done..|]. rewrite Hf.
    vm_compute in Hc. injection Hc as <-. by vm_compute.
Defined.
