(* ===== verification/Failover.v ===== *)
(** * The failover of an article across the servers

    What is promised of each article of a job while the servers answer: it is
    declared missing only after every required server refused it in each round
    of questions, it always has a server left that may take it if it started
    untried, and only so many answers can be counted against it. The first part is a way to prove
    such promises: a property of the waiting items of a job, and one of the
    updates sent, that every reaction of a worker keeps is kept by every step
    of the pool. *)
From S2P Require Import Prelude Str Wire WorkQueue Engine Settle.
From S2P Require Placement.

(** ** Properties of the items of a job

    [I l i]: of an item that waits when the updates [l] have been sent; [O l]:
    of the updates; [Q ss]: of the servers configured; [A l sv k i]: of an item
    for which server [sv] has just given the outcome [k]. *)
Definition final_failure (sv : string) (i : WorkItem) : ProgressUpdate :=
  ArticleFailed (file_id i) (segment_number i)
    (if all_not_found (provider_outcomes i) then not_found_anywhere sv else decode_error sv).

Definition swept (ss : list ServerConfig) (t : N) (health : ServerHealthMap) (i : WorkItem) : Prop :=
  existsb (λ s, enabled s && optional s && unavailable t health (server s)) ss = true ∧
  provider_outcomes i ≠ ∅ ∧ all_enabled_providers_definitive t ss health (provider_outcomes i) = true.

Section tracked.
Context {SL : Type} `{JSL : JobSlices SL} `{!JobSlicesLaws SL}.
Implicit Types (c : JobContext SL) (s : JobSt SL) (p : Pool SL).

Variables (j : string) (I : list ProgressUpdate → WorkItem → Prop)
  (O : list ProgressUpdate → Prop) (Q : list ServerConfig → Prop)
  (A : list ProgressUpdate → string → FailureKind → WorkItem → Prop).

Record tracking : Prop := {
  tr_mono l u i : I l i → I (l ++ [u]) i;
  tr_other l u : is_failed u = false → O l → O (l ++ [u]);
  tr_decode l i sv : O l → O (l ++ [ArticleFailed (file_id i) (segment_number i) (decode_error sv)]);
  tr_tries l i a b : I l i → I l (with_tries a b i);
  tr_refused l i sv : I l i →
    A (l ++ [ArticleOutcome (file_id i) (segment_number i) (message_id i) (Refused sv)]) sv
      ArticleFailureKind.NotFound i;
  tr_kind l i sv k : I l i → k ≠ ArticleFailureKind.NotFound → A l sv k i;
  tr_round l i e sv k : Q (env_servers e) → A l sv k i →
    all_enabled_providers_definitive (now e) (env_servers e) (env_health e)
      (provider_outcomes (mark_tried sv k i)) = true →
    all_not_found (provider_outcomes (mark_tried sv k i)) = true →
    (confirm_rounds i < CONFIRM_ASKS_PER_SERVER)%N →
    I l (start_confirm_round (mark_tried sv k i));
  tr_final l i e sv k : Q (env_servers e) → A l sv k i → O l →
    all_enabled_providers_definitive (now e) (env_servers e) (env_health e)
      (provider_outcomes (mark_tried sv k i)) = true →
    all_not_found (provider_outcomes (mark_tried sv k i)) = false ∨
      (CONFIRM_ASKS_PER_SERVER ≤ confirm_rounds i)%N →
    O (l ++ [final_failure sv (mark_tried sv k i)]);
  tr_next l i e sv k : Q (env_servers e) → A l sv k i →
    all_enabled_providers_definitive (now e) (env_servers e) (env_health e)
      (provider_outcomes (mark_tried sv k i)) = false →
    I l (mark_tried sv k i);
  tr_sweep l i ss t h sv : Q ss → I l i → O l → swept ss t h i → O (l ++ [final_failure sv i]);
}.
Hypothesis TR : tracking.

Definition own (k : string) c : Prop :=
  Forall (λ i, job_id i = k) (held_items_of c) ∧
  (held (held_volumes c) ≠ [] → has_queue (held_volumes c) = true).
Definition good_ctx (k : string) c (pl : list WorkItem) : Prop :=
  own k c ∧ (k = j → O (sent c) ∧ Forall (I (sent c)) (held_items_of c) ∧
    ∀ i, i ∈ pl → job_id i = j → I (sent c) i).
Definition good (k : string) s : Prop := good_ctx k (jctx s) (body s).

(** A handler of the job [k] keeps the property, only adds to the updates, and
    leaves the items of other jobs alone. *)
Definition evolves (k : string) s s' : Prop :=
  good k s' ∧ sent (jctx s) `prefix_of` sent (jctx s') ∧
  ∀ i, i ∈ body s' → job_id i ≠ k → i ∈ body s.

Lemma I_prefix l l' i : l `prefix_of` l' → I l i → I l' i.
Proof.
  intros [a ->]. revert l. induction a as [|u a IH]; intros l Hi; [by rewrite app_nil_r|].
  rewrite cons_middle, (assoc_L (++)). by apply IH, (tr_mono TR).
Qed.

Lemma evolves_trans k s1 s2 s3 :
  evolves k s1 s2 → (good k s2 → evolves k s2 s3) → evolves k s1 s3.
Proof.
  intros (Hg & Hp & Hb) H. destruct (H Hg) as (Hg' & Hp' & Hb'). split_and!; [done|by etrans|auto].
Qed.

Lemma evolves_send k u s :
  (k = j → O (sent (jctx s)) → O (sent (jctx s) ++ [u])) →
  good k s → evolves k s (on_ctx (try_send_progress u) s).
Proof.
  intros Hu [Hown Hg]. split_and!; [|by eexists|done]. split; [done|].
  intros Hk. destruct (Hg Hk) as (HO & HI & HB). split_and!; simpl.
  - auto.
  - eapply Forall_impl; [exact HI|]. intros i. apply (tr_mono TR).
  - intros i Hi Hj. by apply (tr_mono TR), HB.
Qed.
Lemma evolves_other k u s :
  is_failed u = false → good k s → evolves k s (on_ctx (try_send_progress u) s).
Proof. intros Hu. apply evolves_send. intros _. by apply (tr_other TR). Qed.

Lemma evolves_same k s c :
  sent c = sent (jctx s) → held_volumes c = held_volumes (jctx s) →
  good k s → evolves k s {| jctx := c; jqueue := jqueue s; jsleeping := jsleeping s |}.
Proof.
  intros Hs Hh Hg. unfold evolves, good, good_ctx, own, held_items_of, body in *. simpl.
  rewrite Hs, Hh. done.
Qed.

Lemma evolves_ctx k f s :
  sent (f (jctx s)) = sent (jctx s) → held_volumes (f (jctx s)) = held_volumes (jctx s) →
  good k s → evolves k s (on_ctx f s).
Proof. apply evolves_same. Qed.

Lemma good_ctx_places k c pl pl' :
  (∀ i, i ∈ pl' → i ∈ pl ∨ (job_id i = k ∧ (k = j → I (sent c) i))) →
  good_ctx k c pl → good_ctx k c pl'.
Proof.
  intros Hpl [Hown Hg]. split; [done|]. intros Hk. destruct (Hg Hk) as (HO & HI & HB).
  split_and!; [done..|]. intros i Hi Hj. destruct (Hpl i Hi) as [|[_ H]]; auto.
Qed.

Lemma evolves_add k s s' i :
  jctx s' = jctx s → (∀ x, x ∈ body s' → x = i ∨ x ∈ body s) →
  job_id i = k → (k = j → I (sent (jctx s)) i) → good k s → evolves k s s'.
Proof.
  intros Hc Hb Hj Hi Hg. split_and!.
  - unfold good. rewrite Hc. eapply good_ctx_places; [|exact Hg].
    intros x Hx. destruct (Hb x Hx) as [->|]; auto.
  - by rewrite Hc.
  - intros x Hx Hne. by destruct (Hb x Hx) as [->|].
Qed.
Lemma evolves_push k i s :
  job_id i = k → (k = j → I (sent (jctx s)) i) → good k s → evolves k s (on_queue (push_front i) s).
Proof.
  apply evolves_add; [done|]. intros x. unfold body. simpl. rewrite elem_of_cons. tauto.
Qed.
Lemma evolves_sleep k i s :
  job_id i = k → (k = j → I (sent (jctx s)) i) → good k s → evolves k s (sleep i s).
Proof.
  apply evolves_add; [done|]. intros x. unfold body. simpl. rewrite !elem_of_app, elem_of_cons. tauto.
Qed.

(** *** The end of an item *)
Lemma evolves_emit k s : good k s → evolves k s (on_ctx emit_terminal s).
Proof.
  intros Hg. unfold emit_terminal.
  assert (evolves k s s) as Hs by done.
  destruct (finished (jctx s)) eqn:Hf.
  { unfold on_ctx. rewrite Hf. by destruct s. }
  unfold on_ctx. rewrite Hf. simpl. destruct (abort_reason (jctx s)) as [r|]; simpl.
  - apply (evolves_trans _ _ {| jctx := with_finished true (jctx s); jqueue := jqueue s;
      jsleeping := jsleeping s |}); [by apply evolves_same|]. intros Hg'.
    by apply (evolves_other _ (JobAborted r (articles_failed (jctx s)))) in Hg'.
  - destruct (summary (slices (jctx s))) as [m sl].
    apply (evolves_trans _ _ {| jctx := with_slices sl (with_finished true (jctx s)); jqueue := jqueue s;
      jsleeping := jsleeping s |}); [by apply evolves_same|]. intros Hg'.
    by apply (evolves_other _ (JobFinished (bool_decide (articles_failed (jctx s) = 0%N) &&
      negb (incomplete_nzb (jctx s))) (articles_failed (jctx s)) m)) in Hg'.
Qed.

Lemma evolves_release b k s :
  good k s → let '(_, c, q) := release_held b (jctx s) (jqueue s) in
  evolves k s {| jctx := c; jqueue := q; jsleeping := jsleeping s |}.
Proof.
  intros [[Hown Hq] Hg].
  destruct (release_held_facts b (jctx s) (jqueue s) Hq) as (r & c & q & add & -> & Hf).
  destruct Hf as [Hit Hheld _ _ (_ & _ & _ & _ & _ & Hs) Hq' _ _].
  rewrite Hheld, Forall_app in Hown. destruct Hown as [Hadd Hown].
  assert (∀ i, i ∈ body {| jctx := c; jqueue := q; jsleeping := jsleeping s |} →
    i ∈ add ∨ i ∈ body s) as Hbody.
  { intros i. unfold body. simpl. rewrite Hit. rewrite !elem_of_app. tauto. }
  split_and!; simpl.
  - split; [done|]. simpl. intros Hk. destruct (Hg Hk) as (HO & HI & HB). rewrite Hs.
    rewrite Hheld, Forall_app in HI. destruct HI as [HIadd HI]. split_and!; [done..|].
    intros i Hi Hj. destruct (Hbody i Hi) as [Hin|]; [|auto]. by eapply Forall_forall in HIadd.
  - by rewrite Hs.
  - intros i Hi Hne. destruct (Hbody i Hi) as [Hin|]; [|done].
    eapply Forall_forall in Hadd; [|done]. done.
Qed.

Lemma evolves_resolve k s : good k s → evolves k s (resolve s).
Proof.
  intros Hg. unfold resolve, resolve_one.
  pose proof (evolves_release false k s Hg) as H1.
  destruct (release_held false (jctx s) (jqueue s)) as [[r1 c1] q1].
  eapply evolves_trans; [exact H1|]. clear H1 Hg. intros Hg.
  set (c2 := with_remaining _ c1).
  assert (evolves k {| jctx := c1; jqueue := q1; jsleeping := jsleeping s |}
    {| jctx := c2; jqueue := q1; jsleeping := jsleeping s |}) as H2
    by (apply (evolves_same k {| jctx := c1; jqueue := q1; jsleeping := jsleeping s |}); done).
  eapply evolves_trans; [exact H2|]. clear H2 Hg. intros Hg. case_decide; [done|].
  pose proof (evolves_release true k _ Hg) as H3. simpl in H3.
  destruct (release_held true c2 q1) as [[r3 c3] q3].
  eapply evolves_trans; [exact H3|]. intros Hg'. destruct r3; [done|]. by apply evolves_emit in Hg'.
Qed.
(** *** The handlers *)
Lemma evolves_send_failed k i f s :
  (k = j → O (sent (jctx s)) → O (sent (jctx s) ++ [ArticleFailed (file_id i) (segment_number i) f])) →
  good k s → evolves k s (send_failed i f s).
Proof.
  intros HO Hg. unfold send_failed. eapply evolves_trans; [|apply evolves_resolve].
  eapply evolves_trans; [|by apply evolves_ctx]. by apply evolves_send.
Qed.
Lemma evolves_note k i b s : good k s → evolves k s (note_slices i b s).
Proof. intros Hg. unfold note_slices. by apply evolves_ctx. Qed.
Lemma evolves_outcome k i o s : good k s → evolves k s (send_outcome i o s).
Proof. intros Hg. unfold send_outcome. by apply evolves_other. Qed.
Lemma sent_note i b s : sent (jctx (note_slices i b s)) = sent (jctx s).
Proof. done. Qed.

Lemma evolves_decode_failed k i sv s :
  good k s → evolves k s (send_failed i (decode_error sv) (note_slices i false (send_outcome i Present s))).
Proof.
  intros Hg. eapply evolves_trans; [|apply evolves_send_failed; intros _; apply (tr_decode TR)].
  eapply evolves_trans; [|apply evolves_note]. by apply evolves_outcome.
Qed.

Lemma evolves_complete k i sv pr s : good k s → evolves k s (complete_article sv i pr s).
Proof.
  intros Hg. unfold complete_article. eapply evolves_trans; [|apply evolves_resolve].
  eapply evolves_trans; [|by apply evolves_other].
  eapply evolves_trans; [|apply evolves_outcome]. by apply evolves_ctx.
Qed.

Lemma evolves_fail_everywhere k i sv s :
  (k = j → O (sent (jctx s)) → O (sent (jctx s) ++ [final_failure sv i])) →
  good k s → evolves k s (fail_article_everywhere i sv s).
Proof.
  intros HO Hg. unfold fail_article_everywhere. eapply evolves_trans; [by apply evolves_note|].
  intros Hg1. by apply evolves_send_failed.
Qed.

Lemma evolves_not_available k e sv kd i s :
  Q (env_servers e) → job_id i = k → (k = j → A (sent (jctx s)) sv kd i) →
  good k s → evolves k s (handle_article_not_available e sv kd i s).2.
Proof.
  intros HQ Hj HA Hg. unfold handle_article_not_available.
  destruct (all_enabled_providers_definitive _ _ _ _) eqn:Hd; simpl.
  - destruct (all_not_found _ && _) eqn:Hn; simpl.
    + apply andb_true_iff in Hn as [Hn Hr]. apply bool_decide_eq_true in Hr.
      apply evolves_sleep; [done| |done]. intros Hk. by eapply (tr_round TR); eauto.
    + apply evolves_fail_everywhere; [|done]. intros Hk HO.
      eapply (tr_final TR); [exact HQ|by apply HA|done|done|].
      apply andb_false_iff in Hn as [Hn|Hn]; [by left|]. apply bool_decide_eq_false in Hn.
      right. simpl in Hn. lia.
  - apply evolves_push; [done| |done]. intros Hk. by eapply (tr_next TR); eauto.
Qed.

Lemma evolves_retry k e sv kd i s :
  Q (env_servers e) → job_id i = k → (k = j → I (sent (jctx s)) i) →
  kd ≠ ArticleFailureKind.NotFound →
  good k s → evolves k s (retry_or_fail_over e sv kd i s).2.
Proof.
  intros HQ Hj HI Hkd Hg. unfold retry_or_fail_over. case_decide; simpl.
  - apply evolves_push; [done| |done]. intros Hk. by apply (tr_tries TR), HI.
  - apply evolves_not_available; [done..| |done]. intros Hk.
    by apply (tr_kind TR); [apply (tr_tries TR), HI|].
Qed.

Lemma evolves_cancelled k s : good k s → evolves k s s.
Proof. done. Qed.

(** An answer of server [sv] that is first reported. *)
Lemma evolves_reported k i o f s :
  job_id i = k → (k = j → I (sent (jctx s)) i) → good k s →
  (good k (send_outcome i o s) → (k = j → I (sent (jctx (send_outcome i o s))) i) →
     evolves k (send_outcome i o s) (f (send_outcome i o s))) →
  evolves k s (f (send_outcome i o s)).
Proof.
  intros Hj HI Hg Hf. eapply evolves_trans; [by apply evolves_outcome|]. intros Hg1.
  apply Hf; [done|]. intros Hk. simpl. by apply (tr_mono TR), HI.
Qed.

Lemma evolves_serial k sv i r e s :
  Q (env_servers e) → serial_result r → job_id i = k → (k = j → I (sent (jctx s)) i) →
  good k s → evolves k s (after (serial_reaction sv i r) e s).
Proof.
  intros HQ Hr Hj HI Hg.
  assert (∀ kd, Some (Err (Placement.ServerError kd)) = r → kd ≠ ArticleFailureKind.NotFound) as Hkd.
  { intros kd <-. destruct Hr as [?|[[|[|]]|[err Hr]]]; try done.
    destruct err; simpl in Hr; simplify_eq; done. }
  destruct r as [[pr|[| |kd|kd| | | |]]|]; simpl.
  - by apply evolves_complete.
  - eapply evolves_trans; [by apply evolves_outcome|]. intros Hg1. apply evolves_not_available; [done..| |done].
    intros Hk. by apply (tr_refused TR), HI.
  - apply (evolves_reported k i _ (on_queue (push_front i))); try done; intros; by apply evolves_push.
  - apply (evolves_reported k i _ (λ s, (retry_or_fail_over e sv kd i s).2)); try done.
    intros. apply evolves_retry; eauto.
  - by apply evolves_push.
  - apply (evolves_reported k i _ (λ s, (handle_article_not_available e sv _ i s).2)); try done.
    intros. apply evolves_not_available; try done. intros Hk. apply (tr_kind TR); [auto|done].
  - by apply evolves_decode_failed.
  - by apply evolves_decode_failed.
  - by apply evolves_resolve.
  - apply (evolves_reported k i _ (λ s, (retry_or_fail_over e sv _ i s).2)); try done.
    intros. by apply evolves_retry.
Qed.

Lemma evolves_pipelined_failure k sv i err e s :
  (∀ m, err ≠ Wire.ArticleNotFound m) →
  Q (env_servers e) → job_id i = k → (k = j → I (sent (jctx s)) i) →
  good k s → evolves k s (after (pipelined_failure sv i err) e s).
Proof.
  intros Herr HQ Hj HI Hg.
  assert (ArticleFailureKind.kind_of_nntp err ≠ ArticleFailureKind.NotFound) as Hkd
    by (destruct err; try done; naive_solver).
  unfold pipelined_failure. simpl. case_bool_decide; [by apply evolves_push|].
  case_bool_decide; [|by apply evolves_retry]. case_decide.
  - apply evolves_push; [done| |done]. intros Hk. by apply (tr_tries TR), HI.
  - apply evolves_retry; try done. intros Hk. by apply (tr_tries TR), HI.
Qed.

Lemma evolves_pipelined k sv i r e s :
  Q (env_servers e) → (∀ er, r = Ok (Err er) → decoder_error er) →
  job_id i = k → (k = j → I (sent (jctx s)) i) →
  good k s → evolves k s (after (pipelined_reaction sv i r) e s).
Proof.
  intros HQ Hdec Hj HI Hg. destruct r as [[pr|er]|er].
  - simpl. by apply evolves_complete.
  - destruct (Hdec er eq_refl) as [->|[->| ->]]; simpl; try by apply evolves_decode_failed.
    apply (evolves_reported k i _ (λ s, (handle_article_not_available e sv _ i s).2)); try done.
    intros. apply evolves_not_available; try done. intros Hk. apply (tr_kind TR); [auto|done].
  - destruct er; cbn [pipelined_reaction];
      lazymatch goal with
      | |- context [pipelined_failure] => by apply evolves_pipelined_failure
      | |- context [push_front] => simpl;
        apply (evolves_reported k i _ (on_queue (push_front i))); try done; intros; by apply evolves_push
      | |- _ => simpl; eapply evolves_trans; [by apply evolves_outcome|]; intros Hg1;
        apply evolves_not_available; [done..| |done]; intros Hk; by apply (tr_refused TR), HI
      end.
Qed.
(** *** The pool

    [l] are items that a step has taken out and not yet put anywhere. *)
Definition tracked (l : list WorkItem) (p : Pool SL) : Prop :=
  ∀ k c, contexts p !! k = Some c → good_ctx k c (l ++ all_places p).

Lemma tracked_places l l' p p' :
  contexts p' = contexts p → (∀ i, i ∈ l' ++ all_places p' → i ∈ l ++ all_places p) →
  tracked l p → tracked l' p'.
Proof.
  intros Hc Hp HT k c Hk. rewrite Hc in Hk. eapply good_ctx_places; [|by apply HT].
  intros i Hi. left. by apply Hp.
Qed.

Lemma tracked_with_job k f l p :
  (∀ c, contexts p !! k = Some c →
     let s := {| jctx := c; jqueue := work_queue p; jsleeping := sleeping p |} in
     (∀ i, i ∈ l → job_id i = j → k = j → I (sent c) i) → good k s → evolves k s (f s)) →
  tracked l p → tracked l (with_job k f p).
Proof.
  intros Hf HT. unfold with_job. destruct (contexts p !! k) as [c|] eqn:Hk; [|done].
  set (s := {| jctx := c; jqueue := work_queue p; jsleeping := sleeping p |}).
  destruct (Hf c eq_refl) as (Hg & Hp & Hb).
  { intros i Hi Hj ->. destruct (HT _ _ Hk) as [_ Hg]. apply Hg; [done| |done]. set_solver. }
  { eapply good_ctx_places; [|by apply HT]. intros i. unfold all_places, body. simpl. set_solver. }
  fold s in Hg, Hp, Hb. set (s' := f s) in *.
  intros k' c' Hk'. simpl in Hk'. destruct (decide (k' = k)) as [->|Hne].
  - rewrite lookup_insert_eq in Hk'. injection Hk' as <-.
    destruct (HT _ _ Hk) as [_ Hold]. destruct Hg as [Hown Hg]. split; [done|]. intros Hkj.
    destruct (Hg Hkj) as (HO & HI & HB). split_and!; [done..|]. intros i Hi Hj.
    assert (i ∈ body s' ∨ i ∈ l ++ all_places p) as [Hin|Hin]; [|by apply HB|].
    { unfold body, all_places in *. simpl in Hi. rewrite !elem_of_app in *. tauto. }
    eapply I_prefix; [exact Hp|]. by apply (Hold Hkj).
  - rewrite lookup_insert_ne in Hk' by done. destruct (HT _ _ Hk') as [Hown Hold].
    split; [done|]. intros ->. destruct (Hold eq_refl) as (HO & HI & HB).
    split_and!; [done..|]. intros i Hi Hj. apply HB; [|done].
    unfold all_places in *. simpl in Hi. rewrite !elem_of_app in *.
    assert (i ∈ body s' → i ∈ items (work_queue p) ∨ i ∈ sleeping p) as Hbody.
    { intros Hin. apply Hb in Hin; [|congruence]. unfold body in Hin. simpl in Hin.
      by rewrite elem_of_app in Hin. }
    unfold body in Hbody. rewrite elem_of_app in Hbody. tauto.
Qed.

(** A context that is told something, or nothing. *)
Definition told c c' : Prop :=
  held_volumes c' = held_volumes c ∧
  (sent c' = sent c ∨ ∃ u, is_failed u = false ∧ sent c' = sent c ++ [u]).

Lemma good_ctx_told k c c' pl : told c c' → good_ctx k c pl → good_ctx k c' pl.
Proof.
  unfold good_ctx, own, held_items_of. intros [-> [->|(u & Hu & ->)]] [Hown Hg]; [done|].
  split; [done|]. intros Hk. destruct (Hg Hk) as (HO & HI & HB). split_and!.
  - by apply (tr_other TR).
  - eapply Forall_impl; [exact HI|]. intros i. apply (tr_mono TR).
  - intros i Hi Hj. by apply (tr_mono TR), HB.
Qed.

Lemma tracked_contexts l p g :
  (∀ k c, told c (g k c)) → tracked l p →
  tracked l (with_contexts (map_imap (λ k c, Some (g k c)) (contexts p)) p).
Proof.
  intros Hg HT k c' Hk. simpl in Hk. rewrite map_lookup_imap in Hk.
  destruct (contexts p !! k) as [c|] eqn:Hc; simpl in Hk; [|done]. injection Hk as <-.
  eapply good_ctx_told; [apply Hg|]. by apply HT.
Qed.
Lemma tracked_update l p k c f :
  contexts p !! k = Some c → told c (f c) → tracked l p →
  tracked l (with_contexts (<[k := f c]> (contexts p)) p).
Proof.
  intros Hc Hf HT k' c' Hk'. simpl in Hk'. destruct (decide (k' = k)) as [->|Hne].
  - rewrite lookup_insert_eq in Hk'. injection Hk' as <-. eapply good_ctx_told; [exact Hf|]. by apply HT.
  - rewrite lookup_insert_ne in Hk' by done. by apply HT.
Qed.

Lemma told_waiting c : told c (report_waiting_for_providers c).
Proof.
  unfold report_waiting_for_providers. destruct (waiting_reported c); (split; [done|]); [by left|].
  right. by exists WaitingForProviders.
Qed.
Lemma told_available c : told c (report_providers_available c).
Proof.
  unfold report_providers_available. destruct (waiting_reported c); (split; [done|]); [|by left].
  right. by exists ProvidersAvailable.
Qed.

Lemma tracked_outage l p t : tracked l p → tracked l (report_provider_outage t p).
Proof.
  intros HT. unfold report_provider_outage. case_match; [|done].
  apply tracked_contexts; [|done]. intros k c. case_decide; [apply told_waiting|by split; [|left]].
Qed.

Lemma servers_with_job k f p : servers (with_job k f p) = servers p.
Proof. unfold with_job. by case_match. Qed.
Lemma health_with_job k f p : server_health (with_job k f p) = server_health p.
Proof. unfold with_job. by case_match. Qed.

(** *** The workers *)
Lemma tracked_handler f i l p :
  (∀ s, (job_id i = j → I (sent (jctx s)) i) → good (job_id i) s → evolves (job_id i) s (f s)) →
  tracked (i :: l) p → tracked l (with_job (job_id i) f p).
Proof.
  intros Hf HT.
  apply (tracked_places (i :: l) l (with_job (job_id i) f p)); [done|set_solver|].
  apply tracked_with_job; [|done]. intros c Hc s Hl Hg. apply Hf; [|done].
  intros Hj. apply Hl; [by left|done..].
Qed.

Lemma tracked_outcome k i o l p : tracked l p → tracked l (with_job k (send_outcome i o) p).
Proof. intros HT. apply tracked_with_job; [|done]. intros c Hc s _ Hg. by apply evolves_outcome. Qed.

Lemma tracked_react t sv i rc l p :
  (∀ s, before rc s = s ∨ ∃ o, before rc s = send_outcome i o s) →
  (∀ e s, Q (env_servers e) → (job_id i = j → I (sent (jctx s)) i) → good (job_id i) s →
     evolves (job_id i) s (after rc e s)) →
  Q (servers p) → tracked (i :: l) p → tracked l (react t sv (job_id i) rc p).
Proof.
  intros Hb Ha HQ HT. unfold react.
  assert (servers (trip_breaker t sv (breaker rc) (with_job (job_id i) (before rc) p)) = servers p) as Hs.
  { unfold trip_breaker, report_provider_outage. repeat case_match; apply servers_with_job. }
  apply tracked_handler.
  { intros s Hi Hg. apply Ha; [|done..]. simpl. by rewrite Hs. }
  assert (tracked (i :: l) (with_job (job_id i) (before rc) p)) as HT1.
  { apply tracked_with_job; [|done]. intros c Hc s _ Hg.
    destruct (Hb s) as [->|[o ->]]; [done|by apply evolves_outcome]. }
  unfold trip_breaker. case_match; [|done]. apply tracked_outage.
  by eapply tracked_places; [..|exact HT1].
Qed.

Lemma tracked_resolve l p k : tracked l p → tracked l (with_job k resolve p).
Proof. intros HT. apply tracked_with_job; [|done]. intros c Hc s _ Hg. by apply evolves_resolve. Qed.

Lemma tracked_weaken l l' p : (∀ i, i ∈ l' → i ∈ l) → tracked l p → tracked l' p.
Proof. intros Hl. apply tracked_places; [done|]. intros i. rewrite !elem_of_app. naive_solver. Qed.

Lemma tracked_take w sv hp p : tracked [] p → tracked [] (take_turn w sv hp p).
Proof.
  intros HT. unfold take_turn. destruct (pop_workable sv hp (work_queue p)) as [[i|] q] eqn:Hpop; [|done].
  apply pop_workable_Permutation in Hpop.
  assert (tracked [] (with_queue q p)) as HT1.
  { eapply tracked_places; [..|exact HT]; [done|]. intros x. unfold all_places. simpl.
    rewrite Hpop. rewrite !elem_of_app, elem_of_cons. tauto. }
  repeat case_match; try done.
  - by apply tracked_resolve.
  - eapply tracked_places; [..|exact HT]; [done|]. intros x. unfold all_places. simpl.
    rewrite Hpop. rewrite !elem_of_app, !elem_of_cons, elem_of_nil. tauto.
  - eapply tracked_places; [..|exact HT]; [done|]. intros x. unfold all_places. simpl.
    rewrite Hpop. rewrite !elem_of_app, !elem_of_cons. tauto.
Qed.

Lemma tracked_in_flight p n w sv i :
  in_flight p !! n = Some (w, sv, i) → tracked [] p →
  tracked [i] (with_in_flight (delete n (in_flight p)) p).
Proof.
  intros Hn HT. eapply tracked_places; [..|exact HT]; [done|]. intros x. unfold all_places. simpl.
  apply delete_Permutation, (fmap_Permutation snd) in Hn. simpl in Hn. rewrite Hn.
  rewrite elem_of_cons, !elem_of_app, elem_of_cons. tauto.
Qed.

Lemma tracked_serial t sv i r p :
  serial_result r → Q (servers p) → tracked [i] p → tracked [] (finish_serial t sv i r p).
Proof.
  intros Hr HQ HT. unfold finish_serial. apply tracked_react; [| |done..].
  - intros s. destruct r as [[pr|[]]|]; simpl; eauto.
  - intros. by apply evolves_serial.
Qed.
Lemma tracked_pipelined t sv i r p :
  (∀ e, r = Ok (Err e) → decoder_error e) → Q (servers p) →
  tracked [i] p → tracked [] (finish_pipelined t sv i r p).
Proof.
  intros Hr HQ HT. unfold finish_pipelined.
  destruct (lookup_job p (job_id i)) as [c|]; [|by eapply tracked_weaken; [|exact HT]; set_solver].
  destruct (cancelled c).
  - apply tracked_resolve. by eapply tracked_weaken; [|exact HT]; set_solver.
  - apply tracked_react; [| |done..].
    + intros s. destruct r as [[pr|[]]|[]]; simpl; eauto.
    + intros. by apply evolves_pipelined.
Qed.
Lemma tracked_requeue w its p :
  its ≡ₚ (snd <$> filter (λ x, x.1.1 = w) (in_flight p)) →
  tracked [] p → tracked [] (requeue_worker w its p).
Proof.
  intros Hits HT. eapply tracked_places; [..|exact HT]; [done|]. intros x. unfold all_places. simpl.
  rewrite requeue_all_items, (reverse_Permutation its), Hits, !elem_of_app.
  assert (∀ P `{!∀ x, Decision (P x)}, x ∈ (snd <$> filter P (in_flight p)) → x ∈ (snd <$> in_flight p)) as Hin.
  { intros P ? (y & -> & Hy)%list_elem_of_fmap. apply list_elem_of_filter in Hy as [_ Hy].
    apply list_elem_of_fmap. by exists y. }
  intros [[H|H]|[H|H]]; try tauto; apply Hin in H; tauto.
Qed.

Lemma in_flight_transport sv its p : in_flight (foldl (transport_sent sv) p its) = in_flight p.
Proof.
  revert p. induction its as [|i its IH]; intros p; [done|]. simpl. rewrite IH.
  unfold transport_sent, with_job. by repeat case_match.
Qed.
Lemma tracked_transport sv its p : tracked [] p → tracked [] (foldl (transport_sent sv) p its).
Proof.
  revert p. induction its as [|i its IH]; intros p HT; [done|]. simpl. apply IH.
  unfold transport_sent. case_match; [|done]. by apply tracked_outcome.
Qed.

(** *** The operations on jobs *)
Lemma evolves_iter k n s : good k s → evolves k s (Nat.iter n resolve s).
Proof.
  intros Hg. induction n as [|n IH]; [done|]. simpl.
  eapply evolves_trans; [exact IH|]. apply evolves_resolve.
Qed.

Lemma tracked_abort p k reason : tracked [] p → tracked [] (abort_job k reason p).2.
Proof.
  intros HT. unfold abort_job. destruct (lookup_job p k) as [c|] eqn:Hl; [|done].
  apply lookup_job_Some in Hl as [_ Hc]. destruct (abort_reason c); [done|].
  destruct (drain_job k (work_queue p)) as [drained q] eqn:Hd. simpl.
  apply tracked_with_job.
  - intros c' _ s _ Hg. apply (evolves_trans k s (Nat.iter (length drained) resolve s));
      [by apply evolves_iter|]. intros Hg1.
    unfold on_ctx. case_decide; [by apply (evolves_emit k)|by apply evolves_same].
  - apply (tracked_places [] _ (with_contexts (<[k := with_cancelled true (with_abort (Some reason) c)]>
      (contexts p)) p)); [done| |].
    + intros x. unfold all_places. simpl. pose proof (drain_split k (work_queue p)) as Hs.
      rewrite Hd in Hs. simpl in Hs. rewrite Hs, !elem_of_app. tauto.
    + apply (tracked_update _ _ _ c (λ c, with_cancelled true (with_abort (Some reason) c))); [done| |done].
      split; [done|by left].
Qed.

Lemma tracked_cancel p k : tracked [] p → tracked [] (cancel_job k p).
Proof.
  intros HT. unfold cancel_job. destruct (lookup_job p k) as [c|] eqn:Hl; [|done].
  apply lookup_job_Some in Hl as [_ Hc].
  apply (tracked_places [] _ (with_contexts (<[k := with_cancelled true c]> (contexts p)) p)); [done| |].
  - intros x. unfold all_places. simpl. rewrite !elem_of_app, list_elem_of_filter. tauto.
  - apply (tracked_update _ _ _ c (with_cancelled true)); [done| |done]. split; [done|by left].
Qed.

Lemma tracked_pause p k b : tracked [] p →
  tracked [] (match lookup_job p k with
              | Some c => with_contexts (<[k := with_paused b c]> (contexts p)) p | None => p end).
Proof.
  intros HT. destruct (lookup_job p k) as [c|] eqn:Hl; [|done].
  apply lookup_job_Some in Hl as [_ Hc].
  apply (tracked_update _ _ _ c (with_paused b)); [done| |done]. split; [done|by left].
Qed.

Lemma servers_resolve_taken p i :
  servers (resolve_taken p i) = servers p ∧ server_health (resolve_taken p i) = server_health p.
Proof.
  unfold resolve_taken. repeat case_match; rewrite ?servers_with_job, ?health_with_job; done.
Qed.

Lemma tracked_resolve_taken i l p t :
  Q (servers p) → swept (servers p) t (server_health p) i →
  tracked (i :: l) p → tracked l (resolve_taken p i).
Proof.
  intros HQ Hsw HT. unfold resolve_taken.
  assert (tracked l p) as HT' by (eapply tracked_weaken; [|exact HT]; set_solver).
  destruct (lookup_job p (job_id i)) as [c|]; [|done].
  destruct (cancelled c); [by apply tracked_resolve|].
  apply tracked_handler; [|done]. intros s Hi Hg. apply evolves_fail_everywhere; [|done].
  intros Hj HO. eapply (tr_sweep TR); [exact HQ|by apply Hi|done|exact Hsw].
Qed.

Lemma tracked_supervise p t :
  Q (servers p) → tracked [] p → tracked [] (resolve_items_not_waiting_on_required_providers t p).
Proof.
  intros HQ HT. unfold resolve_items_not_waiting_on_required_providers.
  destruct (existsb _ _) eqn:Hex; [|done]. unfold take_where.
  set (P := λ i, negb (bool_decide (provider_outcomes i = ∅)) &&
    all_enabled_providers_definitive t (servers p) (server_health p) (provider_outcomes i)).
  set (q := {| items := filter (λ i, P i ≠ true) (items (work_queue p)); last_served := last_served (work_queue p) |}).
  assert (Forall (swept (servers (with_queue q p)) t (server_health (with_queue q p)))
    (filter (λ i, P i = true) (items (work_queue p)))) as Hsw.
  { apply Forall_forall. intros i Hi. apply list_elem_of_filter in Hi as [Hi _].
    unfold P in Hi. apply andb_true_iff in Hi as [Hn Hd]. apply negb_true_iff, bool_decide_eq_false in Hn.
    by split_and!. }
  assert (tracked (filter (λ i, P i = true) (items (work_queue p))) (with_queue q p)) as HT1.
  { eapply tracked_places; [..|exact HT]; [done|]. intros x. unfold all_places, q. simpl.
    rewrite !elem_of_app, !list_elem_of_filter. tauto. }
  change (tracked [] (foldl resolve_taken (with_queue q p) (filter (λ i, P i = true) (items (work_queue p))))).
  assert (Q (servers (with_queue q p))) as HQ1 by done. clear HT HQ Hex.
  revert HQ1 Hsw HT1. generalize (filter (λ i, P i = true) (items (work_queue p))) as taken.
  generalize (with_queue q p) as p1. intros p1 taken. revert p1.
  induction taken as [|i taken IH]; intros p1 HQ Hsw HT; simpl; [done|].
  apply Forall_cons in Hsw as [Hi Hsw]. destruct (servers_resolve_taken p1 i) as [H1 H2].
  apply IH; rewrite ?H1, ?H2; try done. by eapply tracked_resolve_taken.
Qed.

(** *** Submission *)
(** A new context [c] for the job [k]; none of its items is out. *)
Lemma tracked_new p p' k c :
  contexts p' = <[k := c]> (contexts p) →
  (∀ i, i ∈ all_places p' → job_id i ≠ k → i ∈ all_places p) →
  good_ctx k c (all_places p') → tracked [] p → tracked [] p'.
Proof.
  intros Hc Hp Hg HT k' c' Hk'. rewrite Hc in Hk'. destruct (decide (k' = k)) as [->|Hne].
  - rewrite lookup_insert_eq in Hk'. by injection Hk' as <-.
  - rewrite lookup_insert_ne in Hk' by done. destruct (HT _ _ Hk') as [Hown Hold].
    split; [done|]. intros ->. destruct (Hold eq_refl) as (HO & HI & HB). split_and!; [done..|].
    intros i Hi Hj. apply HB; [|done]. apply Hp; [done|congruence].
Qed.

Definition starts (k : string) (its : list WorkItem) (p : Pool SL) : Prop :=
  Forall (λ i, job_id i = k) its ∧
  (k = j → O [] ∧ Forall (I []) its ∧ ∀ i, i ∈ all_places p → job_id i ≠ j).

(** The context [c] of the new job [k], [nowi] of whose items are not held. *)
Lemma starts_good k its p c nowi pl :
  starts k its p → sent c = [] → its ≡ₚ nowi ++ held_items_of c →
  (held (held_volumes c) ≠ [] → has_queue (held_volumes c) = true) →
  (∀ i, i ∈ pl → i ∈ nowi ∨ i ∈ all_places p) →
  good_ctx k c pl.
Proof.
  intros [Hjob Hst] Hs Hits Hq Hpl. rewrite Hits, Forall_app in Hjob. split; [by split; [apply Hjob|]|].
  intros Hk. destruct (Hst Hk) as (HO & HI & Hno). rewrite Hs. rewrite Hits, Forall_app in HI.
  split_and!; [done|by apply HI|]. intros i Hi Hj. destruct (Hpl i Hi) as [Hn|Hp].
  - destruct HI as [HI _]. by eapply Forall_forall in HI.
  - by destruct (Hno i Hp).
Qed.

(** The context after a handler ran on the new job. *)
Lemma evolves_new k its p s s' :
  starts k its p → evolves k s s' → (∀ i, i ∈ body s → i ∈ all_places p) →
  let pl := items (jqueue s') ++ jsleeping s' ++ (snd <$> in_flight p) in
  (∀ i, i ∈ pl → job_id i ≠ k → i ∈ all_places p) ∧ good_ctx k (jctx s') pl.
Proof.
  intros [_ Hst] (Hg & _ & Hb) Hbody. rewrite (assoc_L (++)). fold (body s').
  assert (∀ i, i ∈ (snd <$> in_flight p) → i ∈ all_places p) as Hfl.
  { intros i Hi. unfold all_places. rewrite !elem_of_app. tauto. }
  split.
  - intros i Hi Hne. apply elem_of_app in Hi as [Hi|Hi]; auto.
  - destruct Hg as [Hown Hg]. split; [done|]. intros Hk. destruct (Hg Hk) as (HO & HI & HB).
    split_and!; [done..|]. intros i Hi Hj. apply elem_of_app in Hi as [Hi|Hi]; [by apply HB|].
    destruct (Hst Hk) as (_ & _ & Hno). by destruct (Hno i (Hfl i Hi)).
Qed.

Lemma tracked_submit_tail p t k c its nowi :
  starts k its p → sent c = [] → its ≡ₚ nowi ++ held_items_of c →
  (held (held_volumes c) ≠ [] → has_queue (held_volumes c) = true) → tracked [] p →
  tracked []
    (let p := with_registered ({[k]} ∪ registered p) p in
     match nowi with
     | [] =>
       let '(more, c, q) := release_held true c (work_queue p) in
       let c := if more : bool then c else emit_terminal c in
       with_queue q (with_contexts (<[k := c]> (contexts p)) p)
     | _ =>
       report_provider_outage t
         (with_queue (submit_items nowi (work_queue p))
            (with_contexts (<[k := c]> (contexts p)) p))
     end).
Proof.
  intros Hst Hs Hits Hq HT. cbv zeta. simpl.
  destruct nowi as [|i0 nowi0] eqn:Hn.
  - set (s := {| jctx := c; jqueue := work_queue p; jsleeping := sleeping p |}).
    assert (∀ i, i ∈ body s → i ∈ all_places p) as Hb.
    { intros i. unfold body, all_places. simpl. rewrite !elem_of_app. tauto. }
    assert (good k s) as Hg by (eapply starts_good; [exact Hst|done..|]; intros i Hi; right; by apply Hb).
    pose proof (evolves_release true k s Hg) as He. simpl in He.
    destruct (release_held true c (work_queue p)) as [[more c1] q1].
    set (s1 := {| jctx := c1; jqueue := q1; jsleeping := sleeping p |}) in *.
    assert (evolves k s {| jctx := if more then c1 else emit_terminal c1; jqueue := q1;
      jsleeping := sleeping p |}) as He'.
    { eapply evolves_trans; [exact He|]. intros Hg1. destruct more; [done|]. by apply (evolves_emit k s1). }
    destruct (evolves_new k its p _ _ Hst He' Hb) as [H1 H2].
    by eapply (tracked_new p _ k); [done|exact H1|exact H2|].
  - rewrite <-Hn in *. apply tracked_outage. eapply (tracked_new p _ k); [done| | |done].
    + intros i Hi Hne. unfold all_places in *. simpl in Hi.
      rewrite sort_by_key_Permutation, !elem_of_app in Hi. rewrite !elem_of_app.
      destruct Hst as [Hjob _]. rewrite Hits, Forall_app in Hjob. destruct Hjob as [Hjob _].
      destruct Hi as [[Hi|Hi]|Hi]; [tauto| |tauto]. eapply Forall_forall in Hjob; [|exact Hi]. done.
    + eapply starts_good; [exact Hst|done..|]. intros i. unfold all_places. simpl.
      rewrite sort_by_key_Permutation, !elem_of_app. tauto.
Qed.

Lemma tracked_submit p iv t k c its :
  (∀ l, iv l ≡ₚ l) → held_volumes c = no_held → sent c = [] → starts k its p →
  tracked [] p → tracked [] (submit_job iv t k c its p).
Proof.
  intros Hiv Hheld Hs Hst HT.
  assert (held_items_of c = []) as Hnil by (unfold held_items_of; by rewrite Hheld).
  unfold submit_job. destruct its as [|i0 its0] eqn:Hits.
  { eapply (tracked_new p _ k); [done|done| |done].
    assert (good k {| jctx := c; jqueue := work_queue p; jsleeping := sleeping p |}) as Hg.
    { apply (starts_good k [] p c []); [exact Hst|done|by rewrite Hnil|by rewrite Hheld|].
      intros i. unfold body, all_places. simpl. rewrite !elem_of_app. tauto. }
    apply evolves_emit in Hg. apply (evolves_new k [] p _ _ Hst) in Hg as [_ Hg]; [exact Hg|].
    intros i. unfold body, all_places. simpl. rewrite !elem_of_app. tauto. }
  rewrite <-Hits in *.
  destruct (defer_par2_volumes (with_registered ({[k]} ∪ registered p) p) && _).
  - destruct (hold iv its (par2_volumes c) (held_volumes c)) as [nowi h] eqn:Hh.
    pose proof (hold_items _ _ _ _ _ _ Hiv Hh) as Hperm.
    assert (has_queue h = true) as Hhq.
    { unfold hold in Hh. destruct (split_items _ _ _). by injection Hh as <- <-. }
    by apply (tracked_submit_tail p t k _ its nowi).
  - apply (tracked_submit_tail p t k c its its); [done|done| |by rewrite Hheld|done].
    by rewrite Hnil, app_nil_r.
Qed.
(** *** Every step *)
Lemma tracked_step p p' :
  Q (servers p) → (is_Some (contexts p' !! j) → is_Some (contexts p !! j)) →
  step p p' → tracked [] p → tracked [] p'.
Proof.
  intros HQ Hj Hst HT.
  destruct Hst as [p iv t k files sl ids Hnone Hiv sub Hlen|p w sv hp|p t n w sv i r Hn Hr Hcan
    |p t n w sv i r Hn Hdec|p w its Hits|p w sv its Hits|p n i Hn|p k reason|p k|p k|p k|p k Hfin
    |p t|p sv|p t sv b|p t|p ss].
  - apply tracked_submit; try done. split; [apply work_items_job|]. intros ->.
    destruct Hj as [c Hc]; [apply submit_context|]. congruence.
  - by apply tracked_take.
  - apply tracked_serial; [done..|]. by eapply tracked_in_flight.
  - apply tracked_pipelined; [done..|]. by eapply tracked_in_flight.
  - by apply tracked_requeue.
  - apply tracked_requeue; [by rewrite in_flight_transport|]. by apply tracked_transport.
  - eapply tracked_places; [..|exact HT]; [done|]. intros x. unfold all_places. simpl.
    apply delete_Permutation in Hn. rewrite Hn at 2. rewrite !elem_of_cons, !elem_of_app, elem_of_cons. tauto.
  - by apply tracked_abort.
  - by apply tracked_cancel.
  - by apply (tracked_pause _ _ true).
  - by apply (tracked_pause _ _ false).
  - by eapply tracked_places; [..|exact HT].
  - by apply tracked_supervise.
  - apply (tracked_contexts _ (with_servers (servers p) _ p)).
    + intros k c. case_decide; [apply told_available|by split; [|left]].
    + by eapply tracked_places; [..|exact HT].
  - by eapply tracked_places; [..|exact HT].
  - by apply tracked_outage.
  - by eapply tracked_places; [..|exact HT].
Qed.

Lemma tracked_steps p p' :
  rtc (λ p p', Q (servers p) ∧ step p p') p p' →
  is_Some (contexts p !! j) → tracked [] p → tracked [] p' ∧ is_Some (contexts p' !! j).
Proof.
  induction 1 as [p|p p1 p' [HQ Hst] _ IH]; intros Hj HT; [done|].
  apply IH; [by eapply step_keeps|by apply (tracked_step p)].
Qed.
End tracked.

(** What holds of a job's waiting items and updates from its submission on,
    while the servers stay as [Q] says. *)
Section reachable.
Context {SL : Type} `{JSL : JobSlices SL} `{!JobSlicesLaws SL}.

Lemma trivially_tracking : tracking (λ _ _, True) (λ _, True) (λ _, True) (λ _ _ _ _, True).
Proof. by split. Qed.

Lemma own_reachable j ss defer (p : Pool SL) :
  rtc step (empty_pool ss defer) p → contexts p !! j = None →
  tracked j (λ _ _, True) (λ _, True) [] p.
Proof.
  intros Hst. remember (empty_pool ss defer) as p0 eqn:Hp0.
  assert (tracked j (λ _ _, True) (λ _, True) [] p0) as HT by (by intros k c Hk; subst).
  clear Hp0. revert HT. induction Hst as [p|p p1 p' Hst Hrest IH]; intros HT Hnone; [done|].
  apply IH; [|done]. eapply (tracked_step j _ _ (λ _, True) _ trivially_tracking); [done| |done|done].
  intros Hsome. exfalso. assert (is_Some (contexts p' !! j)) as [c Hc]; [|congruence].
  clear -Hrest Hsome. induction Hrest; [done|]. apply IHHrest. by eapply step_keeps.
Qed.

Lemma tracked_reachable j I O Q A ss defer p0 iv t files (sl : SL) ids p :
  tracking I O Q A →
  rtc step (empty_pool ss defer) p0 → contexts p0 !! j = None → (∀ l, iv l ≡ₚ l) →
  let sub := build_job_submission j files sl ids in
  O [] → Forall (I []) sub.2 →
  rtc (λ p p', Q (servers p) ∧ step p p') (submit_job iv t j sub.1 sub.2 p0) p →
  tracked j I O [] p ∧ is_Some (contexts p !! j).
Proof.
  intros TR H0 Hnone Hiv sub HO HI Hst.
  destruct (reachable_ok ∅ _ _ (empty_pool_ok ss defer) H0) as (subs0 & Hok0 & _).
  eapply tracked_steps; [exact TR|exact Hst|apply submit_context|].
  apply (tracked_submit j I O Q A TR); [done..| |].
  - split; [apply work_items_job|]. intros _. split_and!; [done..|]. intros i Hi Hij.
    specialize (Hok0 j). rewrite Hnone in Hok0. simpl in Hok0.
    assert (i ∈ of_job j (all_places p0)) as Hin by (by apply list_elem_of_filter).
    rewrite Hok0 in Hin. by apply not_elem_of_nil in Hin.
  - intros k c Hk. destruct (own_reachable j ss defer p0 H0 Hnone k c Hk) as [Hown _].
    split; [done|]. intros ->. congruence.
Qed.
End reachable.

(** ** When every required server has answered *)
Lemma definitive_iff t ss health outcomes :
  all_enabled_providers_definitive t ss health outcomes = true ↔
  ∀ cfg, cfg ∈ ss → enabled cfg = true →
    (optional cfg = true → unavailable t health (server cfg) = false) →
    is_Some (outcomes !! server cfg).
Proof.
  unfold all_enabled_providers_definitive. rewrite forallb_forall. split.
  - intros Hall cfg Hin He Ho. specialize (Hall cfg). rewrite bool_decide_eq_true in Hall. apply Hall.
    apply list_elem_of_In, list_elem_of_filter. split; [|by apply list_elem_of_filter].
    intros [H1 H2]. apply Ho in H1. congruence.
  - intros Hall cfg Hin. apply list_elem_of_In, list_elem_of_filter in Hin as [Ho Hin].
    apply list_elem_of_filter in Hin as [He Hin]. apply bool_decide_eq_true, Hall; [done..|].
    intros H1. apply not_true_is_false. intros H2. by apply Ho.
Qed.

Definition required (s : string) (ss : list ServerConfig) : Prop :=
  ∃ cfg, cfg ∈ ss ∧ server cfg = s ∧ enabled cfg = true ∧ optional cfg = false.
Definition none_optional (ss : list ServerConfig) : Prop :=
  ∀ cfg, cfg ∈ ss → enabled cfg = true → optional cfg = false.

Lemma definitive_required t ss health outcomes s :
  required s ss → all_enabled_providers_definitive t ss health outcomes = true →
  is_Some (outcomes !! s).
Proof.
  intros (cfg & Hin & <- & He & Ho) Hd. eapply definitive_iff in Hd; [exact Hd|done..|congruence].
Qed.

Lemma all_not_found_lookup outcomes s :
  all_not_found outcomes = true → is_Some (outcomes !! s) →
  outcomes !! s = Some ArticleFailureKind.NotFound.
Proof.
  intros Hn [k Hk]. apply bool_decide_eq_true in Hn. specialize (Hn _ _ Hk). simpl in Hn. by subst.
Qed.

(** How often server [s] has refused the segment. *)
Definition is_refusal (s f : string) (seg : N) (u : ProgressUpdate) : bool :=
  match u with
  | ArticleOutcome f' seg' _ (Refused s') => bool_decide (f' = f ∧ seg' = seg ∧ s' = s)
  | _ => false
  end.
Definition refusals (s f : string) (seg : N) (l : list ProgressUpdate) : nat :=
  count_of (is_refusal s f seg) l.

Lemma refusals_snoc s f seg l u :
  refusals s f seg (l ++ [u]) = refusals s f seg l + (if is_refusal s f seg u then 1 else 0).
Proof. unfold refusals. by rewrite count_of_app, count_of_one. Qed.

Section refused.
Variables (s : string) (strict : bool).
Definition asks (ss : list ServerConfig) : Prop := required s ss ∧ (strict = true → none_optional ss).
Definition enough : nat := if strict then 3 else 1.

(** The refusals by [s] that an item accounts for. *)
Definition refused (i : WorkItem) : nat :=
  N.to_nat (confirm_rounds i) +
  (if decide (provider_outcomes i !! s = Some ArticleFailureKind.NotFound) then 1 else 0).
Definition asked (l : list ProgressUpdate) (i : WorkItem) : Prop :=
  refused i ≤ refusals s (file_id i) (segment_number i) l ∧ (confirm_rounds i ≤ 2)%N.
Definition answered (l : list ProgressUpdate) (sv : string) (k : FailureKind) (i : WorkItem) : Prop :=
  asked l i ∧ (k = ArticleFailureKind.NotFound → sv = s →
    N.to_nat (confirm_rounds i) < refusals s (file_id i) (segment_number i) l).
Definition failures_refused (l : list ProgressUpdate) : Prop :=
  ∀ f seg fl, ArticleFailed f seg fl ∈ l → kind fl = ArticleFailureKind.NotFound →
    enough ≤ refusals s f seg l.

Lemma asked_mono l u i : asked l i → asked (l ++ [u]) i.
Proof. intros [H ?]. split; [|done]. rewrite refusals_snoc. lia. Qed.

Lemma failures_snoc l u :
  (∀ f seg fl, u = ArticleFailed f seg fl → kind fl = ArticleFailureKind.NotFound →
     enough ≤ refusals s f seg l) →
  failures_refused l → failures_refused (l ++ [u]).
Proof.
  intros Hu Hl f seg fl Hin Hk. rewrite refusals_snoc.
  apply elem_of_app in Hin as [Hin|Hin%list_elem_of_singleton].
  - specialize (Hl _ _ _ Hin Hk). lia.
  - specialize (Hu _ _ _ (eq_sym Hin) Hk). lia.
Qed.

Lemma final_snoc l i sv :
  (all_not_found (provider_outcomes i) = true →
     enough ≤ refusals s (file_id i) (segment_number i) l) →
  failures_refused l → failures_refused (l ++ [final_failure sv i]).
Proof.
  intros Hi. apply failures_snoc. intros f seg fl Hu Hk. unfold final_failure in Hu.
  destruct (all_not_found _); injection Hu as <- <- <-; [by apply Hi|done].
Qed.

Lemma mark_tried_refused l sv k i :
  answered l sv k i → refused (mark_tried sv k i) ≤ refusals s (file_id i) (segment_number i) l.
Proof.
  intros [[Ha _] Hk]. unfold refused in *. simpl. destruct (decide (sv = s)) as [->|Hne].
  - rewrite lookup_insert_eq. destruct (decide (Some k = _)) as [Heq|]; [|lia].
    injection Heq as ->. specialize (Hk eq_refl eq_refl). lia.
  - by rewrite lookup_insert_ne.
Qed.

Lemma refused_tracking : tracking asked failures_refused asks answered.
Proof.
  split.
  - apply asked_mono.
  - intros l u Hu. apply failures_snoc. by intros f seg fl ->.
  - intros l i sv. apply failures_snoc. by intros f seg fl [= _ _ <-].
  - done.
  - intros l i sv Ha. split; [by apply asked_mono|]. intros _ ->. rewrite refusals_snoc. simpl.
    rewrite bool_decide_eq_true_2 by done. destruct Ha as [Ha _]. unfold refused in Ha. lia.
  - intros l i sv k Ha Hk. by split.
  - intros l i e sv k [Hreq _] Ha Hd Hn Hr.
    pose proof (definitive_required _ _ _ _ _ Hreq Hd) as Hsome.
    apply all_not_found_lookup in Hsome; [|done].
    pose proof (mark_tried_refused _ _ _ _ Ha) as Hm. unfold refused in Hm. rewrite decide_True in Hm by done.
    unfold asked, refused, CONFIRM_ASKS_PER_SERVER in *. simpl in *.
    rewrite u32_add_small by lia. split; [|lia]. rewrite lookup_empty.
    rewrite decide_False by done. lia.
  - intros l i e sv k [Hreq _] Ha HO Hd Hr. apply final_snoc; [|done]. intros Hn.
    pose proof (definitive_required _ _ _ _ _ Hreq Hd) as Hsome.
    apply all_not_found_lookup in Hsome; [|done].
    pose proof (mark_tried_refused _ _ _ _ Ha) as Hm. unfold refused in Hm. rewrite decide_True in Hm by done.
    unfold CONFIRM_ASKS_PER_SERVER in *. simpl in *.
    destruct Hr as [Hr|Hr]; [congruence|]. unfold enough. case_match; lia.
  - intros l i e sv k _ Ha _. split; [by apply (mark_tried_refused l sv k i)|apply Ha].
  - intros l i ss t h sv [Hreq Hstrict] [Ha _] HO (Hopt & _ & Hd). apply final_snoc; [|done]. intros Hn.
    pose proof (definitive_required _ _ _ _ _ Hreq Hd) as Hsome.
    apply all_not_found_lookup in Hsome; [|done]. unfold refused in *.
    rewrite decide_True in Ha by done. unfold enough. case_match eqn:Hs; [|lia].
    apply existsb_exists in Hopt as (cfg & Hin & Hc). apply list_elem_of_In in Hin.
    apply andb_true_iff in Hc as [[He Ho]%andb_true_iff _].
    rewrite (Hstrict eq_refl cfg Hin He) in Ho. done.
Qed.
End refused.

(** ** An article always has a server left *)
Section eligible.
Variable ss : list ServerConfig.

Definition untried (i : WorkItem) (cfg : ServerConfig) : Prop :=
  enabled cfg = true ∧ server cfg ∉ tried_servers i.
#[export] Instance untried_dec i cfg : Decision (untried i cfg).
Proof. unfold untried. apply _. Defined.
Definition answers_kept (_ : list ProgressUpdate) (i : WorkItem) : Prop :=
  (∀ s, s ∈ tried_servers i → is_Some (provider_outcomes i !! s)) ∧ ∃ cfg, cfg ∈ ss ∧ untried i cfg.

Lemma mark_tried_elem s sv k i :
  s ∈ tried_servers (mark_tried sv k i) → s = sv ∨ s ∈ tried_servers i.
Proof.
  simpl. case_decide; [by right|]. rewrite elem_of_app, list_elem_of_singleton. tauto.
Qed.

Lemma eligible_tracking :
  (∃ cfg, cfg ∈ ss ∧ enabled cfg = true) →
  tracking answers_kept (λ _, True) (λ ss', ss' = ss) (λ l _ _ i, answers_kept l i).
Proof.
  intros (cfg & Hcfg & He). split; try done.
  - intros l i e sv k _ _ _ _ _. split; simpl; [by intros s Hs%not_elem_of_nil|].
    exists cfg. split; [done|]. split; [done|]. simpl. apply not_elem_of_nil.
  - intros l i e sv k -> [Hk _] Hd.
    assert (∀ s, s ∈ tried_servers (mark_tried sv k i) →
      is_Some (provider_outcomes (mark_tried sv k i) !! s)) as Hk'.
    { intros s Hs. apply lookup_insert_is_Some'. apply mark_tried_elem in Hs as [->|Hs]; [by left|].
      right. by apply Hk. }
    split; [done|]. apply Exists_exists, dec_stable. rewrite Exists_exists. intros Hno. apply not_true_iff_false in Hd. apply Hd.
    apply definitive_iff. intros cfg' Hin' He' _. apply Hk'. apply dec_stable. intros Hs.
    apply Hno. by exists cfg'.
Qed.

Lemma exists_least {B} (f : B → N) (l : list B) (P : B → Prop) `{!∀ x, Decision (P x)} :
  (∃ x, x ∈ l ∧ P x) → ∃ x, x ∈ l ∧ P x ∧ ∀ y, y ∈ l → P y → (f x ≤ f y)%N.
Proof.
  induction l as [|a l IH]; [by intros (x & ?%not_elem_of_nil & _)|]. intros (x & Hx & HPx).
  destruct (decide (Exists P l)) as [Hl|Hl]; rewrite Exists_exists in Hl.
  - destruct (IH Hl) as (y & Hy & HPy & Hmin).
    destruct (decide (P a ∧ (f a < f y)%N)) as [[Ha Hlt]|Hn].
    + exists a. split_and!; [by left|done|]. intros z [->|Hz]%elem_of_cons HPz; [done|].
      specialize (Hmin z Hz HPz). lia.
    + exists y. split_and!; [by right|done|]. intros z [->|Hz]%elem_of_cons HPz; [|by apply Hmin].
      destruct (decide (f a < f y)%N); [by destruct Hn|lia].
  - assert (x = a) as -> by (apply elem_of_cons in Hx as [|Hx]; [done|]; destruct Hl; eauto).
    exists a. split_and!; [by left|done|]. intros z [->|Hz]%elem_of_cons HPz; [done|].
    destruct Hl; eauto.
Qed.

(** The untried server of least priority number may take the item. *)
Lemma untried_eligible i :
  (∃ cfg, cfg ∈ ss ∧ untried i cfg) →
  ∃ cfg, cfg ∈ ss ∧ enabled cfg = true ∧ ∀ t health,
    is_eligible (server cfg)
      (higher_priority_servers t ss health (priority cfg) (server cfg)) i = true.
Proof.
  intros Hex. unfold untried in Hex.
  destruct (exists_least priority ss (λ cfg, enabled cfg = true ∧ server cfg ∉ tried_servers i) Hex)
    as (cfg & Hin & [He Hun] & Hmin).
  exists cfg. split_and!; [done..|]. intros t health. apply is_eligible_spec. split; [done|].
  intros h Hh. apply list_elem_of_fmap in Hh as (c & -> & Hc).
  apply list_elem_of_filter in Hc as [_ Hc]. apply list_elem_of_filter in Hc as [(Hce & Hlt & _) Hc].
  apply dec_stable. intros Hn. specialize (Hmin c Hc (conj Hce Hn)). lia.
Qed.
End eligible.

(** ** The answers an article can still be given

    An answer that is counted against the article moves it to the next try, the
    next server or the next round of questions. *)
Definition untried_servers (ss : list ServerConfig) (i : WorkItem) : nat :=
  length (filter (untried i) ss).
Definition enabled_servers (ss : list ServerConfig) : nat :=
  length (filter (λ cfg, enabled cfg = true) ss).
Definition attempts_left (ss : list ServerConfig) (i : WorkItem) : nat :=
  (N.to_nat (CONFIRM_ASKS_PER_SERVER - confirm_rounds i) * S (enabled_servers ss) + untried_servers ss i)
    * 14 +
  N.to_nat (MAX_TRIES_PER_SERVER - tries_on_current i) +
  N.to_nat (MAX_OUTAGE_TRIES_PER_SERVER - outage_tries i).

(** The answers that count: not a lost connection, and not a provider that
    cannot serve anybody. *)
Definition counted_serial (r : option (result Placement.ArticleError Placement.ProcessResult)) : Prop :=
  match r with
  | Some (Err (Placement.ConnectionLost | Placement.ProviderUnavailable _ | Placement.Cancelled)) => False
  | _ => True
  end.
Definition counted_pipelined
    (r : result NntpError (result Placement.ArticleError Placement.ProcessResult)) : Prop :=
  match r with
  | Ok (Err er) => decoder_error er
  | Err (Connection _ | Io _ | ServiceUnavailable _ | Auth _ | AuthRequired _ | PermissionDenied _) => False
  | _ => True
  end.
Definition counted_reaction {SL} `{JobSlices SL} (sv : string) (i : WorkItem) (rc : Reaction SL) : Prop :=
  (∃ r, counted_serial r ∧ rc = serial_reaction sv i r) ∨
  (∃ r, counted_pipelined r ∧ rc = pipelined_reaction sv i r).

Section attempts.
Context {SL : Type} `{JSL : JobSlices SL}.
Implicit Types (s : JobSt SL).

(** The item goes on as [i'], in the queue or asleep, or it is settled. *)
Definition goes_on (s s' : JobSt SL) (i' : WorkItem) : Prop :=
  body s' ≡ₚ i' :: body s ∧ omap settled_key (sent (jctx s')) = omap settled_key (sent (jctx s)).
Definition settled_in (s s' : JobSt SL) (i : WorkItem) : Prop :=
  key i ∈ omap settled_key (sent (jctx s')).

Lemma untried_le ss i : untried_servers ss i ≤ enabled_servers ss.
Proof.
  unfold untried_servers, enabled_servers. induction ss as [|cfg ss IH]; [done|].
  rewrite !filter_cons.
  destruct (decide (untried i cfg)) as [[He Hn]|Hn]; [rewrite decide_True by done; simpl; lia|].
  case_decide; simpl; lia.
Qed.

Lemma untried_mark ss sv k i :
  (∃ cfg, cfg ∈ ss ∧ untried i cfg ∧ server cfg = sv) →
  untried_servers ss (mark_tried sv k i) < untried_servers ss i.
Proof.
  intros (cfg & Hin & Hun & Hsv). unfold untried_servers.
  assert (∀ l, length (filter (untried (mark_tried sv k i)) l) ≤ length (filter (untried i) l)) as Hle.
  { induction l as [|c l IH]; [done|]. rewrite !filter_cons.
    destruct (decide (untried (mark_tried sv k i) c)) as [[He Hn]|].
    - rewrite decide_True; [simpl; lia|]. split; [done|]. intros Ht. apply Hn. simpl.
      case_decide; [done|]. rewrite elem_of_app. by left.
    - case_decide; simpl; lia. }
  apply list_elem_of_split in Hin as (l1 & l2 & ->). rewrite !filter_app, !length_app, !filter_cons.
  rewrite decide_False, decide_True; [|done|].
  - specialize (Hle l1) as H1. specialize (Hle l2) as H2. simpl. lia.
  - intros [_ Hn]. apply Hn. rewrite Hsv. simpl. case_decide; [done|].
    rewrite elem_of_app, list_elem_of_singleton. by right.
Qed.
(** *** Settling *)
Lemma release_sent b (c : JobContext SL) q : sent (release_held b c q).1.2 = sent c.
Proof.
  unfold release_held. case_match; [done|]. destruct (decide_release b c) as [[r h] sl].
  by destruct r.
Qed.
Lemma emit_sent (c : JobContext SL) : sent c `prefix_of` sent (emit_terminal c).
Proof.
  unfold emit_terminal. case_match; [done|]. case_match; simpl; [by eexists|].
  destruct (summary _). simpl. by eexists.
Qed.
Lemma resolve_sent s : sent (jctx s) `prefix_of` sent (jctx (resolve s)).
Proof.
  unfold resolve, resolve_one. pose proof (release_sent false (jctx s) (jqueue s)) as H1.
  destruct (release_held false _ _) as [[r1 c1] q1]. simpl in H1. rewrite <-H1.
  case_decide; [done|].
  pose proof (release_sent true (with_remaining (usize_sub (articles_remaining c1) 1) c1) q1) as H2.
  destruct (release_held true _ _) as [[r2 c2] q2]. simpl in H2. rewrite <-H2.
  destruct r2; [done|]. apply emit_sent.
Qed.

Lemma settled_resolve s s' i u :
  u ∈ sent (jctx s) → settled_key u = Some (key i) → settled_in s' (resolve s) i.
Proof.
  intros Hu Hk. apply list_elem_of_omap. exists u. split; [|done].
  destruct (resolve_sent s) as [l ->]. rewrite elem_of_app. by left.
Qed.
Lemma settled_failed s s' i f : settled_in s' (send_failed i f s) i.
Proof.
  eapply (settled_resolve _ _ _ (ArticleFailed (file_id i) (segment_number i) f)); [|done]. simpl. rewrite elem_of_app, list_elem_of_singleton. by right.
Qed.
Lemma settled_complete s s' sv i pr : settled_in s' (complete_article sv i pr s) i.
Proof.
  eapply (settled_resolve _ _ _ (ArticleComplete (file_id i) (segment_number i)
    (Placement.decoded_bytes pr) (Placement.file_complete pr) sv)); [|done]. simpl. rewrite elem_of_app, list_elem_of_singleton. by right.
Qed.

(** *** Going on *)
Definition rounds_left (ss : list ServerConfig) (i : WorkItem) : nat :=
  N.to_nat (CONFIRM_ASKS_PER_SERVER - confirm_rounds i) * S (enabled_servers ss) + untried_servers ss i.
Definition in_range (i : WorkItem) : Prop :=
  (tries_on_current i ≤ 2)%N ∧ (outage_tries i ≤ 9 + tries_on_current i)%N.
Definition advances (ss : list ServerConfig) (s s' : JobSt SL) (i : WorkItem) (m : nat) : Prop :=
  settled_in s s' i ∨
  ∃ i', goes_on s s' i' ∧ key i' = key i ∧ job_id i' = job_id i ∧ in_range i' ∧
    attempts_left ss i' < m.

Definition may_answer (ss : list ServerConfig) (sv : string) (i : WorkItem) : Prop :=
  ∃ cfg, cfg ∈ ss ∧ untried i cfg ∧ server cfg = sv.

Lemma attempts_fresh ss i :
  tries_on_current i = 0%N → outage_tries i = 0%N → attempts_left ss i = rounds_left ss i * 14 + 13.
Proof. intros Ht Ho. unfold attempts_left, rounds_left, MAX_TRIES_PER_SERVER, MAX_OUTAGE_TRIES_PER_SERVER.
  rewrite Ht, Ho. lia. Qed.

Lemma not_available_advances ss e sv k i s m :
  env_servers e = ss → may_answer ss sv i → rounds_left ss i * 14 ≤ m →
  advances ss s (handle_article_not_available e sv k i s).2 i m.
Proof.
  intros He Hmay Hm. pose proof (untried_mark ss sv k i Hmay) as Hlt.
  unfold handle_article_not_available. cbv zeta.
  destruct (all_enabled_providers_definitive (now e) (env_servers e) (env_health e)
    (provider_outcomes (mark_tried sv k i))); cbn [andb].
  - destruct (all_not_found (provider_outcomes (mark_tried sv k i)) &&
      bool_decide (confirm_rounds (mark_tried sv k i) < CONFIRM_ASKS_PER_SERVER)%N) eqn:Hn; simpl.
    + apply andb_true_iff in Hn as [_ Hr]. apply bool_decide_eq_true in Hr. simpl in Hr.
      right. exists (start_confirm_round (mark_tried sv k i)). split; [split|split_and!]; try done.
      * unfold body. simpl. by rewrite <-Permutation_middle.
      * rewrite attempts_fresh by done.
        pose proof (untried_le ss (start_confirm_round (mark_tried sv k i))) as Hle.
        unfold rounds_left, CONFIRM_ASKS_PER_SERVER in *. simpl in *. rewrite u32_add_small by lia.
        replace (N.to_nat (2 - confirm_rounds i)) with (S (N.to_nat (2 - (confirm_rounds i + 1)))) in Hm by lia.
        simpl in Hm. nia.
    + left. exact (settled_failed _ s (mark_tried sv k i) _).
  - right. exists (mark_tried sv k i). split; [split|split_and!]; try done.
    rewrite attempts_fresh by done. unfold rounds_left in *. simpl in *. nia.
Qed.
Lemma untried_with_tries ss a b i : untried_servers ss (with_tries a b i) = untried_servers ss i.
Proof. done. Qed.
Lemma retry_advances ss e sv k i s m :
  env_servers e = ss → may_answer ss sv i → (tries_on_current i ≤ 2)%N →
  (outage_tries i ≤ 10 + tries_on_current i)%N → attempts_left ss i ≤ m →
  advances ss s (retry_or_fail_over e sv k i s).2 i m.
Proof.
  intros He Hmay Ht Ho Hm. unfold retry_or_fail_over. rewrite u32_add_small by lia.
  case_decide as Hlt; simpl in *.
  - right. exists (with_tries (tries_on_current i + 1) (outage_tries i) i).
    split; [split|split_and!]; try done.
    + unfold MAX_TRIES_PER_SERVER in *. split; simpl; lia.
    + unfold attempts_left, MAX_TRIES_PER_SERVER in *. rewrite untried_with_tries. simpl in *. lia.
  - assert (rounds_left ss i * 14 ≤ m) as Hm' by (unfold attempts_left, rounds_left in *; lia).
    by apply (not_available_advances ss e sv k (with_tries (tries_on_current i + 1) (outage_tries i) i) s m).
Qed.

(** The answer is first reported. *)
Lemma advances_reported ss s i o m s' :
  advances ss (send_outcome i o s) s' i m → advances ss s s' i m.
Proof.
  intros [H|(i' & [Hb Hs] & ? & ? & ? & ?)]; [by left|]. right. exists i'.
  split; [split|]; try done. rewrite Hs. simpl. by rewrite omap_app, app_nil_r.
Qed.

Lemma decode_failed_advances ss s i sv m :
  advances ss s (send_failed i (decode_error sv) (note_slices i false (send_outcome i Present s))) i m.
Proof. left. apply settled_failed. Qed.

Lemma serial_advances ss e sv i r s :
  env_servers e = ss → may_answer ss sv i → in_range i → counted_serial r →
  advances ss s (after (serial_reaction sv i r) e (before (serial_reaction sv i r) s)) i
    (attempts_left ss i).
Proof.
  intros He Hmay [Ht Ho] Hr. assert (rounds_left ss i * 14 ≤ attempts_left ss i) as Hm
    by (unfold attempts_left, rounds_left; lia).
  destruct r as [[pr|[]]|]; cbn [serial_reaction just before after];
    lazymatch type of Hr with counted_serial (Some (Err (Placement.ServerError _))) => idtac
    | _ => try (exfalso; exact Hr) end.
  - left. apply settled_complete.
  - eapply advances_reported, not_available_advances; [done..|exact Hm].
  - eapply advances_reported, retry_advances; [done..|lia|exact (le_n _)].
  - eapply advances_reported, not_available_advances; [done..|exact Hm].
  - apply decode_failed_advances.
  - apply decode_failed_advances.
  - eapply advances_reported, retry_advances; [done..|lia|exact (le_n _)].
Qed.

Lemma outage_advances ss e sv i err s :
  env_servers e = ss → may_answer ss sv i → in_range i →
  counted_pipelined (Err err) → (∀ m, err ≠ Wire.ArticleNotFound m) →
  advances ss s (after (pipelined_failure sv i err) e (before (pipelined_failure sv i err) s)) i
    (attempts_left ss i).
Proof.
  intros He Hmay [Ht Ho] Hr Hne. simpl. eapply advances_reported.
  rewrite bool_decide_eq_false_2 by (by destruct err; intros [|[|]]).
  case_bool_decide; [|by apply retry_advances; [..|lia|]].
  rewrite u32_add_small by lia. case_decide as Hlt; simpl in *.
  - right. exists (with_tries (tries_on_current i) (outage_tries i + 1) i).
    split; [split|split_and!]; try done.
    + unfold MAX_OUTAGE_TRIES_PER_SERVER in *. split; simpl; lia.
    + unfold attempts_left, MAX_OUTAGE_TRIES_PER_SERVER in *. rewrite untried_with_tries. simpl in *. lia.
  - apply (retry_advances ss e sv _ (with_tries (tries_on_current i) (outage_tries i + 1) i) _
      (attempts_left ss i)); try done; simpl; [lia|].
    unfold attempts_left. rewrite untried_with_tries. simpl. lia.
Qed.

Lemma pipelined_advances ss e sv i r s :
  env_servers e = ss → may_answer ss sv i → in_range i → counted_pipelined r →
  advances ss s (after (pipelined_reaction sv i r) e (before (pipelined_reaction sv i r) s)) i
    (attempts_left ss i).
Proof.
  intros He Hmay Hi Hr. assert (rounds_left ss i * 14 ≤ attempts_left ss i) as Hm
    by (unfold attempts_left, rounds_left; lia).
  destruct r as [[pr|er]|er].
  - cbn [pipelined_reaction just before after]. left. apply settled_complete.
  - destruct Hr as [->|[->| ->]]; cbn [pipelined_reaction just before after];
      [|apply decode_failed_advances..].
    eapply advances_reported, not_available_advances; [done..|exact Hm].
  - destruct er; try (exfalso; exact Hr); cbn [pipelined_reaction just before after];
      lazymatch goal with
      | |- context [pipelined_failure] => apply (outage_advances _ _ _ _ _ _ He Hmay Hi Hr); congruence
      | |- _ => eapply advances_reported, not_available_advances; [done..|exact Hm]
      end.
Qed.

Lemma counted_advances ss e sv i rc s :
  env_servers e = ss → may_answer ss sv i → in_range i → counted_reaction sv i rc →
  advances ss s (after rc e (before rc s)) i (attempts_left ss i).
Proof.
  intros He Hmay Hi [(r & Hr & ->)|(r & Hr & ->)];
    [by apply serial_advances|by apply pipelined_advances].
Qed.

(** One counted answer after which the item goes on as [i']. *)
Definition answered_once (ss : list ServerConfig) (i i' : WorkItem) : Prop :=
  ∃ e sv rc s, env_servers e = ss ∧ may_answer ss sv i ∧ counted_reaction sv i rc ∧
    (key i ∉ omap settled_key (sent (jctx s))) ∧ goes_on s (after rc e (before rc s)) i'.

Lemma answered_once_less ss i i' :
  in_range i → answered_once ss i i' → in_range i' ∧ attempts_left ss i' < attempts_left ss i.
Proof.
  intros Hi (e & sv & rc & s & He & Hmay & Hrc & Hnew & [Hb Hs]).
  destruct (counted_advances ss e sv i rc s He Hmay Hi Hrc) as [Hset|(x & [Hbx _] & _ & _ & Hx & Hlt)].
  - unfold settled_in in Hset. by rewrite Hs in Hset.
  - rewrite Hbx in Hb. rewrite !(Permutation_cons_append (body s)) in Hb.
    apply Permutation_app_inv_l, Permutation_singleton_inj in Hb. subst. done.
Qed.
End attempts.

(** ** Properties *)

(** C21. An article is reported missing only when it really was refused: if a
    required server [s] is configured throughout the job, an article of the job
    is reported as not found only after [s] has refused it, at least three
    times, once in the first round and in each of the two rounds of
    confirmation, when no enabled server is optional; at least once
    otherwise. *)
Theorem missing_only_if_refused {SL} `{JSL : JobSlices SL} `{!JobSlicesLaws SL}
    s strict ss defer p0 iv t j files (sl : SL) ids p c f seg fl :
  rtc step (empty_pool ss defer) p0 →
  contexts p0 !! j = None → (∀ l, iv l ≡ₚ l) →
  let sub := build_job_submission j files sl ids in
  rtc (λ p p', asks s strict (servers p) ∧ step p p') (submit_job iv t j sub.1 sub.2 p0) p →
  contexts p !! j = Some c →
  ArticleFailed f seg fl ∈ sent c → kind fl = ArticleFailureKind.NotFound →
  (if strict then 3 else 1) ≤ refusals s f seg (sent c).
Proof.
  intros H0 Hnone Hiv sub Hst Hc Hin Hk.
  destruct (tracked_reachable j _ _ _ _ ss defer p0 iv t files sl ids p
    (refused_tracking s strict) H0 Hnone Hiv) as [HT _]; [| |exact Hst|].
  - by intros f' seg' fl' ?%not_elem_of_nil.
  - apply Forall_forall. intros i Hi. unfold sub in Hi. simpl in Hi. unfold work_items in Hi.
    apply list_elem_of_bind in Hi as (file & Hi & _). apply list_elem_of_fmap in Hi as (a & -> & _).
    unfold asked, refused. simpl. rewrite lookup_empty. split; [|done]. simpl. lia.
  - destruct (HT _ _ Hc) as [_ Hg]. destruct (Hg eq_refl) as [HO _]. by apply (HO f seg fl).
Qed.

(** C22. No article is stranded of a job newly submitted, under an id the pool
    does not hold, with no server marked as tried by any of its articles ([persisted_try_strands] strands one that has such a
    mark): while the servers of the job stay as they are and one of them is
    enabled, every article of the job that waits has an enabled server which it
    has not tried and whose priority gate lets it through, whatever the health of
    the servers. *)
Theorem waiting_article_has_a_server {SL} `{JSL : JobSlices SL} `{!JobSlicesLaws SL}
    ss ss0 defer p0 iv t j files (sl : SL) ids p i :
  rtc step (empty_pool ss0 defer) p0 →
  contexts p0 !! j = None → (∀ l, iv l ≡ₚ l) →
  (∃ cfg, cfg ∈ ss ∧ enabled cfg = true) →
  Forall (λ a, a_tried a = []) (files ≫= f_articles) →
  let sub := build_job_submission j files sl ids in
  rtc (λ p p', servers p = ss ∧ step p p') (submit_job iv t j sub.1 sub.2 p0) p →
  i ∈ all_places p → job_id i = j →
  ∃ cfg, cfg ∈ ss ∧ enabled cfg = true ∧ ∀ now health,
    is_eligible (server cfg)
      (higher_priority_servers now ss health (priority cfg) (server cfg)) i = true.
Proof.
  intros H0 Hnone Hiv Hen Htried sub Hst Hi Hj.
  destruct (tracked_reachable j _ _ _ _ ss0 defer p0 iv t files sl ids p
    (eligible_tracking ss Hen) H0 Hnone Hiv) as [HT [c Hc]]; [done| |exact Hst|].
  - apply Forall_forall. intros x Hx. unfold sub in Hx. simpl in Hx. unfold work_items in Hx.
    apply list_elem_of_bind in Hx as (file & Hx & Hfile). apply list_elem_of_fmap in Hx as (a & -> & Ha).
    apply list_elem_of_filter in Ha as [_ Ha].
    assert (a_tried a = []) as Hat.
    { eapply Forall_forall in Htried; [exact Htried|]. apply list_elem_of_bind. by exists file. }
    split; simpl; rewrite Hat; [by intros ? ?%not_elem_of_nil|].
    destruct Hen as (cfg & Hin & He). exists cfg. split; [done|]. split; [done|]. apply not_elem_of_nil.
  - destruct (HT _ _ Hc) as [_ Hg]. destruct (Hg eq_refl) as (_ & _ & HB).
    apply untried_eligible. by apply HB.
Qed.

(** C23. Only so many answers can count against an article: with [n] servers
    enabled, an article newly handed out is settled after at most
    [14 * (3 * n + 2) + 13] of them, every further try, server or round of
    questions having used one up. *)
Theorem answers_bounded {SL} `{JSL : JobSlices SL} ss n i i' :
  tries_on_current i = 0%N → outage_tries i = 0%N → confirm_rounds i = 0%N →
  nsteps (answered_once (SL := SL) ss) n i i' →
  n + attempts_left ss i' ≤ attempts_left ss i ∧ n ≤ 14 * (3 * enabled_servers ss + 2) + 13.
Proof.
  intros Ht Ho Hc Hst.
  assert (in_range i) as Hi by (split; lia).
  assert (attempts_left ss i ≤ 14 * (3 * enabled_servers ss + 2) + 13) as Hmax.
  { rewrite attempts_fresh by done. unfold rounds_left, CONFIRM_ASKS_PER_SERVER. rewrite Hc.
    pose proof (untried_le ss i). lia. }
  enough (n + attempts_left ss i' ≤ attempts_left ss i) by lia.
  clear Ht Ho Hc Hmax. induction Hst as [i|n i i1 i' Hone Hst IH]; [done|].
  destruct (answered_once_less _ _ _ Hi Hone) as [Hi1 Hlt]. specialize (IH Hi1). lia.
Qed.

(** *** A job of one article that no server has *)
Definition ex_refuse (i : WorkItem) (p : Pool N) : Pool N :=
  finish_serial 5 "main" i (Some (Err Placement.ArticleNotFound))
    (with_in_flight (delete 0 (in_flight p)) p).
Definition ex_wake (i : WorkItem) (p : Pool N) : Pool N :=
  take_turn 0 "main" []
    (with_queue (push_front i (work_queue p)) (with_sleeping (delete 0 (sleeping p)) p)).
Definition ex_again (i : WorkItem) : WorkItem :=
  start_confirm_round (mark_tried "main" ArticleFailureKind.NotFound i).
Definition ex_first : WorkItem := ex_item "j" [].
Definition ex_refused_1 : Pool N := ex_refuse ex_first ex_taken.
Definition ex_asked_2 : Pool N := ex_wake (ex_again ex_first) ex_refused_1.
Definition ex_refused_2 : Pool N := ex_refuse (ex_again ex_first) ex_asked_2.
Definition ex_asked_3 : Pool N := ex_wake (ex_again (ex_again ex_first)) ex_refused_2.
Definition ex_missing : Pool N := ex_refuse (ex_again (ex_again ex_first)) ex_asked_3.

Lemma ex_asks : asks "main" true [ex_main].
Proof.
  split; [exists ex_main; by split; [left|]|]. intros _ cfg ->%list_elem_of_singleton. done.
Qed.

Lemma ex_refuse_step i p :
  servers p = [ex_main] → in_flight p !! 0 = Some (0, "main", i) →
  asks "main" true (servers p) ∧ step p (ex_refuse i p).
Proof.
  intros Hs Hf. split; [rewrite Hs; apply ex_asks|].
  eapply step_serial; [exact Hf|right; right; by exists (Wire.ArticleNotFound (Text []))|by intros [=]].
Qed.
Lemma ex_wake_steps i p :
  servers p = [ex_main] → sleeping p !! 0 = Some i →
  rtc (λ p p', asks "main" true (servers p) ∧ step p p') p (ex_wake i p).
Proof.
  intros Hs Hf. eapply rtc_l; [split; [rewrite Hs; apply ex_asks|by eapply step_wake]|].
  apply rtc_once. split; [simpl; rewrite Hs; apply ex_asks|]. apply step_take.
Qed.

Lemma ex_missing_steps :
  rtc (λ p p', asks "main" true (servers p) ∧ step p p') ex_submitted ex_missing.
Proof.
  eapply rtc_l; [split; [apply ex_asks|apply (step_take _ 0 "main" [])]|].
  apply (rtc_l _ _ ex_refused_1); [apply (ex_refuse_step ex_first ex_taken); by vm_compute|].
  transitivity ex_asked_2; [apply (ex_wake_steps (ex_again ex_first) ex_refused_1); by vm_compute|].
  apply (rtc_l _ _ ex_refused_2); [apply (ex_refuse_step (ex_again ex_first) ex_asked_2); by vm_compute|].
  transitivity ex_asked_3;
    [apply (ex_wake_steps (ex_again (ex_again ex_first)) ex_refused_2); by vm_compute|].
  apply rtc_once. apply (ex_refuse_step (ex_again (ex_again ex_first)) ex_asked_3); by vm_compute.
Qed.

Lemma missing_only_if_refused_witness :
  ∃ c, contexts ex_missing !! "j" = Some c ∧
    ArticleFailed "f" 1 (not_found_anywhere "main") ∈ sent c ∧ 3 ≤ refusals "main" "f" 1 (sent c).
Proof.
  destruct (contexts ex_missing !! "j") as [c|] eqn:Hc; [|by vm_compute in Hc].
  assert (sent <$> contexts ex_missing !! "j" = Some
    [ArticleOutcome "f" 1 (lit "m") (Refused "main"); ArticleOutcome "f" 1 (lit "m") (Refused "main");
     ArticleOutcome "f" 1 (lit "m") (Refused "main"); ArticleFailed "f" 1 (not_found_anywhere "main");
     JobFinished false 1 (Some {| damaged := 1; unknown := 0 |})]) as Hs by by vm_compute.
  rewrite Hc in Hs. injection Hs as Hs.
  assert (ArticleFailed "f" 1 (not_found_anywhere "main") ∈ sent c) as Hin by (rewrite Hs; do 3 right; by left).
  exists c. split; [done|]. split; [done|].
  refine (missing_only_if_refused "main" true [ex_main] true (empty_pool [ex_main] true) (λ l, l) 0 "j"
    ex_files 0%N ["main"] ex_missing c "f" 1 (not_found_anywhere "main") (rtc_refl _ _) eq_refl
    (λ l, reflexivity l) ex_missing_steps Hc Hin eq_refl).
Defined.

Lemma waiting_article_has_a_server_witness :
  ex_first ∈ all_places ex_submitted ∧
  ∃ cfg, cfg ∈ [ex_main] ∧ enabled cfg = true ∧ ∀ now health,
    is_eligible (server cfg)
      (higher_priority_servers now [ex_main] health (priority cfg) (server cfg)) ex_first = true.
Proof.
  assert (ex_first ∈ all_places ex_submitted) as Hin.
  { assert (all_places ex_submitted = [ex_first]) as -> by by vm_compute. by left. }
  split; [done|].
  refine (waiting_article_has_a_server [ex_main] [ex_main] true (empty_pool [ex_main] true) (λ l, l) 0 "j"
    ex_files 0%N ["main"] ex_submitted ex_first (rtc_refl _ _) eq_refl (λ l, reflexivity l) _ _
    (rtc_refl _ _) Hin eq_refl).
  - exists ex_main. split; [by left|done].
  - by repeat constructor.
Defined.

Lemma answers_bounded_witness :
  attempts_left [ex_main] (ex_again ex_first) < attempts_left [ex_main] ex_first ∧
  1 ≤ 14 * (3 * enabled_servers [ex_main] + 2) + 13.
Proof.
  destruct (answers_bounded (SL := N) [ex_main] 1 ex_first (ex_again ex_first)) as [H1 H2];
    [done..| |split; [lia|exact H2]].
  apply nsteps_once.
  exists {| now := 0; env_servers := [ex_main]; env_health := ∅ |}, "main",
    (serial_reaction "main" ex_first (Some (Err Placement.ArticleNotFound))),
    {| jctx := new_context ex_files 0%N 1; jqueue := empty_queue; jsleeping := [] |}.
  split; [done|]. split; [|split; [|split; [|split]]].
  - exists ex_main. split; [by left|]. split; [|done]. split; [done|]. apply not_elem_of_nil.
  - left. by exists (Some (Err Placement.ArticleNotFound)).
  - apply not_elem_of_nil.
  - by vm_compute.
  - by vm_compute.
Defined.

(** *** Articles no server will take *)
Definition ex_server (id : string) (on opt : bool) : ServerConfig :=
  {| server := id; priority := 0; enabled := on; optional := opt |}.
Definition ex_state (its : list WorkItem) : JobSt N :=
  {| jctx := new_context ex_files 0%N 1; jqueue := {| items := its; last_served := ∅ |}; jsleeping := [] |}.

(** Server [a] had been tried before a restart, which the item remembers; what
    it answered is not. Once [b] has refused too, the item goes back to the
    queue, where no server may take it. *)
Example persisted_try_strands :
  let ss := [ex_server "a" true false; ex_server "b" true false] in
  let e := {| now := 0; env_servers := ss; env_health := ∅ |} in
  let s := (handle_article_not_available e "b" ArticleFailureKind.NotFound (ex_item "j" ["a"]) (ex_state [])).2 in
  items (jqueue s) = [mark_tried "b" ArticleFailureKind.NotFound (ex_item "j" ["a"])] ∧
  existsb (λ cfg, existsb (is_eligible (server cfg) []) (items (jqueue s))) ss = false.
Proof. by vm_compute. Qed.

(** An article that waits for [b], after [a] has answered, when [b] is switched
    off: every enabled server has answered, but the supervisor looks at the
    queue only while an optional server is down. *)
Example disabled_server_strands :
  let ss := [ex_server "a" true false; ex_server "b" false false] in
  let i := mark_tried "a" ArticleFailureKind.NotFound ex_first in
  let p := with_servers ss ∅ (with_queue {| items := [i]; last_served := ∅ |} ex_submitted) in
  all_enabled_providers_definitive 0 ss ∅ (provider_outcomes i) = true ∧
  is_eligible "a" [] i = false ∧
  items (work_queue (resolve_items_not_waiting_on_required_providers 0 p)) = [i].
Proof. by vm_compute. Qed.

(** While an optional server is down the supervisor fails an article after one
    refusal, without the rounds of confirmation. *)
Example swept_without_confirmation :
  let ss := [ex_server "a" true false; ex_server "b" true true] in
  let i := mark_tried "a" ArticleFailureKind.NotFound ex_first in
  let down := note_failure 0 true "b" ∅ in
  let p := with_servers ss down (with_queue {| items := [i]; last_served := ∅ |} ex_submitted) in
  let p' := resolve_items_not_waiting_on_required_providers 1 p in
  items (work_queue p') = [] ∧
  (sent <$> contexts p' !! "j") = Some [ArticleFailed "f" 1 (not_found_anywhere "a");
    JobFinished false 1 (Some {| damaged := 1; unknown := 0 |})].
Proof. by vm_compute. Qed.
