(* ===== verification/Par2Match.v ===== *)
(** * PAR2 sets: matching their files to the NZB's, and their slice layout

    Models [crates/nzb-core/src/par2_match.rs] and
    [crates/nzb-dispatch/src/slice_layout.rs]. The crate [rust-par2] parses a
    set; [Par2FileSet] has the fields of its result that the code reads. A
    file id or a digest of 16 bytes is a number or a byte list. *)
From S2P Require Import Prelude Str SliceMap.

Definition PAR2_HASH_16K_LEN : N := 16 * 1024.

Record Par2FileRef (P : Type) := MkPar2FileRef {
  ref_id : P;
  ref_name : str;
  ref_hash_16k : bytes;
  ref_size : N;
}.
Arguments MkPar2FileRef {P}.
Arguments ref_id {P}. Arguments ref_name {P}. Arguments ref_hash_16k {P}. Arguments ref_size {P}.

Record CandidateFile (K : Type) := MkCandidateFile {
  cand_id : K;
  cand_name : str;
  cand_first_16k_md5 : option bytes;
  cand_size : option N;
}.
Arguments MkCandidateFile {K}.
Arguments cand_id {K}. Arguments cand_name {K}. Arguments cand_first_16k_md5 {K}.
Arguments cand_size {K}.

(** [iter().position(pred)] *)
Definition position {A} (g : A → bool) (l : list A) : option nat :=
  fst <$> list_find (λ x, g x = true) l.
(** [iter().enumerate().position(pred)] *)
Definition position_i {A} (g : nat → A → bool) (l : list A) : option nat :=
  position (λ ix : nat * A, g ix.1 ix.2) (imap pair l).

Section match_files.
Context {P K : Type} `{Countable K} (par2_files : list (Par2FileRef P)).

(** The loops' state: the result so far and the positions claimed. *)
Definition Matched : Type := gmap K P * gset nat.

Definition claim (cand : CandidateFile K) (pi : nat) (s : Matched) : Matched :=
  match par2_files !! pi with
  | Some p => (<[cand_id cand := ref_id p]> s.1, {[pi]} ∪ s.2)
  | None => s
  end.

Definition match_name (s : Matched) (cand : CandidateFile K) : Matched :=
  match position (λ p, bool_decide (ref_name p = cand_name cand)) par2_files with
  | Some pi => if decide (pi ∈ s.2) then s else claim cand pi s
  | None => s
  end.

Definition match_hash (s : Matched) (cand : CandidateFile K) : Matched :=
  if decide (is_Some (s.1 !! cand_id cand)) then s
  else match cand_first_16k_md5 cand with
  | None => s
  | Some md5 =>
    match position_i (λ pi p, negb (bool_decide (pi ∈ s.2)) && bool_decide (ref_hash_16k p = md5) &&
            match cand_size cand with None => true | Some sz => bool_decide (sz = ref_size p) end)
            par2_files with
    | Some pi => claim cand pi s
    | None => s
    end
  end.

Definition match_files_by_hash16k (candidates : list (CandidateFile K)) : gmap K P :=
  (foldl match_hash (foldl match_name (∅, ∅) candidates) candidates).1.
End match_files.

(** ** The parsed set *)
Record Par2File := {
  p_filename : str;
  p_hash_16k : bytes;
  p_size : N;
  p_slices : list SliceDigest;
}.
Record Par2FileSet := {
  set_slice_size : N;
  file_order : list N;
  set_files : gmap N Par2File;
  set_recovery_block_count : N;
}.

(** The files of the set in Main-packet order. *)
Definition files_in_order (set : Par2FileSet) : list Par2File :=
  omap (λ id, set_files set !! id) (file_order set).

Definition slice_layout_from_par2 (set : Par2FileSet) : SliceLayout :=
  {| layout_slice_size := set_slice_size set;
     layout_files := (λ f, {| fsize := p_size f; slices := p_slices f |}) <$> files_in_order set |}.

(** ** What the searches return *)
Lemma par2_position_Some {A} (g : A → bool) l i :
  position g l = Some i ↔
  (∃ x, l !! i = Some x ∧ g x = true) ∧ ∀ j y, l !! j = Some y → j < i → g y = false.
Proof.
  unfold position. rewrite fmap_Some. split.
  - intros [[j x] [(Hj & Hx & Hlt)%list_find_Some ->]]. simpl. split; [eauto|].
    intros k y Hk Hki. specialize (Hlt k y Hk Hki). by destruct (g y).
  - intros [(x & Hi & Hx) Hlt]. exists (i, x). split; [|done]. apply list_find_Some.
    split_and!; [done|done|]. intros j y Hj Hji. by rewrite (Hlt j y Hj Hji).
Qed.

Lemma par2_position_None {A} (g : A → bool) l :
  position g l = None ↔ ∀ i x, l !! i = Some x → g x = false.
Proof.
  unfold position. rewrite fmap_None, list_find_None, Forall_lookup.
  split; intros Hg i x Hi; specialize (Hg i x Hi); by destruct (g x).
Qed.

Lemma position_i_Some {A} (g : nat → A → bool) l i :
  position_i g l = Some i → ∃ x, l !! i = Some x ∧ g i x = true.
Proof.
  intros [(x & Hi & Hx) _]%par2_position_Some. rewrite list_lookup_imap in Hi.
  destruct (l !! i) as [y|] eqn:Hy; simplify_eq/=. eauto.
Qed.

Lemma position_i_None {A} (g : nat → A → bool) l i x :
  position_i g l = None → l !! i = Some x → g i x = false.
Proof.
  intros Hn Hi. apply (proj1 (par2_position_None _ _) Hn i (i, x)).
  by rewrite list_lookup_imap, Hi.
Qed.

(** ** The matching is a partial injection *)
Section matching.
Context {P K : Type} `{Countable K} (ps : list (Par2FileRef P)).

(** [s] maps each key to the file at a claimed position, no position serves
    two keys, and a key it maps is a candidate's that agrees with the file. *)
Record matching (cands : list (CandidateFile K)) (s : @Matched P K _ _) (at_ : K → option nat) : Prop := {
  matching_at k : s.1 !! k = at_ k ≫= λ pi, ref_id <$> ps !! pi;
  matching_dom k : is_Some (at_ k) → is_Some (s.1 !! k);
  matching_claimed pi : pi ∈ s.2 ↔ ∃ k, at_ k = Some pi;
  matching_inj k k' pi : at_ k = Some pi → at_ k' = Some pi → k = k';
  matching_sound k pi : at_ k = Some pi → ∃ c p, c ∈ cands ∧ cand_id c = k ∧ ps !! pi = Some p ∧
    (ref_name p = cand_name c ∨ cand_first_16k_md5 c = Some (ref_hash_16k p) ∧
       ∀ sz, cand_size c = Some sz → sz = ref_size p);
}.

Lemma matching_empty cands : matching cands (∅, ∅) (λ _, None).
Proof.
  split; simpl; [|intros k []; done|set_solver|done|done].
  intros k. by rewrite lookup_empty.
Qed.

Lemma matching_claim cands s at_ c pi p :
  matching cands s at_ → c ∈ cands → ps !! pi = Some p → pi ∉ s.2 → at_ (cand_id c) = None →
  (ref_name p = cand_name c ∨ cand_first_16k_md5 c = Some (ref_hash_16k p) ∧
     ∀ sz, cand_size c = Some sz → sz = ref_size p) →
  matching cands (claim ps c pi s) (λ k, if decide (k = cand_id c) then Some pi else at_ k).
Proof.
  intros [Hat Hdom Hcl Hinj Hs] Hc Hp Hpi Hk Hagree. unfold claim. rewrite Hp. split; simpl.
  - intros k. case_decide as Hkc; [subst; by rewrite lookup_insert_eq; simpl; rewrite Hp|].
    by rewrite lookup_insert_ne.
  - intros k. case_decide as Hkc; [subst; rewrite lookup_insert_eq; eauto|].
    rewrite lookup_insert_ne by done. apply Hdom.
  - intros pi'. rewrite elem_of_union, elem_of_singleton, Hcl. split.
    + intros [->|[k Hk']].
      * exists (cand_id c). by rewrite decide_True.
      * exists k. rewrite decide_False; [done|]. congruence.
    + intros [k Hk']. case_decide; [left; congruence|right; eauto].
  - intros k k' pi' H1 H2. repeat case_decide; simplify_eq; [done| | |eauto];
      exfalso; apply Hpi, Hcl; eauto.
  - intros k pi' H1. case_decide as Hkc; simplify_eq; [|eauto]. exists c, p. auto.
Qed.

(** [at'] extends [at_]. *)
Definition extends (at_ at' : K → option nat) : Prop :=
  ∀ k pi, at_ k = Some pi → at' k = Some pi.

#[local] Instance extends_preorder : PreOrder extends.
Proof. split; [by intros ??|]. intros f g h Hfg Hgh k pi Hk. auto. Qed.

Lemma extends_claim at_ k pi :
  at_ k = None → extends at_ (λ k', if decide (k' = k) then Some pi else at_ k').
Proof. intros Hk k' pi' Hk'. rewrite decide_False; [done|]. congruence. Qed.

Definition hash_agrees (c : CandidateFile K) (p : Par2FileRef P) : Prop :=
  cand_first_16k_md5 c = Some (ref_hash_16k p) ∧ ∀ sz, cand_size c = Some sz → sz = ref_size p.

(** The file the candidate's name finds. *)
Definition first_named (c : CandidateFile K) (pi : nat) : Prop :=
  position (λ p, bool_decide (ref_name p = cand_name c)) ps = Some pi.

(** Both loops, one candidate after another. *)
Lemma match_name_step cands s at_ c :
  matching cands s at_ → c ∈ cands → at_ (cand_id c) = None →
  (∀ c' pi, c' ∈ cands → at_ (cand_id c') = Some pi → first_named c' pi) →
  ∃ at', matching cands (match_name ps s c) at' ∧ extends at_ at' ∧
    (∀ k, k ≠ cand_id c → at' k = at_ k) ∧
    (at' (cand_id c) = None ∨ ∃ pi, at' (cand_id c) = Some pi ∧ first_named c pi) ∧
    ∀ pi, first_named c pi → ∃ k, at' k = Some pi.
Proof.
  intros Hm Hc Hk Hn. unfold match_name.
  destruct (position _ ps) as [pi|] eqn:Hp.
  - case_decide as Hin.
    + exists at_. split_and!; [done|done|done|by left|].
      intros pi' Hpi'. unfold first_named in Hpi'. rewrite Hpi' in Hp. simplify_eq. by apply Hm.
    + pose proof Hp as [(p & Hpp & Heq%bool_decide_eq_true) _]%par2_position_Some.
      exists (λ k, if decide (k = cand_id c) then Some pi else at_ k). split_and!.
      * apply (matching_claim _ _ _ _ _ p); auto.
      * by apply extends_claim.
      * intros k Hne. by rewrite decide_False.
      * right. exists pi. by rewrite decide_True.
      * intros pi' Hpi'. unfold first_named in Hpi'. rewrite Hpi' in Hp. simplify_eq.
        exists (cand_id c). by rewrite decide_True.
  - exists at_. split_and!; [done|done|done|by left|].
    intros pi Hpi. unfold first_named in Hpi. by rewrite Hpi in Hp.
Qed.

Lemma match_hash_step cands s at_ c :
  matching cands s at_ → c ∈ cands →
  ∃ at', matching cands (match_hash ps s c) at' ∧ extends at_ at' ∧
    (at' (cand_id c) = None → ∀ pi p, ps !! pi = Some p → hash_agrees c p → ∃ k, at' k = Some pi).
Proof.
  intros Hm Hc. unfold match_hash. case_decide as Hs.
  { exists at_. split_and!; [done|done|]. intros Hn. exfalso.
    rewrite (matching_at _ _ _ Hm), Hn in Hs. by destruct Hs. }
  assert (at_ (cand_id c) = None) as Hk.
  { apply eq_None_not_Some. intros H'. by apply Hs, (matching_dom _ _ _ Hm). }
  destruct (cand_first_16k_md5 c) as [d|] eqn:Hd.
  2: { exists at_. split_and!; [done|done|]. intros _ pi p _ [Hd' _]. congruence. }
  destruct (position_i _ ps) as [pi|] eqn:Hp.
  - pose proof Hp as (p & Hpp & Hg)%position_i_Some.
    rewrite !andb_true_iff, negb_true_iff, bool_decide_eq_false, bool_decide_eq_true in Hg.
    destruct Hg as ((Hpi & Hh) & Hsz).
    exists (λ k, if decide (k = cand_id c) then Some pi else at_ k). split_and!.
    + apply (matching_claim _ _ _ _ _ p); [done..|]. right. split; [congruence|].
      intros sz Hsz'. rewrite Hsz' in Hsz. by apply bool_decide_eq_true in Hsz.
    + by apply extends_claim.
    + by rewrite decide_True.
  - exists at_. split_and!; [done|done|]. intros _ pi p Hpp [Hh Hsz].
    pose proof (position_i_None _ _ _ _ Hp Hpp) as Hf. simpl in Hf.
    destruct (decide (pi ∈ s.2)) as [Hin|Hni]; [by apply Hm|exfalso].
    rewrite bool_decide_eq_false_2 in Hf by done. rewrite bool_decide_eq_true_2 in Hf by congruence.
    destruct (cand_size c) as [sz|]; [|done]. by rewrite bool_decide_eq_true_2 in Hf by auto.
Qed.

Lemma cand_unique dn c rest c' :
  NoDup (cand_id (K := K) <$> dn ++ c :: rest) → c' ∈ dn ++ c :: rest → cand_id c' = cand_id c → c' = c.
Proof.
  intros Hnd Hc' Heq. apply list_elem_of_lookup in Hc' as [i Hi].
  assert (i = length dn) as ->.
  { apply (NoDup_lookup _ _ _ (cand_id c) Hnd); rewrite list_lookup_fmap.
    - by rewrite Hi, <-Heq.
    - by rewrite list_lookup_middle. }
  rewrite list_lookup_middle in Hi; [|done]. congruence.
Qed.

Lemma match_names cands rest : ∀ dn s at_,
  cands = dn ++ rest → NoDup (cand_id <$> cands) → matching cands s at_ →
  (∀ c, c ∈ rest → at_ (cand_id c) = None) →
  (∀ c pi, c ∈ cands → at_ (cand_id c) = Some pi → first_named c pi) →
  (∀ c pi, c ∈ dn → first_named c pi → ∃ k, at_ k = Some pi) →
  ∃ at', matching cands (foldl (match_name ps) s rest) at' ∧
    (∀ c pi, c ∈ cands → at' (cand_id c) = Some pi → first_named c pi) ∧
    ∀ c pi, c ∈ cands → first_named c pi → ∃ k, at' k = Some pi.
Proof.
  induction rest as [|c rest IH]; intros dn s at_ -> Hnd Hm Hrest Hn Hdone; simpl.
  { exists at_. rewrite app_nil_r in *. split_and!; [done..|]. eauto. }
  destruct (match_name_step (dn ++ c :: rest) s at_ c) as (at1 & Hm1 & Hext & Hother & Hself & Hcl);
    [done|set_solver|apply Hrest; set_solver|done|].
  apply (IH (dn ++ [c]) _ at1); [by rewrite <-app_assoc|done|done| | |].
  - intros c' Hc'. rewrite Hother; [apply Hrest; set_solver|]. intros Heq.
    rewrite fmap_app, fmap_cons, NoDup_app in Hnd. destruct Hnd as (_ & _ & [Hni _]%NoDup_cons).
    apply Hni. rewrite <-Heq. by apply list_elem_of_fmap_2.
  - intros c' pi Hc' Hpi. destruct (decide (cand_id c' = cand_id c)) as [Heq|Hne].
    + assert (c' = c) as -> by by apply (cand_unique dn c rest).
      destruct Hself as [Hs|(pi' & Hs & ?)]; congruence.
    + rewrite Hother in Hpi by done. by apply Hn.
  - intros c' pi Hc' Hpi. apply elem_of_app in Hc' as [Hc'|Hc'].
    + destruct (Hdone c' pi Hc' Hpi) as [k Hk]. exists k. by apply Hext.
    + apply list_elem_of_singleton in Hc' as ->. by apply Hcl.
Qed.

Lemma match_hashes cands rest : ∀ dn s at_,
  cands = dn ++ rest → matching cands s at_ →
  (∀ c, c ∈ dn → at_ (cand_id c) = None →
     ∀ pi p, ps !! pi = Some p → hash_agrees c p → ∃ k, at_ k = Some pi) →
  ∃ at', matching cands (foldl (match_hash ps) s rest) at' ∧ extends at_ at' ∧
    ∀ c, c ∈ cands → at' (cand_id c) = None →
      ∀ pi p, ps !! pi = Some p → hash_agrees c p → ∃ k, at' k = Some pi.
Proof.
  induction rest as [|c rest IH]; intros dn s at_ -> Hm Hdone; simpl.
  { exists at_. rewrite app_nil_r in *. done. }
  destruct (match_hash_step (dn ++ c :: rest) s at_ c) as (at1 & Hm1 & Hext & Hcl);
    [done|set_solver|].
  destruct (IH (dn ++ [c]) (match_hash ps s c) at1) as (at2 & Hm2 & Hext2 & Hcl2); [by rewrite <-app_assoc|done| |].
  - intros c' Hc' Hnone pi p Hp Hh. apply elem_of_app in Hc' as [Hc'|Hc'].
    + destruct (Hdone c' Hc') with pi p as [k Hk]; [|done|done|exists k; by apply Hext].
      apply eq_None_not_Some. intros [x Hx]. apply Hext in Hx. congruence.
    + apply list_elem_of_singleton in Hc' as ->. eauto.
  - exists at2. split_and!; [done|by transitivity at1|done].
Qed.

(** The result is a matching. *)
Lemma match_files_matching cands :
  NoDup (cand_id <$> cands) →
  ∃ s at_, match_files_by_hash16k ps cands = s.1 ∧ matching cands s at_.
Proof.
  intros Hnd.
  destruct (match_names cands cands [] (∅, ∅) (λ _, None)) as (at1 & Hm1 & _ & _);
    [done|done|apply matching_empty|done|done|set_solver|].
  destruct (match_hashes cands cands [] (foldl (match_name ps) (∅, ∅) cands) at1) as (at2 & Hm2 & _);
    [done|done|set_solver|].
  by eexists _, at2.
Qed.
End matching.

(** C26. Candidates with distinct ids are matched to PAR2 files by a partial
    injection: each file is used at most once, a match agrees on the name or
    on the hash (and the size, when known). The first file of a candidate's
    name is always used, and by a candidate of that name; a candidate left out
    has no unused file with its hash. *)
Theorem match_files_partial_injection {P K : Type} `{Countable K} (ps : list (Par2FileRef P))
    (cands : list (CandidateFile K)) :
  NoDup (cand_id <$> cands) →
  ∃ at_ : K → option nat,
    (∀ k, match_files_by_hash16k ps cands !! k = at_ k ≫= λ pi, ref_id <$> ps !! pi) ∧
    (∀ k k' pi, at_ k = Some pi → at_ k' = Some pi → k = k') ∧
    (∀ k pi, at_ k = Some pi → ∃ c p, c ∈ cands ∧ cand_id c = k ∧ ps !! pi = Some p ∧
       (ref_name p = cand_name c ∨ hash_agrees c p)) ∧
    (∀ c pi, c ∈ cands → first_named ps c pi →
       ∃ c', c' ∈ cands ∧ at_ (cand_id c') = Some pi ∧ cand_name c' = cand_name c) ∧
    (∀ c pi p, c ∈ cands → at_ (cand_id c) = None → ps !! pi = Some p → hash_agrees c p →
       ∃ k, at_ k = Some pi).
Proof.
  intros Hnd.
  destruct (match_names ps cands cands [] (∅, ∅) (λ _, None)) as (at1 & Hm1 & Hn1 & Hf1);
    [done|done|apply matching_empty|done|done|set_solver|].
  destruct (match_hashes ps cands cands [] (foldl (match_name ps) (∅, ∅) cands) at1) as (at2 & Hm2 & Hext & Hh2);
    [done|done|set_solver|].
  exists at2. split_and!.
  - intros k. unfold match_files_by_hash16k. apply (matching_at _ _ _ _ Hm2).
  - apply Hm2.
  - apply (matching_sound _ _ _ _ Hm2).
  - intros c pi Hc Hpi. destruct (Hf1 c pi Hc Hpi) as [k Hk].
    destruct (matching_sound _ _ _ _ Hm1 k pi Hk) as (c' & p & Hc' & <- & Hp & _).
    exists c'. split_and!; [done|by apply Hext|].
    specialize (Hn1 c' pi Hc' Hk). apply par2_position_Some in Hn1 as [(x & Hx & E1%bool_decide_eq_true) _].
    apply par2_position_Some in Hpi as [(y & Hy & E2%bool_decide_eq_true) _]. congruence.
  - intros c pi p Hc Hnone Hp Hh. by apply (Hh2 c Hc Hnone pi p).
Qed.

(** ** Witness *)
Module Par2MatchExample.
Definition refs : list (Par2FileRef nat) :=
  [MkPar2FileRef 0 (lit "a.bin") [Byte.x01] 10; MkPar2FileRef 1 (lit "b.bin") [Byte.x02] 20].
(** One file under its own name, one obfuscated. *)
Definition cands : list (CandidateFile string) :=
  [MkCandidateFile "x" (lit "q7w") (Some [Byte.x02]) (Some 20%N);
   MkCandidateFile "y" (lit "a.bin") None None]%string.
End Par2MatchExample.

Lemma match_files_partial_injection_witness :
  match_files_by_hash16k Par2MatchExample.refs Par2MatchExample.cands !! "x"%string = Some 1 ∧
  match_files_by_hash16k Par2MatchExample.refs Par2MatchExample.cands !! "y"%string = Some 0 ∧
  ∃ at_ : string → option nat, ∀ k k' pi, at_ k = Some pi → at_ k' = Some pi → k = k'.
Proof.
  destruct (match_files_partial_injection Par2MatchExample.refs Par2MatchExample.cands)
    as (at_ & _ & Hinj & _).
  - apply (bool_decide_unpack _). vm_compute. exact I.
  - split; [vm_compute; reflexivity|]. split; [vm_compute; reflexivity|]. exists at_. exact Hinj.
Defined.
