(* ===== verification/SliceTracker.v ===== *)
(** * The in-flight slice tracker of a job

    Models [crates/nzb-dispatch/src/slice_tracker.rs]: the writes of a job's
    files become marks on the PAR2 slice map, completed slices are read back
    and verified, and verified slices go into the repair fold once damage
    opens it.

    The code takes its locks one at a time and reads the disk between them, so
    each function is cut at its locks: a [Task] is what is left of a running
    call and [step_task] runs it up to the end of its next lock section or
    disk read. [None] is a panic. The crates [rust-par2] and [md5] are the
    parameters [par2_parse] and [md5_digest]; [crc32_of] is the CRC-32 of
    [SliceMap]; [HashOrder] is the order in which a hash map yields its
    entries. A Tokio runtime is always there, and a blocking task does run. *)
From S2P Require Import Prelude Str FileSystem SliceMap Par2Match.
From S2P Require RepairFold Engine.

(** An offset and a length. *)
Abbreviation Write := (N * N)%type.

Record PendingSlice := {
  global_index : nat;
  p_path : path;
  p_offset : N;
  p_len : N;
}.

Record Tracked := {
  verifier : SliceVerifier;
  files : gmap string (nat * path);
  untracked : gset nat;
  recovery_block_count : N;
  par2_files : list (bytes * N);
  claimed : gset nat;
  unmatched : gmap string (list Write);
  hashed : gset (string * N);
}.

Record Marked := { m_pending : list PendingSlice; try_match : bool }.

Inductive State :=
  | Disabled
  | Pending (writes : gmap string (list Write)) (installing : bool)
  | Ready (t : Tracked).

Inductive FoldSlot (G : Type) :=
  | Idle
  | Refused
  | Active (f : RepairFold.RepairFold G).
Arguments Idle {G}. Arguments Refused {G}. Arguments Active {G}.

Record Plan := { plan_slice_size : N; plan_total : nat; plan_recovery : N }.

Record JobSlices (G : Type) := MkJobSlices {
  work_dir : str;
  filenames : gmap string str;
  resumed : gset string;
  index_on_disk : option string;
  state : State;
  failures : gmap string bool;
  confirmed_missing : N;
  damaged_seen : N;
  fold : FoldSlot G;
  recovery_exponents : list N;
}.
Arguments MkJobSlices {G}.
Arguments work_dir {G}. Arguments filenames {G}. Arguments resumed {G}.
Arguments index_on_disk {G}. Arguments state {G}. Arguments failures {G}.
Arguments confirmed_missing {G}. Arguments damaged_seen {G}. Arguments fold {G}.
Arguments recovery_exponents {G}.

Definition with_state {G} (st : State) (t : JobSlices G) : JobSlices G :=
  MkJobSlices (work_dir t) (filenames t) (resumed t) (index_on_disk t) st (failures t)
    (confirmed_missing t) (damaged_seen t) (fold t) (recovery_exponents t).
Definition with_failures {G} (fl : gmap string bool) (cm : N) (t : JobSlices G) : JobSlices G :=
  MkJobSlices (work_dir t) (filenames t) (resumed t) (index_on_disk t) (state t) fl
    cm (damaged_seen t) (fold t) (recovery_exponents t).
Definition with_damaged_seen {G} (n : N) (t : JobSlices G) : JobSlices G :=
  MkJobSlices (work_dir t) (filenames t) (resumed t) (index_on_disk t) (state t) (failures t)
    (confirmed_missing t) n (fold t) (recovery_exponents t).
Definition with_fold {G} (s : FoldSlot G) (t : JobSlices G) : JobSlices G :=
  MkJobSlices (work_dir t) (filenames t) (resumed t) (index_on_disk t) (state t) (failures t)
    (confirmed_missing t) (damaged_seen t) s (recovery_exponents t).

(** ** The job, as far as the tracker reads it *)
Record JobArticle := { downloaded : bool; data_begin : option N; data_size : option N }.
Record JobFile := {
  jf_id : string;
  jf_filename : str;
  jf_articles : list JobArticle;
  jf_par2_vol : option N;
  jf_par2_blocks : option N;
}.

Definition is_par2_index : str → bool := Engine.is_par2_index.
(** [name.to_lowercase().ends_with(".par2")] *)
Definition is_par2 (name : str) : bool := ends_with (lit ".par2") (to_ascii_lowercase name).

(** [PathBuf::join] on a Unix system. *)
Definition join_str (dir name : str) : str :=
  match name with
  | 47%N :: _ => name
  | _ => if decide (dir = [] ∨ last dir = Some 47%N) then dir ++ name else dir ++ 47%N :: name
  end.
Definition join (dir name : str) : path := String.string_of_list_byte (as_bytes (join_str dir name)).

(** [lo..hi] *)
Definition range (lo hi : N) : list N := (λ i, lo + N.of_nat i)%N <$> seq 0 (N.to_nat (hi - lo)).

Definition recovery_exponents_of (job : list JobFile) : list N :=
  sort_dedup N.le
    (job ≫= λ f, match jf_par2_vol f, jf_par2_blocks f with
                 | Some vol, Some blocks => range vol (u32_sat_add vol blocks)
                 | _, _ => []
                 end).

Definition rows_for (damage : N) (recovery : N) (slice_size : N) : N :=
  N.min (N.min (N.max (u64_mul damage 2) 8) recovery) (RepairFold.max_rows_for slice_size).

(** The writes of a file's downloaded articles; [None] if one does not know
    its place. *)
Definition seed_writes (articles : list JobArticle) : option (list Write) :=
  mapM (λ a, b ← data_begin a; n ← data_size a; Some (b, n)) (filter (λ a, downloaded a = true) articles).

Definition has_downloaded (f : JobFile) : bool := existsb downloaded (jf_articles f).

Definition seeded_of (job : list JobFile) : gmap string (list Write) :=
  foldl (λ m f, if has_downloaded f then
                  match seed_writes (jf_articles f) with
                  | Some ws => <[jf_id f := ws]> m
                  | None => m
                  end
                else m) ∅ job.
Definition resumed_of (job : list JobFile) : gset string :=
  list_to_set (jf_id <$> filter (λ f, has_downloaded f = true ∧ seed_writes (jf_articles f) = None) job).

Definition new {G} (dir : str) (job : list JobFile) : JobSlices G :=
  MkJobSlices dir
    (foldl (λ m f, <[jf_id f := jf_filename f]> m) ∅ job)
    (resumed_of job)
    (jf_id <$> head (filter (λ f, is_par2_index (jf_filename f) = true ∧ jf_articles f ≠ [] ∧
                                  forallb downloaded (jf_articles f) = true) job))
    (if existsb (λ f, is_par2_index (jf_filename f)) job then Pending (seeded_of job) false else Disabled)
    ∅ 0 0 Idle (recovery_exponents_of job).

(** ** Marking writes *)
Definition with_verifier (v : SliceVerifier) (t : Tracked) : Tracked :=
  {| verifier := v; files := files t; untracked := untracked t;
     recovery_block_count := recovery_block_count t; par2_files := par2_files t;
     claimed := claimed t; unmatched := unmatched t; hashed := hashed t |}.
Definition with_unmatched (m : gmap string (list Write)) (t : Tracked) : Tracked :=
  {| verifier := verifier t; files := files t; untracked := untracked t;
     recovery_block_count := recovery_block_count t; par2_files := par2_files t;
     claimed := claimed t; unmatched := m; hashed := hashed t |}.
Definition with_hashed (h : gset (string * N)) (t : Tracked) : Tracked :=
  {| verifier := verifier t; files := files t; untracked := untracked t;
     recovery_block_count := recovery_block_count t; par2_files := par2_files t;
     claimed := claimed t; unmatched := unmatched t; hashed := h |}.

Definition pending_for (v : SliceVerifier) (p : path) (dn : list nat) : list PendingSlice :=
  omap (λ gi, (λ r, {| global_index := gi; p_path := p; p_offset := r.1.2; p_len := r.2 |})
              <$> slice_range v gi) dn.

(** [mark_written] for each write of a file, with the slices to verify. *)
Fixpoint mark_writes (index : nat) (p : path) (ws : list Write) (v : SliceVerifier) :
    option (SliceVerifier * list PendingSlice) :=
  match ws with
  | [] => Some (v, [])
  | w :: ws' =>
    '(v', dn) ← mark_written v index w.1 w.2;
    '(v'', more) ← mark_writes index p ws' v';
    Some (v'', pending_for v' p dn ++ more)
  end.

Definition nothing : Marked := {| m_pending := []; try_match := false |}.

Definition mark (file_id : string) (offset len : N) (st : State) : option (State * Marked) :=
  match st with
  | Disabled => Some (st, nothing)
  | Pending writes installing =>
    let ws := default [] (writes !! file_id) in
    Some (Pending (<[file_id := ws ++ [(offset, len)]]> writes) installing, nothing)
  | Ready t =>
    match unmatched t !! file_id with
    | Some ws =>
      Some (Ready (with_unmatched (<[file_id := ws ++ [(offset, len)]]> (unmatched t)) t),
            {| m_pending := []; try_match := bool_decide (offset < PAR2_HASH_16K_LEN)%N |})
    | None =>
      match files t !! file_id with
      | None => Some (st, nothing)
      | Some (index, p) =>
        if decide (index ∈ untracked t) then Some (st, nothing)
        else
          '(v, pend) ← mark_writes index p [(offset, len)] (verifier t);
          Some (Ready (with_verifier v t), {| m_pending := pend; try_match := false |})
      end
    end
  end.

Definition claim_install (st : State) : State * bool :=
  match st with
  | Pending writes false => (Pending writes true, true)
  | _ => (st, false)
  end.

(** The order in which a hash map yields its entries. *)
Class HashOrder := {
  iter {A} : gmap string A → list (string * A);
  iter_perm {A} (m : gmap string A) : iter m ≡ₚ map_to_list m;
}.

(** ** Installing the map *)
Section install.
Context `{HashOrder}.

(** The map over a parsed set, before the buffered writes. *)
Definition build_tracked (dir : str) (names : gmap string str) (res : gset string)
    (set : Par2FileSet) : Tracked :=
  let layout := slice_layout_from_par2 set in
  let par2_refs := imap (λ i f, MkPar2FileRef i (p_filename f) (p_hash_16k f) (p_size f))
                     (files_in_order set) in
  let candidates := (λ kv, MkCandidateFile kv.1 kv.2 None None)
                    <$> filter (λ kv, is_par2 kv.2 = false) (iter names) in
  let matched := match_files_by_hash16k par2_refs candidates in
  let claimed := list_to_set (snd <$> map_to_list matched) in
  {| verifier := SliceMap.new layout;
     files := map_imap (λ id index, name ← names !! id; Some (index, join dir name)) matched;
     untracked :=
       list_to_set (snd <$> filter (λ kv, kv.1 ∈ res) (map_to_list matched)) ∪
       list_to_set (filter (λ i, i ∉ claimed) (seq 0 (length (layout_files layout))));
     recovery_block_count := set_recovery_block_count set;
     par2_files := (λ p, (ref_hash_16k p, ref_size p)) <$> par2_refs;
     claimed := claimed;
     unmatched :=
       map_imap (λ id name, if decide (is_par2 name = false ∧ matched !! id = None ∧ id ∉ res)
                            then Some [] else None) names;
     hashed := ∅ |}.

(** The body of the replay: one file's buffered writes. *)
Definition replay_file (acc : Tracked * list PendingSlice * list string) (kv : string * list Write)
    : option (Tracked * list PendingSlice * list string) :=
  let '(t, pend, to_match) := acc in
  let '(file_id, ws) := kv in
  match unmatched t !! file_id with
  | Some held =>
    Some (with_unmatched (<[file_id := held ++ ws]> (unmatched t)) t, pend, to_match ++ [file_id])
  | None =>
    match files t !! file_id with
    | None => Some acc
    | Some (index, p) =>
      if decide (index ∈ untracked t) then Some acc
      else
        '(v, more) ← mark_writes index p ws (verifier t);
        Some (with_verifier v t, pend ++ more, to_match)
    end
  end.

Fixpoint replay (acc : Tracked * list PendingSlice * list string) (l : list (string * list Write))
    : option (Tracked * list PendingSlice * list string) :=
  match l with
  | [] => Some acc
  | kv :: l' => acc' ← replay_file acc kv; replay acc' l'
  end.

(** The lock section at the end of [install]. *)
Definition install_state (t : Tracked) (st : State)
    : option (State * list PendingSlice * list string) :=
  let buffered := match st with Pending writes _ => writes | _ => ∅ end in
  '(t', pend, to_match) ← replay (t, [], []) (iter buffered);
  Some (Ready t', pend, to_match).
End install.

(** ** Matching by hash *)

(** [sort_unstable_by_key(|w| w.offset)] *)
Definition write_le (a b : Write) : Prop := (a.1 ≤ b.1)%N.
#[export] Instance write_le_dec : RelDecision write_le.
Proof. intros a b. unfold write_le. apply _. Defined.

Fixpoint prefix_end (e : N) (ws : list Write) : N :=
  match ws with
  | [] => e
  | w :: ws' => if decide (e < w.1)%N then e else prefix_end (N.max e (u64_add w.1 w.2)) ws'
  end.
Definition covered_prefix (ws : list Write) : N := prefix_end 0 (merge_sort write_le ws).

(** The first lock section of [match_by_hash]: the prefix lengths to hash, and
    [None] when the file is not waiting for a match. *)
Definition hash_lens (file_id : string) (t : Tracked) : option (Tracked * list N) :=
  ws ← unmatched t !! file_id;
  let covered := covered_prefix ws in
  let lens := sort_dedup N.le
    (filter (λ len, 0 < len ∧ len ≤ covered)%N
       ((λ x, N.min x.2.2 PAR2_HASH_16K_LEN)
        <$> filter (λ x, x.1 ∉ claimed t) (imap pair (par2_files t)))) in
  let fresh := filter (λ len, (file_id, len) ∉ hashed t) lens in
  Some (with_hashed (list_to_set (pair file_id <$> fresh) ∪ hashed t) t, fresh).

Inductive Claim :=
  | NotFound
  | Taken
  | Matched (t : Tracked) (pend : list PendingSlice).

Definition claim_file (file_id : string) (index : nat) (p : path) (v : SliceVerifier) (t : Tracked)
    : Tracked :=
  {| verifier := v; files := <[file_id := (index, p)]> (files t);
     untracked := untracked t ∖ {[index]};
     recovery_block_count := recovery_block_count t; par2_files := par2_files t;
     claimed := {[index]} ∪ claimed t; unmatched := delete file_id (unmatched t);
     hashed := hashed t |}.

(** The second one, for a prefix of [len] bytes with the given digest. *)
Definition claim_by_hash (file_id : string) (len : N) (digest : bytes) (p : path) (t : Tracked)
    : option Claim :=
  match position_i (λ i hs, negb (bool_decide (i ∈ claimed t)) && bool_decide (hs.1 = digest) &&
                            bool_decide (N.min hs.2 PAR2_HASH_16K_LEN = len)) (par2_files t) with
  | None => Some NotFound
  | Some index =>
    match unmatched t !! file_id with
    | None => Some Taken
    | Some ws =>
      '(v, pend) ← mark_writes index p ws (verifier t);
      Some (Matched (claim_file file_id index p v t) pend)
    end
  end.

(** ** The fold *)
Section tracker.
Context {G : Type} `{GF : RepairFold.Gf16 G} `{HO : HashOrder} {FS : Type} `{FSI : FileSystem FS}.
Context (md5_digest : bytes → bytes) (crc32_of : bytes → N).
Context (par2_parse : FS → path → option Par2FileSet).
Implicit Types (t : JobSlices G) (fs : FS).

Definition read_range fs (p : path) (offset len : N) : option bytes :=
  b ← fs_read fs p;
  if decide (len = 0)%N then Some []
  else if decide (N.to_nat (offset + len) ≤ length b) then
    Some (take (N.to_nat len) (drop (N.to_nat offset) b))
  else None.

Definition damage_hint t : N := u64_add (damaged_seen t) (confirmed_missing t).

Definition plan t : option Plan :=
  match state t with
  | Ready tr =>
    Some {| plan_slice_size := slice_size (verifier tr);
            plan_total := total_slices (verifier tr);
            plan_recovery :=
              match recovery_exponents t with
              | [] => if decide (recovery_block_count tr = 0)%N then u32_max else recovery_block_count tr
              | named => N.of_nat (length named)
              end |}
  | _ => None
  end.

Definition exponents t (lo hi : nat) : list N :=
  match recovery_exponents t with
  | [] => range (N.of_nat lo) (N.of_nat hi)
  | named => let e := min hi (length named) in take (e - min lo e) (drop (min lo e) named)
  end.

Definition create_fold (rows total : nat) (ssize : N) t : JobSlices G * bool :=
  match fold t with
  | Idle =>
    match RepairFold.new total ssize (exponents t 0 rows) with
    | Ok f => (with_fold (Active f) t, true)
    | Err _ => (with_fold Refused t, false)
    end
  | _ => (t, false)
  end.

(** [fold]: the fold for post-processing. *)
Definition fold_for_repair t : option (RepairFold.RepairFold G) :=
  match fold t with
  | Active f => if RepairFold.poisoned f then None else Some f
  | _ => None
  end.

Definition slice_source (tr : Tracked) (gi : nat) : option PendingSlice :=
  '(fi, offset, len) ← slice_range (verifier tr) gi;
  kv ← list_find (λ kv : string * (nat * path), kv.2.1 = fi) (iter (files tr));
  Some {| global_index := gi; p_path := kv.2.2.2; p_offset := offset; p_len := len |}.

Definition prefix_sources (st : State) : list PendingSlice :=
  match st with
  | Ready tr =>
    omap (λ gs : nat * SliceState, slice_source tr gs.1)
      (filter (λ gs, gs.2 = Verified) (imap pair (states (verifier tr))))
  | _ => []
  end.

(** ** Summary *)
Record SliceMapSummary := {
  sm_states : list SliceState;
  sm_recovery_block_count : N;
  sm_damaged : N;
  sm_unknown : N;
}.

Definition confirmed_files (fl : gmap string bool) (tr : Tracked) : gset nat :=
  list_to_set (fst ∘ snd <$>
    filter (λ kv, fl !! kv.1 = Some true ∧ kv.2.1 ∉ untracked tr) (map_to_list (files tr))).

(** The loop over the states read before it. *)
Definition mark_holes (confirmed : gset nat) (v : SliceVerifier) : SliceVerifier :=
  foldl (λ v gs, if decide (gs.2 ≠ Unknown) then v
                 else match slice_range v gs.1 with
                      | Some (fi, _, _) => if decide (fi ∈ confirmed) then mark_damaged v gs.1 else v
                      | None => v
                      end) v (imap pair (states v)).

Definition count_state (s : SliceState) (l : list SliceState) : N :=
  N.of_nat (length (filter (λ x, x = s) l)).

Definition summary t : JobSlices G * option SliceMapSummary :=
  match state t with
  | Ready tr =>
    let v := mark_holes (confirmed_files (failures t) tr) (verifier tr) in
    (with_state (Ready (with_verifier v tr)) t,
     Some {| sm_states := states v; sm_recovery_block_count := recovery_block_count tr;
             sm_damaged := count_state Damaged (states v);
             sm_unknown := count_state Unknown (states v) |})
  | _ => (t, None)
  end.

(** ** Running calls *)

(** Where the slices of a [match_by_hash] call go: to [verify_all] when it is
    the write's own, else back to the write that installed the map, which may
    still have its own to make. *)
Inductive Then :=
  | ThenVerify
  | ThenOwn (own : option string).

Inductive Task :=
  (* record_write *)
  | TMark (file_id : string) (offset len : N) (file_complete : bool)
  | TClaim (index_id : string) (pend : list PendingSlice) (own : option string)
  | TInstall (index_id : string) (pend : list PendingSlice) (own : option string)
  | TReplay (tr : Tracked) (pend : list PendingSlice) (own : option string)
  | TMatch (ids : list string) (pend : list PendingSlice) (next : Then)
  | THash (id : string) (lens : list N) (ids : list string) (pend : list PendingSlice) (next : Then)
  | TFind (id : string) (len : N) (digest : bytes) (lens : list N) (ids : list string)
      (pend : list PendingSlice) (next : Then)
  | TVerify (pend : list PendingSlice)
  | TCheck (gi : nat) (b : bytes) (pend : list PendingSlice)
  | TJudged (gi : nat) (b : bytes) (verdict : SliceState) (pend : list PendingSlice)
  | TFold (gi : nat) (b : bytes) (verdict : SliceState) (pend : list PendingSlice)
  (* record_failure *)
  | TFailed (file_id : string) (confirmed : bool)
  | TOpenOrGrow
  (* grow_fold and its feeds *)
  | TGrow
  | TOpen (rows : N) (total : nat) (ssize : N)
  | TBegin (damage want recovery ssize : N)
  | TPrefix (ssize : N)
  | TFeed (cur : list PendingSlice) (batch : list (nat * bytes)) (rest : list (list PendingSlice))
  | TFeedRead (s : PendingSlice) (cur : list PendingSlice) (batch : list (nat * bytes))
      (rest : list (list PendingSlice))
  | TBackfill (gen : N) (cur : list nat) (batch : list (nat * bytes)) (rest : list (list nat))
  | TBackRead (gen : N) (s : PendingSlice) (cur : list nat) (batch : list (nat * bytes))
      (rest : list (list nat)).

Definition after_install (pend : list PendingSlice) (own : option string) : list Task :=
  match own with
  | Some id => [TMatch [id] pend ThenVerify]
  | None => if decide (pend = []) then [] else [TVerify pend]
  end.

Definition after_match (pend : list PendingSlice) (next : Then) : list Task :=
  match next with
  | ThenVerify => [TVerify pend]
  | ThenOwn own => after_install pend own
  end.

(** [spawn_grow] *)
Definition spawn_grow t : list Task :=
  if decide (damage_hint t = 0)%N then []
  else match fold t with
       | Refused => []
       | Active f => if RepairFold.growing f then [] else [TGrow]
       | Idle => [TGrow]
       end.

Definition record_write (file_id : string) (offset len : N) (file_complete : bool) t
    : option (JobSlices G * list Task) :=
  '(st, mk) ← mark file_id offset len (state t);
  let own := if try_match mk then Some file_id else None in
  let completed_index :=
    if file_complete && match filenames t !! file_id with Some n => is_par2_index n | None => false end
    then Some file_id else index_on_disk t in
  Some (with_state st t,
        match completed_index with
        | Some index_id => [TClaim index_id (m_pending mk) own]
        | None => after_install (m_pending mk) own
        end).

Definition claim_and_install (index_id : string) (pend : list PendingSlice) (own : option string) t
    : JobSlices G * list Task :=
  let '(st, won) := claim_install (state t) in
  (with_state st t, if won then [TInstall index_id pend own] else after_install pend own).

(** [install] up to its replay. *)
Definition install fs (index_id : string) (pend : list PendingSlice) (own : option string) t
    : JobSlices G * list Task :=
  match (name ← filenames t !! index_id; par2_parse fs (join (work_dir t) name)) with
  | None => (with_state Disabled t, after_install pend own)
  | Some set => (t, [TReplay (build_tracked (work_dir t) (filenames t) (resumed t) set) pend own])
  end.

Definition install_replay (tr : Tracked) (pend : list PendingSlice) (own : option string) t
    : option (JobSlices G * list Task) :=
  '(st, more, to_match) ← install_state tr (state t);
  Some (with_state st t, [TMatch to_match (pend ++ more) (ThenOwn own)]).

(** [match_by_hash], one section at a time. *)
Definition match_next (ids : list string) (pend : list PendingSlice) (next : Then) t
    : JobSlices G * list Task :=
  match ids, state t with
  | id :: ids', Ready tr =>
    match hash_lens id tr with
    | Some (tr', lens) => (with_state (Ready tr') t, [THash id lens ids' pend next])
    | None => (t, [TMatch ids' pend next])
    end
  | _, _ => (t, after_match pend next)
  end.

Definition hash_next fs (ok : bool) (id : string) (lens : list N) (ids : list string)
    (pend : list PendingSlice) (next : Then) t : option (JobSlices G * list Task) :=
  match lens with
  | [] => Some (t, [TMatch ids pend next])
  | len :: lens' =>
    name ← filenames t !! id;
    match (if ok then read_range fs (join (work_dir t) name) 0 len else None) with
    | Some b => Some (t, [TFind id len (md5_digest b) lens' ids pend next])
    | None => Some (t, [THash id lens' ids pend next])
    end
  end.

Definition find_by_hash (id : string) (len : N) (digest : bytes) (lens : list N) (ids : list string)
    (pend : list PendingSlice) (next : Then) t : option (JobSlices G * list Task) :=
  match state t with
  | Ready tr =>
    name ← filenames t !! id;
    c ← claim_by_hash id len digest (join (work_dir t) name) tr;
    match c with
    | NotFound => Some (t, [THash id lens ids pend next])
    | Taken => Some (t, [TMatch ids pend next])
    | Matched tr' more => Some (with_state (Ready tr') t, [TMatch ids (pend ++ more) next])
    end
  | _ => Some (t, after_match pend next)
  end.

(** [verify_all]: the read, the verdict, the look at the fold, the fold. *)
Definition verify_next fs (ok : bool) (pend : list PendingSlice) t : JobSlices G * list Task :=
  match pend with
  | [] => (t, spawn_grow t)
  | s :: pend' =>
    match (if ok then read_range fs (p_path s) (p_offset s) (p_len s) else None) with
    | Some b => (t, [TCheck (global_index s) b pend'])
    | None => (t, [TVerify pend'])
    end
  end.

Definition check_slice (gi : nat) (b : bytes) (pend : list PendingSlice) t
    : JobSlices G * list Task :=
  match state t with
  | Ready tr =>
    let '(v, verdict) := verify md5_digest crc32_of (verifier tr) gi b in
    (with_state (Ready (with_verifier v tr)) t, [TJudged gi b verdict pend])
  | _ => (t, [TVerify pend])
  end.

Definition judged (gi : nat) (b : bytes) (verdict : SliceState) (pend : list PendingSlice) t
    : JobSlices G * list Task :=
  (match verdict with
   | Damaged => with_damaged_seen (u64_add (damaged_seen t) 1) t
   | _ => t
   end,
   match fold t with
   | Active _ => [TFold gi b verdict pend]
   | _ => [TVerify pend]
   end).

Definition fold_slice (gi : nat) (b : bytes) (verdict : SliceState) (pend : list PendingSlice) t
    : JobSlices G * list Task :=
  (match fold t, verdict with
   | Active f, Damaged => with_fold (Active (RepairFold.note_corrupt f gi)) t
   | Active f, Verified =>
     match RepairFold.feed f gi b with
     | Ok (f', _) => with_fold (Active f') t
     | Err _ => t
     end
   | _, _ => t
   end, [TVerify pend]).

Definition record_failure (file_id : string) (confirmed : bool) t : JobSlices G * list Task :=
  (with_failures (<[file_id := default true (failures t !! file_id) && confirmed]> (failures t))
     (if confirmed then u64_add (confirmed_missing t) 1 else confirmed_missing t) t,
   if confirmed then [TOpenOrGrow] else []).

Definition open_or_grow t : list Task :=
  match fold t with
  | Idle =>
    match plan t with
    | Some p => [TOpen (rows_for (damage_hint t) (plan_recovery p) (plan_slice_size p))
                   (plan_total p) (plan_slice_size p)]
    | None => []
    end
  | _ => spawn_grow t
  end.

Definition grow_fold t : list Task :=
  let damage := damage_hint t in
  if decide (damage = 0)%N then []
  else match fold t, plan t with
  | Refused, _ | _, None => []
  | Idle, Some p =>
    [TOpen (rows_for damage (plan_recovery p) (plan_slice_size p)) (plan_total p) (plan_slice_size p)]
  | Active _, Some p =>
    [TBegin damage (rows_for damage (plan_recovery p) (plan_slice_size p)) (plan_recovery p)
       (plan_slice_size p)]
  end.

Definition open_fold (rows : N) (total : nat) (ssize : N) t : JobSlices G * list Task :=
  let '(t', created) := create_fold (N.to_nat rows) total ssize t in
  (t', if created then [TPrefix ssize] else []).

(** A batch at a time: the first is taken apart, the rest wait. *)
Definition feed_batches (cs : list (list PendingSlice)) : list Task :=
  match cs with [] => [] | c :: rest => [TFeed c [] rest] end.
Definition backfill_batches (gen : N) (cs : list (list nat)) : list Task :=
  match cs with [] => [] | c :: rest => [TBackfill gen c [] rest] end.

(** The growth of an open fold, under its lock. *)
Definition begin_growth (damage want recovery ssize : N) t : JobSlices G * list Task :=
  match fold t with
  | Active f =>
    let have := N.of_nat (length (RepairFold.rows f)) in
    if RepairFold.growing f || bool_decide (damage ≤ have)%N || bool_decide (want ≤ have)%N then (t, [])
    else
      let target := N.max want (rows_for have recovery ssize) in
      let '(f', r) :=
        RepairFold.begin_growth f (exponents t (N.to_nat have) (N.to_nat target)) in
      (with_fold (Active f') t,
       match r with
       | Ok (Some ticket) =>
         backfill_batches (RepairFold.ticket_generation ticket)
           (chunks (RepairFold.batch_len ssize) (RepairFold.ticket_slices ticket))
       | _ => []
       end)
  | _ => (t, [])
  end.

(** [feed_from_disk]: the look at a source, its read, the end of a batch. *)
Definition feed_next (cur : list PendingSlice) (batch : list (nat * bytes))
    (rest : list (list PendingSlice)) t : JobSlices G * list Task :=
  match fold t with
  | Active f =>
    match cur with
    | s :: cur' =>
      if RepairFold.is_fed f (global_index s) then (t, [TFeed cur' batch rest])
      else (with_fold (Active (RepairFold.note_disk_read f (global_index s) (p_len s))) t,
            [TFeedRead s cur' batch rest])
    | [] =>
      (if decide (batch = []) then t
       else match RepairFold.feed_batch f batch with
            | Ok (f', n) => with_fold (Active (RepairFold.note_disk_fed f' n)) t
            | Err _ => t
            end, feed_batches rest)
    end
  | _ => (t, [])
  end.

Definition feed_read fs (ok : bool) (s : PendingSlice) (cur : list PendingSlice)
    (batch : list (nat * bytes)) (rest : list (list PendingSlice)) : list Task :=
  match (if ok then read_range fs (p_path s) (p_offset s) (p_len s) else None) with
  | Some b => [TFeed cur (batch ++ [(global_index s, b)]) rest]
  | None => [TFeed cur batch rest]
  end.

(** [backfill_growth]: finding a slice, its read, the end of a batch. *)
Definition abandon (gen : N) t : JobSlices G :=
  match fold t with
  | Active f => with_fold (Active (RepairFold.abandon_growth_of f gen)) t
  | _ => t
  end.

Definition backfill_next (gen : N) (cur : list nat) (batch : list (nat * bytes))
    (rest : list (list nat)) t : JobSlices G * list Task :=
  match cur with
  | gi :: cur' =>
    match (match state t with Ready tr => slice_source tr gi | _ => None end) with
    | Some s => (t, [TBackRead gen s cur' batch rest])
    | None => (abandon gen t, [])
    end
  | [] =>
    match fold t with
    | Active f =>
      let '(f', live) := RepairFold.backfill f gen batch in
      (with_fold (Active f') t, if live then backfill_batches gen rest else [])
    | _ => (t, [])
    end
  end.

Definition backfill_read fs (ok : bool) (gen : N) (s : PendingSlice) (cur : list nat)
    (batch : list (nat * bytes)) (rest : list (list nat)) t : JobSlices G * list Task :=
  match (if ok then read_range fs (p_path s) (p_offset s) (p_len s) else None) with
  | Some b =>
    (match fold t with
     | Active f => with_fold (Active (RepairFold.note_disk_read f (global_index s) (N.of_nat (length b)))) t
     | _ => t
     end, [TBackfill gen cur (batch ++ [(global_index s, b)]) rest])
  | None => (abandon gen t, [])
  end.

(** One section of a running call; [ok] tells whether its disk read, if it
    makes one, is carried out. *)
Definition step_task fs (ok : bool) (k : Task) t : option (JobSlices G * list Task) :=
  match k with
  | TMark file_id offset len complete => record_write file_id offset len complete t
  | TClaim index_id pend own => Some (claim_and_install index_id pend own t)
  | TInstall index_id pend own => Some (install fs index_id pend own t)
  | TReplay tr pend own => install_replay tr pend own t
  | TMatch ids pend next => Some (match_next ids pend next t)
  | THash id lens ids pend next => hash_next fs ok id lens ids pend next t
  | TFind id len digest lens ids pend next => find_by_hash id len digest lens ids pend next t
  | TVerify pend => Some (verify_next fs ok pend t)
  | TCheck gi b pend => Some (check_slice gi b pend t)
  | TJudged gi b verdict pend => Some (judged gi b verdict pend t)
  | TFold gi b verdict pend => Some (fold_slice gi b verdict pend t)
  | TFailed file_id confirmed => Some (record_failure file_id confirmed t)
  | TOpenOrGrow => Some (t, open_or_grow t)
  | TGrow => Some (t, grow_fold t)
  | TOpen rows total ssize => Some (open_fold rows total ssize t)
  | TBegin damage want recovery ssize => Some (begin_growth damage want recovery ssize t)
  | TPrefix ssize => Some (t, feed_batches (chunks (RepairFold.batch_len ssize) (prefix_sources (state t))))
  | TFeed cur batch rest => Some (feed_next cur batch rest t)
  | TFeedRead s cur batch rest => Some (t, feed_read fs ok s cur batch rest)
  | TBackfill gen cur batch rest => Some (backfill_next gen cur batch rest t)
  | TBackRead gen s cur batch rest => Some (backfill_read fs ok gen s cur batch rest t)
  end.
End tracker.
