(* ===== verification/SliceCells.v ===== *)
(** * Slice cells under interleaved marks and verdicts

    The marks of [SliceMap.mark_written] on several files, interleaved with
    verdicts: what each cell of the map says of the writes marked so far.
    These are the lemmas [SliceRun] uses; [SliceMap] has the properties of one
    file on its own. *)
From S2P Require Import Prelude FileSystem SliceMap Par2Match SliceTracker.

Section cells.
Context (L : SliceLayout) (HL : ∀ fi f, layout_files L !! fi = Some f → fits L f).

Abbreviation base := (first_slice (layout_files L)).

(** Slice [gi] of the set is slice [i] of file [fi]. *)
Definition at_slice (gi fi : nat) (f : FileSlices) (i : nat) (d : SliceDigest) : Prop :=
  layout_files L !! fi = Some f ∧ slices f !! i = Some d ∧ gi = base fi + i.

Lemma first_slice_mono files a b : a ≤ b → first_slice files a ≤ first_slice files b.
Proof.
  intros Hab. unfold first_slice.
  rewrite <-(take_drop a (take b files)), sum_list_with_app, take_take, Nat.min_l by done. lia.
Qed.

Lemma at_slice_lt gi fi f i d : at_slice gi fi f i d → base fi ≤ gi < base (S fi).
Proof.
  intros (Hf & Hi%lookup_lt_Some & ->). rewrite (first_slice_S _ _ _ Hf). lia.
Qed.

Lemma at_slice_inj gi fi f i d fi' f' i' d' :
  at_slice gi fi f i d → at_slice gi fi' f' i' d' → fi' = fi ∧ f' = f ∧ i' = i ∧ d' = d.
Proof.
  intros H1 H2. pose proof (at_slice_lt _ _ _ _ _ H1). pose proof (at_slice_lt _ _ _ _ _ H2).
  assert (fi' = fi) as ->.
  { destruct (lt_eq_lt_dec fi' fi) as [[Hlt|]|Hlt]; [exfalso|done|exfalso].
    - pose proof (first_slice_mono (layout_files L) (S fi') fi). lia.
    - pose proof (first_slice_mono (layout_files L) (S fi) fi'). lia. }
  destruct H1 as (Hf & Hi & ->), H2 as (Hf' & Hi' & Heq). simplify_eq.
  assert (i' = i) as -> by lia. by simplify_eq.
Qed.

Lemma total_new : total_slices (SliceMap.new L) = base (length (layout_files L)).
Proof.
  unfold total_slices, SliceMap.new. rewrite new_cells_spec. simpl.
  rewrite (length_concat_imap _ (λ f, length (slices f))) by (intros; apply length_imap).
  unfold first_slice. by rewrite firstn_all.
Qed.

Lemma at_slice_total gi : gi < total_slices (SliceMap.new L) → ∃ fi f i d, at_slice gi fi f i d.
Proof.
  rewrite total_new. generalize (le_n (length (layout_files L))).
  generalize (length (layout_files L)) at 1 3 as k. intros k. induction k as [|k IH]; intros Hk Hgi.
  { unfold first_slice in Hgi. rewrite take_0 in Hgi. simpl in Hgi. lia. }
  destruct (lookup_lt_is_Some_2 (layout_files L) k) as [f Hf]; [lia|].
  destruct (decide (gi < base k)) as [Hlt|Hge]; [apply IH; lia|].
  rewrite (first_slice_S _ _ _ Hf) in Hgi.
  destruct (lookup_lt_is_Some_2 (slices f) (gi - base k)) as [d Hd]; [lia|].
  exists k, f, (gi - base k), d. split_and!; [done|done|lia].
Qed.

Lemma at_slice_in gi fi f i d : at_slice gi fi f i d → gi < total_slices (SliceMap.new L).
Proof.
  intros Hat. pose proof (at_slice_lt _ _ _ _ _ Hat) as [_ Hlt]. rewrite total_new.
  destruct Hat as (Hf%lookup_lt_Some & _).
  pose proof (first_slice_mono (layout_files L) (S fi) (length (layout_files L))). lia.
Qed.

(** ** The cells of a map *)

(** A cell of slice [i] of file [fi], with the writes [ws] marked so far. *)
Record cell_ok (fi : nat) (f : FileSlices) (i : nat) (d : SliceDigest) (ws : list Write)
    (c : SliceCell) : Prop := {
  cell_file : file_index c = fi;
  cell_start : start c = slice_start L i;
  cell_len : len c = slice_len L f i;
  cell_expected : expected c = d;
  cell_filled : SliceMap.state c = Unknown → filled c = N.of_nat (filled_by L f ws i);
}.

(** The map [v] when the writes [ws fi] are marked for each file [fi]. *)
Record cells_ok (ws : nat → list Write) (v : SliceVerifier) : Prop := {
  cells_size : slice_size v = layout_slice_size L;
  cells_bounds : file_bounds v = file_bounds (SliceMap.new L);
  cells_length : total_slices v = total_slices (SliceMap.new L);
  cells_cell gi fi f i d : at_slice gi fi f i d →
    ∃ c, cells v !! gi = Some c ∧ cell_ok fi f i d (ws fi) c;
}.

Definition state_of (v : SliceVerifier) (gi : nat) : option SliceState :=
  SliceMap.state <$> cells v !! gi.

Definition add_write (ws : nat → list Write) (fi : nat) (more : list Write) (j : nat) : list Write :=
  if decide (j = fi) then ws fi ++ more else ws j.

Lemma filled_by_nil f i : filled_by L f [] i = 0.
Proof.
  unfold filled_by. generalize (slice_start L i), (N.to_nat (slice_len L f i)). intros s n.
  revert s. induction n as [|n IH]; intros s; simpl; [done|]. apply IH.
Qed.

Lemma cells_ok_new : cells_ok (λ _, []) (SliceMap.new L).
Proof.
  split; [| done | done |].
  { unfold SliceMap.new. by destruct (new_cells _ _ _ _ _). }
  intros gi fi f i d (Hf & Hi & ->).
  eexists. split; [by apply new_cell_lookup|].
  destruct (new_cell_fits L fi f i d (HL _ _ Hf) Hi) as (Hst & Hln & _).
  split; [done|done|done|done|]. intros _. by rewrite filled_by_nil.
Qed.

Lemma states_new gi s : state_of (SliceMap.new L) gi = Some s → s = Unknown.
Proof.
  unfold state_of. destruct (cells _ !! gi) as [c|] eqn:Hc; [|done]. simpl. intros [= <-].
  destruct (at_slice_total gi) as (fi & f & i & d & Hf & Hi & ->).
  { by apply lookup_lt_Some in Hc. }
  rewrite (new_cell_lookup _ _ _ _ _ Hf Hi) in Hc. by simplify_eq.
Qed.

Lemma mark_cell_state w0 w1 c : SliceMap.state (mark_cell w0 w1 c).1 = SliceMap.state c.
Proof. unfold mark_cell. by repeat case_decide. Qed.

Lemma mark_cell_decided w0 w1 c :
  SliceMap.state c ≠ Unknown → mark_cell w0 w1 c = (c, false).
Proof. intros. unfold mark_cell. by rewrite decide_True. Qed.

Lemma unknown_cell fi f i d ws c :
  layout_files L !! fi = Some f → slices f !! i = Some d →
  cell_ok fi f i d ws c → SliceMap.state c = Unknown →
  c = with_filled (new_cell (layout_slice_size L) fi f i d) (N.of_nat (filled_by L f ws i)).
Proof.
  intros Hf Hi [H1 H2 H3 H4 H5] Hu. specialize (H5 Hu).
  destruct (new_cell_fits L fi f i d (HL _ _ Hf) Hi) as (Hst & Hln & _).
  destruct c as [? ? ? ? ? st]. unfold with_filled. simpl in *. subst. by rewrite <-Hst, <-Hln.
Qed.

Lemma mark_cell_ok fi f i d ws w c :
  layout_files L !! fi = Some f → slices f !! i = Some d → cell_ok fi f i d ws c →
  (∀ b, covered ws b = true → in_write w b = true → False) →
  cell_ok fi f i d (ws ++ [w]) (mark_cell w.1 (w.1 + w.2) c).1 ∧
  ((mark_cell w.1 (w.1 + w.2) c).2 = true ↔
    SliceMap.state c = Unknown ∧ (0 < slice_len L f i)%N ∧ slice_covered L f (ws ++ [w]) i ∧
    ¬ slice_covered L f ws i).
Proof.
  intros Hf Hi Hc Hdis. destruct (decide (SliceMap.state c = Unknown)) as [Hu|Hu].
  - destruct (mark_cell_step L fi f ws w i d (HL _ _ Hf) Hi Hdis) as [H1 H2].
    rewrite <-(unknown_cell fi f i d ws c) in H1, H2 by done. split.
    + rewrite H1. destruct (new_cell_fits L fi f i d (HL _ _ Hf) Hi) as (Hst & Hln & _). by split.
    + rewrite H2. tauto.
  - rewrite mark_cell_decided by done. destruct Hc. split; [by split|]. naive_solver.
Qed.

(** One write, disjoint from the file's earlier ones. *)
Lemma mark_written_ok ws v fi f w :
  cells_ok ws v → layout_files L !! fi = Some f → (w.1 + w.2 < 2 ^ 64)%N →
  (∀ b, covered (ws fi) b = true → in_write w b = true → False) →
  ∃ v' dn, mark_written v fi w.1 w.2 = Some (v', dn) ∧
    cells_ok (add_write ws fi [w]) v' ∧ (∀ gi, state_of v' gi = state_of v gi) ∧
    ∀ gi, gi ∈ dn ↔ ∃ i d, at_slice gi fi f i d ∧ state_of v gi = Some Unknown ∧
      (0 < slice_len L f i)%N ∧ slice_covered L f (ws fi ++ [w]) i ∧ ¬ slice_covered L f (ws fi) i.
Proof.
  intros [Hsz Hb Hl Hc] Hf Hw Hdis. destruct (new_bounds _ _ _ Hf) as [Hb1 Hb2].
  unfold mark_written. rewrite Hb, Hb1. simpl. rewrite Hb2. simpl.
  rewrite (first_slice_S _ _ _ Hf).
  replace (base fi + length (slices f) - base fi) with (length (slices f)) by lia.
  rewrite u64_add_small by done.
  set (gis := seq (base fi) (length (slices f))).
  assert (∀ gi, gi ∈ gis ↔ ∃ i d, at_slice gi fi f i d) as Hgis.
  { intros gi. unfold gis. rewrite elem_of_seq. split.
    - intros Hgi. destruct (lookup_lt_is_Some_2 (slices f) (gi - base fi)) as [d Hd]; [lia|].
      exists (gi - base fi), d. split_and!; [done|done|lia].
    - intros (i & d & _ & Hi%lookup_lt_Some & ->). lia. }
  destruct (mark_cells_spec w.1 (w.1 + w.2) gis (cells v)) as (cs' & -> & Hcs').
  { apply NoDup_seq. }
  { intros gi (i & d & Hat)%Hgis. destruct (Hc _ _ _ _ _ Hat) as (c & Hgi & _).
    by eapply lookup_lt_Some. }
  simpl. eexists _, _. split; [done|].
  assert (∀ gi, state_of (with_cells v cs') gi = state_of v gi) as Hst.
  { intros gi. unfold state_of. simpl. rewrite Hcs'. case_decide; [|done].
    destruct (cells v !! gi) as [c|]; [|done]. simpl. by rewrite mark_cell_state. }
  split; [|split; [done|]].
  - split; simpl; [done|done| |].
    + rewrite <-Hl. unfold total_slices. simpl. apply length_lookup_iff. intros j. rewrite Hcs'.
      case_decide; [by rewrite fmap_is_Some|done].
    + intros gi fi' f' i d Hat. destruct (Hc _ _ _ _ _ Hat) as (c & Hgi & Hok).
      rewrite Hcs', Hgi. unfold add_write. destruct (decide (fi' = fi)) as [->|Hne].
      * pose proof Hat as (Hf' & Hi & _). simplify_eq. rewrite decide_True by (apply Hgis; eauto).
        simpl. eexists. split; [done|]. by apply (mark_cell_ok fi f i d (ws fi) w c).
      * rewrite decide_False; [eauto|]. intros (i' & d' & Hat')%Hgis.
        destruct (at_slice_inj _ _ _ _ _ _ _ _ _ Hat Hat'). done.
  - intros gi. rewrite list_elem_of_filter, Hgis. unfold completes, state_of. split.
    + intros [Hcomp (i & d & Hat)]. destruct (Hc _ _ _ _ _ Hat) as (c & Hgi & Hok).
      rewrite Hgi in *. pose proof Hat as (_ & Hi & _). exists i, d. simpl.
      apply (mark_cell_ok fi f i d (ws fi) w c) in Hcomp; [|done..]. destruct Hcomp as (-> & ? & ? & ?).
      done.
    + intros (i & d & Hat & Hu & Hrest). split; [|eauto].
      destruct (Hc _ _ _ _ _ Hat) as (c & Hgi & Hok). rewrite Hgi in *. simpl in Hu. simplify_eq.
      pose proof Hat as (_ & Hi & _). by apply (mark_cell_ok fi f i d (ws fi) w c).
Qed.

(** ** The writes of a file in a row *)

(** The slice [s] of file [fi], found at [p]. *)
Definition located (s : PendingSlice) (fi : nat) (p : path) (f : FileSlices) (i : nat) : Prop :=
  (∃ d, at_slice (global_index s) fi f i d) ∧
  p_path s = p ∧ p_offset s = slice_start L i ∧ p_len s = slice_len L f i.

Lemma pending_for_ok ws v p dn s :
  cells_ok ws v →
  s ∈ pending_for v p dn →
  global_index s ∈ dn ∧ ∀ fi f i d, at_slice (global_index s) fi f i d → located s fi p f i.
Proof.
  intros Hv (gi & Hgi & Hs)%list_elem_of_omap. apply fmap_Some in Hs as (r & Hr & ->). simpl.
  split; [done|]. intros fi f i d Hat. destruct (cells_cell _ _ Hv _ _ _ _ _ Hat) as (c & Hc & Hok).
  unfold slice_range in Hr. rewrite Hc in Hr. simplify_eq/=.
  split; [eauto|]. simpl. by rewrite (cell_start _ _ _ _ _ _ Hok), (cell_len _ _ _ _ _ _ Hok).
Qed.

Lemma pending_for_complete ws v p dn gi fi f i d :
  cells_ok ws v → gi ∈ dn → at_slice gi fi f i d → ∃ s, s ∈ pending_for v p dn ∧ global_index s = gi.
Proof.
  intros Hv Hgi Hat. destruct (cells_cell _ _ Hv _ _ _ _ _ Hat) as (c & Hc & _).
  eexists. split; [|shelve]. apply list_elem_of_omap. exists gi. split; [done|].
  unfold slice_range. rewrite Hc. done. Unshelve. done.
Qed.

Lemma slice_covered_mono f ws more i :
  slice_covered L f ws i → slice_covered L f (ws ++ more) i.
Proof.
  intros Hs b Hb. unfold covered. rewrite existsb_app. apply orb_true_iff. left. by apply Hs.
Qed.

(** [covered] is decided at once for a slice. *)
Lemma slice_covered_dec f ws i : slice_covered L f ws i ∨ ¬ slice_covered L f ws i.
Proof. rewrite slice_covered_iff. destruct (decide (filled_by L f ws i = N.to_nat (slice_len L f i))); auto. Qed.

Lemma disjoint_app_inv ws w more :
  disjoint_writes (ws ++ w :: more) → ∀ b, covered ws b = true → in_write w b = true → False.
Proof.
  intros Hdis b Hb1 Hb2. apply existsb_exists in Hb1 as (w' & Hw' & Hb1).
  apply list_elem_of_In, list_elem_of_lookup_1 in Hw' as [i Hi].
  apply (Hdis i (length ws) w' w b); [by apply lookup_app_l_Some| | |done..].
  - by rewrite list_lookup_middle.
  - pose proof (lookup_lt_Some _ _ _ Hi). lia.
Qed.

Lemma mark_writes_ok fi f p more : ∀ ws v,
  cells_ok ws v → layout_files L !! fi = Some f → Forall (λ w, (w.1 + w.2 < 2 ^ 64)%N) more →
  disjoint_writes (ws fi ++ more) →
  ∃ v' pend, mark_writes fi p more v = Some (v', pend) ∧
    cells_ok (add_write ws fi more) v' ∧ (∀ gi, state_of v' gi = state_of v gi) ∧
    (∀ s, s ∈ pend → ∃ i, located s fi p f i ∧ slice_covered L f (ws fi ++ more) i) ∧
    (∀ gi i d, at_slice gi fi f i d → state_of v gi = Some Unknown → (0 < slice_len L f i)%N →
       slice_covered L f (ws fi ++ more) i → ¬ slice_covered L f (ws fi) i →
       ∃ s, s ∈ pend ∧ global_index s = gi).
Proof.
  induction more as [|w more IH]; intros ws v Hv Hf Hb Hdis; simpl.
  { exists v, []. split; [done|]. split_and!.
    - destruct Hv as [H1 H2 H3 H4]. split; [done..|]. intros gi fi' f' i d Hat. unfold add_write.
      destruct (decide (fi' = fi)) as [->|]; [rewrite app_nil_r|]; eauto.
    - done.
    - intros s Hs. by apply elem_of_nil in Hs.
    - intros gi i d _ _ _. by rewrite app_nil_r. }
  apply Forall_cons in Hb as [Hw Hb].
  destruct (mark_written_ok ws v fi f w) as (v1 & dn & -> & Hv1 & Hst1 & Hdn);
    [done|done|done|by eapply disjoint_app_inv|].
  simpl. destruct (IH (add_write ws fi [w]) v1) as (v2 & pend & -> & Hv2 & Hst2 & Hp1 & Hp2);
    [done|done|done|unfold add_write; rewrite decide_True by done; by rewrite <-app_assoc|].
  assert (add_write ws fi [w] fi = ws fi ++ [w]) as Hadd by (unfold add_write; by rewrite decide_True).
  rewrite Hadd, <-app_assoc in Hp1, Hp2. simpl in Hp1, Hp2.
  simpl. eexists _, _. split; [done|]. split_and!.
  - destruct Hv2 as [H1 H2 H3 H4]. split; [done..|]. intros gi fi' f' i d Hat.
    destruct (H4 _ _ _ _ _ Hat) as (c & Hc & Hok). exists c. split; [done|].
    unfold add_write in *. destruct (decide (fi' = fi)); [|done].
    rewrite decide_True in Hok by done. by rewrite <-app_assoc in Hok.
  - intros gi. by rewrite Hst2, Hst1.
  - intros s [Hs|Hs]%elem_of_app; [|by apply Hp1].
    apply (pending_for_ok _ _ _ _ _ Hv1) in Hs as [Hs Hloc].
    apply Hdn in Hs as (i & d & Hat & _ & _ & Hcov & _). exists i. split; [by eapply Hloc|].
    apply (slice_covered_mono f _ more) in Hcov. by rewrite <-app_assoc in Hcov.
  - intros gi i d Hat Hu Hlen Hcov Hncov.
    destruct (slice_covered_dec f (ws fi ++ [w]) i) as [Hc1|Hc1].
    + destruct (pending_for_complete _ v1 p dn gi fi f i d Hv1) as (s & Hs & <-); [|done|].
      * apply Hdn. exists i, d. auto.
      * exists s. split; [|done]. apply elem_of_app. by left.
    + destruct (Hp2 gi i d) as (s & Hs & <-); [done|by rewrite Hst1|done|done|done|].
      exists s. split; [|done]. apply elem_of_app. by right.
Qed.

(** ** Verdicts *)
Definition set_state (v : SliceVerifier) (gi : nat) (s : SliceState) : SliceVerifier :=
  with_cells v (alter (λ c, SliceMap.with_state c s) gi (cells v)).

Lemma set_state_ok ws v gi s : cells_ok ws v → s ≠ Unknown → cells_ok ws (set_state v gi s).
Proof.
  intros [H1 H2 H3 H4] Hs. split; simpl; [done|done| |].
  - unfold total_slices in *. simpl. by rewrite length_alter.
  - intros gj fi f i d Hat. destruct (H4 _ _ _ _ _ Hat) as (c & Hc & [E1 E2 E3 E4 E5]).
    destruct (decide (gi = gj)) as [<-|Hne].
    + rewrite list_lookup_alter_eq, Hc. simpl. eexists. split; [done|]. by split.
    + rewrite list_lookup_alter_ne by done. exists c. by split.
Qed.

Lemma set_state_of v gi s gj :
  state_of (set_state v gi s) gj = if decide (gi = gj) then (λ _, s) <$> state_of v gj else state_of v gj.
Proof.
  unfold state_of, set_state. simpl. case_decide as Heq.
  - subst. rewrite list_lookup_alter_eq. by destruct (cells v !! gj).
  - by rewrite list_lookup_alter_ne.
Qed.

Lemma mark_damaged_set v gi : mark_damaged v gi = set_state v gi Damaged.
Proof.
  unfold mark_damaged, set_state. destruct (cells v !! gi) as [c|] eqn:Hc.
  - f_equal. apply list_eq. intros j. destruct (decide (gi = j)) as [<-|Hne].
    + rewrite list_lookup_insert_eq by (by eapply lookup_lt_Some).
      by rewrite list_lookup_alter_eq, Hc.
    + by rewrite list_lookup_insert_ne, list_lookup_alter_ne.
  - destruct v as [ss cs bs]. unfold with_cells. simpl in *. f_equal. symmetry.
    apply list_eq. intros j. destruct (decide (gi = j)) as [<-|Hne].
    + by rewrite list_lookup_alter_eq, Hc.
    + by rewrite list_lookup_alter_ne.
Qed.

Section verdicts.
Context (md5_digest : bytes → bytes) (crc32_of : bytes → N).

Definition judge (d : SliceDigest) (b : bytes) : SliceState :=
  if decide (digest_of md5_digest crc32_of (layout_slice_size L) b = d) then Verified else Damaged.

Lemma verify_set ws v gi fi f i d b :
  cells_ok ws v → at_slice gi fi f i d →
  verify md5_digest crc32_of v gi b = (set_state v gi (judge d b), judge d b).
Proof.
  intros Hv Hat. destruct (cells_cell _ _ Hv _ _ _ _ _ Hat) as (c & Hc & Hok).
  destruct (verify_cells md5_digest crc32_of v gi b) as [Hcs _].
  assert (verdict md5_digest crc32_of v c b = judge d b) as Hj.
  { unfold verdict, judge. rewrite (cells_size _ _ Hv), (cell_expected _ _ _ _ _ _ Hok). done. }
  unfold verify in *. rewrite Hc in *. cbv zeta in *.
  assert (∀ s, s = judge d b → (with_cells v (<[gi := SliceMap.with_state c s]> (cells v)), s) =
    (set_state v gi (judge d b), judge d b)) as Hgen.
  { intros s ->. f_equal. unfold set_state. f_equal. apply list_eq. intros j.
    destruct (decide (gi = j)) as [<-|Hne].
    - rewrite list_lookup_insert_eq by (by eapply lookup_lt_Some).
      by rewrite list_lookup_alter_eq, Hc.
    - by rewrite list_lookup_insert_ne, list_lookup_alter_ne. }
  apply Hgen. rewrite <-Hj. unfold verdict. destruct (expected c) as [em ec].
  apply decide_ext. unfold digest_of. simpl. split; [intros []; congruence|by intros [= -> ->]].
Qed.
End verdicts.
End cells.
