(* ===== verification/SliceRun.v ===== *)
(** * The slice tracker among its workers

    [Sys] is the tracker of a job with the disk its files are on, the calls
    that run on it, and a record of what was written; [step] lets any of them
    take its next step, and the disk change outside the bytes already
    written. The invariant: what the tracker believes of a slice is on the
    disk. *)
From S2P Require Import Prelude Str FileSystem SliceMap Par2Match SliceTracker SliceCells.
From S2P Require RepairFold.

(** ** Writes that share no byte *)
Definition once (ws : list Write) : Prop :=
  ∀ b, length (filter (λ w, in_write w b = true) ws) ≤ 1.

Lemma once_later ws i j wi wj b :
  once ws → i < j → ws !! i = Some wi → ws !! j = Some wj →
  in_write wi b = true → in_write wj b = true → False.
Proof.
  intros Ho Hij Hi Hj Hwi Hwj. specialize (Ho b).
  rewrite <-(take_drop_middle _ _ _ Hi) in Ho, Hj.
  rewrite lookup_app_r in Hj by (rewrite length_take; lia).
  rewrite length_take, Nat.min_l in Hj by (apply lookup_lt_Some in Hi; lia).
  destruct (j - i) as [|k] eqn:Hk; [lia|]. simpl in Hj. apply list_elem_of_lookup_2 in Hj.
  apply list_elem_of_split in Hj as (l1 & l2 & Hl). rewrite Hl in Ho.
  rewrite !filter_app, filter_cons, decide_True, filter_app, filter_cons, decide_True in Ho by done.
  rewrite !length_app in Ho. simpl in Ho. rewrite length_app in Ho. simpl in Ho. lia.
Qed.

Lemma once_disjoint ws : once ws → disjoint_writes ws.
Proof.
  intros Ho i j wi wj b Hi Hj Hij Hwi Hwj.
  destruct (lt_eq_lt_dec i j) as [[?|?]|?]; [by eapply (once_later ws i j)|done|by eapply (once_later ws j i)].
Qed.

#[export] Instance once_perm : Proper ((≡ₚ) ==> iff) once.
Proof. intros l l' Hl. unfold once. split; intros Ho b; [rewrite <-Hl|rewrite Hl]; apply Ho. Qed.

Lemma once_app_l ws more : once (ws ++ more) → once ws.
Proof. intros Ho b. specialize (Ho b). rewrite filter_app, length_app in Ho. lia. Qed.

Lemma covered_filter ws b : covered ws b = false → filter (λ w, in_write w b = true) ws = [].
Proof.
  unfold covered. induction ws as [|w ws IH]; simpl; [done|].
  intros [Hw Hws]%orb_false_iff. rewrite filter_cons, decide_False by (by rewrite Hw). auto.
Qed.

Lemma once_snoc ws w :
  once ws → (∀ b, covered ws b = true → in_write w b = true → False) → once (ws ++ [w]).
Proof.
  intros Ho Hdis b. specialize (Ho b). rewrite filter_app, length_app, filter_cons. simpl.
  case_decide as Hw; simpl; [|lia]. destruct (covered ws b) eqn:Hc; [by destruct (Hdis b)|].
  by rewrite covered_filter.
Qed.

(** The writes of one file in a log of writes. *)
Definition writes_of (id : string) (l : list (string * Write)) : list Write :=
  snd <$> filter (λ kw, kw.1 = id) l.

Lemma writes_of_app id l l' : writes_of id (l ++ l') = writes_of id l ++ writes_of id l'.
Proof. unfold writes_of. by rewrite filter_app, fmap_app. Qed.

Lemma writes_of_one id id' w : writes_of id [(id', w)] = if decide (id' = id) then [w] else [].
Proof. unfold writes_of. rewrite filter_cons. simpl. by case_decide. Qed.

#[export] Instance writes_of_perm id : Proper ((≡ₚ) ==> (≡ₚ)) (writes_of id).
Proof. intros l l' Hl. unfold writes_of. by rewrite Hl. Qed.

Lemma elem_of_writes_of id l w : w ∈ writes_of id l ↔ (id, w) ∈ l.
Proof.
  unfold writes_of. rewrite list_elem_of_fmap. split.
  - intros ([id' w'] & -> & [Heq Hin]%list_elem_of_filter). simpl in *. by subst.
  - intros Hin. exists (id, w). split; [done|]. by apply list_elem_of_filter.
Qed.

(** ** The tracked files *)
Section tracked.
Context (L : SliceLayout) (HL : ∀ fi f, layout_files L !! fi = Some f → fits L f).
(** Where a file of the job is. *)
Context (names : string → option path).

(** A map that has accounted for the writes [seen id] of each file [id]. *)
Record tracked_ok (seen : string → list Write) (tr : Tracked) (ws : nat → list Write) : Prop := {
  to_cells : cells_ok L ws (verifier tr);
  to_files id idx p : files tr !! id = Some (idx, p) →
    names id = Some p ∧ idx ∈ claimed tr ∧ idx < length (layout_files L) ∧ unmatched tr !! id = None;
  to_inj id id' idx p p' : files tr !! id = Some (idx, p) → files tr !! id' = Some (idx, p') → id = id';
  to_seen id idx p : files tr !! id = Some (idx, p) → idx ∉ untracked tr → ws idx = seen id;
  to_none idx : ws idx ≠ [] → ∃ id p, files tr !! id = Some (idx, p) ∧ idx ∉ untracked tr;
  to_unmatched id l : unmatched tr !! id = Some l → l = seen id ∧ is_Some (names id);
  to_par2 : length (par2_files tr) = length (layout_files L);
}.

Definition upd (seen : string → list Write) (id : string) (l : list Write) (id' : string) : list Write :=
  if decide (id' = id) then l else seen id'.

(** The slices of [pend] are those of file [idx] at [p], with every byte in
    [l]; [mk] are the ones the writes after [old] completed. *)
Definition slices_of (idx : nat) (p : path) (f : FileSlices) (old l : list Write) (v : SliceVerifier)
    (pend : list PendingSlice) : Prop :=
  (∀ s, s ∈ pend → ∃ i, located L s idx p f i ∧ slice_covered L f l i) ∧
  (∀ gi i d, at_slice L gi idx f i d → state_of v gi = Some Unknown → (0 < slice_len L f i)%N →
     slice_covered L f l i → ¬ slice_covered L f old i → ∃ s, s ∈ pend ∧ global_index s = gi).

Lemma mark_file seen tr ws id idx p more :
  tracked_ok seen tr ws → files tr !! id = Some (idx, p) → idx ∉ untracked tr →
  Forall (λ w, (w.1 + w.2 < 2 ^ 64)%N) more → once (seen id ++ more) →
  ∃ f v pend, layout_files L !! idx = Some f ∧
    mark_writes idx p more (verifier tr) = Some (v, pend) ∧
    tracked_ok (upd seen id (seen id ++ more)) (with_verifier v tr) (add_write ws idx more) ∧
    (∀ gi, state_of v gi = state_of (verifier tr) gi) ∧
    slices_of idx p f (seen id) (seen id ++ more) (verifier tr) pend.
Proof.
  intros [Hc Hf Hi Hs Hn Hu Hp] Hfile Hunt Hb Ho.
  destruct (Hf _ _ _ Hfile) as (Hname & Hcl & Hlt & Hum).
  destruct (lookup_lt_is_Some_2 _ _ Hlt) as [f HLf].
  rewrite <-(Hs _ _ _ Hfile Hunt) in *.
  destruct (mark_writes_ok L HL idx f p more ws (verifier tr)) as (v & pend & Hm & Hv & Hst & Hp1 & Hp2);
    [done|done|done|by apply once_disjoint|].
  exists f, v, pend. split; [done|]. split; [done|]. split; [|by split].
  split; simpl; [done|done|done| | | |done].
  - intros id' idx' p' Hfile' Hunt'. unfold upd, add_write. destruct (decide (id' = id)) as [->|Hne].
    + rewrite Hfile in Hfile'. simplify_eq. by rewrite decide_True.
    + rewrite decide_False; [eauto|]. intros ->. by apply Hne, (Hi _ _ idx p' p).
  - intros idx'. unfold add_write. case_decide; [subst; eauto|apply Hn].
  - intros id' l Hl. unfold upd. rewrite decide_False; [by apply Hu|]. intros ->. congruence.
Qed.

Lemma hold_write seen tr ws id old more :
  tracked_ok seen tr ws → unmatched tr !! id = Some old →
  tracked_ok (upd seen id (old ++ more)) (with_unmatched (<[id := old ++ more]> (unmatched tr)) tr) ws.
Proof.
  intros [Hc Hf Hi Hs Hn Hu Hp] Hold.
  assert (∀ idx p, files tr !! id = Some (idx, p) → False) as Hno.
  { intros idx p Hfile. apply Hf in Hfile as (_ & _ & _ & ?). congruence. }
  split; simpl; [done| |done| |done| |done].
  - intros id' idx p Hfile. destruct (Hf _ _ _ Hfile) as (? & ? & ? & ?). split_and!; [done..|].
    rewrite lookup_insert_ne; [done|]. intros ->. eauto.
  - intros id' idx p Hfile Hunt. unfold upd. rewrite decide_False; [eauto|]. intros ->. eauto.
  - intros id' l. unfold upd. case_decide as Hid.
    + subst. rewrite lookup_insert_eq. intros [= <-]. split; [done|]. by eapply Hu.
    + rewrite lookup_insert_ne by done. apply Hu.
Qed.

(** A file that is neither tracked nor waiting for a match is not looked at. *)
Lemma ignore_write seen tr ws id l :
  tracked_ok seen tr ws → unmatched tr !! id = None →
  (∀ idx p, files tr !! id = Some (idx, p) → idx ∈ untracked tr) →
  tracked_ok (upd seen id l) tr ws.
Proof.
  intros [Hc Hf Hi Hs Hn Hu Hp] Hnone Hunt. split; [done|done|done| |done| |done].
  - intros id' idx p Hfile Hni. unfold upd. case_decide as Hid; [|eauto]. subst.
    by apply Hunt in Hfile.
  - intros id' l' Hl. unfold upd. case_decide as Hid; [|eauto]. congruence.
Qed.

Lemma tracked_ok_ext seen seen' tr ws :
  (∀ id, seen id = seen' id) → tracked_ok seen tr ws → tracked_ok seen' tr ws.
Proof.
  intros Heq [Hc Hf Hi Hs Hn Hu Hp]. split; [done|done|done| |done| |done].
  - intros. rewrite <-Heq. eauto.
  - intros. rewrite <-Heq. eauto.
Qed.

(** A file found by its hash. *)
Lemma claim_file_ok seen tr ws id idx p l :
  tracked_ok seen tr ws → unmatched tr !! id = Some l → idx ∉ claimed tr →
  idx < length (layout_files L) → names id = Some p →
  Forall (λ w, (w.1 + w.2 < 2 ^ 64)%N) l → once l →
  ∃ f v pend, layout_files L !! idx = Some f ∧
    mark_writes idx p l (verifier tr) = Some (v, pend) ∧
    tracked_ok seen (claim_file id idx p v tr) (add_write ws idx l) ∧
    (∀ gi, state_of v gi = state_of (verifier tr) gi) ∧
    slices_of idx p f [] (seen id) (verifier tr) pend.
Proof.
  intros [Hc Hf Hi Hs Hn Hu Hp] Hl Hcl Hlt Hname Hb Ho.
  assert (∀ id' p', files tr !! id' = Some (idx, p') → False) as Hno.
  { intros id' p' Hfile. by apply Hf in Hfile as (_ & ? & _). }
  assert (ws idx = []) as Hws.
  { destruct (decide (ws idx = [])) as [|Hne]; [done|].
    destruct (Hn _ Hne) as (id' & p' & Hfile & _). by destruct (Hno _ _ Hfile). }
  destruct (Hu _ _ Hl) as [-> _].
  destruct (lookup_lt_is_Some_2 _ _ Hlt) as [f HLf].
  destruct (mark_writes_ok L HL idx f p (seen id) ws (verifier tr)) as (v & pend & Hm & Hv & Hst & Hp1 & Hp2);
    [done|done|done|rewrite Hws; by apply once_disjoint|].
  rewrite Hws in *. exists f, v, pend. split; [done|]. split; [done|]. split; [|by split].
  split; simpl; [done| | | | | |done].
  - intros id' idx' p'. destruct (decide (id' = id)) as [->|Hne].
    + rewrite lookup_insert_eq. intros [= <- <-]. rewrite lookup_delete_eq. set_solver.
    + rewrite lookup_insert_ne by done. intros (? & ? & ? & ?)%Hf.
      rewrite lookup_delete_ne by done. set_solver.
  - intros id1 id2 idx' p1 p2 H1%lookup_insert_Some H2%lookup_insert_Some.
    destruct H1 as [[<- [= <- <-]]|[Hne1 H1]], H2 as [[<- H2]|[Hne2 H2]]; simplify_eq; [done| | |eauto];
      exfalso; eauto.
  - intros id' idx' p'. destruct (decide (id' = id)) as [->|Hne].
    + rewrite lookup_insert_eq. intros [= <- <-] _. unfold add_write. rewrite decide_True by done.
      by rewrite Hws.
    + rewrite lookup_insert_ne by done. intros Hfile Hunt. unfold add_write.
      rewrite decide_False by (intros ->; eauto). apply (Hs _ _ _ Hfile).
      intros Hin. apply Hunt. apply elem_of_difference. split; [done|].
      intros ->%elem_of_singleton. eauto.
  - intros idx'. unfold add_write. case_decide as Hidx.
    + subst. intros _. exists id, p. rewrite lookup_insert_eq. set_solver.
    + intros (id' & p' & Hfile & Hunt)%Hn. exists id', p'.
      rewrite lookup_insert_ne; [set_solver|]. intros ->. apply Hf in Hfile as (_ & _ & _ & ?). congruence.
  - intros id' l'. destruct (decide (id' = id)) as [->|Hne]; [by rewrite lookup_delete_eq|].
    rewrite lookup_delete_ne by done. apply Hu.
Qed.
End tracked.

Lemma Forall_weaken {A} (P Q : A → Prop) :
  (∀ x, P x → Q x) → ∀ l, Forall P l → Forall Q l.
Proof. intros HPQ l Hl. by eapply Forall_impl. Qed.

(** ** The system *)
Record Sys (G FS : Type) := MkSys {
  tracker : JobSlices G;
  disk : FS;
  tasks : list Task;
  (** what was written to the job's files, and what the tracker was told *)
  written : list (string * Write);
  recorded : list (string * Write);
  (** the slices a read of the tracker failed on *)
  unread : list nat;
}.
Arguments MkSys {G FS}.
Arguments tracker {G FS}. Arguments disk {G FS}. Arguments tasks {G FS}.
Arguments written {G FS}. Arguments recorded {G FS}. Arguments unread {G FS}.

Definition file_path {G} (t : JobSlices G) (id : string) : option path :=
  (λ n, join (work_dir t) n) <$> filenames t !! id.

(** The files of the job are different files. *)
Definition names_ok {G} (t : JobSlices G) : Prop :=
  ∀ id id' p, file_path t id = Some p → file_path t id' = Some p → id = id'.

Definition recorded_by (k : Task) : list (string * Write) :=
  match k with TMark id offset len _ => [(id, (offset, len))] | _ => [] end.
Definition flying (ks : list Task) : list (string * Write) := ks ≫= recorded_by.

Section system.
Context {G : Type} `{GF : RepairFold.Gf16 G} `{HO : HashOrder} {FS : Type} `{FSI : FileSystem FS}.
Context (md5_digest : bytes → bytes) (crc32_of : bytes → N).
Context (par2_parse : FS → path → option Par2FileSet).

Definition disk_byte (fs : FS) (p : path) (i : N) : option byte := b ← fs_read fs p; b !! N.to_nat i.

(** The bytes written so far are still there. *)
Definition disk_keeps (s : Sys G FS) (fs' : FS) : Prop :=
  ∀ id p i b, file_path (tracker s) id = Some p → covered (writes_of id (written s)) i = true →
    disk_byte (disk s) p i = Some b → disk_byte fs' p i = Some b.

(** The slice whose read fails in this step. *)
Definition missed (fs : FS) (ok : bool) (k : Task) : list nat :=
  let failed s := if ok then bool_decide (read_range fs (p_path s) (p_offset s) (p_len s) = None) else true in
  match k with
  | TVerify (s :: _) | TFeedRead s _ _ _ => if failed s then [global_index s] else []
  | _ => []
  end.

Inductive step : Sys G FS → Sys G FS → Prop :=
  (* the assembler writes an article, its worker reports the write *)
  | step_write t fs ks wr rec un id p offset data complete fs' :
    file_path t id = Some p → (offset + N.of_nat (length data) < 2 ^ 64)%N →
    (∀ b, covered (writes_of id wr) b = true →
       in_write (offset, N.of_nat (length data)) b = true → False) →
    fs_write_at fs p offset data = (fs', true) →
    step (MkSys t fs ks wr rec un)
      (MkSys t fs' (ks ++ [TMark id offset (N.of_nat (length data)) complete])
         (wr ++ [(id, (offset, N.of_nat (length data)))]) rec un)
  (* anything else that happens to the disk *)
  | step_disk s fs' :
    disk_keeps s fs' →
    step s (MkSys (tracker s) fs' (tasks s) (written s) (recorded s) (unread s))
  (* a worker reports a failed article *)
  | step_fail s id confirmed :
    step s (MkSys (tracker s) (disk s) (tasks s ++ [TFailed id confirmed]) (written s) (recorded s)
              (unread s))
  | step_summary s :
    step s (MkSys (summary (tracker s)).1 (disk s) (tasks s) (written s) (recorded s) (unread s))
  (* a running call takes its next step *)
  | step_run t fs ks1 k ks2 wr rec un ok t' ks :
    step_task md5_digest crc32_of par2_parse fs ok k t = Some (t', ks) →
    step (MkSys t fs (ks1 ++ k :: ks2) wr rec un)
      (MkSys t' fs (ks1 ++ ks ++ ks2) wr (rec ++ recorded_by k) (un ++ missed fs ok k)).

(** The writes a resumed job has on disk. *)
Definition seeds (job : list JobFile) : list (string * Write) :=
  map_to_list (seeded_of job) ≫= λ kv, pair kv.1 <$> kv.2.

Definition start (dir : str) (job : list JobFile) (fs : FS) : Sys G FS :=
  MkSys (new dir job) fs [] (seeds job) (seeds job) [].

Lemma read_range_spec (fs : FS) (p : path) off n b :
  read_range fs p off n = Some b →
  length b = N.to_nat n ∧ ∀ j, j < length b → disk_byte fs p (off + N.of_nat j) = b !! j.
Proof.
  unfold read_range, disk_byte. destruct (fs_read fs p) as [c|]; [|done]. simpl.
  case_decide as Hn; [intros [= <-]; simpl; split; lia|].
  case_decide as Hl; [|done]. intros [= <-].
  assert (length (take (N.to_nat n) (drop (N.to_nat off) c)) = N.to_nat n) as Hlen.
  { rewrite length_take, length_drop. lia. }
  split; [done|]. intros j Hj. rewrite Hlen in Hj.
  rewrite lookup_take_lt by done. rewrite lookup_drop. f_equal. lia.
Qed.

(** Writing the assembler's way keeps what is written elsewhere. *)
Lemma write_keeps `{!FileSystemLaws FS} (t : JobSlices G) fs fs' p id id' offset data wr p' i b :
  names_ok t → file_path t id = Some p → fs_write_at fs p offset data = (fs', true) →
  (∀ b, covered (writes_of id wr) b = true →
     in_write (offset, N.of_nat (length data)) b = true → False) →
  file_path t id' = Some p' → covered (writes_of id' wr) i = true →
  disk_byte fs p' i = Some b → disk_byte fs' p' i = Some b.
Proof.
  intros Hnames Hp Hw Hdis Hp' Hcov. unfold disk_byte.
  destruct (decide (p' = p)) as [->|Hne].
  - assert (id' = id) as -> by eauto. destruct (fs_read fs p) as [old|] eqn:Hold; [|done]. simpl. intros Hb.
    rewrite (fs_write_at_read _ _ _ _ _ _ Hold Hw). simpl.
    rewrite lookup_splice_outside; [done|by eapply lookup_lt_Some|].
    specialize (Hdis i Hcov). unfold in_write in Hdis. simpl in Hdis.
    destruct (N.leb_spec offset i), (N.ltb_spec i (offset + N.of_nat (length data))); simpl in Hdis; lia.
  - by rewrite (fs_write_at_other _ _ _ _ _ _ _ Hw Hne).
Qed.
End system.

(** ** What holds of the tracker and of the calls on it *)
Section invariant.
Context {G : Type} `{GF : RepairFold.Gf16 G} `{HO : HashOrder} {FS : Type} `{FSI : FileSystem FS}.
Context (md5_digest : bytes → bytes) (crc32_of : bytes → N).
Context (par2_parse : FS → path → option Par2FileSet).
(** The index of the job describes one set, whose sizes fit [u64]. *)
Context (the_set : Par2FileSet).
Abbreviation L := (slice_layout_from_par2 the_set).
Context (HL : ∀ fi f, layout_files L !! fi = Some f → fits L f).
Context (Hparse : ∀ fs p set, par2_parse fs p = Some set → set = the_set).
Implicit Types (t : JobSlices G) (fs : FS) (rec : list (string * Write)).
Abbreviation judge := (judge L md5_digest crc32_of).

Definition tracked_file t (id : string) (idx : nat) (p : path) : Prop :=
  ∃ tr, state t = Ready tr ∧ files tr !! id = Some (idx, p) ∧ idx ∉ untracked tr.
Definition slice_state t (gi : nat) : option SliceState :=
  match state t with Ready tr => state_of (verifier tr) gi | _ => None end.

(** The slice [x] is where [x] says, and all its bytes were reported. *)
Definition placed t rec (x : PendingSlice) : Prop :=
  ∃ id idx p f i, tracked_file t id idx p ∧ located L x idx p f i ∧
    slice_covered L f (writes_of id rec) i.

(** The bytes of slice [gi], all reported, are [b]. *)
Definition on_disk t rec fs (gi : nat) (b : bytes) : Prop :=
  ∃ id idx p f i d, tracked_file t id idx p ∧ at_slice L gi idx f i d ∧
    slice_covered L f (writes_of id rec) i ∧ length b = N.to_nat (slice_len L f i) ∧
    ∀ j, j < length b → disk_byte fs p (slice_start L i + N.of_nat j) = b !! j.

Definition judged_as (gi : nat) (b : bytes) (s : SliceState) : Prop :=
  ∀ fi f i d, at_slice L gi fi f i d → judge d b = s.

Definition is_verified t (gi : nat) : Prop := slice_state t gi = Some Verified.
Definition sourced t rec (x : PendingSlice) : Prop := placed t rec x ∧ is_verified t (global_index x).
Definition proved t rec fs (gb : nat * bytes) : Prop := on_disk t rec fs gb.1 gb.2 ∧ is_verified t gb.1.

Definition known t (id : string) : Prop := is_Some (file_path t id).
Definition is_ready t : Prop := ∃ tr, state t = Ready tr.

Definition task_ok t rec fs (k : Task) : Prop :=
  match k with
  | TMark _ _ _ _ | TFailed _ _ | TOpenOrGrow | TGrow | TBegin _ _ _ _ | TPrefix _ => True
  | TClaim _ pend _ | TInstall _ pend _ | TMatch _ pend _ | TVerify pend => Forall (placed t rec) pend
  | THash id _ _ pend _ | TFind id _ _ _ _ pend _ => known t id ∧ Forall (placed t rec) pend
  | TReplay tr pend _ =>
    tr = build_tracked (work_dir t) (filenames t) (resumed t) the_set ∧ Forall (placed t rec) pend
  | TCheck gi b pend => on_disk t rec fs gi b ∧ Forall (placed t rec) pend
  | TJudged gi b verdict pend | TFold gi b verdict pend =>
    on_disk t rec fs gi b ∧ judged_as gi b verdict ∧ (verdict = Verified → is_verified t gi) ∧
    Forall (placed t rec) pend
  | TOpen _ total ssize =>
    is_ready t ∧ total = total_slices (SliceMap.new L) ∧ ssize = layout_slice_size L
  | TFeed cur batch rest =>
    Forall (sourced t rec) cur ∧ Forall (proved t rec fs) batch ∧ Forall (Forall (sourced t rec)) rest
  | TFeedRead s cur batch rest =>
    sourced t rec s ∧ Forall (sourced t rec) cur ∧ Forall (proved t rec fs) batch ∧
    Forall (Forall (sourced t rec)) rest
  | TBackfill _ cur batch rest =>
    Forall (is_verified t) cur ∧ Forall (proved t rec fs) batch ∧ Forall (Forall (is_verified t)) rest
  | TBackRead _ s cur batch rest =>
    sourced t rec s ∧ Forall (is_verified t) cur ∧ Forall (proved t rec fs) batch ∧
    Forall (Forall (is_verified t)) rest
  end.

Definition ready_ok t rec fs (tr : Tracked) : Prop :=
  (∃ ws, tracked_ok L (file_path t) (λ id, writes_of id rec) tr ws) ∧
  ∀ gi, state_of (verifier tr) gi = Some Verified →
    ∃ b, on_disk t rec fs gi b ∧ judged_as gi b Verified.

Definition state_ok t rec fs : Prop :=
  match state t with
  | Disabled => True
  | Pending ws _ => ∀ id, default [] (ws !! id) = writes_of id rec
  | Ready tr => ready_ok t rec fs tr
  end.

Definition fold_ok t : Prop :=
  match fold t with
  | Active f =>
    is_ready t ∧ RepairFold.poisoned f = false ∧
    length (RepairFold.fed f) = total_slices (SliceMap.new L) ∧
    ∀ gi, RepairFold.is_fed f gi = true → is_verified t gi
  | _ => True
  end.

(** ** What a step keeps *)
Record evolves t rec fs t' rec' fs' : Prop := {
  ev_names : filenames t' = filenames t ∧ work_dir t' = work_dir t ∧ resumed t' = resumed t;
  ev_ready : is_ready t → is_ready t';
  ev_file id idx p : tracked_file t id idx p → tracked_file t' id idx p;
  ev_verified gi : is_verified t gi → is_verified t' gi;
  ev_rec : ∃ more, rec' = rec ++ more;
  ev_disk id idx p i b : tracked_file t id idx p → covered (writes_of id rec) i = true →
    disk_byte fs p i = Some b → disk_byte fs' p i = Some b;
}.

Section evolves.
Context t rec fs t' rec' fs' (He : evolves t rec fs t' rec' fs').

Lemma ev_path id : file_path t' id = file_path t id.
Proof. unfold file_path. destruct (ev_names _ _ _ _ _ _ He) as (-> & -> & _). done. Qed.

Lemma ev_covered f id i :
  slice_covered L f (writes_of id rec) i → slice_covered L f (writes_of id rec') i.
Proof.
  destruct (ev_rec _ _ _ _ _ _ He) as [more ->]. rewrite writes_of_app.
  apply slice_covered_mono.
Qed.

Lemma placed_mono x : placed t rec x → placed t' rec' x.
Proof.
  intros (id & idx & p & f & i & Hf & Hloc & Hc). exists id, idx, p, f, i.
  split_and!; [by eapply ev_file|done|by apply ev_covered].
Qed.

Lemma on_disk_mono gi b : on_disk t rec fs gi b → on_disk t' rec' fs' gi b.
Proof.
  intros (id & idx & p & f & i & d & Hf & Hat & Hc & Hlen & Hb). exists id, idx, p, f, i, d.
  split_and!; [by eapply ev_file|done|by apply ev_covered|done|].
  intros j Hj. specialize (Hb j Hj). destruct (lookup_lt_is_Some_2 _ _ Hj) as [x Hx].
  rewrite Hx in *. eapply (ev_disk _ _ _ _ _ _ He); [exact Hf| |done]. apply Hc. lia.
Qed.

Lemma sourced_mono x : sourced t rec x → sourced t' rec' x.
Proof. intros [Hp Hv]. split; [by apply placed_mono|by eapply ev_verified]. Qed.
Lemma proved_mono gb : proved t rec fs gb → proved t' rec' fs' gb.
Proof. intros [Hp Hv]. split; [by apply on_disk_mono|by eapply ev_verified]. Qed.

Lemma task_mono k : task_ok t rec fs k → task_ok t' rec' fs' k.
Proof.
  pose proof placed_mono as H1. pose proof on_disk_mono as H2. pose proof sourced_mono as H3.
  pose proof proved_mono as H4. pose proof (ev_verified _ _ _ _ _ _ He) as H5.
  pose proof (ev_ready _ _ _ _ _ _ He) as H6.
  assert (∀ id, known t id → known t' id) as H7 by (intros id; unfold known; by rewrite ev_path).
  pose proof (Forall_weaken _ _ H1) as F1. pose proof (Forall_weaken _ _ H3) as F3.
  pose proof (Forall_weaken _ _ H4) as F4. pose proof (Forall_weaken _ _ H5) as F5.
  pose proof (Forall_weaken _ _ F3) as F6. pose proof (Forall_weaken _ _ F5) as F7.
  destruct (ev_names _ _ _ _ _ _ He) as (E1 & E2 & E3).
  destruct k; simpl; rewrite ?E1, ?E2, ?E3; naive_solver.
Qed.

Lemma ready_verified_mono gi :
  (∃ b, on_disk t rec fs gi b ∧ judged_as gi b Verified) →
  ∃ b, on_disk t' rec' fs' gi b ∧ judged_as gi b Verified.
Proof. intros (b & Hb & Hj). exists b. split; [by apply on_disk_mono|done]. Qed.
End evolves.

Lemma evolves_refl t rec fs : evolves t rec fs t rec fs.
Proof. split; try done. exists []. by rewrite app_nil_r. Qed.

(** A change of the fold or the counters. *)
Lemma evolves_state t rec fs t' :
  filenames t' = filenames t → work_dir t' = work_dir t → resumed t' = resumed t →
  state t' = state t → evolves t rec fs t' rec fs.
Proof.
  intros H1 H2 H3 H4. split; [done|unfold is_ready; by rewrite H4| | | |done].
  - intros id idx p. unfold tracked_file. by rewrite H4.
  - intros gi. unfold is_verified, slice_state. by rewrite H4.
  - exists []. by rewrite app_nil_r.
Qed.

(** A change of the state, the names and the reports staying. *)
Lemma evolves_ready t rec fs tr' more :
  (∀ tr, state t = Ready tr →
     (∀ id idx p, files tr !! id = Some (idx, p) → idx ∉ untracked tr →
        files tr' !! id = Some (idx, p) ∧ idx ∉ untracked tr') ∧
     ∀ gi, state_of (verifier tr) gi = Some Verified → state_of (verifier tr') gi = Some Verified) →
  evolves t rec fs (with_state (Ready tr') t) (rec ++ more) fs.
Proof.
  intros Htr. split; [done|by eexists| | |by eexists|done].
  - intros id idx p (tr & Hst & Hf & Hu). exists tr'. split; [done|].
    by apply (proj1 (Htr tr Hst)).
  - intros gi. unfold is_verified, slice_state. simpl. destruct (state t) as [| |tr]; [done..|].
    by apply Htr.
Qed.

Lemma evolves_not_ready t rec fs st more :
  ¬ is_ready t → evolves t rec fs (with_state st t) (rec ++ more) fs.
Proof.
  intros Hn. split; [done|done| | |by eexists|done].
  - intros id idx p (tr & Hst & _). destruct Hn. by eexists.
  - intros gi. unfold is_verified, slice_state. simpl. destruct (state t) as [| |tr] eqn:Hst; [done..|].
    destruct Hn. by eexists.
Qed.

Lemma fold_ok_evolves t rec fs t' rec' fs' :
  evolves t rec fs t' rec' fs' → fold t' = fold t → fold_ok t → fold_ok t'.
Proof.
  intros He Hf. unfold fold_ok. rewrite Hf. destruct (fold t) as [| |f]; [done..|].
  intros (Hr & Hp & Hl & Hfed). split_and!; [by eapply ev_ready|done|done|].
  intros gi Hgi. by eapply ev_verified, Hfed.
Qed.

Lemma state_ok_same t rec fs t' :
  filenames t' = filenames t → work_dir t' = work_dir t → resumed t' = resumed t →
  state t' = state t → state_ok t rec fs → state_ok t' rec fs.
Proof.
  intros H1 H2 H3 H4 Hs. pose proof (evolves_state t rec fs t' H1 H2 H3 H4) as He.
  unfold state_ok in *. rewrite H4. destruct (state t) as [| |tr]; [done..|].
  destruct Hs as [[ws Hws] Hv]. split.
  - exists ws. assert (∀ id, file_path t' id = file_path t id) as Hp by (by intros; eapply ev_path).
    destruct Hws. split; [done| |done..| |done]; intros; rewrite Hp; eauto.
  - intros gi Hgi. eapply ready_verified_mono; eauto.
Qed.

(** ** Disk and slices *)
Lemma tracked_inj t rec fs id id' idx p p' :
  state_ok t rec fs → tracked_file t id idx p → tracked_file t id' idx p' → id = id' ∧ p = p'.
Proof.
  intros Hs (tr & Hst & Hf & _) (tr' & Hst' & Hf' & _). unfold state_ok in Hs. rewrite Hst in *.
  simplify_eq. destruct Hs as [[ws Hws] _]. assert (id = id') as -> by (by eapply to_inj).
  rewrite Hf in Hf'. by simplify_eq.
Qed.

Lemma on_disk_fun t rec fs gi b b' :
  state_ok t rec fs → on_disk t rec fs gi b → on_disk t rec fs gi b' → b = b'.
Proof.
  intros Hs (id & idx & p & f & i & d & Hf & Hat & _ & Hl & Hb)
    (id' & idx' & p' & f' & i' & d' & Hf' & Hat' & _ & Hl' & Hb').
  destruct (at_slice_inj _ _ _ _ _ _ _ _ _ _ Hat Hat') as (-> & -> & -> & ->).
  destruct (tracked_inj _ _ _ _ _ _ _ _ Hs Hf Hf') as [<- <-].
  assert (length b = length b') as Heq by congruence. apply list_eq. intros j.
  destruct (decide (j < length b)) as [Hj|Hj].
  - rewrite <-Hb by done. apply Hb'. lia.
  - rewrite !lookup_ge_None_2 by lia. done.
Qed.

Lemma placed_read t rec fs x b :
  placed t rec x → read_range fs (p_path x) (p_offset x) (p_len x) = Some b →
  on_disk t rec fs (global_index x) b.
Proof.
  intros (id & idx & p & f & i & Hf & ([d Hat] & Hp & Ho & Hl) & Hc) Hr.
  apply read_range_spec in Hr as [Hlen Hb]. rewrite Hp, Ho, Hl in *.
  exists id, idx, p, f, i, d. done.
Qed.

Lemma on_disk_verified t rec fs gi b :
  state_ok t rec fs → on_disk t rec fs gi b → is_verified t gi → judged_as gi b Verified.
Proof.
  intros Hs Hb Hv. unfold is_verified, slice_state in Hv.
  pose proof Hs as Hs'. unfold state_ok in Hs'. destruct (state t) as [| |tr]; [done..|].
  destruct Hs' as [_ Hs']. destruct (Hs' gi Hv) as (b' & Hb' & Hj).
  by rewrite (on_disk_fun _ _ _ _ _ _ Hs Hb Hb').
Qed.
End invariant.
