(* ===== verification/SliceSteps.v ===== *)
(** * The slice tracker: what each section does

    One lemma per section of [SliceTracker.step_task]: in a state [SliceRun]
    describes, the section does not panic and leaves such a state, the calls
    it leaves are in order, and no slice that waits for its verdict or for the
    fold is dropped. *)
From S2P Require Import Prelude Str FileSystem SliceMap Par2Match SliceTracker SliceCells SliceRun.
From S2P Require RepairFold.

(** ** What the calls still hold *)

(** The slices a call will verify. *)
Definition pend_of (k : Task) : list nat :=
  match k with
  | TClaim _ pend _ | TInstall _ pend _ | TReplay _ pend _ | TMatch _ pend _ | THash _ _ _ pend _
  | TFind _ _ _ _ _ pend _ | TVerify pend | TJudged _ _ _ pend | TFold _ _ _ pend =>
    global_index <$> pend
  | TCheck gi _ pend => gi :: (global_index <$> pend)
  | _ => []
  end.

(** Will the call hand slice [gi] to the fold? *)
Definition feeds (gi : nat) (k : Task) : Prop :=
  match k with
  | TJudged gj _ Verified _ | TFold gj _ Verified _ => gi = gj
  | TPrefix _ => True
  | TFeed cur batch rest =>
    gi ∈ global_index <$> cur ∨ gi ∈ fst <$> batch ∨ gi ∈ global_index <$> concat rest
  | TFeedRead s cur batch rest =>
    gi = global_index s ∨ gi ∈ global_index <$> cur ∨ gi ∈ fst <$> batch ∨
    gi ∈ global_index <$> concat rest
  | _ => False
  end.

#[export] Instance feeds_dec gi k : Decision (feeds gi k).
Proof. destruct k; simpl; try apply _; destruct verdict; apply _. Defined.

(** ** What the fold's operations do to its flags *)
Section flags.
Context {G : Type} `{GF : RepairFold.Gf16 G}.
Implicit Types (f : RepairFold.RepairFold G).

Definition same_flags f f' : Prop :=
  RepairFold.fed f' = RepairFold.fed f ∧ RepairFold.poisoned f' = RepairFold.poisoned f.

Lemma note_disk_read_flags f i len : same_flags f (RepairFold.note_disk_read f i len).
Proof.
  unfold RepairFold.note_disk_read. by destruct (match RepairFold.disk_read f !! i with
    Some true => _ | Some false => _ | None => _ end).
Qed.

Lemma begin_growth_flags f exps : same_flags f (RepairFold.begin_growth f exps).1.
Proof. unfold RepairFold.begin_growth. by repeat case_decide. Qed.

Lemma begin_growth_ticket f exps f' ticket :
  RepairFold.begin_growth f exps = (f', Ok (Some ticket)) →
  RepairFold.ticket_slices ticket = RepairFold.fed_indices f.
Proof. unfold RepairFold.begin_growth. repeat case_decide; by intros [= <- <-]. Qed.

Lemma abandon_growth_of_flags f gen : same_flags f (RepairFold.abandon_growth_of f gen).
Proof.
  unfold RepairFold.abandon_growth_of, RepairFold.abandon_growth. case_decide; [|done].
  by destruct (RepairFold.growth f).
Qed.

Lemma backfill_flags f gen sl : same_flags f (RepairFold.backfill f gen sl).1.
Proof.
  unfold RepairFold.backfill. case_decide; [done|]. destruct (RepairFold.growth f); [|done].
  destruct (RepairFold.take_pending _ _). by case_decide.
Qed.

Lemma fresh_slices_total fd sl : ∀ fresh,
  Forall (λ s, s.1 < length fd) sl →
  ∃ res, RepairFold.fresh_slices fd fresh sl = Ok res ∧ (∀ s, s ∈ fresh → s ∈ res) ∧
    ∀ i, i ∈ fst <$> sl → fd !! i = Some false → i ∈ fst <$> res.
Proof.
  induction sl as [|[i b] sl IH]; intros fresh Hlt; simpl.
  { exists fresh. split_and!; [done|done|]. intros i Hi. by apply elem_of_nil in Hi. }
  apply Forall_cons in Hlt as [Hi Hlt]. rewrite decide_False by (simpl in Hi; lia). case_decide as Hf.
  - destruct (IH (fresh ++ [(i, b)]) Hlt) as (res & -> & Hsub & Hall). exists res.
    split_and!; [done|set_solver|]. intros j [->|Hj]%elem_of_cons Hfd; [|auto].
    apply (list_elem_of_fmap_2 fst _ (i, b)). apply Hsub. set_solver.
  - destruct (IH fresh Hlt) as (res & -> & Hsub & Hall). exists res. split_and!; [done|done|].
    intros j [->|Hj]%elem_of_cons Hfd; [|auto].
    assert (i ∈ fst <$> fresh) as (s & -> & Hs)%list_elem_of_fmap.
    { destruct (decide (i ∈ map fst fresh)) as [|Hn]; [done|]. destruct Hf. done. }
    by apply list_elem_of_fmap_2, Hsub.
Qed.

(** A batch within the set is folded, each of its slices once. *)
Lemma feed_batch_flags f sl :
  Forall (λ s, s.1 < length (RepairFold.fed f)) sl →
  ∃ f' n, RepairFold.feed_batch f sl = Ok (f', n) ∧
    RepairFold.poisoned f' = RepairFold.poisoned f ∧
    length (RepairFold.fed f') = length (RepairFold.fed f) ∧
    (∀ i, RepairFold.is_fed f i = true → RepairFold.is_fed f' i = true) ∧
    (∀ i, i ∈ fst <$> sl → RepairFold.is_fed f' i = true) ∧
    (∀ i, RepairFold.is_fed f' i = true → RepairFold.is_fed f i = true ∨ i ∈ fst <$> sl).
Proof.
  intros Hlt. destruct (fresh_slices_total _ _ [] Hlt) as (fresh & Hf & _ & Hall).
  destruct (RepairFold.fresh_slices_spec _ _ _ _ Hf) as (_ & Hunfed & Hin); [constructor|constructor|].
  unfold RepairFold.feed_batch. rewrite Hf. simpl.
  assert (∀ i, i ∈ fst <$> sl → RepairFold.fed f !! i = Some true ∨ i ∈ fst <$> fresh) as Hcase.
  { intros i Hi. destruct (RepairFold.fed f !! i) as [[]|] eqn:Hfd; [by left|right; auto|].
    apply list_elem_of_fmap in Hi as (s & -> & Hs). rewrite Forall_forall in Hlt.
    apply Hlt, lookup_lt_is_Some_2 in Hs as [? ?]. congruence. }
  case_decide as Hne.
  - subst. exists f, 0. split_and!; auto. intros i Hi. unfold RepairFold.is_fed.
    destruct (Hcase i Hi) as [->|Hi']; [done|by apply elem_of_nil in Hi'].
  - eexists _, _. split; [done|]. unfold RepairFold.is_fed. simpl.
    assert (Forall (λ s, s.1 < length (RepairFold.fed f)) fresh) as Hltf.
    { eapply Forall_impl; [exact Hunfed|]. intros s Hs. exact (lookup_lt_Some _ _ _ Hs). }
    split_and!; [done|apply RepairFold.length_mark_fed| | |]; intros i;
      rewrite RepairFold.mark_fed_lookup by done; intros Hi; case_decide as Hd; [done|done|done| | |by left].
    + destruct (Hcase i Hi) as [->|?]; [done|by destruct Hd].
    + right. apply list_elem_of_fmap in Hd as (s & -> & Hs). apply list_elem_of_fmap_2.
      destruct (Hin s Hs) as [Hs'|]; [by apply elem_of_nil in Hs'|done].
Qed.
End flags.

Section steps.
Context {G : Type} `{GF : RepairFold.Gf16 G} `{HO : HashOrder} {FS : Type} `{FSI : FileSystem FS}.
Context (md5_digest : bytes → bytes) (crc32_of : bytes → N).
Context (par2_parse : FS → path → option Par2FileSet).
Context (the_set : Par2FileSet).
Abbreviation L := (slice_layout_from_par2 the_set).
Context (HL : ∀ fi f, layout_files L !! fi = Some f → fits L f).
Context (Hparse : ∀ fs p set, par2_parse fs p = Some set → set = the_set).
Implicit Types (t : JobSlices G) (fs : FS) (rec : list (string * Write)).
Abbreviation judge := (judge L md5_digest crc32_of).
Abbreviation task_ok := (task_ok md5_digest crc32_of the_set).
Abbreviation state_ok := (state_ok md5_digest crc32_of the_set).
Abbreviation fold_ok := (fold_ok the_set).
Abbreviation placed := (placed the_set).
Abbreviation on_disk := (on_disk the_set).
Abbreviation sourced := (sourced the_set).
Abbreviation proved := (proved the_set).
Abbreviation judged_as := (judged_as md5_digest crc32_of the_set).

(** A slice of a tracked file whose bytes were all reported, without a
    verdict. *)
Definition undecided t rec (gi : nat) : Prop :=
  slice_state t gi = Some Unknown ∧
  ∃ id idx p f i d, tracked_file t id idx p ∧ at_slice L gi idx f i d ∧
    (0 < slice_len L f i)%N ∧ slice_covered L f (writes_of id rec) i.

(** A slice the fold of the job should have and has not. *)
Definition unfed t (gi : nat) : Prop :=
  is_verified t gi ∧ ∃ f, fold t = Active f ∧ RepairFold.is_fed f gi = false.

Record outcome t rec fs (ok : bool) (k : Task) t' (ks : list Task) : Prop := {
  out_evolves : evolves t rec fs t' (rec ++ recorded_by k) fs;
  out_state : state_ok t' (rec ++ recorded_by k) fs;
  out_fold : fold_ok t';
  out_tasks : Forall (task_ok t' (rec ++ recorded_by k) fs) ks;
  out_undecided gi : undecided t' (rec ++ recorded_by k) gi →
    undecided t rec gi ∧ gi ∉ pend_of k ∨ gi ∈ ks ≫= pend_of ∨ gi ∈ missed fs ok k;
  out_unfed gi : unfed t' gi →
    unfed t gi ∧ ¬ feeds gi k ∨ Exists (feeds gi) ks ∨ gi ∈ missed fs ok k;
}.

(** A section that only reads. *)
Lemma outcome_same t rec fs ok k ks :
  state_ok t rec fs → fold_ok t → recorded_by k = [] → Forall (task_ok t rec fs) ks →
  (∀ gi, undecided t rec gi → gi ∈ pend_of k → gi ∈ ks ≫= pend_of ∨ gi ∈ missed fs ok k) →
  (∀ gi, unfed t gi → feeds gi k → Exists (feeds gi) ks ∨ gi ∈ missed fs ok k) →
  outcome t rec fs ok k t ks.
Proof.
  intros Hs Hf Hr Hks Hu Hn. split; rewrite ?Hr, ?app_nil_r; [apply evolves_refl|done|done|done| |].
  - intros gi Hgi. destruct (decide (gi ∈ pend_of k)); [right; auto|by left].
  - intros gi Hgi. destruct (decide (feeds gi k)); [right; auto|by left].
Qed.

(** A section that leaves the state of the map alone. *)
Lemma outcome_fold t rec fs ok k t' ks :
  filenames t' = filenames t → work_dir t' = work_dir t → resumed t' = resumed t →
  state t' = state t → fold_ok t' → state_ok t rec fs → recorded_by k = [] →
  Forall (task_ok t' rec fs) ks →
  (∀ gi, undecided t rec gi → gi ∈ pend_of k → gi ∈ ks ≫= pend_of ∨ gi ∈ missed fs ok k) →
  (∀ gi, unfed t' gi → unfed t gi ∧ ¬ feeds gi k ∨ Exists (feeds gi) ks ∨ gi ∈ missed fs ok k) →
  outcome t rec fs ok k t' ks.
Proof.
  intros H1 H2 H3 H4 Hf Hs Hr Hks Hu Hn.
  split; rewrite ?Hr, ?app_nil_r; [by apply evolves_state|by eapply state_ok_same|done|done| |done].
  intros gi Hgi. assert (undecided t rec gi) as Hgi'.
  { unfold undecided, slice_state, tracked_file in *. by rewrite H4 in Hgi. }
  destruct (decide (gi ∈ pend_of k)); [right; auto|by left].
Qed.

Lemma after_install_ok t rec fs pend own :
  Forall (placed t rec) pend → Forall (task_ok t rec fs) (after_install pend own).
Proof.
  intros Hp. unfold after_install. destruct own; [repeat constructor; done|].
  case_decide; repeat constructor; done.
Qed.

Lemma after_install_pend pend own gi :
  gi ∈ global_index <$> pend → gi ∈ after_install pend own ≫= pend_of.
Proof.
  intros Hgi. unfold after_install. destruct own; simpl; [by rewrite app_nil_r|].
  case_decide as Hp; [by subst|]. simpl. by rewrite app_nil_r.
Qed.

Lemma after_match_ok t rec fs pend next :
  Forall (placed t rec) pend → Forall (task_ok t rec fs) (after_match pend next).
Proof. intros Hp. destruct next; simpl; [repeat constructor; done|by apply after_install_ok]. Qed.

Lemma after_match_pend pend next gi :
  gi ∈ global_index <$> pend → gi ∈ after_match pend next ≫= pend_of.
Proof. intros Hgi. destruct next; simpl; [by rewrite app_nil_r|by apply after_install_pend]. Qed.

(** ** Sections that change the map *)

(** The state after the tracked files changed. *)
Lemma ready_step t rec fs tr' ws' more :
  evolves t rec fs (with_state (Ready tr') t) (rec ++ more) fs → state_ok t rec fs →
  tracked_ok L (file_path t) (λ id, writes_of id (rec ++ more)) tr' ws' →
  (∀ gi, state_of (verifier tr') gi = Some Verified → is_verified t gi ∨
     ∃ b, on_disk (with_state (Ready tr') t) (rec ++ more) fs gi b ∧ judged_as gi b Verified) →
  state_ok (with_state (Ready tr') t) (rec ++ more) fs.
Proof.
  intros He Hs Hws Hv. split; [by exists ws'|]. intros gi Hgi.
  destruct (Hv gi Hgi) as [Hold|]; [|done].
  eapply ready_verified_mono; [exact He|]. unfold is_verified, slice_state in Hold.
  unfold SliceRun.state_ok in Hs. destruct (state t) as [| |tr]; [done..|]. by apply Hs.
Qed.

Lemma uncovered_nil f i : (0 < slice_len L f i)%N → ¬ slice_covered L f [] i.
Proof.
  intros Hlen Hc. specialize (Hc (slice_start L i) ltac:(lia)). by vm_compute in Hc.
Qed.

Lemma seen_snoc rec id w id' :
  upd (λ i, writes_of i rec) id (writes_of id rec ++ [w]) id' = writes_of id' (rec ++ [(id, w)]).
Proof.
  unfold upd. rewrite writes_of_app, writes_of_one.
  repeat case_decide; subst; try done. by rewrite app_nil_r.
Qed.

(** [slices_of], read as what the calls say of a tracker. *)
Lemma slices_of_placed t rec id idx p f old l v pend :
  slices_of L idx p f old l v pend → tracked_file t id idx p → l = writes_of id rec →
  Forall (placed t rec) pend.
Proof.
  intros [Hp _] Hf ->. apply Forall_forall. intros s Hs. destruct (Hp s Hs) as (i & Hloc & Hc).
  exists id, idx, p, f, i. done.
Qed.

(** What [mark] reports is every slice its write completes. *)
Record marks t rec fs t' rec' (pend : list PendingSlice) : Prop := {
  marks_evolves : evolves t rec fs t' rec' fs;
  marks_state : state_ok t' rec' fs;
  marks_placed : Forall (placed t' rec') pend;
  marks_all gi : undecided t' rec' gi → undecided t rec gi ∨ gi ∈ global_index <$> pend;
  marks_verified gi : is_verified t' gi → is_verified t gi;
  marks_fold : fold t' = fold t;
}.

(** When the write changes no tracked file. *)
Lemma marks_ignored t rec fs st more :
  evolves t rec fs (with_state st t) (rec ++ more) fs → state_ok (with_state st t) (rec ++ more) fs →
  (∀ gi, undecided (with_state st t) (rec ++ more) gi → undecided t rec gi) →
  (∀ gi, is_verified (with_state st t) gi → is_verified t gi) →
  marks t rec fs (with_state st t) (rec ++ more) [].
Proof. intros He Hs Hu Hv. split; try done. intros gi Hgi. left. auto. Qed.

(** A tracked file's reports are unchanged when the write is another's. *)
Lemma undecided_other t rec tr tr' id w gi :
  state t = Ready tr → files tr' = files tr → untracked tr' = untracked tr →
  verifier tr' = verifier tr →
  (∀ idx p, files tr !! id = Some (idx, p) → idx ∈ untracked tr) →
  undecided (with_state (Ready tr') t) (rec ++ [(id, w)]) gi → undecided t rec gi.
Proof.
  intros Hst Hfl Hun Hve Hno [Hu (id' & idx & p & f & i & d & (tr0 & [= <-] & Hf & Hunt) & Hat & Hl & Hc)].
  unfold undecided, slice_state in *. rewrite Hst. simpl in Hu. rewrite Hve in Hu. split; [done|].
  rewrite Hfl, Hun in *. exists id', idx, p, f, i, d. split_and!; [by exists tr|done|done|].
  rewrite writes_of_app, writes_of_one in Hc. rewrite decide_False, app_nil_r in Hc; [done|].
  intros ->. by apply Hunt, (Hno _ p).
Qed.

(** A write to a tracked file. *)
Lemma mark_tracked_ok t rec fs tr id idx p w :
  state_ok t rec fs → state t = Ready tr → files tr !! id = Some (idx, p) → idx ∉ untracked tr →
  (w.1 + w.2 < 2 ^ 64)%N → once (writes_of id (rec ++ [(id, w)])) →
  ∃ v pend, mark_writes idx p [w] (verifier tr) = Some (v, pend) ∧
    marks t rec fs (with_state (Ready (with_verifier v tr)) t) (rec ++ [(id, w)]) pend.
Proof.
  intros Hs Hst Hfile Hunt Hw Ho. pose proof Hs as Hs'. unfold SliceRun.state_ok in Hs'. rewrite Hst in Hs'.
  destruct Hs' as [[ws Hws] Hver].
  rewrite writes_of_app, writes_of_one, decide_True in Ho by done.
  destruct (mark_file L HL _ _ _ _ id idx p [w] Hws Hfile Hunt) as (f & v & pend & HLf & Hm & Htr & Hstate & Hp);
    [by repeat constructor|done|].
  exists v, pend. split; [done|].
  set (t' := with_state (Ready (with_verifier v tr)) t).
  assert (evolves t rec fs t' (rec ++ [(id, w)]) fs) as He.
  { apply evolves_ready. intros tr0 Htr0. rewrite Hst in Htr0. simplify_eq. split; [done|].
    intros gi. simpl. by rewrite Hstate. }
  assert (tracked_ok L (file_path t) (λ i, writes_of i (rec ++ [(id, w)])) (with_verifier v tr)
    (add_write ws idx [w])) as Htr'.
  { eapply tracked_ok_ext; [|exact Htr]. intros id'. apply seen_snoc. }
  assert (tracked_file t' id idx p) as Htf by (by exists (with_verifier v tr)).
  split; [done| | | | |done].
  - eapply ready_step; [done|done|done|]. intros gi. simpl. rewrite Hstate. intros Hgi. left.
    unfold is_verified, slice_state. by rewrite Hst.
  - eapply slices_of_placed; [exact Hp|done|].
    by rewrite writes_of_app, writes_of_one, decide_True.
  - intros gi [Hu (id' & idx' & p' & f' & i & d & Htf' & Hat & Hl & Hc)].
    unfold slice_state, t' in Hu. simpl in Hu. rewrite Hstate in Hu.
    assert (tracked_file t id' idx' p') as Htf0.
    { destruct Htf' as (tr0 & [= <-] & ? & ?). by exists tr. }
    rewrite writes_of_app, writes_of_one in Hc. destruct (decide (id = id')) as [<-|Hne].
    + destruct (Htf0) as (tr0 & Hst0 & Hf0 & _). rewrite Hst in Hst0. simplify_eq.
      assert (f' = f) as -> by (destruct Hat as (? & _); congruence).
      destruct (slice_covered_dec L f (writes_of id rec) i) as [Hc0|Hc0].
      * left. split; [unfold slice_state; by rewrite Hst|]. exists id, idx, p, f, i, d. done.
      * right. destruct Hp as [_ Hp]. destruct (Hp gi i d) as (s & Hin & <-); [done..|].
        by apply list_elem_of_fmap_2.
    + left. rewrite app_nil_r in Hc. split; [unfold slice_state; by rewrite Hst|].
      exists id', idx', p', f', i, d. done.
  - intros gi. unfold is_verified, slice_state, t'. rewrite Hst. simpl. by rewrite Hstate.
Qed.

Lemma mark_ok t rec fs id off len :
  state_ok t rec fs → (off + len < 2 ^ 64)%N → once (writes_of id (rec ++ [(id, (off, len))])) →
  ∃ st mk, mark id off len (state t) = Some (st, mk) ∧
    marks t rec fs (with_state st t) (rec ++ [(id, (off, len))]) (m_pending mk).
Proof.
  intros Hs Hb Ho. pose proof Hs as Hs'. unfold SliceRun.state_ok in Hs'. unfold mark.
  destruct (state t) as [|ws inst|tr] eqn:Hst.
  - eexists _, _. split; [done|]. apply marks_ignored; [|done|by intros gi [? _]|done].
    apply evolves_not_ready. intros [tr Htr]. congruence.
  - eexists _, _. split; [done|]. apply marks_ignored; [|simpl|by intros gi [? _]|done].
    + apply evolves_not_ready. intros [tr Htr]. congruence.
    + unfold SliceRun.state_ok. simpl. intros id'. rewrite <-seen_snoc. unfold upd.
      case_decide as Hid; [subst; by rewrite lookup_insert_eq, <-Hs'|by rewrite lookup_insert_ne].
  - destruct Hs' as [[ws Hws] Hver].
    assert (∀ gi, is_verified t gi ↔ state_of (verifier tr) gi = Some Verified) as Hver'.
    { intros gi. unfold is_verified, slice_state. by rewrite Hst. }
    destruct (unmatched tr !! id) as [l|] eqn:Hun.
    + destruct (to_unmatched _ _ _ _ _ Hws _ _ Hun) as [-> _].
      assert (∀ idx p, files tr !! id = Some (idx, p) → False) as Hno.
      { intros idx p Hf. apply (to_files _ _ _ _ _ Hws) in Hf as (_ & _ & _ & ?). congruence. }
      eexists _, _. split; [done|].
      assert (evolves t rec fs (with_state (Ready (with_unmatched (<[id:=writes_of id rec ++ [(off, len)]]>
        (unmatched tr)) tr)) t) (rec ++ [(id, (off, len))]) fs) as He.
      { apply evolves_ready. intros tr0 Htr0. rewrite Hst in Htr0. by simplify_eq. }
      apply marks_ignored; [done| | |by intros gi; rewrite Hver'].
      * eapply ready_step; [done|done| |intros gi; left; by apply Hver'].
        eapply tracked_ok_ext; [|by apply hold_write]. intros id'. apply seen_snoc.
      * intros gi. eapply undecided_other; [done..|]. intros idx p Hf. by destruct (Hno idx p).
    + assert ((∀ idx p, files tr !! id = Some (idx, p) → idx ∈ untracked tr) →
        marks t rec fs (with_state (Ready tr) t) (rec ++ [(id, (off, len))]) []) as Hign.
      { intros Hunt. assert (evolves t rec fs (with_state (Ready tr) t) (rec ++ [(id, (off, len))]) fs) as He.
        { apply evolves_ready. intros tr0 Htr0. rewrite Hst in Htr0. by simplify_eq. }
        apply marks_ignored; [done| | |by intros gi; rewrite Hver'].
        - eapply ready_step; [done|done| |intros gi; left; by apply Hver'].
          eapply tracked_ok_ext; [|by apply ignore_write]. intros id'. apply seen_snoc.
        - intros gi. by eapply undecided_other. }
      destruct (files tr !! id) as [[idx p]|] eqn:Hf.
      * case_decide as Hunt.
        { eexists _, _. split; [done|]. apply Hign. intros idx' p' Hf'. by simplify_eq. }
        destruct (mark_tracked_ok t rec fs tr id idx p (off, len)) as (v & pend & -> & Hm); [done..|].
        simpl. eexists _, _. by split.
      * eexists _, _. split; [done|]. apply Hign. done.
Qed.

(** [record_write] *)
Lemma record_write_outcome t rec fs ok id off len complete :
  state_ok t rec fs → fold_ok t → (off + len < 2 ^ 64)%N →
  once (writes_of id (rec ++ [(id, (off, len))])) →
  ∃ t' ks, record_write id off len complete t = Some (t', ks) ∧
    outcome t rec fs ok (TMark id off len complete) t' ks.
Proof.
  intros Hs Hf Hb Ho. destruct (mark_ok t rec fs id off len Hs Hb Ho) as (st & mk & Hm & [He Hs' Hp Ha Hv Hfo]).
  unfold record_write. rewrite Hm. simpl. set (own := if try_match mk then Some id else None).
  set (idx := if complete && _ then Some id else index_on_disk t).
  eexists _, _. split; [done|]. split; [done|done|by eapply fold_ok_evolves| | |].
  - destruct idx; [by repeat constructor|by apply after_install_ok].
  - intros gi Hgi. destruct (Ha gi Hgi) as [?|Hin]; [left; split; [done|set_solver]|right; left].
    destruct idx; [simpl; by rewrite app_nil_r|by apply after_install_pend].
  - intros gi [Hver Hfed]. left. split; [split; [by apply Hv|exact Hfed]|intros []].
Qed.

(** [claim_install] *)
Lemma claim_outcome t rec fs ok index_id pend own :
  state_ok t rec fs → fold_ok t → Forall (placed t rec) pend →
  outcome t rec fs ok (TClaim index_id pend own) (claim_and_install index_id pend own t).1
    (claim_and_install index_id pend own t).2.
Proof.
  intros Hs Hf Hp. unfold claim_and_install. destruct (claim_install (state t)) as [st won] eqn:Hc.
  assert (st = state t ∧ won = false ∨
    ∃ ws, state t = Pending ws false ∧ st = Pending ws true ∧ won = true) as [[-> ->]|(ws & Hst & -> & ->)].
  { unfold claim_install in Hc. destruct (state t) as [|ws [|]|tr]; simplify_eq; naive_solver. }
  - assert (with_state (state t) t = t) as -> by by destruct t. apply outcome_same; try done.
    + by apply after_install_ok.
    + intros gi _ Hgi. left. by apply after_install_pend.
  - assert (¬ is_ready t) as Hnr by (intros [tr Htr]; congruence).
    assert (evolves t rec fs (with_state (Pending ws true) t) (rec ++ []) fs) as He
      by by apply evolves_not_ready.
    split; simpl; rewrite ?app_nil_r in *; [done| | | | |].
    + unfold SliceRun.state_ok in *. simpl. by rewrite Hst in Hs.
    + by eapply fold_ok_evolves.
    + repeat constructor. eapply Forall_weaken; [|exact Hp]. intros x. by eapply placed_mono.
    + intros gi [? _]. done.
    + intros gi [? _]. done.
Qed.

(** [install], when the map is not there yet. *)
Lemma install_outcome t rec fs ok index_id pend own :
  state_ok t rec fs → fold_ok t → Forall (placed t rec) pend → ¬ is_ready t →
  outcome t rec fs ok (TInstall index_id pend own) (install par2_parse fs index_id pend own t).1
    (install par2_parse fs index_id pend own t).2.
Proof.
  intros Hs Hf Hp Hnr. unfold install.
  destruct (name ← filenames t !! index_id; par2_parse fs (join (work_dir t) name)) as [set|] eqn:Hparsed.
  - assert (set = the_set) as ->.
    { destruct (filenames t !! index_id); simplify_eq/=. by eapply Hparse. }
    apply outcome_same; try done; [by repeat constructor|].
    intros gi _ Hgi. left. simpl. by rewrite app_nil_r.
  - assert (evolves t rec fs (with_state Disabled t) (rec ++ []) fs) as He by by apply evolves_not_ready.
    split; simpl; rewrite ?app_nil_r in *; [done|done|by eapply fold_ok_evolves| | |].
    + apply after_install_ok. eapply Forall_weaken; [|exact Hp]. intros x. by eapply placed_mono.
    + intros gi [? _]. done.
    + intros gi [? _]. done.
Qed.

(** ** The replay *)
Lemma lookup_build_files dir names (res : gset string) id idx p :
  files (build_tracked dir names res the_set) !! id = Some (idx, p) →
  ∃ name, names !! id = Some name ∧ p = join dir name.
Proof.
  simpl. rewrite map_lookup_imap. destruct (match_files_by_hash16k _ _ !! id) as [i|]; [|done]. simpl.
  destruct (names !! id) as [name|]; [|done]. simpl. intros [= <- <-]. eauto.
Qed.

Lemma build_tracked_ok t :
  tracked_ok L (file_path t) (λ _, [])
    (build_tracked (work_dir t) (filenames t) (resumed t) the_set) (λ _, []).
Proof.
  set (refs := imap (λ i f, MkPar2FileRef i (p_filename f) (p_hash_16k f) (p_size f)) (files_in_order the_set)).
  set (cands := (λ kv, MkCandidateFile kv.1 kv.2 None None)
    <$> filter (λ kv : string * str, is_par2 kv.2 = false) (iter (filenames t))).
  destruct (match_files_matching refs cands) as (s & at_ & Hs & Hm).
  { unfold cands. rewrite <-list_fmap_compose. simpl.
    eapply (sublist_NoDup _ (fst <$> iter (filenames t))); [|apply fmap_sublist, sublist_filter].
    rewrite (iter_perm (filenames t)). apply NoDup_fst_map_to_list. }
  assert (length (layout_files L) = length (files_in_order the_set)) as HlenL by apply length_fmap.
  assert (∀ k idx, s.1 !! k = Some idx → at_ k = Some idx ∧ idx < length (layout_files L)) as Hat.
  { intros k idx. rewrite (matching_at _ _ _ _ Hm). destruct (at_ k) as [pi|]; [|done]. simpl.
    unfold refs. rewrite list_lookup_imap. destruct (files_in_order the_set !! pi) as [f|] eqn:Hf; [|done].
    simpl. intros [= <-]. split; [done|]. rewrite length_fmap. by eapply lookup_lt_Some. }
  unfold build_tracked. fold refs cands. rewrite Hs. split; simpl.
  - by apply cells_ok_new.
  - intros id idx p. rewrite map_lookup_imap. destruct (s.1 !! id) as [i|] eqn:Hi; [|done]. simpl.
    destruct (filenames t !! id) as [name|] eqn:Hn; [|done]. simpl. intros [= <- <-].
    split_and!; [by unfold file_path; rewrite Hn| |by apply Hat with id|].
    + apply elem_of_list_to_set, list_elem_of_fmap. exists (id, i). by rewrite elem_of_map_to_list.
    + rewrite map_lookup_imap, Hn. simpl. rewrite decide_False; [done|]. rewrite Hi. naive_solver.
  - intros id id' idx p p'. rewrite !map_lookup_imap.
    destruct (s.1 !! id) as [i|] eqn:Hi; [|done]. destruct (s.1 !! id') as [i'|] eqn:Hi'; [|done]. simpl.
    destruct (filenames t !! id); [|done]. destruct (filenames t !! id'); [|done]. simpl.
    intros [= -> <-] [= -> <-]. apply Hat in Hi as [Hi _]. apply Hat in Hi' as [Hi' _].
    by apply (matching_inj _ _ _ _ Hm _ _ _ Hi Hi').
  - done.
  - done.
  - intros id l. rewrite map_lookup_imap. destruct (filenames t !! id) as [name|] eqn:Hn; [|done]. simpl.
    case_decide; [|done]. intros [= <-]. split; [done|]. unfold file_path. by rewrite Hn.
  - rewrite length_fmap. unfold refs. by rewrite length_imap, length_fmap.
Qed.

(** What replaying [l] reports. *)
Record replayed (tr : Tracked) (l : list (string * list Write)) (seen : string → list Write)
    (names : string → option path) (tr' : Tracked) (more : list PendingSlice) : Prop := {
  rp_tracked : ∃ ws, tracked_ok L names (λ id, default (seen id) ((list_to_map l : gmap string _) !! id)) tr' ws;
  rp_files : files tr' = files tr;
  rp_untracked : untracked tr' = untracked tr;
  rp_states gi : state_of (verifier tr') gi = state_of (verifier tr) gi;
  rp_placed s : s ∈ more → ∃ id ws idx p f i, (id, ws) ∈ l ∧ files tr !! id = Some (idx, p) ∧
    idx ∉ untracked tr ∧ located L s idx p f i ∧ slice_covered L f ws i;
  rp_all id ws idx p f gi i d : (id, ws) ∈ l → files tr !! id = Some (idx, p) → idx ∉ untracked tr →
    at_slice L gi idx f i d → state_of (verifier tr) gi = Some Unknown → (0 < slice_len L f i)%N →
    slice_covered L f ws i → gi ∈ global_index <$> more;
}.

Lemma replay_file_ok names seen tr ws pend tm id lw :
  tracked_ok L names seen tr ws → seen id = [] →
  Forall (λ w, (w.1 + w.2 < 2 ^ 64)%N) lw → once lw →
  ∃ tr' more tm', replay_file (tr, pend, tm) (id, lw) = Some (tr', pend ++ more, tm') ∧
    replayed tr [(id, lw)] seen names tr' more.
Proof.
  intros Hws Hseen Hb Ho. unfold replay_file.
  assert (∀ id', upd seen id lw id' =
    default (seen id') ((list_to_map [(id, lw)] : gmap string (list Write)) !! id')) as Hupd.
  { intros id'. unfold upd. simpl. case_decide; [subst; by rewrite lookup_insert_eq|].
    by rewrite lookup_insert_ne, lookup_empty. }
  assert (∀ tr' ws', files tr' = files tr → untracked tr' = untracked tr →
    verifier tr' = verifier tr → tracked_ok L names (upd seen id lw) tr' ws' →
    (∀ idx p, files tr !! id = Some (idx, p) → idx ∈ untracked tr) →
    replayed tr [(id, lw)] seen names tr' []) as Hsame.
  { intros tr' ws' H1 H2 H3 H4 Hno. split; [|done|done|by rewrite H3|by intros s ?%elem_of_nil|].
    - exists ws'. by eapply tracked_ok_ext.
    - intros id' ws0 idx p f gi i d [= -> ->]%list_elem_of_singleton Hf Hu. destruct Hu. by apply (Hno idx p). }
  destruct (unmatched tr !! id) as [held|] eqn:Hun.
  - destruct (to_unmatched _ _ _ _ _ Hws _ _ Hun) as [-> _]. rewrite Hseen in *. simpl.
    eexists _, [], _. rewrite app_nil_r. split; [done|].
    apply (Hsame _ ws); [done..| |].
    + by apply (hold_write L names seen tr ws id [] lw).
    + intros idx p Hf. apply (to_files _ _ _ _ _ Hws) in Hf as (_ & _ & _ & ?). congruence.
  - assert ((∀ idx p, files tr !! id = Some (idx, p) → idx ∈ untracked tr) →
      replayed tr [(id, lw)] seen names tr []) as Hign.
    { intros Hno. apply (Hsame _ ws); try done. by apply ignore_write. }
    destruct (files tr !! id) as [[idx p]|] eqn:Hf.
    + case_decide as Hunt.
      { eexists _, [], _. rewrite app_nil_r. split; [done|]. apply Hign. intros ? ? [= <- <-]. done. }
      destruct (mark_file L HL names seen tr ws id idx p lw) as (f & v & more & HLf & -> & Htr & Hst & Hp1 & Hp2);
        [done|done|done|done|by rewrite Hseen|].
      rewrite Hseen in *. simpl. eexists _, more, _. split; [done|]. split; [|done|done|done| |].
      * eexists. eapply tracked_ok_ext; [|exact Htr]. intros id'. apply Hupd.
      * intros s Hs. destruct (Hp1 s Hs) as (i & Hloc & Hc). exists id, lw, idx, p, f, i.
        split_and!; [set_solver|done..].
      * intros id' ws0 idx' p' f' gi i d [= -> ->]%list_elem_of_singleton Hf' Hu Hat Hun' Hl Hc.
        rewrite Hf in Hf'. simplify_eq. assert (f' = f) as -> by (destruct Hat as (? & _); congruence).
        destruct (Hp2 gi i d) as (s & Hs & <-); [done..|by apply uncovered_nil|].
        by apply list_elem_of_fmap_2.
    + eexists _, [], _. rewrite app_nil_r. split; [done|]. by apply Hign.
Qed.

Lemma replay_ok names l : ∀ seen tr ws pend tm,
  tracked_ok L names seen tr ws → NoDup (fst <$> l) → (∀ id, id ∈ fst <$> l → seen id = []) →
  Forall (λ kv, Forall (λ w, (w.1 + w.2 < 2 ^ 64)%N) kv.2 ∧ once kv.2) l →
  ∃ tr' more tm', replay (tr, pend, tm) l = Some (tr', pend ++ more, tm') ∧
    replayed tr l seen names tr' more.
Proof.
  induction l as [|[id lw] l IH]; intros seen tr ws pend tm Hws Hnd Hseen Hl; cbn [replay].
  { eexists _, [], _. rewrite app_nil_r. split; [done|]. split; try done; [by exists ws|set_solver|].
    intros id ws0 idx p f gi i d Hin. by apply elem_of_nil in Hin. }
  apply NoDup_cons in Hnd as [Hni Hnd]. apply Forall_cons in Hl as [[Hb Ho] Hl].
  destruct (replay_file_ok names seen tr ws pend tm id lw) as (tr1 & m1 & tm1 & -> & [[ws1 Htr1] F1 U1 S1 P1 A1]);
    [done|apply Hseen; set_solver|done|done|].
  change (list_to_map [(id, lw)]) with (<[id := lw]> (∅ : gmap string (list Write))) in Htr1.
  assert (∀ id', id' ∈ fst <$> l → id' ≠ id) as Hne by (intros id' Hid ->; done).
  cbn [mbind option_bind].
  destruct (IH (λ id', default (seen id') ((<[id := lw]> ∅ : gmap string (list Write)) !! id')) tr1 ws1
    (pend ++ m1) tm1) as (tr2 & m2 & tm2 & -> & [[ws2 Htr2] F2 U2 S2 P2 A2]); [done|done| |done|].
  { intros id' Hid. rewrite lookup_insert_ne by (intros ->; by destruct (Hne id')).
    rewrite lookup_empty. simpl. apply Hseen. simpl. set_solver. }
  eexists _, (m1 ++ m2), _. rewrite (assoc app). split; [done|].
  rewrite F1, U1 in *. split; [|done|done| | |].
  - exists ws2. eapply tracked_ok_ext; [|exact Htr2]. intros id'. simpl.
    destruct (decide (id' = id)) as [->|Hid].
    + rewrite !lookup_insert_eq. rewrite (not_elem_of_list_to_map_1 l id) by done. done.
    + rewrite !lookup_insert_ne by done. rewrite lookup_empty. done.
  - intros gi. by rewrite S2, S1.
  - intros s [Hs|Hs]%elem_of_app.
    + destruct (P1 s Hs) as (id' & ws0 & idx & p & f & i & [= -> ->]%list_elem_of_singleton & ?).
      exists id, lw, idx, p, f, i. split; [set_solver|done].
    + destruct (P2 s Hs) as (id' & ws0 & idx & p & f & i & Hin & ?).
      exists id', ws0, idx, p, f, i. split; [set_solver|done].
  - intros id' ws0 idx p f gi i d Hin Hf Hu Hat Hun Hlen Hc. rewrite fmap_app, elem_of_app.
    apply elem_of_cons in Hin as [[= -> ->]|Hin].
    + left. eapply (A1 id lw); [set_solver|done..].
    + right. eapply (A2 id' ws0); [done..|by rewrite S1|done|done].
Qed.

Definition rec_ok rec : Prop :=
  (∀ id, once (writes_of id rec)) ∧ Forall (λ kw, (kw.2.1 + kw.2.2 < 2 ^ 64)%N) rec.

Lemma rec_ok_bound rec id : rec_ok rec → Forall (λ w, (w.1 + w.2 < 2 ^ 64)%N) (writes_of id rec).
Proof.
  intros [_ Hb]. apply Forall_forall. intros w Hw%elem_of_writes_of. rewrite Forall_forall in Hb.
  by apply (Hb (id, w)).
Qed.

Lemma list_to_map_iter {A} (m : gmap string A) : list_to_map (iter m) = m.
Proof.
  rewrite <-(list_to_map_to_list m) at 2. apply list_to_map_proper; [|apply iter_perm].
  rewrite (iter_perm m). apply NoDup_fst_map_to_list.
Qed.

Lemma elem_of_iter {A} (m : gmap string A) id x : (id, x) ∈ iter m ↔ m !! id = Some x.
Proof. by rewrite (iter_perm m), elem_of_map_to_list. Qed.

(** The end of [install]. *)
Lemma replay_outcome t rec fs ok tr pend own ws inst :
  state t = Pending ws inst → state_ok t rec fs → fold_ok t → rec_ok rec →
  Forall (placed t rec) pend →
  tr = build_tracked (work_dir t) (filenames t) (resumed t) the_set →
  ∃ t' ks, install_replay tr pend own t = Some (t', ks) ∧ outcome t rec fs ok (TReplay tr pend own) t' ks.
Proof.
  intros Hst Hs Hf Hrec Hp ->. set (tr := build_tracked _ _ _ _).
  unfold SliceRun.state_ok in Hs. rewrite Hst in Hs.
  assert (∀ id lw, (id, lw) ∈ iter ws → lw = writes_of id rec) as Hlw.
  { intros id lw Hin%elem_of_iter. specialize (Hs id). by rewrite Hin in Hs. }
  unfold install_replay, install_state. rewrite Hst.
  destruct (replay_ok (file_path t) (iter ws) (λ _, []) tr (λ _, []) [] []) as
    (tr' & more & tm & -> & [[ws' Htr'] Fl Un St Pl Al]); [apply build_tracked_ok| |done| |].
  { rewrite (iter_perm ws). apply NoDup_fst_map_to_list. }
  { apply Forall_forall. intros [id lw] Hin. rewrite (Hlw id lw Hin). simpl.
    split; [by apply rec_ok_bound|apply Hrec]. }
  simpl. eexists _, _. split; [done|].
  assert (¬ is_ready t) as Hnr by (intros [tr0 Htr0]; congruence).
  assert (evolves t rec fs (with_state (Ready tr') t) (rec ++ []) fs) as He by by apply evolves_not_ready.
  assert (∀ gi, ¬ is_verified (with_state (Ready tr') t) gi) as Hnv.
  { intros gi. unfold is_verified, slice_state. simpl. rewrite St. intros Hv. by apply states_new in Hv. }
  rewrite list_to_map_iter in Htr'.
  rewrite app_nil_r in He. split; simpl; rewrite ?app_nil_r; [done| |by eapply fold_ok_evolves| | |].
  - split; [|intros gi Hgi; by destruct (Hnv gi)].
    exists ws'. eapply tracked_ok_ext; [|exact Htr']. intros id. apply Hs.
  - repeat constructor. apply Forall_app. split.
    + eapply Forall_weaken; [|exact Hp]. intros x. by eapply placed_mono.
    + apply Forall_forall. intros x Hx. destruct (Pl x Hx) as (id & lw & idx & p & f & i & Hin & Hfl & Hu & Hloc & Hc).
      exists id, idx, p, f, i. rewrite <-(Hlw _ _ Hin). split_and!; [|done|done].
      exists tr'. by rewrite Fl, Un.
  - intros gi [Hu (id & idx & p & f & i & d & (tr0 & [= <-] & Hfl & Hun) & Hat & Hl & Hc)]. right. left.
    rewrite fmap_app, elem_of_app. right. unfold slice_state in Hu. simpl in Hu. rewrite St in Hu.
    rewrite Fl, Un in *. destruct (ws !! id) as [lw|] eqn:Hws.
    + assert ((id, lw) ∈ iter ws) as Hin by by apply elem_of_iter.
      eapply Al; [exact Hin|done..|]. by rewrite (Hlw _ _ Hin).
    + specialize (Hs id). rewrite Hws in Hs. simpl in Hs. rewrite <-Hs in Hc.
      by destruct (uncovered_nil f i).
  - intros gi [Hv _]. by destruct (Hnv gi).
Qed.

(** ** Matching by hash *)

(** Remembering the prefixes already hashed. *)
Lemma hashed_evolves t rec fs tr h :
  state t = Ready tr → evolves t rec fs (with_state (Ready (with_hashed h tr)) t) rec fs.
Proof.
  intros Hst. rewrite <-(app_nil_r rec) at 2. apply evolves_ready. intros tr0 Htr0.
  rewrite Hst in Htr0. by simplify_eq.
Qed.

Lemma match_next_outcome t rec fs ok ids pend next :
  state_ok t rec fs → fold_ok t → Forall (placed t rec) pend →
  outcome t rec fs ok (TMatch ids pend next) (match_next ids pend next t).1 (match_next ids pend next t).2.
Proof.
  intros Hs Hf Hp. unfold match_next.
  assert (outcome t rec fs ok (TMatch ids pend next) t (after_match pend next)) as Hend.
  { apply outcome_same; try done; [by apply after_match_ok|].
    intros gi _ Hgi. left. by apply after_match_pend. }
  destruct ids as [|id ids]; [done|]. destruct (state t) as [| |tr] eqn:Hst; [done..|].
  destruct (hash_lens id tr) as [[tr' lens]|] eqn:Hh.
  2: { apply outcome_same; try done; [by repeat constructor|].
       intros gi _ Hgi. left. simpl. by rewrite app_nil_r. }
  unfold hash_lens in Hh. destruct (unmatched tr !! id) as [l|] eqn:Hun; [|done]. simpl in Hh.
  simplify_eq. set (h := _ ∪ _).
  pose proof (hashed_evolves t rec fs tr h Hst) as He. pose proof Hs as Hs'.
  unfold SliceRun.state_ok in Hs'. rewrite Hst in Hs'. destruct Hs' as [[ws Hws] Hv].
  split; simpl; rewrite ?app_nil_r; [done| |by eapply fold_ok_evolves| | |].
  - split; [exists ws; by destruct Hws; split|]. intros gi Hgi. eapply ready_verified_mono; [exact He|auto].
  - repeat constructor; [|eapply Forall_weaken; [|exact Hp]; intros x; by eapply placed_mono].
    by apply (to_unmatched _ _ _ _ _ Hws) in Hun as [_ ?].
  - intros gi [Hu (id' & idx & p & f & i & d & (tr0 & [= <-] & Hfl & Hunt) & Hrest)].
    destruct (decide (gi ∈ global_index <$> pend)); [right; by left|left].
    split; [|done]. split; [unfold slice_state; by rewrite Hst|].
    exists id', idx, p, f, i, d. split; [by exists tr|done].
  - intros gi [Hver Hfe]. left. split; [|tauto]. split; [|done].
    unfold is_verified, slice_state in *. by rewrite Hst.
Qed.

Lemma hash_next_outcome t rec fs ok id lens ids pend next :
  state_ok t rec fs → fold_ok t → known t id → Forall (placed t rec) pend →
  ∃ t' ks, hash_next md5_digest fs ok id lens ids pend next t = Some (t', ks) ∧
    outcome t rec fs ok (THash id lens ids pend next) t' ks.
Proof.
  intros Hs Hf Hk Hp. unfold hash_next.
  assert (∀ k, task_ok t rec fs k → pend_of k = global_index <$> pend →
    outcome t rec fs ok (THash id lens ids pend next) t [k]) as Hone.
  { intros k Hkk Hpk. apply outcome_same; try done; [by repeat constructor|].
    intros gi _ Hgi. left. simpl. by rewrite app_nil_r, Hpk. }
  destruct lens as [|len lens]; [eexists _, _; split; [done|by apply Hone]|].
  pose proof Hk as Hk'. unfold known, file_path in Hk'. rewrite fmap_is_Some in Hk'. destruct Hk' as [name ->].
  simpl. destruct (if ok then _ else _); eexists _, _; (split; [done|by apply Hone]).
Qed.

(** A file found by its hash. *)
Lemma claim_by_hash_ok t rec fs tr id len digest p :
  state t = Ready tr → state_ok t rec fs → rec_ok rec → file_path t id = Some p →
  ∃ c, claim_by_hash id len digest p tr = Some c ∧
    match c with
    | Matched tr' more => marks t rec fs (with_state (Ready tr') t) rec more
    | _ => True
    end.
Proof.
  intros Hst Hs Hrec Hpath. unfold claim_by_hash.
  destruct (position_i _ _) as [idx|] eqn:Hpos; [|by eexists].
  destruct (unmatched tr !! id) as [l|] eqn:Hun; [|by eexists].
  apply position_i_Some in Hpos as (hs & Hhs & Hg). rewrite !andb_true_iff, negb_true_iff, bool_decide_eq_false in Hg.
  destruct Hg as [[Hcl _] _].
  pose proof Hs as Hs'. unfold SliceRun.state_ok in Hs'. rewrite Hst in Hs'. destruct Hs' as [[ws Hws] Hv].
  pose proof (to_unmatched _ _ _ _ _ Hws _ _ Hun) as [-> _].
  assert (idx < length (layout_files L)) as Hlt.
  { rewrite <-(to_par2 _ _ _ _ _ Hws). by eapply lookup_lt_Some. }
  destruct (claim_file_ok L HL _ _ _ _ id idx p _ Hws Hun Hcl Hlt Hpath) as
    (f & v & more & HLf & -> & Htr & Hstv & Hp1 & Hp2); [by apply rec_ok_bound|apply Hrec|].
  simpl. eexists. split; [done|]. set (tr' := claim_file id idx p v tr).
  assert (∀ id' p', files tr !! id' = Some (idx, p') → False) as Hno.
  { intros id' p' Hfile. by apply (to_files _ _ _ _ _ Hws) in Hfile as (_ & ? & _). }
  assert (evolves t rec fs (with_state (Ready tr') t) rec fs) as He.
  { rewrite <-(app_nil_r rec) at 2. apply evolves_ready. intros tr0 Htr0. rewrite Hst in Htr0. simplify_eq.
    split; [|intros gi; simpl; by rewrite Hstv]. intros id' idx' p' Hfl Hunt. simpl.
    rewrite lookup_insert_ne; [set_solver|]. intros <-.
    apply (to_files _ _ _ _ _ Hws) in Hfl as (_ & _ & _ & ?). congruence. }
  assert (tracked_file (with_state (Ready tr') t) id idx p) as Htf.
  { exists tr'. split; [done|]. simpl. rewrite lookup_insert_eq. set_solver. }
  split; [done| | | | |done].
  - split; [by eexists|]. intros gi Hgi. simpl in Hgi. rewrite Hstv in Hgi.
    eapply ready_verified_mono; [exact He|auto].
  - by eapply slices_of_placed; [split|..].
  - intros gi [Hu (id' & idx' & p' & f' & i & d & (tr0 & [= <-] & Hfl & Hunt) & Hat & Hl & Hc)].
    unfold slice_state in Hu. simpl in Hu. rewrite Hstv in Hu. simpl in Hfl, Hunt.
    apply lookup_insert_Some in Hfl as [[<- [= <- <-]]|[Hne Hfl]].
    + right. assert (f' = f) as -> by (destruct Hat as (? & _); congruence).
      destruct (Hp2 gi i d) as (s & Hin & <-); [done..|by apply uncovered_nil|].
      by apply list_elem_of_fmap_2.
    + left. split; [unfold slice_state; by rewrite Hst|]. exists id', idx', p', f', i, d.
      split; [|done]. exists tr. split_and!; [done|done|]. intros Hin. apply Hunt.
      apply elem_of_difference. split; [done|]. intros ->%elem_of_singleton. eauto.
  - intros gi. unfold is_verified, slice_state. rewrite Hst. simpl. by rewrite Hstv.
Qed.

Lemma find_outcome t rec fs ok id len digest lens ids pend next :
  state_ok t rec fs → fold_ok t → rec_ok rec → known t id → Forall (placed t rec) pend →
  ∃ t' ks, find_by_hash id len digest lens ids pend next t = Some (t', ks) ∧
    outcome t rec fs ok (TFind id len digest lens ids pend next) t' ks.
Proof.
  intros Hs Hf Hrec Hk Hp. unfold find_by_hash. pose proof Hk as Hk'. destruct Hk' as [p Hpath].
  assert (∀ ks, Forall (task_ok t rec fs) ks → (∀ gi, gi ∈ global_index <$> pend → gi ∈ ks ≫= pend_of) →
    outcome t rec fs ok (TFind id len digest lens ids pend next) t ks) as Hsame.
  { intros ks Hks Hpk. apply outcome_same; try done. intros gi _ Hgi. left. auto. }
  destruct (state t) as [| |tr] eqn:Hst.
  1, 2: eexists _, _; split; [done|]; apply Hsame; [by apply after_match_ok|apply after_match_pend].
  unfold file_path in Hpath. destruct (filenames t !! id) as [name|] eqn:Hn; [|done].
  cbn [fmap option_fmap option_map] in Hpath. simplify_eq.
  assert (file_path t id = Some (join (work_dir t) name)) as Hpath by (unfold file_path; by rewrite Hn).
  destruct (claim_by_hash_ok t rec fs tr id len digest _ Hst Hs Hrec Hpath) as (c & Hc & Hm).
  cbn [mbind option_bind]. rewrite Hc. simpl. destruct c as [| |tr' more].
  - eexists _, _. split; [done|]. apply Hsame; [by repeat constructor|].
    intros gi Hgi. simpl. by rewrite app_nil_r.
  - eexists _, _. split; [done|]. apply Hsame; [by repeat constructor|].
    intros gi Hgi. simpl. by rewrite app_nil_r.
  - eexists _, _. split; [done|]. destruct Hm as [He Hs' Hpl Ha Hv Hfo].
    split; simpl; rewrite ?app_nil_r; [done|done|by eapply fold_ok_evolves| | |].
    + repeat constructor. apply Forall_app. split; [|done].
      eapply Forall_weaken; [|exact Hp]. intros x. by eapply placed_mono.
    + intros gi Hgi. rewrite fmap_app, elem_of_app.
      destruct (decide (gi ∈ global_index <$> pend)); [right; left; by left|].
      destruct (Ha gi Hgi); [by left|right; left; by right].
    + intros gi [Hver Hfe]. left. split; [|tauto]. split; [by apply Hv|done].
Qed.

(** ** Verdicts *)
Lemma spawn_grow_ok t rec fs : Forall (task_ok t rec fs) (spawn_grow t).
Proof.
  unfold spawn_grow. case_decide; [constructor|].
  destruct (fold t); [by repeat constructor|constructor|]. case_match; by repeat constructor.
Qed.

Lemma verify_next_outcome t rec fs ok pend :
  state_ok t rec fs → fold_ok t → Forall (placed t rec) pend →
  outcome t rec fs ok (TVerify pend) (verify_next fs ok pend t).1 (verify_next fs ok pend t).2.
Proof.
  intros Hs Hf Hp. destruct pend as [|s pend]; simpl.
  { apply outcome_same; try done; [apply spawn_grow_ok|]. intros gi _ Hgi. by apply elem_of_nil in Hgi. }
  apply Forall_cons in Hp as [Hps Hp].
  destruct (if ok then _ else _) as [b|] eqn:Hr; simpl; apply outcome_same; try done.
  - repeat constructor; [|done]. eapply placed_read; [done|]. by destruct ok.
  - intros gi _ Hgi. left. simpl. by rewrite app_nil_r.
  - by repeat constructor.
  - intros gi _ [->|Hgi]%elem_of_cons; [right|left; simpl; by rewrite app_nil_r].
    simpl. destruct ok; [|set_solver]. rewrite bool_decide_true by done. set_solver.
Qed.

Lemma judge_verified d b : judge d b = Verified ∨ judge d b = Damaged.
Proof. unfold SliceCells.judge. case_decide; auto. Qed.

Lemma judged_as_at gi fi f i d b : at_slice L gi fi f i d → judged_as gi b (judge d b).
Proof.
  intros Hat fi' f' i' d' Hat'. by destruct (at_slice_inj _ _ _ _ _ _ _ _ _ _ Hat Hat') as (_ & _ & _ & ->).
Qed.

Lemma check_outcome t rec fs ok gi b pend :
  state_ok t rec fs → fold_ok t → on_disk t rec fs gi b → Forall (placed t rec) pend →
  outcome t rec fs ok (TCheck gi b pend) (check_slice md5_digest crc32_of gi b pend t).1
    (check_slice md5_digest crc32_of gi b pend t).2.
Proof.
  intros Hs Hf Hb Hp. pose proof Hb as (id & idx & p & f & i & d & (tr & Hst & Hfl & Hun) & Hat & _).
  unfold check_slice. rewrite Hst. pose proof Hs as Hs'. unfold SliceRun.state_ok in Hs'. rewrite Hst in Hs'.
  destruct Hs' as [[ws Hws] Hv].
  rewrite (verify_set L md5_digest crc32_of ws _ gi idx f i d) by (done || apply Hws). simpl.
  set (v := set_state (verifier tr) gi (judge d b)).
  assert (judge d b ≠ Unknown) as Hnu by (destruct (judge_verified d b) as [-> | ->]; done).
  assert (∀ gj, is_verified t gj ↔ state_of (verifier tr) gj = Some Verified) as Hver.
  { intros gj. unfold is_verified, slice_state. by rewrite Hst. }
  assert (∀ gj, state_of v gj = Some Verified ↔
    if decide (gi = gj) then judge d b = Verified else is_verified t gj) as Hv'.
  { intros gj. unfold v. rewrite set_state_of. case_decide; [subst|by rewrite Hver].
    destruct (cells_cell _ _ _ (to_cells _ _ _ _ _ Hws) _ _ _ _ _ Hat) as (c & Hc & _).
    unfold state_of. rewrite Hc. simpl. split; [by intros [= ->]|by intros ->]. }
  assert (evolves t rec fs (with_state (Ready (with_verifier v tr)) t) rec fs) as He.
  { rewrite <-(app_nil_r rec) at 2. apply evolves_ready. intros tr0 Htr0. rewrite Hst in Htr0. simplify_eq.
    split; [done|]. intros gj Hgj. simpl. rewrite Hv'. case_decide; [subst|by apply Hver].
    by apply (on_disk_verified _ _ _ t rec fs gj b Hs Hb (proj2 (Hver gj) Hgj) idx f i d). }
  split; simpl; rewrite ?app_nil_r; [done| |by eapply fold_ok_evolves| | |].
  - split; simpl.
    + exists ws. destruct Hws. split; try done. by apply set_state_ok.
    + intros gj Hgj. rewrite Hv' in Hgj. eapply ready_verified_mono; [exact He|].
      case_decide as Hg; [subst|apply Hv; by apply Hver]. exists b. split; [done|].
      rewrite <-Hgj. by apply (judged_as_at _ idx f i).
  - repeat constructor; [by eapply on_disk_mono|by apply (judged_as_at _ idx f i)| |].
    + intros Hj. unfold is_verified, slice_state. simpl. rewrite Hv'. by rewrite decide_True.
    + eapply Forall_weaken; [|exact Hp]. intros x. by eapply placed_mono.
  - intros gj [Hu (id' & idx' & p' & f' & i' & d' & (tr0 & [= <-] & Hfl' & Hun') & Hrest)].
    unfold slice_state in Hu. simpl in Hu. unfold v in Hu. rewrite set_state_of in Hu.
    destruct (decide (gi = gj)) as [<-|Hne].
    + destruct (state_of (verifier tr) gi); simplify_eq/=.
    + destruct (decide (gj ∈ global_index <$> pend)) as [Hin|Hni]; [by right; left|left].
      split; [|set_solver]. split; [unfold slice_state; by rewrite Hst|].
      exists id', idx', p', f', i', d'. split; [by exists tr|done].
  - intros gj [Hgj Hfe]. unfold is_verified, slice_state in Hgj. simpl in Hgj. rewrite Hv' in Hgj.
    case_decide as Hg; [|left; split; [by split|tauto]]. subst. right. left. apply Exists_cons_hd.
    simpl. by rewrite Hgj.
Qed.

(** ** The fold *)
Lemma fold_same t f f' :
  fold_ok t → fold t = Active f → same_flags f f' →
  fold_ok (with_fold (Active f') t) ∧ ∀ gi, unfed (with_fold (Active f') t) gi → unfed t gi.
Proof.
  intros Hf Ht [H1 H2]. unfold SliceRun.fold_ok in *. simpl. rewrite Ht in Hf. split.
  - rewrite H2, H1. unfold RepairFold.is_fed in *. by rewrite H1.
  - intros gi [Hv (f0 & [= <-] & Hfd)]. split; [done|]. exists f. split; [done|].
    unfold RepairFold.is_fed in *. by rewrite <-H1.
Qed.

Lemma fold_grows t f f' (sl : list (nat * bytes)) :
  fold_ok t → fold t = Active f → RepairFold.poisoned f' = RepairFold.poisoned f →
  length (RepairFold.fed f') = length (RepairFold.fed f) →
  (∀ i, RepairFold.is_fed f i = true → RepairFold.is_fed f' i = true) →
  (∀ i, i ∈ fst <$> sl → RepairFold.is_fed f' i = true) →
  (∀ i, RepairFold.is_fed f' i = true → RepairFold.is_fed f i = true ∨ i ∈ fst <$> sl) →
  (∀ s, s ∈ sl → is_verified t s.1) →
  fold_ok (with_fold (Active f') t) ∧
  ∀ gi, unfed (with_fold (Active f') t) gi → unfed t gi ∧ gi ∉ fst <$> sl.
Proof.
  intros Hf Ht H1 H2 H3 H4 H5 Hv. unfold SliceRun.fold_ok in *. simpl. rewrite Ht in Hf.
  destruct Hf as (Hr & Hp & Hl & Hfed). split.
  - split_and!; [done|congruence|congruence|]. intros gi [?|(s & -> & Hs)%list_elem_of_fmap]%H5; [by apply Hfed|by apply Hv].
  - intros gi [Hver (f0 & [= <-] & Hfd)]. split.
    + split; [done|]. exists f. split; [done|]. destruct (RepairFold.is_fed f gi) eqn:E; [|done].
      apply H3 in E. congruence.
    + intros Hin. apply H4 in Hin. congruence.
Qed.

Lemma proved_lt t rec fs gb : proved t rec fs gb → gb.1 < total_slices (SliceMap.new L).
Proof. intros [(id & idx & p & f & i & d & _ & Hat & _) _]. by eapply at_slice_in. Qed.

(** Folding a batch of verified slices. *)
Lemma feed_outcome t rec fs f sl :
  fold_ok t → fold t = Active f → Forall (proved t rec fs) sl →
  ∃ f' n, RepairFold.feed_batch f sl = Ok (f', n) ∧
    fold_ok (with_fold (Active f') t) ∧
    ∀ gi, unfed (with_fold (Active f') t) gi → unfed t gi ∧ gi ∉ fst <$> sl.
Proof.
  intros Hf Ht Hsl. pose proof Hf as Hf'. unfold SliceRun.fold_ok in Hf'. rewrite Ht in Hf'.
  destruct Hf' as (_ & _ & Hl & _). destruct (feed_batch_flags f sl) as (f' & n & Hfb & H1 & H2 & H3 & H4 & H5).
  { eapply Forall_impl; [exact Hsl|]. intros s Hs. rewrite Hl. by eapply proved_lt. }
  exists f', n. split; [done|]. eapply fold_grows; [exact Hf|exact Ht|done..|].
  intros s Hs. rewrite Forall_forall in Hsl. by apply Hsl.
Qed.

Lemma judged_outcome t rec fs ok gi b verdict pend :
  state_ok t rec fs → fold_ok t → task_ok t rec fs (TJudged gi b verdict pend) →
  outcome t rec fs ok (TJudged gi b verdict pend) (judged gi b verdict pend t).1
    (judged gi b verdict pend t).2.
Proof.
  intros Hs Hf (Hb & Hj & Hv & Hp). unfold judged. set (t' := match verdict with Damaged => _ | _ => t end).
  assert (filenames t' = filenames t ∧ work_dir t' = work_dir t ∧ resumed t' = resumed t ∧
    state t' = state t ∧ fold t' = fold t) as (E1 & E2 & E3 & E4 & E5) by (by destruct verdict).
  pose proof (evolves_state t rec fs t' E1 E2 E3 E4) as He.
  apply outcome_fold; try done.
  - by eapply fold_ok_evolves.
  - assert (Forall (placed t' rec) pend) as Hp'.
    { eapply Forall_weaken; [|exact Hp]. intros x. by eapply placed_mono. }
    destruct (fold t); repeat constructor; try done; [by eapply on_disk_mono|].
    intros Hvv. eapply ev_verified; [exact He|auto].
  - intros gj _ Hgj. left. destruct (fold t); simpl; by rewrite app_nil_r.
  - intros gj [Hgj (f0 & Hf0 & Hfe)]. change (fold t' = Active f0) in Hf0. rewrite E5 in Hf0. rewrite Hf0.
    assert (is_verified t gj) as Hgj' by (unfold is_verified, slice_state in *; by rewrite <-E4).
    assert (unfed t gj) as Hun by (split; [done|by exists f0]).
    destruct verdict; simpl; [left; split; [done|tauto]| |left; split; [done|tauto]].
    destruct (decide (gj = gi)) as [->|Hne]; [right; left; by constructor|by left].
Qed.

Lemma fold_slice_outcome t rec fs ok gi b verdict pend :
  state_ok t rec fs → fold_ok t → task_ok t rec fs (TFold gi b verdict pend) →
  outcome t rec fs ok (TFold gi b verdict pend) (fold_slice gi b verdict pend t).1
    (fold_slice gi b verdict pend t).2.
Proof.
  intros Hs Hf (Hb & Hj & Hv & Hp). unfold fold_slice.
  set (t' := match fold t with Active _ => _ | _ => t end).
  assert (fold_ok t' ∧ ∀ gj, unfed t' gj → unfed t gj ∧ ¬ feeds gj (TFold gi b verdict pend)) as [Hf' Hn].
  { unfold t'. destruct (fold t) as [| |f] eqn:Ht.
    1, 2: split; [done|]; intros gj [_ (f0 & Hf0 & _)]; congruence.
    destruct verdict.
    - split; [done|]. intros gj Hgj. split; [done|tauto].
    - unfold RepairFold.feed.
      destruct (feed_outcome t rec fs f [(gi, b)]) as (f' & n & -> & Hok & Hun); [done|done| |].
      { repeat constructor; [done|by apply Hv]. }
      simpl. split; [done|]. intros gj Hgj. destruct (Hun gj Hgj) as [? Hni]. split; [done|]. set_solver.
    - assert (same_flags f (RepairFold.note_corrupt f gi)) as Hsame; [|].
      2: { destruct (fold_same t f _ Hf Ht Hsame) as [? Hun]. split; [done|]. intros gj Hgj. split; [auto|tauto]. }
      unfold RepairFold.note_corrupt.
      destruct (RepairFold.is_fed f gi) eqn:Hfe; [exfalso|done].
      pose proof Hf as Hf'. unfold SliceRun.fold_ok in Hf'. rewrite Ht in Hf'.
      destruct Hf' as (_ & _ & _ & Hfed). pose proof (on_disk_verified _ _ _ _ _ _ _ _ Hs Hb (Hfed _ Hfe)) as Hjv.
      destruct Hb as (id & idx & p & fl & i & d & _ & Hat & _).
      specialize (Hj _ _ _ _ Hat). specialize (Hjv _ _ _ _ Hat). congruence. }
  assert (filenames t' = filenames t ∧ work_dir t' = work_dir t ∧ resumed t' = resumed t ∧
    state t' = state t) as (E1 & E2 & E3 & E4).
  { unfold t'. destruct (fold t), verdict; try done. by destruct (RepairFold.feed _ _ _) as [[]|]. }
  pose proof (evolves_state t rec fs t' E1 E2 E3 E4) as He.
  apply outcome_fold; try done.
  - repeat constructor. eapply Forall_weaken; [|exact Hp]. intros x. by eapply placed_mono.
  - intros gj _ Hgj. left. simpl. by rewrite app_nil_r.
  - intros gj Hgj. left. by apply Hn.
Qed.

(** ** Failures, and the growth of the fold *)
Lemma plan_ok t rec fs p :
  state_ok t rec fs → plan t = Some p →
  is_ready t ∧ plan_total p = total_slices (SliceMap.new L) ∧ plan_slice_size p = layout_slice_size L.
Proof.
  unfold plan, SliceRun.state_ok. destruct (state t) as [| |tr] eqn:Hst; [done..|].
  intros [[ws Hws] _] [= <-]. simpl. pose proof (to_cells _ _ _ _ _ Hws) as Hc.
  split_and!; [by exists tr|by apply (cells_length _ _ _ Hc)|by apply (cells_size _ _ _ Hc)].
Qed.

Lemma failure_outcome t rec fs ok id confirmed :
  state_ok t rec fs → fold_ok t →
  outcome t rec fs ok (TFailed id confirmed) (record_failure id confirmed t).1
    (record_failure id confirmed t).2.
Proof.
  intros Hs Hf. unfold record_failure. simpl. apply outcome_fold; try done.
  - destruct confirmed; by repeat constructor.
  - intros gi _ Hgi. by apply elem_of_nil in Hgi.
  - intros gi Hgi. left. split; [done|tauto].
Qed.

(** A call that holds no slice. *)
Lemma idle_outcome t rec fs ok k ks :
  state_ok t rec fs → fold_ok t → recorded_by k = [] → pend_of k = [] → (∀ gi, ¬ feeds gi k) →
  Forall (task_ok t rec fs) ks → outcome t rec fs ok k t ks.
Proof.
  intros Hs Hf Hr Hp Hn Hks. apply outcome_same; try done.
  - intros gi _. rewrite Hp. by intros ?%elem_of_nil.
  - intros gi _ Hgi. by destruct (Hn gi).
Qed.

Lemma open_or_grow_ok t rec fs : state_ok t rec fs → Forall (task_ok t rec fs) (open_or_grow t).
Proof.
  intros Hs. unfold open_or_grow. destruct (fold t); [|apply spawn_grow_ok..].
  destruct (plan t) as [p|] eqn:Hp; [|constructor]. repeat constructor; by eapply plan_ok.
Qed.

Lemma grow_fold_ok t rec fs : state_ok t rec fs → Forall (task_ok t rec fs) (grow_fold t).
Proof.
  intros Hs. unfold grow_fold. case_decide; [constructor|].
  destruct (fold t), (plan t) as [p|] eqn:Hp; try constructor; try done.
  simpl. by eapply plan_ok.
Qed.

Lemma open_outcome t rec fs ok rows total ssize :
  state_ok t rec fs → fold_ok t → is_ready t → total = total_slices (SliceMap.new L) →
  outcome t rec fs ok (TOpen rows total ssize) (open_fold rows total ssize t).1
    (open_fold rows total ssize t).2.
Proof.
  intros Hs Hf Hr ->. unfold open_fold, create_fold.
  destruct (fold t) as [| |f] eqn:Ht; simpl; [|apply idle_outcome; (done || constructor || (by intros gi []))..].
  destruct (RepairFold.new _ _ _) as [f|e] eqn:Hnew; simpl.
  - assert (fold_ok (with_fold (Active f) t)) as Hf'.
    { unfold RepairFold.new in Hnew. case_decide; [done|]. case_decide; [done|]. simplify_eq.
      split_and!; [exact Hr|done|apply length_replicate|]. intros gi. unfold RepairFold.is_fed. simpl.
      destruct (replicate _ false !! gi) as [x|] eqn:Hx; [|done].
      by apply lookup_replicate in Hx as [-> _]. }
    apply outcome_fold; try done; [by repeat constructor| |].
    + intros gi _ Hgi. by apply elem_of_nil in Hgi.
    + intros gi _. right. left. by constructor.
  - apply outcome_fold; try done.
    + intros gi _ Hgi. by apply elem_of_nil in Hgi.
    + intros gi [_ (f0 & Hf0 & _)]. done.
Qed.

(** Batches cut from a list hold what the list holds. *)
Lemma Forall_chunks {A} (P : A → Prop) n (l : list A) :
  0 < n → Forall P l → Forall (Forall P) (chunks n l).
Proof.
  intros Hn Hl. rewrite <-(concat_chunks n l Hn) in Hl. by apply Forall_concat.
Qed.

Lemma backfill_batches_ok t rec fs gen cs :
  Forall (Forall (is_verified t)) cs → Forall (task_ok t rec fs) (backfill_batches gen cs).
Proof.
  intros Hcs. destruct cs as [|c cs]; [constructor|]. apply Forall_cons in Hcs as [Hc Hcs].
  repeat constructor; done.
Qed.

Lemma fed_verified t f :
  fold_ok t → fold t = Active f → Forall (is_verified t) (RepairFold.fed_indices f).
Proof.
  intros Hf Ht. unfold SliceRun.fold_ok in Hf. rewrite Ht in Hf. apply Forall_forall.
  intros gi Hgi%RepairFold.elem_of_fed_indices. apply Hf. unfold RepairFold.is_fed. by rewrite Hgi.
Qed.

(** A section of a call that holds no slice, on an open fold. *)
Lemma flags_outcome t rec fs ok k f f' ks :
  state_ok t rec fs → fold_ok t → fold t = Active f → same_flags f f' →
  recorded_by k = [] → pend_of k = [] → Forall (task_ok t rec fs) ks →
  (∀ gi, unfed t gi → feeds gi k → Exists (feeds gi) ks ∨ gi ∈ missed fs ok k) →
  outcome t rec fs ok k (with_fold (Active f') t) ks.
Proof.
  intros Hs Hf Ht Hfl Hr Hp Hks Hn. destruct (fold_same t f f' Hf Ht Hfl) as [Hf' Hun].
  apply outcome_fold; try done.
  - intros gi _. rewrite Hp. by intros ?%elem_of_nil.
  - intros gi Hgi. destruct (decide (feeds gi k)); [right; auto|left; auto].
Qed.

Lemma begin_outcome t rec fs ok damage want recovery ssize :
  state_ok t rec fs → fold_ok t →
  outcome t rec fs ok (TBegin damage want recovery ssize) (begin_growth damage want recovery ssize t).1
    (begin_growth damage want recovery ssize t).2.
Proof.
  intros Hs Hf. unfold begin_growth.
  assert (outcome t rec fs ok (TBegin damage want recovery ssize) t []) as Hnone.
  { apply idle_outcome; done || constructor || by intros gi []. }
  destruct (fold t) as [| |f] eqn:Ht; [done..|]. destruct (_ || _); [done|].
  destruct (RepairFold.begin_growth f _) as [f' r] eqn:Hb. simpl.
  assert (same_flags f f') as Hfl.
  { change f' with (f', r).1. rewrite <-Hb. apply begin_growth_flags. }
  apply (flags_outcome t rec fs ok _ f f'); try done.
  destruct r as [[ticket|]|]; [|constructor..]. apply backfill_batches_ok.
  apply Forall_chunks; [apply RepairFold.batch_len_pos|].
  rewrite (begin_growth_ticket _ _ _ _ Hb). by apply fed_verified.
Qed.

(** ** The feeds from the disk *)
Lemma slice_source_ok t rec fs tr gi :
  state t = Ready tr → state_ok t rec fs → is_verified t gi →
  ∃ x, slice_source tr gi = Some x ∧ global_index x = gi ∧ placed t rec x.
Proof.
  intros Hst Hs Hv. pose proof Hs as Hs'. unfold SliceRun.state_ok in Hs'. rewrite Hst in Hs'.
  destruct Hs' as [[ws Hws] Hver]. unfold is_verified, slice_state in Hv. rewrite Hst in Hv.
  destruct (Hver gi Hv) as (b & (id & idx & p & f & i & d & (tr0 & Hst0 & Hfl & Hun) & Hat & Hc & _) & _).
  rewrite Hst in Hst0. simplify_eq.
  destruct (cells_cell _ _ _ (to_cells _ _ _ _ _ Hws) _ _ _ _ _ Hat) as (c & Hcell & Hok).
  unfold slice_source, slice_range. rewrite Hcell. simpl. rewrite (cell_file _ _ _ _ _ _ _ Hok).
  destruct (list_find _ (iter (files tr0))) as [[k kv]|] eqn:Hfind.
  - apply list_find_Some in Hfind as (Hk & Hidx & _). apply list_elem_of_lookup_2 in Hk.
    destruct kv as [id' [idx' p']]. simpl in Hidx. subst idx'. apply elem_of_iter in Hk.
    assert (id' = id) as -> by (by eapply (to_inj _ _ _ _ _ Hws)). rewrite Hfl in Hk. simplify_eq.
    simpl. eexists. split; [done|]. split; [done|]. exists id, idx, p', f, i. split_and!; [by exists tr0| |done].
    split; [by exists d|]. simpl.
    by rewrite (cell_start _ _ _ _ _ _ _ Hok), (cell_len _ _ _ _ _ _ _ Hok).
  - exfalso. rewrite list_find_None, Forall_forall in Hfind. apply (Hfind (id, (idx, p))); [|done].
    by apply elem_of_iter.
Qed.

Lemma prefix_sources_ok t rec fs :
  state_ok t rec fs →
  Forall (sourced t rec) (prefix_sources (state t)) ∧
  ∀ gi, is_verified t gi → gi ∈ global_index <$> prefix_sources (state t).
Proof.
  intros Hs. unfold prefix_sources. destruct (state t) as [| |tr] eqn:Hst.
  1, 2: split; [constructor|]; intros gi; unfold is_verified, slice_state; by rewrite Hst.
  assert (∀ gi s, (gi, s) ∈ filter (λ gs : nat * SliceState, gs.2 = Verified) (imap pair (states (verifier tr))) ↔
    is_verified t gi ∧ s = Verified) as Hin.
  { intros gi s. rewrite list_elem_of_filter, elem_of_lookup_imap. unfold is_verified, slice_state. rewrite Hst.
    unfold state_of, states. split.
    - intros [Hv (i & x & [= <- <-] & Hx)]. simpl in Hv. subst. by rewrite list_lookup_fmap in Hx.
    - intros [Hv ->]. split; [done|]. exists gi, Verified. by rewrite list_lookup_fmap. }
  split.
  - apply Forall_forall. intros x ([gi s] & [Hv ->]%Hin & Hx)%list_elem_of_omap. simpl in Hx.
    destruct (slice_source_ok t rec fs tr gi Hst Hs Hv) as (x' & Hx' & Hgi & Hp).
    rewrite Hx in Hx'. simplify_eq. by split.
  - intros gi Hv. destruct (slice_source_ok t rec fs tr gi Hst Hs Hv) as (x & Hx & <- & _).
    apply list_elem_of_fmap_2, list_elem_of_omap. exists (global_index x, Verified). split; [|done].
    by apply Hin.
Qed.

Lemma feed_batches_ok t rec fs cs :
  Forall (Forall (sourced t rec)) cs → Forall (task_ok t rec fs) (feed_batches cs).
Proof.
  intros Hcs. destruct cs as [|c cs]; [constructor|]. apply Forall_cons in Hcs as [Hc Hcs].
  repeat constructor; done.
Qed.

Lemma feed_batches_feeds gi cs :
  gi ∈ global_index <$> concat cs → Exists (feeds gi) (feed_batches cs).
Proof.
  destruct cs as [|c cs]; simpl; [by intros ?%elem_of_nil|].
  rewrite fmap_app, elem_of_app. intros Hgi. constructor. simpl. naive_solver.
Qed.

Lemma prefix_outcome t rec fs ok ssize :
  state_ok t rec fs → fold_ok t →
  outcome t rec fs ok (TPrefix ssize) t
    (feed_batches (chunks (RepairFold.batch_len ssize) (prefix_sources (state t)))).
Proof.
  intros Hs Hf. destruct (prefix_sources_ok t rec fs Hs) as [Hp Hall].
  pose proof (RepairFold.batch_len_pos ssize) as Hpos.
  apply outcome_same; try done.
  - by apply feed_batches_ok, Forall_chunks.
  - intros gi _ Hgi. by apply elem_of_nil in Hgi.
  - intros gi [Hv _] _. left. apply feed_batches_feeds. rewrite concat_chunks by done. auto.
Qed.

Lemma feed_next_outcome t rec fs ok cur batch rest :
  state_ok t rec fs → fold_ok t → task_ok t rec fs (TFeed cur batch rest) →
  outcome t rec fs ok (TFeed cur batch rest) (feed_next cur batch rest t).1 (feed_next cur batch rest t).2.
Proof.
  intros Hs Hf (Hcur & Hbatch & Hrest). unfold feed_next.
  destruct (fold t) as [| |f] eqn:Ht.
  1, 2: cbn [fst snd]; apply outcome_same; try done; [by intros gi _ ?%elem_of_nil|];
    intros gi [_ (f0 & Hf0 & _)]; by rewrite Ht in Hf0.
  destruct cur as [|s cur].
  - destruct (decide (batch = [])) as [->|Hne].
    + apply outcome_same; try done; [by apply feed_batches_ok|by intros gi _ ?%elem_of_nil|].
      intros gi _ [Hgi|[Hgi|Hgi]]; [by apply elem_of_nil in Hgi..|]. left. by apply feed_batches_feeds.
    + destruct (feed_outcome t rec fs f batch Hf Ht Hbatch) as (f' & n & -> & Hf' & Hun).
      destruct (fold_same (with_fold (Active f') t) f' (RepairFold.note_disk_fed f' n) Hf' eq_refl) as [Hf2 Hun2];
        [done|].
      change (with_fold (Active (RepairFold.note_disk_fed f' n)) (with_fold (Active f') t)) with
        (with_fold (Active (RepairFold.note_disk_fed f' n)) t) in Hf2, Hun2.
      apply outcome_fold; try done; [|by intros gi _ ?%elem_of_nil|].
      * apply feed_batches_ok. eapply Forall_weaken; [|exact Hrest]. intros c Hc.
        eapply Forall_weaken; [|exact Hc]. intros x Hx. eapply (sourced_mono the_set _ _ fs); [|exact Hx].
        by apply evolves_state.
      * intros gi Hgi. destruct (Hun gi (Hun2 gi Hgi)) as [Hu Hni].
        destruct (decide (gi ∈ global_index <$> concat rest)).
        -- right. left. by apply feed_batches_feeds.
        -- left. split; [done|]. intros [Hin|[Hin|Hin]]; [by apply elem_of_nil in Hin|done..].
  - apply Forall_cons in Hcur as [Hsrc Hcur]. destruct (RepairFold.is_fed f (global_index s)) eqn:Hfe; cbn [fst snd].
    + apply outcome_same; try done; [by repeat constructor|by intros gi _ ?%elem_of_nil|].
      intros gi [_ (f0 & Hf0 & Hfe0)] Hfeed. rewrite Ht in Hf0. simplify_eq. left. constructor. simpl in *.
      destruct Hfeed as [[->|Hgi]%elem_of_cons|Hgi]; [congruence|tauto..].
    + apply (flags_outcome t rec fs ok _ f _); try done; [apply note_disk_read_flags|by apply Forall_singleton|].
      intros gi _ Hfeed. left. constructor. simpl in *.
      destruct Hfeed as [[->|Hgi]%elem_of_cons|Hgi]; tauto.
Qed.

Lemma feed_read_outcome t rec fs ok s cur batch rest :
  state_ok t rec fs → fold_ok t → task_ok t rec fs (TFeedRead s cur batch rest) →
  outcome t rec fs ok (TFeedRead s cur batch rest) t (feed_read fs ok s cur batch rest).
Proof.
  intros Hs Hf (Hsrc & Hcur & Hbatch & Hrest). unfold feed_read.
  destruct (if ok then _ else _) as [b|] eqn:Hr; apply outcome_same; try done;
    try (by intros gi _ ?%elem_of_nil).
  - repeat constructor; try done. apply Forall_app. split; [done|]. repeat constructor; [|apply Hsrc].
    simpl. destruct Hsrc as [Hp _]. eapply placed_read; [exact Hp|]. by destruct ok.
  - intros gi _ Hfeed. left. constructor. simpl in *. rewrite fmap_app, elem_of_app. simpl.
    rewrite list_elem_of_singleton. tauto.
  - by repeat constructor.
  - intros gi _ [->|Hfeed]; [right|left; by constructor].
    simpl. destruct ok; [|set_solver]. rewrite bool_decide_true by done. set_solver.
Qed.

(** ** Growing *)
Lemma abandon_outcome t rec fs ok k gen :
  state_ok t rec fs → fold_ok t → recorded_by k = [] → pend_of k = [] → (∀ gi, ¬ feeds gi k) →
  outcome t rec fs ok k (abandon gen t) [].
Proof.
  intros Hs Hf Hr Hp Hn. unfold abandon. destruct (fold t) as [| |f] eqn:Ht.
  1, 2: apply idle_outcome; done || constructor.
  apply (flags_outcome t rec fs ok k f); try done; [apply abandon_growth_of_flags|].
  intros gi _ Hgi. by destruct (Hn gi).
Qed.

Lemma backfill_next_outcome t rec fs ok gen cur batch rest :
  state_ok t rec fs → fold_ok t → task_ok t rec fs (TBackfill gen cur batch rest) →
  outcome t rec fs ok (TBackfill gen cur batch rest) (backfill_next gen cur batch rest t).1
    (backfill_next gen cur batch rest t).2.
Proof.
  intros Hs Hf (Hcur & Hbatch & Hrest). unfold backfill_next.
  destruct cur as [|gi cur].
  - destruct (fold t) as [| |f] eqn:Ht.
    1, 2: apply idle_outcome; done || constructor || by intros gi [].
    destruct (RepairFold.backfill f gen batch) as [f' live] eqn:Hb. simpl.
    pose proof (backfill_flags f gen batch) as Hfl. rewrite Hb in Hfl.
    apply (flags_outcome t rec fs ok _ f f'); try done.
    destruct live; [by apply backfill_batches_ok|constructor].
  - apply Forall_cons in Hcur as [Hv Hcur].
    destruct (state t) as [| |tr] eqn:Hst;
      [by unfold is_verified, slice_state in Hv; rewrite Hst in Hv..|].
    destruct (slice_source_ok t rec fs tr gi Hst Hs Hv) as (x & -> & <- & Hp). simpl.
    apply idle_outcome; try done; [by intros gj []|]. by repeat constructor.
Qed.

Lemma backfill_read_outcome t rec fs ok gen s cur batch rest :
  state_ok t rec fs → fold_ok t → task_ok t rec fs (TBackRead gen s cur batch rest) →
  outcome t rec fs ok (TBackRead gen s cur batch rest) (backfill_read fs ok gen s cur batch rest t).1
    (backfill_read fs ok gen s cur batch rest t).2.
Proof.
  intros Hs Hf (Hsrc & Hcur & Hbatch & Hrest). unfold backfill_read.
  destruct (if ok then _ else _) as [b|] eqn:Hr;
    [|apply abandon_outcome; done || by intros gi []].
  assert (Forall (task_ok t rec fs) [TBackfill gen cur (batch ++ [(global_index s, b)]) rest]) as Hks.
  { repeat constructor; try done. apply Forall_app. split; [done|]. repeat constructor; [|apply Hsrc].
    simpl. destruct Hsrc as [Hp _]. eapply placed_read; [exact Hp|]. by destruct ok. }
  destruct (fold t) as [| |f] eqn:Ht; simpl.
  1, 2: apply idle_outcome; done || by intros gi [].
  apply (flags_outcome t rec fs ok _ f); try done. apply note_disk_read_flags.
Qed.
End steps.
