(* ===== verification/SliceSafe.v ===== *)
(** * The slice tracker: the invariant

    One step of any call, from the lemmas of [SliceSteps], and the invariant of
    [SliceRun.Sys] along every interleaving of the calls. *)
From S2P Require Import Prelude Str FileSystem SliceMap Par2Match SliceTracker SliceCells SliceRun SliceSteps.
From S2P Require RepairFold.

(** ** One step of any call *)
Section one_step.
Context {G : Type} `{GF : RepairFold.Gf16 G} `{HO : HashOrder} {FS : Type} `{FSI : FileSystem FS}.
Context (md5_digest : bytes → bytes) (crc32_of : bytes → N).
Context (par2_parse : FS → path → option Par2FileSet).
Context (the_set : Par2FileSet).
Abbreviation L := (slice_layout_from_par2 the_set).
Context (HL : ∀ fi f, layout_files L !! fi = Some f → fits L f).
Context (Hparse : ∀ fs p set, par2_parse fs p = Some set → set = the_set).
Implicit Types (t : JobSlices G) (fs : FS) (rec : list (string * Write)).
Abbreviation step_task := (step_task md5_digest crc32_of par2_parse).
Abbreviation state_ok := (state_ok md5_digest crc32_of the_set).
Abbreviation task_ok := (task_ok md5_digest crc32_of the_set).
Abbreviation outcome := (outcome md5_digest crc32_of the_set).

(** The calls that are installing the map. *)
Definition inst (k : Task) : nat := match k with TInstall _ _ _ | TReplay _ _ _ => 1 | _ => 0 end.
Definition installers (ks : list Task) : nat := sum_list_with inst ks.

(** At most one call installs, and only before there is a map. *)
Definition claims_ok t (n : nat) : Prop := n ≤ 1 ∧ (n = 1 → ∃ ws, state t = Pending ws true).

Lemma installers_after pend next : installers (after_match pend next) = 0.
Proof. destruct next as [|[]]; simpl; [done|done|]. by case_decide. Qed.

Lemma installers_install pend own : installers (after_install pend own) = 0.
Proof. apply (installers_after pend (ThenOwn own)). Qed.

Lemma installers_spawn t : installers (spawn_grow t) = 0.
Proof. unfold spawn_grow. case_decide; [done|]. destruct (fold t); [done|done|]. by case_match. Qed.

Lemma installers_feed cs : installers (feed_batches cs) = 0.
Proof. by destruct cs. Qed.
Lemma installers_backfill gen cs : installers (backfill_batches gen cs) = 0.
Proof. by destruct cs. Qed.

Lemma abandon_state gen t : state (abandon gen t) = state t.
Proof. unfold abandon. by destruct (fold t). Qed.

(** Only [claim_and_install] starts to install. *)
Lemma step_no_install fs ok k t t' ks :
  step_task fs ok k t = Some (t', ks) → (∀ index_id pend own, k ≠ TClaim index_id pend own) →
  installers ks ≤ inst k ∧
  (inst k = 0 → ∀ ws, state t = Pending ws true → ∃ ws', state t' = Pending ws' true).
Proof.
  intros Hstep Hk. pose proof installers_install as Hi. pose proof installers_after as Ha.
  pose proof installers_spawn as Hsp. pose proof installers_feed as Hfe. pose proof installers_backfill as Hb.
  destruct k; simpl in Hstep; try (by destruct (Hk index_id pend own)); simplify_eq; cbn [inst].
  all: unfold record_write, mark, install, install_replay, install_state, match_next, hash_next,
    find_by_hash, verify_next, check_slice, judged, fold_slice, record_failure, open_or_grow, grow_fold,
    open_fold, create_fold, begin_growth, feed_next, feed_read, backfill_next, backfill_read in *.
  all: repeat (case_match || case_decide || (simplify_option_eq)); simplify_eq/=;
    rewrite ?Hi, ?Ha, ?Hsp, ?Hfe, ?Hb; (split; [simpl; lia|try done; intros _ ws0 Hws0; rewrite ?abandon_state; simpl; first [by eauto|congruence|simplify_eq; by eauto]]).
Qed.

(** No call reports a write on its own. *)
Lemma flying_after pend next : flying (after_match pend next) = [].
Proof. destruct next as [|[]]; simpl; [done|done|]. by case_decide. Qed.
Lemma flying_install pend own : flying (after_install pend own) = [].
Proof. apply (flying_after pend (ThenOwn own)). Qed.
Lemma flying_spawn t : flying (spawn_grow t) = [].
Proof. unfold spawn_grow. case_decide; [done|]. destruct (fold t); [done|done|]. by case_match. Qed.
Lemma flying_feed cs : flying (feed_batches cs) = [].
Proof. by destruct cs. Qed.
Lemma flying_backfill gen cs : flying (backfill_batches gen cs) = [].
Proof. by destruct cs. Qed.

Lemma step_no_mark fs ok k t t' ks : step_task fs ok k t = Some (t', ks) → flying ks = [].
Proof.
  intros Hstep. pose proof flying_install as Hi. pose proof flying_after as Ha.
  pose proof flying_spawn as Hsp. pose proof flying_feed as Hfe. pose proof flying_backfill as Hb.
  destruct k; simpl in Hstep; simplify_eq.
  all: unfold record_write, mark, claim_and_install, install, install_replay, install_state, match_next,
    hash_next, find_by_hash, verify_next, check_slice, judged, fold_slice, record_failure, open_or_grow,
    grow_fold, open_fold, create_fold, begin_growth, feed_next, feed_read, backfill_next, backfill_read in *.
  all: repeat (case_match || case_decide || (simplify_option_eq)); simplify_eq/=;
    rewrite ?Hi, ?Ha, ?Hsp, ?Hfe, ?Hb; done.
Qed.

Lemma step_claims fs ok k t t' ks n :
  step_task fs ok k t = Some (t', ks) → claims_ok t (inst k + n) → claims_ok t' (installers ks + n).
Proof.
  intros Hstep [Hn Hp].
  assert ((∃ index_id pend own, k = TClaim index_id pend own) ∨
    ∀ index_id pend own, k ≠ TClaim index_id pend own) as [(index_id & pend & own & ->)|Hk].
  { destruct k; naive_solver. }
  - simpl in *. unfold claim_and_install in Hstep.
    destruct (claim_install (state t)) as [st won] eqn:Hc. simplify_eq.
    unfold claim_install in Hc. destruct (state t) as [|ws [|]|tr] eqn:Hst; simplify_eq;
      rewrite ?installers_install; try done.
    destruct (decide (n = 1)) as [Hn1|]; [destruct (Hp Hn1) as [ws0 ?]; congruence|].
    split; simpl; [lia|]. intros _. by eexists.
  - destruct (step_no_install fs ok k t t' ks Hstep Hk) as [Hle Hpend]. split; [lia|].
    destruct (decide (inst k = 0)) as [H0|H1].
    + intros Hone. destruct Hp as [ws Hws]; [lia|]. by apply (Hpend H0 ws).
    + destruct k; simpl in *; try done.
      * assert (n = 0) as -> by lia. unfold install in Hstep. case_match; simplify_eq; [|by rewrite installers_install].
        intros _. auto.
      * unfold install_replay in Hstep. destruct (install_state _ _) as [[[]]|]; simplify_eq/=. lia.
Qed.

(** No section panics, and each leaves things in order. *)
Lemma step_task_outcome t rec fs ok k :
  state_ok t rec fs → fold_ok the_set t → rec_ok (rec ++ recorded_by k) → task_ok t rec fs k →
  (inst k = 1 → ∃ ws, state t = Pending ws true) →
  ∃ t' ks, step_task fs ok k t = Some (t', ks) ∧ outcome t rec fs ok k t' ks.
Proof.
  intros Hs Hf Hrec Hk Hi.
  assert (∀ r : JobSlices G * list Task, outcome t rec fs ok k r.1 r.2 →
    ∃ t' ks, Some r = Some (t', ks) ∧ outcome t rec fs ok k t' ks) as Hdone.
  { intros [t' ks] Ho. by exists t', ks. }
  destruct k; cbn [SliceTracker.step_task inst recorded_by] in *; rewrite ?app_nil_r in Hrec.
  - eapply record_write_outcome; [done..| |apply Hrec]. destruct Hrec as [_ Hb].
    by apply Forall_app in Hb as [_ [Hb _]%Forall_cons].
  - apply Hdone; by eapply claim_outcome.
  - apply Hdone; eapply install_outcome; try done. intros [tr Htr]. destruct (Hi eq_refl). congruence.
  - destruct Hk as [-> Hp]. destruct (Hi eq_refl) as [ws Hws]. by eapply replay_outcome.
  - apply Hdone; by eapply match_next_outcome.
  - destruct Hk. by eapply hash_next_outcome.
  - destruct Hk. by eapply find_outcome.
  - apply Hdone; by eapply verify_next_outcome.
  - destruct Hk. apply Hdone; by eapply check_outcome.
  - apply Hdone; by eapply judged_outcome.
  - apply Hdone; by eapply fold_slice_outcome.
  - apply Hdone; by eapply failure_outcome.
  - apply (Hdone (_, _)); eapply idle_outcome; try done; [by intros gi []|by eapply open_or_grow_ok].
  - apply (Hdone (_, _)); eapply idle_outcome; try done; [by intros gi []|by eapply grow_fold_ok].
  - destruct Hk as (? & ? & ?). apply Hdone; by eapply open_outcome.
  - apply Hdone; by eapply begin_outcome.
  - apply (Hdone (_, _)); by eapply prefix_outcome.
  - apply Hdone; by eapply feed_next_outcome.
  - apply (Hdone (_, _)); by eapply feed_read_outcome.
  - apply Hdone; by eapply backfill_next_outcome.
  - apply Hdone; by eapply backfill_read_outcome.
Qed.

(** ** The summary *)

(** What the summary does to a cell. *)
Definition hole (confirmed : gset nat) (c : SliceCell) : SliceCell :=
  if decide (SliceMap.state c = Unknown ∧ file_index c ∈ confirmed) then SliceMap.with_state c Damaged else c.

Lemma mark_holes_from confirmed sts : ∀ k v,
  (∀ i s, sts !! i = Some s → state_of v (k + i) = Some s) →
  let v' := foldl (λ v gs, if decide (gs.2 ≠ Unknown) then v
                 else match slice_range v gs.1 with
                      | Some (fi, _, _) => if decide (fi ∈ confirmed) then mark_damaged v gs.1 else v
                      | None => v
                      end) v (imap (λ i s, (k + i, s)) sts) in
  (∀ gi, cells v' !! gi = if decide (k ≤ gi < k + length sts) then hole confirmed <$> cells v !! gi
                          else cells v !! gi) ∧
  slice_size v' = slice_size v ∧ file_bounds v' = file_bounds v.
Proof.
  induction sts as [|s sts IH]; intros k v Hsts; cbn [imap foldl length].
  { split; [|done]. intros gi. by rewrite decide_False by lia. }
  rewrite Nat.add_0_r. cbn [fst snd].
  set (v1 := if decide (s ≠ Unknown) then v else _).
  assert (∀ gi, cells v1 !! gi = if decide (gi = k) then hole confirmed <$> cells v !! gi else cells v !! gi) as Hv1.
  { intros gi. specialize (Hsts 0 s eq_refl). rewrite Nat.add_0_r in Hsts. unfold state_of in Hsts.
    unfold v1, slice_range. destruct (cells v !! k) as [c|] eqn:Hc; [|done]. simpl in Hsts. simplify_eq.
    simpl. unfold hole. destruct (decide (gi = k)) as [->|Hne].
    - rewrite Hc. simpl. destruct (decide (SliceMap.state c = Unknown)) as [Hu|Hu].
      + rewrite decide_False by (intros Hn; by apply Hn).
        case_decide; [rewrite decide_True by done|by rewrite decide_False by tauto].
        rewrite mark_damaged_set. simpl. by rewrite list_lookup_alter_eq, Hc.
      + rewrite decide_True by done. by rewrite decide_False by tauto.
    - repeat case_decide; try done. rewrite mark_damaged_set. simpl. by rewrite list_lookup_alter_ne. }
  assert (slice_size v1 = slice_size v ∧ file_bounds v1 = file_bounds v) as [E1 E2].
  { unfold v1. case_decide; [done|]. destruct (slice_range v k) as [[[fi ?] ?]|]; [|done].
    case_decide; [|done]. by rewrite mark_damaged_set. }
  destruct (IH (S k) v1) as (Hcs & Hsz & Hbd).
  { intros i s' Hi. specialize (Hsts (S i) s' Hi). unfold state_of in *.
    rewrite Hv1, decide_False by lia. by rewrite Nat.add_succ_comm. }
  rewrite (imap_ext _ (λ i s, (S k + i, s))) by (intros; simpl; by rewrite Nat.add_succ_r).
  split; [|by rewrite Hsz, Hbd]. intros gi. rewrite Hcs, Hv1.
  repeat case_decide; try done; lia.
Qed.

Lemma mark_holes_spec confirmed v :
  (∀ gi, cells (mark_holes confirmed v) !! gi = hole confirmed <$> cells v !! gi) ∧
  slice_size (mark_holes confirmed v) = slice_size v ∧
  file_bounds (mark_holes confirmed v) = file_bounds v.
Proof.
  destruct (mark_holes_from confirmed (states v) 0 v) as (Hcs & Hrest).
  { intros i s Hi. unfold states in Hi. by rewrite list_lookup_fmap in Hi. }
  split; [|exact Hrest]. intros gi. unfold mark_holes. rewrite Hcs. case_decide as Hgi; [done|].
  unfold states in Hgi. rewrite length_fmap in Hgi. by rewrite lookup_ge_None_2 by lia.
Qed.

Lemma mark_holes_ok confirmed ws v :
  cells_ok L ws v → cells_ok L ws (mark_holes confirmed v).
Proof.
  intros [H1 H2 H3 H4]. destruct (mark_holes_spec confirmed v) as (Hc & Hs & Hb).
  split; [by rewrite Hs|by rewrite Hb| |].
  - rewrite <-H3. unfold total_slices. apply length_lookup_iff. intros j. by rewrite Hc, fmap_is_Some.
  - intros gi fi f i d Hat. destruct (H4 _ _ _ _ _ Hat) as (c & Hgi & [E1 E2 E3 E4 E5]).
    rewrite Hc, Hgi. simpl. eexists. split; [done|]. unfold hole. by case_decide.
Qed.

Lemma mark_holes_state confirmed v gi s :
  s ≠ Damaged → state_of (mark_holes confirmed v) gi = Some s → state_of v gi = Some s.
Proof.
  intros Hs. unfold state_of. rewrite (proj1 (mark_holes_spec confirmed v)).
  destruct (cells v !! gi) as [c|]; [|done]. simpl. unfold hole. case_decide; [|done]. by intros [= <-].
Qed.

Lemma mark_holes_verified confirmed v gi :
  state_of v gi = Some Verified → state_of (mark_holes confirmed v) gi = Some Verified.
Proof.
  unfold state_of. rewrite (proj1 (mark_holes_spec confirmed v)).
  destruct (cells v !! gi) as [c|]; [|done]. simpl. intros [= Hv]. unfold hole.
  rewrite decide_False; [by rewrite Hv|]. intros [? _]. congruence.
Qed.

Lemma summary_ok t rec fs :
  state_ok t rec fs → fold_ok the_set t →
  evolves t rec fs (summary t).1 rec fs ∧ state_ok (summary t).1 rec fs ∧ fold_ok the_set (summary t).1 ∧
  (∀ gi, undecided the_set (summary t).1 rec gi → undecided the_set t rec gi) ∧
  (∀ gi, unfed (summary t).1 gi → unfed t gi).
Proof.
  intros Hs Hf. unfold summary. destruct (state t) as [| |tr] eqn:Hst; simpl.
  1, 2: split; [apply evolves_refl|by auto].
  set (v := mark_holes _ _).
  assert (evolves t rec fs (with_state (Ready (with_verifier v tr)) t) rec fs) as He.
  { rewrite <-(app_nil_r rec) at 2. apply evolves_ready. intros tr0 Htr0. rewrite Hst in Htr0. simplify_eq.
    split; [done|]. intros gi. simpl. apply mark_holes_verified. }
  pose proof Hs as Hs'. unfold SliceRun.state_ok in Hs'. rewrite Hst in Hs'. destruct Hs' as [[ws Hws] Hv].
  split; [done|]. split; [|split; [by eapply fold_ok_evolves|split]].
  - split; [exists ws; destruct Hws; split; try done; by apply mark_holes_ok|].
    intros gi Hgi. eapply ready_verified_mono; [exact He|]. apply Hv. by apply (mark_holes_state (confirmed_files (failures t) tr)).
  - intros gi [Hu (id & idx & p & f & i & d & (tr0 & [= <-] & Hfl & Hun) & Hrest)].
    split; [unfold slice_state in *; rewrite Hst; by apply (mark_holes_state (confirmed_files (failures t) tr))|].
    exists id, idx, p, f, i, d. split; [by exists tr|done].
  - intros gi [Hver Hfe]. split; [|done]. unfold is_verified, slice_state in *. rewrite Hst.
    by apply (mark_holes_state (confirmed_files (failures t) tr)).
Qed.
End one_step.

(** ** The invariant *)
Section reach.
Context {G : Type} `{GF : RepairFold.Gf16 G} `{HO : HashOrder} {FS : Type} `{FSL : FileSystemLaws FS}.
Context (md5_digest : bytes → bytes) (crc32_of : bytes → N).
Context (par2_parse : FS → path → option Par2FileSet).
Context (the_set : Par2FileSet).
Abbreviation L := (slice_layout_from_par2 the_set).
Context (HL : ∀ fi f, layout_files L !! fi = Some f → fits L f).
Context (Hparse : ∀ fs p set, par2_parse fs p = Some set → set = the_set).
Implicit Types (s : Sys G FS) (t : JobSlices G) (fs : FS) (rec : list (string * Write)).
Abbreviation step := (step md5_digest crc32_of par2_parse (G := G)).
Abbreviation task_ok := (task_ok md5_digest crc32_of the_set).
Abbreviation state_ok := (state_ok md5_digest crc32_of the_set).

Record inv s : Prop := {
  inv_names : names_ok (tracker s);
  inv_state : state_ok (tracker s) (recorded s) (disk s);
  inv_fold : fold_ok the_set (tracker s);
  inv_tasks : Forall (task_ok (tracker s) (recorded s) (disk s)) (tasks s);
  inv_claims : claims_ok (tracker s) (installers (tasks s));
  inv_log : recorded s ++ flying (tasks s) ≡ₚ written s;
  inv_written : rec_ok (written s);
  inv_undecided gi : undecided the_set (tracker s) (recorded s) gi →
    gi ∈ unread s ∨ gi ∈ tasks s ≫= pend_of;
  inv_unfed gi : unfed (tracker s) gi → gi ∈ unread s ∨ Exists (feeds gi) (tasks s);
}.

(** The start of a job. *)
Lemma writes_of_concat (l : list (string * list Write)) id :
  NoDup l.*1 →
  writes_of id (l ≫= λ kv, pair kv.1 <$> kv.2) = default [] ((list_to_map l : gmap _ _) !! id).
Proof.
  induction l as [|[k ws] l IH]; intros Hnd; [done|]. apply NoDup_cons in Hnd as [Hk Hnd].
  rewrite bind_cons, writes_of_app, (IH Hnd). cbn [fst snd list_to_map foldr].
  destruct (decide (k = id)) as [->|Hne].
  - rewrite lookup_insert_eq. rewrite (not_elem_of_list_to_map_1 l id) by done. simpl. rewrite app_nil_r.
    unfold writes_of. rewrite list_filter_id; [by rewrite <-list_fmap_compose, list_fmap_id|].
    intros kw (w & -> & _)%list_elem_of_fmap. done.
  - rewrite lookup_insert_ne by done. unfold writes_of at 1.
    replace (filter (λ kw : string * Write, kw.1 = id) (pair k <$> ws)) with (@nil (string * Write)); [done|].
    symmetry. apply elem_of_nil_inv. intros kw [Hid (w & -> & _)%list_elem_of_fmap]%list_elem_of_filter. done.
Qed.

Lemma writes_of_seeds job id : writes_of id (seeds job) = default [] (seeded_of job !! id).
Proof.
  unfold seeds. rewrite writes_of_concat by apply NoDup_fst_map_to_list. by rewrite list_to_map_to_list.
Qed.

Lemma inv_start dir job fs :
  names_ok (new (G := G) dir job) → rec_ok (seeds job) → inv (start dir job fs).
Proof.
  intros Hn Hr. unfold start. split; simpl; try done.
  - unfold SliceRun.state_ok, new. simpl. destruct (existsb _ job); [|done]. intros id. by rewrite writes_of_seeds.
  - split; simpl; [lia|done].
  - by rewrite app_nil_r.
  - intros gi [Hu _]. unfold slice_state, new in Hu. simpl in Hu. by destruct (existsb _ job).
  - intros gi [_ (f & Hf & _)]. done.
Qed.

(** What is written covers what is reported. *)
Lemma covered_mono (ws ws' : list Write) b :
  (∀ w, w ∈ ws → w ∈ ws') → covered ws b = true → covered ws' b = true.
Proof.
  intros Hsub (w & Hw%list_elem_of_In & Hb)%existsb_exists. apply existsb_exists.
  exists w. split; [|done]. by apply list_elem_of_In, Hsub.
Qed.

Lemma covered_written s id b :
  inv s → covered (writes_of id (recorded s)) b = true → covered (writes_of id (written s)) b = true.
Proof.
  intros Hi. apply covered_mono. intros w Hw. rewrite <-(inv_log _ Hi), writes_of_app. set_solver.
Qed.

Lemma disk_evolves s fs' :
  inv s → disk_keeps s fs' →
  evolves (tracker s) (recorded s) (disk s) (tracker s) (recorded s) fs'.
Proof.
  intros Hi Hd. split; try done; [exists []; by rewrite app_nil_r|].
  intros id idx p i b (tr & Hst & Hf & _) Hc. apply (Hd id p i b); [|by apply covered_written].
  pose proof (inv_state _ Hi) as Hs. unfold SliceRun.state_ok in Hs. rewrite Hst in Hs.
  destruct Hs as [[ws Hws] _]. by apply (to_files _ _ _ _ _ Hws) in Hf as [? _].
Qed.

Lemma state_ok_evolves t rec fs fs' :
  evolves t rec fs t rec fs' → state_ok t rec fs → state_ok t rec fs'.
Proof.
  intros He. unfold SliceRun.state_ok. destruct (state t) as [| |tr]; [done..|].
  intros [Hws Hv]. split; [done|]. intros gi Hgi. eapply ready_verified_mono; [exact He|auto].
Qed.

(** The environment: the disk changes, calls are made. *)
Lemma inv_external s fs' ks wr :
  inv s → disk_keeps s fs' → installers ks = 0 → flying ks = wr → rec_ok (written s ++ wr) →
  Forall (task_ok (tracker s) (recorded s) fs') ks →
  inv (MkSys (tracker s) fs' (tasks s ++ ks) (written s ++ wr) (recorded s) (unread s)).
Proof.
  intros Hi Hd Hks Hfl Hr Hok. pose proof (disk_evolves s fs' Hi Hd) as He.
  destruct Hi as [H1 H2 H3 H4 H5 H6 H7 H8 H9]. split; simpl; try done.
  - by eapply state_ok_evolves.
  - apply Forall_app. split; [|done]. eapply Forall_weaken; [|exact H4]. intros k Hk. by eapply task_mono.
  - unfold installers in *. by rewrite sum_list_with_app, Hks, Nat.add_0_r.
  - unfold flying in *. rewrite bind_app, Hfl, (assoc app). by rewrite H6.
  - intros gi Hgi. rewrite bind_app, elem_of_app. destruct (H8 gi Hgi); auto.
  - intros gi Hgi. rewrite Exists_app. destruct (H9 gi Hgi); auto.
Qed.

Lemma rec_ok_perm rec rec' : rec ≡ₚ rec' → rec_ok rec → rec_ok rec'.
Proof. intros Hp [H1 H2]. split; [intros id; by rewrite <-Hp|by rewrite <-Hp]. Qed.

Lemma rec_ok_app_l rec rec' : rec_ok (rec ++ rec') → rec_ok rec.
Proof.
  intros [H1 H2]. split; [|by apply Forall_app in H2 as [? _]].
  intros id. specialize (H1 id). rewrite writes_of_app in H1. by eapply once_app_l.
Qed.

Lemma rec_ok_snoc rec id w :
  rec_ok rec → (w.1 + w.2 < 2 ^ 64)%N →
  (∀ b, covered (writes_of id rec) b = true → in_write w b = true → False) → rec_ok (rec ++ [(id, w)]).
Proof.
  intros [H1 H2] Hw Hdis. split; [|apply Forall_app; split; [done|by repeat constructor]].
  intros id'. rewrite writes_of_app, writes_of_one. case_decide; [|by rewrite app_nil_r].
  subst. by apply once_snoc.
Qed.

(** A call's step. *)
Lemma inv_run t fs ks1 k ks2 wr rec un ok t' ks :
  inv (MkSys t fs (ks1 ++ k :: ks2) wr rec un) →
  step_task md5_digest crc32_of par2_parse fs ok k t = Some (t', ks) →
  inv (MkSys t' fs (ks1 ++ ks ++ ks2) wr (rec ++ recorded_by k) (un ++ missed fs ok k)).
Proof.
  intros [Hnames Hst Hfo Htasks Hcl Hlog Hwr Hund Hunf] Hstep. simpl in *.
  apply Forall_app in Htasks as [Ht1 [Htk Ht2]%Forall_cons].
  unfold installers in Hcl. rewrite sum_list_with_app in Hcl. cbn [sum_list_with] in Hcl.
  replace (sum_list_with inst ks1 + (inst k + sum_list_with inst ks2)) with
    (inst k + (sum_list_with inst ks1 + sum_list_with inst ks2)) in Hcl by lia.
  assert ((rec ++ recorded_by k) ++ flying (ks1 ++ ks2) ≡ₚ wr) as Hlog'.
  { rewrite <-Hlog. unfold flying. rewrite !bind_app, bind_cons. solve_Permutation. }
  assert (rec_ok (rec ++ recorded_by k)) as Hrec.
  { eapply rec_ok_app_l, rec_ok_perm; [symmetry; exact Hlog'|done]. }
  destruct (step_task_outcome md5_digest crc32_of par2_parse the_set HL Hparse t rec fs ok k)
    as (t2 & ks2' & Hstep2 & Ho); [done..| |].
  { intros Hk. apply Hcl. destruct Hcl as [Hle _]. lia. }
  rewrite Hstep in Hstep2. symmetry in Hstep2. simplify_eq.
  pose proof (out_evolves _ _ _ _ _ _ _ _ _ _ Ho) as He.
  pose proof (step_no_mark _ _ _ _ _ _ _ _ _ Hstep) as Hfl.
  split; simpl.
  - assert (∀ id, file_path t' id = file_path t id) as Hp by (intros id; by eapply ev_path).
    intros id id' p. rewrite !Hp. apply Hnames.
  - apply Ho.
  - apply Ho.
  - rewrite !Forall_app. split_and!; [|apply Ho|];
      (eapply Forall_weaken; [intros x; by eapply task_mono|done]).
  - unfold installers. rewrite !sum_list_with_app.
    pose proof (step_claims md5_digest crc32_of par2_parse fs ok k t t' ks _ Hstep Hcl) as Hc.
    unfold installers in Hc.
    by replace (sum_list_with inst ks1 + (sum_list_with inst ks + sum_list_with inst ks2)) with
      (sum_list_with inst ks + (sum_list_with inst ks1 + sum_list_with inst ks2)) by lia.
  - rewrite <-Hlog'. unfold flying in *. by rewrite !bind_app, Hfl.
  - done.
  - intros gi Hgi. rewrite !bind_app, !elem_of_app.
    destruct (out_undecided _ _ _ _ _ _ _ _ _ _ Ho gi Hgi) as [[Hold Hni]|[?|?]]; [|tauto..].
    destruct (Hund gi Hold) as [?|Hin]; [tauto|].
    rewrite bind_app, bind_cons, !elem_of_app in Hin. tauto.
  - intros gi Hgi. rewrite !Exists_app, elem_of_app.
    destruct (out_unfed _ _ _ _ _ _ _ _ _ _ Ho gi Hgi) as [[Hold Hni]|[?|?]]; [|tauto..].
    destruct (Hunf gi Hold) as [?|Hin]; [tauto|].
    rewrite Exists_app, Exists_cons in Hin. tauto.
Qed.

Lemma inv_summary s :
  inv s → inv (MkSys (summary (tracker s)).1 (disk s) (tasks s) (written s) (recorded s) (unread s)).
Proof.
  intros [Hnames Hst Hfo Htasks Hcl Hlog Hwr Hund Hunf].
  destruct (summary_ok md5_digest crc32_of the_set (tracker s) (recorded s) (disk s) Hst Hfo)
    as (He & Hs & Hf & Hu & Hn).
  assert (∀ id, file_path (summary (tracker s)).1 id = file_path (tracker s) id) as Hp
    by (intros id; by eapply ev_path).
  split; simpl; try done.
  - intros id id' p. rewrite !Hp. apply Hnames.
  - eapply Forall_weaken; [intros x; by eapply task_mono|done].
  - destruct Hcl as [Hle Hpend]. split; [done|]. intros Hone. destruct (Hpend Hone) as [ws Hws].
    unfold summary. rewrite Hws. simpl. eauto.
  - intros gi Hgi. auto.
  - intros gi Hgi. auto.
Qed.

Lemma inv_step s s' : inv s → step s s' → inv s'.
Proof.
  intros Hi Hstep. destruct Hstep as [t fs ks wr rec un id p offset data complete fs' Hp Hb Hdis Hw
    |s fs' Hd|s id confirmed|s|t fs ks1 k ks2 wr rec un ok t' ks Hstep].
  - apply (inv_external _ fs' [TMark id offset (N.of_nat (length data)) complete] _ Hi); try done.
    + intros id' p' i b Hp' Hc. eapply (write_keeps t); [apply (inv_names _ Hi)|exact Hp|exact Hw|exact Hdis|exact Hp'|exact Hc].
    + apply rec_ok_snoc; [apply (inv_written _ Hi)|done|exact Hdis].
    + by repeat constructor.
  - rewrite <-(app_nil_r (tasks s)), <-(app_nil_r (written s)).
    apply (inv_external s fs' [] [] Hi Hd); [done|done| |constructor].
    rewrite app_nil_r. apply (inv_written _ Hi).
  - rewrite <-(app_nil_r (written s)).
    apply (inv_external s (disk s) [TFailed id confirmed] [] Hi); [by intros ? ? ? ?|done|done| |].
    + rewrite app_nil_r. apply (inv_written _ Hi).
    + by repeat constructor.
  - by apply inv_summary.
  - by eapply inv_run.
Qed.

(** The states of a job the assembler and the workers can bring about. *)
Definition reachable (dir : str) (job : list JobFile) (fs : FS) (s : Sys G FS) : Prop :=
  rtc step (start dir job fs) s.

Lemma reachable_inv dir job fs s :
  names_ok (new (G := G) dir job) → rec_ok (seeds job) → reachable dir job fs s → inv s.
Proof.
  intros Hn Hr Hs. eapply (rtc_invariant step inv); [intros; by eapply inv_step|exact Hs|].
  by apply inv_start.
Qed.
End reach.
