(* ===== verification/SliceProps.v ===== *)
(** * The slice tracker: what it guarantees

    The properties of the tracker in every reachable state: what it holds
    verified is on the disk, the fold it builds repairs the set, no slice is
    lost between the calls, every call ends, and what the summary says. *)
From S2P Require Import Prelude Str FileSystem SliceMap Par2Match SliceTracker SliceCells SliceRun SliceSteps SliceSafe.
From S2P Require RepairFold.

(** ** The fold and the set *)
Section fold_sound.
Context {G : Type} `{GF : RepairFold.Gf16 G} `{HO : HashOrder} {FS : Type} `{FSL : FileSystemLaws FS}.
Context (md5_digest : bytes → bytes) (crc32_of : bytes → N).
Context (par2_parse : FS → path → option Par2FileSet).
Context (the_set : Par2FileSet).
Abbreviation L := (slice_layout_from_par2 the_set).
Context (HL : ∀ fi f, layout_files L !! fi = Some f → fits L f).
Context (Hparse : ∀ fs p set, par2_parse fs p = Some set → set = the_set).
Abbreviation n := (N.to_nat (set_slice_size the_set)).
Context `{!RepairFold.Gf16Laws G n} (D : list bytes).
Implicit Types (t : JobSlices G) (fs : FS) (rec : list (string * Write)).

(** [D] is the set the index describes: [D] has a slice of [n] bytes for each
    of its slices, and only those bytes have the digests of the slice. *)
Record describes : Prop := {
  set_sized : RepairFold.sized n D;
  set_length : length D = total_slices (SliceMap.new L);
  set_genuine gi fi f i d b : at_slice L gi fi f i d → length b = N.to_nat (slice_len L f i) →
    digest_of md5_digest crc32_of (set_slice_size the_set) b = d → D !! gi = Some (RepairFold.pad n b);
}.
Context (HD : describes).

Definition fold_sound (t : JobSlices G) : Prop :=
  ∀ f, fold t = Active f → RepairFold.sound n D f.

Lemma proved_good t rec fs sl :
  state_ok md5_digest crc32_of the_set t rec fs → Forall (proved the_set t rec fs) sl →
  RepairFold.good n D sl.
Proof.
  intros Hs Hsl. eapply Forall_impl; [exact Hsl|]. intros [gi b] [Hb Hv]. simpl in *.
  pose proof (on_disk_verified _ _ _ _ _ _ _ _ Hs Hb Hv) as Hj.
  destruct Hb as (id & idx & p & f & i & d & _ & Hat & _ & Hlen & _).
  apply (set_genuine HD gi idx f i d b Hat Hlen). specialize (Hj _ _ _ _ Hat).
  unfold judge in Hj. by case_decide.
Qed.

Lemma abandon_sound gen t : fold_sound t → fold_sound (abandon gen t).
Proof.
  intros Hf. unfold abandon. destruct (fold t) as [| |f] eqn:Ht; [done..|].
  intros f0 [= <-]. by apply RepairFold.abandon_growth_of_sound, Hf.
Qed.

(** What a section does to the fold is nothing, or one of its operations. *)
Lemma step_fold_sound fs ok k (t t' : JobSlices G) rec ks :
  state_ok md5_digest crc32_of the_set t rec fs → task_ok md5_digest crc32_of the_set t rec fs k →
  step_task md5_digest crc32_of par2_parse fs ok k t = Some (t', ks) → fold_sound t → fold_sound t'.
Proof.
  intros Hs Hk Hstep Hf.
  assert (fold t' = fold t → fold_sound t') as Hsame by (unfold fold_sound; by intros ->).
  assert (∀ f' : RepairFold.RepairFold G, fold t' = Active f' → RepairFold.sound n D f' → fold_sound t') as Hnew.
  { intros f' Hf' Hsound f0 Hf0. rewrite Hf' in Hf0. by simplify_eq. }
  destruct k; simpl in Hstep; simplify_eq; try (by apply Hsame).
  - apply Hsame. unfold record_write in Hstep. by destruct (mark _ _ _ _) as [[]|]; simplify_eq/=.
  - apply Hsame. unfold claim_and_install in Hstep. by destruct (claim_install _); simplify_eq.
  - apply Hsame. unfold install in Hstep. by case_match; simplify_eq.
  - apply Hsame. unfold install_replay in Hstep. by destruct (install_state _ _) as [[[]]|]; simplify_eq/=.
  - apply Hsame. unfold match_next in Hstep. repeat case_match; by simplify_eq.
  - apply Hsame. unfold hash_next in Hstep. destruct lens; simplify_eq; [done|].
    destruct (filenames t !! id); [|done]. simpl in Hstep. by case_match; simplify_eq.
  - apply Hsame. unfold find_by_hash in Hstep. destruct (state t); simplify_eq; [done..|].
    destruct (filenames t !! id); [|done]. simpl in Hstep.
    by destruct (claim_by_hash _ _ _ _ _) as [[]|]; simplify_eq/=.
  - apply Hsame. unfold verify_next in Hstep. repeat case_match; by simplify_eq.
  - apply Hsame. unfold check_slice in Hstep. destruct (state t); simplify_eq; [done..|].
    by destruct (verify _ _ _ _ _); simplify_eq.
  - apply Hsame. unfold judged in Hstep. simplify_eq. by destruct verdict.
  - destruct Hk as (Hb & Hj & Hv & _). unfold fold_slice in Hstep. simplify_eq.
    destruct (fold t) as [| |f] eqn:Ht; [by apply Hsame..|].
    destruct verdict; [by apply Hsame| |].
    + destruct (RepairFold.feed f gi b) as [[f' m]|] eqn:Hfeed; [|by apply Hsame].
      apply (Hnew f'); [done|]. unfold RepairFold.feed in Hfeed.
      destruct (RepairFold.feed_batch f [(gi, b)]) as [[f1 m1]|] eqn:Hfb; simplify_eq/=.
      eapply (RepairFold.feed_batch_sound n D (set_sized HD)); [by apply Hf| |exact Hfb].
      eapply proved_good; [exact Hs|]. repeat constructor; [done|by apply Hv].
    + eapply Hnew; [done|]. by apply RepairFold.note_corrupt_sound, Hf.
  - apply Hsame. unfold record_failure in Hstep. by simplify_eq.
  - unfold open_fold, create_fold in Hstep. destruct (fold t) as [| |f] eqn:Ht; simplify_eq/=; [|by apply Hsame..].
    destruct Hk as (_ & -> & ->). destruct (RepairFold.new _ _ _) as [f|] eqn:Hfn; simplify_eq;
      [|intros f0 Hf0; simpl in Hf0; done].
    apply (Hnew f); [done|]. rewrite <-(set_length HD) in Hfn.
    by apply (RepairFold.new_sound n D (set_sized HD) (set_slice_size the_set) _ _ eq_refl Hfn).
  - unfold begin_growth in Hstep. destruct (fold t) as [| |f] eqn:Ht; simplify_eq; [by apply Hsame..|].
    destruct (_ || _); simplify_eq; [by apply Hsame|].
    destruct (RepairFold.begin_growth f _) as [f' r] eqn:Hb. simplify_eq. eapply Hnew; [done|].
    change f' with (f', r).1. rewrite <-Hb. by eapply RepairFold.begin_growth_sound, Hf.
  - unfold feed_next in Hstep. destruct Hk as (_ & Hbatch & _).
    destruct (fold t) as [| |f] eqn:Ht; simplify_eq; [by apply Hsame..|].
    destruct cur as [|x cur].
    + case_decide; simplify_eq; [by apply Hsame|].
      destruct (RepairFold.feed_batch f batch) as [[f' m]|] eqn:Hfb; [|by apply Hsame].
      eapply Hnew; [done|]. apply RepairFold.note_disk_fed_sound.
      eapply (RepairFold.feed_batch_sound n D (set_sized HD)); [by apply Hf| |exact Hfb].
      by eapply proved_good.
    + case_match; simplify_eq; [by apply Hsame|]. eapply Hnew; [done|].
      by apply RepairFold.note_disk_read_sound, Hf.
  - unfold backfill_next in Hstep. destruct Hk as (_ & Hbatch & _). destruct cur as [|x cur].
    + destruct (fold t) as [| |f] eqn:Ht; simplify_eq; [by apply Hsame..|].
      destruct (RepairFold.backfill f gen batch) as [f' live] eqn:Hb. simplify_eq. eapply Hnew; [done|].
      change f' with (f', live).1. rewrite <-Hb. pose proof (set_sized HD). eapply RepairFold.backfill_sound; [done|done|by apply Hf|].
      by eapply proved_good.
    + case_match; simplify_eq; [by apply Hsame|by apply abandon_sound].
  - unfold backfill_read in Hstep. case_match; simplify_eq; [|by apply abandon_sound].
    destruct (fold t) as [| |f] eqn:Ht; [by apply Hsame..|].
    eapply Hnew; [done|]. by apply RepairFold.note_disk_read_sound, Hf.
Qed.
End fold_sound.

(** ** Every call ends *)

(** How far a call is from its end: its stage, then the files it still matches,
    the slices it still verifies or the batches that wait, then what is left
    of the current one. *)
Definition stage (k : Task) : nat :=
  match k with
  | TMark _ _ _ _ => 20
  | TClaim _ _ _ => 19
  | TInstall _ _ _ => 18
  | TReplay _ _ _ => 17
  | TMatch _ _ (ThenOwn _) | THash _ _ _ _ (ThenOwn _) | TFind _ _ _ _ _ _ (ThenOwn _) => 16
  | TMatch _ _ ThenVerify | THash _ _ _ _ ThenVerify | TFind _ _ _ _ _ _ ThenVerify => 15
  | TVerify _ | TCheck _ _ _ | TJudged _ _ _ _ | TFold _ _ _ _ => 14
  | TFailed _ _ => 13
  | TOpenOrGrow => 12
  | TGrow => 11
  | TOpen _ _ _ | TBegin _ _ _ _ => 10
  | TPrefix _ => 9
  | TFeed _ _ _ | TFeedRead _ _ _ _ | TBackfill _ _ _ _ | TBackRead _ _ _ _ _ => 8
  end.
Definition outer (k : Task) : nat :=
  match k with
  | TMatch ids _ _ => 2 * length ids
  | THash _ _ ids _ _ | TFind _ _ _ _ ids _ _ => 2 * length ids + 1
  | TVerify pend => 4 * length pend
  | TCheck _ _ pend => 4 * length pend + 3
  | TJudged _ _ _ pend => 4 * length pend + 2
  | TFold _ _ _ pend => 4 * length pend + 1
  | TFeed _ _ rest | TFeedRead _ _ _ rest => length rest
  | TBackfill _ _ _ rest | TBackRead _ _ _ _ rest => length rest
  | _ => 0
  end.
Definition inner (k : Task) : nat :=
  match k with
  | THash _ lens _ _ _ => 2 * length lens
  | TFind _ _ _ lens _ _ _ => 2 * length lens + 1
  | TFeed cur _ _ => 2 * length cur
  | TFeedRead _ cur _ _ => 2 * length cur + 1
  | TBackfill _ cur _ _ => 2 * length cur
  | TBackRead _ _ cur _ _ => 2 * length cur + 1
  | _ => 0
  end.

Definition closer (k' k : Task) : Prop :=
  stage k' < stage k ∨
  stage k' = stage k ∧ (outer k' < outer k ∨ outer k' = outer k ∧ inner k' < inner k).

Lemma closer_wf : well_founded closer.
Proof.
  assert (∀ a b c k, stage k = a → outer k = b → inner k = c → Acc closer k) as Hacc; [|intros k; by eapply Hacc].
  induction a as [a IHa] using lt_wf_ind. induction b as [b IHb] using lt_wf_ind.
  induction c as [c IHc] using lt_wf_ind. intros k Ha Hb Hc. constructor. intros k' Hk'.
  destruct Hk' as [H|[H1 [H|[H2 H]]]].
  - eapply IHa; [|done..]. by subst a.
  - eapply IHb; [|congruence|done|done]. by subst b.
  - eapply IHc; [|congruence|congruence|done]. by subst c.
Qed.

Section ends.
Context {G : Type} `{GF : RepairFold.Gf16 G} `{HO : HashOrder} {FS : Type} `{FSI : FileSystem FS}.
Context (md5_digest : bytes → bytes) (crc32_of : bytes → N).
Context (par2_parse : FS → path → option Par2FileSet).
Implicit Types (t : JobSlices G).

(** The relation of a call to what is left of it after a step, whatever
    happened to the tracker and the disk before that step. *)
Definition continues (k' k : Task) : Prop :=
  ∃ fs ok t t' ks, step_task md5_digest crc32_of par2_parse fs ok k t = Some (t', ks) ∧ k' ∈ ks.

Lemma after_install_closer pend own k k' :
  15 < stage k → k' ∈ after_install pend own → closer k' k.
Proof.
  intros Hk. unfold after_install. destruct own; [|case_decide; [by intros ?%elem_of_nil|]];
    intros ->%list_elem_of_singleton; left; simpl; lia.
Qed.

Lemma after_match_closer pend next k k' :
  stage k = (match next with ThenOwn _ => 16 | ThenVerify => 15 end) →
  k' ∈ after_match pend next → closer k' k.
Proof.
  intros Hk. destruct next as [|own]; simpl.
  - intros ->%list_elem_of_singleton. left. simpl. lia.
  - apply after_install_closer. lia.
Qed.

Lemma spawn_grow_closer t k k' : 11 < stage k → k' ∈ spawn_grow t → closer k' k.
Proof.
  intros Hk. unfold spawn_grow. case_decide; [by intros ?%elem_of_nil|].
  destruct (fold t); [|by intros ?%elem_of_nil|case_match; [by intros ?%elem_of_nil|]];
    intros ->%list_elem_of_singleton; left; simpl; lia.
Qed.

Lemma feed_batches_closer cs k k' :
  8 < stage k ∨ stage k = 8 ∧ outer k = length cs → k' ∈ feed_batches cs → closer k' k.
Proof.
  intros Hk. destruct cs as [|c cs]; [by intros ?%elem_of_nil|].
  intros ->%list_elem_of_singleton. unfold closer. simpl in *. lia.
Qed.

Lemma backfill_batches_closer gen cs k k' :
  8 < stage k ∨ stage k = 8 ∧ outer k = length cs → k' ∈ backfill_batches gen cs → closer k' k.
Proof.
  intros Hk. destruct cs as [|c cs]; [by intros ?%elem_of_nil|].
  intros ->%list_elem_of_singleton. unfold closer. simpl in *. lia.
Qed.

Lemma continues_closer k' k : continues k' k → closer k' k.
Proof.
  intros (fs & ok & t & t' & ks & Hstep & Hin).
  destruct k; simpl in Hstep; simplify_eq.
  all: unfold record_write, mark, claim_and_install, install, install_replay, install_state, match_next,
    hash_next, find_by_hash, verify_next, check_slice, judged, fold_slice, record_failure, open_or_grow,
    grow_fold, open_fold, create_fold, begin_growth, feed_next, feed_read, backfill_next, backfill_read in *.
  all: repeat (case_match || case_decide || (simplify_option_eq)); simplify_eq/=.
  all: first
    [ by apply elem_of_nil in Hin
    | by apply list_elem_of_singleton in Hin as ->; unfold closer; simpl; try case_match; lia
    | by eapply after_install_closer; [|exact Hin]; simpl; lia
    | by eapply after_match_closer; [|exact Hin]
    | by eapply spawn_grow_closer; [|exact Hin]; simpl; lia
    | by eapply feed_batches_closer; [|exact Hin]; simpl; lia
    | by eapply backfill_batches_closer; [|exact Hin]; simpl; lia ].
Qed.

Lemma continues_wf : well_founded continues.
Proof.
  intros k. induction (closer_wf k) as [k _ IH]. constructor. intros k' Hk'. by apply IH, continues_closer.
Qed.
End ends.

(** ** The properties *)
Section properties.
Context {G : Type} `{GF : RepairFold.Gf16 G} `{HO : HashOrder} {FS : Type} `{FSL : FileSystemLaws FS}.
Context (md5_digest : bytes → bytes) (crc32_of : bytes → N).
Context (par2_parse : FS → path → option Par2FileSet).
(** The index describes one set, whose sizes fit [u64]; the job's files are
    different files, and a resumed job has no byte twice. *)
Context (the_set : Par2FileSet).
Abbreviation L := (slice_layout_from_par2 the_set).
Context (HL : ∀ fi f, layout_files L !! fi = Some f → fits L f).
Context (Hparse : ∀ fs p set, par2_parse fs p = Some set → set = the_set).
Context (dir : str) (job : list JobFile) (fs0 : FS).
Context (Hnames : names_ok (new (G := G) dir job)) (Hseeds : rec_ok (seeds job)).
Implicit Types (s : Sys G FS).
Abbreviation reachable := (reachable md5_digest crc32_of par2_parse dir job fs0).

Lemma reachable_sound `{!RepairFold.Gf16Laws G (N.to_nat (set_slice_size the_set))} D s :
  describes md5_digest crc32_of the_set D → reachable s → fold_sound the_set D (tracker s).
Proof.
  intros HD Hs.
  assert (inv md5_digest crc32_of the_set s ∧ fold_sound the_set D (tracker s)) as [_ ?]; [|done].
  eapply (rtc_invariant (step md5_digest crc32_of par2_parse) (λ s, inv md5_digest crc32_of the_set s ∧
    fold_sound the_set D (tracker s))); [|exact Hs|].
  - intros s1 s2 [Hi Hf] Hstep. split; [by eapply inv_step|]. destruct Hstep; simpl in *; try done.
    + unfold summary. case_match; exact Hf.
    + destruct Hi as [_ Hst _ Htasks _ _ _ _ _]. simpl in *. apply Forall_app in Htasks as [_ [Hk _]%Forall_cons].
      by eapply step_fold_sound.
  - split; [by eapply inv_start|]. by intros f Hf.
Qed.



(** C15. No slice falls between the calls: once no call runs, a slice of a
    tracked file whose bytes were all reported has its verdict, and a verified
    slice is in the fold, if there is one, unless reading it back failed. So
    it does not matter when the index arrives, when a file is matched by its
    hash, or when damage opens the fold. *)
Theorem no_slice_lost s tr id idx p f i d gi :
  reachable s → tasks s = [] → state (tracker s) = Ready tr →
  files tr !! id = Some (idx, p) → idx ∉ untracked tr → at_slice L gi idx f i d →
  gi ∉ unread s →
  ((0 < slice_len L f i)%N → slice_covered L f (writes_of id (recorded s)) i →
     state_of (verifier tr) gi = Some Verified ∨ state_of (verifier tr) gi = Some Damaged) ∧
  (∀ fo, fold (tracker s) = Active fo → state_of (verifier tr) gi = Some Verified →
     RepairFold.is_fed fo gi = true).
Proof.
  intros Hs Htasks Hst Hfl Hun Hat Hread.
  assert (inv md5_digest crc32_of the_set s) as Hi by (by eapply reachable_inv).
  pose proof (inv_state _ _ _ _ Hi) as Hok. unfold SliceRun.state_ok in Hok. rewrite Hst in Hok.
  destruct Hok as [[ws Hws] _]. split.
  - intros Hlen Hcov. destruct (cells_cell _ _ _ (to_cells _ _ _ _ _ Hws) _ _ _ _ _ Hat) as (c & Hc & _).
    assert (state_of (verifier tr) gi = Some (SliceMap.state c)) as Hgi by (unfold state_of; by rewrite Hc).
    rewrite Hgi. destruct (SliceMap.state c); [exfalso|by left|by right].
    destruct (inv_undecided _ _ _ _ Hi gi) as [?|Hin]; [|done|].
    + split; [unfold slice_state; by rewrite Hst|]. exists id, idx, p, f, i, d.
      split; [by exists tr|done].
    + rewrite Htasks in Hin. by apply elem_of_nil in Hin.
  - intros fo Hfo Hv. destruct (RepairFold.is_fed fo gi) eqn:Hfe; [done|exfalso].
    destruct (inv_unfed _ _ _ _ Hi gi) as [?|Hin]; [|done|].
    + split; [unfold is_verified, slice_state; by rewrite Hst|by exists fo].
    + rewrite Htasks in Hin. by apply Exists_nil in Hin.
Qed.

(** C25. Every call on the tracker ends: in a reachable state no call panics or
    waits, it takes its next step whether or not its disk read succeeds, and
    it cannot go on for ever, whatever the other calls and the disk do between
    its steps. *)
Theorem calls_end s k :
  reachable s → k ∈ tasks s →
  (∀ ok, ∃ t' ks, step_task md5_digest crc32_of par2_parse (disk s) ok k (tracker s) = Some (t', ks)) ∧
  Acc (continues (G := G) md5_digest crc32_of par2_parse) k.
Proof.
  intros Hs Hk. assert (inv md5_digest crc32_of the_set s) as Hi by (by eapply reachable_inv).
  split; [|apply continues_wf]. intros ok.
  pose proof (inv_tasks _ _ _ _ Hi) as Htasks. rewrite Forall_forall in Htasks.
  destruct (step_task_outcome md5_digest crc32_of par2_parse the_set HL Hparse (tracker s) (recorded s)
    (disk s) ok k) as (t' & ks & Hstep & _); [apply Hi|apply Hi| |by apply Htasks| |by eauto].
  - apply list_elem_of_split in Hk as (l1 & l2 & Hk).
    eapply rec_ok_app_l, rec_ok_perm; [|apply (inv_written _ _ _ _ Hi)].
    rewrite <-(inv_log _ _ _ _ Hi), Hk. unfold flying. rewrite bind_app, bind_cons.
    instantiate (1 := flying l1 ++ flying l2). unfold flying. solve_Permutation.
  - intros Hone. pose proof (inv_claims _ _ _ _ Hi) as [Hle Hpend].
    apply list_elem_of_split in Hk as (l1 & l2 & Hk). unfold installers in *. rewrite Hk in *.
    rewrite sum_list_with_app in *. simpl in *. apply Hpend. lia.
Qed.

Lemma elem_of_confirmed fl tr idx :
  idx ∈ confirmed_files fl tr ↔
  ∃ id p, files tr !! id = Some (idx, p) ∧ idx ∉ untracked tr ∧ fl !! id = Some true.
Proof.
  unfold confirmed_files. rewrite elem_of_list_to_set, list_elem_of_fmap. split.
  - intros ([id [idx' p]] & -> & [[Hf Hu] Hin%elem_of_map_to_list]%list_elem_of_filter). simpl in *. eauto.
  - intros (id & p & Hin & Hu & Hf). exists (id, (idx, p)). split; [done|].
    apply list_elem_of_filter. by rewrite elem_of_map_to_list.
Qed.

Lemma hole_idem confirmed c : hole confirmed (hole confirmed c) = hole confirmed c.
Proof. unfold hole. repeat case_decide; simpl in *; naive_solver. Qed.

Lemma mark_holes_idem confirmed v :
  states (mark_holes confirmed (mark_holes confirmed v)) = states (mark_holes confirmed v).
Proof.
  unfold states. apply list_eq. intros gi. rewrite !list_lookup_fmap.
  rewrite !(proj1 (mark_holes_spec confirmed _)). destruct (cells v !! gi); [|done]. simpl. by rewrite hole_idem.
Qed.

(** The summary of a job, taken when no call runs and every read-back
    worked. A slice it reports verified was; one it reports damaged failed its
    check, or was a hole of an earlier summary, or misses bytes in a file
    whose failures are all confirmed absences; a slice with missing bytes in
    such a file is never left unknown; and asking again gives the same. *)
Theorem summary_reports s sm :
  reachable s → tasks s = [] → unread s = [] → (summary (tracker s)).2 = Some sm →
  (summary (summary (tracker s)).1).2 = Some sm ∧
  ∃ tr, state (tracker s) = Ready tr ∧
    ∀ gi idx f i d, at_slice L gi idx f i d → ∃ v, sm_states sm !! gi = Some v ∧
      (v = Verified ↔ state_of (verifier tr) gi = Some Verified) ∧
      (v = Damaged → state_of (verifier tr) gi = Some Damaged ∨
         ∃ id p, files tr !! id = Some (idx, p) ∧ failures (tracker s) !! id = Some true ∧
           ((0 < slice_len L f i)%N → ¬ slice_covered L f (writes_of id (recorded s)) i)) ∧
      (v = Unknown → state_of (verifier tr) gi = Some Unknown ∧
         ∀ id p, files tr !! id = Some (idx, p) → idx ∉ untracked tr →
           failures (tracker s) !! id ≠ Some true).
Proof.
  intros Hs Htasks Hread Hsm. assert (inv md5_digest crc32_of the_set s) as Hi by (by eapply reachable_inv).
  pose proof (inv_state _ _ _ _ Hi) as Hok. unfold SliceRun.state_ok, summary in *.
  destruct (state (tracker s)) as [| |tr] eqn:Hst; [done..|]. destruct Hok as [[ws Hws] _]. simplify_eq/=.
  set (conf := confirmed_files (failures (tracker s)) tr).
  split.
  { change (confirmed_files _ (with_verifier (mark_holes conf (verifier tr)) tr)) with conf.
    by rewrite mark_holes_idem. }
  exists tr. split; [done|]. intros gi idx f i d Hat.
  destruct (cells_cell _ _ _ (to_cells _ _ _ _ _ Hws) _ _ _ _ _ Hat) as (c & Hc & Hcok).
  exists (SliceMap.state (hole conf c)). unfold states, state_of. rewrite list_lookup_fmap.
  rewrite (proj1 (mark_holes_spec conf _)), Hc. split; [done|]. simpl.
  pose proof (elem_of_confirmed (failures (tracker s)) tr (file_index c)) as Hconf. fold conf in Hconf.
  rewrite (cell_file _ _ _ _ _ _ _ Hcok) in Hconf.
  unfold hole. rewrite (cell_file _ _ _ _ _ _ _ Hcok). case_decide as Hh; simpl.
  - destruct Hh as [Hu Hin]. apply Hconf in Hin as (id & p & Hfl & Hun & Hfail).
    split; [|split]; [split; congruence| |done]. intros _. right. exists id, p. split_and!; [done|done|].
    intros Hlen Hcov. destruct (inv_undecided _ _ _ _ Hi gi) as [Hin|Hin].
    + split; [unfold slice_state, state_of; by rewrite Hst, Hc; simpl; rewrite Hu|].
      exists id, idx, p, f, i, d. split; [by exists tr|done].
    + rewrite Hread in Hin. by apply elem_of_nil in Hin.
    + rewrite Htasks in Hin. by apply elem_of_nil in Hin.
  - split; [|split]; [split; congruence|intros ->; by left|]. intros Hu. split; [by rewrite Hu|].
    intros id p Hfl Hun Hfail. apply Hh. split; [done|]. apply Hconf. by exists id, p.
Qed.
End properties.

(** ** Witnesses *)

(** A data file of two slices of one byte: the index arrives, then the first
    half; the second half is missing everywhere. *)
Module SliceExample.
#[global] Instance by_key : HashOrder := {
  iter A m := map_to_list m;
  iter_perm A m := Permutation_refl _;
}.
#[export] Existing Instance RepairFold.BoolGf.

Definition dir : str := lit "w".
Definition article : JobArticle := {| downloaded := false; data_begin := None; data_size := None |}.
Definition file (id name : string) (vol : option N) : JobFile :=
  {| jf_id := id; jf_filename := lit name; jf_articles := [article]; jf_par2_vol := vol;
     jf_par2_blocks := (λ _, 1%N) <$> vol |}.
Definition job : list JobFile :=
  [file "i" "s.par2" None; file "a" "a.bin" None; file "v" "s.vol0+1.par2" (Some 0%N)].
Definition set : Par2FileSet :=
  {| set_slice_size := 1; file_order := [0%N];
     set_files := {[0%N := {| p_filename := lit "a.bin"; p_hash_16k := []; p_size := 2;
       p_slices := [{| md5 := [Byte.x0f]; crc32 := 0 |}; {| md5 := [Byte.x55]; crc32 := 0 |}] |}]};
     set_recovery_block_count := 0 |}.
Definition md5_digest (b : bytes) : bytes := b.
Definition crc32_of (b : bytes) : N := 0.
Definition parse (fs : gmap path bytes) (p : path) : option Par2FileSet := Some set.

Abbreviation State := (Sys bool (gmap path bytes)).
Abbreviation step := (step md5_digest crc32_of parse (G := bool)).

(** The first call takes its next step, its read working. *)
Definition go (s : State) : State :=
  match tasks s with
  | [] => s
  | k :: ks =>
    match step_task md5_digest crc32_of parse (disk s) true k (tracker s) with
    | Some (t', ks') =>
      MkSys t' (disk s) (ks' ++ ks) (written s) (recorded s ++ recorded_by k)
        (unread s ++ missed (disk s) true k)
    | None => s
    end
  end.

Lemma go_step s : rtc step s (go s).
Proof.
  unfold go. destruct s as [t fs [|k ks] wr rec un]; simpl; [done|].
  destruct (step_task _ _ _ _ _ k t) as [[t' ks']|] eqn:Hk; [|done].
  apply rtc_once. by apply (step_run md5_digest crc32_of parse t fs [] k ks wr rec un true t' ks').
Qed.

Fixpoint run (n : nat) (s : State) : State := match n with 0 => s | S n => run n (go s) end.
Lemma run_steps n : ∀ s, rtc step s (run n s).
Proof. induction n as [|n IH]; intros s; simpl; [done|]. etrans; [apply go_step|apply IH]. Qed.

Definition write (id : string) (offset : N) (data : bytes) (complete : bool) (s : State) : State :=
  MkSys (tracker s) (fs_write_at (disk s) (default "" (file_path (tracker s) id)) offset data).1
    (tasks s ++ [TMark id offset (N.of_nat (length data)) complete])
    (written s ++ [(id, (offset, N.of_nat (length data)))]) (recorded s) (unread s).
Definition fail (id : string) (s : State) : State :=
  MkSys (tracker s) (disk s) (tasks s ++ [TFailed id true]) (written s) (recorded s) (unread s).

Lemma write_step id offset data complete s p :
  file_path (tracker s) id = Some p → (offset + N.of_nat (length data) < 2 ^ 64)%N →
  writes_of id (written s) = [] → rtc step s (write id offset data complete s).
Proof.
  intros Hp Hb Hw. apply rtc_once. unfold write. rewrite Hp. destruct s as [t fs ks wr rec un]. simpl in *.
  eapply (step_write md5_digest crc32_of parse); [done|done| |done]. by rewrite Hw.
Qed.

Definition s1 : State := run 12 (write "i" 0 [Byte.x00] true (start dir job ∅)).
Definition s2 : State := run 12 (write "a" 0 [Byte.x0f] false s1).
Definition s3 : State := run 12 (fail "a" s2).

Lemma write_steps : rtc step (start dir job ∅) (write "a" 0 [Byte.x0f] false s1).
Proof.
  etrans; [|eapply write_step; [vm_compute; reflexivity..]].
  etrans; [|apply run_steps]. eapply write_step; vm_compute; reflexivity.
Qed.

Lemma s2_steps : rtc step (start dir job ∅) s2.
Proof. etrans; [apply write_steps|apply run_steps]. Qed.

Lemma s3_steps : rtc step (start dir job ∅) s3.
Proof.
  etrans; [apply s2_steps|]. etrans; [|apply run_steps]. apply rtc_once.
  exact (step_fail md5_digest crc32_of parse s2 "a" true).
Qed.

Lemma set_fits fi f :
  layout_files (slice_layout_from_par2 set) !! fi = Some f → fits (slice_layout_from_par2 set) f.
Proof.
  assert (layout_files (slice_layout_from_par2 set) = [{| fsize := 2; slices :=
    [{| md5 := [Byte.x0f]; crc32 := 0 |}; {| md5 := [Byte.x55]; crc32 := 0 |}] |}]) as -> by reflexivity.
  destruct fi as [|[|fi]]; simpl; intros ?; simplify_eq. split; vm_compute; reflexivity.
Qed.

Lemma parse_set fs p st : parse fs p = Some st → st = set.
Proof. by intros [= <-]. Qed.

Lemma job_names : names_ok (new (G := bool) dir job).
Proof.
  assert (∀ id n, filenames (new (G := bool) dir job) !! id = Some n →
    (id, n) ∈ [("v", lit "s.vol0+1.par2"); ("a", lit "a.bin"); ("i", lit "s.par2")]%string) as Hn.
  { intros id n Hl. cbn [new filenames foldl job] in Hl.
    repeat (apply lookup_insert_Some in Hl as [[<- <-]|[_ Hl]]; [set_solver|]).
    by rewrite lookup_empty in Hl. }
  intros id id' p (n & Hid & ->)%fmap_Some (n' & Hid' & Heq)%fmap_Some.
  apply Hn in Hid. apply Hn in Hid'.
  repeat (apply elem_of_cons in Hid as [[= -> ->]|Hid]); [..|by apply elem_of_nil in Hid];
    (repeat (apply elem_of_cons in Hid' as [[= -> ->]|Hid']); [..|by apply elem_of_nil in Hid']);
    try done; by vm_compute in Heq.
Qed.

Lemma job_seeds : rec_ok (seeds job).
Proof.
  assert (seeds job = []) as -> by (vm_compute; reflexivity).
  split; [intros id b; vm_compute; lia|constructor].
Qed.

Lemma set_describes : describes md5_digest crc32_of set RepairFold.demo_set.
Proof.
  split.
  - repeat constructor.
  - vm_compute. reflexivity.
  - intros gi fi f i d b Hat Hlen Hd. pose proof Hat as (Hf & Hi & ->).
    assert (layout_files (slice_layout_from_par2 set) = [{| fsize := 2; slices :=
      [{| md5 := [Byte.x0f]; crc32 := 0 |}; {| md5 := [Byte.x55]; crc32 := 0 |}] |}]) as E by reflexivity.
    rewrite E in Hf. destruct fi as [|[|fi]]; simplify_eq/=.
    destruct i as [|[|i]]; simplify_eq/=; vm_compute in Hlen; destruct b as [|x [|y b]]; try done;
      unfold digest_of in *; vm_compute in Hi; simplify_eq/=; vm_compute; reflexivity.
Qed.
End SliceExample.
Import SliceExample.



Lemma no_slice_lost_witness :
  ∃ tr fo, state (tracker s3) = Ready tr ∧ fold (tracker s3) = Active fo ∧ RepairFold.is_fed fo 0 = true.
Proof.
  assert (match state (tracker s3) with
    | Ready tr => state_of (verifier tr) 0 = Some Verified ∧
        ((λ x, x.1) <$> files tr !! "a"%string) = Some 0 ∧ bool_decide (0 ∈ untracked tr) = false
    | _ => False end) as Hv by (vm_compute; split; [reflexivity|split; reflexivity]).
  destruct (state (tracker s3)) as [| |tr] eqn:Hst; [destruct Hv..|]. destruct Hv as (Hv & Hfl & Hun).
  destruct (files tr !! "a"%string) as [[idx p]|] eqn:Hfa; [|discriminate Hfl]. simpl in Hfl.
  injection Hfl as ->. apply bool_decide_eq_false in Hun.
  assert (match fold (tracker s3) with Active f => True | _ => False end) as Hf by (vm_compute; exact I).
  destruct (fold (tracker s3)) as [| |fo] eqn:Hfold; [destruct Hf..|].
  exists tr, fo. split; [reflexivity|]. split; [reflexivity|].
  eapply (no_slice_lost md5_digest crc32_of parse set set_fits parse_set dir job ∅ job_names job_seeds
    s3 tr "a" 0 p _ 0 _ 0 s3_steps); [vm_compute; reflexivity|exact Hst|exact Hfa|exact Hun| | |exact Hfold|exact Hv].
  - split; [|split]; vm_compute; reflexivity.
  - vm_compute. intros Hin. inversion Hin.
Defined.

Lemma calls_end_witness :
  ∃ k, tasks (write "a" 0 [Byte.x0f] false s1) = [k] ∧
    Acc (continues (G := bool) md5_digest crc32_of parse) k.
Proof.
  exists (TMark "a" 0 1 false). split; [vm_compute; reflexivity|].
  apply (calls_end md5_digest crc32_of parse set set_fits parse_set dir job ∅ job_names job_seeds
    (write "a" 0 [Byte.x0f] false s1)).
  - exact write_steps.
  - vm_compute. apply list_elem_of_here.
Defined.

Lemma summary_reports_witness :
  ∃ sm, (summary (tracker s3)).2 = Some sm ∧ sm_states sm = [Verified; Damaged] ∧
    (summary (summary (tracker s3)).1).2 = Some sm.
Proof.
  assert ((λ sm, sm_states sm) <$> (summary (tracker s3)).2 = Some [Verified; Damaged]) as Hsm
    by (vm_compute; reflexivity).
  destruct ((summary (tracker s3)).2) as [sm|] eqn:E; [|discriminate Hsm]. injection Hsm as Hsm.
  exists sm. split; [reflexivity|]. split; [exact Hsm|].
  apply (summary_reports md5_digest crc32_of parse set set_fits parse_set dir job ∅ job_names job_seeds
    s3 sm s3_steps); [vm_compute; reflexivity|vm_compute; reflexivity|exact E].
Defined.
