(* ===== verification/Hopeless.v ===== *)
(** * The hopeless-job tracker

    [HopelessTracker] of [crates/nzb-web/src/queue_manager.rs]: what a job's
    failed articles add up to, and when the job is given up before its end. The
    tiers compare confirmed damage with the recovery data the job declares;
    floating-point tiers are computed in IEEE double precision. Texts of
    reasons are left out, their numbers kept. *)
From Stdlib Require Import Floats.SpecFloat.
From coqutil Require Import Datatypes.RecordSetters.
From S2P Require Import Prelude Str Path Wire WorkQueue Models NzbParser.
Import TriangleBracketNotations.
#[local] Open Scope record_set.
Import ArticleFailureKind.

(** ** Double precision *)
Abbreviation f64 := spec_float.
Definition f64_of_N (n : N) : f64 := binary_normalize 53 1024 (Z.of_N n) 0 false.
Definition f64_mul : f64 → f64 → f64 := SFmul 53 1024.
Definition f64_div : f64 → f64 → f64 := SFdiv 53 1024.
Definition f64_ge (a b : f64) : bool := SFleb b a.

(** [x.ceil() as u64] *)
Definition ceil_u64 (x : f64) : N :=
  match x with
  | S754_finite false m e =>
    let p := (2 ^ Z.to_N (Z.abs e))%N in
    N.min u64_max (if decide (0 ≤ e)%Z then (Npos m * p)%N else ((Npos m + p - 1) / p)%N)
  | S754_infinity false => u64_max
  | _ => 0%N
  end.

(** [div_ceil] *)
Definition div_ceil (a b : N) : N := if decide (a mod b = 0)%N then (a / b)%N else (a / b + 1)%N.

(** ** The tracker *)
Record HopelessTracker := {
  created_at : N;
  last_progress_at : N;
  content_bytes : N;
  recovery_capacity_bytes : N;
  recovery_blocks_total : N;
  recovery_bytes_unavailable : N;
  recovery_blocks_unavailable : N;
  recovery_capacity_by_set : gmap str N;
  recovery_unavailable_by_set : gmap str N;
  recovery_blocks_by_set : gmap str N;
  slice_size_bound_by_set : gmap str N;
  slice_size_bound : N;
  content_bytes_by_set : gmap str N;
  missing_content_by_set : gmap str N;
  unassociated_missing_bytes : N;
  content_file_sets : gmap string (option str);
  pending_file_classifications : gset string;
  content_bytes_missing : N;
  content_articles_checked : N;
  content_articles_failed : N;
  content_articles_total : N;
  has_par2_set : bool;
  recovery_blocks_known : bool;
  confirmed_missing_files : gmap string N;
  confirmed_missing_unattributed : N;
}.

Definition HOPELESS_GRACE_ARTICLES : N := 5.
Definition YENC_OVERHEAD_PCT : N := 103.
Definition EARLY_CHECK_MIN_ARTICLES : N := 10.
(** 0.80, as a double. *)
Definition EARLY_CHECK_FAILURE_RATE : f64 := S754_finite false 7205759403792794 (-53).

(** [*map.entry(k).or_insert(0) += n] *)
Definition add_to {K} `{Countable K} (k : K) (n : N) (m : gmap K N) : gmap K N :=
  <[k := u64_add (default 0%N (m !! k)) n]> m.

(** [is_archive_volume_ext] and [has_known_extension] of the download engine *)
Definition is_archive_volume_ext (ext : str) : bool :=
  match as_bytes ext with
  | [b0; b1; b2] =>
    let digit b := bool_decide (48 ≤ Byte.to_N b ≤ 57)%N in
    digit b1 && digit b2 && (digit b0 || bool_decide (114 ≤ Byte.to_N b0 ≤ 122)%N)
  | _ => false
  end.

Definition KNOWN_EXTENSIONS : list str :=
  lit <$> ["rar"; "zip"; "7z"; "gz"; "bz2"; "xz"; "tar"; "mkv"; "mp4"; "avi"; "wmv"; "ts"; "m4v"; "mov";
           "mpg"; "mpeg"; "mp3"; "flac"; "ogg"; "m4a"; "aac"; "wav"; "srt"; "sub"; "idx"; "ass"; "ssa";
           "sup"; "nfo"; "jpg"; "jpeg"; "png"; "gif"; "bmp"; "par2"]%string.

(** [Path::file_name] *)
Definition file_name (p : str) : option str :=
  match last (components p) with Some (Path.Normal s) => Some s | _ => None end.

Section tracker.
Context (to_lowercase : str → str).

Definition has_known_extension (name : str) : bool :=
  let lower := to_lowercase name in
  match rfind_char DOT lower with
  | Some dot_pos =>
    let ext := drop (dot_pos + 1) lower in
    is_archive_volume_ext ext || bool_decide (ext ∈ KNOWN_EXTENSIONS)
  | None => false
  end.

(** The sets the PAR2 files of a job name. *)
Definition recovery_set_names (fs : list NzbFile) : gset str :=
  list_to_set (omap (λ f, if is_par2 f then to_ascii_lowercase <$> par2_setname f else None) fs).

(** [max_by_key(|set_name| set_name.len())] *)
Definition longest (l : list str) : option str :=
  foldl (λ best s, match best with
                   | Some b => if decide (length (as_bytes b) ≤ length (as_bytes s)) then Some s else best
                   | None => Some s
                   end) None l.

Definition associated_set (names : gset str) (filename : str) : option str :=
  let lower := to_ascii_lowercase filename in
  if decide (size names = 1) then head (elements names)
  else longest (filter (λ s, starts_with s lower = true) (elements names)).

(** Recovery data a PAR2 volume declares: its blocks, when it is one. *)
Definition volume_blocks (f : NzbFile) : option N :=
  match par2_vol f, par2_blocks f with
  | Some _, Some b => if decide (0 < b)%N then Some b else None
  | _, _ => None
  end.

(** A PAR2 file in the loop of [new]. *)
Definition new_par2 (f : NzbFile) (t : HopelessTracker) : HopelessTracker :=
  let t := t <| has_par2_set := true |>
             <| recovery_blocks_known :=
                  recovery_blocks_known t && negb (bool_decide (is_Some (par2_vol f) ∧ par2_blocks f = None)) |> in
  let t :=
    match volume_blocks f with
    | Some blocks =>
      let per_block := div_ceil (f_bytes f) blocks in
      let t := t <| recovery_capacity_bytes := u64_sat_add (recovery_capacity_bytes t) (f_bytes f) |>
                 <| recovery_blocks_total := u64_sat_add (recovery_blocks_total t) blocks |> in
      match par2_setname f with
      | Some set_name =>
        let set_name := to_ascii_lowercase set_name in
        t <| recovery_capacity_by_set :=
               <[set_name := u64_sat_add (default 0%N (recovery_capacity_by_set t !! set_name)) (f_bytes f)]>
                 (recovery_capacity_by_set t) |>
          <| recovery_blocks_by_set := add_to set_name blocks (recovery_blocks_by_set t) |>
          <| slice_size_bound_by_set :=
               <[set_name := N.min (default u64_max (slice_size_bound_by_set t !! set_name)) per_block]>
                 (slice_size_bound_by_set t) |>
      | None => t <| slice_size_bound := N.max (slice_size_bound t) per_block |>
      end
    | None => t
    end in
  t <| content_file_sets := <[file_id f := to_ascii_lowercase <$> par2_setname f]> (content_file_sets t) |>.

(** A content file in the loop of [new]. *)
Definition new_content (names : gset str) (f : NzbFile) (t : HopelessTracker) : HopelessTracker :=
  let set := associated_set names (filename f) in
  t <| content_bytes := u64_add (content_bytes t) (f_bytes f) |>
    <| content_articles_total := (content_articles_total t + N.of_nat (length (articles f)))%N |>
    <| content_bytes_by_set :=
         match set with
         | Some s => add_to s (f_bytes f) (content_bytes_by_set t)
         | None => content_bytes_by_set t
         end |>
    <| content_file_sets := <[file_id f := set]> (content_file_sets t) |>
    <| pending_file_classifications :=
         if has_known_extension (filename f) then pending_file_classifications t
         else {[file_id f]} ∪ pending_file_classifications t |>.

Definition no_tracker (now : N) : HopelessTracker :=
  {| created_at := now; last_progress_at := now; content_bytes := 0; recovery_capacity_bytes := 0;
     recovery_blocks_total := 0; recovery_bytes_unavailable := 0; recovery_blocks_unavailable := 0;
     recovery_capacity_by_set := ∅; recovery_unavailable_by_set := ∅; recovery_blocks_by_set := ∅;
     slice_size_bound_by_set := ∅; slice_size_bound := 0; content_bytes_by_set := ∅;
     missing_content_by_set := ∅; unassociated_missing_bytes := 0; content_file_sets := ∅;
     pending_file_classifications := ∅; content_bytes_missing := 0; content_articles_checked := 0;
     content_articles_failed := 0; content_articles_total := 0; has_par2_set := false;
     recovery_blocks_known := true; confirmed_missing_files := ∅; confirmed_missing_unattributed := 0 |}.

Definition new_file (names : gset str) (t : HopelessTracker) (f : NzbFile) : HopelessTracker :=
  if is_par2 f then new_par2 f t else new_content names f t.

(** The largest bound of any set, or of a volume with no set name. *)
Definition new (now : N) (fs : list NzbFile) : HopelessTracker :=
  let t := foldl (new_file (recovery_set_names fs)) (no_tracker now) fs in
  t <| slice_size_bound := foldl N.max (slice_size_bound t) (snd <$> map_to_list (slice_size_bound_by_set t)) |>.

(** ** Events *)
Definition record_success (now : N) (par2 : bool) (t : HopelessTracker) : HopelessTracker :=
  t <| last_progress_at := now |>
    <| content_articles_checked := if par2 then content_articles_checked t else (content_articles_checked t + 1)%N |>.

Definition mark_file_classified (id : string) (t : HopelessTracker) : HopelessTracker :=
  t <| pending_file_classifications := pending_file_classifications t ∖ {[id]} |>.

Definition reclassify_as_par2 (id : string) (file_bytes : N) (article_count : nat) (volume blocks : option N)
    (set_name : option str) (t : HopelessTracker) : HopelessTracker :=
  let t := t <| content_bytes := (content_bytes t - file_bytes)%N |>
             <| content_articles_total := (content_articles_total t - N.of_nat article_count)%N |>
             <| has_par2_set := true |>
             <| recovery_blocks_known :=
                  recovery_blocks_known t && negb (bool_decide (is_Some volume ∧ blocks = None)) |>
             <| confirmed_missing_files := delete id (confirmed_missing_files t) |>
             <| content_bytes_by_set :=
                  match content_file_sets t !! id with
                  | Some (Some old_set) =>
                    alter (λ b, b - file_bytes)%N old_set (content_bytes_by_set t)
                  | _ => content_bytes_by_set t
                  end |> in
  let t :=
    match volume, blocks with
    | Some _, Some block_count =>
      if decide (0 < block_count)%N then
        let per_block := div_ceil file_bytes block_count in
        let t := t <| recovery_capacity_bytes := u64_sat_add (recovery_capacity_bytes t) file_bytes |>
                   <| recovery_blocks_total := u64_sat_add (recovery_blocks_total t) block_count |>
                   <| slice_size_bound := N.max (slice_size_bound t) per_block |> in
        match set_name with
        | Some set_name =>
          let set_name := to_ascii_lowercase set_name in
          t <| recovery_capacity_by_set := add_to set_name file_bytes (recovery_capacity_by_set t) |>
            <| recovery_blocks_by_set := add_to set_name block_count (recovery_blocks_by_set t) |>
            <| slice_size_bound_by_set :=
                 <[set_name := N.min (default u64_max (slice_size_bound_by_set t !! set_name)) per_block]>
                   (slice_size_bound_by_set t) |>
        | None => t
        end
      else t
    | _, _ => t
    end in
  t <| content_file_sets := <[id := to_ascii_lowercase <$> set_name]> (content_file_sets t) |>
    <| pending_file_classifications := pending_file_classifications t ∖ {[id]} |>.

(** The set a file is known to belong to. *)
Definition set_of_file (id : option string) (t : HopelessTracker) : option str :=
  id ← id; mjoin (content_file_sets t !! id).

Definition record_par2_failure (id : option string) (estimated_bytes : N) (t : HopelessTracker) : HopelessTracker :=
  let t := t <| recovery_bytes_unavailable :=
                  N.min (u64_sat_add (recovery_bytes_unavailable t) estimated_bytes) (recovery_capacity_bytes t) |> in
  let t :=
    if decide (0 < recovery_capacity_bytes t ∧ 0 < recovery_blocks_total t)%N then
      t <| recovery_blocks_unavailable :=
             N.min (div_ceil (recovery_bytes_unavailable t * recovery_blocks_total t) (recovery_capacity_bytes t))
               (recovery_blocks_total t) |>
    else t in
  match set_of_file id t with
  | Some set_name =>
    t <| recovery_unavailable_by_set := add_to set_name estimated_bytes (recovery_unavailable_by_set t) |>
  | None => t
  end.

Definition record_file_failure (now : N) (id : option string) (par2 : bool) (estimated_bytes : N)
    (kind : ArticleFailureKind) (t : HopelessTracker) : HopelessTracker :=
  let t := t <| last_progress_at := now |> in
  if par2 then record_par2_failure id estimated_bytes t
  else
    let t := t <| content_articles_checked := (content_articles_checked t + 1)%N |> in
    let t :=
      if decide (kind = NotFound) then
        match id with
        | Some id => t <| confirmed_missing_files := add_to id estimated_bytes (confirmed_missing_files t) |>
        | None => t <| confirmed_missing_unattributed := (confirmed_missing_unattributed t + 1)%N |>
        end
      else t in
    if counts_toward_hopeless kind then
      let t := t <| content_articles_failed := (content_articles_failed t + 1)%N |>
                 <| content_bytes_missing := u64_add (content_bytes_missing t) estimated_bytes |> in
      match set_of_file id t with
      | Some set_name =>
        t <| missing_content_by_set := add_to set_name estimated_bytes (missing_content_by_set t) |>
      | None =>
        t <| unassociated_missing_bytes := u64_sat_add (unassociated_missing_bytes t) estimated_bytes |>
      end
    else t.

Definition reset_progress_clock (now : N) (t : HopelessTracker) : HopelessTracker := t <| last_progress_at := now |>.
End tracker.

(** ** The tiers *)
Inductive HopelessAbort :=
  | ParityAbort (set_name : option str) (damaged available : N)
  | EarlyFailure (projected usable : N)
  | SetAvailability (set_name : str) (missing usable reserve : N)
  | OngoingAvailability (effective required : N)
  | NoProgress (idle : N).

Definition tier (a : HopelessAbort) : string :=
  match a with
  | ParityAbort _ _ _ => "parity"
  | EarlyFailure _ _ => "early_failure"
  | SetAvailability _ _ _ _ => "set_availability"
  | OngoingAvailability _ _ => "ongoing_availability"
  | NoProgress _ => "no_progress_timeout"
  end.

Definition sorted_keys (s : gset str) : list str := merge_sort str_le (elements s).

Fixpoint find_map {A B} (g : A → option B) (l : list A) : option B :=
  match l with
  | [] => None
  | x :: l' => match g x with Some b => Some b | None => find_map g l' end
  end.

Definition recovery_blocks_available (t : HopelessTracker) : N :=
  (recovery_blocks_total t - recovery_blocks_unavailable t)%N.

Definition file_damaged_slices (missing_bytes bound : N) : N :=
  if decide (bound = 0 ∨ bound = u64_max)%N then 1%N
  else
    let decoded := (N.min (missing_bytes * 100) u64_max / YENC_OVERHEAD_PCT)%N in
    N.max (div_ceil decoded bound) 1.

Definition damaged_slices_lower_bound (t : HopelessTracker) : N :=
  let damaged := sum_u64 ((λ kv, file_damaged_slices kv.2 (slice_size_bound t)) <$> map_to_list (confirmed_missing_files t)) in
  if decide (damaged = 0 ∧ 0 < confirmed_missing_unattributed t)%N then 1%N else damaged.

Definition get_or_0 (k : str) (m : gmap str N) : N := default 0%N (m !! k).

Definition set_recovery_blocks_available (set_name : str) (t : HopelessTracker) : N :=
  let blocks := get_or_0 set_name (recovery_blocks_by_set t) in
  let capacity := get_or_0 set_name (recovery_capacity_by_set t) in
  let lost_bytes := N.min (get_or_0 set_name (recovery_unavailable_by_set t)) capacity in
  let lost := if decide (capacity = 0)%N then 0%N
              else (div_ceil (lost_bytes * blocks) capacity mod 2 ^ 64)%N in
  (blocks - lost)%N.

(** One file's contribution to the damage counted against its set. *)
Definition add_damage (t : HopelessTracker) (m : gmap str N) (kv : string * N) : gmap str N :=
  match mjoin (content_file_sets t !! kv.1) with
  | Some set_name =>
    match slice_size_bound_by_set t !! set_name with
    | Some bound => add_to set_name (file_damaged_slices kv.2 bound) m
    | None => m
    end
  | None => m
  end.

Definition damaged_by_set (t : HopelessTracker) : gmap str N :=
  foldl (add_damage t) ∅ (map_to_list (confirmed_missing_files t)).

Definition parity_check (t : HopelessTracker) : option HopelessAbort :=
  if negb (recovery_blocks_known t) then None
  else
    let damaged := damaged_slices_lower_bound t in
    let available := recovery_blocks_available t in
    if decide (available < damaged)%N then Some (ParityAbort None damaged available)
    else
      let sets := damaged_by_set t in
      find_map (λ set_name,
        let damaged := get_or_0 set_name sets in
        let available := set_recovery_blocks_available set_name t in
        if decide (available < damaged)%N then Some (ParityAbort (Some set_name) damaged available) else None)
        (sorted_keys (dom sets)).

(** [((bytes as f64) * pct / 100.0).ceil() as u64] *)
Definition required_of (bytes : N) (pct : f64) : N :=
  ceil_u64 (f64_div (f64_mul (f64_of_N bytes) pct) (f64_of_N 100)).

Definition early_failure (required usable : N) (t : HopelessTracker) : option HopelessAbort :=
  let failure_rate := f64_div (f64_of_N (content_articles_failed t)) (f64_of_N (content_articles_checked t)) in
  let projected := ceil_u64 (f64_mul (f64_of_N (content_bytes t)) failure_rate) in
  let safety_reserve := (required - content_bytes t)%N in
  if f64_ge failure_rate EARLY_CHECK_FAILURE_RATE &&
     bool_decide (usable < u64_sat_add projected safety_reserve)%N
  then Some (EarlyFailure projected usable) else None.

Definition set_availability (pct : f64) (t : HopelessTracker) (set_name : str) : option HopelessAbort :=
  let usable := (get_or_0 set_name (recovery_capacity_by_set t) - get_or_0 set_name (recovery_unavailable_by_set t))%N in
  let missing := get_or_0 set_name (missing_content_by_set t) in
  if decide (missing = 0)%N then None
  else
    let set_content := get_or_0 set_name (content_bytes_by_set t) in
    let set_reserve := (required_of set_content pct - set_content)%N in
    if decide (usable < u64_sat_add missing set_reserve)%N
    then Some (SetAvailability set_name missing usable set_reserve) else None.

Definition check (abort_hopeless early_failure_check : bool) (pct : f64) (t : HopelessTracker)
    : option HopelessAbort :=
  if negb abort_hopeless then None
  else
    match (if has_par2_set t && bool_decide (pending_file_classifications t = ∅)
           then parity_check t else None) with
    | Some abort => Some abort
    | None =>
      if has_par2_set t && recovery_blocks_known t then None
      else if decide (content_articles_failed t ≤ HOPELESS_GRACE_ARTICLES)%N then None
      else if negb (bool_decide (pending_file_classifications t = ∅)) then None
      else
        let usable := (recovery_capacity_bytes t - recovery_bytes_unavailable t)%N in
        let available_content := (content_bytes t - content_bytes_missing t)%N in
        let effective := u64_sat_add available_content usable in
        let required := required_of (content_bytes t) pct in
        match (if early_failure_check && bool_decide (EARLY_CHECK_MIN_ARTICLES ≤ content_articles_checked t)%N
               then early_failure required usable t else None) with
        | Some abort => Some abort
        | None =>
          if negb (bool_decide (recovery_capacity_by_set t = ∅)) then
            if decide (0 < unassociated_missing_bytes t)%N then None
            else find_map (set_availability pct t)
                   (sorted_keys (dom (recovery_capacity_by_set t) ∪ dom (missing_content_by_set t)))
          else if decide (required ≤ effective)%N then None
          else if decide (0 < content_bytes t)%N then Some (OngoingAvailability effective required)
          else None
        end
    end.

Definition time_based_check (now timeout : N) (t : HopelessTracker) : option HopelessAbort :=
  let idle := (now - last_progress_at t)%N in
  if decide (timeout ≤ idle)%N then Some (NoProgress idle) else None.

(** The decision at the end of the download: [declared] is [None] when a
    volume's block count is unknown. *)
Definition parity_diagnosis (map_damaged map_recovery : N) (declared_available : option N) : option (N * N) :=
  available ← (λ d, N.max d map_recovery) <$> declared_available;
  if decide (available < map_damaged)%N then Some (map_damaged, available) else None.

(** ** The queue manager's part: events of the download engine *)
Record Tracked := { t_files : list NzbFile; t_tracker : HopelessTracker }.

Definition find_file (id : string) (fs : list NzbFile) : option NzbFile :=
  snd <$> list_find (λ f, file_id f = id) fs.

(** [iter_mut().find(|file| file.id == id)] *)
Fixpoint update_file (id : string) (g : NzbFile → NzbFile) (fs : list NzbFile) : list NzbFile :=
  match fs with
  | [] => []
  | f :: fs' => if decide (file_id f = id) then g f :: fs' else f :: update_file id g fs'
  end.

Definition as_par2 (set_name : option str) (volume blocks : option N) (f : NzbFile) : NzbFile :=
  {| file_id := file_id f; filename := filename f; f_bytes := f_bytes f; bytes_downloaded := bytes_downloaded f;
     is_par2 := true; par2_setname := set_name; par2_vol := volume; par2_blocks := blocks;
     assembled := assembled f; groups := groups f; articles := articles f |}.

Definition file_is_par2 (id : string) (fs : list NzbFile) : bool :=
  match find_file id fs with Some f => is_par2 f | None => false end.

Section events.
Context (to_lowercase : str → str).

(** What a yEnc name reveals of its file; [None] is a panic. *)
Definition reveal (id : string) (yenc_name : str) (s : Tracked) : option Tracked :=
  let clean_name := default yenc_name (file_name yenc_name) in
  let revealed := ends_with (lit ".par2") (to_ascii_lowercase clean_name) in
  let s := if negb revealed && has_known_extension to_lowercase clean_name
           then {| t_files := t_files s; t_tracker := mark_file_classified id (t_tracker s) |} else s in
  match find_file id (t_files s) with
  | Some f =>
    if revealed && negb (is_par2 f) then
      '(set_name, volume, blocks) ← parse_par2_filename to_lowercase clean_name;
      Some {| t_files := update_file id (as_par2 set_name volume blocks) (t_files s);
              t_tracker := reclassify_as_par2 id (f_bytes f) (length (articles f)) volume blocks set_name (t_tracker s) |}
    else Some s
  | None => Some s
  end.

Definition on_article_complete (now : N) (id : string) (yenc_filename : option str) (s : Tracked) : option Tracked :=
  s ← match yenc_filename with Some n => reveal id n s | None => Some s end;
  Some {| t_files := t_files s; t_tracker := record_success now (file_is_par2 id (t_files s)) (t_tracker s) |}.
End events.

(** The declared size of an article. *)
Definition declared_bytes (id : string) (segment : N) (fs : list NzbFile) : N :=
  default 0%N (f ← find_file id fs; a_bytes ∘ snd <$> list_find (λ a, segment_number a = segment) (articles f)).

Definition on_article_failed (now : N) (id : string) (segment : N) (kind : ArticleFailureKind) (s : Tracked) : Tracked :=
  {| t_files := t_files s;
     t_tracker := record_file_failure now (Some id) (file_is_par2 id (t_files s))
                    (declared_bytes id segment (t_files s)) kind (t_tracker s) |}.
