(* ===== verification/HopelessProps.v ===== *)
(** * A job given up for parity cannot be repaired

    The tracker's verdict against the release itself: where the decoded bytes
    of each article lie, the slices they touch, and the recovery slices each
    set carries. The parity tier gives a job up only when some set has more
    damaged slices than recovery slices; where it does not hold, runs show it. *)
From coqutil Require Import Datatypes.RecordSetters.
From S2P Require Import Prelude Str Path Wire WorkQueue Models NzbParser Hopeless.
Import TriangleBracketNotations.
#[local] Open Scope record_set.
Import ArticleFailureKind.

(** ** Sums *)
Fixpoint sumN {A} (g : A → N) (l : list A) : N :=
  match l with [] => 0 | x :: l' => g x + sumN g l' end%N.

Lemma sumN_app {A} (g : A → N) l1 l2 : sumN g (l1 ++ l2) = (sumN g l1 + sumN g l2)%N.
Proof. induction l1 as [|x l1 IH]; simpl; [done|]. rewrite IH. lia. Qed.

Lemma sumN_Permutation {A} (g : A → N) l1 l2 : l1 ≡ₚ l2 → sumN g l1 = sumN g l2.
Proof. induction 1; simpl; lia. Qed.

Lemma sumN_le {A} (g h : A → N) l : (∀ x, x ∈ l → (g x ≤ h x)%N) → (sumN g l ≤ sumN h l)%N.
Proof.
  induction l as [|x l IH]; intros Hl; simpl; [done|].
  pose proof (Hl x (list_elem_of_here _ _)). specialize (IH (λ y Hy, Hl y (list_elem_of_further _ _ _ Hy))). lia.
Qed.

Lemma sumN_ext {A} (g h : A → N) l : (∀ x, x ∈ l → g x = h x) → sumN g l = sumN h l.
Proof. intros Hl. apply N.le_antisymm; apply sumN_le; intros x Hx; rewrite Hl; done. Qed.

Lemma sumN_fmap {A B} (g : B → N) (k : A → B) l : sumN g (k <$> l) = sumN (g ∘ k) l.
Proof. induction l as [|x l IH]; [done|]. rewrite fmap_cons. cbn [sumN]. by rewrite IH. Qed.

Lemma sumN_elem {A} (g : A → N) l x : x ∈ l → (g x ≤ sumN g l)%N.
Proof. induction 1; simpl; lia. Qed.

Lemma sumN_mul {A} (g : A → N) (k : N) l : sumN (λ x, k * g x)%N l = (k * sumN g l)%N.
Proof. induction l as [|x l IH]; simpl; [lia|]. rewrite IH. lia. Qed.

Lemma sumN_plus {A} (g h : A → N) l : sumN (λ x, g x + h x)%N l = (sumN g l + sumN h l)%N.
Proof. induction l as [|x l IH]; simpl; [lia|]. rewrite IH. lia. Qed.

(** Summing each group apart sums what is in a group. *)
Lemma sumN_point {K} `{EqDecision K} (c : K) (v : N) ks :
  NoDup ks → sumN (λ k, if decide (c = k) then v else 0%N) ks = if decide (c ∈ ks) then v else 0%N.
Proof.
  induction 1 as [|k ks Hk _ IH]; [done|]. cbn [sumN]. rewrite IH. clear IH.
  destruct (decide (c = k)) as [->|Hne].
  - rewrite decide_False, decide_True by (done || apply list_elem_of_here). lia.
  - destruct (decide (c ∈ ks)) as [Hin|Hout].
    + rewrite decide_True by (by right). lia.
    + rewrite decide_False; [lia|]. by intros [|]%elem_of_cons.
Qed.

Lemma sumN_groups {A K} `{EqDecision K} (g : A → N) (key : A → K) (ks : list K) l :
  NoDup ks →
  sumN (λ k, sumN (λ x, if decide (key x = k) then g x else 0%N) l) ks =
  sumN (λ x, if decide (key x ∈ ks) then g x else 0%N) l.
Proof.
  intros Hks. induction l as [|x l IH]; cbn [sumN].
  - clear. induction ks; simpl; lia.
  - by rewrite sumN_plus, IH, sumN_point.
Qed.

Lemma sum_u64_le l : (sum_u64 l ≤ sumN id l)%N.
Proof.
  assert (∀ a, foldl u64_add a l ≤ a + sumN id l)%N as H; [|specialize (H 0%N); unfold sum_u64; lia].
  induction l as [|x l IH]; intros a; simpl; [lia|]. etrans; [apply IH|].
  unfold u64_add, id. pose proof (N.Div0.mod_le (a + x) (2 ^ 64)). lia.
Qed.

(** ** Ceilings *)
Lemma div_ceil_le a b k : (0 < b)%N → (a ≤ k * b)%N → (div_ceil a b ≤ k)%N.
Proof.
  intros Hb Ha. unfold div_ceil. case_decide as E.
  - apply N.Div0.div_le_upper_bound. lia.
  - pose proof (N.div_mod' a b) as Hd. enough (a `div` b < k)%N by lia.
    apply N.Div0.div_lt_upper_bound. destruct (decide (a = k * b)%N) as [->|]; [|lia].
    by rewrite N.Div0.mod_mul in E.
Qed.

Lemma div_ceil_ge a b s : (0 < b)%N → (b * s ≤ a)%N → (s ≤ div_ceil a b)%N.
Proof.
  intros Hb Ha. unfold div_ceil. pose proof (N.div_le_lower_bound a b s ltac:(lia) Ha). case_decide; lia.
Qed.

(** ** Slices *)
Definition byte_range (x : N * N) : gset N := list_to_set ((λ i, x.1 + N.of_nat i)%N <$> seq 0 (N.to_nat x.2)).

Lemma elem_of_byte_range x n : n ∈ byte_range x ↔ (x.1 ≤ n < x.1 + x.2)%N.
Proof.
  unfold byte_range. rewrite elem_of_list_to_set, list_elem_of_fmap. split.
  - intros (i & -> & Hi%elem_of_seq). lia.
  - intros Hn. exists (N.to_nat (n - x.1)). split; [lia|]. apply elem_of_seq. lia.
Qed.

Lemma size_byte_range x : size (byte_range x) = N.to_nat x.2.
Proof.
  unfold byte_range. rewrite size_list_to_set; [by rewrite length_fmap, length_seq|].
  apply NoDup_fmap_2; [|apply NoDup_seq]. intros i j. lia.
Qed.

(** The slices that hold at least one of some bytes. *)
Definition slices_hit (slice : N) (b : gset N) : gset N := set_map (λ n, n `div` slice)%N b.

Lemma slices_hit_cover slice (K b : gset N) :
  (0 < slice)%N → (∀ n, n ∈ b → (n `div` slice)%N ∈ K) → (N.of_nat (size b) ≤ N.of_nat (size K) * slice)%N.
Proof.
  intros Hs. revert b. induction K as [|k K Hk IH] using set_ind_L; intros b Hb.
  - assert (b = ∅) as -> by (apply set_eq; intros n; split; [intros Hn%Hb; by apply elem_of_empty in Hn|by intros ?%elem_of_empty]).
    rewrite size_empty. lia.
  - rewrite size_union, size_singleton by (intros n ->%elem_of_singleton; done).
    set (b1 := filter (λ n, n `div` slice = k)%N b). set (b2 := filter (λ n, n `div` slice ≠ k)%N b).
    assert (size b = size b1 + size b2) as Hsz.
    { rewrite <-size_union by (intros n; unfold b1, b2; rewrite !elem_of_filter; tauto). f_equal.
      apply set_eq. intros n. unfold b1, b2. rewrite elem_of_union, !elem_of_filter.
      destruct (decide (n `div` slice = k)%N); tauto. }
    assert (N.of_nat (size b1) ≤ slice)%N as H1.
    { etrans; [|apply N.eq_le_incl, (N2Nat.id slice)].
      assert (b1 ⊆ byte_range (k * slice, slice)%N) as Hsub.
      { intros n [Hn _]%elem_of_filter. apply elem_of_byte_range. simpl.
        pose proof (N.div_mod' n slice) as Hd. pose proof (N.mod_lt n slice ltac:(lia)) as Hm.
        rewrite Hn in Hd. revert Hd Hm. generalize (n mod slice)%N. intros r -> Hr. lia. }
      apply subseteq_size in Hsub. rewrite size_byte_range in Hsub. simpl in Hsub. lia. }
    assert (N.of_nat (size b2) ≤ N.of_nat (size K) * slice)%N as H2.
    { apply IH. intros n Hn. unfold b2 in Hn. apply elem_of_filter in Hn as [Hne Hn].
      specialize (Hb n). rewrite elem_of_union, elem_of_singleton in Hb. by destruct (Hb Hn). }
    lia.
Qed.

Lemma slices_hit_size slice b : (0 < slice)%N → (N.of_nat (size b) ≤ N.of_nat (size (slices_hit slice b)) * slice)%N.
Proof. intros Hs. apply slices_hit_cover; [done|]. intros n Hn. by apply (elem_of_map_2 (λ n, n `div` slice)%N). Qed.

(** ** Releases *)

(** What a release is, behind the names: the set that protects each content
    file, the slice size of each set, and where the decoded bytes of each
    article lie in its file. *)
Record Release := {
  protects : string → str;
  slice : str → N;
  place : string → N → N * N;
}.

(** The articles refused by every server, in the order they failed. *)
Abbreviation refused := (list (string * N)).

Section release.
Context (r : Release).

Definition segments_of (h : refused) (id : string) : list N := snd <$> filter (λ x, x.1 = id) h.

(** The missing bytes of a file, and the slices they damage. *)
Definition missing_bytes (h : refused) (id : string) : gset N :=
  ⋃ ((λ seg, byte_range (place r id seg)) <$> segments_of h id).
Definition damaged_slices (h : refused) (id : string) : N :=
  N.of_nat (size (slices_hit (slice r (protects r id)) (missing_bytes h id))).

Definition set_of_volume (f : NzbFile) : option str := to_ascii_lowercase <$> par2_setname f.
Definition blocks_of (f : NzbFile) : N := if is_par2 f then default 0%N (volume_blocks f) else 0%N.

(** Damaged slices and recovery slices of a set. *)
Definition set_damage (fs : list NzbFile) (h : refused) (s : str) : N :=
  sumN (λ f, if decide (is_par2 f = false ∧ protects r (file_id f) = s) then damaged_slices h (file_id f) else 0%N) fs.
Definition set_recovery (fs : list NzbFile) (s : str) : N :=
  sumN (λ f, if decide (set_of_volume f = Some s) then blocks_of f else 0%N) fs.

(** PAR2 repairs a set with at least as many recovery slices as damaged ones. *)
Definition repairable (fs : list NzbFile) (h : refused) : Prop :=
  ∀ s, (set_damage fs h s ≤ set_recovery fs s)%N.

(** A release as posted: each article decodes to at least 100/103 of its
    declared size, articles of a file do not overlap, each volume carries its
    recovery slices whole, and a content file belongs to the set the names of
    the job attribute it to. *)
Record release_ok (names : gset str) (fs : list NzbFile) : Prop := {
  slice_positive s : (0 < slice r s)%N;
  article_decodes f a : f ∈ fs → is_par2 f = false → a ∈ articles f →
    (0 < (place r (file_id f) (segment_number a)).2)%N ∧
    (a_bytes a * 100 ≤ YENC_OVERHEAD_PCT * (place r (file_id f) (segment_number a)).2)%N;
  articles_apart f a a' : f ∈ fs → is_par2 f = false → a ∈ articles f → a' ∈ articles f →
    segment_number a ≠ segment_number a' →
    byte_range (place r (file_id f) (segment_number a)) ## byte_range (place r (file_id f) (segment_number a'));
  volume_carries f b : f ∈ fs → is_par2 f = true → volume_blocks f = Some b →
    ∃ s, set_of_volume f = Some s ∧ (b * slice r s ≤ f_bytes f)%N;
  names_attribute f s : f ∈ fs → is_par2 f = false → associated_set names (filename f) = Some s →
    protects r (file_id f) = s;
  sizes_fit f : f ∈ fs → (f_bytes f ≤ u64_max)%N;
  blocks_fit : (sumN blocks_of fs ≤ u64_max)%N;
}.

(** The bytes of distinct articles add up. *)
Lemma size_missing names fs h f :
  release_ok names fs → f ∈ fs → is_par2 f = false →
  NoDup (segments_of h (file_id f)) → (∀ seg, seg ∈ segments_of h (file_id f) → ∃ a, a ∈ articles f ∧ segment_number a = seg) →
  N.of_nat (size (missing_bytes h (file_id f))) = sumN (λ seg, (place r (file_id f) seg).2) (segments_of h (file_id f)).
Proof.
  intros Hr Hf Hc. unfold missing_bytes. induction (segments_of h (file_id f)) as [|seg l IH]; intros Hnd Hin; [done|].
  apply NoDup_cons in Hnd as [Hseg Hnd]. rewrite fmap_cons. simpl.
  rewrite size_union.
  - rewrite size_byte_range, Nat2N.inj_add, IH; [lia|done|]. intros s Hs. apply Hin. by right.
  - destruct (Hin seg) as (a & Ha & <-); [by left|]. apply elem_of_disjoint. intros n Hn Hm.
    apply elem_of_union_list in Hm as (X & (s & -> & Hs)%list_elem_of_fmap & Hn').
    destruct (Hin s) as (a' & Ha' & <-); [by right|].
    assert (segment_number a ≠ segment_number a') as Hne by (intros E; by rewrite E in Hseg).
    by apply (articles_apart _ _ Hr f a a' Hf Hc Ha Ha' Hne n).
Qed.

(** The slices the tracker counts for a file are damaged. *)
Lemma counted_are_damaged names fs h f bytes bound :
  release_ok names fs → f ∈ fs → is_par2 f = false →
  NoDup (segments_of h (file_id f)) → (∀ seg, seg ∈ segments_of h (file_id f) → ∃ a, a ∈ articles f ∧ segment_number a = seg) →
  segments_of h (file_id f) ≠ [] →
  (bytes ≤ sumN (λ seg, declared_bytes (file_id f) seg [f]) (segments_of h (file_id f)))%N →
  (slice r (protects r (file_id f)) ≤ bound)%N →
  (file_damaged_slices bytes bound ≤ damaged_slices h (file_id f))%N.
Proof.
  intros Hr Hf Hc Hnd Hin Hne Hb Hs.
  pose proof (slice_positive _ _ Hr (protects r (file_id f))) as Hpos.
  pose proof (size_missing names fs h f Hr Hf Hc Hnd Hin) as Hsz.
  pose proof (slices_hit_size _ (missing_bytes h (file_id f)) Hpos) as Hcov.
  assert (∀ seg, seg ∈ segments_of h (file_id f) →
            (0 < (place r (file_id f) seg).2)%N ∧
            (declared_bytes (file_id f) seg [f] * 100 ≤ YENC_OVERHEAD_PCT * (place r (file_id f) seg).2)%N) as Hseg.
  { intros seg Hs'. destruct (Hin seg Hs') as (a & Ha & Ea). subst seg. unfold declared_bytes, find_file. simpl.
    rewrite decide_True by done. simpl.
    destruct (list_find (λ a0, segment_number a0 = segment_number a) (articles f)) as [[i a']|] eqn:E.
    - apply list_find_Some in E as (Hi & E & _). simpl.
      destruct (article_decodes _ _ Hr f a' Hf Hc) as [? Hd]; [by eapply list_elem_of_lookup_2|].
      rewrite E in *. done.
    - apply list_find_None in E. rewrite Forall_forall in E. by specialize (E a Ha). }
  assert (1 ≤ damaged_slices h (file_id f))%N as Hone.
  { unfold damaged_slices in *. destruct (size (slices_hit _ _)) eqn:E; [|lia].
    destruct (segments_of h (file_id f)) as [|seg l]; [done|].
    destruct (Hseg seg) as [Hl _]; [by left|]. cbn [sumN] in Hsz. lia. }
  unfold file_damaged_slices. case_decide as Hbd; [done|].
  apply N.max_lub; [|done]. unfold damaged_slices in *. apply div_ceil_le; [lia|].
  apply N.Div0.div_le_upper_bound.
  assert (sumN (λ seg, declared_bytes (file_id f) seg [f] * 100)%N (segments_of h (file_id f)) ≤
          YENC_OVERHEAD_PCT * sumN (λ seg, (place r (file_id f) seg).2) (segments_of h (file_id f)))%N as Hsum.
  { rewrite <-sumN_mul. apply sumN_le. intros seg Hs'. by apply Hseg. }
  rewrite (sumN_ext _ (λ seg, 100 * declared_bytes (file_id f) seg [f])%N) in Hsum by (intros; lia).
  rewrite sumN_mul in Hsum. rewrite <-Hsz in Hsum.
  assert (N.of_nat (size (slices_hit (slice r (protects r (file_id f))) (missing_bytes h (file_id f)))) * slice r (protects r (file_id f)) ≤
    N.of_nat (size (slices_hit (slice r (protects r (file_id f))) (missing_bytes h (file_id f)))) * bound)%N
    by (apply N.mul_le_mono_l; done).
  unfold YENC_OVERHEAD_PCT in *. lia.
Qed.
End release.

(** ** What the tracker adds up *)

(** The volumes of a job: set, blocks and declared bytes. *)
Abbreviation volume := (option str * N * N)%type.
Definition volume_of (f : NzbFile) : option volume :=
  if is_par2 f then b ← volume_blocks f; Some (set_of_volume f, b, f_bytes f) else None.

Definition set_blocks (n : str) (vs : list volume) : N :=
  sumN (λ v, if decide (v.1.1 = Some n) then v.1.2 else 0%N) vs.

Record volumes_ok (vs : list volume) (t : HopelessTracker) : Prop := {
  v_total : recovery_blocks_total t = N.min (sumN (λ v, v.1.2) vs) u64_max;
  v_by_set n : get_or_0 n (recovery_blocks_by_set t) = (set_blocks n vs mod 2 ^ 64)%N;
  v_bound n b y : (Some n, b, y) ∈ vs → is_Some (slice_size_bound_by_set t !! n);
  v_bound_ge n x S : slice_size_bound_by_set t !! n = Some x → (S ≤ u64_max)%N →
    (∀ b y, (Some n, b, y) ∈ vs → (S ≤ div_ceil y b)%N) → (S ≤ x)%N;
  v_bound_of n x : slice_size_bound_by_set t !! n = Some x → ∃ b y, (Some n, b, y) ∈ vs;
}.

Lemma volumes_same vs t t' :
  recovery_blocks_total t' = recovery_blocks_total t →
  recovery_blocks_by_set t' = recovery_blocks_by_set t →
  slice_size_bound_by_set t' = slice_size_bound_by_set t → volumes_ok vs t → volumes_ok vs t'.
Proof. intros E1 E2 E3 []. split; rewrite ?E1, ?E2, ?E3; done. Qed.

Lemma volumes_Permutation vs vs' t : vs ≡ₚ vs' → volumes_ok vs t → volumes_ok vs' t.
Proof.
  intros Hp [H1 H2 H3 H4 H5]. split.
  - by rewrite H1, (sumN_Permutation _ _ _ Hp).
  - intros n. rewrite H2. unfold set_blocks. by rewrite (sumN_Permutation _ _ _ Hp).
  - intros n b y. rewrite <-Hp. apply H3.
  - intros n x S Hx HS Hv. eapply H4; [done|done|]. intros b y. rewrite Hp. apply Hv.
  - intros n x Hx. destruct (H5 n x Hx) as (b & y & Hin). exists b, y. by rewrite <-Hp.
Qed.

Lemma get_add_to (n k : str) (x : N) (m : gmap str N) :
  get_or_0 n (add_to k x m) = if decide (k = n) then u64_add (get_or_0 n m) x else get_or_0 n m.
Proof. unfold get_or_0, add_to. case_decide as E; [subst; by rewrite lookup_insert_eq|by rewrite lookup_insert_ne]. Qed.

(** A volume is declared: what [new] and a reclassified file do alike. *)
Lemma volumes_add_named vs t t' n b y :
  recovery_blocks_total t' = u64_sat_add (recovery_blocks_total t) b →
  recovery_blocks_by_set t' = add_to n b (recovery_blocks_by_set t) →
  slice_size_bound_by_set t' =
    <[n := N.min (default u64_max (slice_size_bound_by_set t !! n)) (div_ceil y b)]> (slice_size_bound_by_set t) →
  volumes_ok vs t → volumes_ok ((Some n, b, y) :: vs) t'.
Proof.
  intros E1 E2 E3 [H1 H2 H3 H4 H5]. split.
  - rewrite E1, H1. unfold u64_sat_add. cbn [sumN fst snd]. lia.
  - intros n'. rewrite E2, get_add_to. unfold set_blocks. cbn [sumN fst snd]. case_decide as E.
    + subst n'. rewrite decide_True by done. rewrite H2. unfold u64_add, set_blocks.
      rewrite N.Div0.add_mod_idemp_l. f_equal. lia.
    + rewrite decide_False by congruence. by rewrite H2.
  - intros n' b' y'. rewrite E3. destruct (decide (n = n')) as [->|Hn]; [by rewrite lookup_insert_eq|].
    rewrite lookup_insert_ne by done. intros [?|Hin]%elem_of_cons; [congruence|]. by eapply H3.
  - intros n' x S. rewrite E3. destruct (decide (n = n')) as [->|Hn].
    + rewrite lookup_insert_eq. intros [= <-] HS Hv. apply N.min_glb; [|apply Hv; by left].
      destruct (slice_size_bound_by_set t !! n') as [x|] eqn:Ex; [|done]. simpl.
      eapply H4; [done|done|]. intros b' y' Hin. apply Hv. by right.
    + rewrite lookup_insert_ne by done. intros Hx HS Hv. eapply H4; [done|done|]. intros b' y' Hin. apply Hv. by right.
  - intros n' x. rewrite E3. destruct (decide (n = n')) as [->|Hn]; [exists b, y; by left|].
    rewrite lookup_insert_ne by done. intros (b' & y' & Hin)%H5. exists b', y'. by right.
Qed.

Lemma volumes_add_unnamed vs t t' b y :
  recovery_blocks_total t' = u64_sat_add (recovery_blocks_total t) b →
  recovery_blocks_by_set t' = recovery_blocks_by_set t →
  slice_size_bound_by_set t' = slice_size_bound_by_set t →
  volumes_ok vs t → volumes_ok ((None, b, y) :: vs) t'.
Proof.
  intros E1 E2 E3 [H1 H2 H3 H4 H5]. split.
  - rewrite E1, H1. unfold u64_sat_add. cbn [sumN fst snd]. lia.
  - intros n'. rewrite E2, H2. unfold set_blocks. cbn [sumN fst snd]. by rewrite decide_False.
  - intros n' b' y'. rewrite E3. intros [?|Hin]%elem_of_cons; [congruence|]. by eapply H3.
  - intros n' x S. rewrite E3. intros Hx HS Hv. eapply H4; [done|done|]. intros b' y' Hin. apply Hv. by right.
  - intros n' x. rewrite E3. intros (b' & y' & Hin)%H5. exists b', y'. by right.
Qed.

Definition volumes (fs : list NzbFile) : list volume := omap volume_of fs.

Lemma new_par2_volumes f t vs :
  is_par2 f = true → volumes_ok vs t →
  volumes_ok (match volume_of f with Some v => v :: vs | None => vs end) (new_par2 f t).
Proof.
  intros Hp Hv. unfold volume_of, new_par2, set_of_volume. rewrite Hp.
  destruct (volume_blocks f) as [b|]; simpl; [|eapply volumes_same; [..|exact Hv]; done].
  destruct (par2_setname f) as [n|]; simpl.
  - eapply volumes_add_named; [..|exact Hv]; done.
  - eapply volumes_add_unnamed; [..|exact Hv]; done.
Qed.

Lemma reclassify_volumes f id sn v b t vs :
  volumes_ok vs t →
  volumes_ok (match volume_of (as_par2 sn v b f) with Some x => x :: vs | None => vs end)
    (reclassify_as_par2 id (f_bytes f) (length (articles f)) v b sn t).
Proof.
  intros Hv. unfold volume_of, reclassify_as_par2, set_of_volume, volume_blocks. simpl.
  destruct v as [v|], b as [b|]; simpl; try (eapply volumes_same; [..|exact Hv]; done).
  case_decide; simpl; [|eapply volumes_same; [..|exact Hv]; done].
  destruct sn as [n|]; simpl.
  - eapply volumes_add_named; [..|exact Hv]; done.
  - eapply volumes_add_unnamed; [..|exact Hv]; done.
Qed.

(** ** Runs *)
Inductive TrackerEvent :=
  | Complete (now : N) (id : string) (yenc_filename : option str)
  | Failed (now : N) (id : string) (segment : N) (kind : ArticleFailureKind).

(** The articles refused by every server in a run. *)
Definition refused_by (e : TrackerEvent) : refused :=
  match e with
  | Failed _ id segment NotFound => [(id, segment)]
  | _ => []
  end.

(** The NZB lists an article. *)
Definition listed (fs : list NzbFile) (id : string) (segment : N) : Prop :=
  ∃ f a, f ∈ fs ∧ file_id f = id ∧ a ∈ articles f ∧ segment_number a = segment.

Definition event_listed (fs : list NzbFile) (e : TrackerEvent) : Prop :=
  match e with Failed _ id segment _ => listed fs id segment | _ => True end.

Lemma find_file_Some id fs f : find_file id fs = Some f → f ∈ fs ∧ file_id f = id.
Proof.
  unfold find_file. intros ([i f'] & Hf & ->)%fmap_Some. apply list_find_Some in Hf as (Hi & Hid & _).
  split; [by eapply list_elem_of_lookup_2|done].
Qed.

Lemma find_file_elem fs f : NoDup (file_id <$> fs) → f ∈ fs → find_file (file_id f) fs = Some f.
Proof.
  intros Hnd Hf. unfold find_file.
  destruct (list_find (λ g, file_id g = file_id f) fs) as [[i g]|] eqn:E.
  - apply list_find_Some in E as (Hi & Hid & _). simpl. f_equal.
    apply list_elem_of_lookup in Hf as [j Hj].
    assert (i = j) as ->; [|congruence].
    apply (NoDup_lookup _ i j (file_id f) Hnd); rewrite list_lookup_fmap, ?Hi, ?Hj; simpl; congruence.
  - apply list_find_None in E. rewrite Forall_forall in E. by specialize (E f Hf).
Qed.

Lemma find_file_None id fs f : find_file id fs = None → f ∈ fs → file_id f ≠ id.
Proof.
  unfold find_file. intros E%fmap_None%list_find_None Hf. rewrite Forall_forall in E. by apply E.
Qed.

Lemma find_file_cons id x fs : find_file id (x :: fs) = if decide (file_id x = id) then Some x else find_file id fs.
Proof.
  unfold find_file. simpl. case_decide; [done|].
  by destruct (list_find (λ f, file_id f = id) fs) as [[i y]|].
Qed.

Lemma update_file_split id g fs f :
  find_file id fs = Some f → ∃ l1 l2, fs = l1 ++ f :: l2 ∧ update_file id g fs = l1 ++ g f :: l2.
Proof.
  induction fs as [|x fs IH]; [done|]. rewrite find_file_cons. simpl. case_decide as E.
  - intros [= ->]. by exists [], fs.
  - intros Hf. destruct (IH Hf) as (l1 & l2 & -> & ->). by exists (x :: l1), l2.
Qed.

Lemma declared_bytes_file id segment fs f :
  find_file id fs = Some f → declared_bytes id segment fs = declared_bytes id segment [f].
Proof.
  intros Hf. unfold declared_bytes. rewrite Hf. unfold find_file. simpl.
  rewrite decide_True by apply (find_file_Some _ _ _ Hf). done.
Qed.

Lemma segments_of_app h h' id : segments_of (h ++ h') id = segments_of h id ++ segments_of h' id.
Proof. unfold segments_of. by rewrite filter_app, fmap_app. Qed.

Section runs.
Context (to_lowercase : str → str).

Definition on_event (e : TrackerEvent) (s : Hopeless.Tracked) : option Hopeless.Tracked :=
  match e with
  | Complete now id yenc_filename => on_article_complete to_lowercase now id yenc_filename s
  | Failed now id segment kind => Some (on_article_failed now id segment kind s)
  end.

Fixpoint run_events (es : list TrackerEvent) (s : Hopeless.Tracked) : option Hopeless.Tracked :=
  match es with
  | [] => Some s
  | e :: es' => s' ← on_event e s; run_events es' s'
  end.

Context (fs0 : list NzbFile).

(** The counts that do not depend on the files alone. *)
Record accounts (s : Hopeless.Tracked) (h : refused) : Prop := {
  acc_ids : NoDup (file_id <$> t_files s);
  acc_listed id segment : listed (t_files s) id segment ↔ listed fs0 id segment;
  acc_volumes : volumes_ok (volumes (t_files s)) (t_tracker s);
  acc_max n x : slice_size_bound_by_set (t_tracker s) !! n = Some x → (x ≤ slice_size_bound (t_tracker s))%N;
  acc_sets f : f ∈ t_files s → is_par2 f = false →
    content_file_sets (t_tracker s) !! file_id f = Some (associated_set (recovery_set_names fs0) (filename f));
  acc_confirmed id b : confirmed_missing_files (t_tracker s) !! id = Some b →
    ∃ f, f ∈ t_files s ∧ file_id f = id ∧ is_par2 f = false ∧ segments_of h id ≠ [] ∧
         (b ≤ sumN (λ seg, declared_bytes id seg [f]) (segments_of h id))%N;
  acc_unattributed : confirmed_missing_unattributed (t_tracker s) = 0%N;
  acc_lost : (recovery_bytes_unavailable (t_tracker s) ≤ recovery_capacity_bytes (t_tracker s) ≤ u64_max)%N ∧
    (recovery_bytes_unavailable (t_tracker s) = 0 → recovery_blocks_unavailable (t_tracker s) = 0)%N;
}.

(** What reading a file in [new] leaves alone. *)
Record fresh_tracker (t : HopelessTracker) : Prop := {
  fresh_capacity : (recovery_capacity_bytes t ≤ u64_max)%N;
  fresh_confirmed : confirmed_missing_files t = ∅;
  fresh_unattributed : confirmed_missing_unattributed t = 0%N;
  fresh_lost : recovery_bytes_unavailable t = 0%N ∧ recovery_blocks_unavailable t = 0%N;
}.

Lemma new_file_fresh names t f : fresh_tracker t → fresh_tracker (new_file to_lowercase names t f).
Proof.
  intros [H0 H1 H2 [H3 H4]]. unfold new_file. destruct (is_par2 f); [|by split].
  unfold new_par2. destruct (volume_blocks f); [destruct (par2_setname f)|]; split; try done;
    unfold u64_sat_add; simpl; unfold constant; lia.
Qed.

Lemma content_file_sets_new_file names t f id :
  content_file_sets (new_file to_lowercase names t f) !! id =
  if decide (file_id f = id)
  then Some (if is_par2 f then set_of_volume f else associated_set names (filename f))
  else content_file_sets t !! id.
Proof.
  unfold new_file. destruct (is_par2 f).
  - assert (content_file_sets (new_par2 f t) = <[file_id f := set_of_volume f]> (content_file_sets t)) as ->.
    { unfold new_par2, set_of_volume. by destruct (volume_blocks f); [destruct (par2_setname f)|]. }
    case_decide as E; [by rewrite <-E, lookup_insert_eq|by rewrite lookup_insert_ne].
  - simpl. unfold constant. case_decide as E; [by rewrite <-E, lookup_insert_eq|by rewrite lookup_insert_ne].
Qed.

Lemma new_file_volumes names t f vs :
  volumes_ok vs t →
  volumes_ok (match volume_of f with Some v => v :: vs | None => vs end) (new_file to_lowercase names t f).
Proof.
  intros Hv. unfold new_file. destruct (is_par2 f) eqn:Hp; [by apply new_par2_volumes|].
  unfold volume_of. rewrite Hp. eapply volumes_same; [..|exact Hv]; done.
Qed.

Lemma new_fold names fs t pre :
  NoDup (file_id <$> pre ++ fs) → fresh_tracker t → volumes_ok (volumes pre) t →
  (∀ f, f ∈ pre → is_par2 f = false → content_file_sets t !! file_id f = Some (associated_set names (filename f))) →
  let t' := foldl (new_file to_lowercase names) t fs in
  fresh_tracker t' ∧ volumes_ok (volumes (pre ++ fs)) t' ∧
  (∀ f, f ∈ pre ++ fs → is_par2 f = false → content_file_sets t' !! file_id f = Some (associated_set names (filename f))).
Proof.
  revert t pre. induction fs as [|f fs IH]; intros t pre Hnd Ht Hv Hs; simpl; [by rewrite app_nil_r|].
  rewrite (cons_middle f), app_assoc in *. apply IH; [done|by apply new_file_fresh|..].
  - eapply volumes_Permutation; [|by apply new_file_volumes].
    unfold volumes. rewrite omap_app. simpl. destruct (volume_of f); rewrite ?app_nil_r; [|done].
    by rewrite Permutation_app_comm.
  - intros g Hg Hc. rewrite content_file_sets_new_file. rewrite !fmap_app in Hnd.
    apply NoDup_app in Hnd as (Hnd & _ & _). apply NoDup_app in Hnd as (_ & Hne & _).
    apply elem_of_app in Hg as [Hg| ->%list_elem_of_singleton].
    + rewrite decide_False; [by apply Hs|]. intros E.
      apply (Hne (file_id g)); [by apply list_elem_of_fmap_2|]. rewrite <-E. apply list_elem_of_here.
    + rewrite decide_True by done. by rewrite Hc.
Qed.

Lemma foldl_max_ge a l : (a ≤ foldl N.max a l)%N ∧ ∀ x, x ∈ l → (x ≤ foldl N.max a l)%N.
Proof.
  revert a. induction l as [|y l IH]; intros a; simpl; [split; [done|by intros x ?%elem_of_nil]|].
  destruct (IH (N.max a y)) as [H1 H2]. split; [lia|]. intros x [->|Hx]%elem_of_cons; [lia|auto].
Qed.

Lemma new_accounts now :
  NoDup (file_id <$> fs0) → accounts {| t_files := fs0; t_tracker := new to_lowercase now fs0 |} [].
Proof.
  intros Hnd. unfold new.
  destruct (new_fold (recovery_set_names fs0) fs0 (no_tracker now) []) as (Hf & Hv & Hs); [done|by split|..].
  - split; [done|done|by intros n b y ?%elem_of_nil|done|done].
  - by intros f ?%elem_of_nil.
  - set (t := foldl _ _ _) in *. destruct Hf as [H0 H1 H2 [H3 H4]]. simpl in *. unfold constant. split; simpl; try done.
    + eapply volumes_same; [..|exact Hv]; done.
    + intros n x Hx. apply foldl_max_ge. apply list_elem_of_fmap. exists (n, x). split; [done|]. by apply elem_of_map_to_list.
    + intros id b Hb. assert (confirmed_missing_files t !! id = Some b) as Hb' by exact Hb. by rewrite H1 in Hb'.
    + split; [|by intros _]. change (recovery_bytes_unavailable t ≤ recovery_capacity_bytes t ≤ u64_max)%N. rewrite H3. lia.
Qed.

(** Changes that leave the accounts alone. *)
Record same_counts (t t' : HopelessTracker) : Prop := {
  sc_total : recovery_blocks_total t' = recovery_blocks_total t;
  sc_blocks : recovery_blocks_by_set t' = recovery_blocks_by_set t;
  sc_bound : slice_size_bound_by_set t' = slice_size_bound_by_set t;
  sc_max : slice_size_bound t' = slice_size_bound t;
  sc_sets : content_file_sets t' = content_file_sets t;
  sc_confirmed : confirmed_missing_files t' = confirmed_missing_files t;
  sc_unattributed : confirmed_missing_unattributed t' = confirmed_missing_unattributed t;
  sc_lost : recovery_bytes_unavailable t' = recovery_bytes_unavailable t;
  sc_capacity : recovery_capacity_bytes t' = recovery_capacity_bytes t;
  sc_blocks_lost : recovery_blocks_unavailable t' = recovery_blocks_unavailable t;
}.

Lemma accounts_same fs t t' h :
  same_counts t t' → accounts {| t_files := fs; t_tracker := t |} h → accounts {| t_files := fs; t_tracker := t' |} h.
Proof.
  intros [] []. split; simpl in *; try done.
  - by eapply volumes_same; [..|exact acc_volumes0].
  - intros n x. rewrite sc_bound0, sc_max0. apply acc_max0.
  - intros f. rewrite sc_sets0. apply acc_sets0.
  - intros id b. rewrite sc_confirmed0. apply acc_confirmed0.
  - congruence.
  - by rewrite sc_lost0, sc_capacity0, sc_blocks_lost0.
Qed.

Record reclassified (id : string) (sn : option str) (t t' : HopelessTracker) : Prop := {
  re_sets : content_file_sets t' = <[id := to_ascii_lowercase <$> sn]> (content_file_sets t);
  re_confirmed : confirmed_missing_files t' = delete id (confirmed_missing_files t);
  re_unattributed : confirmed_missing_unattributed t' = confirmed_missing_unattributed t;
  re_lost : recovery_bytes_unavailable t' = recovery_bytes_unavailable t;
  re_blocks_lost : recovery_blocks_unavailable t' = recovery_blocks_unavailable t;
  re_capacity : (recovery_capacity_bytes t ≤ u64_max → recovery_capacity_bytes t ≤ recovery_capacity_bytes t' ≤ u64_max)%N;
  re_max : (∀ n x, slice_size_bound_by_set t !! n = Some x → x ≤ slice_size_bound t)%N →
    (∀ n x, slice_size_bound_by_set t' !! n = Some x → x ≤ slice_size_bound t')%N;
}.

Lemma reclassify_spec id fb n v b sn t : reclassified id sn t (reclassify_as_par2 id fb n v b sn t).
Proof.
  unfold reclassify_as_par2. destruct t.
  destruct v as [v|], b as [b|]; simpl; try (split; simpl; unfold constant; done || lia).
  case_decide; simpl; [|split; simpl; unfold constant; done || lia].
  destruct sn as [sn|]; simpl; split; simpl; unfold constant, u64_sat_add; try done; try lia.
  - intros Hm n' x. destruct (decide (to_ascii_lowercase sn = n')) as [<-|Hne].
    + rewrite lookup_insert_eq. intros [= <-]. lia.
    + rewrite lookup_insert_ne by done. intros Hx%Hm. lia.
  - intros Hm n' x Hx%Hm. lia.
Qed.

Lemma reclassify_accounts fs t h id f sn v b :
  find_file id fs = Some f → is_par2 f = false →
  accounts {| t_files := fs; t_tracker := t |} h →
  accounts {| t_files := update_file id (as_par2 sn v b) fs;
              t_tracker := reclassify_as_par2 id (f_bytes f) (length (articles f)) v b sn t |} h.
Proof.
  intros Hf Hc [Hids Hl Hv Hm Hs Hcm Hu [Hlost Hz]]. simpl in *.
  destruct (find_file_Some _ _ _ Hf) as [Hin Hid].
  destruct (update_file_split id (as_par2 sn v b) fs f Hf) as (l1 & l2 & Efs & ->).
  assert (∀ g, g ∈ l1 ++ as_par2 sn v b f :: l2 → is_par2 g = false → g ∈ fs ∧ file_id g ≠ id) as Hkeep.
  { intros g Hg Hgc. rewrite elem_of_app, elem_of_cons in Hg.
    assert (g ∈ l1 ++ l2) as Hg' by (rewrite elem_of_app; destruct Hg as [|[->|]]; auto; done).
    split; [rewrite Efs, elem_of_app, elem_of_cons; rewrite elem_of_app in Hg'; tauto|].
    intros E. rewrite Efs in Hids. rewrite <-Permutation_middle in Hids. apply NoDup_cons in Hids as [Hn _].
    apply Hn. rewrite Hid, <-E. by apply list_elem_of_fmap_2. }
  assert (∀ g, g ∈ fs → file_id g ≠ id → g ∈ l1 ++ as_par2 sn v b f :: l2) as Hkept.
  { intros g Hg Hne. rewrite Efs, elem_of_app, elem_of_cons in Hg. rewrite elem_of_app, elem_of_cons.
    destruct Hg as [|[->|]]; auto; done. }
  pose proof (reclassify_spec id (f_bytes f) (length (articles f)) v b sn t) as Hre.
  split; cbn [t_files t_tracker].
  - rewrite Efs in Hids. by rewrite fmap_app, fmap_cons in *.
  - intros i seg. rewrite <-Hl. unfold listed. split.
    + intros (g & a & Hg & Hgi & Ha & Hn). rewrite elem_of_app, elem_of_cons in Hg.
      destruct Hg as [Hg|[->|Hg]]; [exists g|exists f|exists g]; exists a; rewrite Efs, elem_of_app, elem_of_cons; auto.
    + intros (g & a & Hg & Hgi & Ha & Hn). rewrite Efs, elem_of_app, elem_of_cons in Hg.
      destruct Hg as [Hg|[->|Hg]]; [exists g|exists (as_par2 sn v b f)|exists g]; exists a;
        rewrite elem_of_app, elem_of_cons; auto.
  - eapply volumes_Permutation; [|by apply reclassify_volumes].
    assert (volume_of f = None) as Hvf by (unfold volume_of; by rewrite Hc).
    rewrite Efs. unfold volumes. rewrite !omap_app. cbn [omap list_omap]. rewrite Hvf.
    destruct (volume_of (as_par2 sn v b f)); [|done]. by rewrite Permutation_middle.
  - by apply Hre.
  - intros g Hg Hgc. destruct (Hkeep g Hg Hgc) as [Hgf Hne].
    rewrite (re_sets _ _ _ _ Hre), lookup_insert_ne by done. by apply Hs.
  - intros i x. rewrite (re_confirmed _ _ _ _ Hre). intros [Hne Hx]%lookup_delete_Some.
    destruct (Hcm i x Hx) as (g & Hg & Hgi & Hgc & Hrest). exists g. split; [|done]. apply Hkept; congruence.
  - by rewrite (re_unattributed _ _ _ _ Hre).
  - rewrite (re_lost _ _ _ _ Hre), (re_blocks_lost _ _ _ _ Hre).
    pose proof (re_capacity _ _ _ _ Hre ltac:(lia)). split; [lia|done].
Qed.

Lemma reveal_accounts id n s s' h : accounts s h → reveal to_lowercase id n s = Some s' → accounts s' h.
Proof.
  destruct s as [fs t]. unfold reveal. cbv zeta. intros Hacc.
  set (s1 := if negb _ && _ then _ else _).
  assert (t_files s1 = fs ∧ accounts s1 h) as [Efs Hacc1].
  { unfold s1. destruct (negb _ && _); [|done]. split; [done|].
    eapply accounts_same; [|exact Hacc]. destruct t. by split. }
  clearbody s1. destruct s1 as [fs1 t1]. simpl in *. subst fs1.
  destruct (find_file id fs) as [f|] eqn:Hf; [|by intros [= <-]].
  destruct (_ && negb (is_par2 f)) eqn:Hr; [|by intros [= <-]].
  apply andb_true_iff in Hr as [_ Hc%negb_true_iff].
  intros ([[sn v] b] & _ & Hs)%bind_Some. injection Hs as <-. by apply reclassify_accounts.
Qed.

Lemma complete_accounts now id n s s' h :
  accounts s h → on_article_complete to_lowercase now id n s = Some s' → accounts s' h.
Proof.
  intros Hacc. unfold on_article_complete. intros (s1 & H1 & Hs)%bind_Some. injection Hs as <-.
  assert (accounts s1 h) as Hacc1 by (destruct n; [by eapply reveal_accounts|by injection H1 as <-]).
  destruct s1 as [fs t]. eapply accounts_same; [|exact Hacc1]. destruct t. by split.
Qed.

(** A failure of a PAR2 article takes off recovery data only. *)
Record par2_failed (t t' : HopelessTracker) : Prop := {
  pf_same : same_counts (t <| recovery_bytes_unavailable := recovery_bytes_unavailable t' |>
                           <| recovery_blocks_unavailable := recovery_blocks_unavailable t' |>) t';
  pf_lost : (recovery_bytes_unavailable t ≤ recovery_capacity_bytes t ≤ u64_max →
    recovery_bytes_unavailable t ≤ recovery_bytes_unavailable t' ≤ recovery_capacity_bytes t)%N;
  pf_zero : recovery_bytes_unavailable t' = 0%N →
    recovery_blocks_unavailable t' = 0%N ∨ recovery_blocks_unavailable t' = recovery_blocks_unavailable t;
}.

Lemma record_par2_failure_spec id bytes t : par2_failed t (record_par2_failure id bytes t).
Proof.
  assert (∀ c, div_ceil 0 c = 0)%N as Hd.
  { intros c. unfold div_ceil. rewrite N.Div0.mod_0_l, decide_True by done. by rewrite N.Div0.div_0_l. }
  unfold record_par2_failure. destruct t. simpl. unfold constant, u64_sat_add.
  case_decide; simpl; unfold constant; destruct (set_of_file _ _); simpl; unfold constant;
    (split; [by split|simpl; unfold constant; lia|simpl; unfold constant; intros E]);
    rewrite ?E; auto; left; rewrite N.mul_0_l, Hd; lia.
Qed.

Lemma par2_failure_accounts fs t h id bytes :
  accounts {| t_files := fs; t_tracker := t |} h →
  accounts {| t_files := fs; t_tracker := record_par2_failure id bytes t |} h.
Proof.
  intros Hacc. destruct (record_par2_failure_spec id bytes t) as [Hs Hl Hz].
  generalize dependent (record_par2_failure id bytes t). intros t' Hs Hl Hz. destruct t.
  eapply accounts_same; [exact Hs|].
  destruct Hacc as [Hids Hli Hv Hm Hsets Hcm Hu [Hlost Hzero]]. simpl in *. specialize (Hl Hlost).
  split; simpl; unfold constant; try done.
  - by eapply volumes_same; [..|exact Hv].
  - split; [lia|]. intros E. destruct (Hz E) as [|Hb]; [done|]. rewrite Hb. apply Hzero. lia.
Qed.

(** A failure of a content article. *)
Lemma content_failure_spec now id bytes kind t :
  let t' := record_file_failure now (Some id) false bytes kind t in
  same_counts (t <| confirmed_missing_files := confirmed_missing_files t' |>) t' ∧
  confirmed_missing_files t' =
    if decide (kind = NotFound) then add_to id bytes (confirmed_missing_files t) else confirmed_missing_files t.
Proof.
  unfold record_file_failure. destruct t. simpl. unfold constant.
  case_decide; simpl; unfold constant; destruct (counts_toward_hopeless kind); simpl; unfold constant;
    try (destruct (mjoin _); simpl; unfold constant); (split; [by split|done]).
Qed.

Lemma refused_segments_of h e id :
  segments_of (h ++ refused_by e) id =
  segments_of h id ++ match e with Failed _ id' seg NotFound => if decide (id' = id) then [seg] else [] | _ => [] end.
Proof.
  rewrite segments_of_app. f_equal. destruct e as [|now id' seg []]; try done. simpl.
  unfold segments_of.
  case_decide; [by rewrite filter_cons_True|by rewrite filter_cons_False].
Qed.

Lemma accounts_more s h h' :
  (∀ id, ∃ l, segments_of h' id = segments_of h id ++ l) → accounts s h → accounts s h'.
Proof.
  intros Hh []. split; try done. intros id b Hb. destruct (acc_confirmed0 id b Hb) as (f & Hf & Hid & Hc & Hne & Hle).
  destruct (Hh id) as [l El]. exists f. rewrite El, sumN_app. repeat split; try done; [|lia].
  by destruct (segments_of h id).
Qed.

Lemma failed_accounts now id seg kind s h :
  listed fs0 id seg → accounts s h →
  accounts (on_article_failed now id seg kind s) (h ++ refused_by (Failed now id seg kind)).
Proof.
  destruct s as [fs t]. intros Hli Hacc.
  pose proof (accounts_more _ h (h ++ refused_by (Failed now id seg kind))
    ltac:(intros i; rewrite refused_segments_of; eauto) Hacc) as Hacc'.
  unfold on_article_failed. cbn [t_files t_tracker].
  apply (acc_listed _ _ Hacc) in Hli as (f & a & Hf & Hid & Ha & Hn). cbn [t_files] in *.
  pose proof (find_file_elem fs f (acc_ids _ _ Hacc) Hf) as Hff. rewrite Hid in Hff.
  unfold file_is_par2. rewrite Hff. destruct (is_par2 f) eqn:Hp.
  - unfold record_file_failure. apply par2_failure_accounts.
    eapply accounts_same; [|exact Hacc']. destruct t. by split.
  - destruct (content_failure_spec now id (declared_bytes id seg fs) kind t) as [Hs Hcf].
    eapply accounts_same; [exact Hs|]. clear Hs. rewrite Hcf. clear Hcf.
    destruct Hacc as [Hids Hli' Hv Hm Hsets Hcm Hu Hlost]. destruct Hacc' as [_ _ _ _ _ Hcm' _ _].
    cbn [t_files t_tracker] in *. split; simpl; unfold constant; try done.
    { by eapply volumes_same; [..|exact Hv]. }
    intros i b. case_decide as Hk; [|apply Hcm'].
    unfold add_to. destruct (decide (id = i)) as [<-|Hne]; [|rewrite lookup_insert_ne by done; apply Hcm'].
    rewrite lookup_insert_eq. intros [= <-]. exists f. repeat split; try done.
    + pose proof (refused_segments_of h (Failed now id seg kind) id) as E. subst kind. simpl in *. rewrite E.
      rewrite decide_True by done. by destruct (segments_of h id).
    + pose proof (refused_segments_of h (Failed now id seg kind) id) as E. subst kind. simpl in *. rewrite E.
      rewrite decide_True by done. rewrite sumN_app. cbn [sumN].
      rewrite <-(declared_bytes_file id seg fs f Hff).
      assert (default 0 (confirmed_missing_files t !! id) ≤ sumN (λ seg0, declared_bytes id seg0 [f]) (segments_of h id))%N as Hle.
      { destruct (confirmed_missing_files t !! id) as [b|] eqn:Eb; simpl; [|lia].
        destruct (Hcm id b Eb) as (g & Hg & Hgid & _ & _ & Hle).
        assert (g = f) as ->; [|done].
        pose proof (find_file_elem fs g Hids Hg) as Hgf. rewrite Hgid in Hgf. congruence. }
      unfold u64_add. etrans; [apply N.Div0.mod_le|]. lia.
Qed.

Lemma run_accounts es s s' h :
  Forall (event_listed fs0) es → accounts s h → run_events es s = Some s' →
  accounts s' (h ++ (es ≫= refused_by)).
Proof.
  intros Hes. revert s h. induction Hes as [|e es He _ IH]; intros s h Hacc.
  - intros [= <-]. simpl. by rewrite app_nil_r.
  - simpl. intros (s1 & H1 & Hr)%bind_Some. rewrite app_assoc. apply (IH s1); [|done].
    destruct e as [now id n|now id seg kind]; simpl in H1.
    + simpl. rewrite app_nil_r. by eapply complete_accounts.
    + injection H1 as <-. by apply failed_accounts.
Qed.

(** Each file counted once, however the counts are keyed. *)
Lemma sumN_files (g : string → N) (G : NzbFile → N) ids fs :
  NoDup ids → (∀ id, id ∈ ids → ∃ f, f ∈ fs ∧ file_id f = id ∧ (g id ≤ G f)%N) →
  (sumN g ids ≤ sumN G fs)%N.
Proof.
  intros Hnd Hids. trans (sumN (λ id, sumN (λ f, if decide (file_id f = id) then G f else 0%N) fs) ids).
  - apply sumN_le. intros id Hid. destruct (Hids id Hid) as (f & Hf & Hfi & Hle).
    etrans; [exact Hle|]. etrans; [|by apply (sumN_elem (λ f, if decide (file_id f = id) then G f else 0%N) fs f)].
    by rewrite decide_True.
  - rewrite sumN_groups by done. apply sumN_le. intros f _. case_decide; lia.
Qed.

Lemma set_blocks_volumes n fs : set_blocks n (volumes fs) = set_recovery fs n.
Proof.
  unfold set_blocks, set_recovery, volumes. induction fs as [|f fs IH]; [done|].
  cbn [omap list_omap sumN]. rewrite <-IH. unfold volume_of, blocks_of. destruct (is_par2 f); simpl.
  - destruct (volume_blocks f); simpl; [done|]. case_decide; done.
  - case_decide; done.
Qed.

Lemma total_blocks_volumes fs : sumN (λ v, v.1.2) (volumes fs) = sumN blocks_of fs.
Proof.
  unfold volumes. induction fs as [|f fs IH]; [done|].
  cbn [omap list_omap sumN]. rewrite <-IH. unfold volume_of, blocks_of. destruct (is_par2 f); simpl; [|done].
  by destruct (volume_blocks f).
Qed.

Lemma set_recovery_le fs n : (set_recovery fs n ≤ sumN blocks_of fs)%N.
Proof. apply sumN_le. intros f _. case_decide; lia. Qed.

Lemma find_map_Some {A B} (g : A → option B) l b : find_map g l = Some b → ∃ x, g x = Some b.
Proof. induction l as [|x l IH]; simpl; [done|]. destruct (g x) eqn:E; [intros [= <-]; eauto|auto]. Qed.

Lemma get_foldl_add_damage t n l m :
  (get_or_0 n (foldl (add_damage t) m l) ≤
   get_or_0 n m +
   sumN (λ kv, if decide (mjoin (content_file_sets t !! kv.1) = Some n)
               then match slice_size_bound_by_set t !! n with
                    | Some bound => file_damaged_slices kv.2 bound | None => 0%N end
               else 0%N) l)%N.
Proof.
  revert m. induction l as [|kv l IH]; intros m; cbn [foldl sumN]; [lia|].
  etrans; [apply IH|]. clear IH. rewrite N.add_assoc. apply N.add_le_mono_r.
  unfold add_damage. destruct (mjoin (content_file_sets t !! kv.1)) as [s|] eqn:Es; [|rewrite decide_False; [lia|congruence]].
  destruct (decide (Some s = Some n)) as [[= ->]|Hne].
  - destruct (slice_size_bound_by_set t !! n); [|lia]. rewrite get_add_to, decide_True by done.
    unfold u64_add. apply N.Div0.mod_le.
  - destruct (slice_size_bound_by_set t !! s); [|lia]. rewrite get_add_to, decide_False by congruence. lia.
Qed.

(** ** The verdict *)
Section verdict.
Context (r : Release) (s : Hopeless.Tracked) (h : refused).
Context (Hacc : accounts s h) (Hr : release_ok r (recovery_set_names fs0) (t_files s)).
Context (Hh : NoDup h) (Hlisted : ∀ id seg, (id, seg) ∈ h → listed fs0 id seg).
Context (Hrep : repairable r (t_files s) h).

Lemma segments_NoDup id : NoDup (segments_of h id).
Proof.
  unfold segments_of. apply NoDup_fmap_2_strong; [|by apply NoDup_filter].
  intros [i x] [j y] [Hi _]%list_elem_of_filter [Hj _]%list_elem_of_filter. simpl in *. congruence.
Qed.

Lemma segments_listed f seg : f ∈ t_files s → seg ∈ segments_of h (file_id f) → ∃ a, a ∈ articles f ∧ segment_number a = seg.
Proof.
  intros Hf ([i x] & -> & [Hi Hx]%list_elem_of_filter)%list_elem_of_fmap. simpl in *. subst i.
  apply Hlisted, (acc_listed _ _ Hacc) in Hx as (g & a & Hg & Hgi & Ha & Hn). exists a. split; [|done].
  pose proof (find_file_elem _ _ (acc_ids _ _ Hacc) Hf) as H1.
  pose proof (find_file_elem _ _ (acc_ids _ _ Hacc) Hg) as H2. rewrite Hgi, H1 in H2. congruence.
Qed.

(** A counted file is a content file, and each bound of its slices counts no
    more than its damage. *)
Lemma confirmed_file id b :
  confirmed_missing_files (t_tracker s) !! id = Some b →
  ∃ f, f ∈ t_files s ∧ file_id f = id ∧ is_par2 f = false ∧
    ∀ bound, (slice r (protects r id) ≤ bound)%N → (file_damaged_slices b bound ≤ damaged_slices r h id)%N.
Proof.
  intros Hb. destruct (acc_confirmed _ _ Hacc id b Hb) as (f & Hf & <- & Hc & Hne & Hle). exists f.
  split; [done|]. split; [done|]. split; [done|]. intros bound Hbd.
  eapply counted_are_damaged; [exact Hr|done|done|apply segments_NoDup| |done|done|done].
  intros seg. by apply segments_listed.
Qed.

Lemma damaged_le_set f :
  f ∈ t_files s → is_par2 f = false →
  (damaged_slices r h (file_id f) ≤ set_damage r (t_files s) h (protects r (file_id f)))%N.
Proof.
  intros Hf Hc.
  etrans; [|by apply (sumN_elem (λ f0, if decide (is_par2 f0 = false ∧ protects r (file_id f0) = protects r (file_id f))
              then damaged_slices r h (file_id f0) else 0%N) _ f)].
  by rewrite decide_True.
Qed.

(** The bound of a set that declares volumes is no smaller than its slices. *)
Lemma bound_of_set n x : slice_size_bound_by_set (t_tracker s) !! n = Some x →
  (∃ f b, f ∈ t_files s ∧ volume_of f = Some (Some n, b, f_bytes f)) → (slice r n ≤ x)%N.
Proof.
  assert (∀ b y, (Some n, b, y) ∈ volumes (t_files s) → (0 < b ∧ b * slice r n ≤ y ∧ y ≤ u64_max)%N) as Hvol.
  { intros b y (f & Hf & Hv)%list_elem_of_omap. unfold volume_of in Hv. destruct (is_par2 f) eqn:Hp; [|done].
    apply bind_Some in Hv as (b' & Hb & [= Hsv <- <-]).
    destruct (volume_carries _ _ _ Hr f b' Hf Hp Hb) as (s' & Hs' & Hle).
    assert (s' = n) as -> by congruence. split; [|split; [done|by apply (sizes_fit _ _ _ Hr)]].
    unfold volume_blocks in Hb. destruct (par2_vol f), (par2_blocks f); try done. case_decide; [congruence|done]. }
  intros Hx (f & b & Hf & Hv).
  assert ((Some n, b, f_bytes f) ∈ volumes (t_files s)) as Hin by (apply list_elem_of_omap; eauto).
  eapply (v_bound_ge _ _ (acc_volumes _ _ Hacc)); [exact Hx|..].
  - destruct (Hvol _ _ Hin) as (? & ? & ?). nia.
  - intros b' y Hin'. destruct (Hvol _ _ Hin') as (? & ? & ?). by apply div_ceil_ge.
Qed.

(** A damaged file's set has recovery slices, as it is repairable. *)
Lemma job_bound id b :
  confirmed_missing_files (t_tracker s) !! id = Some b →
  (file_damaged_slices b (slice_size_bound (t_tracker s)) ≤ damaged_slices r h id)%N.
Proof.
  intros Hb. destruct (confirmed_file id b Hb) as (f & Hf & <- & Hc & Hbd).
  apply Hbd. set (n := protects r (file_id f)).
  assert (1 ≤ damaged_slices r h (file_id f))%N as Hone.
  { specialize (Hbd _ (N.le_refl _)). unfold file_damaged_slices in Hbd. case_decide; [done|]. lia. }
  pose proof (damaged_le_set f Hf Hc) as Hle. fold n in Hle. pose proof (Hrep n) as Hn.
  assert (∃ g, g ∈ t_files s ∧ set_of_volume g = Some n ∧ (0 < blocks_of g)%N) as (g & Hg & Hgs & Hgb).
  { assert (0 < set_recovery (t_files s) n)%N as Hpos by lia. revert Hpos. clear.
    unfold set_recovery. induction (t_files s) as [|g fs IH]; cbn [sumN]; [lia|]. intros Hpos.
    case_decide as Hg.
    - destruct (decide (0 < blocks_of g)%N) as [|]; [exists g; split; [left|done]|].
      destruct IH as (g' & ? & ?); [lia|]. exists g'. split; [by right|done].
    - destruct IH as (g' & ? & ?); [lia|]. exists g'. split; [by right|done]. }
  unfold blocks_of in Hgb. destruct (is_par2 g) eqn:Hp; [|done].
  destruct (volume_blocks g) as [b'|] eqn:Hvb; [|done].
  assert (volume_of g = Some (Some n, b', f_bytes g)) as Hv by (unfold volume_of; rewrite Hp, Hvb; simpl; by rewrite Hgs).
  assert ((Some n, b', f_bytes g) ∈ volumes (t_files s)) as Hin by (apply list_elem_of_omap; eauto).
  destruct (v_bound _ _ (acc_volumes _ _ Hacc) n b' (f_bytes g) Hin) as [x Hx].
  etrans; [|by eapply (acc_max _ _ Hacc)]. eapply bound_of_set; eauto.
Qed.

Lemma job_damage_bounded :
  (damaged_slices_lower_bound (t_tracker s) ≤ sumN blocks_of (t_files s))%N.
Proof.
  unfold damaged_slices_lower_bound. rewrite (acc_unattributed _ _ Hacc). rewrite decide_False by lia.
  etrans; [apply sum_u64_le|]. rewrite sumN_fmap.
  trans (sumN (λ f, if is_par2 f then 0%N else damaged_slices r h (file_id f)) (t_files s)).
  - trans (sumN (damaged_slices r h) (fst <$> map_to_list (confirmed_missing_files (t_tracker s)))).
    + rewrite sumN_fmap. apply sumN_le. intros [id b] Hin%elem_of_map_to_list. by apply job_bound.
    + apply sumN_files; [apply NoDup_fst_map_to_list|].
      intros id ([id' b] & -> & Hin%elem_of_map_to_list)%list_elem_of_fmap.
      destruct (confirmed_file id' b Hin) as (f & Hf & Hid & Hc & _). exists f.
      rewrite Hc, Hid. split; [done|]. split; [done|]. done.
  - set (ks := remove_dups (protects r ∘ file_id <$> t_files s)).
    trans (sumN (set_damage r (t_files s) h) ks).
    + unfold set_damage. rewrite (sumN_ext _ (λ k, sumN (λ f, if decide (protects r (file_id f) = k)
          then (if is_par2 f then 0 else damaged_slices r h (file_id f)) else 0)%N (t_files s))).
      * rewrite sumN_groups by apply NoDup_remove_dups. apply sumN_le. intros f Hf.
        rewrite decide_True; [done|]. apply elem_of_remove_dups, list_elem_of_fmap. by exists f.
      * intros k _. apply sumN_ext. intros f _. destruct (is_par2 f); repeat case_decide; naive_solver.
    + trans (sumN (set_recovery (t_files s)) ks); [by apply sumN_le|].
      unfold set_recovery. trans (sumN (λ k, sumN (λ f, if decide (set_of_volume f = k) then blocks_of f else 0%N) (t_files s)) (Some <$> ks)).
      * rewrite sumN_fmap. done.
      * rewrite sumN_groups by (apply NoDup_fmap_2; [apply _|apply NoDup_remove_dups]).
        apply sumN_le. intros f _. case_decide; lia.
Qed.

Lemma set_damage_bounded n :
  (get_or_0 n (damaged_by_set (t_tracker s)) ≤ set_recovery (t_files s) n)%N.
Proof.
  etrans; [|apply Hrep]. etrans; [apply get_foldl_add_damage|].
  unfold get_or_0 at 1. rewrite lookup_empty. simpl. rewrite N.add_0_l.
  trans (sumN (λ id, if decide (protects r id = n) then damaged_slices r h id else 0%N)
           (fst <$> map_to_list (confirmed_missing_files (t_tracker s)))).
  - rewrite sumN_fmap. apply sumN_le. intros [id b] Hin%elem_of_map_to_list. simpl.
    destruct (confirmed_file id b Hin) as (f & Hf & <- & Hc & Hbd).
    rewrite (acc_sets _ _ Hacc f Hf Hc). case_decide as Hset; [|lia]. simpl in Hset.
    pose proof (names_attribute _ _ _ Hr f n Hf Hc Hset) as Hp. rewrite decide_True by done.
    destruct (slice_size_bound_by_set (t_tracker s) !! n) as [x|] eqn:Hx; [|lia].
    apply Hbd. rewrite Hp. destruct (v_bound_of _ _ (acc_volumes _ _ Hacc) n x Hx) as (b' & y & Hin').
    pose proof Hin' as (g & Hg & Hv)%list_elem_of_omap.
    assert (y = f_bytes g) as ->; [|by eapply bound_of_set; eauto].
    unfold volume_of in Hv. destruct (is_par2 g); [|done]. apply bind_Some in Hv as (b'' & _ & [= _ _ <-]). done.
  - apply sumN_files; [apply NoDup_fst_map_to_list|].
    intros id ([id' b] & -> & Hin%elem_of_map_to_list)%list_elem_of_fmap.
    destruct (confirmed_file id' b Hin) as (f & Hf & Hid & Hc & _). exists f. rewrite Hid.
    split; [done|]. split; [done|]. simpl. repeat case_decide; tauto || lia.
Qed.
Lemma all_blocks_available :
  recovery_bytes_unavailable (t_tracker s) = 0%N →
  (sumN blocks_of (t_files s) ≤ recovery_blocks_available (t_tracker s))%N.
Proof.
  intros Hz. destruct (acc_lost _ _ Hacc) as [_ Hb]. unfold recovery_blocks_available.
  rewrite (Hb Hz), (v_total _ _ (acc_volumes _ _ Hacc)), total_blocks_volumes.
  pose proof (blocks_fit _ _ _ Hr). lia.
Qed.

Lemma set_blocks_available n :
  recovery_unavailable_by_set (t_tracker s) = ∅ →
  set_recovery_blocks_available n (t_tracker s) = set_recovery (t_files s) n.
Proof.
  intros Hz. unfold set_recovery_blocks_available. rewrite Hz.
  rewrite (v_by_set _ _ (acc_volumes _ _ Hacc)), set_blocks_volumes.
  pose proof (set_recovery_le (t_files s) n) as Hle. pose proof (blocks_fit _ _ _ Hr) as Hfit.
  unfold u64_max in Hfit. rewrite N.mod_small by lia.
  assert (∀ c, div_ceil 0 c = 0)%N as Hd.
  { intros c. unfold div_ceil. rewrite N.Div0.mod_0_l, decide_True by done. by rewrite N.Div0.div_0_l. }
  assert (get_or_0 n ∅ = 0%N) as -> by (unfold get_or_0; by rewrite lookup_empty).
  rewrite N.min_0_l, N.mul_0_l, Hd.
  change (0 mod 2 ^ 64)%N with 0%N. case_decide; lia.
Qed.

Lemma parity_silent :
  recovery_bytes_unavailable (t_tracker s) = 0%N → recovery_unavailable_by_set (t_tracker s) = ∅ →
  parity_check (t_tracker s) = None.
Proof.
  intros Hz Hzs. unfold parity_check. destruct (negb _); [done|].
  pose proof (all_blocks_available Hz) as Ha. pose proof job_damage_bounded as Hd.
  rewrite decide_False by lia.
  destruct (find_map _ _) as [a|] eqn:E; [|done]. apply find_map_Some in E as [n E].
  rewrite set_blocks_available in E by done. pose proof (set_damage_bounded n).
  rewrite decide_False in E by lia. done.
Qed.
End verdict.

(** ** What no failed PAR2 article leaves *)
Definition lost_nothing (t : HopelessTracker) : Prop :=
  recovery_bytes_unavailable t = 0%N ∧ recovery_unavailable_by_set t = ∅.

(** No article of a file that turns out to be PAR2 data failed. *)
Definition event_content (fs : list NzbFile) (e : TrackerEvent) : Prop :=
  match e with Failed _ id _ _ => file_is_par2 id fs = false | _ => True end.

Lemma file_is_par2_update id' id sn v b fs :
  file_is_par2 id' fs = true → file_is_par2 id' (update_file id (as_par2 sn v b) fs) = true.
Proof.
  unfold file_is_par2. induction fs as [|f fs IH]; [done|]. simpl update_file. rewrite find_file_cons.
  case_decide as E; case_decide as E'; rewrite find_file_cons; simpl;
    rewrite ?(decide_True _ _ E), ?(decide_False _ _ E); auto.
Qed.

Lemma reveal_keeps id n s s' :
  reveal to_lowercase id n s = Some s' →
  (∀ id', file_is_par2 id' (t_files s) = true → file_is_par2 id' (t_files s') = true) ∧
  (lost_nothing (t_tracker s) → lost_nothing (t_tracker s')).
Proof.
  destruct s as [fs t]. unfold reveal. cbv zeta. set (s1 := if negb _ && _ then _ else _).
  assert (t_files s1 = fs ∧ (lost_nothing t → lost_nothing (t_tracker s1))) as [Efs H1]
    by (unfold s1; destruct (negb _ && _); [destruct t|]; done).
  clearbody s1. destruct s1 as [fs1 t1]. simpl in *. subst fs1.
  destruct (find_file id fs) as [f|]; [|by intros [= <-]].
  destruct (_ && negb (is_par2 f)); [|by intros [= <-]].
  intros ([[sn v] b] & _ & Hs)%bind_Some. injection Hs as <-. simpl. split.
  - intros id'. apply file_is_par2_update.
  - intros Hl%H1. unfold reclassify_as_par2. destruct t1.
    destruct v as [v|], b as [b|]; simpl; try done. case_decide; [|done]. by destruct sn.
Qed.

Lemma event_keeps e s s' :
  on_event e s = Some s' →
  (∀ id, file_is_par2 id (t_files s) = true → file_is_par2 id (t_files s') = true) ∧
  (event_content (t_files s') e → lost_nothing (t_tracker s) → lost_nothing (t_tracker s')).
Proof.
  destruct e as [now id n|now id seg kind]; simpl.
  - unfold on_article_complete. intros (s1 & H1 & Hs)%bind_Some. injection Hs as <-. simpl.
    assert ((∀ id', file_is_par2 id' (t_files s) = true → file_is_par2 id' (t_files s1) = true) ∧
            (lost_nothing (t_tracker s) → lost_nothing (t_tracker s1))) as [? Hl]
      by (destruct n; [by eapply reveal_keeps|injection H1 as <-; auto]).
    split; [done|]. intros _ Hn%Hl. destruct (t_tracker s1). done.
  - intros [= <-]. split; [done|]. simpl. intros ->. destruct (t_tracker s). unfold record_file_failure.
    simpl. case_decide; simpl; (destruct (counts_toward_hopeless kind); [|done]); simpl; by destruct (mjoin _).
Qed.

Lemma run_keeps es s s' :
  run_events es s = Some s' →
  (∀ id, file_is_par2 id (t_files s) = true → file_is_par2 id (t_files s') = true) ∧
  (Forall (event_content (t_files s')) es → lost_nothing (t_tracker s) → lost_nothing (t_tracker s')).
Proof.
  revert s. induction es as [|e es IH]; intros s; simpl; [by intros [= <-]|].
  intros (s1 & H1%event_keeps & Hr)%bind_Some. destruct H1 as [Hp1 Hl1]. destruct (IH _ Hr) as [Hp2 Hl2].
  split; [auto|]. intros [He Hes]%Forall_cons Hl. apply Hl2, Hl1; [done| |done].
  destruct e as [|now id seg kind]; [done|]. simpl in *.
  destruct (file_is_par2 id (t_files s1)) eqn:E; [|done]. rewrite (Hp2 _ E) in He. done.
Qed.

Lemma new_lost_nothing now : lost_nothing (t_tracker {| t_files := fs0; t_tracker := new to_lowercase now fs0 |}).
Proof.
  unfold new. cbn [t_tracker].
  assert (∀ names fs t, lost_nothing t → lost_nothing (foldl (new_file to_lowercase names) t fs)) as H.
  { intros names fs. induction fs as [|f fs IH]; intros t Ht; [done|]. simpl. apply IH.
    unfold new_file. destruct (is_par2 f); [|by destruct t].
    unfold new_par2. destruct t, (volume_blocks f); [destruct (par2_setname f)|]; done. }
  specialize (H (recovery_set_names fs0) fs0 (no_tracker now)). destruct (foldl _ _ _). by apply H.
Qed.
End runs.

Lemma check_parity early pct t a :
  check true early pct t = Some a → tier a = "parity"%string → parity_check t ≠ None.
Proof.
  unfold check. cbn [negb]. intros Hc Ht Hp.
  replace (if has_par2_set t && bool_decide (pending_file_classifications t = ∅) then parity_check t else None)
    with (@None HopelessAbort) in Hc by (by destruct (_ && _)).
  destruct (has_par2_set t && recovery_blocks_known t); [done|]. case_decide; [done|].
  destruct (negb _); [done|].
  destruct (if early && _ then _ else _) as [b|] eqn:E.
  - destruct (early && _); [|done]. unfold early_failure in E. destruct (_ && _); [|done].
    injection E as <-. injection Hc as <-. done.
  - destruct (negb _).
    + case_decide; [done|]. apply find_map_Some in Hc as [n Hc]. unfold set_availability in Hc.
      case_decide; [done|]. case_decide; [|done]. by injection Hc as <-.
    + case_decide; [done|]. case_decide; [|done]. by injection Hc as <-.
Qed.

(** C7. A job given up by the parity tier cannot be repaired: whatever names
    the articles' yEnc headers reveal, in whatever order articles arrive and
    fail, some recovery set then has more damaged slices than recovery slices.
    For a release as posted ([release_ok]): an article decodes to at least
    100/103 of the size the NZB declares for it, the articles of a file do not
    overlap, a volume carries its recovery slices whole, and a content file is
    protected by the set its name is taken to belong to, which is the only set of
    the job when there is one ([unprotected_file_gives_up] has a file no set
    protects). And for a run in which no failed article belongs to a PAR2 file
    ([index_failure_gives_up]) and no article is refused twice. *)
Theorem parity_abort_means_unrepairable (to_lowercase : str → str) now fs es s r early pct a :
  NoDup (file_id <$> fs) →
  run_events to_lowercase es {| t_files := fs; t_tracker := new to_lowercase now fs |} = Some s →
  Forall (event_listed fs) es → Forall (event_content (t_files s)) es → NoDup (es ≫= refused_by) →
  release_ok r (recovery_set_names fs) (t_files s) →
  check true early pct (t_tracker s) = Some a → tier a = "parity"%string →
  ¬ repairable r (t_files s) (es ≫= refused_by).
Proof.
  intros Hids Hrun Hli Hc Hnd Hr Hcheck Ha Hrep.
  pose proof (run_accounts to_lowercase fs es _ s [] Hli (new_accounts to_lowercase fs now Hids) Hrun) as Hacc.
  destruct (run_keeps to_lowercase _ _ _ Hrun) as [_ Hlost].
  destruct (Hlost Hc (new_lost_nothing to_lowercase fs now)) as [Hz Hzs].
  apply (check_parity _ _ _ _ Hcheck Ha).
  eapply (parity_silent to_lowercase fs r s (es ≫= refused_by)); try done.
  intros id seg Hin. apply list_elem_of_bind in Hin as (e & Hin & He).
  rewrite Forall_forall in Hli. specialize (Hli e He). destruct e as [|? ? ? []]; try by apply elem_of_nil in Hin.
  apply list_elem_of_singleton in Hin as [= -> ->]. done.
Qed.

(** ** A release of one file and one volume *)
Module Examples.
Definition article (n bytes : N) : Article :=
  {| message_id := []; segment_number := n; a_bytes := bytes; downloaded := false; data_begin := None;
     data_size := None; crc32 := None; tried_servers := []; tries := 0 |}.

Definition content (id : string) (name : string) (ns : list N) : NzbFile :=
  {| file_id := id; filename := lit name; f_bytes := 1030 * N.of_nat (length ns); bytes_downloaded := 0;
     is_par2 := false; par2_setname := None; par2_vol := None; par2_blocks := None; assembled := false;
     groups := []; articles := (λ n, article n 1030) <$> ns |}.

Definition volume (id set : string) (vol blocks : option N) (bytes : N) : NzbFile :=
  {| file_id := id; filename := lit (set +:+ ".par2"); f_bytes := bytes; bytes_downloaded := 0;
     is_par2 := true; par2_setname := Some (lit set); par2_vol := vol; par2_blocks := blocks;
     assembled := false; groups := []; articles := [article 1 bytes] |}.

(** One video of three articles, of a slice each, and one recovery slice. *)
Definition job : list NzbFile := [content "f" "a.mkv" [1; 2; 3]%N; volume "v" "a" (Some 0%N) (Some 1%N) 1100].
Definition posted : Release :=
  {| protects := λ _, lit "a"; slice := λ _, 1000%N; place := λ _ n, ((n - 1) * 1000, 1000)%N |}.

(** Two of its articles are refused by every server. *)
Definition losses : list TrackerEvent := [Failed 1 "f" 1 NotFound; Failed 2 "f" 3 NotFound].

Definition finish (es : list TrackerEvent) (fs : list NzbFile) : Hopeless.Tracked :=
  default {| t_files := fs; t_tracker := new to_ascii_lowercase 0 fs |}
    (run_events to_ascii_lowercase es {| t_files := fs; t_tracker := new to_ascii_lowercase 0 fs |}).

Lemma job_posted : release_ok posted (recovery_set_names job) job.
Proof.
  split.
  - done.
  - intros f a [->|[->|?%elem_of_nil]%elem_of_cons]%elem_of_cons Hp Ha; try done.
    apply list_elem_of_fmap in Ha as (n & -> & Hn). done.
  - intros f a a' Hf _ Ha Ha' Hne. apply elem_of_disjoint. intros n.
    rewrite !elem_of_byte_range. simpl.
    assert (∀ x, x ∈ articles f → (1 ≤ segment_number x)%N) as H1; [|pose proof (H1 _ Ha); pose proof (H1 _ Ha'); lia].
    apply elem_of_cons in Hf as [->|[->|?%elem_of_nil]%elem_of_cons]; [| |done];
      apply Forall_forall; repeat constructor; done.
  - intros f b [->|[->|?%elem_of_nil]%elem_of_cons]%elem_of_cons Hp Hb; try done.
    injection Hb as <-. exists (lit "a"). by split.
  - intros f s [->|[->|?%elem_of_nil]%elem_of_cons]%elem_of_cons Hp Hs; try done.
    vm_compute in Hs. injection Hs as <-. by vm_compute.
  - apply Forall_forall. repeat constructor; done.
  - done.
Qed.

(** Two damaged slices and one recovery slice: the job is given up. *)
Example two_losses : check true true (f64_of_N 100) (t_tracker (finish losses job)) = Some (ParityAbort None 2 1).
Proof. vm_compute. reflexivity. Qed.

(** One damaged slice is left to the repair. *)
Example one_loss : check true true (f64_of_N 100) (t_tracker (finish (take 1 losses) job)) = None.
Proof. vm_compute. reflexivity. Qed.

(** A PAR2 index carries no recovery slice, yet one of its articles that one
    server was too busy to serve takes the only recovery slice off the count:
    the job is given up, though it can be repaired. *)
Definition indexed : list NzbFile := job ++ [volume "i" "a" None None 400].
Example index_failure_gives_up :
  check true true (f64_of_N 100) (t_tracker (finish [Failed 1 "f" 1 NotFound; Failed 2 "i" 1 ServerDown] indexed)) =
    Some (ParityAbort None 1 0) ∧
  set_damage posted indexed [("f"%string, 1%N)] (lit "a") = 1%N ∧ set_recovery indexed (lit "a") = 1%N.
Proof. vm_compute. done. Qed.

(** With one set, every content file is taken to be protected by it: a text file
    that no set protects loses two articles, and the job is given up with every
    slice of its set undamaged. *)
Definition with_text : list NzbFile :=
  [content "f" "a.mkv" [1; 2; 3]%N; content "t" "read.nfo" [1; 2]%N; volume "v" "a" (Some 0%N) (Some 1%N) 1100].
Example unprotected_file_gives_up :
  let r := {| protects := λ id, if decide (id = "t"%string) then [] else lit "a"; slice := slice posted; place := place posted |} in
  check true true (f64_of_N 100) (t_tracker (finish [Failed 1 "t" 1 NotFound; Failed 2 "t" 2 NotFound] with_text)) =
    Some (ParityAbort None 2 1) ∧
  set_damage r with_text [("t"%string, 1%N); ("t"%string, 2%N)] (lit "a") = 0%N.
Proof. vm_compute. done. Qed.

(** Over the whole job recovery data is lost by bytes, whatever the sets: the
    one large slice of set [b] takes ten of the job's eleven slices off the
    count, and two damaged slices of [a], which has ten, give the job up. *)
Definition two_sets : list NzbFile :=
  [content "f" "a.mkv" [1; 2]%N; content "e" "a.nfo" [1]%N; content "g" "b.mkv" [1]%N;
   volume "v" "a" (Some 0%N) (Some 10%N) 11000; volume "w" "b" (Some 0%N) (Some 1%N) 110000].
Example lost_by_bytes :
  check true true (f64_of_N 100)
    (t_tracker (finish [Failed 1 "f" 1 NotFound; Failed 2 "e" 1 NotFound; Failed 3 "w" 1 NotFound] two_sets)) =
  Some (ParityAbort None 2 1) ∧
  set_recovery two_sets (lit "a") = 10%N.
Proof. vm_compute. done. Qed.
End Examples.

Import Examples.
Lemma parity_abort_means_unrepairable_witness :
  ¬ repairable posted (t_files (finish losses job)) [("f"%string, 1%N); ("f"%string, 3%N)].
Proof.
  apply (parity_abort_means_unrepairable to_ascii_lowercase 0 job losses (finish losses job) posted true (f64_of_N 100)
           (ParityAbort None 2 1)).
  - vm_compute. repeat constructor; set_solver.
  - vm_compute. reflexivity.
  - repeat constructor; [exists (content "f" "a.mkv" [1; 2; 3]%N), (article 1 1030)|exists (content "f" "a.mkv" [1; 2; 3]%N), (article 3 1030)];
      (split; [by left|split; [done|split; [|done]]]); simpl; set_solver.
  - repeat constructor.
  - repeat constructor; set_solver.
  - exact job_posted.
  - exact two_losses.
  - reflexivity.
Defined.
