(* ===== verification/Schedule.v ===== *)
(** * The time-of-day schedule

    [crates/nzb-core/src/schedule.rs]: rules, the windows they open and the
    decision at a moment. Dates are those of the crate chrono, behind the class
    [Calendar]. *)
From coqutil Require Import Datatypes.RecordSetters.
From S2P Require Import Prelude Str.
Import TriangleBracketNotations.
#[local] Open Scope record_set.

(** ** Rules *)
Inductive ScheduleAction := Pause | SpeedLimit | DisableServers.
#[export] Instance schedule_action_eq_dec : EqDecision ScheduleAction.
Proof. solve_decision. Defined.

Inductive Weekday := Mon | Tue | Wed | Thu | Fri | Sat | Sun.
#[export] Instance weekday_eq_dec : EqDecision Weekday.
Proof. solve_decision. Defined.

Record ScheduleRule := {
  id : str;
  name : str;
  days : list str;
  start : str;
  end_ : str;
  action : ScheduleAction;
  speed_limit_bps : N;
  servers : list str;
}.

Record ScheduleConfig := { enabled : bool; rules : list ScheduleRule }.

Definition default_rule : ScheduleRule :=
  {| id := []; name := []; days := []; start := lit "00:00"; end_ := lit "24:00"; action := Pause;
     speed_limit_bps := 0; servers := [] |}.

Record ScheduleDecision := {
  active_rule_ids : list str;
  pause : bool;
  speed_cap : option N;
  disabled_servers : list str;
  pause_windows : list str;
}.
Definition idle : ScheduleDecision :=
  {| active_rule_ids := []; pause := false; speed_cap := None; disabled_servers := []; pause_windows := [] |}.

Definition is_idle (d : ScheduleDecision) : bool :=
  negb (pause d) && bool_decide (speed_cap d = None) && bool_decide (disabled_servers d = []) &&
  bool_decide (pause_windows d = []).

(** ** Reading a rule *)
Definition WEEKDAYS : list (list string * Weekday) :=
  [(["mon"; "monday"], Mon); (["tue"; "tues"; "tuesday"], Tue); (["wed"; "weds"; "wednesday"], Wed);
   (["thu"; "thur"; "thurs"; "thursday"], Thu); (["fri"; "friday"], Fri); (["sat"; "saturday"], Sat);
   (["sun"; "sunday"], Sun)]%string.

Definition parse_weekday (day : str) : option Weekday :=
  let day := to_ascii_lowercase (trim day) in
  snd <$> List.find (λ w, bool_decide (day ∈ lit <$> w.1)) WEEKDAYS.

Definition COLON : N := 58.

(** [split_once(':')] *)
Fixpoint split_once (c : N) (s : str) : option (str * str) :=
  match s with
  | [] => None
  | x :: s' => if decide (x = c) then Some ([], s') else '(a, b) ← split_once c s'; Some (x :: a, b)
  end.

Definition parse_minutes (value : str) : option N :=
  '(hour, minute) ← split_once COLON (trim value);
  if negb (bool_decide (length (as_bytes hour) = 2 ∧ length (as_bytes minute) = 2)) then None
  else
    hour ← parse_uint u32_max hour;
    minute ← parse_uint u32_max minute;
    if decide (59 < minute)%N then None
    else if decide (hour = 24 ∧ minute = 0)%N then Some (24 * 60)%N
    else if decide (hour ≤ 23)%N then Some (hour * 60 + minute)%N
    else None.

Inductive RuleProblem :=
  | NoDays | NotAWeekday (day : str) | BadStart | BadEnd | StartTooLate | StartIsEnd | NoServers.

Definition rule_problem (r : ScheduleRule) : option RuleProblem :=
  match days r with
  | [] => Some NoDays
  | _ =>
    match List.find (λ day, bool_decide (parse_weekday day = None)) (days r) with
    | Some day => Some (NotAWeekday day)
    | None =>
      match parse_minutes (start r) with
      | None => Some BadStart
      | Some s =>
        match parse_minutes (end_ r) with
        | None => Some BadEnd
        | Some e =>
          if decide (24 * 60 ≤ s)%N then Some StartTooLate
          else if decide (s = e) then Some StartIsEnd
          else if decide (action r = DisableServers ∧ servers r = []) then Some NoServers
          else None
        end
      end
    end
  end.

(** ** Dates *)

(** chrono: [weekday] of a date, [pred_opt], and the date written out. *)
Class Calendar (D : Type) := {
  date_weekday : D → Weekday;
  pred_opt : D → option D;
  show_date : D → str;
}.

(** Dates are days in a row from a first one, and written out differently. *)
Class CalendarLaws (D : Type) `{Calendar D} := {
  num_days : D → Z;
  num_days_inj d e : num_days d = num_days e → d = e;
  pred_opt_Some d e : pred_opt d = Some e ↔ num_days e = (num_days d - 1)%Z;
  show_date_inj d e : show_date d = show_date e → d = e;
}.

(** Wall-clock time, to the minute. *)
Record NaiveDateTime (D : Type) := { date : D; minute : N }.
Arguments date {D}.
Arguments minute {D}.

Section evaluate.
Context {D : Type} `{Calendar D}.

(** [active_window_start] *)
Definition active_window_start (r : ScheduleRule) (now : NaiveDateTime D) : option D :=
  s ← parse_minutes (start r);
  e ← parse_minutes (end_ r);
  let ds := omap parse_weekday (days r) in
  if decide (s < e)%N then
    if decide (date_weekday (date now) ∈ ds ∧ (s ≤ minute now < e)%N) then Some (date now) else None
  else if decide (date_weekday (date now) ∈ ds ∧ (s ≤ minute now)%N) then Some (date now)
  else
    yesterday ← pred_opt (date now);
    if decide (date_weekday yesterday ∈ ds ∧ (minute now < e)%N) then Some yesterday else None.

Definition AT : N := 64.

(** The [push] of a server not yet listed. *)
Definition push_new (l : list str) (x : str) : list str := if decide (x ∈ l) then l else l ++ [x].

(** [rule id@date] *)
Definition occurrence (r : ScheduleRule) (d : D) : str := id r ++ AT :: show_date d.

(** One turn of the loop: the decision, [saw_unlimited] and the windows. *)
Definition evaluate_rule (now : NaiveDateTime D) (acc : ScheduleDecision * bool * list str) (r : ScheduleRule)
    : ScheduleDecision * bool * list str :=
  let '(decision, saw_unlimited, windows) := acc in
  match rule_problem r with
  | Some _ => acc
  | None =>
    match active_window_start r now with
    | None => acc
    | Some window_start =>
      let decision := decision <| active_rule_ids := active_rule_ids decision ++ [id r] |> in
      match action r with
      | Pause => (decision <| pause := true |>, saw_unlimited, windows ++ [occurrence r window_start])
      | SpeedLimit =>
        if decide (speed_limit_bps r = 0)%N then (decision, true, windows)
        else
          (decision <| speed_cap :=
             Some (match speed_cap decision with
                   | Some bps => N.min bps (speed_limit_bps r)
                   | None => speed_limit_bps r
                   end) |>, saw_unlimited, windows)
      | DisableServers =>
        (decision <| disabled_servers := foldl push_new (disabled_servers decision) (servers r) |>,
         saw_unlimited, windows)
      end
    end
  end.

Definition evaluate (rs : list ScheduleRule) (now : NaiveDateTime D) : ScheduleDecision :=
  let '(decision, saw_unlimited, windows) := foldl (evaluate_rule now) (idle, false, []) rs in
  let decision := if saw_unlimited : bool then decision <| speed_cap := Some 0%N |> else decision in
  decision <| pause_windows := sort_dedup str_le windows |>.

Definition evaluate_config (c : ScheduleConfig) (now : NaiveDateTime D) : ScheduleDecision :=
  if negb (enabled c) then idle else evaluate (rules c) now.
End evaluate.

(** [next_minute]: the minute of the day the monitor wakes up at. *)
Definition next_minute (minute : N) : N := ((minute + 1) `mod` (24 * 60))%N.

(** ** What a rule covers *)
Section spec.
Context {D : Type} `{CalendarLaws D}.

(** The minutes of a window from its start to its end, past midnight when the
    end comes first. *)
Definition window_length (s e : N) : Z :=
  if decide (s < e)%N then (Z.of_N e - Z.of_N s)%Z else (1440 + Z.of_N e - Z.of_N s)%Z.

Definition minutes_since_start (now : NaiveDateTime D) (d : D) (s : N) : Z :=
  ((num_days (date now) - num_days d) * 1440 + Z.of_N (minute now) - Z.of_N s)%Z.

(** The window that opens on a day is open at a moment. *)
Definition covers (r : ScheduleRule) (now : NaiveDateTime D) (d : D) : Prop :=
  rule_problem r = None ∧
  ∃ s e, parse_minutes (start r) = Some s ∧ parse_minutes (end_ r) = Some e ∧
    (∃ day, day ∈ days r ∧ parse_weekday day = Some (date_weekday d)) ∧
    (0 ≤ minutes_since_start now d s < window_length s e)%Z.

Lemma parse_minutes_le v m : parse_minutes v = Some m → (m ≤ 1440)%N.
Proof.
  unfold parse_minutes. intros ([h mi] & _ & Hm)%bind_Some. destruct (negb _); [done|].
  apply bind_Some in Hm as (h' & _ & Hm). apply bind_Some in Hm as (mi' & _ & Hm).
  repeat case_decide; try done; injection Hm as <-; lia.
Qed.

Lemma rule_ok_times r :
  rule_problem r = None →
  ∃ s e, parse_minutes (start r) = Some s ∧ parse_minutes (end_ r) = Some e ∧ (s < 1440)%N ∧ (e ≤ 1440)%N ∧ s ≠ e.
Proof.
  unfold rule_problem. destruct (days r); [done|]. destruct (List.find _ _); [done|].
  destruct (parse_minutes (start r)) as [s|]; [|done].
  destruct (parse_minutes (end_ r)) as [e|] eqn:He; [|done]. intros Hp.
  exists s, e. pose proof (parse_minutes_le _ _ He). repeat case_decide; try done. repeat split; (done || lia).
Qed.

Lemma weekday_listed (r : ScheduleRule) (w : Weekday) :
  w ∈ omap parse_weekday (days r) ↔ ∃ day, day ∈ days r ∧ parse_weekday day = Some w.
Proof. apply list_elem_of_omap. Qed.

(** The window a rule is in is the one that covers the moment, and there is at
    most one. *)
Lemma active_window_start_covers r now d :
  (minute now < 1440)%N → rule_problem r = None →
  active_window_start r now = Some d ↔ covers r now d.
Proof.
  intros Hm Hr. destruct (rule_ok_times r Hr) as (s & e & Hs & He & Hs' & He' & Hne).
  unfold covers, active_window_start. rewrite Hs, He. cbn [mbind option_bind].
  setoid_rewrite <-weekday_listed. split.
  - intros Hd. split; [done|]. exists s, e. split; [done|]. split; [done|].
    unfold minutes_since_start, window_length. destruct (decide (s < e)%N).
    + case_decide as Hc; [|done]. injection Hd as <-. split; [tauto|]. lia.
    + case_decide as Hc; [injection Hd as <-; split; [tauto|lia]|].
      apply bind_Some in Hd as (y & Hy%pred_opt_Some & Hd). case_decide as Hc'; [|done].
      injection Hd as <-. split; [tauto|]. rewrite Hy. lia.
  - intros (_ & s' & e' & [= <-] & [= <-] & Hd & Hc). unfold minutes_since_start, window_length in Hc.
    destruct (decide (s < e)%N).
    + assert (num_days (date now) = num_days d) as Hn by lia. apply num_days_inj in Hn. subst d.
      rewrite decide_True; [done|]. split; [done|]. lia.
    + assert (num_days d = num_days (date now) ∨ num_days d = num_days (date now) - 1)%Z as [Hn|Hn] by lia.
      * apply num_days_inj in Hn. subst d. rewrite decide_True; [done|]. split; [done|]. lia.
      * rewrite decide_False by lia. apply pred_opt_Some in Hn as Hp. rewrite Hp. cbn [mbind option_bind].
        rewrite decide_True; [done|]. split; [done|]. lia.
Qed.

(** ** What a decision says *)
Section decision.
Context (now : NaiveDateTime D) (Hnow : (minute now < 1440)%N).

(** The rules in force, each with the day its window opened on. *)
Definition in_force (rs : list ScheduleRule) : list (ScheduleRule * D) :=
  omap (λ r, if decide (rule_problem r = None) then (r,.) <$> active_window_start r now else None) rs.

Lemma elem_of_in_force rs r d : (r, d) ∈ in_force rs ↔ r ∈ rs ∧ covers r now d.
Proof.
  unfold in_force. rewrite list_elem_of_omap. split.
  - intros (r' & Hr' & Hd). case_decide as Hp; [|done]. apply fmap_Some in Hd as (d' & Hd' & [= -> ->]).
    split; [done|]. by apply active_window_start_covers.
  - intros [Hr Hc]. exists r. split; [done|]. pose proof (proj1 Hc) as Hp. rewrite decide_True by done.
    apply active_window_start_covers in Hc; [|done..]. by rewrite Hc.
Qed.

(** The turn of the loop for a rule in force. *)
Definition apply_rule (acc : ScheduleDecision * bool * list str) (x : ScheduleRule * D) :=
  let '(decision, saw, windows) := acc in
  let '(r, d) := x in
  let decision := decision <| active_rule_ids := active_rule_ids decision ++ [id r] |> in
  match action r with
  | Pause => (decision <| pause := true |>, saw, windows ++ [occurrence r d])
  | SpeedLimit =>
    if decide (speed_limit_bps r = 0)%N then (decision, true, windows)
    else (decision <| speed_cap :=
            Some (match speed_cap decision with
                  | Some bps => N.min bps (speed_limit_bps r) | None => speed_limit_bps r end) |>, saw, windows)
  | DisableServers =>
    (decision <| disabled_servers := foldl push_new (disabled_servers decision) (servers r) |>, saw, windows)
  end.

Lemma evaluate_in_force rs acc : foldl (evaluate_rule now) acc rs = foldl apply_rule acc (in_force rs).
Proof.
  revert acc. induction rs as [|r rs IH]; intros [[dec saw] ws]; [done|].
  unfold in_force. cbn [foldl omap list_omap]. fold (in_force rs). rewrite IH. clear IH.
  unfold evaluate_rule. destruct (decide (rule_problem r = None)) as [Hp|Hp].
  - rewrite Hp. destruct (active_window_start r now); done.
  - by destruct (rule_problem r).
Qed.

Lemma elem_of_push_new l xs x : x ∈ foldl push_new l xs ↔ x ∈ l ∨ x ∈ xs.
Proof.
  revert l. induction xs as [|y xs IH]; intros l; cbn [foldl]; [set_solver|]. rewrite IH. unfold push_new.
  case_decide; set_solver.
Qed.

Lemma NoDup_push_new l xs : NoDup l → NoDup (foldl push_new l xs).
Proof.
  revert l. induction xs as [|y xs IH]; intros l Hl; cbn [foldl]; [done|]. apply IH. unfold push_new.
  case_decide; [done|]. apply NoDup_app. repeat split; [done|set_solver|apply NoDup_singleton].
Qed.

(** A cap is the least of some limits, if there is one. *)
Definition least_limit (P : N → Prop) (c : option N) : Prop :=
  match c with
  | Some n => P n ∧ ∀ m, P m → (n ≤ m)%N
  | None => ∀ m, ¬ P m
  end.

#[local] Arguments least_limit : simpl never.

(** What the loop has gathered from the rules in force so far. *)
Record gathered (l : list (ScheduleRule * D)) (acc : ScheduleDecision * bool * list str) : Prop := {
  g_ids : active_rule_ids acc.1.1 = id ∘ fst <$> l;
  g_pause : pause acc.1.1 = true ↔ ∃ r d, (r, d) ∈ l ∧ action r = Pause;
  g_windows w : w ∈ acc.2 ↔ ∃ r d, (r, d) ∈ l ∧ action r = Pause ∧ w = occurrence r d;
  g_unlimited : acc.1.2 = true ↔ ∃ r d, (r, d) ∈ l ∧ action r = SpeedLimit ∧ speed_limit_bps r = 0%N;
  g_cap : least_limit (λ n, ∃ r d, (r, d) ∈ l ∧ action r = SpeedLimit ∧ speed_limit_bps r = n ∧ n ≠ 0%N)
            (speed_cap acc.1.1);
  g_servers x : x ∈ disabled_servers acc.1.1 ↔ ∃ r d, (r, d) ∈ l ∧ action r = DisableServers ∧ x ∈ servers r;
  g_servers_once : NoDup (disabled_servers acc.1.1);
}.

Lemma ex_snoc (Q : ScheduleRule → D → Prop) l x :
  (∃ r d, (r, d) ∈ l ++ [x] ∧ Q r d) ↔ (∃ r d, (r, d) ∈ l ∧ Q r d) ∨ Q x.1 x.2.
Proof.
  setoid_rewrite elem_of_app. setoid_rewrite list_elem_of_singleton. destruct x as [r0 d0]. split.
  - intros (r & d & [Hl|[= -> ->]] & HQ); [left|right]; eauto.
  - intros [(r & d & Hl & HQ)|HQ]; eauto 6.
Qed.

Lemma least_limit_ext P Q c : (∀ n, P n ↔ Q n) → least_limit P c → least_limit Q c.
Proof. intros HE. unfold least_limit. destruct c; setoid_rewrite HE; done. Qed.

(** One more limit. *)
Lemma least_limit_add P k c :
  least_limit P c → least_limit (λ n, P n ∨ n = k) (Some (match c with Some b => N.min b k | None => k end)).
Proof.
  unfold least_limit. destruct c as [b|].
  - intros [Hb Hm]. split.
    + destruct (N.min_spec b k) as [[_ ->]|[_ ->]]; auto.
    + intros m [Hp| ->]; [specialize (Hm m Hp); lia|lia].
  - intros Hm. split; [auto|]. intros m [Hp| ->]; [by destruct (Hm m)|done].
Qed.

Lemma gathered_apply l acc x : gathered l acc → gathered (l ++ [x]) (apply_rule acc x).
Proof.
  destruct acc as [[dec saw] ws], x as [r d]. intros [H1 H2 H3 H4 H5 H6 H7]. simpl in *.
  split.
  - rewrite fmap_app. simpl. destruct (action r); [|case_decide|]; destruct dec; simpl in *; by rewrite H1.
  - rewrite (ex_snoc (λ r _, action r = Pause)). simpl.
    destruct (action r); [|case_decide|]; destruct dec; simpl in *; unfold constant; rewrite ?H2; intuition congruence.
  - intros w. rewrite (ex_snoc (λ r d, action r = Pause ∧ w = occurrence r d)). simpl.
    destruct (action r); [|case_decide|]; simpl; rewrite ?elem_of_app, ?list_elem_of_singleton, H3; intuition congruence.
  - rewrite (ex_snoc (λ r _, action r = SpeedLimit ∧ speed_limit_bps r = 0%N)). simpl.
    destruct (action r); [|case_decide|]; simpl; rewrite ?H4; intuition congruence.
  - eapply least_limit_ext; [intros n; symmetry;
      exact (ex_snoc (λ r _, action r = SpeedLimit ∧ speed_limit_bps r = n ∧ n ≠ 0%N) l (r, d))|]. simpl.
    destruct (action r); [|case_decide|]; destruct dec; simpl in *; unfold constant;
      try (eapply least_limit_ext; [|exact H5]; intros n; intuition congruence).
    eapply least_limit_ext; [|exact (least_limit_add _ (speed_limit_bps r) _ H5)]. intros n; intuition congruence.
  - intros y. rewrite (ex_snoc (λ r _, action r = DisableServers ∧ y ∈ servers r)). simpl.
    destruct (action r); [|case_decide|]; destruct dec; simpl in *; unfold constant;
      rewrite ?elem_of_push_new, H6; intuition congruence.
  - simpl. destruct (action r); [|case_decide|]; destruct dec; simpl in *; unfold constant; try done.
    by apply NoDup_push_new.
Qed.

Lemma gathered_all l : gathered l (foldl apply_rule (idle, false, []) l).
Proof.
  induction l as [|x l IH] using rev_ind.
  - split; simpl; try done; try apply NoDup_nil_2; try intros ?;
      try (split; [done || (by intros ?%elem_of_nil)|by intros (? & ? & ?%elem_of_nil & _)]).
    by intros (? & ? & ?%elem_of_nil & _).
  - rewrite foldl_app. by apply gathered_apply.
Qed.
End decision.

(** C37. What a decision says, whatever the rules: it pauses exactly when a pause
    window is open, and its windows are, sorted and each once, the occurrences
    of the valid pause rules that cover the moment; the cap is zero exactly
    when a rule in force asks for unlimited speed and otherwise the least cap
    in force, none if there is none; each server a rule in force excludes is
    listed once; and the active rules come in the order of the configuration. *)
Theorem evaluate_spec (rs : list ScheduleRule) (now : NaiveDateTime D) :
  (minute now < 1440)%N →
  let dec := evaluate rs now in
  active_rule_ids dec = id ∘ fst <$> in_force now rs ∧
  (pause dec = true ↔ pause_windows dec ≠ []) ∧
  (∀ w, w ∈ pause_windows dec ↔ ∃ r d, r ∈ rs ∧ covers r now d ∧ action r = Pause ∧ w = occurrence r d) ∧
  StronglySorted str_le (pause_windows dec) ∧ NoDup (pause_windows dec) ∧
  (speed_cap dec = Some 0%N ↔
     ∃ r d, r ∈ rs ∧ covers r now d ∧ action r = SpeedLimit ∧ speed_limit_bps r = 0%N) ∧
  (speed_cap dec ≠ Some 0%N →
     least_limit (λ n, ∃ r d, r ∈ rs ∧ covers r now d ∧ action r = SpeedLimit ∧ speed_limit_bps r = n) (speed_cap dec)) ∧
  (∀ x, x ∈ disabled_servers dec ↔
     ∃ r d, r ∈ rs ∧ covers r now d ∧ action r = DisableServers ∧ x ∈ servers r) ∧
  NoDup (disabled_servers dec).
Proof.
  intros Hm. unfold evaluate. rewrite evaluate_in_force.
  pose proof (gathered_all now Hm (in_force now rs)) as [H1 H2 H3 H4 H5 H6 H7].
  destruct (foldl apply_rule _ _) as [[dec saw] ws]. cbn [fst snd] in *.
  assert (∀ Q : ScheduleRule → D → Prop,
    (∃ r d, (r, d) ∈ in_force now rs ∧ Q r d) ↔ (∃ r d, r ∈ rs ∧ covers r now d ∧ Q r d)) as HF.
  { intros Q. split; intros (r & d & Hr & HQ); exists r, d; rewrite (elem_of_in_force now Hm) in *; tauto. }
  assert (∀ w, w ∈ sort_dedup str_le ws ↔ ∃ r d, r ∈ rs ∧ covers r now d ∧ action r = Pause ∧ w = occurrence r d) as HW.
  { intros w. rewrite elem_of_sort_dedup, H3. apply (HF (λ r d, action r = Pause ∧ w = occurrence r d)). }
  destruct dec as [ids ps cap srv pw]. cbn [active_rule_ids pause speed_cap disabled_servers] in *.
  set (dec' := if saw then _ else _).
  assert (dec' = {| active_rule_ids := ids; pause := ps; speed_cap := if saw then Some 0%N else cap;
    disabled_servers := srv; pause_windows := pw |}) as -> by (by destruct saw).
  simpl. unfold constant.
  split; [done|]. split.
  { rewrite H2, (HF (λ r _, action r = Pause)). split.
    - intros (r & d & Hr & Hc & Ha) E. specialize (HW (occurrence r d)). rewrite E in HW.
      assert (occurrence r d ∈ @nil str) as ?%elem_of_nil by (apply HW; exists r, d; auto). done.
    - destruct (sort_dedup str_le ws) as [|w l]; [done|]. intros _.
      destruct (proj1 (HW w) (list_elem_of_here _ _)) as (r & d & Hr & Hc & Ha & _). exists r, d; auto. }
  split; [done|]. split; [by apply StronglySorted_sort_dedup; apply _|]. split; [by apply NoDup_sort_dedup; apply _|].
  split; [|split; [|split; [|done]]].
  - rewrite <-(HF (λ r _, action r = SpeedLimit ∧ speed_limit_bps r = 0%N)), <-H4.
    destruct saw; [done|]. split; [|done]. intros [= ->]. simpl in H5. by destruct H5 as [(? & ? & _ & _ & _ & ?) _].
  - intros Hne. destruct saw; [done|]. eapply least_limit_ext; [|exact H5]. intros n.
    rewrite (HF (λ r _, action r = SpeedLimit ∧ speed_limit_bps r = n ∧ n ≠ 0%N)).
    split; [intros (r & d & Hr & Hc & Ha & Hn & _); exists r, d; auto|].
    intros (r & d & Hr & Hc & Ha & Hn). exists r, d. repeat split; try done; try apply Hc.
    intros ->. assert (false = true); [|done]. apply H4.
    apply (HF (λ r _, action r = SpeedLimit ∧ speed_limit_bps r = 0%N)). exists r, d; auto.
  - intros x. rewrite H6. apply (HF (λ r _, action r = DisableServers ∧ x ∈ servers r)).
Qed.
End spec.

(** ** A calendar *)
Definition weekday_of (n : Z) : Weekday :=
  match (n `mod` 7)%Z with 1%Z => Mon | 2%Z => Tue | 3%Z => Wed | 4%Z => Thu | 5%Z => Fri | 6%Z => Sat | _ => Sun end.

Lemma show_N_inj n m : show_N n = show_N m → n = m.
Proof. intros E. pose proof (digits_value_show n) as H. rewrite E, digits_value_show in H. congruence. Qed.

(** Days counted from the first day of the common era, a Monday. *)
#[export] Instance day_calendar : Calendar Z := {
  date_weekday := weekday_of;
  pred_opt d := Some (d - 1)%Z;
  show_date d := (if decide (0 ≤ d)%Z then 43%N else 45%N) :: show_N (Z.to_N (Z.abs d));
}.
#[export] Program Instance day_calendar_laws : CalendarLaws Z := { num_days := λ d : Z, d }.
Next Obligation. done. Qed.
Next Obligation. intros d e. simpl. split; [by intros [= <-]|intros ->; done]. Qed.
Next Obligation.
  intros d e [= Hs Hn%show_N_inj]. repeat case_decide; lia.
Qed.

Module ScheduleExamples.
Definition night : ScheduleRule :=
  default_rule <| id := lit "night" |> <| days := [lit "Tue"] |> <| start := lit "22:30" |> <| end_ := lit "06:00" |>.

(** Ten past five on a Wednesday is in the window that opened on Tuesday. *)
Example after_midnight : pause_windows (evaluate [night] {| date := 739175%Z; minute := 310 |}) = [lit "night@+739174"].
Proof. vm_compute. reflexivity. Qed.

(** The digits of a time may carry a sign. *)
Example signed_time : parse_minutes (lit "+9:05") = Some 545%N.
Proof. vm_compute. reflexivity. Qed.
End ScheduleExamples.

Lemma evaluate_spec_witness :
  speed_cap (evaluate [ScheduleExamples.night] {| date := 739175%Z; minute := 310 |}) ≠ Some 0%N ∧
  NoDup (pause_windows (evaluate [ScheduleExamples.night] {| date := 739175%Z; minute := 310 |})).
Proof.
  split; [by vm_compute|].
  destruct (evaluate_spec [ScheduleExamples.night] {| date := 739175%Z; minute := 310 |} eq_refl) as (_ & _ & _ & _ & Hw & _).
  exact Hw.
Defined.
