(* ===== verification/Holds.v ===== *)
(** * What holds the queue paused

    [PauseHolds] of [crates/nzb-web/src/queue_manager.rs] and the operations
    that add and lift holds: pauses of the user, timed or not, the disk guard,
    the windows of the schedule, and a restart from the settings. What an
    operation does to the jobs is an effect, carried out in [Queue]. *)
From coqutil Require Import Datatypes.RecordSetters.
From S2P Require Import Prelude Str Schedule.
Import TriangleBracketNotations.
#[local] Open Scope record_set.

Inductive PauseReason := Manual | Global | DiskSpace | Server | BySchedule.

Record PauseHolds := {
  user : bool;
  disk : option N;
  schedule : bool;
  open_windows : list str;
  triggered_windows : list str;
  resumed_windows : list str;
  user_paused_over : list str;
}.
#[export] Instance pause_holds_eq_dec : EqDecision PauseHolds.
Proof. solve_decision. Defined.

Definition no_holds : PauseHolds :=
  {| user := false; disk := None; schedule := false; open_windows := []; triggered_windows := [];
     resumed_windows := []; user_paused_over := [] |}.

Definition any (h : PauseHolds) : bool := user h || bool_decide (is_Some (disk h)) || schedule h.

Definition reason (h : PauseHolds) : option PauseReason :=
  if user h then Some Global
  else if decide (is_Some (disk h)) then Some DiskSpace
  else if schedule h then Some BySchedule
  else None.

Definition occurrences (windows : list str) : list str := sort_dedup str_le windows.

Definition newly_opened (windows : list str) (h : PauseHolds) : list str :=
  filter (λ w, w ∉ triggered_windows h) windows.

Definition held_occurrences (windows : list str) (h : PauseHolds) : list str :=
  filter (λ w, w ∉ user_paused_over h) (filter (λ w, w ∉ resumed_windows h)
    (filter (λ w, w ∈ triggered_windows h) windows)).

Definition retain_open (open : list str) (h : PauseHolds) : PauseHolds :=
  h <| open_windows := open |>
    <| triggered_windows := filter (λ w, w ∈ open) (triggered_windows h) |>
    <| resumed_windows := filter (λ w, w ∈ open) (resumed_windows h) |>
    <| user_paused_over := filter (λ w, w ∈ open) (user_paused_over h) |>.

(** ** Settings *)

(** serde_json on lists of strings and chrono on times, as they are stored. *)
Class Serde := {
  list_to_string : list str → str;
  list_from_str : str → option (list str);
  to_rfc3339 : N → str;
  parse_from_rfc3339 : str → option N;
}.
Class SerdeLaws `{Serde} := {
  list_from_to l : list_from_str (list_to_string l) = Some l;
  rfc3339_roundtrip t : parse_from_rfc3339 (to_rfc3339 t) = Some t;
  rfc3339_empty : parse_from_rfc3339 [] = None;
}.

Abbreviation Settings := (gmap string str).

(** What of the queue manager the holds touch. *)
Record PauseState := {
  holds : PauseHolds;
  globally_paused : bool;
  pause_until : option N;
  settings : Settings;
}.

(** What an operation asks of the jobs. *)
Inductive JobsEffect := KeepJobs | PauseJobs | ResumeJobs.

Definition MAX_PAUSE_SECS : N := 365 * 24 * 60 * 60.

Section holds.
Context `{Serde}.

Definition bool_setting (b : bool) : str := lit (if b then "true" else "false").

Definition owner_setting (h : PauseHolds) : str :=
  lit (if user h then "user" else if schedule h then "schedule"
       else if decide (is_Some (disk h)) then "disk_space" else "").

Definition persist_holds (h : PauseHolds) (db : Settings) : Settings :=
  <["schedule_user_paused_windows" := list_to_string (user_paused_over h)]>
  (<["schedule_resumed_windows" := list_to_string (resumed_windows h)]>
  (<["schedule_triggered_windows" := list_to_string (triggered_windows h)]>
  (<["schedule_pause_windows" := list_to_string (open_windows h)]>
  (<["global_pause_owner" := owner_setting h]>
  (<["disk_space_hold_since" := default [] (to_rfc3339 <$> disk h)]>
  (<["schedule_pause_hold" := bool_setting (schedule h)]>
  (<["user_pause_hold" := bool_setting (user h)]>
  (<["globally_paused" := bool_setting (any h)]> db)))))))).

Definition store_holds (h : PauseHolds) (s : PauseState) : PauseState :=
  s <| holds := h |> <| globally_paused := any h |>.

Definition publish_holds (h : PauseHolds) (s : PauseState) : PauseState :=
  (store_holds h s) <| settings := persist_holds h (settings s) |>.

(** [flag] and [list] of [restore_from_db] *)
Definition flag_setting (key : string) (db : Settings) : bool := bool_decide (db !! key = Some (lit "true")).
Definition list_setting (key : string) (db : Settings) : list str :=
  default [] (v ← db !! key; list_from_str v).

(** The holds a restart reads back. *)
Definition persisted_holds (db : Settings) : PauseHolds :=
  let disk := v ← db !! "disk_space_hold_since"; parse_from_rfc3339 v in
  let owner := default [] (db !! "global_pause_owner") in
  let legacy := bool_decide (db !! "user_pause_hold" = None ∧ db !! "schedule_pause_hold" = None) in
  {| user := if legacy then bool_decide (owner = lit "user" ∨ (owner = [] ∧ disk = None))
             else flag_setting "user_pause_hold" db;
     disk := disk;
     schedule := if legacy then bool_decide (owner = lit "schedule") else flag_setting "schedule_pause_hold" db;
     open_windows := list_setting "schedule_pause_windows" db;
     triggered_windows := list_setting "schedule_triggered_windows" db;
     resumed_windows := list_setting "schedule_resumed_windows" db;
     user_paused_over := list_setting "schedule_user_paused_windows" db |}.

Definition restore_holds (db : Settings) : PauseState :=
  let was_paused := flag_setting "globally_paused" db in
  let p := persisted_holds db in
  let h := p <| user := was_paused && user p |> <| disk := if was_paused then disk p else None |>
             <| schedule := was_paused && schedule p |> in
  {| holds := h; globally_paused := any h; pause_until := None; settings := db |}.

(** ** Operations *)
Definition held (windows : list str) (h : PauseHolds) : bool :=
  negb (bool_decide (held_occurrences windows h = [])) && negb (user h).

Definition pause_for_hold (apply : PauseHolds → PauseHolds) (s : PauseState) : PauseState * JobsEffect :=
  let h := apply (holds s) in
  let h := if user h then h <| user_paused_over := open_windows h |> <| schedule := false |> else h in
  ((publish_holds h s) <| pause_until := None |>, if globally_paused s then KeepJobs else PauseJobs).

Definition pause_all : PauseState → PauseState * JobsEffect := pause_for_hold (λ h, h <| user := true |>).

Definition pause_all_with_hold (disk_space_hold : option N) : PauseState → PauseState * JobsEffect :=
  pause_for_hold (λ h, match disk_space_hold with Some since => h <| disk := Some since |> | None => h end).

(** [resume_jobs_after_holds] drops the deadline. *)
Definition after_resume (resume : bool) (s : PauseState) : PauseState :=
  if resume then s <| pause_until := None |> else s.

Definition apply_schedule_hold (windows : list str) (s : PauseState) : PauseState * JobsEffect :=
  let before := holds s in
  let was_held := schedule before in
  let h := before <| triggered_windows :=
                       sort_dedup str_le (triggered_windows before ++ newly_opened windows before) |> in
  let h := retain_open windows h in
  let h := h <| schedule := held windows h |> in
  let pause_requested := schedule h && negb was_held && negb (globally_paused s) in
  let resume_requested := negb (schedule h) && was_held && negb (any h) in
  let s := if decide (h = before) then s else publish_holds h s in
  (after_resume resume_requested s,
   if pause_requested then PauseJobs else if resume_requested then ResumeJobs else KeepJobs).

(** The windows of a decision. *)
Definition decision_windows (d : ScheduleDecision) : list str :=
  let windows := occurrences (pause_windows d) in
  if pause d && bool_decide (windows = []) then [lit "anonymous"] else windows.

Definition apply_schedule (d : ScheduleDecision) (enabled : bool) : PauseState → PauseState * JobsEffect :=
  apply_schedule_hold (decision_windows (if enabled then d else idle)).

Definition expire_user_hold (s : PauseState) : PauseState * JobsEffect :=
  let was_held := schedule (holds s) in
  let h := (holds s) <| user := false |> <| user_paused_over := [] |> in
  let h := h <| schedule := held (open_windows h) h |> in
  let pause_requested := schedule h && negb was_held && negb (globally_paused s) in
  let resume_requested := negb (any h) in
  (after_resume (negb pause_requested && resume_requested) (publish_holds h s),
   if pause_requested then PauseJobs else if resume_requested then ResumeJobs else KeepJobs).

Definition resume_hold (apply : PauseHolds → PauseHolds) (s : PauseState) : PauseState * JobsEffect :=
  let h := apply (holds s) in
  (after_resume (negb (any h)) (publish_holds h s), if any h then KeepJobs else ResumeJobs).

Definition clear_disk_hold : PauseState → PauseState * JobsEffect := resume_hold (λ h, h <| disk := None |>).

Definition resume_all : PauseState → PauseState * JobsEffect :=
  resume_hold (λ h,
    h <| user := false |> <| disk := None |>
      <| resumed_windows := sort_dedup str_le (resumed_windows h ++ triggered_windows h) |>
      <| schedule := false |> <| user_paused_over := [] |>).

(** [pause_for]; times in seconds. Its timer fires at the deadline. *)
Definition pause_for (now duration_secs : N) (s : PauseState) : PauseState * JobsEffect :=
  let (s, e) := pause_all s in
  (s <| pause_until := Some (now + N.min duration_secs MAX_PAUSE_SECS)%N |>, e).

Definition timer_fires (until : N) (s : PauseState) : PauseState * JobsEffect :=
  if decide (pause_until s = Some until) then expire_user_hold (s <| pause_until := None |>) else (s, KeepJobs).

(** The disk guard, given whether each volume has room. *)
Definition enforce_disk_guard (available : bool) (now : N) (s : PauseState) : PauseState * JobsEffect :=
  if negb available then
    if decide (disk (holds s) = None) then pause_all_with_hold (Some now) s else (s, KeepJobs)
  else if decide (is_Some (disk (holds s))) then clear_disk_hold s else (s, KeepJobs).

Definition global_pause_reason (s : PauseState) : option PauseReason :=
  if globally_paused s then reason (holds s) else None.

Definition schedule_pause_active (s : PauseState) : bool :=
  match reason (holds s) with Some BySchedule => true | _ => false end.

Definition disk_space_hold_since (s : PauseState) : option N := disk (holds s).

(** [pause_remaining_secs] *)
Definition pause_remaining_secs (now : N) (s : PauseState) : option N := (λ until, until - now)%N <$> pause_until s.
End holds.

(** ** Histories *)
Inductive HoldEvent :=
  | PauseAll
  | PauseFor (now duration_secs : N)
  | TimerFires (until : N)
  | DiskGuard (available : bool) (now : N)
  | Tick (d : ScheduleDecision) (enabled : bool)
  | ResumeAll
  | Restart.

Section history.
Context `{SerdeLaws}.

Definition hold_step (e : HoldEvent) (s : PauseState) : PauseState * JobsEffect :=
  match e with
  | PauseAll => pause_all s
  | PauseFor now secs => pause_for now secs s
  | TimerFires until => timer_fires until s
  | DiskGuard available now => enforce_disk_guard available now s
  | Tick d enabled => apply_schedule d enabled s
  | ResumeAll => resume_all s
  | Restart => (restore_holds (settings s), KeepJobs)
  end.

Definition hold_run (s : PauseState) (es : list HoldEvent) : PauseState := foldl (λ s e, (hold_step e s).1) s es.

(** ** The specification: what the documentation promises

    One flag per holder, which no other lifts. A timed pause ends at its
    deadline, whatever else happens in the meantime. Each open window is in force
    until a manual resume, and stays resumed until it closes. *)
Record HoldSpec := {
  s_user : bool;
  s_disk : option N;
  s_until : option N;
  s_open : gmap str bool;   (** the open windows, and whether each was resumed *)
}.

Definition in_force_window (o : gmap str bool) : Prop := ∃ w, o !! w = Some false.
#[export] Instance in_force_window_dec o : Decision (in_force_window o).
Proof.
  refine (cast_if (decide (map_Exists (λ _ b, b = false) o))); unfold in_force_window.
  - abstract (destruct m as (w & b & Hw & ->); eauto).
  - abstract (intros [w Hw]; apply n; exists w, false; done).
Defined.

(** The schedule holds the queue while a window is in force and the user does
    not. *)
Definition s_schedule (s : HoldSpec) : bool := negb (s_user s) && bool_decide (in_force_window (s_open s)).
Definition s_paused (s : HoldSpec) : bool := s_user s || bool_decide (is_Some (s_disk s)) || s_schedule s.

(** Opening windows: those open before keep their state. *)
Definition reopen (ws : list str) (o : gmap str bool) : gmap str bool :=
  list_to_map ((λ w, (w, default false (o !! w))) <$> ws).

Definition spec_step (e : HoldEvent) (s : HoldSpec) : HoldSpec :=
  match e with
  | PauseAll => {| s_user := true; s_disk := s_disk s; s_until := None; s_open := s_open s |}
  | PauseFor now secs =>
    {| s_user := true; s_disk := s_disk s; s_until := Some (now + N.min secs MAX_PAUSE_SECS)%N; s_open := s_open s |}
  | TimerFires until =>
    if decide (s_until s = Some until)
    then {| s_user := false; s_disk := s_disk s; s_until := None; s_open := s_open s |}
    else s
  | DiskGuard false now =>
    if decide (s_disk s = None)
    then {| s_user := s_user s; s_disk := Some now; s_until := s_until s; s_open := s_open s |} else s
  | DiskGuard true _ =>
    if decide (s_disk s = None) then s
    else {| s_user := s_user s; s_disk := None; s_until := s_until s; s_open := s_open s |}
  | Tick d enabled =>
    {| s_user := s_user s; s_disk := s_disk s; s_until := s_until s;
       s_open := reopen (decision_windows (if enabled then d else idle)) (s_open s) |}
  | ResumeAll =>
    {| s_user := false; s_disk := None; s_until := None; s_open := (λ _, true) <$> s_open s |}
  | Restart => s
  end.

Definition spec_run (s : HoldSpec) (es : list HoldEvent) : HoldSpec := foldl (λ s e, spec_step e s) s es.
Definition spec_start : HoldSpec := {| s_user := false; s_disk := None; s_until := None; s_open := ∅ |}.

(** Where the code leaves the specification: a low-disk hold that opens, and a
    restart, drop the deadline of a timed pause. *)
Definition drops_deadline (e : HoldEvent) (s : HoldSpec) : bool :=
  match e with
  | DiskGuard false _ => bool_decide (s_disk s = None)
  | Restart => true
  | _ => false
  end.
Definition forget_deadline (s : HoldSpec) : HoldSpec :=
  {| s_user := s_user s; s_disk := s_disk s; s_until := None; s_open := s_open s |}.

(** No such event while a timed pause runs. *)
Fixpoint undisturbed (s : HoldSpec) (es : list HoldEvent) : Prop :=
  match es with
  | [] => True
  | e :: es' => (drops_deadline e s = true → s_until s = None) ∧ undisturbed (spec_step e s) es'
  end.

Definition hold_start : PauseState :=
  {| holds := no_holds; globally_paused := false; pause_until := None; settings := ∅ |}.

(** ** The holds implement it *)
Record holds_ok (s : PauseState) (sp : HoldSpec) : Prop := {
  ok_user : user (holds s) = s_user sp;
  ok_disk : disk (holds s) = s_disk sp;
  ok_schedule : schedule (holds s) = s_schedule sp;
  ok_open w : w ∈ open_windows (holds s) ↔ is_Some (s_open sp !! w);
  ok_triggered w : w ∈ triggered_windows (holds s) ↔ is_Some (s_open sp !! w);
  ok_resumed w : w ∈ resumed_windows (holds s) ↔ s_open sp !! w = Some true;
  ok_over : user_paused_over (holds s) ≠ [] → s_user sp = true;
  ok_gate : globally_paused s = any (holds s);
  ok_until : pause_until s = s_until sp;
  ok_until_user : is_Some (s_until sp) → s_user sp = true;
  ok_settings : (settings s = ∅ ∧ holds s = no_holds) ∨ ∃ db, settings s = persist_holds (holds s) db;
}.

Lemma in_force_held (h : PauseHolds) o :
  (∀ w, w ∈ open_windows h ↔ is_Some (o !! w)) → (∀ w, w ∈ triggered_windows h ↔ is_Some (o !! w)) →
  (∀ w, w ∈ resumed_windows h ↔ o !! w = Some true) → (user h = false → user_paused_over h = []) →
  held (open_windows h) h = negb (user h) && bool_decide (in_force_window o).
Proof.
  intros Ho Ht Hr Hu. unfold held. destruct (user h); [by rewrite andb_false_r|]. rewrite andb_true_r. simpl.
  rewrite <-bool_decide_not. apply bool_decide_ext. unfold held_occurrences, in_force_window. rewrite Hu by done.
  assert (∀ w, w ∈ filter (λ w, w ∉ @nil str) (filter (λ w, w ∉ resumed_windows h)
    (filter (λ w, w ∈ triggered_windows h) (open_windows h))) ↔ o !! w = Some false) as HE.
  { intros w. rewrite !list_elem_of_filter, Ho, Ht, Hr. destruct (o !! w) as [[]|]; set_solver. }
  split.
  - destruct (filter _ (filter _ _)) as [|w l]; [done|]. intros _. exists w. apply HE. by left.
  - intros [w Hw%HE] E. rewrite E in Hw. by apply elem_of_nil in Hw.
Qed.

Lemma lookup_reopen ws o w : reopen ws o !! w = if decide (w ∈ ws) then Some (default false (o !! w)) else None.
Proof.
  unfold reopen. induction ws as [|x ws IH]; cbn [fmap list_fmap list_to_map foldr].
  - rewrite lookup_empty. by rewrite decide_False by apply not_elem_of_nil.
  - simpl. destruct (decide (x = w)) as [->|Hne].
    + by rewrite lookup_insert_eq, decide_True by apply list_elem_of_here.
    + rewrite lookup_insert_ne, IH by done. apply decide_ext. set_solver.
Qed.
Lemma bool_setting_true b : bool_setting b = lit "true" ↔ b = true.
Proof. by destruct b. Qed.

Lemma persisted_persist h db :
  persisted_holds (persist_holds h db) = h ∧ flag_setting "globally_paused" (persist_holds h db) = any h.
Proof.
  unfold persisted_holds, flag_setting, list_setting, persist_holds.
  repeat (rewrite lookup_insert_eq || rewrite lookup_insert_ne by done).
  rewrite bool_decide_false by (intros [? ?]; done). cbn [mbind option_bind default].
  rewrite !list_from_to. cbn [default].
  assert (parse_from_rfc3339 (default [] (to_rfc3339 <$> disk h)) = disk h) as ->
    by (destruct (disk h); [apply rfc3339_roundtrip|apply rfc3339_empty]).
  assert (∀ b, bool_decide (Some (bool_setting b) = Some (lit "true")) = b) as Hb by (by intros []).
  rewrite !Hb. by destruct h.
Qed.

Lemma restore_persist h db :
  restore_holds (persist_holds h db) =
    {| holds := h; globally_paused := any h; pause_until := None; settings := persist_holds h db |}.
Proof.
  unfold restore_holds. destruct (persisted_persist h db) as [-> ->].
  assert (h <| user := any h && user h |> <| disk := if any h then disk h else None |>
    <| schedule := any h && schedule h |> = h) as ->; [|done].
  destruct h as [u d sc ow tw rw up]. unfold any. simpl. unfold constant.
  destruct u, sc; simpl; try done; by destruct d.
Qed.

Lemma restore_empty : restore_holds ∅ = hold_start.
Proof. reflexivity. Qed.

(** Publishing new holds: what is left to show of them. *)
Lemma publish_ok h s until sp :
  user h = s_user sp → disk h = s_disk sp → schedule h = s_schedule sp →
  (∀ w, w ∈ open_windows h ↔ is_Some (s_open sp !! w)) →
  (∀ w, w ∈ triggered_windows h ↔ is_Some (s_open sp !! w)) →
  (∀ w, w ∈ resumed_windows h ↔ s_open sp !! w = Some true) →
  (user_paused_over h ≠ [] → s_user sp = true) → until = s_until sp → (is_Some (s_until sp) → s_user sp = true) →
  holds_ok ((publish_holds h s) <| pause_until := until |>) sp.
Proof. intros. destruct s. split; try done. right. by eexists. Qed.

Lemma publish_until h s : publish_holds h s = (publish_holds h s) <| pause_until := pause_until s |>.
Proof. by destruct s. Qed.

Lemma any_spec s sp : holds_ok s sp → any (holds s) = s_paused sp.
Proof. intros []. unfold any, s_paused. by rewrite ok_user0, ok_disk0, ok_schedule0. Qed.

Lemma pause_for_hold_ok apply s sp sp' :
  holds_ok s sp →
  (let h := apply (holds s) in
   user h = s_user sp' ∧ disk h = s_disk sp' ∧ schedule h = schedule (holds s) ∧ open_windows h = open_windows (holds s) ∧
   triggered_windows h = triggered_windows (holds s) ∧ resumed_windows h = resumed_windows (holds s) ∧
   user_paused_over h = user_paused_over (holds s)) →
  s_until sp' = None → s_open sp' = s_open sp → (s_user sp' = s_user sp ∨ s_user sp' = true) →
  holds_ok (pause_for_hold apply s).1 sp'.
Proof.
  intros [] (Hu & Hd & Hs & Ho & Ht & Hr & Hp) Hun Hop Hus. unfold pause_for_hold. cbn [fst].
  revert Hu Hd Hs Ho Ht Hr Hp. generalize (apply (holds s)). intros h Hu Hd Hs Ho Ht Hr Hp.
  destruct (user h) eqn:Eu.
  - apply publish_ok; rewrite ?Hop, ?Hun; try done; destruct h; simpl in *; unfold constant; subst; try done.
    + unfold s_schedule. by rewrite <-Hu.
  - assert (s_user sp' = s_user sp) as Eus by (destruct Hus; congruence).
    apply publish_ok; rewrite ?Hop, ?Hun, ?Hs, ?Ho, ?Ht, ?Hr, ?Hp, ?Eus; try done; try congruence.
    rewrite ok_schedule0. unfold s_schedule. by rewrite Eus, Hop.
Qed.

Lemma elem_of_triggered ws h w :
  w ∈ sort_dedup str_le (triggered_windows h ++ newly_opened ws h) ↔ w ∈ triggered_windows h ∨ w ∈ ws.
Proof.
  rewrite elem_of_sort_dedup, elem_of_app. unfold newly_opened. rewrite list_elem_of_filter.
  destruct (decide (w ∈ triggered_windows h)); tauto.
Qed.

Lemma tick_ok ws s sp :
  holds_ok s sp →
  holds_ok (apply_schedule_hold ws s).1
    {| s_user := s_user sp; s_disk := s_disk sp; s_until := s_until sp; s_open := reopen ws (s_open sp) |}.
Proof.
  intros Hok. pose proof Hok as [Hu Hd Hs Ho Ht Hr Hov Hg Hun Hunu Hset].
  unfold apply_schedule_hold. cbv zeta.
  set (h0 := retain_open ws _). set (h := h0 <| schedule := held ws h0 |>).
  assert (∀ w, w ∈ triggered_windows h0 ↔ is_Some (reopen ws (s_open sp) !! w)) as Ht'.
  { intros w. unfold h0, retain_open. simpl. unfold constant. rewrite list_elem_of_filter, elem_of_triggered, lookup_reopen.
    case_decide; [|by split; [intros []|intros []]]. split; [by eexists|]. tauto. }
  assert (∀ w, w ∈ open_windows h0 ↔ is_Some (reopen ws (s_open sp) !! w)) as Ho'.
  { intros w. unfold h0, retain_open. simpl. unfold constant. rewrite lookup_reopen.
    case_decide; [split; [by eexists|done]|by split; [|intros []]]. }
  assert (∀ w, w ∈ resumed_windows h0 ↔ reopen ws (s_open sp) !! w = Some true) as Hr'.
  { intros w. unfold h0, retain_open. simpl. unfold constant. rewrite list_elem_of_filter, Hr, lookup_reopen.
    case_decide; [|by split; [intros []|]]. destruct (s_open sp !! w) as [[]|]; simpl; intuition congruence. }
  assert (user_paused_over h0 ≠ [] → s_user sp = true) as Hov'.
  { intros Hne. apply Hov. intros E. apply Hne. destruct s as [[]]. simpl in *. unfold constant. by rewrite E. }
  assert (held ws h0 = s_schedule {| s_user := s_user sp; s_disk := s_disk sp; s_until := s_until sp;
                                     s_open := reopen ws (s_open sp) |}) as Hh.
  { assert (user h0 = s_user sp) as Hu0 by (rewrite <-Hu; by destruct s as [[]]).
    assert (ws = open_windows h0) as E by (by destruct s as [[]]). rewrite E at 1.
    unfold s_schedule. cbn [s_user s_open]. rewrite <-Hu0. apply in_force_held; try done.
    intros Hf. destruct (user_paused_over h0) eqn:Ep; [done|]. rewrite <-Hu0, Hf in Hov'. by specialize (Hov' ltac:(done)). }
  assert (∀ dl, dl = s_until sp → holds_ok ((if decide (h = holds s) then s else publish_holds h s) <| pause_until := dl |>)
    {| s_user := s_user sp; s_disk := s_disk sp; s_until := s_until sp; s_open := reopen ws (s_open sp) |}) as Hall.
  { intros dl ->. case_decide as E.
    - assert (holds (s <| pause_until := s_until sp |>) = h) as Eh by (rewrite E; by destruct s).
      split; rewrite ?Eh; try done; try (by destruct s as [[]]); destruct s as [hs g u db]; simpl in *; unfold constant; [by rewrite E|by rewrite E].
    - apply publish_ok; try done; destruct s as [[]]; simpl in *; done. }
  cbn [fst]. unfold after_resume. 
  set (s2 := if decide (h = holds s) then s else publish_holds h s) in *.
  assert (pause_until s2 = s_until sp) as Hu2 by (rewrite <-Hun; unfold s2; case_decide; by destruct s).
  destruct (negb (schedule h) && _ && _) eqn:Er.
  - apply Hall. destruct (s_until sp) eqn:E; [|done].
    apply andb_true_iff in Er as [_ Er%negb_true_iff]. unfold any in Er.
    assert (user h = s_user sp) as Hu0 by (rewrite <-Hu; by destruct s as [[]]).
    rewrite Hu0, Hunu in Er by done. done.
  - assert (s2 = s2 <| pause_until := pause_until s2 |>) as -> by (by destruct s2). by apply Hall.
Qed.

Lemma with_until_ok s sp d :
  holds_ok s sp → s_user sp = true →
  holds_ok (s <| pause_until := Some d |>) {| s_user := s_user sp; s_disk := s_disk sp; s_until := Some d; s_open := s_open sp |}.
Proof. intros [] Hu. destruct s. split; done. Qed.

Lemma expire_ok s sp :
  holds_ok s sp → pause_until s = None →
  holds_ok (expire_user_hold s).1 {| s_user := false; s_disk := s_disk sp; s_until := None; s_open := s_open sp |}.
Proof.
  intros [] Hnone. unfold expire_user_hold. cbv zeta. cbn [fst].
  set (h0 := (holds s) <| user := false |> <| user_paused_over := [] |>).
  set (h := h0 <| schedule := held (open_windows h0) h0 |>).
  assert (holds_ok ((publish_holds h s) <| pause_until := None |>)
    {| s_user := false; s_disk := s_disk sp; s_until := None; s_open := s_open sp |}) as Hp.
  { apply publish_ok; try done; try (by destruct s as [[]]); try (by intros []).
    change (held (open_windows h0) h0 = negb (user h0) && bool_decide (in_force_window (s_open sp))).
    apply in_force_held; try done; by destruct s as [[]]. }
  assert (publish_holds h s = (publish_holds h s) <| pause_until := None |>) as E by (rewrite publish_until, Hnone; by destruct s).
  unfold after_resume. destruct (negb _ && negb _); [exact Hp|]. rewrite E. exact Hp.
Qed.

Lemma resume_all_ok s sp :
  holds_ok s sp →
  holds_ok (resume_all s).1 {| s_user := false; s_disk := None; s_until := None; s_open := (λ _, true) <$> s_open sp |}.
Proof.
  intros []. unfold resume_all, resume_hold. cbn [fst]. unfold after_resume. simpl.
  apply publish_ok; destruct s as [[]]; simpl in *; unfold constant; try done.
  - unfold s_schedule. simpl. symmetry. apply bool_decide_false. intros [w Hw]. simpl in Hw.
    rewrite lookup_fmap in Hw. by destruct (s_open sp !! w).
  - intros w. by rewrite lookup_fmap, fmap_is_Some.
  - intros w. by rewrite lookup_fmap, fmap_is_Some.
  - intros w. rewrite elem_of_sort_dedup, elem_of_app, ok_resumed0, ok_triggered0, lookup_fmap.
    destruct (s_open sp !! w) as [[]|]; simpl; split; try done; intros; try (right; by eexists).
    by destruct H1 as [|[]].
Qed.

Lemma clear_disk_ok s sp :
  holds_ok s sp →
  holds_ok (clear_disk_hold s).1 {| s_user := s_user sp; s_disk := None; s_until := s_until sp; s_open := s_open sp |}.
Proof.
  intros Hok. pose proof Hok as []. unfold clear_disk_hold, resume_hold. cbn [fst]. unfold after_resume.
  set (h := (holds s) <| disk := None |>).
  assert (∀ d, d = s_until sp → holds_ok ((publish_holds h s) <| pause_until := d |>)
    {| s_user := s_user sp; s_disk := None; s_until := s_until sp; s_open := s_open sp |}) as Hp
    by (intros d ->; apply publish_ok; try done; destruct s as [[]]; simpl in *; done).
  destruct (any h) eqn:Ha; simpl.
  - rewrite publish_until. by apply Hp.
  - apply Hp. destruct (s_until sp) eqn:E; [|done].
    assert (user h = true) as Hu by (destruct s as [[]]; simpl in *; rewrite ok_user0; by apply ok_until_user0).
    unfold any in Ha. by rewrite Hu in Ha.
Qed.

Lemma pause_all_ok s sp :
  holds_ok s sp →
  holds_ok (pause_all s).1 {| s_user := true; s_disk := s_disk sp; s_until := None; s_open := s_open sp |}.
Proof.
  intros Hok. pose proof Hok as []. unfold pause_all.
  eapply pause_for_hold_ok; [exact Hok| |done|done|by right]. by destruct s as [[]].
Qed.

Lemma disk_hold_ok now s sp :
  holds_ok s sp →
  holds_ok (pause_all_with_hold (Some now) s).1
    {| s_user := s_user sp; s_disk := Some now; s_until := None; s_open := s_open sp |}.
Proof.
  intros Hok. pose proof Hok as []. unfold pause_all_with_hold.
  eapply pause_for_hold_ok; [exact Hok| |done|done|by left]. by destruct s as [[]].
Qed.

Lemma restart_ok s sp :
  holds_ok s sp →
  holds_ok (restore_holds (settings s)) {| s_user := s_user sp; s_disk := s_disk sp; s_until := None; s_open := s_open sp |}.
Proof.
  intros []. destruct ok_settings0 as [[-> Eh]|[db ->]].
  - rewrite restore_empty, Eh in *. simpl in *. split; try done; try (by left); by intros [].
  - rewrite restore_persist. split; try done; simpl; try (by intros []). right. by eexists.
Qed.

Lemma hold_step_ok e s sp :
  holds_ok s sp →
  holds_ok (hold_step e s).1 (if drops_deadline e sp then forget_deadline (spec_step e sp) else spec_step e sp).
Proof.
  intros Hok. pose proof Hok as []. destruct e as [|now secs|dl|available now|d enabled| |];
    cbn [hold_step spec_step drops_deadline].
  - by apply pause_all_ok.
  - unfold pause_for. destruct (pause_all s) as [s' e] eqn:E. cbn [fst].
    apply (with_until_ok s' {| s_user := true; s_disk := s_disk sp; s_until := None; s_open := s_open sp |}); [|done].
    replace s' with (pause_all s).1 by (by rewrite E). by apply pause_all_ok.
  - unfold timer_fires. rewrite ok_until0. case_decide as E; [|done].
    apply (expire_ok _ {| s_user := s_user sp; s_disk := s_disk sp; s_until := None; s_open := s_open sp |}); [|done].
    destruct s. split; try done. by intros [].
  - unfold enforce_disk_guard. rewrite ok_disk0. destruct available; cbn [negb].
    + destruct (s_disk sp) eqn:E.
      * rewrite decide_True, decide_False by (done || by eexists). by apply clear_disk_ok.
      * rewrite decide_False, decide_True by (done || by intros []). done.
    + case_decide as E; [|by rewrite bool_decide_false].
      rewrite bool_decide_true by done. by apply (disk_hold_ok now s sp).
  - apply tick_ok, Hok.
  - by apply resume_all_ok.
  - by apply (restart_ok s sp).
Qed.

(** What an operation asks of the jobs is what happens to the gate. *)
Definition effect_agrees (e : HoldEvent) (before after : bool) (j : JobsEffect) : Prop :=
  match j with
  | PauseJobs => before = false ∧ after = true
  | ResumeJobs => after = false ∧ (before = true ∨ e = ResumeAll)
  | KeepJobs => after = before
  end.

(** The schedule is what changes the gate on a tick. *)
Lemma tick_effect ws s sp :
  holds_ok s sp →
  let s' := (apply_schedule_hold ws s).1 in
  match (apply_schedule_hold ws s).2 with
  | PauseJobs => globally_paused s = false ∧ any (holds s') = true
  | ResumeJobs => any (holds s') = false ∧ globally_paused s = true
  | KeepJobs => any (holds s') = globally_paused s
  end.
Proof.
  intros []. unfold apply_schedule_hold. cbv zeta. set (h0 := retain_open ws _). set (h := h0 <| schedule := _ |>).
  cbn [fst snd]. set (s2 := if decide (h = holds s) then s else publish_holds h s).
  assert (∀ b, holds (after_resume b s2) = h) as Hh.
  { assert (holds s2 = h) as E by (unfold s2; case_decide; by destruct s). intros []; [|done]. by destruct s2. }
  rewrite ok_gate0. destruct (schedule h && negb (schedule (holds s)) && negb (any (holds s))) eqn:Ep.
  - rewrite Hh. apply andb_true_iff in Ep as [[Es _]%andb_true_iff Ea%negb_true_iff]. split; [done|].
    unfold any. by rewrite Es, orb_true_r.
  - destruct (negb (schedule h) && schedule (holds s) && negb (any h)) eqn:Er.
    + rewrite Hh. apply andb_true_iff in Er as [[_ Es]%andb_true_iff Ea%negb_true_iff]. split; [done|].
      unfold any. by rewrite Es, orb_true_r.
    + rewrite Hh. clear Hh s2. assert (user h = user (holds s) ∧ disk h = disk (holds s)) as [Eu Ed] by (by destruct s as [[]]).
      unfold any in *. rewrite Eu, Ed in *. clearbody h.
      destruct (user (holds s)), (bool_decide (is_Some (disk (holds s)))), (schedule h), (schedule (holds s)); done.
Qed.

Lemma expire_effect s sp :
  holds_ok s sp → user (holds s) = true →
  let s' := (expire_user_hold s).1 in
  match (expire_user_hold s).2 with
  | PauseJobs => False
  | ResumeJobs => any (holds s') = false
  | KeepJobs => any (holds s') = true
  end.
Proof.
  intros [] Hu. unfold expire_user_hold. cbv zeta. cbn [fst snd].
  set (h := _ <| schedule := _ |>).
  assert (∀ b, holds (after_resume b (publish_holds h s)) = h) as Hh by (intros []; by destruct s).
  rewrite Hh, ok_gate0. assert (any (holds s) = true) as -> by (unfold any; by rewrite Hu).
  rewrite andb_false_r. by destruct (any h).
Qed.

Lemma resume_hold_effect f s :
  holds (resume_hold f s).1 = f (holds s) ∧
  (resume_hold f s).2 = if any (f (holds s)) then KeepJobs else ResumeJobs.
Proof. unfold resume_hold. cbn [fst snd]. destruct s. by destruct (any (f _)). Qed.

Lemma gate_after e s sp : holds_ok s sp → globally_paused (hold_step e s).1 = s_paused (spec_step e sp).
Proof.
  intros Hok. pose proof (hold_step_ok e s sp Hok) as Hs. rewrite (ok_gate _ _ Hs), (any_spec _ _ Hs).
  by destruct (drops_deadline e sp).
Qed.

Lemma hold_step_effect e s sp :
  holds_ok s sp → effect_agrees e (globally_paused s) (globally_paused (hold_step e s).1) (hold_step e s).2.
Proof.
  intros Hok. pose proof (hold_step_ok e s sp Hok) as Hok'. pose proof (gate_after e s sp Hok) as Hgate. pose proof Hok as []. unfold effect_agrees.
  destruct e as [|now secs|dl|available now|d enabled| |]; cbn [hold_step spec_step drops_deadline] in *.
  - rewrite Hgate. unfold pause_all, pause_for_hold, s_paused. simpl.
    by destruct (globally_paused s).
  - rewrite Hgate. unfold pause_for, pause_all, pause_for_hold, s_paused. simpl.
    by destruct (globally_paused s).
  - unfold timer_fires in *. rewrite ok_until0 in *. case_decide as E; [|done].
    rewrite (ok_gate _ _ Hok').
    assert (holds_ok (s <| pause_until := None |>) {| s_user := s_user sp; s_disk := s_disk sp; s_until := None; s_open := s_open sp |}) as Hn
      by (destruct s; split; try done; by intros []).
    assert (user (holds s) = true) as Hu by (rewrite ok_user0; apply ok_until_user0; by rewrite E).
    pose proof (expire_effect _ _ Hn ltac:(by destruct s)) as He.
    assert (globally_paused s = true) as Hp by (rewrite ok_gate0; unfold any; by rewrite Hu).
    destruct (expire_user_hold _) as [s' []]; simpl in *; try done; rewrite ?He, ?Hp; auto.
  - unfold enforce_disk_guard in *. destruct available; cbn [negb] in *.
    + case_decide as E; [|done]. rewrite (ok_gate _ _ Hok').
      assert (globally_paused s = true) as Hp.
      { rewrite ok_gate0. unfold any. rewrite (bool_decide_true _ E). by rewrite orb_true_r. }
      unfold clear_disk_hold. destruct (resume_hold_effect (λ h, h <| disk := None |>) s) as [Hh He].
      rewrite Hp, He, Hh. cbv beta. destruct (any ((holds s) <| disk := None |>)) eqn:Ea; auto.
    + case_decide as E; [|done]. rewrite Hgate.
      unfold pause_all_with_hold, pause_for_hold, s_paused. rewrite ok_disk0 in E.
      rewrite decide_True by done. simpl. rewrite orb_true_r. by destruct (globally_paused s).
  - pose proof (tick_effect (decision_windows (if enabled then d else idle)) s sp Hok) as Ht. cbv zeta in Ht.
    rewrite (ok_gate _ _ Hok'). unfold apply_schedule in *. destruct (apply_schedule_hold _ s) as [s' []]; simpl in *; tauto.
  - rewrite Hgate. unfold s_paused, s_schedule. simpl.
    rewrite bool_decide_false; [by auto|]. intros [w Hw]. simpl in Hw. rewrite lookup_fmap in Hw. by destruct (s_open sp !! w).
  - cbn [fst snd] in *. rewrite Hgate, ok_gate0, (any_spec _ _ Hok). done.
Qed.

Lemma start_ok : holds_ok hold_start spec_start.
Proof.
  split; try done; try (by intros []); try (by left); try (intros w; simpl; rewrite lookup_empty).
  - split; [by intros ?%elem_of_nil|by intros []].
  - split; [by intros ?%elem_of_nil|by intros []].
  - split; [by intros ?%elem_of_nil|done].
Qed.

Lemma forget_no_deadline s : s_until s = None → forget_deadline s = s.
Proof. unfold forget_deadline. intros <-. by destruct s. Qed.

Lemma drops_keeps_deadline e sp : drops_deadline e sp = true → s_until (spec_step e sp) = s_until sp.
Proof. destruct e as [| | |[] now| | |]; try done. simpl. by case_decide. Qed.

Lemma hold_run_ok es : ∀ s sp,
  holds_ok s sp → undisturbed sp es → holds_ok (hold_run s es) (spec_run sp es).
Proof.
  induction es as [|e es IH]; intros s sp Hok; [done|]. cbn [undisturbed]. intros [He Hes].
  change (holds_ok (hold_run (hold_step e s).1 es) (spec_run (spec_step e sp) es)). apply IH; [|done].
  pose proof (hold_step_ok e s sp Hok) as Hs. destruct (drops_deadline e sp) eqn:Hd; [|done].
  rewrite forget_no_deadline in Hs; [done|]. rewrite drops_keeps_deadline by done. by apply He.
Qed.
End history.

(** C38. The holds implement their specification, whatever the history of
    pauses, timers, disk checks, ticks of the schedule, resumes and restarts in
    which no low-disk hold opens and no restart happens while a timed pause runs
    (those drop its deadline, see [timed_pause_outlives_its_timer] and
    [timed_pause_after_restart]): the queue is paused exactly while the user, the
    disk guard or a window in force holds it; a timed pause ends at its deadline;
    a window is in force from the tick it opens, through restarts, until it closes
    or a manual resume, which lasts until it closes; a user pause suspends the
    windows and its end hands them back; and the jobs are paused and resumed
    exactly when the gate changes. *)
Theorem holds_refine_spec `{SerdeLaws} (es : list HoldEvent) (e : HoldEvent) :
  undisturbed spec_start es →
  let s := hold_run hold_start es in
  let sp := spec_run spec_start es in
  globally_paused s = s_paused sp ∧
  user (holds s) = s_user sp ∧ disk (holds s) = s_disk sp ∧ schedule (holds s) = s_schedule sp ∧
  pause_until s = s_until sp ∧ (∀ w, w ∈ open_windows (holds s) ↔ is_Some (s_open sp !! w)) ∧
  effect_agrees e (globally_paused s) (globally_paused (hold_step e s).1) (hold_step e s).2.
Proof.
  intros Hes s sp. pose proof (hold_run_ok es _ _ start_ok Hes) as Hok. fold s sp in Hok. pose proof Hok as [].
  rewrite ok_gate0. split; [by apply any_spec|]. repeat (split; [done|]). rewrite <-ok_gate0.
  by eapply hold_step_effect.
Qed.

(** ** Runs *)
Module HoldExamples.
(** Texts of the settings, each string after its length. *)
Fixpoint decode (fuel : nat) (s : str) : option (list str) :=
  match s, fuel with
  | [], _ => Some []
  | n :: s', S fuel' => (take (N.to_nat n) s' ::.) <$> decode fuel' (drop (N.to_nat n) s')
  | _, O => None
  end.
Definition encode (l : list str) : str := l ≫= λ s, N.of_nat (length s) :: s.

#[export] Instance plain_serde : Serde := {
  list_to_string := encode;
  list_from_str s := decode (length s) s;
  to_rfc3339 t := [t];
  parse_from_rfc3339 s := head s;
}.

Lemma decode_encode l fuel : length (encode l) ≤ fuel → decode fuel (encode l) = Some l.
Proof.
  revert fuel. induction l as [|s l IH]; intros fuel Hf; [by destruct fuel|].
  change (encode (s :: l)) with (N.of_nat (length s) :: s ++ encode l) in *.
  destruct fuel as [|fuel]; [simpl in Hf; lia|]. cbn [decode].
  rewrite Nat2N.id, take_app_length, drop_app_length, IH; [done|]. simpl in Hf. rewrite length_app in Hf. lia.
Qed.

#[export] Instance plain_serde_laws : SerdeLaws.
Proof. split; [|done|done]. intros l. by apply decode_encode. Qed.

Definition window (w : string) : ScheduleDecision :=
  {| active_rule_ids := []; pause := true; speed_cap := None; disabled_servers := []; pause_windows := [lit w] |}.

(** A resume inside a window lasts for the window, a restart included; the next
    window pauses. *)
Example resumed_window :
  (λ es, globally_paused (hold_run hold_start es)) <$>
    [[Tick (window "night@1") true];
     [Tick (window "night@1") true; ResumeAll; Tick (window "night@1") true; Restart; Tick (window "night@1") true];
     [Tick (window "night@1") true; ResumeAll; Tick idle true; Tick (window "night@2") true]] =
  [true; false; true].
Proof. vm_compute. reflexivity. Qed.

(** A pause for a minute during which the disk guard trips and recovers never
    ends: the guard's hold drops the deadline of the user's. *)
Example timed_pause_outlives_its_timer :
  let s := hold_run hold_start [PauseFor 0 60; DiskGuard false 20; DiskGuard true 40; TimerFires 60] in
  globally_paused s = true ∧ global_pause_reason s = Some Global ∧ pause_until s = None.
Proof. vm_compute. done. Qed.

(** Without the disk guard it ends. *)
Example timed_pause_ends : globally_paused (hold_run hold_start [PauseFor 0 60; TimerFires 60]) = false.
Proof. vm_compute. reflexivity. Qed.

(** A restart keeps the user's hold of a timed pause and forgets its deadline. *)
Example timed_pause_after_restart :
  let s := hold_run hold_start [PauseFor 0 60; Restart; TimerFires 60] in
  globally_paused s = true ∧ pause_until s = None.
Proof. vm_compute. done. Qed.
End HoldExamples.

Import HoldExamples.
Lemma holds_refine_spec_witness :
  let es := [DiskGuard false 0; Restart; PauseFor 0 60; Tick (HoldExamples.window "night@1") true; DiskGuard true 30; TimerFires 60] in
  globally_paused (hold_run hold_start es) = true ∧
  pause_until (hold_run hold_start es) = None ∧
  effect_agrees ResumeAll true false (hold_step ResumeAll (hold_run hold_start es)).2.
Proof.
  destruct (holds_refine_spec
    [DiskGuard false 0; Restart; PauseFor 0 60; Tick (HoldExamples.window "night@1") true; DiskGuard true 30; TimerFires 60] ResumeAll)
    as (Hg & _ & _ & _ & Hu & _ & He).
  { cbn [undisturbed]. split_and!; done. }
  split; [rewrite Hg; by vm_compute|]. split; [rewrite Hu; by vm_compute|exact He].
Defined.
