(* ===== verification/Queue.v ===== *)
(** * The queue of jobs

    The scheduling part of [QueueManager] of
    [crates/nzb-web/src/queue_manager.rs]: which jobs download, in what order,
    and what pauses, resumes and ends them. An operation that takes the locks
    several times is one step. The dispatcher is behind the interface
    [DispatchEngine]; rows of the database, logs, notifications and the files
    of a job are left out. *)
From coqutil Require Import Datatypes.RecordSetters.
From S2P Require Import Prelude Str Models Hopeless Holds.
From S2P Require Schedule.
Import TriangleBracketNotations.
#[local] Open Scope record_set.

(** ** The dispatcher

    [DispatchEngine] of [crates/nzb-dispatch/src/dispatch_engine.rs], with one
    observation more than the trait: whether a job's work is paused. *)
Class DispatchEngine (D : Type) := {
  submit_job : string → NzbJob → D → D;
  dispatch_pause : string → D → D;
  dispatch_resume : string → D → D;
  dispatch_cancel : string → D → D;
  dispatch_abort : string → str → D → bool * D;
  release_completed_job : string → D → D;
  has_job : D → string → bool;
  work_paused : D → string → bool;
}.

(** What the queue relies on: an operation on a job concerns that job alone, a
    submitted job is not paused, and a cancelled or released one is gone. *)
Class DispatchLaws (D : Type) `{DispatchEngine D} := {
  submit_has id j d k : has_job (submit_job id j d) k = true → k = id ∨ has_job d k = true;
  submit_paused id j d k :
    has_job (submit_job id j d) k = true → work_paused (submit_job id j d) k = if decide (k = id) then false else work_paused d k;
  pause_has id d k : has_job (dispatch_pause id d) k = has_job d k;
  pause_paused id d k :
    has_job d k = true → work_paused (dispatch_pause id d) k = if decide (k = id) then true else work_paused d k;
  resume_has id d k : has_job (dispatch_resume id d) k = has_job d k;
  resume_paused id d k :
    has_job d k = true → work_paused (dispatch_resume id d) k = if decide (k = id) then false else work_paused d k;
  cancel_has id d k : has_job (dispatch_cancel id d) k = true ↔ k ≠ id ∧ has_job d k = true;
  cancel_paused id d k : k ≠ id → has_job d k = true → work_paused (dispatch_cancel id d) k = work_paused d k;
  release_has id d k : has_job (release_completed_job id d) k = true ↔ k ≠ id ∧ has_job d k = true;
  release_paused id d k : k ≠ id → has_job d k = true → work_paused (release_completed_job id d) k = work_paused d k;
  abort_has id r d k : has_job (dispatch_abort id r d).2 k = has_job d k;
  abort_paused id r d k : has_job d k = true → work_paused (dispatch_abort id r d).2 k = work_paused d k;
}.

(** ** State *)
Record JobState := {
  job : NzbJob;
  added_at : N;
  error_message : option str;
  failure_code : option JobFailureCode;
  hopeless_tracker : option HopelessTracker;
}.

Definition job_status (s : JobState) : JobStatus := status (job s).
Definition with_status (st : JobStatus) (s : JobState) : JobState := s <| job := (job s) <| status := st |> |>.
Definition no_error (s : JobState) : JobState := s <| error_message := None |> <| failure_code := None |>.
Definition job_priority (s : JobState) : N := priority_u8 (priority (job s)).

Inductive QueueError := JobNotFound (id : string) | CannotResume.

Inductive QueueSortField := Remaining | Name | Size | Age | ByPriority.

Section queue.
Context {D : Type} `{DispatchEngine D} `{Serde} (to_lowercase : str → str) (char_to_lowercase : N → str).
(** The text of a verdict. *)
Context (abort_reason : HopelessAbort → str) (diagnosis_text : N * N → str).

Record QueueManager := {
  jobs : gmap string JobState;
  job_order : list string;
  globally_paused_jobs : gset string;
  pauses : PauseState;
  max_active_downloads : nat;
  dispatch : D;
  configured_servers : list (str * bool);
  schedule_disabled_servers : list str;
  live_servers : list (str * bool);
  configured_speed_limit_bps : N;
  scheduled_speed_cap : option N;
  download_bps : option N;   (** the limiter's, [None] for none *)
}.

(** What a call returns, with the state it leaves. *)
Abbreviation outcome := (result QueueError unit * QueueManager)%type.

Definition is_paused (q : QueueManager) : bool := globally_paused (pauses q).
Definition status_of (q : QueueManager) (id : string) : option JobStatus := job_status <$> jobs q !! id.

Definition update_job (id : string) (f : JobState → JobState) (q : QueueManager) : QueueManager :=
  q <| jobs := alter f id (jobs q) |>.
Definition on_dispatch (f : D → D) (q : QueueManager) : QueueManager := q <| dispatch := f (dispatch q) |>.

(** ** Slots *)
Definition active_download_count (q : QueueManager) : nat :=
  size (filter (λ kv, job_status kv.2 = Downloading) (jobs q)).

(** [max > 0 && active >= max] *)
Definition at_limit (max : nat) (q : QueueManager) : bool :=
  bool_decide (0 < max ∧ max ≤ active_download_count q).

(** The queued job of the highest priority, first in the order. *)
Definition best_queued (q : QueueManager) : option (string * N) :=
  foldl (λ best id,
    match jobs q !! id with
    | Some s =>
      if decide (job_status s = Queued) then
        match best with
        | Some (_, bp) => if decide (bp < job_priority s)%N then Some (id, job_priority s) else best
        | None => Some (id, job_priority s)
        end
      else best
    | None => best
    end) None (job_order q).

Definition claim_next_download_slot (max : nat) (q : QueueManager) : option (string * QueueManager) :=
  if is_paused q then None
  else if at_limit max q then None
  else '(id, _) ← best_queued q; Some (id, update_job id (with_status Downloading) q).

(** The clock of the no-progress watchdog. *)
Definition restart_clock (now : N) (s : JobState) : JobState :=
  s <| hopeless_tracker := reset_progress_clock now <$> hopeless_tracker s |>.

Definition resume_queued_context (now : N) (id : string) (q : QueueManager) : QueueManager :=
  on_dispatch (dispatch_resume id) (update_job id (λ s, restart_clock now (no_error s)) q).

Definition low_disk : str := lit "Paused: low disk space".

(** [launch_download], of a job whose files are loaded; [disk_ok] says whether
    its volumes have room. *)
Definition launch_download (now : N) (disk_ok : string → bool) (id : string) (q : QueueManager) : QueueManager :=
  match jobs q !! id with
  | None => q
  | Some s =>
    if negb (disk_ok id) then
      update_job id (λ s, with_status Paused s <| error_message := Some low_disk |>
                            <| failure_code := Some StorageUnavailable |>) q
    else
      update_job id (λ s, s <| hopeless_tracker := Some (new to_lowercase now (files (job s))) |>)
        (on_dispatch (submit_job id (job s)) q)
  end.

(** A claimed job is resumed where the dispatcher still holds it. *)
Definition start_claimed (now : N) (disk_ok : string → bool) (id : string) (q : QueueManager) : QueueManager :=
  if has_job (dispatch q) id then resume_queued_context now id q else launch_download now disk_ok id q.

Fixpoint start_loop (fuel : nat) (now : N) (disk_ok : string → bool) (max : nat) (q : QueueManager) : QueueManager :=
  match fuel with
  | O => q
  | S fuel' =>
    match claim_next_download_slot max q with
    | Some (id, q') => start_loop fuel' now disk_ok max (start_claimed now disk_ok id q')
    | None => q
    end
  end.

(** One turn more than there are queued jobs. *)
Definition queued_count (q : QueueManager) : nat := size (filter (λ kv, job_status kv.2 = Queued) (jobs q)).
Definition start_next_queued (now : N) (disk_ok : string → bool) (q : QueueManager) : QueueManager :=
  start_loop (S (queued_count q)) now disk_ok (max_active_downloads q) q.

(** ** The limit *)

(** The downloading job of the lowest priority, last in the order. *)
Definition worst_downloading (q : QueueManager) : option (string * N) :=
  foldl (λ worst id,
    match jobs q !! id with
    | Some s =>
      if decide (job_status s = Downloading) then
        match worst with
        | Some (_, wp) => if decide (job_priority s ≤ wp)%N then Some (id, job_priority s) else worst
        | None => Some (id, job_priority s)
        end
      else worst
    | None => worst
    end) None (job_order q).

Fixpoint requeue_loop (fuel : nat) (q : QueueManager) : QueueManager :=
  match fuel with
  | O => q
  | S fuel' =>
    if decide (active_download_count q ≤ max_active_downloads q) then q
    else
      match worst_downloading q with
      | None => q
      | Some (id, _) =>
        requeue_loop fuel' (update_job id (with_status Queued) (on_dispatch (dispatch_pause id) q))
      end
  end.

Definition requeue_over_limit (q : QueueManager) : QueueManager :=
  if decide (max_active_downloads q = 0) then q else requeue_loop (active_download_count q) q.

Definition set_max_active_downloads (now : N) (disk_ok : string → bool) (max : nat) (q : QueueManager) : QueueManager :=
  start_next_queued now disk_ok (requeue_over_limit (q <| max_active_downloads := max |>)).

(** ** Order *)

(** A stable sort by a comparison. *)
Fixpoint insert_by {A} (le : A → A → bool) (x : A) (l : list A) : list A :=
  match l with
  | [] => [x]
  | y :: l' => if le x y then x :: l else y :: insert_by le x l'
  end.
Definition sort_by {A} (le : A → A → bool) (l : list A) : list A := foldr (insert_by le) [] l.

Definition priority_of (q : QueueManager) (id : string) : N :=
  match jobs q !! id with Some s => job_priority s | None => 0%N end.

Definition set_job_priority (now : N) (disk_ok : string → bool) (id : string) (p : Priority) (q : QueueManager)
    : outcome :=
  match jobs q !! id with
  | None => (Err (JobNotFound id), q)
  | Some _ =>
    let q := update_job id (λ s, s <| job := (job s) <| priority := p |> |>) q in
    let q := q <| job_order := sort_by (λ a b, bool_decide (priority_of q b ≤ priority_of q a)%N) (job_order q) |> in
    (Ok (), start_next_queued now disk_ok q)
  end.

(** [QueueSortField::compare], as less-or-equal. *)
Definition compare_le (f : QueueSortField) (l r : JobState) : bool :=
  match f with
  | Remaining =>
    let remaining s := (total_bytes (job s) `max` 1 - downloaded_bytes (job s))%N in
    let total s := (total_bytes (job s) `max` 1)%N in
    bool_decide (remaining l * total r ≤ remaining r * total l)%N
  | Name => str_leb (name (job l) ≫= char_to_lowercase) (name (job r) ≫= char_to_lowercase)
  | Size => bool_decide (total_bytes (job l) ≤ total_bytes (job r))%N
  | Age => bool_decide (added_at r ≤ added_at l)%N
  | ByPriority => bool_decide (job_priority l ≤ job_priority r)%N
  end.

Definition sort_queue (f : QueueSortField) (ascending : bool) (q : QueueManager) : QueueManager :=
  q <| job_order := sort_by (λ a b,
         match jobs q !! a, jobs q !! b with
         | Some l, Some r => if ascending then compare_le f l r else compare_le f r l
         | _, _ => true
         end) (job_order q) |>.

Definition queued_job_outranks_active (queued_priority : N) (queued_index : nat) (active_priority : N)
    (active_index : nat) : bool :=
  bool_decide (active_priority < queued_priority)%N ||
  (bool_decide (queued_priority = active_priority) && bool_decide (queued_index < active_index)).

Definition index_of (id : string) (l : list string) : nat := default 0 (fst <$> list_find (λ x, x = id) l).

Fixpoint preempt_loop (fuel : nat) (now : N) (disk_ok : string → bool) (q : QueueManager) : QueueManager :=
  match fuel with
  | O => q
  | S fuel' =>
    if decide (max_active_downloads q = 0 ∨ active_download_count q < max_active_downloads q)
    then start_next_queued now disk_ok q
    else
      match best_queued q, worst_downloading q with
      | Some (q_id, q_pri), Some (d_id, d_pri) =>
        if queued_job_outranks_active q_pri (index_of q_id (job_order q)) d_pri (index_of d_id (job_order q))
        then preempt_loop fuel' now disk_ok
               (update_job d_id (with_status Paused) (on_dispatch (dispatch_pause d_id) q))
        else q
      | _, _ => q
      end
  end.

Definition preempt_if_needed (now : N) (disk_ok : string → bool) (q : QueueManager) : QueueManager :=
  preempt_loop (S (active_download_count q)) now disk_ok q.

Definition move_job (now : N) (disk_ok : string → bool) (id : string) (position : nat) (q : QueueManager)
    : outcome :=
  match list_find (λ x, x = id) (job_order q) with
  | None => (Err (JobNotFound id), q)
  | Some (i, _) =>
    let order := delete i (job_order q) in
    let new_pos := position `min` length order in
    (Ok (), preempt_if_needed now disk_ok (q <| job_order := take new_pos order ++ id :: drop new_pos order |>))
  end.

(** ** One job *)
Definition pause_job (now : N) (disk_ok : string → bool) (id : string) (q : QueueManager) : outcome :=
  let q := on_dispatch (dispatch_pause id) q in
  match jobs q !! id with
  | None => (Err (JobNotFound id), q)
  | Some _ =>
    let q := update_job id (λ s,
      let s := with_status Paused s in
      if decide (failure_code s = Some StorageUnavailable) then no_error s else s) q in
    let q := q <| globally_paused_jobs := globally_paused_jobs q ∖ {[id]} |> in
    (Ok (), start_next_queued now disk_ok q)
  end.

Definition resume_job (now : N) (disk_ok : string → bool) (id : string) (q : QueueManager) : outcome :=
  if is_paused q then (Err CannotResume, q)
  else
    let ctx_alive := has_job (dispatch q) id in
    match jobs q !! id with
    | None => (Err (JobNotFound id), q)
    | Some _ =>
      if at_limit (max_active_downloads q) q then (Ok (), update_job id (with_status Queued) q)
      else if ctx_alive then
        (Ok (), on_dispatch (dispatch_resume id)
                  (update_job id (λ s, restart_clock now (no_error (with_status Downloading s))) q))
      else (Ok (), launch_download now disk_ok id (update_job id (λ s, no_error (with_status Downloading s)) q))
    end.

(** Post-processing owns its job until it ends. *)
Definition post_processing (st : JobStatus) : bool :=
  match st with PostProcessing | Verifying | Repairing | Extracting => true | _ => false end.

Definition remove_job (id : string) (q : QueueManager) : outcome :=
  match status_of q id with
  | Some st =>
    if post_processing st then (Ok (), q)
    else
      let q := on_dispatch (dispatch_cancel id) q in
      (Ok (), q <| jobs := delete id (jobs q) |> <| globally_paused_jobs := globally_paused_jobs q ∖ {[id]} |>
                <| job_order := filter (λ j, j ≠ id) (job_order q) |>)
  | None => (Ok (), on_dispatch (dispatch_cancel id) q)
  end.

(** [activate_admitted_job], of a job already stored. *)
Definition activate_admitted_job (now : N) (disk_ok : string → bool) (id : string) (j : NzbJob) (added : N)
    (q : QueueManager) : QueueManager :=
  let requested_paused := bool_decide (status j = Paused) in
  let state st := {| job := j <| status := st |>; added_at := added; error_message := None; failure_code := None;
                     hopeless_tracker := None |} in
  if requested_paused || is_paused q then
    q <| jobs := <[id := state Paused]> (jobs q) |>
      <| globally_paused_jobs :=
           if requested_paused then globally_paused_jobs q else {[id]} ∪ globally_paused_jobs q |>
      <| job_order := job_order q ++ [id] |>
  else
    start_next_queued now disk_ok
      (q <| jobs := <[id := state Queued]> (jobs q) |> <| job_order := job_order q ++ [id] |>).

(** ** The whole queue *)
Definition held_by_global_pause (s : JobState) : bool :=
  bool_decide (job_status s = Downloading ∨ job_status s = Queued).

Definition pause_jobs_for_global_hold (q : QueueManager) : QueueManager :=
  let to_pause := filter (λ kv, held_by_global_pause kv.2 = true) (jobs q) in
  q <| jobs := (λ s, if held_by_global_pause s then with_status Paused s else s) <$> jobs q |>
    <| globally_paused_jobs := globally_paused_jobs q ∪ dom to_pause |>
    <| dispatch := foldl (λ d id, dispatch_pause id d) (dispatch q) (elements (dom to_pause)) |>.

(** The jobs that resume leave their errors behind and are queued. *)
Definition requeue (p : string → JobState → bool) (q : QueueManager) : QueueManager :=
  q <| jobs := map_imap (λ id s, Some (if bool_decide (job_status s = Paused) && p id s
                                        then with_status Queued (no_error s) else s)) (jobs q) |>.

Definition resume_jobs_after_holds (now : N) (disk_ok : string → bool) (q : QueueManager) : QueueManager :=
  let paused_by_global := globally_paused_jobs q in
  let q := q <| globally_paused_jobs := ∅ |> in
  start_next_queued now disk_ok (requeue (λ id _, bool_decide (id ∈ paused_by_global)) q).

(** An operation on the holds, with what it asks of the jobs. *)
Definition with_holds (now : N) (disk_ok : string → bool) (f : PauseState → PauseState * JobsEffect)
    (q : QueueManager) : QueueManager :=
  let (p, e) := f (pauses q) in
  let q := q <| pauses := p |> in
  match e with
  | PauseJobs => pause_jobs_for_global_hold q
  | ResumeJobs => resume_jobs_after_holds now disk_ok q
  | KeepJobs => q
  end.

(** [resume_server_paused_jobs] and [resume_storage_held_jobs]: [start_next_queued]
    runs when a job was requeued. *)
Definition resume_paused_jobs (now : N) (disk_ok : string → bool) (p : string → JobState → bool) (q : QueueManager)
    : QueueManager :=
  if is_paused q then q
  else if decide (map_Exists (λ id s, job_status s = Paused ∧ p id s = true) (jobs q))
  then start_next_queued now disk_ok (requeue p q) else q.

Definition resume_server_paused_jobs (now : N) (disk_ok : string → bool) : QueueManager → QueueManager :=
  resume_paused_jobs now disk_ok (λ _ s, bool_decide (is_Some (error_message s))).
Definition resume_storage_held_jobs (now : N) (disk_ok : string → bool) : QueueManager → QueueManager :=
  resume_paused_jobs now disk_ok (λ _ s, bool_decide (failure_code s = Some StorageUnavailable)).

(** [enforce_disk_guard], given whether the configured volumes have room. *)
Definition disk_guard (now : N) (disk_ok : string → bool) (available : bool) (q : QueueManager) : QueueManager :=
  let q := with_holds now disk_ok (Holds.enforce_disk_guard available now) q in
  if available then resume_storage_held_jobs now disk_ok q else q.

(** ** Servers and speed *)
Definition overlay (disabled : list str) (servers : list (str * bool)) : list (str * bool) :=
  (λ s, (s.1, s.2 && negb (bool_decide (s.1 ∈ disabled)))) <$> servers.

Definition apply_server_overlay (now : N) (disk_ok : string → bool) (q : QueueManager) : QueueManager :=
  let effective := overlay (schedule_disabled_servers q) (configured_servers q) in
  let q := q <| live_servers := effective |> in
  if decide (Exists (λ s, s.2 = true) effective) then resume_server_paused_jobs now disk_ok q else q.

Definition update_servers (now : N) (disk_ok : string → bool) (servers : list (str * bool)) (q : QueueManager)
    : QueueManager :=
  apply_server_overlay now disk_ok (q <| configured_servers := servers |>).

(** [NonZeroU32] of the effective limit, saturated. *)
Definition apply_effective_speed_limit (q : QueueManager) : QueueManager :=
  let effective := default (configured_speed_limit_bps q) (scheduled_speed_cap q) in
  q <| download_bps := if decide (effective = 0%N) then None else Some (N.min effective u32_max) |>.

Definition set_speed_limit (bps : N) (q : QueueManager) : QueueManager :=
  apply_effective_speed_limit (q <| configured_speed_limit_bps := bps |>).

Definition set_scheduled_speed_cap (cap : option N) (q : QueueManager) : QueueManager :=
  apply_effective_speed_limit (q <| scheduled_speed_cap := cap |>).

Definition get_speed_limit (q : QueueManager) : N := default 0%N (download_bps q).

Definition apply_schedule (now : N) (disk_ok : string → bool) (d : Schedule.ScheduleDecision) (enabled : bool)
    (q : QueueManager) : QueueManager :=
  let q := with_holds now disk_ok (Holds.apply_schedule d enabled) q in
  let d := if enabled then d else Schedule.idle in
  let q := if decide (scheduled_speed_cap q = Schedule.speed_cap d) then q
           else set_scheduled_speed_cap (Schedule.speed_cap d) q in
  if decide (schedule_disabled_servers q = Schedule.disabled_servers d) then q
  else apply_server_overlay now disk_ok (q <| schedule_disabled_servers := Schedule.disabled_servers d |>).

(** ** What the dispatcher and post-processing report *)
Definition waiting_for_providers (id : string) (message : str) : QueueManager → QueueManager :=
  update_job id (λ s, s <| error_message := Some message |>).

Definition WAITING : str := lit "Waiting for providers:".

Definition providers_available (id : string) : QueueManager → QueueManager :=
  update_job id (λ s,
    match error_message s with Some m => if bool_decide (WAITING `prefix_of` m) then no_error s else s | None => s end).

(** The end of [move_to_history]: [no_output] when an unpacking job that ran
    stages left nothing but archives. *)
Definition OUTPUT_MESSAGE : str := lit "No usable output produced; only archive or PAR2 artifacts remain".
Definition move_to_history (no_output : bool) (s : JobState) : JobState :=
  if decide (job_status s = Failed) then s
  else if no_output then
    (with_status Failed s) <| error_message := Some OUTPUT_MESSAGE |> <| failure_code := Some ArchiveInvalid |>
  else with_status Completed s.

(** [finish_aborted] *)
Definition finish_aborted (now : N) (disk_ok : string → bool) (id : string) (reason : str) (q : QueueManager)
    : QueueManager :=
  let q := on_dispatch (release_completed_job id) q in
  start_next_queued now disk_ok
    (update_job id (λ s, move_to_history false
       ((with_status Failed s) <| error_message := Some reason |> <| failure_code := Some ArticlesUnavailable |>)) q).

(** The [JobFinished] arm of [run_progress_handler]: [slice_map] gives the
    damaged and the recovery slices, [incomplete_nzb] is the dispatcher's note. *)
Definition ABORTED : str := lit "Aborted: ".

Definition diagnosis (abort_hopeless : bool) (slice_map : option (N * N)) (id : string) (q : QueueManager)
    : option (N * N) :=
  if abort_hopeless then
    '(damaged, recovery) ← slice_map; t ← jobs q !! id ≫= hopeless_tracker;
    parity_diagnosis damaged recovery (if recovery_blocks_known t then Some (recovery_blocks_available t) else None)
  else None.

Definition job_finished (abort_hopeless : bool) (now : N) (disk_ok : string → bool) (id : string)
    (slice_map : option (N * N)) (incomplete_nzb : option str) (q : QueueManager) : QueueManager :=
  match diagnosis abort_hopeless slice_map id q with
  | Some d => finish_aborted now disk_ok id (ABORTED ++ diagnosis_text d) q
  | None =>
    let q := on_dispatch (release_completed_job id) q in
    start_next_queued now disk_ok
      (update_job id (λ s, (with_status PostProcessing s) <| error_message := union incomplete_nzb (error_message s) |>) q)
  end.

(** What [on_job_finished] finds: no room to run in, or the pipeline's failure,
    the script's and whether there is output. *)
Inductive PostProcOutcome :=
  | NoRoom
  | Ran (failure : option (option str * option JobFailureCode)) (script : option (option str)) (no_output : bool).

Definition POSTPROC_DISK_FULL_MESSAGE : str := lit "Insufficient free disk space for post-processing".

Definition post_processed (o : PostProcOutcome) (s : JobState) : JobState :=
  match o with
  | NoRoom => move_to_history false ((with_status Failed s) <| error_message := Some POSTPROC_DISK_FULL_MESSAGE |>)
  | Ran failure script no_output =>
    let s := match failure with
             | Some (error, code) => (with_status Failed s) <| error_message := error |>
                                       <| failure_code := Some (default DownloadFailed code) |>
             | None => s
             end in
    let s := match script with
             | Some message => (with_status Failed s) <| error_message := union (error_message s) message |>
             | None => s
             end in
    move_to_history no_output s
  end.

Definition on_job_finished (now : N) (disk_ok : string → bool) (id : string) (o : PostProcOutcome) (q : QueueManager)
    : QueueManager :=
  match jobs q !! id with
  | None => q
  | Some _ =>
    let q := update_job id (post_processed o) q in
    match o with NoRoom => start_next_queued now disk_ok q | _ => q end
  end.

(** Eight seconds after its end a job leaves the queue. *)
Definition forget (id : string) (q : QueueManager) : QueueManager :=
  q <| jobs := delete id (jobs q) |> <| job_order := filter (λ j, j ≠ id) (job_order q) |>.

(** [scan_for_no_progress_jobs], at [now] with the configured [timeout]. *)
Definition no_progress (now timeout : N) (s : JobState) : option str :=
  if decide (job_status s = Downloading) then
    t ← hopeless_tracker s; abort_reason <$> time_based_check now timeout t
  else None.

Definition scan_for_no_progress_jobs (abort_hopeless : bool) (now timeout : N) (q : QueueManager) : QueueManager :=
  if negb abort_hopeless then q
  else
    let to_abort := omap (no_progress now timeout) (jobs q) in
    foldl (λ q '(id, r),
      on_dispatch (λ d, (dispatch_abort id r d).2) (update_job id (λ s, s <| error_message := Some r |>) q))
      q (map_to_list to_abort).

(** [pause_reason] of a job. *)
Definition pause_reason (id : string) (q : QueueManager) : option PauseReason :=
  s ← jobs q !! id;
  if decide (job_status s = Paused) then
    Some (if decide (failure_code s = Some StorageUnavailable) then DiskSpace
          else if decide (id ∈ globally_paused_jobs q) then default Global (global_pause_reason (pauses q))
          else if decide (is_Some (error_message s)) then Server else Manual)
  else None.

(** ** Restart

    [restore_from_db]: the rows of the queue, in their order, and the set of the
    globally paused jobs. *)
Definition restored_by_global (was_paused : bool) (ids : option (gset string)) (id : string) (st : JobStatus) : bool :=
  was_paused && match ids with Some ids => bool_decide (id ∈ ids) | None => bool_decide (st = Paused) end.

Definition restored_status (by_global : bool) (st : JobStatus) : JobStatus :=
  if by_global then Paused
  else if decide (st = Downloading) then Queued else if post_processing st then PostProcessing else st.

Definition restore_row (was_paused : bool) (ids : option (gset string)) (q : QueueManager) (row : string * JobState)
    : QueueManager :=
  let '(id, s) := row in
  let by_global := restored_by_global was_paused ids id (job_status s) in
  let s := (with_status (restored_status by_global (job_status s)) s) <| failure_code := None |>
             <| hopeless_tracker := None |> in
  q <| jobs := <[id := s]> (jobs q) |> <| job_order := job_order q ++ [id] |>
    <| globally_paused_jobs := if by_global then {[id]} ∪ globally_paused_jobs q else globally_paused_jobs q |>.

Definition restore_from_db (now : N) (disk_ok : string → bool) (db : Settings) (ids : option (gset string))
    (rows : list (string * JobState)) (q : QueueManager) : QueueManager :=
  let q := q <| pauses := restore_holds db |> in
  match rows with
  | [] => q
  | _ => start_next_queued now disk_ok (foldl (restore_row (flag_setting "globally_paused" db) ids) q rows)
  end.
End queue.
