(* ===== verification/QueueProps.v ===== *)
(** * What the queue keeps

    Over any run of the operations of [Queue]: the order lists the jobs, the
    limit and the global pause hold, the dispatcher works only on downloading
    jobs, no slot stays free while a job waits for one, and slots go by rank. *)
From coqutil Require Import Datatypes.RecordSetters.
From S2P Require Import Prelude Str Models Hopeless Holds Queue.
Import TriangleBracketNotations.
#[local] Open Scope record_set.

Create HintDb queue.

Lemma foldl_ext {A B} (f g : A → B → A) (l : list B) a : (∀ a x, f a x = g a x) → foldl f a l = foldl g a l.
Proof. intros E. revert a. induction l as [|x l IH]; intros a; simpl; [done|]. by rewrite E, IH. Qed.

(** ** Counting by status *)
Abbreviation status_map := (gmap string JobStatus).

Definition counted (st : JobStatus) (m : status_map) : nat := size (filter (λ kv, kv.2 = st) m).

Lemma counted_empty st : counted st ∅ = 0.
Proof. unfold counted. by rewrite map_filter_empty, map_size_empty. Qed.

Lemma counted_fresh st m id x :
  m !! id = None → counted st (<[id:=x]> m) = (if decide (x = st) then 1 else 0) + counted st m.
Proof.
  intros Hm. unfold counted. case_decide as Hx.
  - rewrite map_filter_insert_True by done.
    rewrite map_size_insert_None; [done|]. apply map_lookup_filter_None. auto.
  - rewrite map_filter_insert_False by done. by rewrite delete_id.
Qed.

Lemma counted_delete st m id x :
  m !! id = Some x → counted st m = (if decide (x = st) then 1 else 0) + counted st (delete id m).
Proof.
  intros Hm. pose proof (counted_fresh st (delete id m) id x (lookup_delete_eq _ _)) as E.
  by rewrite insert_delete_id in E.
Qed.

Lemma counted_insert st m id x y :
  m !! id = Some y →
  counted st (<[id:=x]> m) + (if decide (y = st) then 1 else 0) = (if decide (x = st) then 1 else 0) + counted st m.
Proof.
  intros Hm. rewrite (counted_delete st m id y Hm), <- insert_delete_eq, counted_fresh by apply lookup_delete_eq. lia.
Qed.

Lemma counted_pos st m : 0 < counted st m ↔ ∃ id, m !! id = Some st.
Proof.
  unfold counted. split.
  - intros Hp. destruct (decide (filter (λ kv, kv.2 = st) m = ∅)) as [E|E]; [rewrite E, map_size_empty in Hp; lia|].
    apply map_choose in E as (id & x & E). apply map_lookup_filter_Some in E as [E Hx]. simpl in Hx. subst. eauto.
  - intros [id Hid]. enough (size (filter (λ kv, kv.2 = st) m) ≠ 0) by lia.
    rewrite map_size_ne_0_lookup. exists id, st. by apply map_lookup_filter_Some.
Qed.

Lemma counted_le_delete st m id : counted st (delete id m) ≤ counted st m.
Proof.
  destruct (m !! id) as [x|] eqn:E; [rewrite (counted_delete st m id x E); lia|].
  by rewrite delete_id.
Qed.

(** ** The view of the queue the invariant speaks of *)
Section view.
Context {D : Type} `{DispatchLaws D}.

Definition statuses (q : QueueManager (D:=D)) : status_map := job_status <$> jobs q.

Lemma status_of_statuses q id : status_of q id = statuses q !! id.
Proof. unfold status_of, statuses. by rewrite lookup_fmap. Qed.

Lemma active_counted q : active_download_count q = counted Downloading (statuses q).
Proof.
  unfold active_download_count, counted, statuses.
  rewrite map_filter_fmap, map_size_fmap. f_equal.
Qed.

Lemma queued_counted q : queued_count q = counted Queued (statuses q).
Proof.
  unfold queued_count, counted, statuses. rewrite map_filter_fmap, map_size_fmap. f_equal.
Qed.

Lemma jobs_update_job id f (q : QueueManager (D:=D)) : jobs (update_job id f q) = alter f id (jobs q).
Proof. by destruct q. Qed.

Lemma statuses_alter f id (q : QueueManager (D:=D)) st :
  (∀ s, jobs q !! id = Some s → job_status (f s) = st) →
  statuses (update_job id f q) = if decide (is_Some (jobs q !! id)) then <[id:=st]> (statuses q) else statuses q.
Proof.
  intros Hf. apply map_eq. intros k. unfold statuses. rewrite jobs_update_job, lookup_fmap.
  destruct (decide (k = id)) as [->|Hk].
  - rewrite lookup_alter_eq. case_decide as E.
    + rewrite lookup_insert_eq. destruct E as [s E]. rewrite E. simpl. f_equal. by apply Hf.
    + apply eq_None_not_Some in E. by rewrite lookup_fmap, E.
  - rewrite lookup_alter_ne by done. case_decide; [rewrite lookup_insert_ne by done|]; by rewrite lookup_fmap.
Qed.

Lemma statuses_keep f id (q : QueueManager (D:=D)) :
  (∀ s, job_status (f s) = job_status s) → statuses (update_job id f q) = statuses q.
Proof.
  intros Hf. apply map_eq. intros k. unfold statuses. rewrite jobs_update_job, !lookup_fmap.
  destruct (decide (k = id)) as [->|Hk]; [rewrite lookup_alter_eq|by rewrite lookup_alter_ne by done].
  destruct (jobs q !! id); simpl; [by rewrite Hf|done].
Qed.

(** A job the dispatcher may hold. *)
Definition live (st : JobStatus) : Prop := st = Queued ∨ st = Downloading ∨ st = Paused.

(** [d'] differs from [d] at the job [id] alone, and invents no other. *)
Definition frame (id : string) (d d' : D) : Prop :=
  ∀ k, k ≠ id → has_job d' k = true → has_job d k = true ∧ work_paused d' k = work_paused d k.

Record view_ok (m : status_map) (order : list string) (p : PauseState) (max : nat) (d : D) : Prop := {
  ok_nodup : NoDup order;
  ok_order id : id ∈ order ↔ is_Some (m !! id);
  ok_gate : globally_paused p = any (holds p);
  ok_paused id : globally_paused p = true → m !! id ≠ Some Downloading;
  ok_limit : 0 < max → counted Downloading m ≤ max;
  ok_dispatch id : has_job d id = true →
    ∃ st, m !! id = Some st ∧ live st ∧ (work_paused d id = false ↔ st = Downloading);
}.

Definition queue_ok (q : QueueManager (D:=D)) : Prop :=
  view_ok (statuses q) (job_order q) (pauses q) (max_active_downloads q) (dispatch q).

(** No slot is free while a job waits for one. *)
Definition no_idle (q : QueueManager (D:=D)) : Prop :=
  is_paused q = false → counted Queued (statuses q) ≠ 0 →
  0 < max_active_downloads q ∧ max_active_downloads q ≤ counted Downloading (statuses q).

(** One job changes its status. *)
Lemma view_ok_insert m order p max d d' id st st' :
  view_ok m order p max d → m !! id = Some st' →
  (st = Downloading → globally_paused p = false) →
  (st = Downloading → st' = Downloading ∨ max = 0 ∨ counted Downloading m < max) →
  frame id d d' →
  (has_job d' id = true → live st ∧ (work_paused d' id = false ↔ st = Downloading)) →
  view_ok (<[id:=st]> m) order p max d'.
Proof.
  intros [N O G P L W] Hid Hp Hl Hf Hd. split; [done| |done| | |].
  - intros k. rewrite O. destruct (decide (k = id)) as [->|Hk].
    + rewrite lookup_insert_eq, Hid. split; eauto.
    + by rewrite lookup_insert_ne.
  - intros k Hg. destruct (decide (k = id)) as [->|Hk].
    + rewrite lookup_insert_eq. intros [= ->]. rewrite Hp in Hg; done.
    + rewrite lookup_insert_ne by done. by apply P.
  - intros Hmax. specialize (L Hmax). pose proof (counted_insert Downloading m id st st' Hid) as Hc.
    destruct (decide (st = Downloading)) as [E|E]; [|destruct (decide (st' = Downloading)); lia].
    destruct (Hl E) as [->|[?|?]]; [rewrite decide_True in Hc by done; lia|..]; destruct (decide (st' = Downloading)); lia.
  - intros k Hk. destruct (decide (k = id)) as [->|Hne].
    + rewrite lookup_insert_eq. destruct (Hd Hk). eauto.
    + rewrite lookup_insert_ne by done. destruct (Hf k Hne Hk) as [Hk' E]. rewrite E. by apply W.
Qed.

(** The dispatcher alone acts. *)
Lemma view_ok_dispatch m order p max d d' id :
  view_ok m order p max d → frame id d d' →
  (has_job d' id = true → has_job d id = true ∧ work_paused d' id = work_paused d id) →
  view_ok m order p max d'.
Proof.
  intros [N O G P L W] Hf Hd. split; [done..|].
  intros k Hk. destruct (decide (k = id)) as [->|Hne].
  - destruct (Hd Hk) as [Hk' E]. rewrite E. by apply W.
  - destruct (Hf k Hne Hk) as [Hk' E]. rewrite E. by apply W.
Qed.

Lemma frame_refl id d : frame id d d.
Proof. by intros k. Qed.
Lemma frame_trans id d d' d'' : frame id d d' → frame id d' d'' → frame id d d''.
Proof. intros H1 H2 k Hk Hh. destruct (H2 k Hk Hh) as [Hh' ->]. by apply H1. Qed.
Lemma frame_submit id j d : frame id d (submit_job id j d).
Proof.
  intros k Hk Hh. pose proof (submit_paused id j d k Hh) as E. rewrite decide_False in E by done.
  destruct (submit_has id j d k Hh); [done|auto].
Qed.
Lemma frame_pause id d : frame id d (dispatch_pause id d).
Proof. intros k Hk Hh. rewrite pause_has in Hh. split; [done|]. rewrite pause_paused, decide_False; done. Qed.
Lemma frame_resume id d : frame id d (dispatch_resume id d).
Proof. intros k Hk Hh. rewrite resume_has in Hh. split; [done|]. rewrite resume_paused, decide_False; done. Qed.
Lemma frame_cancel id d : frame id d (dispatch_cancel id d).
Proof. intros k Hk Hh. apply cancel_has in Hh as [_ Hh]. split; [done|]. by apply cancel_paused. Qed.
Lemma frame_release id d : frame id d (release_completed_job id d).
Proof. intros k Hk Hh. apply release_has in Hh as [_ Hh]. split; [done|]. by apply release_paused. Qed.
Lemma frame_abort id r d : frame id d (dispatch_abort id r d).2.
Proof. intros k Hk Hh. rewrite abort_has in Hh. split; [done|]. by apply abort_paused. Qed.
End view.
#[export] Hint Resolve frame_refl frame_submit frame_pause frame_resume frame_cancel frame_release frame_abort : queue.

(** ** Ranks *)
Section index.
Implicit Types l : list string.

Lemma list_find_here x l1 l2 : x ∉ l1 → list_find (λ y, y = x) (l1 ++ x :: l2) = Some (length l1, x).
Proof.
  intros Hx. apply list_find_Some. split_and!; [by rewrite lookup_app_r, Nat.sub_diag by lia|done|].
  intros j y Hj Hlt ->. apply Hx. rewrite lookup_app_l in Hj by done. by apply list_elem_of_lookup_2 in Hj.
Qed.

Lemma index_of_here x l1 l2 : x ∉ l1 → index_of x (l1 ++ x :: l2) = length l1.
Proof. intros Hx. unfold index_of. by rewrite list_find_here. Qed.

Lemma index_of_app_l x l1 l2 : x ∈ l1 → index_of x (l1 ++ l2) < length l1.
Proof.
  intros (a & b & -> & Ha)%list_elem_of_split_l. rewrite <- (assoc_L (++)). simpl.
  rewrite index_of_here by done. rewrite length_app. simpl. lia.
Qed.

Lemma index_of_app_r x y l1 l2 : NoDup (l1 ++ y :: l2) → x ∈ l2 → length l1 < index_of x (l1 ++ y :: l2).
Proof.
  intros Hd (a & b & -> & Ha)%list_elem_of_split_l. apply NoDup_app in Hd as (_ & H12 & Hd).
  apply NoDup_cons in Hd as [Hy _].
  assert (x ∉ l1 ++ y :: a) as Hx.
  { rewrite elem_of_app, elem_of_cons. intros [?|[->|?]]; [|by apply Hy; set_solver|done]. by apply (H12 x); set_solver. }
  replace (l1 ++ y :: a ++ x :: b) with ((l1 ++ y :: a) ++ x :: b) by (by rewrite <- (assoc_L (++))).
  rewrite index_of_here by done. rewrite length_app. simpl. lia.
Qed.
End index.

Section ranks.
Context {D : Type}.
Implicit Types q : QueueManager (D:=D).

Definition outranks (q : QueueManager (D:=D)) (a b : string) : Prop :=
  queued_job_outranks_active (priority_of q a) (index_of a (job_order q))
    (priority_of q b) (index_of b (job_order q)) = true.

Lemma outranks_iff q a b : outranks q a b ↔
  (priority_of q b < priority_of q a)%N ∨
  priority_of q a = priority_of q b ∧ index_of a (job_order q) < index_of b (job_order q).
Proof.
  unfold outranks, queued_job_outranks_active. rewrite orb_true_iff, andb_true_iff, !bool_decide_eq_true. done.
Qed.

(** Both searches keep the best so far: [beats p b] replaces [b] by [p]. *)
Section pick.
Context (key : string → option N) (beats : relation N) `{!RelDecision beats}.
Hypothesis beats_trans : ∀ a b c, beats a b → beats b c → beats a c.
Hypothesis beats_negtrans : ∀ a b c, beats a b → ¬ beats c b → beats a c.

Definition pick_step (best : option (string * N)) (x : string) : option (string * N) :=
  match key x with
  | Some p =>
    match best with
    | Some (_, bp) => if decide (beats p bp) then Some (x, p) else best
    | None => Some (x, p)
    end
  | None => best
  end.

Lemma pick_spec l :
  match foldl pick_step None l with
  | Some (x, p) =>
    key x = Some p ∧ ∃ l1 l2, l = l1 ++ x :: l2 ∧
    (∀ k pk, k ∈ l1 → key k = Some pk → beats p pk) ∧ (∀ k pk, k ∈ l2 → key k = Some pk → ¬ beats pk p)
  | None => ∀ k, k ∈ l → key k = None
  end.
Proof.
  induction l as [|x l IH] using rev_ind; [by intros k ?%elem_of_nil|].
  rewrite foldl_app. simpl. unfold pick_step at 1. destruct (foldl _ _ _) as [[id p]|].
  - destruct IH as (Hid & l1 & l2 & -> & H1 & H2).
    assert ((∀ px, key x = Some px → ¬ beats px p) →
      key id = Some p ∧ ∃ l1' l2', (l1 ++ id :: l2) ++ [x] = l1' ++ id :: l2' ∧
      (∀ k pk, k ∈ l1' → key k = Some pk → beats p pk) ∧ (∀ k pk, k ∈ l2' → key k = Some pk → ¬ beats pk p)) as Hkeep.
    { intros Hx. split; [done|]. exists l1, (l2 ++ [x]). split_and!; try done; [by rewrite <- (assoc_L (++))|].
      intros k pk [Hk| ->%list_elem_of_singleton]%elem_of_app; eauto. }
    destruct (key x) as [px|] eqn:Ex; [case_decide as Ep|].
    + split; [done|]. exists (l1 ++ id :: l2), []. split_and!; try done; [|by intros k pk ?%elem_of_nil].
      intros k pk [Hk|[->|Hk]%elem_of_cons]%elem_of_app Hp; [by eauto|congruence|by eauto].
    + apply Hkeep. by intros ? [= <-].
    + by apply Hkeep.
  - destruct (key x) as [px|] eqn:Ex.
    + split; [done|]. exists l, []. split_and!; try done; [|by intros k pk ?%elem_of_nil].
      intros k pk Hk Hp. by rewrite IH in Hp.
    + intros k [Hk| ->%list_elem_of_singleton]%elem_of_app; auto.
Qed.
End pick.

Definition key_of (st : JobStatus) (m : gmap string JobState) (id : string) : option N :=
  s ← m !! id; if decide (job_status s = st) then Some (job_priority s) else None.

Lemma key_of_Some st m id p :
  key_of st m id = Some p ↔ ∃ s, m !! id = Some s ∧ job_status s = st ∧ p = job_priority s.
Proof.
  unfold key_of. destruct (m !! id) as [s|]; simpl; [|naive_solver].
  case_decide; naive_solver.
Qed.

Lemma key_of_priority st q id p : key_of st (jobs q) id = Some p → p = priority_of q id ∧ statuses q !! id = Some st.
Proof.
  intros (s & E & Hst & ->)%key_of_Some. unfold priority_of, statuses. by rewrite lookup_fmap, E; simpl; rewrite Hst.
Qed.

Lemma key_of_status st q id : statuses q !! id = Some st → key_of st (jobs q) id = Some (priority_of q id).
Proof.
  unfold statuses, priority_of. rewrite lookup_fmap. intros (s & E & ->)%fmap_Some.
  apply key_of_Some. exists s. by rewrite E.
Qed.

Lemma best_queued_pick q :
  best_queued q = foldl (pick_step (key_of Queued (jobs q)) (flip N.lt)) None (job_order q).
Proof.
  unfold best_queued. apply foldl_ext. intros best id. unfold pick_step, key_of.
  destruct (jobs q !! id) as [s|]; [|done]. simpl. by case_decide.
Qed.

Lemma worst_downloading_pick q :
  worst_downloading q = foldl (pick_step (key_of Downloading (jobs q)) N.le) None (job_order q).
Proof.
  unfold worst_downloading. apply foldl_ext. intros best id. unfold pick_step, key_of.
  destruct (jobs q !! id) as [s|]; [|done]. simpl. by case_decide.
Qed.

(** The best of the queued jobs outranks the others. *)
Lemma best_queued_spec q :
  NoDup (job_order q) →
  match best_queued q with
  | Some (id, p) => id ∈ job_order q ∧ statuses q !! id = Some Queued ∧ p = priority_of q id ∧
    ∀ k, k ∈ job_order q → statuses q !! k = Some Queued → k ≠ id → outranks q id k
  | None => ∀ k, k ∈ job_order q → statuses q !! k ≠ Some Queued
  end.
Proof.
  intros Hd. pose proof (pick_spec (key_of Queued (jobs q)) (flip N.lt)) as Hp.
  specialize (Hp ltac:(unfold flip; intros; lia) ltac:(unfold flip; intros; lia) (job_order q)). unfold flip in *.
  rewrite best_queued_pick. destruct (foldl _ _ _) as [[id p]|].
  - destruct Hp as (Hk & l1 & l2 & El & H1 & H2). apply key_of_priority in Hk as [-> Hq].
    split_and!; try done; [rewrite El; set_solver|]. rewrite El in Hd |- *. intros k Hin Hst Hne.
    apply outranks_iff. rewrite El. apply key_of_status in Hst as Hks.
    apply elem_of_app in Hin as [Hin|[?|Hin]%elem_of_cons]; [|done|].
    + specialize (H1 k _ Hin Hks). lia.
    + specialize (H2 k _ Hin Hks). apply NoDup_app in Hd as Hd'. destruct Hd' as (_ & H12 & _).
      rewrite (index_of_here id) by (intros ?; apply (H12 id); set_solver).
      pose proof (index_of_app_r k id l1 l2 Hd Hin). lia.
  - intros k Hin Hst. apply key_of_status in Hst. by rewrite Hp in Hst.
Qed.

(** Every other download outranks the worst. *)
Lemma worst_downloading_spec q :
  NoDup (job_order q) →
  match worst_downloading q with
  | Some (id, p) => id ∈ job_order q ∧ statuses q !! id = Some Downloading ∧ p = priority_of q id ∧
    ∀ k, k ∈ job_order q → statuses q !! k = Some Downloading → k ≠ id → outranks q k id
  | None => ∀ k, k ∈ job_order q → statuses q !! k ≠ Some Downloading
  end.
Proof.
  intros Hd. pose proof (pick_spec (key_of Downloading (jobs q)) N.le) as Hp.
  specialize (Hp ltac:(unfold flip; intros; lia) ltac:(unfold flip; intros; lia) (job_order q)). unfold flip in *.
  rewrite worst_downloading_pick. destruct (foldl _ _ _) as [[id p]|].
  - destruct Hp as (Hk & l1 & l2 & El & H1 & H2). apply key_of_priority in Hk as [-> Hq].
    split_and!; try done; [rewrite El; set_solver|]. rewrite El in Hd |- *. intros k Hin Hst Hne.
    apply outranks_iff. rewrite El. apply key_of_status in Hst as Hks.
    apply NoDup_app in Hd as Hd'. destruct Hd' as (_ & H12 & _).
    apply elem_of_app in Hin as [Hin|[?|Hin]%elem_of_cons]; [|done|].
    + specialize (H1 k _ Hin Hks). rewrite (index_of_here id) by (intros ?; apply (H12 id); set_solver).
      pose proof (index_of_app_l k l1 (id :: l2) Hin). lia.
    + specialize (H2 k _ Hin Hks). lia.
  - intros k Hin Hst. apply key_of_status in Hst. by rewrite Hp in Hst.
Qed.
End ranks.

(** ** Starting jobs *)
Section start.
Context {D : Type} `{DispatchLaws D} (to_lowercase : str → str).
Implicit Types q : QueueManager (D:=D).

(** What starting, pausing and queueing jobs leave alone. *)
Record kept (q q' : QueueManager (D:=D)) : Prop := {
  kept_order : job_order q' = job_order q;
  kept_pauses : pauses q' = pauses q;
  kept_max : max_active_downloads q' = max_active_downloads q;
  kept_priority k : priority_of q' k = priority_of q k;
}.

#[export] Instance kept_preorder : PreOrder kept.
Proof.
  split; [by intros q|]. intros q1 q2 q3 [O P M R] [O' P' M' R'].
  split; [by rewrite O'|by rewrite P'|by rewrite M'|]. intros k. by rewrite R'.
Qed.

Lemma kept_outranks q q' a b : kept q q' → outranks q' a b ↔ outranks q a b.
Proof. intros [O _ _ R]. unfold outranks. by rewrite O, !R. Qed.

Lemma kept_is_paused q q' : kept q q' → is_paused q' = is_paused q.
Proof. intros [_ P _ _]. unfold is_paused. by rewrite P. Qed.

Lemma kept_update_job id f q : (∀ s, job_priority (f s) = job_priority s) → kept q (update_job id f q).
Proof.
  intros Hf. split; [done..|]. intros k. unfold priority_of. rewrite jobs_update_job.
  destruct (decide (k = id)) as [->|Hk]; [rewrite lookup_alter_eq|by rewrite lookup_alter_ne by done].
  destruct (jobs q !! id); simpl; [by rewrite Hf|done].
Qed.

Lemma kept_dispatch (f : D → D) q : kept q (on_dispatch f q).
Proof. by destruct q. Qed.

Lemma statuses_dispatch (f : D → D) q : statuses (on_dispatch f q) = statuses q.
Proof. by destruct q. Qed.

Lemma statuses_update_status id f q st st' :
  statuses q !! id = Some st' → (∀ s, job_status (f s) = st) →
  statuses (update_job id f q) = <[id:=st]> (statuses q).
Proof.
  intros Hid Hf. rewrite (statuses_alter f id q st) by auto. apply decide_True.
  unfold statuses in Hid. rewrite lookup_fmap in Hid. apply fmap_Some in Hid as (s & -> & _). eauto.
Qed.

Lemma statuses_lookup q id st : statuses q !! id = Some st ↔ ∃ s, jobs q !! id = Some s ∧ job_status s = st.
Proof. unfold statuses. rewrite lookup_fmap, fmap_Some. naive_solver. Qed.

Lemma dispatch_update_job id f q : dispatch (update_job id f q) = dispatch q.
Proof. by destruct q. Qed.
Lemma dispatch_on_dispatch (f : D → D) q : dispatch (on_dispatch f q) = f (dispatch q).
Proof. by destruct q. Qed.

(** [view_ok_insert], of queues. *)
Lemma queue_ok_insert q q' id st st' :
  queue_ok q → kept q q' → statuses q !! id = Some st' → statuses q' = <[id:=st]> (statuses q) →
  (st = Downloading → is_paused q = false) →
  (st = Downloading → st' = Downloading ∨ at_limit (max_active_downloads q) q = false) →
  frame id (dispatch q) (dispatch q') →
  (has_job (dispatch q') id = true → live st ∧ (work_paused (dispatch q') id = false ↔ st = Downloading)) →
  queue_ok q'.
Proof.
  intros Hok [O P M _] Hid Hst Hp Hl Hf Hd. unfold queue_ok. rewrite O, P, M, Hst.
  eapply view_ok_insert; try done. intros E. destruct (Hl E) as [?|Hlim]; [auto|right].
  unfold at_limit in Hlim. apply bool_decide_eq_false in Hlim. rewrite active_counted in Hlim. lia.
Qed.

(** The dispatcher acts, the statuses stay. *)
Lemma queue_ok_dispatch q q' id :
  queue_ok q → kept q q' → statuses q' = statuses q → frame id (dispatch q) (dispatch q') →
  (has_job (dispatch q') id = true →
   has_job (dispatch q) id = true ∧ work_paused (dispatch q') id = work_paused (dispatch q) id) →
  queue_ok q'.
Proof.
  intros Hok [O P M _] Hst Hf Hd. unfold queue_ok. rewrite O, P, M, Hst. by eapply view_ok_dispatch.
Qed.

Lemma queue_ok_same q q' :
  queue_ok q → kept q q' → statuses q' = statuses q → dispatch q' = dispatch q → queue_ok q'.
Proof. intros Hok [O P M _] Hst Hd. unfold queue_ok. by rewrite O, P, M, Hst, Hd. Qed.

(** A job gets its slot, [q'] the queue once it is marked. *)
Definition takes_slot (id : string) (q q' : QueueManager (D:=D)) : Prop :=
  queue_ok q' ∧ kept q q' ∧ ∃ st, (st = Downloading ∨ st = Paused) ∧ statuses q' = <[id:=st]> (statuses q).

Section slot.
Variables (q : QueueManager (D:=D)) (id : string) (st : JobStatus).
Hypothesis Hok : queue_ok q.
Hypothesis Hgate : is_paused q = false.
Hypothesis Hfree : at_limit (max_active_downloads q) q = false.
Hypothesis Hid : statuses q !! id = Some st.

Lemma resumed_takes_slot q' :
  has_job (dispatch q) id = true → kept q q' → statuses q' = <[id:=Downloading]> (statuses q) →
  dispatch q' = dispatch_resume id (dispatch q) → takes_slot id q q'.
Proof.
  intros Hhas Hk Hst Hd. split_and!; [|done|by eauto].
  eapply queue_ok_insert; try done; [auto|by rewrite Hd; auto with queue|]. intros _. unfold live. split; [auto|].
  by rewrite Hd, resume_paused, decide_True by done.
Qed.

Lemma launched_takes_slot now disk_ok q1 :
  has_job (dispatch q) id = false → kept q q1 → statuses q1 = <[id:=Downloading]> (statuses q) →
  dispatch q1 = dispatch q → takes_slot id q (launch_download to_lowercase now disk_ok id q1).
Proof.
  intros Hhas Hk Hst Hd. unfold launch_download.
  assert (statuses q1 !! id = Some Downloading) as Hid1 by (by rewrite Hst, lookup_insert_eq).
  destruct (proj1 (statuses_lookup _ _ _) Hid1) as (s & -> & _). destruct (disk_ok id); simpl.
  - assert (kept q (update_job id (λ s, s <| hopeless_tracker := Some (new to_lowercase now (files (job s))) |>)
      (on_dispatch (submit_job id (job s)) q1))) as Hkq.
    { etrans; [done|]. etrans; [apply kept_dispatch|]. by apply kept_update_job. }
    assert (∀ f, (∀ s, job_status (f s) = job_status s) →
      statuses (update_job id f (on_dispatch (submit_job id (job s)) q1)) = <[id:=Downloading]> (statuses q)) as Hsq.
    { intros f Hf. by rewrite statuses_keep, statuses_dispatch. }
    split_and!; [|done|eexists; split; [by left|by apply Hsq]].
    eapply queue_ok_insert; try done; [by apply Hsq|auto| |].
    + rewrite dispatch_update_job, dispatch_on_dispatch, <- Hd. apply frame_submit.
    + rewrite dispatch_update_job, dispatch_on_dispatch. intros E. unfold live. split; [auto|].
      by rewrite (submit_paused id (job s) (dispatch q1) id E), decide_True by done.
  - assert (kept q (update_job id (λ s, with_status Paused s <| error_message := Some low_disk |>
      <| failure_code := Some StorageUnavailable |>) q1)) as Hkq.
    { etrans; [done|]. by apply kept_update_job. }
    assert (statuses (update_job id (λ s, with_status Paused s <| error_message := Some low_disk |>
      <| failure_code := Some StorageUnavailable |>) q1) = <[id:=Paused]> (statuses q)) as Hsq.
    { rewrite (statuses_update_status id _ q1 Paused Downloading) by done. by rewrite Hst, insert_insert_eq. }
    split_and!; [|done|by eauto].
    eapply queue_ok_insert; try done; rewrite dispatch_update_job, Hd; [apply frame_refl|by rewrite Hhas].
Qed.
End slot.

Lemma claim_spec q :
  queue_ok q →
  match claim_next_download_slot (max_active_downloads q) q with
  | Some (id, q') =>
    is_paused q = false ∧ at_limit (max_active_downloads q) q = false ∧ statuses q !! id = Some Queued ∧
    q' = update_job id (with_status Downloading) q ∧ ∀ k, statuses q !! k = Some Queued → k ≠ id → outranks q id k
  | None => no_idle q
  end.
Proof.
  intros [N O _ _ _ _]. unfold claim_next_download_slot, no_idle.
  destruct (is_paused q); [done|]. destruct (at_limit _ q) eqn:El.
  - unfold at_limit in El. apply bool_decide_eq_true in El. rewrite active_counted in El. done.
  - pose proof (best_queued_spec q N) as Hb. destruct (best_queued q) as [[id p]|]; simpl.
    + destruct Hb as (_ & Hq & _ & Hr). split_and!; try done. intros k Hk. apply Hr; [|done]. apply O. by rewrite Hk.
    + intros _ Hc. exfalso. assert (0 < counted Queued (statuses q)) as Hpos by lia.
      apply counted_pos in Hpos as [k Hk]. apply (Hb k); [apply O; by rewrite Hk|done].
Qed.

Lemma start_claimed_takes_slot now disk_ok id q :
  queue_ok q → is_paused q = false → at_limit (max_active_downloads q) q = false → statuses q !! id = Some Queued →
  takes_slot id q (start_claimed to_lowercase now disk_ok id (update_job id (with_status Downloading) q)).
Proof.
  intros Hok Hp Hl Hid. unfold start_claimed. rewrite dispatch_update_job.
  pose proof (statuses_update_status id (with_status Downloading) q Downloading Queued Hid (λ _, eq_refl)) as Hs.
  destruct (has_job (dispatch q) id) eqn:Eh.
  - unfold resume_queued_context. eapply resumed_takes_slot; try done.
    + etrans; [|apply kept_dispatch]. etrans; [|apply kept_update_job; by intros []]. by apply kept_update_job.
    + rewrite statuses_dispatch, statuses_keep; [done|by intros []].
  - eapply launched_takes_slot; try done. by apply kept_update_job.
Qed.

(** From [q] to [q'] queued jobs were started, the highest ranks first. *)
Record starts (q q' : QueueManager (D:=D)) : Prop := {
  starts_ok : queue_ok q';
  starts_kept : kept q q';
  starts_only k : statuses q' !! k = statuses q !! k ∨
    statuses q !! k = Some Queued ∧ (statuses q' !! k = Some Downloading ∨ statuses q' !! k = Some Paused);
  starts_rank a b : statuses q !! a = Some Queued → statuses q' !! a ≠ Some Queued →
    statuses q' !! b = Some Queued → outranks q a b;
}.

Lemma starts_refl q : queue_ok q → starts q q.
Proof. split; [done|done|by left|done]. Qed.

Lemma starts_cons id q q1 q2 :
  statuses q !! id = Some Queued → (∀ k, statuses q !! k = Some Queued → k ≠ id → outranks q id k) →
  takes_slot id q q1 → starts q1 q2 → starts q q2.
Proof.
  intros Hid Hbest (_ & Hk & st & Hst & Es) [Hok Hk' Honly Hrank].
  assert (∀ k, k ≠ id → statuses q1 !! k = statuses q !! k) as Hne by (intros; by rewrite Es, lookup_insert_ne).
  assert (statuses q1 !! id = Some st) as Hst1 by (by rewrite Es, lookup_insert_eq).
  assert (statuses q2 !! id = Some st) as Hst2.
  { destruct (Honly id) as [E|[E _]]; [congruence|]. destruct Hst; congruence. }
  split; [done|by etrans| |].
  - intros k. destruct (decide (k = id)) as [->|Hn]; [|by rewrite <- Hne by done].
    right. split; [done|]. destruct Hst; subst; auto.
  - intros a b Ha Ha' Hb. destruct (decide (b = id)) as [->|Hb']; [destruct Hst; congruence|].
    assert (statuses q1 !! b = Some Queued) as Hb1 by (destruct (Honly b) as [E|[E _]]; congruence).
    destruct (decide (a = id)) as [->|Ha1]; [apply Hbest; [by rewrite <- Hne|done]|].
    apply (kept_outranks q q1); [done|]. apply Hrank; [by rewrite Hne|done..].
Qed.

Lemma takes_slot_queued id q q1 :
  statuses q !! id = Some Queued → takes_slot id q q1 →
  counted Queued (statuses q1) + 1 = counted Queued (statuses q).
Proof.
  intros Hid (_ & _ & st & Hst & ->). pose proof (counted_insert Queued (statuses q) id st Queued Hid) as Hc.
  rewrite decide_True in Hc by done. rewrite decide_False in Hc by (destruct Hst; congruence). lia.
Qed.

Lemma start_loop_spec fuel now disk_ok q :
  queue_ok q →
  let q' := start_loop to_lowercase fuel now disk_ok (max_active_downloads q) q in
  starts q q' ∧ (counted Queued (statuses q) < fuel → no_idle q').
Proof.
  revert q. induction fuel as [|fuel IH]; intros q Hok; simpl; [split; [by apply starts_refl|lia]|].
  pose proof (claim_spec q Hok) as Hc. destruct (claim_next_download_slot _ q) as [[id q']|].
  - destruct Hc as (Hp & Hl & Hid & -> & Hbest).
    pose proof (start_claimed_takes_slot now disk_ok id q Hok Hp Hl Hid) as Ht.
    pose proof (takes_slot_queued id q _ Hid Ht) as Hcount.
    destruct Ht as (Hok1 & Hk & Hst) eqn:Et.
    rewrite <- (kept_max _ _ Hk). destruct (IH _ Hok1) as [Hs Hn]. split; [by eapply starts_cons|].
    intros ?. apply Hn. lia.
  - split; [by apply starts_refl|]. done.
Qed.

Lemma start_next_queued_starts now disk_ok q :
  queue_ok q → starts q (start_next_queued to_lowercase now disk_ok q).
Proof. intros Hok. by apply start_loop_spec. Qed.

(** The fuel is enough: no job waits beside a free slot. *)
Lemma start_next_queued_no_idle now disk_ok q :
  queue_ok q → no_idle (start_next_queued to_lowercase now disk_ok q).
Proof. intros Hok. apply start_loop_spec; [done|]. rewrite queued_counted. lia. Qed.
End start.

(** ** Several jobs at once *)
Lemma counted_ext st (m m' : status_map) :
  (∀ k, m !! k = Some st ↔ m' !! k = Some st) → counted st m = counted st m'.
Proof.
  intros E. unfold counted. f_equal. apply map_eq. intros k. apply option_eq. intros x.
  rewrite !map_lookup_filter_Some. simpl. split; intros [Hk ->]; split; try done; by apply E.
Qed.

Section many.
Context {D : Type} `{DispatchLaws D}.
Implicit Types q : QueueManager (D:=D).

Lemma view_ok_limit (m : status_map) order p max max' (d : D) :
  view_ok m order p max d → (0 < max' → counted Downloading m ≤ max') → view_ok m order p max' d.
Proof. by intros [] ?. Qed.

(** The downloads stay and every live job stays live. *)
Lemma view_ok_ext (m m' : status_map) order p p' max (d : D) :
  view_ok m order p max d →
  globally_paused p' = any (holds p') → (globally_paused p' = true → globally_paused p = true) →
  (∀ k, m' !! k = Some Downloading ↔ m !! k = Some Downloading) →
  (∀ k, is_Some (m' !! k) ↔ is_Some (m !! k)) →
  (∀ k st, m !! k = Some st → live st → ∃ st', m' !! k = Some st' ∧ live st') →
  view_ok m' order p' max d.
Proof.
  intros [N O G P L W] Hg Hp Hd Hs Hl. split; [done| |done| | |].
  - intros k. by rewrite O, Hs.
  - intros k Hk. rewrite Hd. apply P. auto.
  - intros Hm. rewrite (counted_ext _ m' m) by done. auto.
  - intros k Hk. destruct (W k Hk) as (st & Est & Hlive & E).
    destruct (Hl k st Est Hlive) as (st' & Est' & Hlive'). exists st'. split_and!; try done.
    rewrite E. specialize (Hd k). rewrite Est, Est' in Hd.
    split; intros ->; [destruct Hd as [_ Hd]|destruct Hd as [Hd _]]; specialize (Hd eq_refl); congruence.
Qed.

Lemma view_ok_delete (m : status_map) order p max (d d' : D) id :
  view_ok m order p max d → frame id d d' → has_job d' id = false →
  view_ok (delete id m) (filter (λ j, j ≠ id) order) p max d'.
Proof.
  intros [N O G P L W] Hf Hd. split; [by apply NoDup_filter| |done| | |].
  - intros k. rewrite list_elem_of_filter, O. destruct (decide (k = id)) as [->|Hk].
    + rewrite lookup_delete_eq. split; [by intros [? _]|by intros [? ?]].
    + rewrite lookup_delete_ne by done. naive_solver.
  - intros k Hk E. apply lookup_delete_Some in E as [_ E]. by eapply P.
  - intros Hm. pose proof (counted_le_delete Downloading m id). specialize (L Hm). lia.
  - intros k Hk. destruct (decide (k = id)) as [->|Hne]; [congruence|].
    destruct (Hf k Hne Hk) as [Hk' ->]. rewrite lookup_delete_ne by done. by apply W.
Qed.

Lemma view_ok_fresh (m : status_map) order p max (d : D) id st :
  view_ok m order p max d → m !! id = None → has_job d id = false → st ≠ Downloading →
  view_ok (<[id:=st]> m) (order ++ [id]) p max d.
Proof.
  intros [N O G P L W] Hid Hd Hst. split; [| |done| | |].
  - apply NoDup_app. split; [done|]. split; [|apply NoDup_singleton].
    intros k Hk%O ->%list_elem_of_singleton. rewrite Hid in Hk. by destruct Hk.
  - intros k. rewrite elem_of_app, list_elem_of_singleton, O. destruct (decide (k = id)) as [->|Hk].
    + rewrite lookup_insert_eq. split; eauto.
    + rewrite lookup_insert_ne by done. naive_solver.
  - intros k Hk. destruct (decide (k = id)) as [->|Hne]; [rewrite lookup_insert_eq; congruence|].
    rewrite lookup_insert_ne by done. by apply P.
  - intros Hm. rewrite counted_fresh, decide_False by done. simpl. auto.
  - intros k Hk. destruct (decide (k = id)) as [->|Hne]; [congruence|].
    rewrite lookup_insert_ne by done. by apply W.
Qed.

(** *** The pause of every job *)
Lemma foldl_dispatch_pause (l : list string) (d : D) k :
  has_job (foldl (λ d id, dispatch_pause id d) d l) k = has_job d k ∧
  (has_job d k = true →
   work_paused (foldl (λ d id, dispatch_pause id d) d l) k = if decide (k ∈ l) then true else work_paused d k).
Proof.
  revert d. induction l as [|x l IH]; intros d; simpl; [done|].
  destruct (IH (dispatch_pause x d)) as [Eh Ew]. rewrite pause_has in Eh, Ew. split; [done|].
  intros Hk. rewrite (Ew Hk), pause_paused by done.
  destruct (decide (k = x)) as [->|Hne]; [rewrite (decide_True (P := x ∈ x :: l)) by set_solver; by case_decide|].
  destruct (decide (k ∈ l)); [by rewrite decide_True by set_solver|by rewrite decide_False by set_solver].
Qed.

Definition hold_status (st : JobStatus) : JobStatus :=
  if decide (st = Downloading ∨ st = Queued) then Paused else st.

Lemma statuses_pause_jobs q : statuses (pause_jobs_for_global_hold q) = hold_status <$> statuses q.
Proof.
  apply map_eq. intros k. unfold statuses.
  change (jobs (pause_jobs_for_global_hold q)) with ((λ s, if held_by_global_pause s then with_status Paused s else s) <$> jobs q).
  rewrite !lookup_fmap. destruct (jobs q !! k) as [s|]; simpl; [|done]. unfold held_by_global_pause, hold_status.
  destruct (decide (job_status s = Downloading ∨ job_status s = Queued)) as [E|E].
  - by rewrite bool_decide_true by done.
  - by rewrite bool_decide_false by done.
Qed.

Lemma hold_status_not_downloading st : hold_status st ≠ Downloading.
Proof. unfold hold_status. case_decide as E; [done|]. intros ->. auto. Qed.

Lemma live_hold_status st : live st → live (hold_status st) ∧ hold_status st = Paused.
Proof. unfold live, hold_status. intros Hl. destruct st; simpl; try (by destruct Hl as [?|[?|?]]); auto. Qed.

(** The gate is [p], published before the jobs are paused. *)
Lemma pause_jobs_ok q p :
  queue_ok q → globally_paused p = any (holds p) → queue_ok (pause_jobs_for_global_hold (q <| pauses := p |>)).
Proof.
  intros [N O G P L W] Hp. unfold queue_ok. rewrite statuses_pause_jobs.
  change (view_ok (hold_status <$> statuses q) (job_order q) p (max_active_downloads q)
    (foldl (λ d id, dispatch_pause id d) (dispatch q)
       (elements (dom (filter (λ kv, held_by_global_pause kv.2 = true) (jobs q)))))).
  assert (∀ k, (hold_status <$> statuses q) !! k ≠ Some Downloading) as Hnone.
  { intros k. rewrite lookup_fmap. intros (st & _ & E)%fmap_Some. by destruct (hold_status_not_downloading st). }
  split; [done| |done|by intros| |].
  - intros k. by rewrite lookup_fmap, fmap_is_Some.
  - intros _. destruct (counted Downloading (hold_status <$> statuses q)) eqn:E; [lia|].
    assert (0 < counted Downloading (hold_status <$> statuses q)) as [k Hk]%counted_pos by lia. by destruct (Hnone k).
  - intros k. destruct (foldl_dispatch_pause (elements (dom (filter (λ kv, held_by_global_pause kv.2 = true) (jobs q))))
      (dispatch q) k) as [Eh Ew].
    intros Hk. rewrite Eh in Hk. rewrite (Ew Hk). destruct (W k Hk) as (st & Est & Hlive & E).
    exists (hold_status st). rewrite lookup_fmap, Est. split_and!; [done|by apply live_hold_status|].
    apply live_hold_status in Hlive as [_ ->]. split; [|done]. case_decide as Hin; [done|]. intros Hw.
    exfalso. apply Hin, elem_of_elements, elem_of_dom. apply E in Hw. subst st.
    apply statuses_lookup in Est as (s & Es & Hst). exists s. apply map_lookup_filter_Some. split; [done|].
    simpl. unfold held_by_global_pause. rewrite Hst. by apply bool_decide_true; auto.
Qed.

(** *** The jobs a hold gives back *)
Lemma statuses_requeue (f : string → JobState → bool) q k :
  statuses (requeue f q) !! k =
    (λ s, if bool_decide (job_status s = Paused) && f k s then Queued else job_status s) <$> jobs q !! k.
Proof.
  unfold statuses.
  change (jobs (requeue f q)) with (map_imap (λ id s, Some (if bool_decide (job_status s = Paused) && f id s
                                                            then with_status Queued (no_error s) else s)) (jobs q)).
  rewrite lookup_fmap, map_lookup_imap.
  destruct (jobs q !! k) as [s|]; simpl; [|done]. by destruct (bool_decide _ && _).
Qed.

Lemma requeue_ok (f : string → JobState → bool) q : queue_ok q → queue_ok (requeue f q).
Proof.
  intros Hok. unfold queue_ok. simpl.
  assert (∀ k s, jobs q !! k = Some s → statuses q !! k = Some (job_status s)) as Es.
  { intros k s E. unfold statuses. by rewrite lookup_fmap, E. }
  eapply view_ok_ext; [exact Hok|apply Hok|done| | |].
  - intros k. rewrite statuses_requeue. unfold statuses. rewrite lookup_fmap.
    destruct (jobs q !! k) as [s|]; simpl; [|done].
    destruct (decide (job_status s = Paused)) as [E|E]; [|by rewrite bool_decide_false].
    rewrite bool_decide_true, E by done. by destruct (f k s).
  - intros k. rewrite statuses_requeue. unfold statuses. by rewrite lookup_fmap, !fmap_is_Some.
  - intros k st (s & E & <-)%statuses_lookup Hl. rewrite statuses_requeue, E. simpl.
    eexists. split; [done|]. destruct (_ && _); [by left|done].
Qed.
End many.

(** ** The gate and the jobs

    An operation on the holds shuts the gate exactly when it asks for the jobs
    to be paused and opens it exactly when it asks for them to resume. *)
Section gate.
Context `{Serde}.

Definition gate_moves (p : PauseState) (r : PauseState * JobsEffect) : Prop :=
  globally_paused r.1 = any (holds r.1) ∧
  match r.2 with
  | KeepJobs => globally_paused r.1 = globally_paused p
  | PauseJobs => globally_paused r.1 = true
  | ResumeJobs => globally_paused r.1 = false
  end.

Lemma gate_apply_schedule_hold windows p :
  globally_paused p = any (holds p) → gate_moves p (apply_schedule_hold windows p).
Proof.
  destruct p as [[u d s o t r x] g until db]. cbn. intros ->.
  unfold apply_schedule_hold, gate_moves, retain_open. unfold constant. simpl.
  set (b := held _ _). assert (u = true → b = false) as Hu.
  { intros ->. subst b. unfold held. simpl. apply andb_false_r. }
  clearbody b. case_decide as E.
  - assert (b = s) as -> by congruence. clear E. unfold any. destruct u, d, s; simpl in *; auto.
  - unfold any. destruct u, d, s, b; simpl in *; auto; by specialize (Hu eq_refl).
Qed.

Lemma gate_expire_user_hold p :
  globally_paused p = any (holds p) → gate_moves p (expire_user_hold p).
Proof.
  destruct p as [[u d s o t r x] g until db]. cbn. intros ->.
  unfold expire_user_hold, gate_moves. unfold constant. simpl. set (b := held _ _). clearbody b.
  unfold any. destruct u, d, s, b; simpl in *; auto.
Qed.

Lemma gate_pause_all p : globally_paused p = any (holds p) → gate_moves p (pause_all p).
Proof.
  destruct p as [[u d s o t r x] g until db]. cbn. intros ->. unfold gate_moves, any. simpl.
  destruct u, d, s; simpl in *; auto.
Qed.

Lemma gate_hold_step e p :
  globally_paused p = any (holds p) → e ≠ Restart → gate_moves p (hold_step e p).
Proof.
  intros Hp He. destruct e as [|now secs|until|available now|d en| |]; simpl; [| | | | | |done].
  - by apply gate_pause_all.
  - apply (gate_pause_all p) in Hp. unfold pause_for. destruct (pause_all p) as [p1 j]. exact Hp.
  - unfold timer_fires. case_decide; [|done]. destruct p as [h g u db].
    exact (gate_expire_user_hold {| holds := h; globally_paused := g; pause_until := None; settings := db |} Hp).
  - unfold enforce_disk_guard. destruct available; simpl; case_decide as E; try done;
      destruct p as [[u d s o t r x] g until db]; cbn in *; subst g; unfold gate_moves, any in *; simpl.
    + destruct d, u, s; done.
    + subst d. destruct u, s; done.
  - by apply gate_apply_schedule_hold.
  - destruct p as [[u d s o t r x] g until db]. cbn in *. subst g. unfold gate_moves, any. simpl. done.
Qed.
End gate.
