(* ===== verification/QueueRun.v ===== *)
(** * The runs of the queue

    Each operation of [Queue] keeps the invariant of [QueueProps] and leaves no
    slot idle; so does any run of them from a restart. *)
From coqutil Require Import Datatypes.RecordSetters.
From S2P Require Import Prelude Str Models Hopeless Holds Queue QueueProps.
From S2P Require Schedule.
Import TriangleBracketNotations.
#[local] Open Scope record_set.

(** ** One operation at a time *)
Section operations.
Context {D : Type} `{DispatchLaws D} `{Serde} (to_lowercase : str → str).
Implicit Types q : QueueManager (D:=D).

(** An operation keeps the queue sound, and fills the slots if they were filled. *)
Definition sound (q q' : QueueManager (D:=D)) : Prop := queue_ok q' ∧ (no_idle q → no_idle q').

Lemma queue_ok_view q q' :
  statuses q' = statuses q → job_order q' ≡ₚ job_order q → pauses q' = pauses q →
  max_active_downloads q' = max_active_downloads q → dispatch q' = dispatch q → queue_ok q → queue_ok q'.
Proof.
  unfold queue_ok. intros -> O -> -> -> [N Oin G P L W].
  split; [by rewrite O| |done..]. intros id. by rewrite O.
Qed.

Lemma no_idle_view q q' :
  is_paused q' = is_paused q → max_active_downloads q' = max_active_downloads q →
  counted Downloading (statuses q) ≤ counted Downloading (statuses q') →
  counted Queued (statuses q') ≤ counted Queued (statuses q) → no_idle q → no_idle q'.
Proof.
  unfold no_idle. intros -> -> Hd Hq Hn Hp Hc. destruct Hn as [? ?]; [done|lia|]. lia.
Qed.

Lemma sound_view q q' :
  statuses q' = statuses q → job_order q' ≡ₚ job_order q → pauses q' = pauses q →
  max_active_downloads q' = max_active_downloads q → dispatch q' = dispatch q → queue_ok q → sound q q'.
Proof.
  intros S O P M Hd Hok. split; [by eapply queue_ok_view|].
  apply no_idle_view; [unfold is_paused; by rewrite P|done|by rewrite S|by rewrite S].
Qed.

Lemma sound_start now disk_ok q q' : queue_ok q' → sound q (start_next_queued to_lowercase now disk_ok q').
Proof. intros Hok. split; [by apply start_next_queued_starts|intros _; by apply start_next_queued_no_idle]. Qed.

Lemma sound_refl q : queue_ok q → sound q q.
Proof. done. Qed.
Lemma sound_trans q q1 q2 : sound q q1 → sound q1 q2 → sound q q2.
Proof. intros [_ N] [O' N']. split; [done|auto]. Qed.

Lemma sound_update_job id f q : (∀ s, job_status (f s) = job_status s) → queue_ok q → sound q (update_job id f q).
Proof. intros Hf. apply sound_view; try done. by apply statuses_keep. Qed.

(** A job that is not waiting for a slot afterwards, nor gives one up. *)
Lemma no_idle_insert q q' id st st' :
  kept q q' → statuses q !! id = Some st' → statuses q' = <[id:=st]> (statuses q) →
  st ≠ Queued → (st' = Downloading → st = Downloading) → no_idle q → no_idle q'.
Proof.
  intros Hk Hid Hs Hq Hd. pose proof (counted_insert Downloading (statuses q) id st st' Hid) as Hcd.
  pose proof (counted_insert Queued (statuses q) id st st' Hid) as Hcq. rewrite <- Hs in Hcd, Hcq.
  apply no_idle_view; [by apply kept_is_paused|apply Hk|..].
  - destruct (decide (st' = Downloading)) as [E|E]; [rewrite decide_True in Hcd by auto; lia|lia].
  - rewrite (decide_False (P := st = Queued)) in Hcq by done. lia.
Qed.

Lemma statuses_absent q id : statuses q !! id = None ↔ jobs q !! id = None.
Proof. unfold statuses. by rewrite lookup_fmap, fmap_None. Qed.

(** *** The order *)
Lemma insert_by_perm {A} (le : A → A → bool) x l : insert_by le x l ≡ₚ x :: l.
Proof. induction l as [|y l IH]; simpl; [done|]. destruct (le x y); [done|]. rewrite IH. apply Permutation_swap. Qed.

Lemma sort_by_perm {A} (le : A → A → bool) l : sort_by le l ≡ₚ l.
Proof. induction l as [|x l IH]; simpl; [done|]. by rewrite insert_by_perm, IH. Qed.

Lemma sort_queue_sound char_to_lowercase f asc q : queue_ok q → sound q (sort_queue char_to_lowercase f asc q).
Proof. apply sound_view; try done. apply sort_by_perm. Qed.

Lemma set_job_priority_sound now disk_ok id p q :
  queue_ok q → sound q (set_job_priority to_lowercase now disk_ok id p q).2.
Proof.
  intros Hok. unfold set_job_priority. destruct (jobs q !! id) eqn:E; [cbn [snd]|by apply sound_refl].
  apply sound_start. eapply queue_ok_view; [| | | | |exact Hok]; try done; [|apply sort_by_perm].
  trans (statuses (update_job id (λ s, s <| job := (job s) <| priority := p |> |>) q)); [done|by apply statuses_keep].
Qed.

(** *** The limit *)
Record requeues (q q' : QueueManager (D:=D)) : Prop := {
  requeues_kept : kept q q';
  requeues_only k : statuses q' !! k = statuses q !! k ∨
    statuses q !! k = Some Downloading ∧ statuses q' !! k = Some Queued;
  requeues_rank a b : statuses q !! a = Some Downloading → statuses q' !! a ≠ Some Downloading →
    statuses q' !! b = Some Downloading → outranks q b a;
}.

(** The invariant but for the limit. *)
Definition queue_ok_over (q : QueueManager (D:=D)) : Prop :=
  view_ok (statuses q) (job_order q) (pauses q) 0 (dispatch q).

Lemma requeue_loop_spec fuel q :
  queue_ok_over q → 0 < max_active_downloads q →
  counted Downloading (statuses q) ≤ fuel + max_active_downloads q →
  let q' := requeue_loop fuel q in
  queue_ok_over q' ∧ requeues q q' ∧
  counted Downloading (statuses q') = counted Downloading (statuses q) `min` max_active_downloads q.
Proof.
  intros Hok Hm. revert q Hok Hm. induction fuel as [|fuel IH]; intros q Hok Hm Hfuel; simpl.
  { split_and!; [done| |lia]. split; [done|by left|done]. }
  rewrite active_counted. case_decide as Hle; [split_and!; [done| |lia]; split; [done|by left|done]|].
  pose proof (worst_downloading_spec q (ok_nodup _ _ _ _ _ Hok)) as Hw.
  destruct (worst_downloading q) as [[id p]|].
  2: { assert (0 < counted Downloading (statuses q)) as [k Hk]%counted_pos by lia.
       destruct (Hw k); [|done]. apply (ok_order _ _ _ _ _ Hok). by rewrite Hk. }
  destruct Hw as (_ & Hid & _ & Hrank).
  set (q1 := update_job id (with_status Queued) (on_dispatch (dispatch_pause id) q)).
  assert (statuses q1 = <[id:=Queued]> (statuses q)) as Hs1 by (by apply (statuses_update_status id (with_status Queued) (on_dispatch (dispatch_pause id) q) Queued Downloading)).
  assert (kept q q1) as Hk1 by (etrans; [apply kept_dispatch|by apply kept_update_job]).
  assert (queue_ok_over q1) as Hok1.
  { unfold queue_ok_over. rewrite Hs1, (kept_order _ _ Hk1), (kept_pauses _ _ Hk1). subst q1.
    rewrite dispatch_update_job, dispatch_on_dispatch. eapply view_ok_insert; try done; auto with queue.
    rewrite pause_has. intros Hh. rewrite pause_paused, decide_True by done.
    split; [by left|by split]. }
  pose proof (counted_insert Downloading (statuses q) id Queued Downloading Hid) as Hc. simpl in Hc.
  rewrite <- Hs1 in Hc. destruct (IH q1) as (Hok2 & [Hk2 Ho2 Hr2] & Hc2); [done|by rewrite (kept_max _ _ Hk1)|rewrite (kept_max _ _ Hk1); lia|].
  split_and!; [done| |rewrite Hc2, (kept_max _ _ Hk1); lia].
  assert (∀ k, k ≠ id → statuses q1 !! k = statuses q !! k) as Hne by (intros; by rewrite Hs1, lookup_insert_ne).
  assert (statuses q1 !! id = Some Queued) as Hid1 by (by rewrite Hs1, lookup_insert_eq).
  split; [by etrans| |].
  - intros k. destruct (decide (k = id)) as [->|Hn]; [|by rewrite <- Hne by done].
    right. split; [done|]. destruct (Ho2 id) as [E|[E _]]; congruence.
  - intros a b Ha Ha' Hb. assert (b ≠ id) as Hbn by (intros ->; destruct (Ho2 id) as [E|[E _]]; congruence).
    assert (statuses q1 !! b = Some Downloading) as Hb1 by (destruct (Ho2 b) as [E|[_ E]]; congruence).
    rewrite Hne in Hb1 by done. destruct (decide (a = id)) as [->|Han].
    + apply Hrank; [|done..]. apply (ok_order _ _ _ _ _ Hok). by rewrite Hb1.
    + apply (kept_outranks q q1); [done|]. apply Hr2; [by rewrite Hne|done..].
Qed.

Lemma set_max_sound now disk_ok max q :
  queue_ok q → sound q (set_max_active_downloads to_lowercase now disk_ok max q).
Proof.
  intros Hok. unfold set_max_active_downloads. apply sound_start.
  set (q1 := q <| max_active_downloads := max |>). unfold requeue_over_limit.
  assert (queue_ok_over q1) as Hok1 by (eapply view_ok_limit; [exact Hok|lia]).
  case_decide as E; [unfold queue_ok; by rewrite E|].
  destruct (requeue_loop_spec (active_download_count q1) q1 Hok1) as (Hok2 & [[O P M R] _ _] & Hc); [lia|rewrite active_counted; lia|].
  eapply view_ok_limit; [exact Hok2|]. intros _. rewrite Hc, M. lia.
Qed.

Lemma preempt_step q id :
  queue_ok q → statuses q !! id = Some Downloading →
  let q' := update_job id (with_status Paused) (on_dispatch (dispatch_pause id) q) in
  queue_ok q' ∧ max_active_downloads q' = max_active_downloads q ∧
  S (counted Downloading (statuses q')) = counted Downloading (statuses q).
Proof.
  intros Hok Hid q'.
  assert (statuses q' = <[id:=Paused]> (statuses q)) as Hs
    by (by apply (statuses_update_status id (with_status Paused) (on_dispatch (dispatch_pause id) q) Paused Downloading)).
  split_and!; [|done|].
  - eapply (queue_ok_insert q q' id Paused Downloading); try done.
    + etrans; [apply kept_dispatch|by apply kept_update_job].
    + subst q'. rewrite dispatch_update_job, dispatch_on_dispatch. apply frame_pause.
    + subst q'. rewrite dispatch_update_job, dispatch_on_dispatch, pause_has. intros Hh.
      rewrite pause_paused, decide_True by done. split; [unfold live; auto|by split].
  - rewrite Hs. pose proof (counted_insert Downloading (statuses q) id Paused Downloading Hid) as Hc. simpl in Hc. lia.
Qed.

Lemma preempt_loop_sound fuel now disk_ok q :
  queue_ok q → counted Downloading (statuses q) < fuel →
  queue_ok (preempt_loop to_lowercase fuel now disk_ok q) ∧ no_idle (preempt_loop to_lowercase fuel now disk_ok q).
Proof.
  revert q. induction fuel as [|fuel IH]; intros q Hok Hf; [lia|]. simpl.
  rewrite active_counted. case_decide as E.
  { split; [by apply start_next_queued_starts|by apply start_next_queued_no_idle]. }
  assert (queue_ok q ∧ no_idle q) as Hstay by (split; [done|intros _ _; lia]).
  destruct (best_queued q) as [[q_id q_pri]|]; [|done].
  pose proof (worst_downloading_spec q (ok_nodup _ _ _ _ _ Hok)) as Hw.
  destruct (worst_downloading q) as [[d_id d_pri]|]; [|done].
  destruct (queued_job_outranks_active _ _ _ _); [|done].
  destruct Hw as (_ & Hid & _). destruct (preempt_step q d_id Hok Hid) as (Hok1 & _ & Hc). apply IH; [done|lia].
Qed.

Lemma move_job_sound now disk_ok id pos q : queue_ok q → sound q (move_job to_lowercase now disk_ok id pos q).2.
Proof.
  intros Hok. unfold move_job. destruct (list_find _ (job_order q)) as [[i x]|] eqn:E; [|by apply sound_refl].
  cbn [snd]. apply list_find_Some in E as (Hi & -> & _).
  set (q1 := q <| job_order := _ |>). assert (queue_ok q1) as Hok1.
  { apply (queue_ok_view q q1); try done.
    change (job_order q1) with (take (pos `min` length (delete i (job_order q))) (delete i (job_order q)) ++
      id :: drop (pos `min` length (delete i (job_order q))) (delete i (job_order q))).
    rewrite <- Permutation_middle, take_drop. symmetry. by apply delete_Permutation. }
  unfold preempt_if_needed. destruct (preempt_loop_sound (S (active_download_count q1)) now disk_ok q1 Hok1) as [? ?];
    [rewrite active_counted; lia|]. done.
Qed.

(** *** One job *)
Lemma sound_dispatch_absent (f : D → D) id q :
  frame id (dispatch q) (f (dispatch q)) → (∀ k, has_job (f (dispatch q)) k = true → has_job (dispatch q) k = true) →
  jobs q !! id = None → queue_ok q → sound q (on_dispatch f q).
Proof.
  intros Hf Hh Hid Hok. split; [|by apply no_idle_view].
  eapply (queue_ok_dispatch q _ id); [done|apply kept_dispatch|done|done|].
  rewrite dispatch_on_dispatch. intros Hk%Hh. destruct (ok_dispatch _ _ _ _ _ Hok id Hk) as (st & E & _).
  apply statuses_absent in Hid. congruence.
Qed.

Lemma pause_job_sound now disk_ok id q :
  queue_ok q → sound q (pause_job to_lowercase now disk_ok id q).2.
Proof.
  intros Hok. unfold pause_job. change (jobs (on_dispatch (dispatch_pause id) q)) with (jobs q).
  destruct (jobs q !! id) as [s|] eqn:E; cbn [snd].
  2: { apply (sound_dispatch_absent _ id); [apply frame_pause| |done|done]. intros k. by rewrite pause_has. }
  apply sound_start.
  set (f := λ s, let s := with_status Paused s in
                 if decide (failure_code s = Some StorageUnavailable) then no_error s else s). set (q1 := update_job id f (on_dispatch (dispatch_pause id) q)).
  assert (∀ s, job_status (f s) = Paused ∧ job_priority (f s) = job_priority s) as Hf.
  { intros s'. subst f. simpl. by case_decide. }
  assert (statuses q1 = <[id:=Paused]> (statuses q)) as Hs1.
  { apply (statuses_update_status id f (on_dispatch (dispatch_pause id) q) Paused (job_status s)); [|apply Hf].
    apply statuses_lookup. eauto. }
  enough (queue_ok q1) as Hok1 by (by apply (queue_ok_view q1)).
  eapply (queue_ok_insert q q1 id Paused (job_status s)); try done.
  - etrans; [apply kept_dispatch|apply kept_update_job; apply Hf].
  - apply statuses_lookup. eauto.
  - subst q1. rewrite dispatch_update_job, dispatch_on_dispatch. apply frame_pause.
  - subst q1. rewrite dispatch_update_job, dispatch_on_dispatch, pause_has. intros Hh.
    rewrite pause_paused, decide_True by done. split; [unfold live; auto|by split].
Qed.

Lemma takes_slot_sound id q q' st :
  statuses q !! id = Some st → st ≠ Downloading → takes_slot id q q' → sound q q'.
Proof.
  intros Hid Hst (Hok & Hk & st' & Hst' & Hs). split; [done|].
  eapply (no_idle_insert q q' id st' st); try done. by destruct Hst' as [->| ->].
Qed.

Lemma resume_job_sound now disk_ok id q :
  statuses q !! id ≠ Some Downloading → queue_ok q →
  sound q (resume_job to_lowercase now disk_ok id q).2.
Proof.
  intros Hpre Hok. unfold resume_job. destruct (is_paused q) eqn:Hp; [by apply sound_refl|].
  destruct (jobs q !! id) as [s|] eqn:E; [|by apply sound_refl].
  assert (statuses q !! id = Some (job_status s)) as Hid by (apply statuses_lookup; eauto).
  assert (job_status s ≠ Downloading) as Hnd by (intros E'; by rewrite E' in Hid).
  destruct (at_limit _ q) eqn:Hl; [|destruct (has_job (dispatch q) id) eqn:Eh]; cbn [snd].
  - assert (statuses (update_job id (with_status Queued) q) = <[id:=Queued]> (statuses q)) as Hs
      by (by apply (statuses_update_status id (with_status Queued) q Queued (job_status s))).
    pose proof (counted_insert Downloading (statuses q) id Queued _ Hid) as Hc.
    rewrite (decide_False (P := job_status s = Downloading)) in Hc by done. simpl in Hc. split.
    + eapply (queue_ok_insert q _ id Queued (job_status s)); try done; [by apply kept_update_job|].
      rewrite dispatch_update_job. intros Hh. destruct (ok_dispatch _ _ _ _ _ Hok id Hh) as (st & Est & _ & Hw).
      rewrite Hid in Est. injection Est as <-. split; [by left|]. rewrite Hw. by split.
    + intros _ _ _. unfold at_limit in Hl. apply bool_decide_eq_true in Hl. rewrite active_counted in Hl.
      rewrite Hs. change (max_active_downloads (update_job id (with_status Queued) q)) with (max_active_downloads q). lia.
  - eapply takes_slot_sound; [done..|]. eapply resumed_takes_slot; try done.
    + etrans; [|apply kept_dispatch]. by apply kept_update_job.
    + rewrite statuses_dispatch. by eapply statuses_update_status.
  - eapply takes_slot_sound; [done..|]. eapply launched_takes_slot; try done.
    + by apply kept_update_job.
    + by eapply statuses_update_status.
Qed.

Lemma statuses_delete q q' id : jobs q' = delete id (jobs q) → statuses q' = delete id (statuses q).
Proof. unfold statuses. intros ->. apply fmap_delete. Qed.

Lemma statuses_insert q q' id s : jobs q' = <[id:=s]> (jobs q) → statuses q' = <[id:=job_status s]> (statuses q).
Proof. unfold statuses. intros ->. apply fmap_insert. Qed.

(** A job leaves, its download if any with it. *)
Lemma leave_sound q q' id :
  queue_ok q → frame id (dispatch q) (dispatch q') → has_job (dispatch q') id = false →
  jobs q' = delete id (jobs q) → job_order q' = filter (λ j, j ≠ id) (job_order q) → pauses q' = pauses q →
  max_active_downloads q' = max_active_downloads q →
  queue_ok q' ∧ (statuses q !! id ≠ Some Downloading → no_idle q → no_idle q').
Proof.
  intros Hok Hf Hd Hj O P M. pose proof (statuses_delete q q' id Hj) as Hs. split.
  - unfold queue_ok. rewrite Hs, O, P, M. by apply (view_ok_delete _ _ _ _ (dispatch q)).
  - intros Hid. apply no_idle_view; [unfold is_paused; by rewrite P|done|rewrite Hs..|].
    + destruct (statuses q !! id) as [st|] eqn:E; [|by rewrite delete_id].
      rewrite (counted_delete Downloading _ id st E), decide_False by congruence. lia.
    + rewrite Hs. apply counted_le_delete.
Qed.

Lemma remove_job_sound id q :
  queue_ok q → queue_ok (remove_job id q).2 ∧
  (statuses q !! id ≠ Some Downloading → no_idle q → no_idle (remove_job id q).2).
Proof.
  intros Hok. unfold remove_job.
  assert (has_job (dispatch_cancel id (dispatch q)) id = false) as Hgone.
  { apply not_true_is_false. intros [Hne _]%cancel_has. done. }
  rewrite status_of_statuses. destruct (statuses q !! id) as [st|] eqn:E; cbn [snd].
  - destruct (post_processing st); [done|]. cbn [snd]. rewrite <- E.
    apply (leave_sound q _ id); try done. apply frame_cancel.
  - destruct (sound_dispatch_absent (dispatch_cancel id) id q) as [? ?]; try done; [apply frame_cancel| |by apply statuses_absent].
    by intros k [_ ?]%cancel_has.
Qed.

Lemma absent_not_held q id : queue_ok q → jobs q !! id = None → has_job (dispatch q) id = false.
Proof.
  intros Hok Hid. apply not_true_is_false. intros Hh. destruct (ok_dispatch _ _ _ _ _ Hok id Hh) as (st & E & _).
  apply statuses_absent in Hid. congruence.
Qed.

(** A job joins, paused or waiting. *)
Lemma join_ok q q' id s :
  queue_ok q → jobs q !! id = None → jobs q' = <[id:=s]> (jobs q) → job_status s ≠ Downloading →
  job_order q' = job_order q ++ [id] → pauses q' = pauses q → max_active_downloads q' = max_active_downloads q →
  dispatch q' = dispatch q → queue_ok q'.
Proof.
  intros Hok Hid Hj Hst O P M Hd. unfold queue_ok. rewrite (statuses_insert q q' id s Hj), O, P, M, Hd.
  apply view_ok_fresh; [done|by apply statuses_absent|by apply absent_not_held|done].
Qed.

Lemma join_no_idle q q' id s :
  jobs q !! id = None → jobs q' = <[id:=s]> (jobs q) → job_status s ≠ Queued → pauses q' = pauses q →
  max_active_downloads q' = max_active_downloads q → no_idle q → no_idle q'.
Proof.
  intros Hid Hj Hst P M. apply statuses_absent in Hid.
  apply no_idle_view; [unfold is_paused; by rewrite P|done|..]; rewrite (statuses_insert q q' id s Hj), counted_fresh by done.
  - lia.
  - by rewrite decide_False by done.
Qed.

Lemma activate_sound now disk_ok id j added q :
  jobs q !! id = None → queue_ok q → sound q (activate_admitted_job to_lowercase now disk_ok id j added q).
Proof.
  intros Hid Hok. unfold activate_admitted_job. destruct (_ || _).
  - split; [by eapply join_ok|by eapply join_no_idle].
  - apply sound_start. by eapply join_ok.
Qed.

(** *** The end of a job *)
Lemma update_ok id (f : JobState → JobState) q :
  (∀ s, job_status (f s) ≠ Downloading) → (∀ s, job_priority (f s) = job_priority s) → has_job (dispatch q) id = false →
  queue_ok q → queue_ok (update_job id f q).
Proof.
  intros Hf Hp Hd Hok. destruct (jobs q !! id) as [s|] eqn:E.
  - assert (statuses q !! id = Some (job_status s)) as Hid by (apply statuses_lookup; eauto).
    eapply (queue_ok_insert q _ id (job_status (f s)) (job_status s)); try done; [by apply kept_update_job| | | |].
    + rewrite (statuses_alter f id q (job_status (f s))) by (intros; congruence). by rewrite decide_True by eauto.
    + by intros ?%Hf.
    + by intros ?%Hf.
    + rewrite dispatch_update_job, Hd. done.
  - eapply queue_ok_same; [exact Hok|by apply kept_update_job| |done].
    apply map_eq. intros k. unfold statuses. rewrite jobs_update_job, !lookup_fmap.
    destruct (decide (k = id)) as [->|Hk]; [by rewrite lookup_alter_eq, E|by rewrite lookup_alter_ne].
Qed.

Lemma release_ok id q :
  queue_ok q →
  has_job (dispatch (on_dispatch (release_completed_job id) q)) id = false ∧
  queue_ok (on_dispatch (release_completed_job id) q).
Proof.
  intros Hok. assert (has_job (dispatch (on_dispatch (release_completed_job id) q)) id = false) as Hgone.
  { rewrite dispatch_on_dispatch. apply not_true_is_false. by intros [Hne _]%release_has. }
  split; [done|]. eapply (queue_ok_dispatch q _ id); [done|apply kept_dispatch|done| |by rewrite Hgone].
  rewrite dispatch_on_dispatch. apply frame_release.
Qed.

Lemma ended_sound now disk_ok id f q :
  (∀ s, job_status (f s) ≠ Downloading) → (∀ s, job_priority (f s) = job_priority s) → queue_ok q →
  sound q (start_next_queued to_lowercase now disk_ok (update_job id f (on_dispatch (release_completed_job id) q))).
Proof.
  intros Hf Hp Hok. apply sound_start. destruct (release_ok id q Hok) as [Hgone Hok1]. by apply update_ok.
Qed.

Lemma job_finished_sound diagnosis_text abort_hopeless now disk_ok id slice_map note q :
  queue_ok q → sound q (job_finished to_lowercase diagnosis_text abort_hopeless now disk_ok id slice_map note q).
Proof. intros Hok. unfold job_finished, finish_aborted. destruct (diagnosis _ _ _ _); by apply ended_sound. Qed.

Lemma finish_aborted_sound now disk_ok id reason q :
  queue_ok q → sound q (finish_aborted to_lowercase now disk_ok id reason q).
Proof. intros Hok. by apply ended_sound. Qed.

Definition ended (st : JobStatus) : Prop := st = Completed ∨ st = Failed.

Lemma move_to_history_ended no_output s :
  ended (job_status (move_to_history no_output s)) ∧ job_priority (move_to_history no_output s) = job_priority s.
Proof. unfold move_to_history, ended. case_decide; [auto|]. destruct no_output; simpl; auto. Qed.

Lemma post_processed_ended o s :
  ended (job_status (post_processed o s)) ∧ job_priority (post_processed o s) = job_priority s.
Proof.
  destruct o as [|failure script no_output]; cbn [post_processed].
  - destruct (move_to_history_ended false ((with_status Failed s) <| error_message := Some POSTPROC_DISK_FULL_MESSAGE |>)) as [? E].
    split; [done|]. by rewrite E.
  - set (s1 := match failure with Some _ => _ | None => _ end). set (s2 := match script with Some _ => _ | None => _ end).
    destruct (move_to_history_ended no_output s2) as [? E]. split; [done|]. rewrite E. subst s2 s1.
    by destruct failure as [[]|], script.
Qed.

Lemma ended_not_held q id st : queue_ok q → statuses q !! id = Some st → ¬ live st → has_job (dispatch q) id = false.
Proof.
  intros Hok Hid Hst. apply not_true_is_false. intros Hh.
  destruct (ok_dispatch _ _ _ _ _ Hok id Hh) as (st' & E & Hl & _). congruence.
Qed.

Lemma on_job_finished_sound now disk_ok id o q :
  has_job (dispatch q) id = false → statuses q !! id ≠ Some Downloading → queue_ok q →
  sound q (on_job_finished to_lowercase now disk_ok id o q).
Proof.
  intros Hno Hpre Hok. unfold on_job_finished. destruct (jobs q !! id) as [s|] eqn:E; [|by apply sound_refl].
  assert (statuses q !! id = Some (job_status s)) as Hid by (apply statuses_lookup; eauto).
  assert (queue_ok (update_job id (post_processed o) q)) as Hok1.
  { apply update_ok; [| |done|done]; intros s'; destruct (post_processed_ended o s') as [He Hp]; [|done].
    by destruct He as [-> | ->]. }
  assert (sound q (update_job id (post_processed o) q)) as Hs.
  { split; [done|]. destruct (post_processed_ended o s) as [He _].
    eapply (no_idle_insert q _ id _ (job_status s)); [apply kept_update_job; intros; apply post_processed_ended|done| | |].
    - rewrite (statuses_alter _ id q (job_status (post_processed o s))) by (intros; congruence). by rewrite decide_True by eauto.
    - by destruct He as [-> | ->].
    - intros Hd. by rewrite Hd in Hid. }
  destruct o; [by apply sound_start|done].
Qed.

Lemma forget_sound id q :
  (∀ st, statuses q !! id = Some st → ended st) → queue_ok q → sound q (forget id q).
Proof.
  intros Hpre Hok. destruct (leave_sound q (forget id q) id) as [? Hn]; try done.
  - change (dispatch (forget id q)) with (dispatch q). destruct (statuses q !! id) as [st|] eqn:E.
    + eapply ended_not_held; try done. intros [?|[?|?]]; destruct (Hpre st eq_refl); congruence.
    + apply absent_not_held; [done|]. by apply statuses_absent.
  - split; [done|]. apply Hn. intros E. by destruct (Hpre _ E).
Qed.

Lemma aborting_sound id r q :
  queue_ok q →
  sound q (on_dispatch (λ d, (dispatch_abort id r d).2) (update_job id (λ s, s <| error_message := Some r |>) q)).
Proof.
  intros Hok. assert (statuses (update_job id (λ s, s <| error_message := Some r |>) q) = statuses q) as Hs by (by apply statuses_keep).
  split; [|apply no_idle_view; [done|done|by rewrite statuses_dispatch, Hs|by rewrite statuses_dispatch, Hs]].
  eapply (queue_ok_dispatch q _ id); [done| |by rewrite statuses_dispatch| |].
  - etrans; [|apply kept_dispatch]. by apply kept_update_job.
  - rewrite dispatch_on_dispatch, dispatch_update_job. apply frame_abort.
  - rewrite dispatch_on_dispatch, dispatch_update_job, abort_has. intros Hh. by rewrite abort_paused.
Qed.

Lemma scan_sound abort_reason abort_hopeless now timeout q :
  queue_ok q → sound q (scan_for_no_progress_jobs abort_reason abort_hopeless now timeout q).
Proof.
  intros Hok. unfold scan_for_no_progress_jobs. destruct (negb abort_hopeless); [by apply sound_refl|].
  generalize (map_to_list (omap (no_progress abort_reason now timeout) (jobs q))). intros l. revert q Hok.
  induction l as [|[id r] l IH]; intros q Hok; simpl; [by apply sound_refl|].
  destruct (aborting_sound id r q Hok) as [Hok1 Hn1]. eapply sound_trans; [by split|]. by apply IH.
Qed.

(** *** The holds *)
Lemma with_gate_ok q p :
  queue_ok q → globally_paused p = any (holds p) → (globally_paused p = true → is_paused q = true) →
  queue_ok (q <| pauses := p |>).
Proof.
  intros Hok Hg Hp. unfold queue_ok. change (statuses (q <| pauses := p |>)) with (statuses q).
  eapply (view_ok_ext (statuses q)); [exact Hok|done|done|done|done|eauto].
Qed.

Lemma with_holds_sound now disk_ok f q :
  gate_moves (pauses q) (f (pauses q)) → queue_ok q → sound q (with_holds to_lowercase now disk_ok f q).
Proof.
  intros Hg Hok. unfold with_holds. destruct (f (pauses q)) as [p []]; destruct Hg as [Hgate Hmove]; simpl in *.
  - assert (queue_ok (q <| pauses := p |>)) as Hok1 by (apply with_gate_ok; [done|done|by rewrite Hmove]).
    split; [done|]. by apply no_idle_view.
  - split; [by apply pause_jobs_ok|]. intros _ Hp. change (globally_paused p = false) in Hp. congruence.
  - apply sound_start. apply requeue_ok. assert (queue_ok (q <| pauses := p |>)) as Hok1; [|exact Hok1].
    apply with_gate_ok; [done|done|congruence].
Qed.

Lemma resume_paused_sound now disk_ok p q :
  queue_ok q → sound q (resume_paused_jobs to_lowercase now disk_ok p q).
Proof.
  intros Hok. unfold resume_paused_jobs. destruct (is_paused q); [by apply sound_refl|].
  case_decide; [|by apply sound_refl]. by apply sound_start, requeue_ok.
Qed.

Lemma apply_server_overlay_sound now disk_ok q :
  queue_ok q → sound q (apply_server_overlay to_lowercase now disk_ok q).
Proof.
  intros Hok. unfold apply_server_overlay. set (q1 := q <| live_servers := _ |>).
  assert (sound q q1) as Hs by (by apply sound_view). case_decide; [|done].
  eapply sound_trans; [done|]. apply resume_paused_sound, Hs.
Qed.

Lemma update_servers_sound now disk_ok servers q :
  queue_ok q → sound q (update_servers to_lowercase now disk_ok servers q).
Proof.
  intros Hok. assert (sound q (q <| configured_servers := servers |>)) as Hs by (by apply sound_view).
  eapply sound_trans; [done|]. apply apply_server_overlay_sound, Hs.
Qed.

Lemma disk_guard_sound now disk_ok available q :
  queue_ok q → sound q (disk_guard to_lowercase now disk_ok available q).
Proof.
  intros Hok. unfold disk_guard.
  assert (sound q (with_holds to_lowercase now disk_ok (Holds.enforce_disk_guard available now) q)) as Hs.
  { apply with_holds_sound; [|done]. by apply (gate_hold_step (DiskGuard available now)); [apply Hok|]. }
  destruct available; [|done]. eapply sound_trans; [done|]. apply resume_paused_sound, Hs.
Qed.

Lemma apply_schedule_sound now disk_ok d enabled q :
  queue_ok q → sound q (Queue.apply_schedule to_lowercase now disk_ok d enabled q).
Proof.
  intros Hok. unfold Queue.apply_schedule.
  set (q1 := with_holds _ _ _ _ _). assert (sound q q1) as Hs1.
  { apply with_holds_sound; [|done]. by apply (gate_hold_step (Tick d enabled)); [apply Hok|]. }
  set (q2 := if decide (scheduled_speed_cap q1 = _) then _ else _). assert (sound q q2) as Hs2.
  { subst q2. case_decide; [done|]. eapply sound_trans; [done|]. apply sound_view; try done. apply Hs1. }
  case_decide; [done|]. eapply sound_trans; [exact Hs2|].
  set (q3 := q2 <| schedule_disabled_servers := _ |>). assert (sound q2 q3) as Hs3 by (apply sound_view; try done; apply Hs2).
  eapply sound_trans; [exact Hs3|]. apply apply_server_overlay_sound, Hs3.
Qed.
End operations.

(** ** Runs *)
Inductive QueueEvent :=
  | Activate (id : string) (j : NzbJob) (added : N)
  | SetMax (max : nat)
  | SetPriority (id : string) (p : Priority)
  | SortQueue (f : QueueSortField) (ascending : bool)
  | MoveJob (id : string) (position : nat)
  | PauseJob (id : string)
  | ResumeJob (id : string)
  | RemoveJob (id : string)
  | Holding (e : HoldEvent)
  | GuardDisk (available : bool)
  | ScheduleTick (d : Schedule.ScheduleDecision) (enabled : bool)
  | UpdateServers (servers : list (str * bool))
  | SetSpeedLimit (bps : N)
  | WaitingFor (id : string) (message : str)
  | Available (id : string)
  | JobFinished (id : string) (slice_map : option (N * N)) (incomplete_nzb : option str)
  | JobAborted (id : string) (reason : str)
  | PostProcessed (id : string) (o : PostProcOutcome)
  | Forget (id : string)
  | Scan (timeout : N).

Section runs.
Context {D : Type} `{DispatchLaws D} `{Serde} (to_lowercase : str → str) (char_to_lowercase : N → str).
Context (abort_reason : HopelessAbort → str) (diagnosis_text : N * N → str) (abort_hopeless : bool).
Implicit Types q : QueueManager (D:=D).

(** An event at a time, with the volumes that have room. *)
Definition queue_step (now : N) (disk_ok : string → bool) (e : QueueEvent) (q : QueueManager (D:=D))
    : QueueManager (D:=D) :=
  match e with
  | Activate id j added => activate_admitted_job to_lowercase now disk_ok id j added q
  | SetMax max => set_max_active_downloads to_lowercase now disk_ok max q
  | SetPriority id p => (set_job_priority to_lowercase now disk_ok id p q).2
  | SortQueue f ascending => sort_queue char_to_lowercase f ascending q
  | MoveJob id position => (move_job to_lowercase now disk_ok id position q).2
  | PauseJob id => (pause_job to_lowercase now disk_ok id q).2
  | ResumeJob id => (resume_job to_lowercase now disk_ok id q).2
  | RemoveJob id => (remove_job id q).2
  | Holding e => with_holds to_lowercase now disk_ok (hold_step e) q
  | GuardDisk available => disk_guard to_lowercase now disk_ok available q
  | ScheduleTick d enabled => Queue.apply_schedule to_lowercase now disk_ok d enabled q
  | UpdateServers servers => update_servers to_lowercase now disk_ok servers q
  | SetSpeedLimit bps => set_speed_limit bps q
  | WaitingFor id message => waiting_for_providers id message q
  | Available id => providers_available id q
  | JobFinished id slice_map note => job_finished to_lowercase diagnosis_text abort_hopeless now disk_ok id slice_map note q
  | JobAborted id reason => finish_aborted to_lowercase now disk_ok id reason q
  | PostProcessed id o => on_job_finished to_lowercase now disk_ok id o q
  | Forget id => forget id q
  | Scan timeout => scan_for_no_progress_jobs abort_reason abort_hopeless now timeout q
  end.

(** When an event may happen: a job is admitted under a fresh id, is not resumed
    while it downloads already, and is forgotten after its end; the result of its
    post-processing comes when the dispatcher has no work of it. *)
Definition may_happen (e : QueueEvent) (q : QueueManager (D:=D)) : Prop :=
  match e with
  | Activate id _ _ => jobs q !! id = None
  | ResumeJob id => statuses q !! id ≠ Some Downloading
  | PostProcessed id _ => has_job (dispatch q) id = false ∧ statuses q !! id ≠ Some Downloading
  | Forget id => ∀ st, statuses q !! id = Some st → ended st
  | Holding e => e ≠ Restart
  | _ => True
  end.

(** Removing a download leaves its slot to the next event that starts jobs. *)
Definition drops_download (e : QueueEvent) (q : QueueManager (D:=D)) : Prop :=
  match e with RemoveJob id => statuses q !! id = Some Downloading | _ => False end.

Lemma queue_step_sound now disk_ok e q :
  queue_ok q → may_happen e q →
  queue_ok (queue_step now disk_ok e q) ∧ (¬ drops_download e q → no_idle q → no_idle (queue_step now disk_ok e q)).
Proof.
  intros Hok Hmay.
  enough (match e with
          | RemoveJob _ => True
          | _ => sound q (queue_step now disk_ok e q)
          end) as Hs by (destruct e; try (destruct Hs; split; [done|by auto]); by apply remove_job_sound).
  destruct e; simpl in *; [..|exact I| | | | | | | | | | | |].
  - by apply activate_sound.
  - by apply set_max_sound.
  - by apply set_job_priority_sound.
  - by apply sort_queue_sound.
  - by apply move_job_sound.
  - by apply pause_job_sound.
  - by apply resume_job_sound.
  - apply with_holds_sound; [|done]. apply gate_hold_step; [apply Hok|done].
  - by apply disk_guard_sound.
  - by apply apply_schedule_sound.
  - by apply update_servers_sound.
  - by apply sound_view.
  - by apply sound_update_job.
  - apply sound_update_job; [|done]. intros s. destruct (error_message s); [|done]. by case_match.
  - by apply job_finished_sound.
  - by apply finish_aborted_sound.
  - destruct Hmay. by apply on_job_finished_sound.
  - by apply forget_sound.
  - by apply scan_sound.
Qed.

(** *** Restart *)
Lemma restored_status_not_downloading by_global st : restored_status by_global st ≠ Downloading.
Proof. unfold restored_status. destruct by_global; [done|]. case_decide; [done|]. by destruct (post_processing st). Qed.

Lemma restore_row_ok was_paused ids q id s :
  queue_ok q → jobs q !! id = None → queue_ok (restore_row was_paused ids q (id, s)).
Proof.
  intros Hok Hid. unfold restore_row. set (b := restored_by_global _ _ _ _).
  eapply (join_ok q _ id); [done|done|done| |done..]. apply restored_status_not_downloading.
Qed.

Lemma restore_rows_ok was_paused ids rows q :
  queue_ok q → NoDup rows.*1 → (∀ id, id ∈ rows.*1 → jobs q !! id = None) →
  queue_ok (foldl (restore_row was_paused ids) q rows).
Proof.
  revert q. induction rows as [|[id s] rows IH]; intros q Hok Hd Hf; simpl; [done|].
  apply NoDup_cons in Hd as [Hid Hd]. apply IH; [|done|].
  - apply restore_row_ok; [done|]. apply Hf. by left.
  - intros k Hk. assert (∃ s', jobs (restore_row was_paused ids q (id, s)) = <[id:=s']> (jobs q)) as [s' E] by (by eexists).
    etrans; [exact (f_equal (lookup k) E)|]. rewrite lookup_insert_ne by (by intros ->). apply Hf. by right.
Qed.

(** A manager before its restart: no job, and a dispatcher without work. *)
Definition fresh_manager (q : QueueManager (D:=D)) : Prop :=
  jobs q = ∅ ∧ job_order q = [] ∧ ∀ id, has_job (dispatch q) id = false.

Lemma restore_sound now disk_ok db ids rows q :
  fresh_manager q → NoDup rows.*1 →
  let q' := restore_from_db to_lowercase now disk_ok db ids rows q in queue_ok q' ∧ no_idle q'.
Proof.
  intros (Hj & Ho & Hd) Hrows. unfold restore_from_db. set (q1 := q <| pauses := restore_holds db |>).
  assert (statuses q1 = ∅) as Hs1 by (change (statuses q = ∅); unfold statuses; by rewrite Hj).
  assert (queue_ok q1) as Hok1.
  { unfold queue_ok. rewrite Hs1. change (view_ok ∅ (job_order q) (restore_holds db) (max_active_downloads q) (dispatch q)).
    rewrite Ho. split; [by apply NoDup_nil|by intros; rewrite lookup_empty; split; [intros ?%elem_of_nil|intros []]|done|
                        by intros|rewrite counted_empty; lia|intros id; by rewrite Hd]. }
  destruct rows as [|row rows].
  - split; [done|]. intros _ Hc. by rewrite Hs1, counted_empty in Hc.
  - assert (queue_ok (foldl (restore_row (flag_setting "globally_paused" db) ids) q1 (row :: rows))) as Hok2.
    { apply restore_rows_ok; [done|done|]. intros id _. change (jobs q !! id = None). by rewrite Hj. }
    split; [by apply start_next_queued_starts|by apply start_next_queued_no_idle].
Qed.

(** The states of a manager: its restart, then events that may happen; [quiet]
    when none of them dropped a download. *)
Inductive queue_run (quiet : bool) : QueueManager (D:=D) → Prop :=
  | run_restart now disk_ok db ids rows q :
    fresh_manager q → NoDup rows.*1 →
    queue_run quiet (restore_from_db to_lowercase now disk_ok db ids rows q)
  | run_event now disk_ok e q :
    queue_run quiet q → may_happen e q → (quiet = true → ¬ drops_download e q) →
    queue_run quiet (queue_step now disk_ok e q).

Lemma queue_run_sound quiet q : queue_run quiet q → queue_ok q ∧ (quiet = true → no_idle q).
Proof.
  induction 1 as [now disk_ok db ids rows q Hq Hrows|now disk_ok e q _ [Hok Hn] Hmay Hquiet].
  - destruct (restore_sound now disk_ok db ids rows q Hq Hrows). auto.
  - destruct (queue_step_sound now disk_ok e q Hok Hmay) as [? Hn']. auto.
Qed.



Lemma start_next_full now disk_ok q :
  at_limit (max_active_downloads q) q = true → start_next_queued to_lowercase now disk_ok q = q.
Proof.
  intros Hl. unfold start_next_queued. simpl. unfold claim_next_download_slot. rewrite Hl. by destruct (is_paused q).
Qed.

Lemma requeue_over_limit_spec q :
  queue_ok_over q →
  let q' := requeue_over_limit q in
  queue_ok q' ∧ requeues q q' ∧ (statuses q' = statuses q ∨ at_limit (max_active_downloads q') q' = true) ∧
  (0 < max_active_downloads q →
   counted Downloading (statuses q') = counted Downloading (statuses q) `min` max_active_downloads q).
Proof.
  intros Hok. unfold requeue_over_limit. case_decide as E.
  { split_and!; [unfold queue_ok; by rewrite E|split; [done|by left|done]|by left|lia]. }
  destruct (requeue_loop_spec (active_download_count q) q Hok) as (Hok2 & Hr & Hc); [lia|rewrite active_counted; lia|].
  pose proof (kept_max _ _ (requeues_kept _ _ Hr)) as M. cbn zeta in *. split_and!; [|done| |done].
  - eapply view_ok_limit; [exact Hok2|]. intros _. rewrite Hc, M. lia.
  - destruct (decide (counted Downloading (statuses q) ≤ max_active_downloads q)) as [Hle|Hgt].
    + left. destruct (active_download_count q) eqn:Ea; simpl; [done|].
      rewrite (decide_True (P := active_download_count q ≤ _)) by (by rewrite active_counted). done.
    + right. revert Hc M. generalize (requeue_loop (active_download_count q) q). intros q' Hc M.
      unfold at_limit. apply bool_decide_eq_true. rewrite active_counted, Hc, M. lia.
Qed.

(** C27. Slots go by rank when the limit changes: at most the new limit of
    downloads is left and no more lose their slot than must; every download that
    keeps its slot outranks every one that loses it, by priority and then by
    place in the order; and every job that is started outranks every job that
    goes on waiting. *)
Theorem set_max_by_rank quiet q now disk_ok max :
  queue_run quiet q →
  let q' := set_max_active_downloads to_lowercase now disk_ok max q in
  (0 < max → active_download_count q' ≤ max ∧
             (max ≤ active_download_count q → active_download_count q' = max)) ∧
  (∀ a b, status_of q a = Some Downloading → status_of q' a ≠ Some Downloading →
     status_of q b = Some Downloading → status_of q' b = Some Downloading → outranks q b a) ∧
  (∀ a b, status_of q a = Some Queued → status_of q' a ≠ Some Queued →
     status_of q b = Some Queued → status_of q' b = Some Queued → outranks q a b).
Proof.
  intros [Hok _]%queue_run_sound q'. setoid_rewrite status_of_statuses. rewrite !active_counted.
  set (q0 := q <| max_active_downloads := max |>).
  assert (queue_ok_over q0) as Hok0 by (eapply view_ok_limit; [exact Hok|lia]).
  destruct (requeue_over_limit_spec q0 Hok0) as (Hok1 & [Hk1 Ho1 Hr1] & Hfull & Hc).
  set (q1 := requeue_over_limit q0) in *.
  destruct (start_next_queued_starts to_lowercase now disk_ok q1 Hok1) as [Hok2 Hk2 Ho2 Hr2].
  change (start_next_queued to_lowercase now disk_ok q1) with q' in *.
  change (statuses q0) with (statuses q) in *. change (max_active_downloads q0) with max in *.
  pose proof (kept_max _ _ Hk1) as M1. pose proof (kept_max _ _ Hk2) as M2. change (max_active_downloads q0) with max in M1.
  assert (statuses q1 = statuses q ∨ q' = q1) as Hcase.
  { destruct Hfull as [?|Hl]; [by left|right]. by apply start_next_full. }
  split_and!.
  - intros Hm. specialize (Hc Hm). pose proof (ok_limit _ _ _ _ _ Hok2) as L. rewrite M2, M1 in L. specialize (L Hm).
    split; [done|]. intros Hle. assert (at_limit (max_active_downloads q1) q1 = true) as Hl.
    { apply bool_decide_eq_true. rewrite active_counted. lia. }
    assert (q' = q1) as -> by (by apply start_next_full). lia.
  - intros a b Ha Ha' Hb Hb'. assert (statuses q1 !! a ≠ Some Downloading) as Ha1.
    { intros E. destruct (Ho2 a) as [E'|[E' _]]; congruence. }
    destruct Hcase as [E|E]; [congruence|]. rewrite E in Hb'. by apply (Hr1 a b).
  - intros a b Ha Ha' Hb Hb'.
    assert (∀ k, statuses q !! k = Some Queued → statuses q1 !! k = Some Queued) as Hq.
    { intros k Hk. destruct (Ho1 k) as [->|[E _]]; [done|congruence]. }
    apply (kept_outranks q0 q1 a b Hk1). apply Hr2; auto.
Qed.
End runs.
