(* ===== verification/QueueEngine.v ===== *)
(** * The queue over the download engine

    [WorkerPool] of [Engine] behind the interface [DispatchEngine] of [Queue],
    the way [DispatchHandle] of [crates/nzb-dispatch/src/dispatch_engine.rs]
    puts it there, and the two of them together: the queue acts, workers act, in
    any order. *)
From coqutil Require Import Datatypes.RecordSetters.
From S2P Require Import Prelude Str Models Hopeless Holds Queue QueueProps QueueRun.
From S2P Require WorkQueue Engine Settle.
Import TriangleBracketNotations.
#[local] Open Scope record_set.

Section handle.
Context {SL : Type} `{JSL : Engine.JobSlices SL}.
Implicit Types p : Engine.Pool SL.

(** The order [HashMap::into_values] yields, the clock of a submission, the
    fresh slice tracker of a job, and the reading of a server id. *)
Context (into_values : list WorkQueue.HeldVolume → list WorkQueue.HeldVolume) (t : N).
Context (new_slices : string → NzbJob → SL) (server_id : str → string).

Definition article_of (a : Article) : Engine.Article :=
  {| Engine.a_message_id := message_id a; Engine.a_segment := segment_number a;
     Engine.a_downloaded := downloaded a; Engine.a_tried := server_id <$> tried_servers a |}.

Definition file_of (f : NzbFile) : Engine.NzbFile :=
  {| Engine.f_id := file_id f; Engine.f_name := filename f; Engine.f_articles := article_of <$> articles f;
     Engine.f_par2_vol := par2_vol f; Engine.f_par2_blocks := par2_blocks f |}.

(** [DispatchHandle::submit_job] *)
Definition handle_submit_job (id : string) (j : NzbJob) p : Engine.Pool SL :=
  let enabled_server_ids := Engine.server <$> filter (λ s, Engine.enabled s = true) (Engine.servers p) in
  let (c, its) := Engine.build_job_submission id (file_of <$> files j) (new_slices id j) enabled_server_ids in
  Engine.submit_job into_values t id c its p.

Definition handle_has_job p (id : string) : bool := bool_decide (is_Some (Engine.lookup_job p id)).
Definition handle_work_paused p (id : string) : bool :=
  match Engine.lookup_job p id with Some c => Engine.paused c | None => false end.

#[export] Instance dispatch_handle : DispatchEngine (Engine.Pool SL) := {
  submit_job := handle_submit_job;
  dispatch_pause := Engine.pause_job;
  dispatch_resume := Engine.resume_job;
  dispatch_cancel := Engine.cancel_job;
  dispatch_abort := Engine.abort_job;
  release_completed_job := Engine.release_completed_job;
  has_job := handle_has_job;
  work_paused := handle_work_paused;
}.

(** ** What the queue can see of the pool *)
Definition observe p (id : string) : option bool := Engine.paused <$> Engine.lookup_job p id.

Lemma has_job_observe p id : handle_has_job p id = bool_decide (is_Some (observe p id)).
Proof. unfold handle_has_job, observe. apply bool_decide_ext. by rewrite fmap_is_Some. Qed.
Lemma work_paused_observe p id : handle_work_paused p id = default false (observe p id).
Proof. unfold handle_work_paused, observe. by destruct (Engine.lookup_job p id). Qed.

Lemma observe_lookup p p' id :
  Engine.registered p' = Engine.registered p → Engine.paused <$> Engine.contexts p' !! id = Engine.paused <$> Engine.contexts p !! id →
  observe p' id = observe p id.
Proof. unfold observe, Engine.lookup_job. intros ->. by case_decide. Qed.

(** A handler that leaves [paused] alone. *)
Definition keeps (f : Engine.JobSt SL → Engine.JobSt SL) : Prop :=
  ∀ s, Engine.paused (Engine.jctx (f s)) = Engine.paused (Engine.jctx s).

Lemma observe_with_job j f p id : keeps f → observe (Engine.with_job j f p) id = observe p id.
Proof.
  intros Hf. unfold Engine.with_job. destruct (Engine.contexts p !! j) as [c|] eqn:E; [|done].
  apply observe_lookup; [done|]. simpl. destruct (decide (id = j)) as [->|Hne].
  - rewrite lookup_insert_eq, E. simpl. by rewrite Hf.
  - by rewrite lookup_insert_ne.
Qed.

Lemma keeps_comp f g : keeps f → keeps g → keeps (λ s, f (g s)).
Proof. intros Hf Hg s. by rewrite Hf. Qed.

Lemma emit_terminal_paused (c : Engine.JobContext SL) : Engine.paused (Engine.emit_terminal c) = Engine.paused c.
Proof. unfold Engine.emit_terminal. repeat case_match; done. Qed.

Lemma release_held_paused b (c : Engine.JobContext SL) q :
  Engine.paused (Engine.release_held b c q).1.2 = Engine.paused c.
Proof. unfold Engine.release_held. repeat case_match; done. Qed.

Lemma resolve_one_paused (c : Engine.JobContext SL) q : Engine.paused (Engine.resolve_one c q).1 = Engine.paused c.
Proof.
  unfold Engine.resolve_one. pose proof (release_held_paused false c q) as E1.
  destruct (Engine.release_held false c q) as [[b1 c1] q1]. simpl in E1. case_decide; [done|].
  set (c2 := Engine.with_remaining _ c1). pose proof (release_held_paused true c2 q1) as E2.
  destruct (Engine.release_held true c2 q1) as [[[] c3] q3]; simpl in *; [by rewrite E2|].
  by rewrite emit_terminal_paused, E2.
Qed.

Lemma keeps_resolve : keeps Engine.resolve.
Proof.
  intros s. unfold Engine.resolve. pose proof (resolve_one_paused (Engine.jctx s) (Engine.jqueue s)) as E.
  by destruct (Engine.resolve_one _ _).
Qed.

Lemma keeps_send_failed i f : keeps (Engine.send_failed i f).
Proof. intros s. unfold Engine.send_failed. by rewrite keeps_resolve. Qed.

Lemma keeps_fail_article_everywhere i sv : keeps (Engine.fail_article_everywhere i sv).
Proof. intros s. unfold Engine.fail_article_everywhere. by rewrite keeps_send_failed. Qed.

Lemma keeps_not_available e sv k i s :
  Engine.paused (Engine.jctx (Engine.handle_article_not_available e sv k i s).2) = Engine.paused (Engine.jctx s).
Proof.
  unfold Engine.handle_article_not_available. repeat case_match; try done. by apply keeps_fail_article_everywhere.
Qed.

Lemma keeps_retry e sv k i s :
  Engine.paused (Engine.jctx (Engine.retry_or_fail_over e sv k i s).2) = Engine.paused (Engine.jctx s).
Proof. unfold Engine.retry_or_fail_over. case_decide; [done|]. by apply keeps_not_available. Qed.

Lemma keeps_complete sv i pr : keeps (Engine.complete_article sv i pr).
Proof. intros s. unfold Engine.complete_article. by rewrite keeps_resolve. Qed.

Lemma keeps_assembly_failed sv i : keeps (Engine.assembly_failed sv i).
Proof. intros s. unfold Engine.assembly_failed. by rewrite keeps_send_failed. Qed.

Lemma keeps_incomplete i sv : keeps (Engine.fail_incomplete_nzb_article i sv).
Proof. intros s. unfold Engine.fail_incomplete_nzb_article. by rewrite keeps_send_failed. Qed.

Definition reaction_keeps (r : Engine.Reaction SL) : Prop :=
  keeps (Engine.before r) ∧ ∀ e, keeps (Engine.after r e).

Create Rewrite HintDb engine.
#[local] Hint Rewrite keeps_send_failed keeps_not_available keeps_retry keeps_complete keeps_assembly_failed
  keeps_incomplete keeps_resolve : engine.

Lemma serial_keeps sv i r : reaction_keeps (Engine.serial_reaction sv i r).
Proof.
  unfold Engine.serial_reaction. repeat case_match; (split; [by intros s|]); intros env s; simpl;
    autorewrite with engine; done.
Qed.

Lemma pipelined_failure_keeps sv i err : reaction_keeps (Engine.pipelined_failure sv i err).
Proof.
  split; [by intros s|]. intros env s. simpl. repeat case_match; try case_decide; autorewrite with engine; done.
Qed.

Lemma pipelined_keeps sv i r : reaction_keeps (Engine.pipelined_reaction sv i r).
Proof.
  unfold Engine.pipelined_reaction. repeat case_match; try apply pipelined_failure_keeps; (split; [by intros s|]);
    intros env s; simpl; autorewrite with engine; done.
Qed.

(** ** The pool between two operations of the queue *)
Definition unseen p p' : Prop := ∀ id, observe p' id = observe p id.
#[export] Instance unseen_preorder : PreOrder unseen.
Proof. split; [by intros p id|]. intros p1 p2 p3 H12 H23 id. by rewrite H23. Qed.

Lemma unseen_with_job j f p : keeps f → unseen p (Engine.with_job j f p).
Proof. intros Hf id. by apply observe_with_job. Qed.

Lemma unseen_on_registered f p :
  (∀ c, Engine.paused (f c) = Engine.paused c) → unseen p (Engine.on_registered f p).
Proof.
  intros Hf id. apply observe_lookup; [done|]. unfold Engine.on_registered. simpl. rewrite map_lookup_imap.
  destruct (Engine.contexts p !! id); simpl; [|done]. case_decide; [by rewrite Hf|done].
Qed.

Lemma unseen_report_outage u p : unseen p (Engine.report_provider_outage u p).
Proof.
  unfold Engine.report_provider_outage. case_match; [|done]. apply unseen_on_registered. intros c.
  unfold Engine.report_waiting_for_providers. by case_match.
Qed.

Lemma unseen_react u sv j rc p : reaction_keeps rc → unseen p (Engine.react u sv j rc p).
Proof.
  intros [Hb Ha]. unfold Engine.react. etrans; [by apply (unseen_with_job j (Engine.before rc))|].
  etrans; [|apply unseen_with_job, Ha]. unfold Engine.trip_breaker. case_match; [|done].
  etrans; [|apply unseen_report_outage]. done.
Qed.

Lemma unseen_transport sv p i : unseen p (Engine.transport_sent sv p i).
Proof. unfold Engine.transport_sent. case_match; [|done]. by apply unseen_with_job. Qed.

Lemma unseen_foldl {A} (f : Engine.Pool SL → A → Engine.Pool SL) l p :
  (∀ p x, unseen p (f p x)) → unseen p (foldl f p l).
Proof. intros Hf. revert p. induction l as [|x l IH]; intros p; simpl; [done|]. etrans; [apply Hf|apply IH]. Qed.

(** What the pool does on its own: the steps of [Engine.step] but the
    operations on jobs. *)
Inductive worker_step : Engine.Pool SL → Engine.Pool SL → Prop :=
  | worker_take p w sv hp : worker_step p (Engine.take_turn w sv hp p)
  | worker_serial p u n w sv i r :
    Engine.in_flight p !! n = Some (w, sv, i) →
    worker_step p (Engine.finish_serial u sv i r (Engine.with_in_flight (delete n (Engine.in_flight p)) p))
  | worker_pipelined p u n w sv i r :
    Engine.in_flight p !! n = Some (w, sv, i) →
    worker_step p (Engine.finish_pipelined u sv i r (Engine.with_in_flight (delete n (Engine.in_flight p)) p))
  | worker_requeue p w its : worker_step p (Engine.requeue_worker w its p)
  | worker_stalled p w sv its :
    worker_step p (Engine.requeue_worker w its (foldl (Engine.transport_sent sv) p its))
  | worker_wake p n i :
    Engine.sleeping p !! n = Some i →
    worker_step p (Engine.with_queue (WorkQueue.push_front i (Engine.work_queue p))
      (Engine.with_sleeping (delete n (Engine.sleeping p)) p))
  | worker_supervise p u : worker_step p (Engine.resolve_items_not_waiting_on_required_providers u p)
  | worker_connected p sv h :
    worker_step p (Engine.pool_report_providers_available (Engine.with_servers (Engine.servers p) (<[sv:=h]> (Engine.server_health p)) p))
  | worker_connect_failed p u sv is_auth :
    worker_step p (Engine.with_servers (Engine.servers p) (Engine.note_failure u is_auth sv (Engine.server_health p)) p)
  | worker_report_outage p u : worker_step p (Engine.report_provider_outage u p)
  | worker_update_servers p ss : worker_step p (Engine.with_servers ss (Engine.server_health p) p).

Lemma take_turn_unseen w sv hp p : unseen p (Engine.take_turn w sv hp p).
Proof.
  unfold Engine.take_turn. destruct (WorkQueue.pop_workable _ _ _) as [[i|] q]; [|done].
  destruct (Engine.lookup_job _ _) as [c|]; [|done]. destruct (Engine.cancelled c); [|by case_match].
  etrans; [|apply unseen_with_job, keeps_resolve]. done.
Qed.

Lemma worker_step_unseen p p' : worker_step p p' → unseen p p'.
Proof.
  destruct 1 as [p w sv hp|p u n w sv i r|p u n w sv i r|p w its|p w sv its|p n i|p u|p sv h|p u sv a|p u|p ss]; try done.
  - apply take_turn_unseen.
  - etrans; [|apply unseen_react, serial_keeps]. done.
  - unfold Engine.finish_pipelined. destruct (Engine.lookup_job _ _) as [c|]; [|done]. case_match.
    + etrans; [|apply unseen_with_job, keeps_resolve]. done.
    + etrans; [|apply unseen_react, pipelined_keeps]. done.
  - etrans; [apply (unseen_foldl (Engine.transport_sent sv) its p), unseen_transport|]. done.
  - unfold Engine.resolve_items_not_waiting_on_required_providers. case_match; [|done].
    destruct (WorkQueue.take_where _ _) as [taken q]. etrans; [|apply unseen_foldl]; [done|]. intros p' i.
    unfold Engine.resolve_taken. destruct (Engine.lookup_job _ _) as [c|]; [|done].
    case_match; apply unseen_with_job; [apply keeps_resolve|apply keeps_fail_article_everywhere].
  - etrans; [|apply unseen_on_registered]; [done|]. intros c. unfold Engine.report_providers_available. by case_match.
  - apply unseen_report_outage.
Qed.

(** ** The laws of the interface *)
Lemma observe_pause id p k :
  observe (Engine.pause_job id p) k = if decide (k = id) then (λ _, true) <$> observe p k else observe p k.
Proof.
  unfold Engine.pause_job, observe. destruct (Engine.lookup_job p id) as [c|] eqn:E.
  - unfold Engine.lookup_job in *. simpl. destruct (decide (k = id)) as [->|Hne].
    + case_decide; [|done]. by rewrite lookup_insert_eq, E.
    + by rewrite lookup_insert_ne.
  - case_decide; subst; [by rewrite E|done].
Qed.

Lemma observe_resume id p k :
  observe (Engine.resume_job id p) k = if decide (k = id) then (λ _, false) <$> observe p k else observe p k.
Proof.
  unfold Engine.resume_job, observe. destruct (Engine.lookup_job p id) as [c|] eqn:E.
  - unfold Engine.lookup_job in *. simpl. destruct (decide (k = id)) as [->|Hne].
    + case_decide; [|done]. by rewrite lookup_insert_eq, E.
    + by rewrite lookup_insert_ne.
  - case_decide; subst; [by rewrite E|done].
Qed.

Lemma observe_release id p k :
  observe (Engine.release_completed_job id p) k = if decide (k = id) then None else observe p k.
Proof.
  unfold observe, Engine.lookup_job, Engine.release_completed_job. simpl.
  destruct (decide (k = id)) as [->|Hne]; [by rewrite decide_False by set_solver|].
  destruct (decide (k ∈ Engine.registered p)); [by rewrite decide_True by set_solver|by rewrite decide_False by set_solver].
Qed.

Lemma observe_cancel id p k :
  observe (Engine.cancel_job id p) k = if decide (k = id) then None else observe p k.
Proof.
  unfold Engine.cancel_job. destruct (Engine.lookup_job p id) as [c|] eqn:E.
  - unfold observe, Engine.lookup_job. simpl.
    destruct (decide (k = id)) as [->|Hne]; [by rewrite decide_False by set_solver|]. rewrite lookup_insert_ne by done.
    destruct (decide (k ∈ Engine.registered p)); [by rewrite decide_True by set_solver|by rewrite decide_False by set_solver].
  - destruct (decide (k = id)) as [->|Hne]; [|done]. unfold observe. by rewrite E.
Qed.

Lemma observe_abort id r p k : observe (Engine.abort_job id r p).2 k = observe p k.
Proof.
  unfold Engine.abort_job. destruct (Engine.lookup_job p id) as [c|] eqn:E; [|done].
  destruct (Engine.abort_reason c); [done|]. destruct (WorkQueue.drain_job _ _) as [drained q]. simpl.
  rewrite observe_with_job.
  - apply Settle.lookup_job_Some in E as [_ E]. apply observe_lookup; [done|]. simpl.
    destruct (decide (k = id)) as [->|Hne]; [by rewrite lookup_insert_eq, E|by rewrite lookup_insert_ne].
  - intros s. simpl. assert (∀ n, keeps (Nat.iter n Engine.resolve)) as Hiter.
    { intros n. induction n as [|n IH]; intros s'; simpl; [done|]. by rewrite keeps_resolve, IH. }
    case_decide; [rewrite emit_terminal_paused|]; apply Hiter.
Qed.

Lemma observe_submit id j p k :
  (k ≠ id ∨ observe p k = None) ∧ observe (handle_submit_job id j p) k = observe p k ∨
  k = id ∧ observe (handle_submit_job id j p) k = Some false.
Proof.
  unfold handle_submit_job, Engine.build_job_submission.
  set (c := Engine.with_failed _ _). assert (Engine.paused c = false) as Hc by done.
  set (its := Engine.work_items _ _ _). clearbody c its. unfold Engine.submit_job.
  assert (∀ (c' : Engine.JobContext SL) q, Engine.paused c' = false →
    let p' := Engine.with_queue q (Engine.with_contexts (<[id:=c']> (Engine.contexts p)) (Engine.with_registered ({[id]} ∪ Engine.registered p) p)) in
    (k ≠ id ∨ observe p k = None) ∧ observe p' k = observe p k ∨ k = id ∧ observe p' k = Some false) as Hreg.
  { intros c' q Hc'. unfold observe, Engine.lookup_job. simpl. destruct (decide (k = id)) as [->|Hne].
    - right. split; [done|]. rewrite decide_True by set_solver. rewrite lookup_insert_eq. simpl. by rewrite Hc'.
    - left. split; [by left|]. rewrite lookup_insert_ne by done.
      destruct (decide (k ∈ Engine.registered p)); [by rewrite decide_True by set_solver|by rewrite decide_False by set_solver]. }
  destruct its as [|i its'].
  - unfold observe, Engine.lookup_job. simpl. destruct (decide (k = id)) as [->|Hne].
    + rewrite lookup_insert_eq. case_decide; [right|left; by auto]. split; [done|]. simpl. by rewrite emit_terminal_paused, Hc.
    + left. rewrite lookup_insert_ne by done. auto.
  - set (r := if _ && _ then _ else _). assert (Engine.paused r.2 = false) as Hr.
    { subst r. case_match; [|done]. by destruct (WorkQueue.hold _ _ _ _). }
    destruct r as [[|i2 nowi] c2]; simpl in Hr.
    + pose proof (release_held_paused true c2 (Engine.work_queue (Engine.with_registered ({[id]} ∪ Engine.registered p) p))) as Hh.
      destruct (Engine.release_held _ _ _) as [[more c3] q3]. simpl in Hh. apply Hreg.
      destruct more; [|rewrite emit_terminal_paused]; congruence.
    + rewrite unseen_report_outage. by apply Hreg.
Qed.

#[export] Instance dispatch_handle_laws : DispatchLaws (Engine.Pool SL).
Proof.
  split; simpl; intros *; rewrite ?has_job_observe, ?work_paused_observe, ?bool_decide_eq_true.
  - destruct (observe_submit id j d k) as [[_ ->]|[-> _]]; auto.
  - intros Hs. destruct (observe_submit id j d k) as [[[Hne|Hn] E]|[-> E]].
    + by rewrite decide_False, E.
    + rewrite E, Hn in Hs. by destruct Hs.
    + by rewrite decide_True, E.
  - rewrite observe_pause. case_decide; [|done]. apply bool_decide_ext. by rewrite fmap_is_Some.
  - rewrite observe_pause. intros [b E]. rewrite E. by case_decide.
  - rewrite observe_resume. case_decide; [|done]. apply bool_decide_ext. by rewrite fmap_is_Some.
  - rewrite observe_resume. intros [b E]. rewrite E. by case_decide.
  - rewrite observe_cancel. case_decide; [|tauto]. split; [by intros [? ?]|by intros [? ?]].
  - intros Hne _. by rewrite observe_cancel, decide_False.
  - rewrite observe_release. case_decide; [|tauto]. split; [by intros [? ?]|by intros [? ?]].
  - intros Hne _. by rewrite observe_release, decide_False.
  - by rewrite observe_abort.
  - intros _. by rewrite observe_abort.
Qed.

(** ** The queue and the workers together *)
Section system.
Context `{Serde} (to_lowercase : str → str) (char_to_lowercase : N → str).
Context (abort_reason : HopelessAbort → str) (diagnosis_text : N * N → str) (abort_hopeless : bool).

Inductive system_run : QueueManager (D:=Engine.Pool SL) → Prop :=
  | system_restart now disk_ok db ids rows q :
    fresh_manager q → NoDup rows.*1 → system_run (restore_from_db to_lowercase now disk_ok db ids rows q)
  | system_event now disk_ok e q :
    system_run q → may_happen e q →
    system_run (queue_step to_lowercase char_to_lowercase abort_reason diagnosis_text abort_hopeless now disk_ok e q)
  | system_worker q p' :
    system_run q → worker_step (dispatch q) p' → system_run (q <| dispatch := p' |>).

Lemma queue_ok_unseen (q : QueueManager (D:=Engine.Pool SL)) p' :
  queue_ok q → unseen (dispatch q) p' → queue_ok (q <| dispatch := p' |>).
Proof.
  intros [N O G P L W] Hu. split; [done..|]. intros id. change (dispatch (q <| dispatch := p' |>)) with p'.
  specialize (W id). revert W. simpl. by rewrite !has_job_observe, !work_paused_observe, Hu.
Qed.

Lemma system_run_ok q : system_run q → queue_ok q.
Proof.
  induction 1 as [now disk_ok db ids rows q Hq Hrows|now disk_ok e q _ Hok Hmay|q p' _ Hok Hw].
  - by apply restore_sound.
  - by apply queue_step_sound.
  - apply queue_ok_unseen; [done|]. by apply worker_step_unseen.
Qed.

Lemma take_turn_in_flight w sv hp (p : Engine.Pool SL) :
  Engine.in_flight (Engine.take_turn w sv hp p) = Engine.in_flight p ∨
  ∃ i, Engine.in_flight (Engine.take_turn w sv hp p) = (w, sv, i) :: Engine.in_flight p ∧
       observe p (WorkQueue.job_id i) = Some false.
Proof.
  unfold Engine.take_turn. destruct (WorkQueue.pop_workable _ _ _) as [[i|] q]; [|by left].
  destruct (Engine.lookup_job _ _) as [c|] eqn:E; [|by left]. destruct (Engine.cancelled c).
  - left. unfold Engine.with_job. by case_match.
  - destruct (Engine.paused c) eqn:Ep; [by left|]. right. exists i. split; [done|]. unfold observe.
    change (Engine.lookup_job p (WorkQueue.job_id i) = Some c) in E. by rewrite E; simpl; rewrite Ep.
Qed.

(** C8. The queue decides what the workers fetch: however the operations of the
    queue and the steps of the workers interleave, no job being resumed while it
    downloads already (see [resumed_twice_exceeds_limit]), jobs being admitted
    under fresh ids, forgotten after their end and told the result of their
    post-processing when the dispatcher has no work of them, a worker is handed
    an article only of a job the queue shows as downloading, none while the queue
    is held, and never of more jobs than the limit allows. *)
Theorem workers_serve_downloads q w sv hp :
  system_run q →
  (∀ x, x ∈ Engine.in_flight (Engine.take_turn w sv hp (dispatch q)) →
     x ∈ Engine.in_flight (dispatch q) ∨ status_of q (WorkQueue.job_id x.2) = Some Downloading) ∧
  (is_paused q = true → Engine.in_flight (Engine.take_turn w sv hp (dispatch q)) = Engine.in_flight (dispatch q)) ∧
  (0 < max_active_downloads q → active_download_count q ≤ max_active_downloads q).
Proof.
  intros [N O G P L W]%system_run_ok. rewrite active_counted. setoid_rewrite status_of_statuses.
  assert (∀ i, observe (dispatch q) (WorkQueue.job_id i) = Some false →
    statuses q !! WorkQueue.job_id i = Some Downloading) as Hdown.
  { intros i E. destruct (W (WorkQueue.job_id i)) as (st & Est & _ & Hw).
    - simpl. rewrite has_job_observe, bool_decide_eq_true, E. eauto.
    - rewrite Est. f_equal. apply Hw. simpl. by rewrite work_paused_observe, E. }
  split_and!; [| |done].
  - intros x. destruct (take_turn_in_flight w sv hp (dispatch q)) as [->|(i & -> & E)]; [by left|].
    intros [->|Hx]%elem_of_cons; [right|by left]. by apply Hdown.
  - intros Hp. destruct (take_turn_in_flight w sv hp (dispatch q)) as [->|(i & _ & E)]; [done|].
    destruct (P _ Hp (Hdown i E)).
Qed.
End system.
End handle.

(** ** Two jobs and one slot *)
Module QueueExamples.
Import Settle HoldExamples.

#[export] Instance handle : DispatchEngine (Engine.Pool N) :=
  dispatch_handle (λ l, l) 0 (λ _ _, 0%N) (λ _, "s"%string).
#[export] Instance handle_laws : DispatchLaws (Engine.Pool N) :=
  dispatch_handle_laws (λ l, l) 0 (λ _ _, 0%N) (λ _, "s"%string).

Definition a_file : NzbFile :=
  {| file_id := "f"; filename := lit "f.rar"; f_bytes := 100; bytes_downloaded := 0; is_par2 := false;
     par2_setname := None; par2_vol := None; par2_blocks := None; assembled := false; groups := [];
     articles := [{| message_id := lit "m"; segment_number := 1; a_bytes := 100; downloaded := false;
                     data_begin := None; data_size := None; crc32 := None; tried_servers := []; tries := 0 |}] |}.
Definition a_job : NzbJob :=
  {| name := lit "n"; category := lit "c"; status := Queued; priority := Normal; total_bytes := 100;
     downloaded_bytes := 0; file_count := 1; files_completed := 0; article_count := 1; articles_downloaded := 0;
     articles_failed := 0; password := None; files := [a_file] |}.

Definition before : QueueManager (D:=Engine.Pool N) :=
  {| jobs := ∅; job_order := []; globally_paused_jobs := ∅; pauses := hold_start; max_active_downloads := 1;
     dispatch := Engine.empty_pool [{| Engine.server := "s"; Engine.priority := 0; Engine.enabled := true;
                                       Engine.optional := false |}] false;
     configured_servers := [(lit "s", true)]; schedule_disabled_servers := []; live_servers := [(lit "s", true)];
     configured_speed_limit_bps := 0; scheduled_speed_cap := None; download_bps := None |}.

Definition act (q : QueueManager (D:=Engine.Pool N)) (e : QueueEvent) : QueueManager (D:=Engine.Pool N) :=
  queue_step id (λ c, [c]) (λ _, []) (λ _, []) true 0 (λ _, true) e q.
Definition started : QueueManager (D:=Engine.Pool N) :=
  restore_from_db id 0 (λ _, true) ∅ None [] before.
Definition two_jobs : QueueManager (D:=Engine.Pool N) :=
  foldl act started [Activate "a" a_job 0; Activate "b" a_job 1].

Example two_jobs_one_slot :
  status_of two_jobs "a" = Some Downloading ∧ status_of two_jobs "b" = Some Queued ∧
  work_paused (dispatch two_jobs) "a" = false.
Proof. by vm_compute. Qed.

(** Removing the running download starts nothing: the slot stays free. *)
Example removal_leaves_slot_idle :
  let q := act two_jobs (RemoveJob "a") in
  is_paused q = false ∧ active_download_count q = 0 ∧ status_of q "b" = Some Queued.
Proof. by vm_compute. Qed.

(** Resuming a running download at the limit queues it while it goes on, so the
    next job that starts runs beside it. *)
Example resumed_twice_exceeds_limit :
  let q := act (act two_jobs (ResumeJob "a")) (SetPriority "b" High) in
  status_of q "a" = Some Queued ∧ status_of q "b" = Some Downloading ∧
  work_paused (dispatch q) "a" = false ∧ work_paused (dispatch q) "b" = false.
Proof. by vm_compute. Qed.

(** A job in post-processing that is resumed is downloaded again. *)
Example resumed_in_post_processing :
  let q := act (act started (Activate "a" a_job 0)) (JobFinished "a" None None) in
  status_of q "a" = Some PostProcessing ∧ status_of (act q (ResumeJob "a")) "a" = Some Downloading ∧
  has_job (dispatch (act q (ResumeJob "a"))) "a" = true.
Proof. by vm_compute. Qed.

(** A job that loses its slot to one moved above it is paused, not queued, and
    stays so when the slot is free again. *)
Example preempted_stays_paused :
  let q := act (act two_jobs (MoveJob "b" 0)) (JobFinished "b" None None) in
  status_of q "a" = Some Paused ∧ pause_reason "a" q = Some Manual ∧ active_download_count q = 0.
Proof. by vm_compute. Qed.

(** A job the user paused while it waited for providers is resumed by a change
    of the servers. *)
Example user_pause_lifted_by_servers :
  let q := foldl act started [Activate "a" a_job 0; WaitingFor "a" (lit "Waiting for providers: s"); PauseJob "a"] in
  status_of q "a" = Some Paused ∧
  status_of (act q (UpdateServers [(lit "s", true)])) "a" = Some Downloading.
Proof. by vm_compute. Qed.

(** A job whose last article came in under a global pause is in post-processing
    and still listed as paused; a restart then pauses it. *)
Example finished_under_pause :
  let q := foldl act started [Activate "a" a_job 0; Holding PauseAll; JobFinished "a" None None] in
  status_of q "a" = Some PostProcessing ∧
  status_of (restore_from_db id 0 (λ _, true) (settings (pauses q)) (Some (globally_paused_jobs q))
    [("a"%string, default {| job := a_job; added_at := 0; error_message := None; failure_code := None;
                             hopeless_tracker := None |} (jobs q !! "a"%string))] before) "a" = Some Paused.
Proof. by vm_compute. Qed.

(** *** The theorems at these states *)
Lemma before_fresh : fresh_manager before.
Proof. split; [done|]. split; [done|]. intros id. done. Qed.

Abbreviation run := (queue_run id (λ c, [c]) (λ _, []) (λ _, []) true).
Abbreviation system := (system_run (λ l, l) 0 (λ _ _, 0%N) (λ _, "s"%string) id (λ c, [c]) (λ _, []) (λ _, []) true).

Lemma act_run q e : run true q → may_happen e q → ¬ drops_download e q → run true (act q e).
Proof. intros Hq He Hd. by apply run_event. Qed.

Lemma two_jobs_run : run true two_jobs.
Proof.
  assert (run true started) as Hs by (apply run_restart; [apply before_fresh|by apply NoDup_nil]).
  apply act_run; [|by vm_compute|by intros []]. apply act_run; [done|by vm_compute|by intros []].
Qed.

Lemma two_jobs_system : system two_jobs.
Proof.
  assert (system started) as Hs by (apply system_restart; [apply before_fresh|by apply NoDup_nil]).
  apply (system_event _ _ _ _ _ _ _ _ _ 0 (λ _, true) (Activate "b" a_job 1)); [|by vm_compute].
  apply (system_event _ _ _ _ _ _ _ _ _ 0 (λ _, true) (Activate "a" a_job 0)); [done|by vm_compute].
Qed.
End QueueExamples.
Import QueueExamples.
#[local] Existing Instance Settle.ex_tracker.
#[local] Existing Instance HoldExamples.plain_serde.



Lemma set_max_by_rank_witness :
  active_download_count (set_max_active_downloads id 0 (λ _, true) 1 two_jobs) = 1.
Proof.
  destruct (set_max_by_rank id (λ c, [c]) (λ _, []) (λ _, []) true true two_jobs 0 (λ _, true) 1 two_jobs_run) as ([_ E] & _);
    [lia|apply E; vm_compute; lia].
Defined.

Lemma workers_serve_downloads_witness :
  length (Engine.in_flight (Engine.take_turn 0 "s" [] (dispatch two_jobs))) = 1 ∧
  Forall (λ x, status_of two_jobs (WorkQueue.job_id x.2) = Some Downloading)
    (Engine.in_flight (Engine.take_turn 0 "s" [] (dispatch two_jobs))).
Proof.
  split; [by vm_compute|]. apply Forall_forall. intros x Hx.
  destruct (workers_serve_downloads (λ l, l) 0 (λ _ _, 0%N) (λ _, "s"%string) id (λ c, [c]) (λ _, []) (λ _, []) true
    two_jobs 0 "s" [] two_jobs_system) as (Hd & _).
  destruct (Hd x Hx) as [Hin|E]; [|exact E]. by apply elem_of_nil in Hin.
Defined.
