(* ===== verification/Checkpoint.v ===== *)
(** * Progress and checkpoints of a job

    How [crates/nzb-web/src/queue_manager.rs] counts the articles of a running
    job ([run_progress_handler]), writes a checkpoint of them
    ([checkpoint_for_job]) and reads it back into the freshly parsed job at a
    restart or a retry ([apply_checkpoint], [prepare_retry_job]), and what the
    dispatcher then fetches. The folders, the statistics of the servers and the
    active time a checkpoint carries are left out. *)
From coqutil Require Import Datatypes.RecordSetters.
From S2P Require Import Prelude Str Models NzbParser Hopeless HopelessProps.
From S2P Require WorkQueue Engine Queue QueueEngine.
Import TriangleBracketNotations.
#[local] Open Scope record_set.

(** ** Data *)
Record ArticleCheckpoint := {
  c_message_id : str;
  c_segment_number : N;
  c_bytes : N;
  c_downloaded : bool;
  c_data_begin : option N;
  c_data_size : option N;
  c_crc32 : option N;
  c_tried_servers : list str;
  c_tries : N;
}.

Record JobCheckpoint := {
  cp_files : gmap str (list N);
  cp_downloaded_bytes : N;
  cp_articles_downloaded : nat;
  cp_articles_failed : nat;
  cp_files_completed : nat;
  cp_articles : gmap str (list ArticleCheckpoint);
}.

(** Collecting pairs into a [HashMap]: a later entry replaces an earlier one. *)
Definition collect {V} (l : list (str * V)) : gmap str V := foldl (λ m kv, <[kv.1 := kv.2]> m) ∅ l.

Definition article_checkpoint (a : Article) : ArticleCheckpoint :=
  {| c_message_id := message_id a; c_segment_number := segment_number a; c_bytes := a_bytes a;
     c_downloaded := downloaded a; c_data_begin := data_begin a; c_data_size := data_size a; c_crc32 := crc32 a;
     c_tried_servers := tried_servers a; c_tries := tries a |}.

Definition downloaded_segments (f : NzbFile) : list N :=
  segment_number <$> filter (λ a, downloaded a = true) (articles f).

Definition checkpoint_for_job (j : NzbJob) : JobCheckpoint :=
  {| cp_files := collect ((λ f, (filename f, downloaded_segments f)) <$> files j);
     cp_downloaded_bytes := downloaded_bytes j;
     cp_articles_downloaded := articles_downloaded j;
     cp_articles_failed := articles_failed j;
     cp_files_completed := files_completed j;
     cp_articles := collect ((λ f, (filename f, article_checkpoint <$> articles f)) <$> files j) |}.

(** ** Reading it back *)
Definition same_article (a : Article) (c : ArticleCheckpoint) : Prop :=
  c_message_id c = message_id a ∨ c_segment_number c = segment_number a.
#[export] Instance same_article_dec a c : Decision (same_article a c).
Proof. unfold same_article. apply _. Defined.

Definition apply_article (outcomes : option (list ArticleCheckpoint)) (segments : option (list N)) (a : Article)
    : Article :=
  match outcomes ≫= list_find (same_article a) with
  | Some (_, c) =>
    a <| downloaded := c_downloaded c |> <| data_begin := c_data_begin c |> <| data_size := c_data_size c |>
      <| crc32 := c_crc32 c |> <| tried_servers := c_tried_servers c |> <| tries := c_tries c |>
  | None =>
    if decide (segment_number a ∈ default [] segments) then a <| downloaded := true |> else a
  end.

(** The bytes of a downloaded article: what was decoded, else what was declared. *)
Definition stored_size (a : Article) : N := if downloaded a then default (a_bytes a) (data_size a) else 0%N.

Definition apply_file (cp : JobCheckpoint) (f : NzbFile) : NzbFile :=
  let outcomes := cp_articles cp !! filename f in
  let segments := union (cp_files cp !! filename f) (cp_files cp !! lit (file_id f)) in
  let arts := apply_article outcomes segments <$> articles f in
  f <| articles := arts |> <| bytes_downloaded := foldl u64_sat_add 0%N (stored_size <$> arts) |>
    <| assembled := forallb downloaded arts |>.

Definition apply_checkpoint (cp : JobCheckpoint) (j : NzbJob) : NzbJob :=
  j <| downloaded_bytes := cp_downloaded_bytes cp |> <| articles_downloaded := cp_articles_downloaded cp |>
    <| articles_failed := cp_articles_failed cp |> <| files_completed := cp_files_completed cp |>
    <| files := apply_file cp <$> files j |>.

(** [prepare_retry_job], of a job that may resume: every missing article is to
    be tried afresh. *)
Definition forget_tries (a : Article) : Article :=
  if downloaded a then a else a <| tried_servers := [] |> <| tries := 0%N |>.

Definition prepare_retry_job (cp : JobCheckpoint) (j : NzbJob) : NzbJob :=
  let j := apply_checkpoint cp j in
  j <| articles_failed := 0 |> <| files := (λ f, f <| articles := forget_tries <$> articles f |>) <$> files j |>.

(** ** Progress *)

(** The [ArticleComplete] arm: every article of that number in the first file of
    that id. *)
Definition complete_in_file (segment decoded_bytes : N) (file_complete : bool) (f : NzbFile) : NzbFile :=
  let f := f <| bytes_downloaded := u64_add (bytes_downloaded f) decoded_bytes |>
             <| articles := (λ a, if decide (segment_number a = segment)
                                   then a <| downloaded := true |> <| data_size := Some decoded_bytes |> else a)
                              <$> articles f |> in
  if file_complete then f <| assembled := true |> else f.

Definition article_complete (id : string) (segment decoded_bytes : N) (file_complete : bool) (j : NzbJob) : NzbJob :=
  let completes := match find_file id (files j) with Some f => file_complete && negb (assembled f) | None => false end in
  j <| downloaded_bytes := u64_add (downloaded_bytes j) decoded_bytes |>
    <| articles_downloaded := S (articles_downloaded j) |>
    <| files := update_file id (complete_in_file segment decoded_bytes file_complete) (files j) |>
    <| files_completed := if completes : bool then S (files_completed j) else files_completed j |>.

(** The [ArticleFailed] arm. *)
Definition fail_article (server : str) (a : Article) : Article :=
  a <| tries := u32_sat_add (tries a) 1 |>
    <| tried_servers := if decide (server ∈ tried_servers a) then tried_servers a else tried_servers a ++ [server] |>.

Fixpoint fail_first (segment : N) (server : str) (l : list Article) : list Article :=
  match l with
  | [] => []
  | a :: l' => if decide (segment_number a = segment) then fail_article server a :: l'
               else a :: fail_first segment server l'
  end.

Definition article_failed (id : string) (segment : N) (server : str) (j : NzbJob) : NzbJob :=
  j <| articles_failed := S (articles_failed j) |>
    <| files := update_file id (λ f, f <| articles := fail_first segment server (articles f) |>) (files j) |>.

(** ** What a checkpoint keeps *)
Lemma sat_sum {A} (g : A → N) l : foldl u64_sat_add 0%N (g <$> l) = N.min (sumN g l) u64_max.
Proof.
  induction l as [|x l IH] using rev_ind; [done|].
  rewrite fmap_app, foldl_app, sumN_app, IH. simpl. unfold u64_sat_add. lia.
Qed.

Lemma collect_lookup {V} (l : list (str * V)) k :
  collect l !! k = snd <$> last (filter (λ kv, kv.1 = k) l).
Proof.
  unfold collect. induction l as [|[k' v] l IH] using rev_ind; [done|].
  rewrite foldl_app, filter_app, filter_cons, filter_nil. simpl. case_decide as E.
  - subst. by rewrite lookup_insert_eq, last_snoc.
  - rewrite lookup_insert_ne by done. by rewrite app_nil_r.
Qed.

Lemma filter_absent {V} (l : list (str * V)) k : k ∉ l.*1 → filter (λ kv, kv.1 = k) l = [].
Proof.
  induction l as [|[k' v] l IH]; simpl; [done|]. intros [Hne Hl]%not_elem_of_cons.
  rewrite filter_cons_False by (simpl; congruence). by apply IH.
Qed.

Lemma collect_Some {V} (l : list (str * V)) k v : NoDup l.*1 → (k, v) ∈ l → collect l !! k = Some v.
Proof.
  intros Hd Hin. rewrite collect_lookup. enough (filter (λ kv, kv.1 = k) l = [(k, v)]) as E by (by rewrite E).
  induction l as [|[k' v'] l IH]; [by apply elem_of_nil in Hin|]. apply NoDup_cons in Hd as [Hk Hd].
  apply elem_of_cons in Hin as [[= <- <-]|Hin].
  - rewrite filter_cons_True by done. f_equal. by apply filter_absent.
  - rewrite filter_cons_False; [by apply IH|]. simpl. intros ->. apply Hk, list_elem_of_fmap. by exists (k, v).
Qed.

(** What a release says of a file, whatever the progress. *)
Definition entry (a : Article) : str * N * N := (message_id a, segment_number a, a_bytes a).
Definition shape (f : NzbFile) : str * list (str * N * N) := (filename f, entry <$> articles f).
Definition same_release (j p : NzbJob) : Prop := shape <$> files p = shape <$> files j.

(** No name twice in a release, nor an article twice in a file. *)
Record distinct (j : NzbJob) : Prop := {
  distinct_names : NoDup (filename <$> files j);
  distinct_segments f : f ∈ files j → NoDup (segment_number <$> articles f);
  distinct_ids f : f ∈ files j → NoDup (message_id <$> articles f);
}.

Lemma NoDup_fmap_lookup {A B} (f : A → B) (l : list A) i j x y :
  NoDup (f <$> l) → l !! i = Some x → l !! j = Some y → f x = f y → i = j.
Proof.
  intros Hd Hi Hj E. eapply NoDup_lookup; [exact Hd|..]; rewrite list_lookup_fmap; [by rewrite Hi|by rewrite Hj, E].
Qed.

Lemma apply_article_restores segments l i a b :
  NoDup (segment_number <$> l) → NoDup (message_id <$> l) → l !! i = Some a → entry b = entry a →
  apply_article (Some (article_checkpoint <$> l)) segments b = a.
Proof.
  intros Hs Hm Hi [= Eid Eseg Eb]. unfold apply_article. simpl.
  assert (list_find (same_article b) (article_checkpoint <$> l) = Some (i, article_checkpoint a)) as ->.
  - apply list_find_Some. split_and!.
    + by rewrite list_lookup_fmap, Hi.
    + left. simpl. done.
    + intros k c Hk Hlt. rewrite list_lookup_fmap in Hk. apply fmap_Some in Hk as (x & Hx & ->).
      intros [E|E]; simpl in E.
      * rewrite Eid in E. pose proof (NoDup_fmap_lookup message_id l k i x a Hm Hx Hi E). lia.
      * rewrite Eseg in E. pose proof (NoDup_fmap_lookup segment_number l k i x a Hs Hx Hi E). lia.
  - destruct a, b. simpl in *. subst. done.
Qed.

Lemma apply_file_restores cp f g :
  cp_articles cp !! filename f = Some (article_checkpoint <$> articles f) → shape g = shape f →
  NoDup (segment_number <$> articles f) → NoDup (message_id <$> articles f) →
  articles (apply_file cp g) = articles f.
Proof.
  intros Hcp [= En Ha] Hs Hm. unfold apply_file. rewrite En, Hcp. simpl. unfold constant.
  generalize (union (cp_files cp !! filename f) (cp_files cp !! lit (file_id g))). intros segments.
  apply list_eq. intros i. rewrite list_lookup_fmap.
  apply (f_equal (lookup i)) in Ha. rewrite !list_lookup_fmap in Ha.
  destruct (articles g !! i) as [b|], (articles f !! i) as [a|] eqn:Hf; simpl in Ha; try done.
  simpl. f_equal. apply (apply_article_restores _ _ i); [done..|congruence].
Qed.

Lemma apply_files_restore j p :
  distinct j → same_release j p →
  Forall2 (λ f g, articles g = articles f ∧ filename g = filename f)
    (files j) (files (apply_checkpoint (checkpoint_for_job j) p)).
Proof.
  intros [Hn Hs Hm] Hp. change (files (apply_checkpoint (checkpoint_for_job j) p)) with
    (apply_file (checkpoint_for_job j) <$> files p).
  apply Forall2_fmap_r. apply Forall2_same_length_lookup_2.
  { apply (f_equal length) in Hp. by rewrite !length_fmap in Hp. }
  intros i f g Hf Hg. apply (f_equal (lookup i)) in Hp. rewrite !list_lookup_fmap, Hf, Hg in Hp.
  simpl in Hp. assert (shape g = shape f) as Hfg by congruence.
  assert (f ∈ files j) as Hin by (by eapply list_elem_of_lookup_2). split; [|by injection Hfg].
  apply apply_file_restores; [|done|by apply Hs|by apply Hm].
  simpl. apply collect_Some; [by rewrite <- list_fmap_compose|].
  apply list_elem_of_fmap. by exists f.
Qed.

(** ** What is fetched after a restart *)
Section fetch.
Context (server_id : str → string).

(** One request: its file, its article and the servers it was asked of. *)
Definition request (i : WorkQueue.WorkItem) : str * str * N * list string :=
  (WorkQueue.filename i, WorkQueue.message_id i, WorkQueue.segment_number i, WorkQueue.tried_servers i).

Definition requests (id : string) (j : NzbJob) (enabled : list string) : list (str * str * N * list string) :=
  request <$> Engine.work_items id (QueueEngine.file_of server_id <$> files j) enabled.

(** Recorded as tried by every enabled server. *)
Definition given_up (enabled : list string) (a : Article) : bool :=
  Engine.is_previously_failed enabled (QueueEngine.article_of server_id a).

Definition missing (enabled : list string) (f : NzbFile) : list (str * str * N * list string) :=
  (λ a, (filename f, message_id a, segment_number a, server_id <$> tried_servers a)) <$>
  filter (λ a, downloaded a = false ∧ given_up enabled a = false) (articles f).

Lemma requests_missing id j enabled : requests id j enabled = files j ≫= missing enabled.
Proof.
  unfold requests, Engine.work_items. induction (files j) as [|f fs IH]; [done|].
  rewrite fmap_cons, !bind_cons, fmap_app, IH. f_equal. unfold missing. rewrite <- list_fmap_compose. clear IH.
  cbn [QueueEngine.file_of Engine.f_articles]. induction (articles f) as [|a l IH]; [done|].
  rewrite fmap_cons, !filter_cons. unfold given_up in *. cbn [Engine.a_downloaded QueueEngine.article_of] in *.
  case_decide; [rewrite !fmap_cons; f_equal|]; apply IH.
Qed.

Lemma missing_proper enabled (f g : NzbFile) :
  articles g = articles f → filename g = filename f → missing enabled g = missing enabled f.
Proof. unfold missing. by intros -> ->. Qed.

Lemma given_up_forgotten enabled a : given_up enabled (forget_tries a) = false.
Proof.
  unfold given_up, Engine.is_previously_failed, forget_tries. destruct a as [? ? ? [] ? ? ? tried ?]; [done|]. simpl.
  by destruct enabled.
Qed.

Lemma missing_forgotten enabled (nm : str) (l : list Article) :
  (λ a, (nm, message_id a, segment_number a, server_id <$> tried_servers a)) <$>
    filter (λ a, downloaded a = false ∧ given_up enabled a = false) (forget_tries <$> l) =
  (λ a, (nm, message_id a, segment_number a, [])) <$> filter (λ a, downloaded a = false) l.
Proof.
  induction l as [|a l IH]; [done|]. rewrite fmap_cons, !filter_cons, given_up_forgotten.
  assert (downloaded (forget_tries a) = downloaded a) as -> by (by destruct a as [? ? ? [] ? ? ? ? ?]).
  destruct (downloaded a) eqn:E; repeat case_decide; try (exfalso; intuition congruence); [exact IH|].
  rewrite !fmap_cons, IH. unfold forget_tries. rewrite E. done.
Qed.

(** C39. A restart loses and repeats nothing, when the release names no file
    twice, nor an article of a file ([same_name_restored_as_fetched] is one that
    does): the job read back from its checkpoint, into the release parsed again,
    has the progress of the job that wrote it, article by article, and the
    dispatcher is asked for exactly its articles that are neither downloaded nor
    recorded as tried by every server now enabled, one at least being enabled
    (otherwise for all that are not downloaded; the record has only the last
    server to refuse an article each time it failed, see
    [refused_by_both_asked_again]); a retry asks for every article that is not
    downloaded, as if it had never been tried. *)
Theorem restart_fetches_the_rest j p id enabled :
  distinct j → same_release j p →
  let r := apply_checkpoint (checkpoint_for_job j) p in
  let t := prepare_retry_job (checkpoint_for_job j) p in
  articles <$> files r = articles <$> files j ∧ downloaded_bytes r = downloaded_bytes j ∧
  articles_downloaded r = articles_downloaded j ∧ articles_failed r = articles_failed j ∧
  files_completed r = files_completed j ∧
  requests id r enabled = files j ≫= missing enabled ∧
  requests id t enabled = files j ≫= λ f,
    (λ a, (filename f, message_id a, segment_number a, [])) <$> filter (λ a, downloaded a = false) (articles f).
Proof.
  intros Hd Hp r t. pose proof (apply_files_restore j p Hd Hp) as Hr. fold r in Hr. split_and!; try done.
  - symmetry. apply list_eq_Forall2. apply Forall2_fmap. eapply Forall2_impl; [exact Hr|]. by intros f g [-> _].
  - rewrite requests_missing. induction Hr as [|f g fs gs [Ea Ef] _ IH]; [done|]. by rewrite !bind_cons, IH, (missing_proper _ f g).
  - rewrite requests_missing. change (files t) with ((λ f, f <| articles := forget_tries <$> articles f |>) <$> files r).
    induction Hr as [|f g fs gs [Ea Ef] _ IH]; [done|]. rewrite fmap_cons, !bind_cons, IH. f_equal. clear IH.
    trans ((λ a, (filename g, message_id a, segment_number a, server_id <$> tried_servers a)) <$>
      filter (λ a, downloaded a = false ∧ given_up enabled a = false) (forget_tries <$> articles g)); [done|].
    rewrite Ea, Ef. apply missing_forgotten.
Qed.
End fetch.

(** ** The counts of a running job *)
Definition count_true {A} (P : A → bool) (l : list A) : nat := length (filter (λ x, P x = true) l).

Lemma count_true_app {A} (P : A → bool) l k : count_true P (l ++ k) = count_true P l + count_true P k.
Proof. unfold count_true. by rewrite filter_app, length_app. Qed.
Lemma count_true_cons {A} (P : A → bool) x l : count_true P (x :: l) = (if P x then 1 else 0) + count_true P l.
Proof. unfold count_true. rewrite filter_cons. by destruct (P x). Qed.

Record file_counts (f : NzbFile) : Prop := {
  counts_assembled : assembled f = forallb downloaded (articles f);
  counts_bytes : bytes_downloaded f = sumN stored_size (articles f);
}.

Record job_counts (j : NzbJob) : Prop := {
  counts_files f : f ∈ files j → file_counts f;
  counts_downloaded : articles_downloaded j = count_true downloaded (files j ≫= articles);
  counts_completed : files_completed j = count_true assembled (files j);
  counts_total : downloaded_bytes j = sumN bytes_downloaded (files j);
  counts_fit : (downloaded_bytes j ≤ u64_max)%N;
}.

(** A job as it is parsed: nothing fetched. *)
Definition untouched (j : NzbJob) : Prop :=
  downloaded_bytes j = 0%N ∧ articles_downloaded j = 0 ∧ files_completed j = 0 ∧
  ∀ f, f ∈ files j → articles f ≠ [] ∧ assembled f = false ∧ bytes_downloaded f = 0%N ∧
    ∀ a, a ∈ articles f → downloaded a = false.

Inductive ProgressEvent :=
  | Complete (id : string) (segment decoded_bytes : N) (file_complete : bool)
  | Fail (id : string) (segment : N) (server : str)
  | Restarted (p : NzbJob)
  | Retried (p : NzbJob).

Definition progress_step (e : ProgressEvent) (j : NzbJob) : NzbJob :=
  match e with
  | Complete id segment decoded_bytes file_complete => article_complete id segment decoded_bytes file_complete j
  | Fail id segment server => article_failed id segment server j
  | Restarted p => apply_checkpoint (checkpoint_for_job j) p
  | Retried p => prepare_retry_job (checkpoint_for_job j) p
  end.

(** An article completes once, with the flag of the assembler; a restart or a
    retry parses the same release. *)
Definition progress_ok (e : ProgressEvent) (j : NzbJob) : Prop :=
  match e with
  | Complete id segment decoded_bytes file_complete =>
    ∃ f a k l, find_file id (files j) = Some f ∧ articles f = k ++ a :: l ∧ segment_number a = segment ∧
      downloaded a = false ∧ file_complete = forallb downloaded (k ++ l) ∧
      (downloaded_bytes j + decoded_bytes ≤ u64_max)%N
  | Fail _ _ _ => True
  | Restarted p | Retried p => same_release j p
  end.

(** What is left of [distinct] when progress is forgotten. *)
Lemma distinct_shape j j' : shape <$> files j' = shape <$> files j → distinct j → distinct j'.
Proof.
  intros E [Hn Hs Hm].
  assert (∀ f, f ∈ files j' → ∃ g, g ∈ files j ∧ shape g = shape f) as Hin.
  { intros f Hf. pose proof (list_elem_of_fmap_2 shape _ _ Hf) as Hs'. rewrite E in Hs'. clear Hf; rename Hs' into Hf.
    apply list_elem_of_fmap in Hf as (g & Eg & Hg). by exists g. }
  split.
  - assert (∀ i, filename <$> files i = fst <$> (shape <$> files i)) as Ef by (intros; by rewrite <- list_fmap_compose).
    rewrite Ef, E, <- Ef. done.
  - intros f Hf. destruct (Hin f Hf) as (g & Hg & [= _ Ea]). specialize (Hs g Hg).
    assert (∀ i, segment_number <$> articles i = (λ e, e.1.2) <$> (entry <$> articles i)) as Es by (intros; by rewrite <- list_fmap_compose).
    rewrite Es, <- Ea, <- Es. done.
  - intros f Hf. destruct (Hin f Hf) as (g & Hg & [= _ Ea]). specialize (Hm g Hg).
    assert (∀ i, message_id <$> articles i = (λ e, e.1.1) <$> (entry <$> articles i)) as Es by (intros; by rewrite <- list_fmap_compose).
    rewrite Es, <- Ea, <- Es. done.
Qed.

Lemma update_file_shape id g fs : (∀ f, shape (g f) = shape f) → shape <$> update_file id g fs = shape <$> fs.
Proof.
  intros Hg. induction fs as [|f fs IH]; [done|]. cbn [update_file]. case_decide; rewrite !fmap_cons; [by rewrite Hg|by rewrite IH].
Qed.

Lemma apply_article_entry o s a : entry (apply_article o s a) = entry a.
Proof. unfold apply_article. repeat case_match; try case_decide; done. Qed.

Lemma fail_first_entry segment server l : entry <$> fail_first segment server l = entry <$> l.
Proof. induction l as [|a l IH]; [done|]. cbn [fail_first]. case_decide; rewrite !fmap_cons; [done|by rewrite IH]. Qed.

Lemma progress_shape e j : progress_ok e j → shape <$> files (progress_step e j) = shape <$> files j.
Proof.
  destruct e as [id segment n fc|id segment server|p|p]; cbn [progress_ok progress_step].
  - intros _. apply update_file_shape. intros f. unfold shape. f_equal.
    + by destruct fc.
    + trans (entry <$> ((λ a, if decide (segment_number a = segment)
        then a <| downloaded := true |> <| data_size := Some n |> else a) <$> articles f)); [by destruct fc|].
      rewrite <- list_fmap_compose. apply list_fmap_ext. intros _ a _. simpl. by case_decide.
  - intros _. apply update_file_shape. intros f. unfold shape. f_equal. apply fail_first_entry.
  - intros <-. change (files (apply_checkpoint (checkpoint_for_job j) p)) with (apply_file (checkpoint_for_job j) <$> files p).
    rewrite <- list_fmap_compose. apply list_fmap_ext. intros _ f _. unfold shape. simpl. f_equal. unfold constant.
    rewrite <- list_fmap_compose. apply list_fmap_ext. intros _ a _. apply apply_article_entry.
  - intros <-. change (files (prepare_retry_job (checkpoint_for_job j) p)) with
      ((λ f, f <| articles := forget_tries <$> articles f |>) <$> (apply_file (checkpoint_for_job j) <$> files p)).
    rewrite <- !list_fmap_compose. apply list_fmap_ext. intros _ f _. unfold shape. simpl. f_equal. unfold constant.
    rewrite <- !list_fmap_compose. apply list_fmap_ext. intros _ a _.
    trans (entry (apply_article (cp_articles (checkpoint_for_job j) !! filename f)
      (union (cp_files (checkpoint_for_job j) !! filename f) (cp_files (checkpoint_for_job j) !! lit (file_id f))) a));
      [|apply apply_article_entry].
    simpl. unfold forget_tries. by case_match.
Qed.

(** All that the counts depend on. *)
Definition progress (a : Article) : bool * N := (downloaded a, stored_size a).

Lemma sum_progress l k :
  progress <$> l = progress <$> k →
  sumN stored_size l = sumN stored_size k ∧ forallb downloaded l = forallb downloaded k ∧
  count_true downloaded l = count_true downloaded k.
Proof.
  revert k. induction l as [|a l IH]; intros [|b k] E; try done. rewrite !fmap_cons in E. injection E as Ed Es E.
  destruct (IH k E) as (H1 & H2 & H3). rewrite !count_true_cons. simpl. by rewrite H1, H2, H3, Ed, Es.
Qed.

(** A file read back: the progress of its articles, and its own counts made
    anew. *)
Definition read_back (f g : NzbFile) : Prop :=
  progress <$> articles g = progress <$> articles f ∧ assembled g = forallb downloaded (articles g) ∧
  bytes_downloaded g = foldl u64_sat_add 0%N (stored_size <$> articles g).

(** Two files whose counts are the same. *)
Definition same_counts (f g : NzbFile) : Prop :=
  progress <$> articles g = progress <$> articles f ∧ assembled g = assembled f ∧
  bytes_downloaded g = bytes_downloaded f.

Lemma same_counts_job j r :
  job_counts j → Forall2 same_counts (files j) (files r) → downloaded_bytes r = downloaded_bytes j →
  articles_downloaded r = articles_downloaded j → files_completed r = files_completed j → job_counts r.
Proof.
  intros [Hf Hd Hc Ht Hfit] Hg Eb Ea Ec.
  assert (count_true downloaded (files r ≫= articles) = count_true downloaded (files j ≫= articles) ∧
    count_true assembled (files r) = count_true assembled (files j) ∧
    sumN bytes_downloaded (files r) = sumN bytes_downloaded (files j)) as (E1 & E2 & E3).
  { clear - Hg. induction Hg as [|f f' l k (Ep & Ea & Eb) _ (I1 & I2 & I3)]; [done|].
    destruct (sum_progress _ _ Ep) as (_ & _ & Ed).
    rewrite !bind_cons, !count_true_app, !count_true_cons. cbn [sumN]. by rewrite I1, I2, I3, Ea, Eb, Ed. }
  split; try congruence.
  intros g (i & Hi)%list_elem_of_lookup.
  destruct (Forall2_lookup_r _ _ _ _ _ Hg Hi) as (f & Hfi & (Ep & Eas & Ebs)).
  destruct (Hf f) as [Hfa Hfb]; [by eapply list_elem_of_lookup_2|].
  destruct (sum_progress _ _ Ep) as (Es & Ed' & _). split; congruence.
Qed.

Lemma read_back_counts f g :
  file_counts f → (bytes_downloaded f ≤ u64_max)%N → read_back f g → same_counts f g.
Proof.
  intros [Ha Hb] Hle (Hp & Hga & Hgb). destruct (sum_progress _ _ Hp) as (Hs & Hd & _).
  rewrite sat_sum, Hs, <- Hb in Hgb. split_and!; [done|congruence|lia].
Qed.

Lemma Forall2_impl_in {A B} (P Q : A → B → Prop) l k :
  Forall2 P l k → (∀ x y, x ∈ l → P x y → Q x y) → Forall2 Q l k.
Proof.
  induction 1 as [|x y l k Hxy _ IH]; intros HPQ; constructor; [by apply HPQ; [left|]|].
  apply IH. intros. apply HPQ; [by right|done].
Qed.

Lemma read_back_job j r :
  job_counts j → Forall2 read_back (files j) (files r) → downloaded_bytes r = downloaded_bytes j →
  articles_downloaded r = articles_downloaded j → files_completed r = files_completed j → job_counts r.
Proof.
  intros Hj Hr. apply (same_counts_job j r Hj).
  eapply Forall2_impl_in; [exact Hr|]. intros f g Hin. destruct Hj as [Hf _ _ Ht Hfit].
  apply read_back_counts; [by apply Hf|]. pose proof (sumN_elem bytes_downloaded _ _ Hin). lia.
Qed.

Lemma apply_files_read_back j p :
  distinct j → same_release j p → Forall2 read_back (files j) (files (apply_checkpoint (checkpoint_for_job j) p)).
Proof.
  intros Hd Hp. pose proof (apply_files_restore j p Hd Hp) as Hr.
  change (files (apply_checkpoint (checkpoint_for_job j) p)) with (apply_file (checkpoint_for_job j) <$> files p) in *.
  apply Forall2_fmap_r. apply Forall2_fmap_r in Hr. eapply Forall2_impl; [exact Hr|]. cbv beta.
  intros f g [Ea _]. split; [by rewrite Ea|done].
Qed.

Lemma forget_tries_progress a : progress (forget_tries a) = progress a.
Proof. by destruct a as [? ? ? [] ? ? ? ? ?]. Qed.

Lemma restarted_counts j p :
  distinct j → same_release j p → job_counts j → job_counts (apply_checkpoint (checkpoint_for_job j) p).
Proof. intros Hd Hp Hj. apply (read_back_job j); [done| |done..]. by apply apply_files_read_back. Qed.

Lemma retried_counts j p :
  distinct j → same_release j p → job_counts j → job_counts (prepare_retry_job (checkpoint_for_job j) p).
Proof.
  intros Hd Hp Hj. apply (read_back_job j); [done| |done..].
  change (files (prepare_retry_job (checkpoint_for_job j) p)) with
    ((λ f, f <| articles := forget_tries <$> articles f |>) <$> files (apply_checkpoint (checkpoint_for_job j) p)).
  apply Forall2_fmap_r. eapply Forall2_impl; [by apply apply_files_read_back|]. intros f g (Hp' & Ha & Hb).
  assert (progress <$> (forget_tries <$> articles g) = progress <$> articles g) as E.
  { rewrite <- list_fmap_compose. apply list_fmap_ext. intros _ a _. apply forget_tries_progress. }
  destruct (sum_progress _ _ E) as (Es & Ed & _). rewrite sat_sum in Hb.
  split_and!; [by trans (progress <$> articles g)|by trans (assembled g); [|rewrite Ha]|].
  trans (bytes_downloaded g); [done|]. rewrite Hb. symmetry.
  trans (foldl u64_sat_add 0%N (stored_size <$> (forget_tries <$> articles g))); [done|]. by rewrite sat_sum, Es.
Qed.

(** The article that completes is the only one of its number. *)
Definition complete_segment (segment decoded_bytes : N) (a : Article) : Article :=
  if decide (segment_number a = segment) then a <| downloaded := true |> <| data_size := Some decoded_bytes |> else a.

Lemma complete_others segment n (l : list Article) :
  segment ∉ (segment_number <$> l) → complete_segment segment n <$> l = l.
Proof.
  intros Hl. rewrite <- (list_fmap_id l) at 2. apply list_fmap_ext. intros i a Ha. unfold complete_segment.
  rewrite decide_False; [done|]. intros <-. apply Hl, list_elem_of_fmap_2. by eapply list_elem_of_lookup_2.
Qed.

Lemma complete_in_file_articles segment n fc f k a l :
  NoDup (segment_number <$> articles f) → articles f = k ++ a :: l → segment_number a = segment →
  articles (complete_in_file segment n fc f) = k ++ (a <| downloaded := true |> <| data_size := Some n |>) :: l.
Proof.
  intros Hd Ef Ea. trans (complete_segment segment n <$> articles f); [by destruct fc|].
  rewrite Ef in *. rewrite fmap_app, fmap_cons. rewrite fmap_app, fmap_cons in Hd.
  apply NoDup_app in Hd as (_ & Hk & [Hl _]%NoDup_cons). rewrite !complete_others; [|by rewrite <- Ea|].
  - f_equal. f_equal. unfold complete_segment. by rewrite decide_True.
  - intros Hin. apply (Hk _ Hin). rewrite Ea. by left.
Qed.

Lemma forallb_one {A} (P : A → bool) k a l : P a = false → forallb P (k ++ a :: l) = false.
Proof. intros E. rewrite forallb_app. simpl. rewrite E. apply andb_false_r. Qed.

Lemma complete_file_counts segment n fc f k a l :
  NoDup (segment_number <$> articles f) → articles f = k ++ a :: l → segment_number a = segment →
  downloaded a = false → fc = forallb downloaded (k ++ l) → (bytes_downloaded f + n ≤ u64_max)%N → file_counts f →
  let f' := complete_in_file segment n fc f in
  file_counts f' ∧ assembled f = false ∧ assembled f' = fc ∧ bytes_downloaded f' = (bytes_downloaded f + n)%N ∧
  count_true downloaded (articles f') = S (count_true downloaded (articles f)).
Proof.
  intros Hd Ef Ea Hu Hfc Hfit [Has Hb] f'.
  assert (assembled f = false) as Hna by (rewrite Has, Ef; by apply forallb_one).
  assert (assembled f' = fc) as Ha' by (unfold f', complete_in_file; destruct fc; done).
  assert (bytes_downloaded f' = bytes_downloaded f + n)%N as Hb'.
  { trans (u64_add (bytes_downloaded f) n); [by unfold f', complete_in_file; destruct fc|].
    apply u64_add_small. unfold u64_max in Hfit. lia. }
  pose proof (complete_in_file_articles segment n fc f k a l Hd Ef Ea) as E'. fold f' in E'.
  split_and!; [split|done..|].
  - rewrite Ha', E', Hfc, !forallb_app. done.
  - rewrite Hb', E', Hb, Ef, !sumN_app. cbn [sumN].
    assert (stored_size a = 0%N) as -> by (unfold stored_size; by rewrite Hu).
    change (stored_size (a <| downloaded := true |> <| data_size := Some n |>)) with n. lia.
  - rewrite E', Ef, !count_true_app, !count_true_cons, Hu. simpl. lia.
Qed.

Lemma completed_counts id segment n fc j :
  distinct j → progress_ok (Complete id segment n fc) j → job_counts j →
  job_counts (article_complete id segment n fc j).
Proof.
  intros Hd (f & a & k & l & Hf & Ef & Ea & Hu & Hfc & Hfit) [Hfs Hdl Hc Ht _].
  destruct (find_file_Some _ _ _ Hf) as [Hin _].
  destruct (update_file_split id (complete_in_file segment n fc) _ _ Hf) as (l1 & l2 & E & E').
  pose proof (sumN_elem bytes_downloaded _ _ Hin) as Hle.
  assert (bytes_downloaded f + n ≤ u64_max)%N as Hfit' by lia.
  destruct (complete_file_counts segment n fc f k a l (distinct_segments _ Hd f Hin) Ef Ea Hu Hfc Hfit' (Hfs f Hin))
    as (Hf' & Hna & Ha' & Hb' & Hn').
  set (f' := complete_in_file segment n fc f) in *.
  assert (files (article_complete id segment n fc j) = l1 ++ f' :: l2) as Efs by done.
  assert (downloaded_bytes (article_complete id segment n fc j) = downloaded_bytes j + n)%N as Eb.
  { apply u64_add_small. unfold u64_max in Hfit. lia. }
  rewrite E in Hdl, Hc, Ht.
  rewrite bind_app, bind_cons, !count_true_app in Hdl. rewrite count_true_app, count_true_cons in Hc.
  rewrite sumN_app in Ht. cbn [sumN] in Ht.
  split.
  - rewrite Efs. intros g [Hg|[->|Hg]%elem_of_cons]%elem_of_app; [|done|];
      apply Hfs; rewrite E; apply elem_of_app; [by left|by right; right].
  - rewrite Efs, bind_app, bind_cons, !count_true_app, Hn'.
    change (articles_downloaded (article_complete id segment n fc j)) with (S (articles_downloaded j)). lia.
  - rewrite Efs, count_true_app, count_true_cons, Ha'.
    unfold article_complete. simpl. rewrite Hf, Hna, andb_true_r. rewrite Hna in Hc.
    destruct fc; simpl; unfold constant; lia.
  - rewrite Efs, Eb, sumN_app. cbn [sumN]. lia.
  - lia.
Qed.

(** A failure moves no count of what was downloaded. *)
Lemma fail_first_progress segment server l : progress <$> fail_first segment server l = progress <$> l.
Proof. induction l as [|a l IH]; [done|]. cbn [fail_first]. case_decide; rewrite !fmap_cons; [done|by rewrite IH]. Qed.

Lemma failed_counts id segment server j : job_counts j → job_counts (article_failed id segment server j).
Proof.
  intros Hj. apply (same_counts_job j); [done| |done..]. clear Hj.
  change (files (article_failed id segment server j)) with
    (update_file id (λ f, f <| articles := fail_first segment server (articles f) |>) (files j)).
  assert (∀ f, same_counts f f) as Hrefl by done.
  induction (files j) as [|f fs IH]; [done|]. cbn [update_file]. case_decide; constructor; try done.
  - split_and!; [apply fail_first_progress|done..].
  - clear IH. induction fs; by constructor.
Qed.

Lemma progress_keeps_counts e j : distinct j → progress_ok e j → job_counts j → job_counts (progress_step e j).
Proof.
  destruct e; intros Hd He Hj;
    [by apply completed_counts|by apply failed_counts|by apply restarted_counts|by apply retried_counts].
Qed.

Lemma sumN_zero {A} (g : A → N) l : (∀ x, x ∈ l → g x = 0%N) → sumN g l = 0%N.
Proof. intros Hl. rewrite (sumN_ext g (λ _, 0%N)) by done. clear Hl. induction l; simpl; lia. Qed.

Lemma count_true_none {A} (P : A → bool) l : (∀ x, x ∈ l → P x = false) → count_true P l = 0.
Proof.
  induction l as [|x l IH]; intros Hl; [done|]. rewrite count_true_cons, (Hl x) by (by left).
  apply IH. intros. apply Hl. by right.
Qed.

Lemma untouched_counts j : untouched j → job_counts j.
Proof.
  intros (Hb & Ha & Hc & Hf).
  assert (∀ f a, f ∈ files j → a ∈ articles f → downloaded a = false) as Hnone by (intros; by eapply Hf).
  split; [intros f Hin; destruct (Hf f Hin) as (Hne & Has & Hbs & Hd); split|..].
  - destruct (articles f) as [|a l] eqn:E; [done|]. rewrite Has. simpl. rewrite (Hd a); [done|by left].
  - rewrite Hbs. symmetry. apply sumN_zero. intros a Hin'. unfold stored_size. by rewrite (Hd a).
  - rewrite Ha. symmetry. apply count_true_none. intros a (f & Hfa & Hfin)%list_elem_of_bind. by eapply Hnone.
  - rewrite Hc. symmetry. apply count_true_none. intros f Hfin. by apply Hf.
  - rewrite Hb. symmetry. apply sumN_zero. intros f Hfin. by apply Hf.
  - rewrite Hb. done.
Qed.

(** Any run of events. *)
Inductive progress_run : NzbJob → list ProgressEvent → NzbJob → Prop :=
  | progress_done j : progress_run j [] j
  | progress_next j e es j' : progress_ok e j → progress_run (progress_step e j) es j' → progress_run j (e :: es) j'.

(** What the events themselves say. *)
Definition completions (es : list ProgressEvent) : list N :=
  omap (λ e, match e with Complete _ _ n _ => Some n | _ => None end) es.
(** The failures after the last retry. *)
Definition failures (failed : nat) (es : list ProgressEvent) : nat :=
  foldl (λ n e, match e with Fail _ _ _ => S n | Retried _ => 0 | _ => n end) failed es.

Lemma completed_bytes id segment n fc j :
  progress_ok (Complete id segment n fc) j →
  downloaded_bytes (article_complete id segment n fc j) = (downloaded_bytes j + n)%N.
Proof.
  intros (f & a & k & l & _ & _ & _ & _ & _ & Hfit). apply u64_add_small. unfold u64_max in Hfit. lia.
Qed.

Lemma run_counts j es j' :
  progress_run j es j' → distinct j → job_counts j →
  distinct j' ∧ job_counts j' ∧ same_release j j' ∧
  articles_downloaded j' = articles_downloaded j + length (completions es) ∧
  downloaded_bytes j' = (downloaded_bytes j + sumN id (completions es))%N ∧
  articles_failed j' = failures (articles_failed j) es.
Proof.
  induction 1 as [j|j e es j' He _ IH]; intros Hd Hj.
  - split_and!; try done; simpl; lia.
  - pose proof (progress_shape e j He) as Hs.
    destruct IH as (Hd' & Hj' & Hr & Ha & Hb & Hf);
      [by apply (distinct_shape j)|by apply progress_keeps_counts|].
    split_and!; [done|done|by unfold same_release in *; rewrite Hr, Hs|..].
    + rewrite Ha. destruct e; try done. simpl. unfold constant. lia.
    + rewrite Hb. destruct e as [i segment n fc|i segment server|p|p]; try done.
      cbn [progress_step completions omap list_omap]. rewrite (completed_bytes _ _ _ _ _ He). cbn [sumN].
      change (id n) with n. unfold completions. lia.
    + rewrite Hf. by destruct e.
Qed.


(** ** Runs *)
Module CheckpointExamples.
Definition string_of_str (s : str) : string := String.string_of_list_ascii (Ascii.ascii_of_N <$> s).
Definition an_article (n : N) (m : string) : Article :=
  {| message_id := lit m; segment_number := n; a_bytes := 100; downloaded := false; data_begin := None;
     data_size := None; crc32 := None; tried_servers := []; tries := 0 |}.
Definition a_file (id nm : string) (l : list Article) : NzbFile :=
  {| file_id := id; filename := lit nm; f_bytes := 200; bytes_downloaded := 0; is_par2 := false;
     par2_setname := None; par2_vol := None; par2_blocks := None; assembled := false; groups := []; articles := l |}.
Definition a_job (fs : list NzbFile) : NzbJob :=
  {| name := lit "n"; category := lit "c"; status := Downloading; priority := Normal; total_bytes := 400;
     downloaded_bytes := 0; file_count := length fs; files_completed := 0;
     article_count := length (fs ≫= articles); articles_downloaded := 0; articles_failed := 0; password := None;
     files := fs |}.

Definition parsed : NzbJob :=
  a_job [a_file "f1" "f.rar" [an_article 1 "a"; an_article 2 "b"]; a_file "f2" "f.nfo" [an_article 1 "c"]].
Definition half : NzbJob :=
  article_failed "f1" 2 (lit "s") (article_complete "f2" 1 90 true (article_complete "f1" 1 95 false parsed)).

Lemma parsed_distinct : distinct parsed.
Proof.
  split.
  - apply (bool_decide_unpack _). by vm_compute.
  - apply Forall_forall. apply (bool_decide_unpack _). by vm_compute.
  - apply Forall_forall. apply (bool_decide_unpack _). by vm_compute.
Qed.

Lemma half_distinct : distinct half.
Proof. apply (distinct_shape parsed); [by vm_compute|apply parsed_distinct]. Qed.

(** After a restart the refused article is given up, its only server having been
    asked; a retry asks for it again. *)
Example half_restarted :
  let r := apply_checkpoint (checkpoint_for_job half) parsed in
  let t := prepare_retry_job (checkpoint_for_job half) parsed in
  requests string_of_str "j" r ["s"%string] = [] ∧
  requests string_of_str "j" t ["s"%string] = [(lit "f.rar", lit "b", 2%N, [])].
Proof. by vm_compute. Qed.

(** With two servers enabled, the last to refuse is all that was recorded: the
    article both refused is asked for again, of the other alone. *)
Example refused_by_both_asked_again :
  requests string_of_str "j" (apply_checkpoint (checkpoint_for_job half) parsed) ["r"; "s"]%string =
  [(lit "f.rar", lit "b", 2%N, ["s"%string])].
Proof. by vm_compute. Qed.

(** Two files of one name share an entry of the checkpoint. What the last of
    them had fetched, both are taken to have. *)
Example same_name_restored_as_fetched :
  let p := a_job [a_file "f1" "f.rar" [an_article 1 "a"]; a_file "f2" "f.rar" [an_article 1 "b"]] in
  let j := article_complete "f2" 1 95 true p in
  let r := apply_checkpoint (checkpoint_for_job j) p in
  (downloaded <$> (files j ≫= articles)) = [false; true] ∧
  (downloaded <$> (files r ≫= articles)) = [true; true] ∧
  requests string_of_str "j" j ["s"%string] = [(lit "f.rar", lit "a", 1%N, [])] ∧
  requests string_of_str "j" r ["s"%string] = [].
Proof. by vm_compute. Qed.

Lemma restart_fetches_the_rest_witness :
  distinct half ∧ same_release half parsed ∧
  requests string_of_str "j" (prepare_retry_job (checkpoint_for_job half) parsed) ["s"%string] =
    [(lit "f.rar", lit "b", 2%N, [])].
Proof.
  assert (same_release half parsed) as Hp by (by vm_compute).
  destruct (restart_fetches_the_rest string_of_str half parsed "j" ["s"%string] half_distinct Hp)
    as (_ & _ & _ & _ & _ & _ & E).
  split; [exact half_distinct|]. split; [exact Hp|]. by rewrite E; vm_compute.
Defined.

Definition a_run : list ProgressEvent :=
  [Complete "f1" 1 95 false; Fail "f1" 2 (lit "s"); Complete "f2" 1 90 true; Restarted parsed; Retried parsed;
   Complete "f1" 2 80 true].

Lemma a_run_runs : progress_run parsed a_run (foldl (λ j e, progress_step e j) parsed a_run).
Proof.
  cbn [foldl a_run].
  eapply progress_next; [by exists (a_file "f1" "f.rar" [an_article 1 "a"; an_article 2 "b"]), (an_article 1 "a"), [], [an_article 2 "b"]|].
  eapply progress_next; [done|].
  eapply progress_next; [by exists (a_file "f2" "f.nfo" [an_article 1 "c"]), (an_article 1 "c"), [], []|].
  eapply progress_next; [by vm_compute|]. eapply progress_next; [by vm_compute|].
  eapply progress_next; [|apply progress_done].
  eexists _, _, [_], []. repeat split. by vm_compute.
Qed.

End CheckpointExamples.
