(* ===== verification/Inflight.v ===== *)
(** * Verifying a recovery set from the slice map of the download

    [crates/nzb-postproc/src/inflight.rs]: a file whose slices the download has
    all judged, and which is on the disk with its size, is not read again; the
    others go to the verifier of [rust-par2], and the two halves are merged.
    [rust-par2] is the class [Par2Verify]: what it finds of a file, and that it
    looks at each file of a set by itself. *)
From S2P Require Import Prelude Str FileSystem SliceMap Par2Match SliceTracker.

(** ** What a verification says *)
Record VerifiedFile := { vf_filename : str; vf_size : N }.
Record DamagedFile := {
  df_filename : str; df_size : N; df_block_count : N; df_total : N; df_indices : list N;
}.
Record MissingFile := { mf_filename : str; mf_block_count : N }.
Record VerifyResult := {
  intact : list VerifiedFile;
  damaged : list DamagedFile;
  missing : list MissingFile;
  recovery_blocks_available : N;
  repair_possible : bool;
}.

Inductive VerifySource := InFlight | Partial | Disk.
Record SetVerify := { result : VerifyResult; source : VerifySource; bytes_skipped : N; bytes_from_disk : N }.

(** ** The slices of a set *)
Definition slice_count (f : Par2File) (ssize : N) : nat :=
  if decide (ssize = 0)%N then 0 else N.to_nat ((p_size f + (ssize - 1)) / ssize).

Lemma slice_count_spec f ssize k : (0 < ssize)%N → k < slice_count f ssize ↔ (N.of_nat k * ssize < p_size f)%N.
Proof.
  intros Hs. unfold slice_count. rewrite decide_False by lia.
  pose proof (N.div_mod (p_size f + (ssize - 1)) ssize ltac:(lia)) as Hd.
  pose proof (N.mod_upper_bound (p_size f + (ssize - 1)) ssize ltac:(lia)).
  set (q := ((p_size f + (ssize - 1)) / ssize)%N) in *.
  set (r := ((p_size f + (ssize - 1)) `mod` ssize)%N) in *. clearbody q r. split; intros Hk.
  - assert ((N.of_nat k + 1) * ssize ≤ q * ssize)%N by (apply N.mul_le_mono_r; lia). lia.
  - destruct (decide (N.of_nat k < q)%N); [lia|].
    assert (q * ssize ≤ N.of_nat k * ssize)%N by (apply N.mul_le_mono_r; lia). lia.
Qed.

(** The files of a set with their ids, in the order of the Main packet. *)
Definition ordered_files (set : Par2FileSet) : list (N * Par2File) :=
  omap (λ id, pair id <$> set_files set !! id) (file_order set).

Lemma files_in_order_ordered set : files_in_order set = (ordered_files set).*2.
Proof.
  unfold files_in_order, ordered_files. induction (file_order set) as [|id l IH]; [done|].
  cbn [omap list_omap]. destruct (set_files set !! id); simpl; [by rewrite IH|exact IH].
Qed.

Definition total_slices (set : Par2FileSet) : nat :=
  sum_list ((λ f, slice_count f (set_slice_size set)) <$> files_in_order set).

(** [map_fits] *)
Definition map_fits (set : Par2FileSet) (map : SliceMapSummary) : bool :=
  bool_decide (0 < total_slices set ∧ total_slices set = length (sm_states map)).

Definition subset (set : Par2FileSet) (keep : list N) : Par2FileSet :=
  {| set_slice_size := set_slice_size set; file_order := keep;
     set_files := list_to_map (omap (λ id, pair id <$> set_files set !! id) keep);
     set_recovery_block_count := set_recovery_block_count set |}.

(** [i as u32] *)
Definition as_u32 (i : nat) : N := (N.of_nat i `mod` 2 ^ 32)%N.

(** The indices of the damaged slices of a file. *)
Definition bad_indices (states : list SliceState) : list N :=
  omap (λ ks : nat * SliceState, if decide (ks.2 = Damaged) then Some (as_u32 ks.1) else None) (imap pair states).

(** The entry of a file whose bad slices are known: intact without any. *)
Definition verified_entry (f : Par2File) (bad : list N) : option VerifiedFile :=
  match bad with [] => Some {| vf_filename := p_filename f; vf_size := p_size f |} | _ => None end.
Definition damaged_entry (f : Par2File) (count : nat) (bad : list N) : option DamagedFile :=
  match bad with
  | [] => None
  | _ => Some {| df_filename := p_filename f; df_size := p_size f; df_block_count := as_u32 (length bad);
                 df_total := as_u32 count; df_indices := bad |}
  end.

(** What the map decides. *)
Record Decided := {
  dc_intact : list VerifiedFile;
  dc_damaged : list DamagedFile;
  dc_from_disk : list N;
  dc_skipped : N;
  dc_disk : N;
}.

Section verify.
Context {FS : Type} `{FileSystem FS}.
Context (par2_verify : Par2FileSet → str → FS → VerifyResult) (blocks_needed : VerifyResult → N).
Context (dir : str) (fs : FS).

(** The size of a file on the disk. *)
Definition on_disk (f : Par2File) : option N := (N.of_nat ∘ length) <$> fs_read fs (join dir (p_filename f)).

(** The loop over the files, the map's states from [start] on. *)
Fixpoint decide_files (ssize : N) (states : list SliceState) (start : nat) (l : list (N * Par2File)) : Decided :=
  match l with
  | [] => {| dc_intact := []; dc_damaged := []; dc_from_disk := []; dc_skipped := 0; dc_disk := 0 |}
  | (id, f) :: l' =>
    let count := slice_count f ssize in
    let own := take count (drop start states) in
    let r := decide_files ssize states (start + count) l' in
    if decide (Unknown ∈ own ∨ on_disk f ≠ Some (p_size f)) then
      {| dc_intact := dc_intact r; dc_damaged := dc_damaged r; dc_from_disk := id :: dc_from_disk r;
         dc_skipped := dc_skipped r; dc_disk := u64_add (p_size f) (dc_disk r) |}
    else
      let bad := bad_indices own in
      {| dc_intact := option_list (verified_entry f bad) ++ dc_intact r;
         dc_damaged := option_list (damaged_entry f count bad) ++ dc_damaged r; dc_from_disk := dc_from_disk r;
         dc_skipped := u64_add (p_size f) (dc_skipped r); dc_disk := dc_disk r |}
  end.

Definition verify_set (set : Par2FileSet) (map : option SliceMapSummary) : SetVerify :=
  match (m ← map; if map_fits set m then Some m else None) with
  | None =>
    {| result := par2_verify set dir fs; source := Disk; bytes_skipped := 0;
       bytes_from_disk := foldr u64_add 0%N (p_size <$> files_in_order set) |}
  | Some m =>
    let d := decide_files (set_slice_size set) (sm_states m) 0 (ordered_files set) in
    let disk := par2_verify (subset set (dc_from_disk d)) dir fs in
    let r := {| intact := dc_intact d ++ intact disk; damaged := dc_damaged d ++ damaged disk;
                missing := missing disk; recovery_blocks_available := recovery_blocks_available disk;
                repair_possible := false |} in
    {| result := {| intact := intact r; damaged := damaged r; missing := missing r;
                    recovery_blocks_available := recovery_blocks_available r;
                    repair_possible := bool_decide (blocks_needed r ≤ recovery_blocks_available r)%N |};
       source := match dc_from_disk d with [] => InFlight | _ => Partial end;
       bytes_skipped := dc_skipped d; bytes_from_disk := dc_disk d |}
  end.
End verify.

(** ** The verifier of [rust-par2] *)
Inductive FileVerdict := FileIntact | FileDamaged (d : DamagedFile) | FileMissing (m : MissingFile).

(** The bytes of a slice of a file, where the file has them. *)
Definition read_slice_of {FS} `{FileSystem FS} (dir : str) (fs : FS) (ssize : N) (f : Par2File) (k : nat) : option bytes :=
  read_range fs (join dir (p_filename f)) (N.of_nat k * ssize) (N.min (p_size f - N.of_nat k * ssize) ssize).

(** They have the digest the set gives for the slice. *)
Definition slice_ok {FS} `{FileSystem FS} (digest : N → bytes → SliceDigest) (dir : str) (fs : FS) (ssize : N)
    (f : Par2File) (k : nat) : bool :=
  match read_slice_of dir fs ssize f k with
  | Some b => bool_decide (p_slices f !! k = Some (digest ssize b))
  | None => false
  end.

Definition bad_slices {FS} `{FileSystem FS} digest (dir : str) (fs : FS) (ssize : N) (f : Par2File) : list nat :=
  filter (λ k, slice_ok digest dir fs ssize f k = false) (seq 0 (slice_count f ssize)).

Class Par2Verify {FS} `{FileSystem FS} (digest : N → bytes → SliceDigest)
    (par2_verify : Par2FileSet → str → FS → VerifyResult) (blocks_needed : VerifyResult → N) := {
  (** what it finds of a file of the slice size of the set *)
  file_verdict : N → Par2File → str → FS → FileVerdict;
  (** each file is looked at by itself, in some order *)
  verify_intact set dir fs :
    intact (par2_verify set dir fs) ≡ₚ
    omap (λ f, match file_verdict (set_slice_size set) f dir fs with
               | FileIntact => Some {| vf_filename := p_filename f; vf_size := p_size f |} | _ => None end)
      (files_in_order set);
  verify_damaged set dir fs :
    damaged (par2_verify set dir fs) ≡ₚ
    omap (λ f, match file_verdict (set_slice_size set) f dir fs with FileDamaged d => Some d | _ => None end)
      (files_in_order set);
  verify_missing set dir fs :
    missing (par2_verify set dir fs) ≡ₚ
    omap (λ f, match file_verdict (set_slice_size set) f dir fs with FileMissing m => Some m | _ => None end)
      (files_in_order set);
  (** the recovery slices in the folder are those of the set *)
  verify_recovery set keep dir fs :
    recovery_blocks_available (par2_verify (subset set keep) dir fs) =
    recovery_blocks_available (par2_verify set dir fs);
  (** a file of the right size is judged slice by slice *)
  verdict_slices ssize f dir fs :
    on_disk dir fs f = Some (p_size f) →
    file_verdict ssize f dir fs =
      match damaged_entry f (slice_count f ssize) (as_u32 <$> bad_slices digest dir fs ssize f) with
      | Some d => FileDamaged d | None => FileIntact end;
  (** the slices it reports are all that is wrong *)
  verdict_covers ssize f dir fs :
    match file_verdict ssize f dir fs with
    | FileIntact => ∀ k, k < slice_count f ssize → slice_ok digest dir fs ssize f k = true
    | FileDamaged d => df_filename d = p_filename f ∧
        ∀ k, k < slice_count f ssize → slice_ok digest dir fs ssize f k = false →
             df_indices d = [] ∨ as_u32 k ∈ df_indices d
    | FileMissing m => mf_filename m = p_filename f
    end;
  (** the slices of the damaged and of the missing files *)
  needed r : blocks_needed r = (foldr N.add 0 (df_block_count <$> damaged r) + foldr N.add 0 (mf_block_count <$> missing r))%N;
}.

(** ** The map and the disk agree *)
#[export] Instance sum_Permutation : Proper ((≡ₚ) ==> (=)) (foldr N.add 0%N).
Proof. intros l k Hlk. induction Hlk; simpl; lia. Qed.

Section agree.
Context {FS : Type} `{FileSystem FS} (digest : N → bytes → SliceDigest).
Context (par2_verify : Par2FileSet → str → FS → VerifyResult) (blocks_needed : VerifyResult → N).
Context `{PV : !Par2Verify digest par2_verify blocks_needed} (dir : str) (fs : FS).

(** [P] of every file of the set with the states of its slices. *)
Fixpoint each_file (ssize : N) (P : Par2File → list SliceState → Prop) (states : list SliceState) (start : nat)
    (l : list (N * Par2File)) : Prop :=
  match l with
  | [] => True
  | (_, f) :: l' => P f (take (slice_count f ssize) (drop start states)) ∧
                    each_file ssize P states (start + slice_count f ssize) l'
  end.

(** The map says of a slice what the disk has. *)
Definition truthful (ssize : N) (f : Par2File) (own : list SliceState) : Prop :=
  ∀ k, (own !! k = Some Verified → slice_ok digest dir fs ssize f k = true) ∧
       (own !! k = Some Damaged → slice_ok digest dir fs ssize f k = false).

Lemma bad_indices_filter (own : list SliceState) (ok : nat → bool) (o : nat) :
  (∀ k s, own !! k = Some s → ok (o + k) = bool_decide (s ≠ Damaged)) →
  omap (λ ks : nat * SliceState, if decide (ks.2 = Damaged) then Some (as_u32 ks.1) else None)
    (imap (λ k s, (o + k, s)) own) = as_u32 <$> filter (λ k, ok k = false) (seq o (length own)).
Proof.
  revert o. induction own as [|s own IH]; intros o Hok; [done|].
  pose proof (Hok 0 s eq_refl) as H0. rewrite Nat.add_0_r in H0.
  assert (imap (λ k s, (o + k, s)) (s :: own) = (o, s) :: imap (λ k s, (S o + k, s)) own) as ->.
  { rewrite imap_cons, Nat.add_0_r. f_equal. apply imap_ext. intros k x _. simpl. f_equal. lia. }
  cbn [omap list_omap length seq]. rewrite filter_cons, (IH (S o)), H0; [by destruct s|].
  intros k x Hx. rewrite <- (Hok (S k) x Hx). f_equal. lia.
Qed.

Lemma bad_indices_truthful ssize f own :
  truthful ssize f own → length own = slice_count f ssize → Unknown ∉ own →
  bad_indices own = as_u32 <$> bad_slices digest dir fs ssize f.
Proof.
  intros Ht Hl Hu. unfold bad_slices, bad_indices. rewrite <- Hl.
  apply (bad_indices_filter own (slice_ok digest dir fs ssize f) 0). intros k s Hk. simpl.
  destruct s; [by destruct Hu; eapply list_elem_of_lookup_2|by rewrite (proj1 (Ht k) Hk)|by rewrite (proj2 (Ht k) Hk)].
Qed.

Lemma list_filter_ext_in {A} (P Q : A → Prop) `{!∀ x, Decision (P x)} `{!∀ x, Decision (Q x)} (l : list A) :
  (∀ x, x ∈ l → P x ↔ Q x) → filter P l = filter Q l.
Proof.
  induction l as [|x l IH]; intros HPQ; [done|]. rewrite !filter_cons, IH by (intros; apply HPQ; by right).
  pose proof (HPQ x (list_elem_of_here _ _)). repeat case_decide; naive_solver.
Qed.

(** What the verifier finds, and what the map decides, of the files of a list. *)
Definition found_intact ssize (l : list Par2File) : list VerifiedFile :=
  omap (λ f, match file_verdict ssize f dir fs with
             | FileIntact => Some {| vf_filename := p_filename f; vf_size := p_size f |} | _ => None end) l.
Definition found_damaged ssize (l : list Par2File) : list DamagedFile :=
  omap (λ f, match file_verdict ssize f dir fs with FileDamaged d => Some d | _ => None end) l.
Definition found_missing ssize (l : list Par2File) : list MissingFile :=
  omap (λ f, match file_verdict ssize f dir fs with FileMissing m => Some m | _ => None end) l.

Definition chosen (l : list (N * Par2File)) (keep : list N) : list Par2File :=
  (filter (λ f : N * Par2File, f.1 ∈ keep) l).*2.

Lemma decide_files_keep ssize states start l id :
  id ∈ dc_from_disk (decide_files dir fs ssize states start l) → id ∈ l.*1.
Proof.
  revert start. induction l as [|[i f] l IH]; intros start; cbn [decide_files]; [by intros ?%elem_of_nil|].
  case_decide; cbn [dc_from_disk fmap list_fmap fst]; intros Hin; apply elem_of_cons; [|by right; eapply IH].
  apply elem_of_cons in Hin as [->|Hin]; [by left|right; by eapply IH].
Qed.

Lemma chosen_cons_in id f l keep :
  id ∉ l.*1 → chosen ((id, f) :: l) (id :: keep) = f :: chosen l keep.
Proof.
  intros Hid. unfold chosen. rewrite filter_cons_True by (left). simpl. f_equal. f_equal.
  apply list_filter_ext_in. intros [i g] Hin. simpl. rewrite elem_of_cons. split; [|by right].
  intros [->|]; [|done]. destruct Hid. apply list_elem_of_fmap. by exists (id, g).
Qed.

Lemma chosen_cons_out id f l keep : id ∉ keep → chosen ((id, f) :: l) keep = chosen l keep.
Proof. intros Hid. unfold chosen. by rewrite filter_cons_False. Qed.

(** The decided halves are what the verifier would find of their files. *)
Lemma decide_files_agree ssize states l : ∀ start,
  NoDup l.*1 → start + sum_list ((λ f, slice_count f ssize) <$> l.*2) ≤ length states →
  each_file ssize (truthful ssize) states start l →
  let d := decide_files dir fs ssize states start l in
  let rest := chosen l (dc_from_disk d) in
  dc_intact d ++ found_intact ssize rest ≡ₚ found_intact ssize l.*2 ∧
  dc_damaged d ++ found_damaged ssize rest ≡ₚ found_damaged ssize l.*2 ∧
  found_missing ssize rest = found_missing ssize l.*2.
Proof.
  induction l as [|[id f] l IH]; intros start Hnd Hlen Heach d rest; [done|].
  cbn [fmap list_fmap fst snd] in Hnd, Hlen. change (sum_list (?x :: ?l)) with (x + sum_list l) in Hlen. apply NoDup_cons in Hnd as [Hid Hnd]. destruct Heach as [Hf Heach].
  specialize (IH (start + slice_count f ssize) Hnd ltac:(lia) Heach). cbv zeta in IH.
  pose proof (decide_files_keep ssize states (start + slice_count f ssize) l) as Hkeep.
  subst rest d. cbn [decide_files]. set (r := decide_files _ _ _ _ _ l) in *.
  destruct IH as (I1 & I2 & I3). case_decide as Hdec; cbn [dc_intact dc_damaged dc_from_disk fmap list_fmap snd].
  - rewrite chosen_cons_in by done. unfold found_intact, found_damaged, found_missing in *. cbn [omap list_omap].
    destruct (file_verdict ssize f dir fs); split_and!; simpl; rewrite <- ?I1, <- ?I2, <- ?I3;
      rewrite ?Permutation_middle; done.
  - rewrite chosen_cons_out by (intros Hin; by apply Hid, Hkeep).
    apply Decidable.not_or in Hdec as [Hu Hsz]. apply dec_stable in Hsz.
    pose proof (verdict_slices ssize f dir fs Hsz) as Hv.
    rewrite (bad_indices_truthful ssize f) by (done || rewrite length_take, length_drop; lia).
    unfold found_intact, found_damaged, found_missing in *. cbn [omap list_omap].
    destruct (as_u32 <$> bad_slices digest dir fs ssize f) as [|b bs]; simpl in Hv; rewrite Hv; simpl;
      split_and!; rewrite <- ?app_assoc; rewrite ?I1, ?I2, ?I3; done.
Qed.

Lemma decide_files_bytes ssize states l : ∀ start,
  (foldr N.add 0 (p_size <$> l.*2) < 2 ^ 64)%N →
  let d := decide_files dir fs ssize states start l in
  (dc_skipped d + dc_disk d = foldr N.add 0 (p_size <$> l.*2))%N ∧
  (dc_from_disk d = [] → dc_disk d = 0%N).
Proof.
  induction l as [|[id f] l IH]; intros start Hfit; [done|]. cbn [fmap list_fmap foldr snd] in *.
  destruct (IH (start + slice_count f ssize)) as [I1 I2]; [lia|].
  cbn [decide_files]. set (r := decide_files _ _ _ _ _ l) in *.
  case_decide; cbn [dc_skipped dc_disk dc_from_disk]; rewrite u64_add_small by lia; split; try done; lia.
Qed.

(** The subset handed to the verifier is the files chosen. *)
Lemma subset_lookup set (keep : list N) : files_in_order (subset set keep) = omap (λ id, set_files set !! id) keep.
Proof.
  unfold files_in_order. cbn [subset set_files file_order].
  assert (∀ l : list N, (∀ id, id ∈ l → id ∈ keep) →
    omap (λ id, list_to_map (M := gmap N Par2File) (omap (λ id, pair id <$> set_files set !! id) keep) !! id) l =
    omap (λ id, set_files set !! id) l) as Hl; [|by apply Hl].
  induction l as [|id l IH]; intros Hin; [done|]. cbn [omap list_omap].
  rewrite IH by (intros; apply Hin; by right).
  assert (list_to_map (M := gmap N Par2File) (omap (λ id, pair id <$> set_files set !! id) keep) !! id =
    set_files set !! id) as ->; [|done].
  pose proof (Hin id (list_elem_of_here _ _)) as Hid. clear -Hid. induction keep as [|i keep IH]; [by apply elem_of_nil in Hid|].
  cbn [omap list_omap]. destruct (decide (id = i)) as [<-|Hne].
  - destruct (set_files set !! id) as [f|] eqn:Hf; simpl; [by rewrite lookup_insert_eq|].
    destruct (decide (id ∈ keep)) as [Hk|Hk]; [by rewrite IH|]. apply not_elem_of_list_to_map.
    intros ([i g] & -> & (j & Hj & Hg)%list_elem_of_omap)%list_elem_of_fmap.
    apply fmap_Some in Hg as (g' & Hg & [= -> ->]). simpl in Hf. congruence.
  - apply elem_of_cons in Hid as [->|Hid]; [done|].
    destruct (set_files set !! i); simpl; [rewrite lookup_insert_ne by done|]; by apply IH.
Qed.

Lemma omap_chosen set ssize states l : ∀ start,
  NoDup l.*1 → Forall (λ f : N * Par2File, set_files set !! f.1 = Some f.2) l →
  let d := decide_files dir fs ssize states start l in
  omap (λ id, set_files set !! id) (dc_from_disk d) = chosen l (dc_from_disk d).
Proof.
  induction l as [|[id f] l IH]; intros start Hnd Hall; [done|]. cbn [fmap list_fmap fst] in Hnd.
  apply NoDup_cons in Hnd as [Hid Hnd]. apply Forall_cons in Hall as [Hf Hall]. simpl in Hf.
  specialize (IH (start + slice_count f ssize) Hnd Hall). cbv zeta in IH |- *.
  pose proof (decide_files_keep ssize states (start + slice_count f ssize) l) as Hkeep.
  cbn [decide_files]. case_decide; cbn [dc_from_disk].
  - rewrite chosen_cons_in by done. cbn [omap list_omap]. by rewrite Hf, IH.
  - rewrite chosen_cons_out by (intros Hin; by apply Hid, Hkeep). exact IH.
Qed.

Lemma ordered_files_ids set : NoDup (file_order set) → NoDup (ordered_files set).*1.
Proof.
  unfold ordered_files. induction 1 as [|id l Hid _ IH]; [constructor|]. cbn [omap list_omap].
  destruct (set_files set !! id) as [f|]; [|done]. simpl. constructor; [|done].
  intros ([i g] & -> & (j & Hj & Hg)%list_elem_of_omap)%list_elem_of_fmap.
  apply fmap_Some in Hg as (g' & _ & [= -> _]). by apply Hid.
Qed.

Lemma ordered_files_lookup set : Forall (λ f : N * Par2File, set_files set !! f.1 = Some f.2) (ordered_files set).
Proof.
  apply Forall_forall. intros [i g] (j & _ & Hg)%list_elem_of_omap.
  by apply fmap_Some in Hg as (g' & Hg & [= -> ->]).
Qed.

(** C31. A verification from the slice map finds what reading every file would:
    with a map that fits the set and says of each slice it decides what the disk
    has, the intact, damaged and missing files, the slices to repair and the
    recovery slices to hand are those of the full pass; each byte of the set is
    either skipped or read, and none is read when every file was decided. *)
Theorem inflight_agrees_with_disk set m :
  map_fits set m = true → NoDup (file_order set) →
  (foldr N.add 0 (p_size <$> files_in_order set) < 2 ^ 64)%N →
  each_file (set_slice_size set) (truthful (set_slice_size set)) (sm_states m) 0 (ordered_files set) →
  let v := verify_set par2_verify blocks_needed dir fs set (Some m) in
  let full := par2_verify set dir fs in
  intact (result v) ≡ₚ intact full ∧ damaged (result v) ≡ₚ damaged full ∧ missing (result v) ≡ₚ missing full ∧
  recovery_blocks_available (result v) = recovery_blocks_available full ∧
  blocks_needed (result v) = blocks_needed full ∧
  repair_possible (result v) = bool_decide (blocks_needed full ≤ recovery_blocks_available full)%N ∧
  (bytes_skipped v + bytes_from_disk v = foldr N.add 0 (p_size <$> files_in_order set))%N ∧
  (source v = InFlight → bytes_from_disk v = 0%N).
Proof.
  intros Hfits Hnd Hsum Heach v full. pose proof Hfits as [_ Htot]%bool_decide_eq_true.
  set (d := decide_files dir fs (set_slice_size set) (sm_states m) 0 (ordered_files set)).
  assert (0 + sum_list ((λ f, slice_count f (set_slice_size set)) <$> (ordered_files set).*2) ≤ length (sm_states m)) as Hlen.
  { rewrite <- Htot. unfold total_slices. rewrite files_in_order_ordered. done. }
  pose proof (decide_files_agree _ _ _ 0 (ordered_files_ids set Hnd) Hlen Heach) as (I1 & I2 & I3).
  rewrite files_in_order_ordered in Hsum.
  pose proof (decide_files_bytes (set_slice_size set) (sm_states m) _ 0 Hsum) as (B1 & B2). fold d in I1, I2, I3, B1, B2.
  assert (files_in_order (subset set (dc_from_disk d)) = chosen (ordered_files set) (dc_from_disk d)) as Hsub.
  { rewrite subset_lookup. by apply omap_chosen; [apply ordered_files_ids|apply ordered_files_lookup]. }
  set (disk := par2_verify (subset set (dc_from_disk d)) dir fs).
  assert (v = {| result := {| intact := dc_intact d ++ intact disk; damaged := dc_damaged d ++ damaged disk;
      missing := missing disk; recovery_blocks_available := recovery_blocks_available disk;
      repair_possible := bool_decide (blocks_needed {| intact := dc_intact d ++ intact disk;
        damaged := dc_damaged d ++ damaged disk; missing := missing disk;
        recovery_blocks_available := recovery_blocks_available disk; repair_possible := false |} ≤
        recovery_blocks_available disk)%N |};
    source := match dc_from_disk d with [] => InFlight | _ => Partial end;
    bytes_skipped := dc_skipped d; bytes_from_disk := dc_disk d |}) as ->.
  { subst v. unfold verify_set. cbn [mbind option_bind]. by rewrite Hfits. }
  cbn [result source bytes_skipped bytes_from_disk intact damaged missing recovery_blocks_available repair_possible].
  assert (dc_intact d ++ intact disk ≡ₚ intact full) as E1.
  { unfold disk, full. rewrite !verify_intact, Hsub, files_in_order_ordered. exact I1. }
  assert (dc_damaged d ++ damaged disk ≡ₚ damaged full) as E2.
  { unfold disk, full. rewrite !verify_damaged, Hsub, files_in_order_ordered. exact I2. }
  assert (missing disk ≡ₚ missing full) as E3.
  { unfold disk, full. rewrite !verify_missing, Hsub, files_in_order_ordered.
    apply (eq_ind_r (λ l, l ≡ₚ found_missing (set_slice_size set) (ordered_files set).*2) (reflexivity _) I3). }
  assert (recovery_blocks_available disk = recovery_blocks_available full) as E4 by apply verify_recovery.
  assert (∀ i a p, blocks_needed {| intact := i; damaged := dc_damaged d ++ damaged disk; missing := missing disk;
    recovery_blocks_available := a; repair_possible := p |} = blocks_needed full) as E5.
  { intros i a p. rewrite !needed. cbn [damaged missing]. by rewrite E2, E3. }
  rewrite !E5, E4, files_in_order_ordered. split_and!; try done. intros Hs. apply B2. by destruct (dc_from_disk d).
Qed.

(** *** What is not reported is in order *)
Definition reported (v : VerifyResult) (f : Par2File) (k : nat) : Prop :=
  (∃ d, d ∈ damaged v ∧ df_filename d = p_filename f ∧ (df_indices d = [] ∨ as_u32 k ∈ df_indices d)) ∨
  ∃ m, m ∈ missing v ∧ mf_filename m = p_filename f.

(** A map that never calls a bad slice good. *)
Definition never_lenient (ssize : N) (f : Par2File) (own : list SliceState) : Prop :=
  ∀ k, own !! k = Some Verified → slice_ok digest dir fs ssize f k = true.

Lemma par2_verify_covers set f k :
  f ∈ files_in_order set → k < slice_count f (set_slice_size set) → ¬ reported (par2_verify set dir fs) f k →
  slice_ok digest dir fs (set_slice_size set) f k = true.
Proof.
  intros Hf Hk Hrep. apply not_false_iff_true. intros Hok. apply Hrep.
  pose proof (verdict_covers (set_slice_size set) f dir fs) as Hc.
  destruct (file_verdict (set_slice_size set) f dir fs) as [|d|m] eqn:Hv.
  - by rewrite Hc in Hok.
  - destruct Hc as [Hn Hc]. left. exists d. split; [|by split; [|apply Hc]].
    rewrite verify_damaged. apply list_elem_of_omap. exists f. by rewrite Hv.
  - right. exists m. split; [|done]. rewrite verify_missing. apply list_elem_of_omap. exists f. by rewrite Hv.
Qed.

Lemma elem_of_bad_indices own k : own !! k = Some Damaged → as_u32 k ∈ bad_indices own.
Proof.
  intros Hk. unfold bad_indices. apply list_elem_of_omap. exists (k, Damaged). split; [|done].
  apply list_elem_of_lookup. exists k. by rewrite list_lookup_imap, Hk.
Qed.

Lemma decide_files_covers ssize states l id f : ∀ start,
  (id, f) ∈ l → start + sum_list ((λ f, slice_count f ssize) <$> l.*2) ≤ length states →
  each_file ssize (never_lenient ssize) states start l →
  let d := decide_files dir fs ssize states start l in
  id ∈ dc_from_disk d ∨
  ∀ k, k < slice_count f ssize → slice_ok digest dir fs ssize f k = true ∨
    ∃ x, x ∈ dc_damaged d ∧ df_filename x = p_filename f ∧ as_u32 k ∈ df_indices x.
Proof.
  induction l as [|[i g] l IH]; intros start Hin Hlen Heach; [by apply elem_of_nil in Hin|].
  cbn [fmap list_fmap snd] in Hlen. change (sum_list (?x :: ?y)) with (x + sum_list y) in Hlen.
  destruct Heach as [Hg Heach]. cbn [decide_files]. apply elem_of_cons in Hin as [[= <- <-]|Hin].
  - clear IH. case_decide as Hdec; cbn [dc_from_disk dc_damaged]; [left; by left|]. right. intros k Hk.
    apply Decidable.not_or in Hdec as [Hu _].
    assert (k < length (take (slice_count f ssize) (drop start states))) as Hl.
    { rewrite length_take, length_drop. lia. }
    apply lookup_lt_is_Some in Hl as [s Hs]. destruct s.
    + destruct Hu. by eapply list_elem_of_lookup_2.
    + left. by apply Hg.
    + right. apply elem_of_bad_indices in Hs. set (bad := bad_indices _) in *.
      destruct bad as [|b bs] eqn:Hbad; [by apply elem_of_nil in Hs|]. eexists. simpl. split; [by left|]. done.
  - specialize (IH (start + slice_count g ssize) Hin ltac:(lia) Heach). cbv zeta in IH.
    case_decide; cbn [dc_from_disk dc_damaged].
    + destruct IH as [Hd|Hd]; [left; by right|by right].
    + destruct IH as [Hd|Hd]; [by left|right]. intros k Hk. destruct (Hd k Hk) as [|(x & Hx & ?)]; [by left|].
      right. exists x. split; [|done]. apply elem_of_app. by right.
Qed.

(** A slice the verification does not report has its digest on the disk. *)
Lemma verify_set_covers set map f k :
  NoDup (file_order set) →
  (∀ m, map = Some m → each_file (set_slice_size set) (never_lenient (set_slice_size set)) (sm_states m) 0 (ordered_files set)) →
  f ∈ files_in_order set → k < slice_count f (set_slice_size set) →
  ¬ reported (result (verify_set par2_verify blocks_needed dir fs set map)) f k →
  slice_ok digest dir fs (set_slice_size set) f k = true.
Proof.
  intros Hnd Hmap Hf Hk. unfold verify_set.
  destruct map as [m|]; cbn [mbind option_bind]; [|by apply par2_verify_covers].
  destruct (map_fits set m) eqn:Hfits; [|by apply par2_verify_covers].
  specialize (Hmap m eq_refl). apply bool_decide_eq_true in Hfits as [_ Htot]. cbn [result].
  set (d := decide_files dir fs (set_slice_size set) (sm_states m) 0 (ordered_files set)).
  rewrite files_in_order_ordered in Hf. apply list_elem_of_fmap in Hf as ([id g] & -> & Hin). cbn [snd] in *.
  assert (0 + sum_list ((λ f, slice_count f (set_slice_size set)) <$> (ordered_files set).*2) ≤ length (sm_states m)) as Hlen.
  { rewrite <- Htot. unfold total_slices. by rewrite files_in_order_ordered. }
  intros Hrep. destruct (decide_files_covers _ _ _ _ _ _ Hin Hlen Hmap) as [Hd|Hd].
  - apply (par2_verify_covers (subset set (dc_from_disk d))); [|done|].
    + rewrite subset_lookup. apply list_elem_of_omap. exists id. split; [done|].
      pose proof (ordered_files_lookup set) as Hl. rewrite Forall_forall in Hl. exact (Hl _ Hin).
    + intros [(x & Hx & Hr)|(x & Hx & Hr)]; apply Hrep; [left|right]; exists x; (split; [|done]); simpl; [|done].
      apply elem_of_app. by right.
  - destruct (Hd k Hk) as [|(x & Hx & Hn & Hi)]; [done|]. destruct Hrep. left. exists x.
    split; [apply elem_of_app; by left|]. split; [done|by right].
Qed.
End agree.
