(* ===== verification/FoldRepair.v ===== *)
(** * Repairing a recovery set from the fold of the download

    [crates/nzb-postproc/src/fold_repair.rs]: the slices the fold has missed are
    read from the disk, the recovery slices are found in the folder, the fold is
    solved, with more rows where it has too few, and the slices solved are
    written into their files. *)
From S2P Require Import Prelude Str FileSystem SliceMap Par2Match SliceTracker Inflight.
From S2P Require RepairFold.

(** [File::set_len] on an open handle. *)
Class SetLen (FS : Type) `{FileSystem FS} := fs_set_len : FS → path → N → FS * bool.
Class SetLenLaws (FS : Type) `{SetLen FS} := {
  fs_set_len_read fs p n fs' old :
    fs_read fs p = Some old → fs_set_len fs p n = (fs', true) →
    fs_read fs' p = Some (vec_resize (N.to_nat n) Byte.x00 old);
  fs_set_len_other fs p n fs' b q : fs_set_len fs p n = (fs', b) → q ≠ p → fs_read fs' q = fs_read fs q;
}.

(** ** The slices of the set, numbered through *)
Record Placed := { pl_file : Par2File; pl_start : nat; pl_count : nat }.

Fixpoint place (ssize : N) (start : nat) (l : list Par2File) : list Placed :=
  match l with
  | [] => []
  | f :: l' => {| pl_file := f; pl_start := start; pl_count := slice_count f ssize |}
                 :: place ssize (start + slice_count f ssize) l'
  end.
Definition layout (set : Par2FileSet) : list Placed := place (set_slice_size set) 0 (files_in_order set).

Definition find_placed (name : str) (placed : list Placed) : option Placed :=
  snd <$> list_find (λ p, p_filename (pl_file p) = name) placed.

Definition damaged_slices (placed : list Placed) (d : DamagedFile) : list nat :=
  match find_placed (df_filename d) placed with
  | None => []
  | Some p => match df_indices d with
              | [] => seq (pl_start p) (pl_count p)
              | l => (λ i, pl_start p + N.to_nat i) <$> l
              end
  end.
Definition missing_slices (placed : list Placed) (m : MissingFile) : list nat :=
  match find_placed (mf_filename m) placed with Some p => seq (pl_start p) (pl_count p) | None => [] end.

Definition damaged_indices (placed : list Placed) (v : VerifyResult) : list nat :=
  sort_dedup le ((damaged v ≫= damaged_slices placed) ++ (missing v ≫= missing_slices placed)).

(** A slice of the set: its file, where it starts there, its length. *)
Definition locate (placed : list Placed) (gi : nat) (ssize : N) : option (Par2File * N * N) :=
  '(_, p) ← list_find (λ p, pl_start p ≤ gi ∧ gi < pl_start p + pl_count p) placed;
  let off := (N.of_nat (gi - pl_start p) * ssize)%N in
  Some (pl_file p, off, N.min (p_size (pl_file p) - off) ssize).

(** ** The repair *)
Record FoldReport := {
  blocks_repaired : N; files_repaired : nat; report_rows : nat; slices_prefed : nat; slices_read_at_solve : nat;
}.
Inductive FoldRepairError := Mismatch | Fold (e : RepairFold.FoldError) | Io.

Section repair.
Context {G : Type} `{GF : RepairFold.Gf16 G} {FS : Type} `{SL : SetLen FS}.
(** [rust_par2::recovery::load_recovery_blocks]: exponents and data. *)
Context (load_recovery_blocks : FS → str → Par2FileSet → list (N * bytes)).
Context (dir : str) (set : Par2FileSet).

Definition read_slice (placed : list Placed) (fs : FS) (gi : nat) : Prelude.result string bytes :=
  match locate placed gi (set_slice_size set) with
  | None => Err "slice outside the set"%string
  | Some (f, off, len) =>
    match read_range fs (join dir (p_filename f)) off len with
    | Some b => Ok b
    | None => Err "cannot read the slice"%string
    end
  end.

Definition recovery_map (l : list (N * bytes)) : gmap N bytes := foldl (λ m kv, <[kv.1 := kv.2]> m) ∅ l.

(** Exponents on the disk the fold has no row for, as many as are short. *)
Definition present (f : RepairFold.RepairFold G) (recovery : gmap N bytes) (short : nat) : list N :=
  take short (merge_sort N.le (filter (λ e, e ∉ RepairFold.exponents f) (map_to_list recovery).*1)).

Definition solve_extending (f : RepairFold.RepairFold G) (damaged : list nat) (recovery : gmap N bytes)
    (read : nat → Prelude.result string bytes)
    : RepairFold.RepairFold G * Prelude.result RepairFold.FoldError (list (nat * bytes)) :=
  match RepairFold.solve f damaged recovery with
  | Err (RepairFold.NotEnoughRows needed usable) =>
    if decide (usable < needed) then
      let '(f', r) := RepairFold.extend_rows f (present f recovery (needed - usable)) read in
      match r with
      | Err e => (f', Err e)
      | Ok _ => (f', RepairFold.solve f' damaged recovery)
      end
    else (f, Err (RepairFold.NotEnoughRows needed usable))
  | r => (f, r)
  end.

(** One solved slice: the file is created or made as long as it should be,
    then written. *)
Definition write_slice (f : Par2File) (off len : N) (b : bytes) (fs : FS) : FS * bool :=
  let p := join dir (p_filename f) in
  let '(fs, ok) := fs_open fs p in
  if ok : bool then
    match fs_read fs p with
    | None => (fs, false)
    | Some c =>
      let '(fs, ok) := if decide (N.of_nat (length c) < p_size f)%N then fs_set_len fs p (p_size f) else (fs, true) in
      if ok : bool then fs_write_at fs p off (take (N.to_nat len) b) else (fs, false)
    end
  else (fs, false).

Fixpoint write_slices (placed : list Placed) (l : list (nat * bytes)) (touched : gset str) (fs : FS)
    : FS * Prelude.result FoldRepairError (gset str) :=
  match l with
  | [] => (fs, Ok touched)
  | (gi, b) :: l' =>
    match locate placed gi (set_slice_size set) with
    | None => (fs, Err (Fold (RepairFold.OutOfRange gi)))
    | Some (f, off, len) =>
      let '(fs, ok) := write_slice f off len b fs in
      if ok : bool then write_slices placed l' ({[p_filename f]} ∪ touched) fs else (fs, Err Io)
    end
  end.

Definition repair_from_fold (v : VerifyResult) (f : RepairFold.RepairFold G) (fs : FS)
    : RepairFold.RepairFold G * FS * Prelude.result FoldRepairError FoldReport :=
  let placed := layout set in
  let total := sum_list (pl_count <$> placed) in
  if decide (length (RepairFold.fed f) ≠ total ∨ N.of_nat (RepairFold.slice_size f) ≠ set_slice_size set)
  then (f, fs, Err Mismatch)
  else
    let damaged := damaged_indices placed v in
    let f := RepairFold.abandon_growth f in
    let prefed := RepairFold.fed_count f in
    match RepairFold.feed_missing f damaged (read_slice placed fs) with
    | (f, Err e) => (f, fs, Err (Fold e))
    | (f, Ok n) =>
      match solve_extending f damaged (recovery_map (load_recovery_blocks fs dir set)) (read_slice placed fs) with
      | (f, Err e) => (f, fs, Err (Fold e))
      | (f, Ok repaired) =>
        let '(fs, r) := write_slices placed repaired ∅ fs in
        (f, fs, touched ← r;
                Ok {| blocks_repaired := as_u32 (length repaired); files_repaired := size touched;
                      report_rows := length (RepairFold.rows f); slices_prefed := prefed; slices_read_at_solve := n |})
      end
    end.
End repair.

(** ** Numbering *)
Section numbering.
Context (ssize : N).
Implicit Types (l : list Par2File) (p q : Placed).

Lemma place_elem l : ∀ start p,
  p ∈ place ssize start l →
  pl_file p ∈ l ∧ pl_count p = slice_count (pl_file p) ssize ∧ start ≤ pl_start p ∧
  pl_start p + pl_count p ≤ start + sum_list ((λ f, slice_count f ssize) <$> l).
Proof.
  induction l as [|f l IH]; intros start p Hp; [by apply elem_of_nil in Hp|].
  rewrite fmap_cons. cbn [sum_list sum_list_with foldr]. apply elem_of_cons in Hp as [->|Hp].
  - simpl. split_and!; [by left|done|lia..].
  - destruct (IH _ _ Hp) as (? & ? & ? & Hs). split_and!; [by right|done|lia|]. simpl in *. lia.
Qed.

Lemma place_files start l : pl_file <$> place ssize start l = l.
Proof. revert start. induction l as [|f l IH]; intros start; [done|]. cbn [place]. rewrite fmap_cons, IH. done. Qed.

Lemma place_counts start l : pl_count <$> place ssize start l = (λ f, slice_count f ssize) <$> l.
Proof. revert start. induction l as [|f l IH]; intros start; [done|]. cbn [place]. by rewrite !fmap_cons, IH. Qed.

(** A number lies in one file. *)
Lemma place_disjoint l : ∀ start p q gi,
  p ∈ place ssize start l → q ∈ place ssize start l →
  pl_start p ≤ gi < pl_start p + pl_count p → pl_start q ≤ gi < pl_start q + pl_count q → p = q.
Proof.
  induction l as [|f l IH]; intros start p q gi Hp Hq Hgp Hgq; [by apply elem_of_nil in Hp|].
  cbn [place] in Hp, Hq. apply elem_of_cons in Hp as [->|Hp], Hq as [->|Hq]; [done|..|by eapply IH].
  - pose proof (place_elem _ _ _ Hq) as (_ & _ & ? & _). simpl in *. lia.
  - pose proof (place_elem _ _ _ Hp) as (_ & _ & ? & _). simpl in *. lia.
Qed.

Lemma place_covers l : ∀ start gi,
  start ≤ gi < start + sum_list ((λ f, slice_count f ssize) <$> l) →
  ∃ p, p ∈ place ssize start l ∧ pl_start p ≤ gi < pl_start p + pl_count p.
Proof.
  induction l as [|f l IH]; intros start gi Hgi; [simpl in Hgi; lia|].
  rewrite fmap_cons in Hgi. change (sum_list (?x :: ?y)) with (x + sum_list y) in Hgi.
  destruct (decide (gi < start + slice_count f ssize)).
  - eexists. split; [by left|]. simpl. lia.
  - destruct (IH (start + slice_count f ssize) gi) as (p & Hp & Hr); [lia|]. exists p. by split; [right|].
Qed.

(** The slices of the files, one after the other. *)
Lemma place_lookup {A} (cut : Par2File → list A) l : ∀ start p k x,
  (∀ f, length (cut f) = slice_count f ssize) → p ∈ place ssize start l → cut (pl_file p) !! k = Some x →
  (l ≫= cut) !! (pl_start p - start + k) = Some x.
Proof.
  induction l as [|f l IH]; intros start p k x Hcut Hp Hk; [by apply elem_of_nil in Hp|].
  rewrite bind_cons. cbn [place] in Hp. apply elem_of_cons in Hp as [->|Hp]; simpl in *.
  - rewrite Nat.sub_diag. simpl. rewrite lookup_app_l; [done|]. by eapply lookup_lt_Some.
  - pose proof (place_elem _ _ _ Hp) as (_ & _ & ? & _). rewrite lookup_app_r by (rewrite Hcut; lia).
    rewrite Hcut. rewrite <- (IH (start + slice_count f ssize) p k x Hcut Hp Hk). f_equal. lia.
Qed.
End numbering.

(** Slice [gi] of the set is slice [k] of [f]. *)
Definition slot (set : Par2FileSet) (gi : nat) (f : Par2File) (k : nat) : Prop :=
  ∃ p, p ∈ layout set ∧ pl_file p = f ∧ gi = pl_start p + k ∧ k < slice_count f (set_slice_size set).

Section slots.
Context (set : Par2FileSet).
Abbreviation ss := (set_slice_size set).

Lemma slot_locate gi f k :
  slot set gi f k → locate (layout set) gi ss = Some (f, (N.of_nat k * ss)%N, N.min (p_size f - N.of_nat k * ss) ss).
Proof.
  intros (p & Hp & <- & -> & Hk). unfold locate.
  pose proof (place_elem _ _ _ _ Hp) as (_ & Hc & _ & _).
  destruct (list_find _ (layout set)) as [[i q]|] eqn:Hf.
  - apply list_find_Some in Hf as (Hq & Hr & _). simpl.
    assert (q = p) as -> by (eapply place_disjoint; [by eapply list_elem_of_lookup_2|exact Hp|exact Hr|lia]).
    simpl. by replace (pl_start p + k - pl_start p) with k by lia.
  - apply list_find_None in Hf. rewrite Forall_forall in Hf. exfalso. apply (Hf p Hp). lia.
Qed.

Lemma slot_range gi f k : slot set gi f k → gi < total_slices set ∧ f ∈ files_in_order set ∧ k < slice_count f ss.
Proof.
  intros (p & Hp & <- & -> & Hk). pose proof (place_elem _ _ _ _ Hp) as (Hin & Hc & _ & Hr).
  unfold total_slices. simpl in Hr. split_and!; [lia|done|done].
Qed.

Lemma slot_exists gi : gi < total_slices set → ∃ f k, slot set gi f k.
Proof.
  intros Hgi. destruct (place_covers ss (files_in_order set) 0 gi) as (p & Hp & Hr); [unfold total_slices in Hgi; lia|].
  pose proof (place_elem _ _ _ _ Hp) as (_ & Hc & _ & _).
  exists (pl_file p), (gi - pl_start p), p. split_and!; [done|done|lia|lia].
Qed.

Lemma slot_of f k : f ∈ files_in_order set → k < slice_count f ss → ∃ gi, slot set gi f k.
Proof.
  intros Hf Hk. rewrite <- (place_files ss 0 (files_in_order set)) in Hf.
  apply list_elem_of_fmap in Hf as (p & -> & Hp). exists (pl_start p + k), p. done.
Qed.

Lemma locate_None gi : total_slices set ≤ gi → locate (layout set) gi ss = None.
Proof.
  intros Hgi. unfold locate. destruct (list_find _ (layout set)) as [[i q]|] eqn:Hf; [|done].
  apply list_find_Some in Hf as (Hq & Hr & _). apply list_elem_of_lookup_2 in Hq.
  pose proof (place_elem _ _ _ _ Hq) as (_ & Hc & _ & Hs). unfold total_slices in Hgi. simpl in *. lia.
Qed.
End slots.

(** ** Only the slices asked for are read *)
Section reads.
Context {G : Type} `{GF : RepairFold.Gf16 G}.
Implicit Types (f : RepairFold.RepairFold G) (read : nat → Prelude.result string bytes).

Lemma read_chunk_ext read read' c :
  (∀ i, i ∈ c → read i = read' i) → RepairFold.read_chunk read c = RepairFold.read_chunk read' c.
Proof.
  induction c as [|i c IH]; intros Hr; [done|]. cbn [RepairFold.read_chunk].
  rewrite (Hr i) by (by left). rewrite IH; [done|]. intros. apply Hr. by right.
Qed.

Lemma for_each_batch_ext {St} read read' (apply : St → list (nat * bytes) → St) cs : ∀ s,
  (∀ i, i ∈ concat cs → read i = read' i) →
  RepairFold.for_each_batch cs read apply s = RepairFold.for_each_batch cs read' apply s.
Proof.
  induction cs as [|c cs IH]; intros s Hr; [done|]. cbn [RepairFold.for_each_batch].
  rewrite (read_chunk_ext read read') by (intros; apply Hr; simpl; apply elem_of_app; by left).
  destruct (RepairFold.read_chunk read' c); [|done]. apply IH. intros. apply Hr. simpl. apply elem_of_app. by right.
Qed.

Lemma feed_missing_ext f damaged read read' :
  (∀ i, i ∉ damaged → read i = read' i) →
  RepairFold.feed_missing f damaged read = RepairFold.feed_missing f damaged read'.
Proof.
  intros Hr. unfold RepairFold.feed_missing. destruct (list_find _ _) as [[]|]; [done|].
  erewrite for_each_batch_ext; [reflexivity|]. intros i. rewrite concat_chunks by apply RepairFold.batch_len_pos.
  intros [[_ Hi] _]%list_elem_of_filter. by apply Hr.
Qed.

Lemma extend_rows_ext f exps read read' :
  (∀ i, RepairFold.is_fed f i = true → read i = read' i) →
  RepairFold.extend_rows f exps read = RepairFold.extend_rows f exps read'.
Proof.
  intros Hr. unfold RepairFold.extend_rows. case_decide; [done|]. case_decide; [done|].
  erewrite for_each_batch_ext; [reflexivity|]. intros i. rewrite concat_chunks by apply RepairFold.batch_len_pos.
  intros [Hi _]%list_elem_of_filter. apply Hr. revert Hi. unfold RepairFold.abandon_growth, RepairFold.is_fed.
  by destruct (RepairFold.growth f).
Qed.

Lemma solve_Ok f damaged recovery out :
  RepairFold.solve f damaged recovery = Ok out → ∀ j, j ∈ damaged → j < length (RepairFold.fed f).
Proof.
  unfold RepairFold.solve. case_decide; [done|]. destruct (list_find _ damaged) as [[]|] eqn:Hf; [done|].
  intros _ j Hj. apply list_find_None in Hf. rewrite Forall_forall in Hf. specialize (Hf j Hj). lia.
Qed.

Lemma solve_NotEnough f damaged recovery a b :
  RepairFold.solve f damaged recovery = Err (RepairFold.NotEnoughRows a b) →
  ∀ j, j ∈ damaged → RepairFold.is_fed f j = false.
Proof.
  unfold RepairFold.solve. case_decide as Hp; [done|]. intros _ j Hj.
  destruct (RepairFold.is_fed f j) eqn:E; [|done]. destruct Hp. right. apply existsb_exists. exists j.
  split; [by apply list_elem_of_In|done].
Qed.
End reads.

(** ** What the files should hold *)

(** Slice [k] of the bytes of a file. *)
Definition piece (ss : N) (c : bytes) (k : nat) : bytes := take (N.to_nat ss) (drop (k * N.to_nat ss) c).

Section restore.
Context {G : Type} `{GF : RepairFold.Gf16 G} {FS : Type} `{SL : SetLen FS} `{!FileSystemLaws FS} `{!SetLenLaws FS}.
Context (load_recovery_blocks : FS → str → Par2FileSet → list (N * bytes)).
Context (dir : str) (set : Par2FileSet) (original : str → bytes).
Abbreviation ss := (set_slice_size set).
Abbreviation n := (N.to_nat ss).
Context `{GL : !RepairFold.Gf16Laws G n}.

(** The set is one [PAR2] can describe: slices have a size, no two files share
    a name or a place on the disk, and the files it was made from have the sizes
    it gives. *)
Record set_ok : Prop := {
  ok_slice : (0 < ss)%N;
  ok_names : NoDup (p_filename <$> files_in_order set);
  ok_paths f g : f ∈ files_in_order set → g ∈ files_in_order set →
    join dir (p_filename f) = join dir (p_filename g) → p_filename f = p_filename g;
  ok_sizes f : f ∈ files_in_order set → length (original (p_filename f)) = N.to_nat (p_size f);
}.
Context (HS : set_ok).

Definition cut (f : Par2File) : list bytes :=
  (λ k, RepairFold.pad n (piece ss (original (p_filename f)) k)) <$> seq 0 (slice_count f ss).
(** The slices the set was made from. *)
Definition slices_of_set : list bytes := files_in_order set ≫= cut.
Abbreviation D := slices_of_set.

Lemma length_cut f : length (cut f) = slice_count f ss.
Proof. unfold cut. by rewrite length_fmap, length_seq. Qed.

Lemma slices_sized : RepairFold.sized n D.
Proof.
  apply Forall_forall. intros b (f & Hb & _)%list_elem_of_bind. apply list_elem_of_fmap in Hb as (k & -> & _).
  unfold RepairFold.pad. case_decide; [apply length_vec_resize|rewrite length_take; lia].
Qed.

Lemma length_slices : length D = total_slices set.
Proof.
  unfold slices_of_set, total_slices. induction (files_in_order set) as [|f l IH]; [done|].
  rewrite bind_cons, length_app, length_cut, IH. done.
Qed.

Lemma slot_slice gi f k :
  slot set gi f k → D !! gi = Some (RepairFold.pad n (piece ss (original (p_filename f)) k)).
Proof.
  intros (p & Hp & <- & -> & Hk).
  replace (pl_start p + k) with (pl_start p - 0 + k) by lia.
  apply (place_lookup ss cut); [apply length_cut|exact Hp|]. unfold cut. rewrite list_lookup_fmap, lookup_seq_lt by done. done.
Qed.

Lemma file_by_name f g :
  f ∈ files_in_order set → g ∈ files_in_order set → p_filename f = p_filename g → f = g.
Proof.
  intros (i & Hi)%list_elem_of_lookup (j & Hj)%list_elem_of_lookup E.
  enough (i = j) by (subst; congruence). apply (NoDup_lookup _ i j (p_filename f) (ok_names HS));
    rewrite list_lookup_fmap; [by rewrite Hi|by rewrite Hj, E].
Qed.

Lemma slot_unique gi gj f k : slot set gi f k → slot set gj f k → gi = gj.
Proof.
  intros (p & Hp & <- & -> & Hk) (q & Hq & Hf & -> & _).
  apply list_elem_of_lookup in Hp as (i & Hi). apply list_elem_of_lookup in Hq as (j & Hj).
  enough (i = j) by (subst; congruence). apply (NoDup_lookup _ i j (p_filename (pl_file p)) (ok_names HS));
    rewrite <- (place_files ss 0 (files_in_order set)); fold (layout set);
    rewrite !list_lookup_fmap; [by rewrite Hi|by rewrite Hj; simpl; rewrite Hf].
Qed.

Definition len_of (f : Par2File) (k : nat) : N := N.min (p_size f - N.of_nat k * ss) ss.

Lemma slice_fits f k :
  k < slice_count f ss → (0 < len_of f k)%N ∧ (N.of_nat k * ss + len_of f k ≤ p_size f)%N.
Proof. rewrite (slice_count_spec f ss k (ok_slice HS)). pose proof (ok_slice HS). unfold len_of. lia. Qed.

Lemma length_piece f k :
  f ∈ files_in_order set → k < slice_count f ss → length (piece ss (original (p_filename f)) k) = N.to_nat (len_of f k).
Proof.
  intros Hf Hk. pose proof (slice_fits f k Hk) as [_ Hl]. unfold piece, len_of in *.
  rewrite length_take, length_drop, (ok_sizes HS f Hf).
  assert (k * n = N.to_nat (N.of_nat k * ss)) as -> by (rewrite N2Nat.inj_mul, Nat2N.id; done). lia.
Qed.

Lemma take_pad m (b : bytes) : length b ≤ n → m = length b → take m (RepairFold.pad n b) = b.
Proof.
  intros Hl ->. unfold RepairFold.pad. case_decide.
  - unfold vec_resize. rewrite (take_ge b) by lia. rewrite take_app_length. done.
  - rewrite take_take, take_ge by lia. done.
Qed.

(** Slice [k] of [f] is on the disk as it should be. *)
Definition restored (fs : FS) (f : Par2File) (k : nat) : Prop :=
  read_slice_of dir fs ss f k = Some (piece ss (original (p_filename f)) k).

Lemma read_slice_slot (fs : FS) gi f k :
  slot set gi f k → restored fs f k → read_slice dir set (layout set) fs gi = Ok (piece ss (original (p_filename f)) k).
Proof. intros Hs Hr. unfold read_slice. rewrite (slot_locate set gi f k Hs). unfold restored, read_slice_of in Hr. by rewrite Hr. Qed.

(** [read_range] of at least one byte. *)
Lemma read_range_iff (fs : FS) p off len b :
  (0 < len)%N →
  read_range fs p off len = Some b ↔
  ∃ c, fs_read fs p = Some c ∧ (off + len ≤ N.of_nat (length c))%N ∧ length b = N.to_nat len ∧
       ∀ j, j < N.to_nat len → b !! j = c !! (N.to_nat off + j).
Proof.
  intros Hlen. unfold read_range. destruct (fs_read fs p) as [c|]; simpl; [|split; [done|by intros (? & ? & _)]].
  rewrite decide_False by lia. split.
  - case_decide as Hl; [|done]. intros [= <-]. exists c. split_and!; [done|lia|rewrite length_take, length_drop; lia|].
    intros j Hj. by rewrite lookup_take_lt, lookup_drop.
  - intros (c' & [= <-] & Hl & Hb & Hj). rewrite decide_True by lia. f_equal. apply list_eq. intros j.
    destruct (decide (j < N.to_nat len)).
    + by rewrite lookup_take_lt, lookup_drop, Hj.
    + rewrite !lookup_ge_None_2; [done|lia|rewrite length_take; lia].
Qed.

(** *** One write *)
Lemma write_slice_path (f : Par2File) off len b (fs fs' : FS) ok q :
  write_slice dir f off len b fs = (fs', ok) → q ≠ join dir (p_filename f) → fs_read fs' q = fs_read fs q.
Proof.
  unfold write_slice. intros Hw Hq. destruct (fs_open fs _) as [fs1 ok1] eqn:Ho.
  pose proof (fs_open_other _ _ _ _ _ Ho Hq) as E1. destruct ok1; [|by simplify_eq].
  destruct (fs_read fs1 (join dir (p_filename f))) as [c|] eqn:Hc; [|by simplify_eq].
  destruct (if decide _ then _ else _) as [fs2 ok2] eqn:Hl.
  assert (fs_read fs2 q = fs_read fs1 q) as E2.
  { case_decide; [by eapply fs_set_len_other|by simplify_eq]. }
  destruct ok2; [|simplify_eq; congruence]. rewrite (fs_write_at_other _ _ _ _ _ _ _ Hw Hq). congruence.
Qed.

(** The file after it: as long as it should be at least, the written bytes in
    place, the others as they were. *)
Lemma write_slice_file (f : Par2File) off len b (fs fs' : FS) :
  write_slice dir f off len b fs = (fs', true) → (off + len ≤ p_size f)%N → N.to_nat len ≤ length b →
  let old := default [] (fs_read fs (join dir (p_filename f))) in
  ∃ c, fs_read fs' (join dir (p_filename f)) = Some c ∧ length c = max (length old) (N.to_nat (p_size f)) ∧
    (∀ j, j < N.to_nat len → c !! (N.to_nat off + j) = b !! j) ∧
    (∀ i, i < length old → (i < N.to_nat off ∨ N.to_nat (off + len) ≤ i) → c !! i = old !! i).
Proof.
  intros Hw Hfit Hb old. unfold write_slice in Hw. set (p := join dir (p_filename f)) in *.
  destruct (fs_open fs p) as [fs1 ok1] eqn:Ho. destruct ok1; [|done].
  pose proof (fs_open_read _ _ _ Ho) as H1. fold old in H1. rewrite H1 in Hw.
  destruct (if decide _ then _ else _) as [fs2 ok2] eqn:Hl. destruct ok2; [|done].
  assert (∃ c1, fs_read fs2 p = Some c1 ∧ length c1 = max (length old) (N.to_nat (p_size f)) ∧
    ∀ i, i < length old → c1 !! i = old !! i) as (c1 & H2 & Hlen & Hold).
  { case_decide as Hs.
    - eexists. split; [by eapply fs_set_len_read|]. rewrite length_vec_resize. split; [lia|].
      intros i Hi. unfold vec_resize. rewrite lookup_app_l by (rewrite length_take; lia). by rewrite lookup_take_lt by lia.
    - simplify_eq. exists old. split_and!; [done|lia|done]. }
  pose proof (fs_write_at_read _ _ _ _ _ _ H2 Hw) as H3.
  assert (length (take (N.to_nat len) b) = N.to_nat len) as Ht by (rewrite length_take; lia).
  eexists. split_and!; [exact H3|rewrite length_splice, Ht; lia|..].
  - intros j Hj. rewrite lookup_splice_inside by lia. rewrite lookup_take_lt by lia. f_equal. lia.
  - intros i Hi Hout. rewrite lookup_splice_outside; [by apply Hold|lia|lia].
Qed.

Lemma slices_apart j k f : j ≠ k → (N.of_nat j * ss + len_of f j ≤ N.of_nat k * ss)%N ∨ (N.of_nat k * ss + len_of f k ≤ N.of_nat j * ss)%N.
Proof.
  intros Hne. destruct (decide (j < k)).
  - left. assert ((N.of_nat j + 1) * ss ≤ N.of_nat k * ss)%N by (apply N.mul_le_mono_r; lia). unfold len_of. lia.
  - right. assert ((N.of_nat k + 1) * ss ≤ N.of_nat j * ss)%N by (apply N.mul_le_mono_r; lia). unfold len_of. lia.
Qed.

Lemma write_restores gi f k b (fs fs' : FS) :
  slot set gi f k → b = RepairFold.slice n D gi →
  write_slice dir f (N.of_nat k * ss) (len_of f k) b fs = (fs', true) →
  restored fs' f k ∧ ∀ gj g j, slot set gj g j → gj ≠ gi → restored fs g j → restored fs' g j.
Proof.
  intros Hs -> Hw. destruct (slot_range _ _ _ _ Hs) as (_ & Hf & Hk).
  destruct (slice_fits f k Hk) as [Hpos Hfit]. pose proof (length_piece f k Hf Hk) as Hlp.
  unfold RepairFold.slice in Hw. rewrite (slot_slice gi f k Hs) in Hw. cbn [default from_option id] in Hw.
  set (pc := piece ss (original (p_filename f)) k) in *.
  assert (length pc ≤ n) as Hpn by (unfold pc, piece; rewrite length_take; lia).
  assert (take (N.to_nat (len_of f k)) (RepairFold.pad n pc) = pc) as Htp by (by apply take_pad).
  assert (N.to_nat (len_of f k) ≤ length (RepairFold.pad n pc)) as Hlb.
  { rewrite <- Hlp, <- Htp at 1. rewrite length_take. lia. }
  destruct (write_slice_file _ _ _ _ _ _ Hw Hfit Hlb) as (c & Hc & Hcl & Hin & Hout).
  split.
  - unfold restored, read_slice_of. apply (read_range_iff fs' _ _ _ _ Hpos). exists c.
    split_and!; [done|lia|done|]. intros j Hj. rewrite Hin by done. unfold pc in Htp |- *. rewrite <- Htp at 1.
    by rewrite lookup_take_lt.
  - intros gj g j Hsj Hne Hr. destruct (slot_range _ _ _ _ Hsj) as (_ & Hg & Hj).
    destruct (decide (join dir (p_filename g) = join dir (p_filename f))) as [Hp|Hp].
    + assert (g = f) as -> by (apply file_by_name; [done..|by apply (ok_paths HS)]).
      assert (j ≠ k) as Hjk by (intros ->; apply Hne; by eapply slot_unique).
      destruct (slice_fits f j Hj) as [Hposj Hfitj]. unfold restored, read_slice_of in *.
      apply (read_range_iff _ _ _ _ _ Hposj) in Hr as (c0 & Hc0 & Hl0 & Hb & Hj0). rewrite Hc0 in Hout, Hcl. simpl in Hout, Hcl.
      apply (read_range_iff _ _ _ _ _ Hposj). exists c. split_and!; [done|lia|done|].
      intros i Hi. rewrite Hj0 by done. symmetry. apply Hout; [unfold len_of in *; lia|].
      destruct (slices_apart j k f Hjk); unfold len_of in *; lia.
    + unfold restored, read_slice_of, read_range in *. by rewrite (write_slice_path _ _ _ _ _ _ _ _ Hw Hp).
Qed.

Lemma write_slices_restore (gs : list nat) : ∀ (t t' : gset str) (fs fs' : FS),
  (∀ gi, gi ∈ gs → gi < total_slices set) →
  (∀ gj g j, slot set gj g j → gj ∉ gs → restored fs g j) →
  write_slices dir set (layout set) ((λ gi, (gi, RepairFold.slice n D gi)) <$> gs) t fs = (fs', Ok t') →
  ∀ gj g j, slot set gj g j → restored fs' g j.
Proof.
  induction gs as [|gi gs IH]; intros t t' fs fs' Hlt Hr; [simpl; intros [= <- <-] gj g j Hs; apply (Hr gj); [done|by intros ?%elem_of_nil]|].
  rewrite fmap_cons. cbn [write_slices]. destruct (slot_exists set gi) as (f & k & Hs); [apply Hlt; by left|].
  rewrite (slot_locate set gi f k Hs). destruct (write_slice _ _ _ _ _ _) as [fs1 ok] eqn:Hw. destruct ok; [|done].
  destruct (write_restores gi f k _ _ _ Hs eq_refl Hw) as [Hown Hkeep].
  apply IH; [intros; apply Hlt; by right|]. intros gj g j Hsj Hout.
  destruct (decide (gj = gi)) as [->|Hne].
  - destruct Hs as (p & Hp & <- & -> & Hk), Hsj as (q & Hq & <- & Hpq & Hj).
    pose proof (place_elem _ _ _ _ Hp) as (_ & Hcp & _). pose proof (place_elem _ _ _ _ Hq) as (_ & Hcq & _).
    assert (q = p) as -> by (apply (place_disjoint ss (files_in_order set) 0 q p (pl_start p + k)); [done..|lia|lia]).
    assert (j = k) as -> by lia. exact Hown.
  - apply (Hkeep gj g j Hsj Hne), (Hr gj g j Hsj). by intros [|]%elem_of_cons.
Qed.

Lemma write_slices_path l : ∀ (t : gset str) (fs fs' : FS) r q,
  (∀ f, f ∈ files_in_order set → (0 < p_size f)%N → q ≠ join dir (p_filename f)) →
  write_slices dir set (layout set) l t fs = (fs', r) → fs_read fs' q = fs_read fs q.
Proof.
  induction l as [|[gi b] l IH]; intros t fs fs' r q Hq; cbn [write_slices]; [by intros [= <- _]|].
  destruct (locate _ _ _) as [[[f off] len]|] eqn:Hl; [|by intros [= <- _]].
  destruct (write_slice _ _ _ _ _ _) as [fs1 ok] eqn:Hw.
  assert (f ∈ files_in_order set ∧ (0 < p_size f)%N) as [Hf Hpos].
  { unfold locate in Hl. destruct (list_find _ _) as [[i p]|] eqn:Hp; [|done]. simpl in Hl. simplify_eq.
    apply list_find_Some in Hp as (Hp & Hr & _). apply list_elem_of_lookup_2 in Hp.
    apply place_elem in Hp as (? & Hc & _). split; [done|].
    assert (0 < slice_count (pl_file p) ss) as Hc0 by lia. apply (slice_count_spec _ ss 0 (ok_slice HS)) in Hc0. lia. }
  pose proof (write_slice_path _ _ _ _ _ _ _ _ Hw (Hq f Hf Hpos)) as E. destruct ok; [|by intros [= <- _]].
  intros Hr. rewrite <- E. by eapply IH.
Qed.

(** What a file has beyond its size. *)
Definition tail_of (fs : FS) (f : Par2File) : bytes :=
  drop (N.to_nat (p_size f)) (default [] (fs_read fs (join dir (p_filename f)))).

Lemma write_slice_tail (f : Par2File) off len b (fs fs' : FS) :
  write_slice dir f off len b fs = (fs', true) → (off + len ≤ p_size f)%N → N.to_nat len ≤ length b →
  tail_of fs' f = tail_of fs f.
Proof.
  intros Hw Hfit Hb. destruct (write_slice_file f off len b fs fs' Hw Hfit Hb) as (c & Hc & Hl & _ & Hout).
  unfold tail_of. rewrite Hc. cbn [default from_option id]. set (old := default [] (fs_read fs _)) in *.
  apply list_eq. intros i. rewrite !lookup_drop. destruct (decide (N.to_nat (p_size f) + i < length old)) as [Hlt|Hge].
  - apply Hout; lia.
  - rewrite !lookup_ge_None_2; [done|lia|lia].
Qed.

(** The slice is as long as what is written of it. *)
Lemma slot_slice_length gi f k : slot set gi f k → N.to_nat (len_of f k) ≤ length (RepairFold.slice n D gi).
Proof.
  intros Hs. destruct (slot_range _ _ _ _ Hs) as (_ & Hf & Hk). unfold RepairFold.slice. rewrite (slot_slice gi f k Hs).
  cbn [default from_option id]. pose proof (length_piece f k Hf Hk) as Hl. unfold RepairFold.pad.
  case_decide; [rewrite length_vec_resize|rewrite length_take]; unfold piece, len_of in *; rewrite ?length_take in *; lia.
Qed.

Lemma write_slices_tail (gs : list nat) g : ∀ (t t' : gset str) (fs fs' : FS),
  (∀ gi, gi ∈ gs → gi < total_slices set) → g ∈ files_in_order set →
  write_slices dir set (layout set) ((λ gi, (gi, RepairFold.slice n D gi)) <$> gs) t fs = (fs', Ok t') →
  tail_of fs' g = tail_of fs g.
Proof.
  induction gs as [|gi gs IH]; intros t t' fs fs' Hlt Hg; [by intros [= <- <-]|].
  rewrite fmap_cons. cbn [write_slices]. destruct (slot_exists set gi) as (f & k & Hs); [apply Hlt; by left|].
  rewrite (slot_locate set gi f k Hs). destruct (write_slice _ _ _ _ _ _) as [fs1 ok] eqn:Hw. destruct ok; [|done].
  intros Hr. rewrite (IH _ _ _ _ ltac:(intros; apply Hlt; by right) Hg Hr). destruct (slot_range _ _ _ _ Hs) as (_ & Hf & Hk).
  destruct (decide (join dir (p_filename g) = join dir (p_filename f))) as [Hp|Hp].
  - assert (g = f) as -> by (apply file_by_name; [done..|by apply (ok_paths HS)]).
    eapply write_slice_tail; [exact Hw|apply (slice_fits f k Hk)|by eapply slot_slice_length].
  - unfold tail_of. by rewrite (write_slice_path _ _ _ _ _ _ _ _ Hw Hp).
Qed.

(** A file whose slices are all in place holds its bytes. *)
Lemma restored_file (fs : FS) f :
  f ∈ files_in_order set → (0 < p_size f)%N → (∀ k, k < slice_count f ss → restored fs f k) →
  fs_read fs (join dir (p_filename f)) = Some (original (p_filename f) ++ tail_of fs f).
Proof.
  intros Hf Hpos Hall.
  enough (∃ c, fs_read fs (join dir (p_filename f)) = Some c ∧ take (N.to_nat (p_size f)) c = original (p_filename f))
    as (c & Hc & <-) by (unfold tail_of; rewrite Hc; cbn [default from_option id]; by rewrite take_drop).
  assert (∀ k, k < slice_count f ss → ∃ c, fs_read fs (join dir (p_filename f)) = Some c ∧
    ∀ i, i < N.to_nat (len_of f k) → c !! (k * n + i) = original (p_filename f) !! (k * n + i) ∧ k * n + i < length c) as Hk.
  { intros k Hk. destruct (slice_fits f k Hk) as [Hp Hfit]. specialize (Hall k Hk). unfold restored, read_slice_of in Hall.
    apply (read_range_iff _ _ _ _ _ Hp) in Hall as (c & Hc & Hlc & Hlp & Hj). exists c. split; [done|]. intros i Hi.
    assert (N.to_nat (N.of_nat k * ss) = k * n) as Ek by (rewrite N2Nat.inj_mul, Nat2N.id; done).
    rewrite Ek in Hj. rewrite <- (Hj i) by done. unfold piece. unfold len_of in Hi.
    rewrite lookup_take_lt, lookup_drop by lia. split; [done|]. unfold len_of in Hlc. lia. }
  assert (0 < slice_count f ss) as H0 by (apply (slice_count_spec f ss 0 (ok_slice HS)); lia).
  destruct (Hk 0 H0) as (c & Hc & _). exists c. split; [done|].
  assert (∀ i, i < N.to_nat (p_size f) → c !! i = original (p_filename f) !! i ∧ i < length c) as Hi.
  { intros i Hi. pose proof (ok_slice HS) as Hss. assert (n ≠ 0) as Hn by lia.
    pose proof (Nat.div_mod_eq i n) as Ed. pose proof (Nat.mod_upper_bound i n Hn) as Hm.
    assert (N.of_nat (i / n) * ss = N.of_nat (i / n * n))%N as Eq by (by rewrite Nat2N.inj_mul, N2Nat.id).
    assert (N.of_nat (i / n) * ss ≤ N.of_nat i)%N as Hle by (rewrite Eq; lia).
    assert (i / n < slice_count f ss) as Hq by (apply (slice_count_spec f ss _ (ok_slice HS)); lia).
    destruct (Hk _ Hq) as (c' & Hc' & Hb). rewrite Hc in Hc'. injection Hc' as <-.
    rewrite Ed. rewrite (Nat.mul_comm n). apply Hb. unfold len_of.
    rewrite Eq. lia. }
  apply list_eq. intros i. destruct (decide (i < N.to_nat (p_size f))) as [Hlt|Hge].
  - rewrite lookup_take_lt by done. by apply Hi.
  - rewrite !lookup_ge_None_2; [done| |rewrite length_take; lia]. rewrite (ok_sizes HS f Hf). lia.
Qed.

(** *** The solve *)
Lemma write_slices_errors (gs : list nat) : ∀ (t : gset str) (fs fs' : FS) e,
  (∀ gi, gi ∈ gs → gi < total_slices set) →
  write_slices dir set (layout set) ((λ gi, (gi, RepairFold.slice n D gi)) <$> gs) t fs = (fs', Err e) → e = Io.
Proof.
  induction gs as [|gi gs IH]; intros t fs fs' e Hlt; [done|]. rewrite fmap_cons. cbn [write_slices].
  destruct (slot_exists set gi) as (f & k & Hs); [apply Hlt; by left|]. rewrite (slot_locate set gi f k Hs).
  destruct (write_slice _ _ _ _ _ _) as [fs1 []]; [|by intros [= _ <-]]. apply IH. intros. apply Hlt. by right.
Qed.

(** Outside [damaged] the disk has the slices of the set. *)
Definition sound_outside (damaged : list nat) (fs : FS) : Prop :=
  ∀ gi f k, slot set gi f k → gi ∉ damaged → restored fs f k.

Definition guarded (damaged : list nat) (fs : FS) (gi : nat) : Prelude.result string bytes :=
  if decide (gi ∈ damaged) then Err ""%string else read_slice dir set (layout set) fs gi.

Lemma guarded_good damaged (fs : FS) : sound_outside damaged fs → RepairFold.good_read n D (guarded damaged fs).
Proof.
  intros Hs gi b. unfold guarded. case_decide as Hd; [done|]. destruct (decide (gi < total_slices set)) as [Hlt|Hge].
  - destruct (slot_exists set gi Hlt) as (f & k & Hk). rewrite (read_slice_slot fs gi f k Hk) by (by apply (Hs gi)).
    intros [= <-]. by apply slot_slice.
  - unfold read_slice. by rewrite locate_None by lia.
Qed.

Lemma feed_missing_restore (f f' : RepairFold.RepairFold G) damaged (fs : FS) r :
  RepairFold.sound n D f → sound_outside damaged fs →
  RepairFold.feed_missing f damaged (read_slice dir set (layout set) fs) = (f', r) → RepairFold.sound n D f'.
Proof.
  intros Hf Hs Hr. rewrite (feed_missing_ext f damaged _ (guarded damaged fs)) in Hr.
  - pose proof (RepairFold.feed_missing_sound n D slices_sized f damaged _ Hf (guarded_good damaged fs Hs)) as H'.
    by rewrite Hr in H'.
  - intros i Hi. unfold guarded. by rewrite decide_False.
Qed.

Lemma solve_extending_restore (f f' : RepairFold.RepairFold G) damaged (fs : FS) recovery out :
  RepairFold.sound n D f → sound_outside damaged fs → RepairFold.good_recovery n D recovery →
  solve_extending f damaged recovery (read_slice dir set (layout set) fs) = (f', Ok out) →
  out = (λ gi, (gi, RepairFold.slice n D gi)) <$> damaged ∧ ∀ gi, gi ∈ damaged → gi < total_slices set.
Proof.
  intros Hf Hs Hrec Hrun.
  enough (RepairFold.sound n D f' ∧ RepairFold.solve f' damaged recovery = Ok out) as [Hf' Hok].
  { split; [exact (RepairFold.solve_sound n D slices_sized f' recovery damaged out Hf' Hrec Hok)|].
    rewrite <- length_slices, <- (RepairFold.shape_fed _ _ _ (RepairFold.sound_shape _ _ _ Hf')). by eapply solve_Ok. }
  unfold solve_extending in Hrun. destruct (RepairFold.solve f damaged recovery) as [o|e] eqn:Hsolve; [by simplify_eq|].
  destruct e as [| | |needed usable| | |]; try done. case_decide; [|done].
  rewrite (extend_rows_ext _ _ _ (guarded damaged fs)) in Hrun.
  - destruct (RepairFold.extend_rows _ _ _) as [f1 [k|e1]] eqn:Hext; [|done].
    pose proof (RepairFold.extend_rows_sound n D slices_sized f (present f recovery (needed - usable)) _ Hf
      (guarded_good damaged fs Hs)) as H'.
    rewrite Hext in H'. by simplify_eq.
  - intros i Hi. unfold guarded. rewrite decide_False; [done|]. intros Hd.
    by rewrite (solve_NotEnough _ _ _ _ _ Hsolve i Hd) in Hi.
Qed.

(** A repair that succeeds leaves the files of the set as they should be, and no
    other file is touched; one that fails before it writes changes nothing. *)
Lemma fold_repair_restores v (f f' : RepairFold.RepairFold G) (fs fs' : FS) r :
  RepairFold.sound n D f →
  RepairFold.good_recovery n D (recovery_map (load_recovery_blocks fs dir set)) →
  sound_outside (damaged_indices (layout set) v) fs →
  repair_from_fold load_recovery_blocks dir set v f fs = (f', fs', r) →
  (∀ q, (∀ g, g ∈ files_in_order set → (0 < p_size g)%N → q ≠ join dir (p_filename g)) → fs_read fs' q = fs_read fs q) ∧
  match r with
  | Ok report =>
    (∀ g, g ∈ files_in_order set → (0 < p_size g)%N →
       fs_read fs' (join dir (p_filename g)) = Some (original (p_filename g) ++ tail_of fs g)) ∧
    blocks_repaired report = as_u32 (length (damaged_indices (layout set) v))
  | Err Io => True
  | Err _ => fs' = fs
  end.
Proof.
  intros Hf Hrec Hs. unfold repair_from_fold. case_decide; [by intros [= <- <- <-]|].
  set (damaged := damaged_indices (layout set) v) in *.
  pose proof (RepairFold.abandon_growth_sound n D f Hf) as Ha. set (fa := RepairFold.abandon_growth f) in *.
  destruct (RepairFold.feed_missing _ _ _) as [f1 [k|e]] eqn:Hfeed; [|by intros [= <- <- <-]].
  pose proof (feed_missing_restore _ _ _ _ _ Ha Hs Hfeed) as H1.
  destruct (solve_extending _ _ _ _) as [f2 [out|e]] eqn:Hsolve; [|by intros [= <- <- <-]].
  destruct (solve_extending_restore _ _ _ _ _ _ H1 Hs Hrec Hsolve) as [-> Hlt].
  destruct (write_slices _ _ _ _ _ _) as [fs2 [t|e]] eqn:Hw; cbn [mbind result_bind]; intros [= <- <- <-].
  - split; [intros q Hq; by eapply write_slices_path|]. split; [|cbn [blocks_repaired]; by rewrite length_fmap].
    intros g Hg Hpos. rewrite <- (write_slices_tail _ g _ _ _ _ Hlt Hg Hw).
    apply restored_file; [done..|]. intros j Hj. destruct (slot_of set g j Hg Hj) as (gi & Hgi).
    eapply write_slices_restore; [exact Hlt|exact Hs|exact Hw|exact Hgi].
  - split; [intros q Hq; by eapply write_slices_path|]. by rewrite (write_slices_errors _ _ _ _ _ Hlt Hw).
Qed.

(** *** After a verification *)
Context (digest : N → bytes → SliceDigest).
Context (par2_verify : Par2FileSet → str → FS → VerifyResult) (blocks_needed : VerifyResult → N).
Context `{PV : !Par2Verify digest par2_verify blocks_needed}.

(** The digests of the set single out its slices. *)
Definition genuine : Prop := ∀ f k b,
  f ∈ files_in_order set → k < slice_count f ss → length b = N.to_nat (len_of f k) →
  p_slices f !! k = Some (digest ss b) → b = piece ss (original (p_filename f)) k.

Lemma slice_ok_restored (fs : FS) f k :
  genuine → f ∈ files_in_order set → k < slice_count f ss → slice_ok digest dir fs ss f k = true → restored fs f k.
Proof.
  intros Hg Hf Hk. unfold slice_ok, restored. destruct (read_slice_of dir fs ss f k) as [b|] eqn:Hb; [|done].
  intros Hd%bool_decide_eq_true. f_equal. apply (Hg f k b Hf Hk); [|done].
  destruct (slice_fits f k Hk) as [Hpos _].
  by apply (read_range_iff _ _ _ _ _ Hpos) in Hb as (c & _ & _ & Hl & _).
Qed.

Lemma find_placed_slot p : p ∈ layout set → find_placed (p_filename (pl_file p)) (layout set) = Some p.
Proof.
  intros Hp. unfold find_placed. destruct (list_find _ _) as [[i q]|] eqn:Hf.
  - apply list_find_Some in Hf as (Hq & Hn & _). simpl. f_equal.
    apply list_elem_of_lookup in Hp as (j & Hj). enough (i = j) by (subst; congruence).
    apply (NoDup_lookup _ i j (p_filename (pl_file p)) (ok_names HS));
      rewrite <- (place_files ss 0 (files_in_order set)); fold (layout set); rewrite !list_lookup_fmap;
      [by rewrite Hq; simpl; rewrite Hn|by rewrite Hj].
  - apply list_find_None in Hf. rewrite Forall_forall in Hf. by destruct (Hf p Hp).
Qed.

Lemma reported_damaged v gi f k :
  (N.of_nat (total_slices set) ≤ 2 ^ 32)%N → slot set gi f k → reported v f k → gi ∈ damaged_indices (layout set) v.
Proof.
  intros Hsm Hs Hrep. pose proof (slot_range _ _ _ _ Hs) as (Hlt & _ & _).
  destruct Hs as (p & Hp & <- & -> & Hk). pose proof (place_elem _ _ _ _ Hp) as (_ & Hc & _).
  unfold damaged_indices. apply elem_of_sort_dedup; [apply _..|]. apply elem_of_app.
  destruct Hrep as [(d & Hd & Hn & Hi)|(m & Hm & Hn)]; [left|right]; apply list_elem_of_bind.
  - exists d. split; [|done]. unfold damaged_slices. rewrite Hn, (find_placed_slot p Hp).
    destruct Hi as [->|Hi]; [apply elem_of_seq; lia|]. destruct (df_indices d) as [|x l] eqn:Hl; [by apply elem_of_nil in Hi|].
    rewrite <- Hl in *. apply list_elem_of_fmap. exists (as_u32 k). split; [|done].
    unfold as_u32. rewrite N.mod_small by lia. lia.
  - exists m. split; [|done]. unfold missing_slices. rewrite Hn, (find_placed_slot p Hp). apply elem_of_seq. lia.
Qed.

Lemma verified_outside map (fs : FS) :
  NoDup (file_order set) → (N.of_nat (total_slices set) ≤ 2 ^ 32)%N → genuine →
  (∀ m, map = Some m → each_file ss (never_lenient digest dir fs ss) (sm_states m) 0 (ordered_files set)) →
  sound_outside (damaged_indices (layout set) (result (verify_set par2_verify blocks_needed dir fs set map))) fs.
Proof.
  intros Hnd Hsm Hg Hmap gi f k Hs Hout. destruct (slot_range _ _ _ _ Hs) as (_ & Hf & Hk).
  apply slice_ok_restored; [done..|]. apply (verify_set_covers digest par2_verify blocks_needed dir fs set map f k); [done..|].
  intros Hrep. apply Hout. by eapply reported_damaged.
Qed.

(** Nothing reported: every file is as it should be. *)
Lemma nothing_reported_files map (fs : FS) :
  NoDup (file_order set) → genuine →
  (∀ m, map = Some m → each_file ss (never_lenient digest dir fs ss) (sm_states m) 0 (ordered_files set)) →
  let v := result (verify_set par2_verify blocks_needed dir fs set map) in
  damaged v = [] → missing v = [] → ∀ f, f ∈ files_in_order set → (0 < p_size f)%N →
  fs_read fs (join dir (p_filename f)) = Some (original (p_filename f) ++ tail_of fs f).
Proof.
  intros Hnd Hg Hmap v Hd Hm f Hf Hpos. apply restored_file; [done..|]. intros k Hk. apply slice_ok_restored; [done..|].
  apply (verify_set_covers digest par2_verify blocks_needed dir fs set map f k); [done..|].
  fold v. intros [(x & Hx & _)|(x & Hx & _)]; [rewrite Hd in Hx|rewrite Hm in Hx]; by apply elem_of_nil in Hx.
Qed.
End restore.
