(* ===== verification/Detect.v ===== *)
(** * What lies in the folder of a finished download

    [crates/nzb-postproc/src/detect.rs]: PAR2 files, archives and their first
    volumes, the files a cleanup may delete. A folder tree is a map from paths,
    lists of components, to the bytes of the regular files; [walk] lists those
    beneath a folder. The order of a directory walk is that of the map: what is
    found is sorted. Names are folded by the ASCII letters. *)
From S2P Require Import Prelude Str.

Abbreviation Path := (list str).
Abbreviation Tree := (gmap (list str) bytes).

Definition beneath (dir p : Path) : Prop := dir `prefix_of` p ∧ length dir < length p.
#[export] Instance beneath_dec dir p : Decision (beneath dir p).
Proof. unfold beneath. apply _. Defined.

(** [WalkDir::new(dir)], the regular files of it. *)
Definition walk (t : Tree) (dir : Path) : list Path := filter (beneath dir) (map_to_list t).*1.

(** Paths in order, component by component. *)
Fixpoint path_leb (a b : Path) : bool :=
  match a, b with
  | [], _ => true
  | _, [] => false
  | x :: a', y :: b' => if decide (x = y) then path_leb a' b' else str_leb x y
  end.
Definition path_le (a b : Path) : Prop := path_leb a b = true.
#[export] Instance path_le_dec : RelDecision path_le.
Proof. intros a b. unfold path_le. apply _. Defined.
Definition sort_paths (l : list Path) : list Path := merge_sort path_le l.

Definition file_name (p : Path) : option str := last p.
Definition name_lower (p : Path) : str := to_ascii_lowercase (default [] (file_name p)).

(** ** RAR volumes *)
Definition RAR4_SIGNATURE : bytes := byte_of <$> lit "Rar!" ++ [0x1a; 7; 0]%N.
Definition RAR5_SIGNATURE : bytes := byte_of <$> lit "Rar!" ++ [0x1a; 7; 1; 0]%N.

Definition has_rar_signature (t : Tree) (p : Path) : bool :=
  match t !! p with
  | None => false
  | Some c => let head := take (length RAR5_SIGNATURE) c in
              bool_decide (RAR4_SIGNATURE `prefix_of` head ∨ RAR5_SIGNATURE `prefix_of` head)
  end.

Definition all_digits (s : str) : bool := forallb is_ascii_digit s.
Definition parse_u32 : str → option N := parse_uint u32_max.

Definition split_numeric_volume (name : str) : option (str * N) :=
  dot ← rfind_sub (lit ".") name;
  let ext := drop (dot + 1) name in
  if bool_decide (ext = []) || negb (all_digits ext) then None
  else
    let stem := take dot name in
    if ends_with (lit ".7z") (to_ascii_lowercase stem) then None
    else pair stem <$> parse_u32 ext.

Record RarVolumeInfo := { set_name : str; volume_number : N }.
#[export] Instance RarVolumeInfo_eq_dec : EqDecision RarVolumeInfo.
Proof. solve_decision. Defined.

Definition strip_suffix (suffix s : str) : option str :=
  if ends_with suffix s then Some (take (length s - length suffix) s) else None.

(** The number in [stem.partNNN], and where [.part] begins. *)
Definition part_number (stem : str) : option (nat * N) :=
  dot ← rfind_sub (lit ".part") stem;
  let num := drop (dot + 5) stem in
  if negb (bool_decide (num = [])) && all_digits num then pair dot <$> parse_u32 num else None.

Definition is_volume_letter (c : N) : bool := bool_decide (114 ≤ c ≤ 122)%N.

Definition parse_rar_volume (filename : str) : option RarVolumeInfo :=
  let lower := to_ascii_lowercase filename in
  match strip_suffix (lit ".rar") lower with
  | Some stem =>
    match part_number stem with
    | Some (dot, part_num) => Some {| set_name := take dot filename; volume_number := part_num - 1 |}
    | None => Some {| set_name := take (length filename - 4) filename; volume_number := 0 |}
    end
  | None =>
    if decide (4 < length lower) then
      match drop (length lower - 4) lower with
      | [dot; letter; tens; ones] =>
        if bool_decide (dot = 46%N) && is_volume_letter letter && is_ascii_digit tens && is_ascii_digit ones then
          Some {| set_name := take (length filename - 4) filename;
                  volume_number := (letter - 114) * 100 + (tens - 48) * 10 + (ones - 48) + 1 |}
        else None
      | _ => None
      end
    else None
  end.

Definition parse_rar_volume_at (t : Tree) (p : Path) : option RarVolumeInfo :=
  name ← file_name p;
  match parse_rar_volume name with
  | Some info => Some info
  | None =>
    '(set, num) ← split_numeric_volume name;
    if has_rar_signature t p then Some {| set_name := set; volume_number := num |} else None
  end.

(** ** PAR2 files *)

(** [trim_end_matches] *)
Fixpoint trim_suffix (fuel : nat) (suffix s : str) : str :=
  match fuel, strip_suffix suffix s with
  | S fuel', Some s' => trim_suffix fuel' suffix s'
  | _, _ => s
  end.

Definition is_separator (c : N) : bool := bool_decide (c = 43 ∨ c = 45)%N.

Definition is_par2_volume (name : str) : bool :=
  let without_ext := trim_suffix (length name) (lit ".par2") name in
  match rfind_sub (lit ".vol") without_ext with
  | None => false
  | Some pos =>
    let after := drop (pos + 4) without_ext in
    match list_find (λ c, is_separator c = true) after with
    | None => false
    | Some (k, _) =>
      let before := take k after in let rest := drop (k + 1) after in
      negb (bool_decide (before = [])) && all_digits before && negb (bool_decide (rest = [])) && all_digits rest
    end
  end.

Definition find_par2_files (t : Tree) (dir : Path) : list Path :=
  let par2 := filter (λ p, ends_with (lit ".par2") (name_lower p) = true) (walk t dir) in
  sort_paths (filter (λ p, is_par2_volume (name_lower p) = false) par2) ++
  sort_paths (filter (λ p, is_par2_volume (name_lower p) = true) par2).

(** ** Archives *)
Inductive ArchiveType := Rar | SevenZip | Tar | Zip.
#[export] Instance ArchiveType_eq_dec : EqDecision ArchiveType.
Proof. solve_decision. Defined.

(** One file of the walk: first volumes are collected, of each set of numbered
    volumes the lowest. *)
Definition rar_step (t : Tree) (s : list Path * gmap str (N * Path)) (p : Path) : list Path * gmap str (N * Path) :=
  let name := name_lower p in
  match strip_suffix (lit ".rar") name with
  | Some stem =>
    match part_number stem with
    | Some (_, part_num) => if decide (part_num = 1)%N then (s.1 ++ [p], s.2) else s
    | None => (s.1 ++ [p], s.2)
    end
  | None =>
    match parse_rar_volume name, split_numeric_volume name with
    | None, Some (set, num) =>
      if has_rar_signature t p then
        (s.1, <[set := match s.2 !! set with
                       | Some (lowest, q) => if decide (num < lowest)%N then (num, p) else (lowest, q)
                       | None => (num, p)
                       end]> s.2)
      else s
    | _, _ => s
    end
  end.

Definition find_rar_files (t : Tree) (dir : Path) : list Path :=
  let '(first_volumes, numeric_sets) := foldl (rar_step t) ([], ∅) (walk t dir) in
  sort_paths (first_volumes ++ ((λ kv : str * (N * Path), kv.2.2) <$> map_to_list numeric_sets)).

Definition is_split_7z_first_volume (name : str) : bool :=
  match strip_suffix (lit ".001") name with Some stem => ends_with (lit ".7z") stem | None => false end.

Definition is_split_7z_volume (name : str) : bool :=
  match rfind_sub (lit ".") name with
  | None => false
  | Some dot =>
    let ext := drop (dot + 1) name in
    negb (bool_decide (ext = [])) && all_digits ext && ends_with (lit ".7z") (take dot name)
  end.

Definition archive_type (name : str) : option ArchiveType :=
  if ends_with (lit ".7z") name || ends_with (lit ".7z.enc") name then Some SevenZip
  else if is_split_7z_first_volume name then Some SevenZip
  else if ends_with (lit ".tar") name then Some Tar
  else if ends_with (lit ".zip") name then Some Zip else None.

Definition archive_le (a b : ArchiveType * Path) : Prop := path_le a.2 b.2.
#[export] Instance archive_le_dec : RelDecision archive_le.
Proof. intros a b. unfold archive_le. apply _. Defined.

Definition find_archives (t : Tree) (dir : Path) : list (ArchiveType * Path) :=
  merge_sort archive_le
    ((pair Rar <$> find_rar_files t dir) ++
     omap (λ p, (λ ty, (ty, p)) <$> archive_type (name_lower p)) (walk t dir)).

(** ** What a cleanup may delete *)
Definition is_cleanup_candidate (name : str) : bool :=
  ends_with (lit ".par2") name || ends_with (lit ".zip") name || ends_with (lit ".7z") name ||
  ends_with (lit ".tar") name || ends_with (lit ".rar") name || is_split_7z_volume name || ends_with (lit ".7z.enc") name.

(** The entries of the folder a path is in. *)
Definition siblings (t : Tree) (p : Path) : list Path :=
  filter (λ q, length q = length p ∧ removelast q = removelast p) (map_to_list t).*1.

Definition has_rar_first_volume (t : Tree) (p : Path) (set : str) : bool :=
  existsb (λ q, let name := name_lower q in
    ends_with (lit ".rar") name && match parse_rar_volume name with Some info => bool_decide (set_name info = set) | None => false end)
    (siblings t p).

Definition is_cleanup_candidate_at (t : Tree) (p : Path) (name : str) : bool :=
  if is_cleanup_candidate name then true
  else match (if ends_with (lit ".rar") name then None else parse_rar_volume name) with
       | Some info => has_rar_first_volume t p (set_name info) || has_rar_signature t p
       | None => bool_decide (is_Some (split_numeric_volume name)) && has_rar_signature t p
       end.

Definition find_cleanup_files (t : Tree) (dir : Path) : list Path :=
  sort_paths (filter (λ p, is_cleanup_candidate_at t p (name_lower p) = true) (walk t dir)).

(** [None] where the folder cannot be read. *)
Definition has_usable_output (t : Tree) (dir : Path) (readable : bool) : option bool :=
  if existsb (λ p, negb (is_cleanup_candidate_at t p (name_lower p))) (walk t dir) then Some true
  else if readable then Some false else None.

(** ** Every archive found is one a cleanup may delete *)
Lemma strip_suffix_Some suffix s stem : strip_suffix suffix s = Some stem → ends_with suffix s = true ∧ s = stem ++ suffix.
Proof.
  unfold strip_suffix. destruct (ends_with suffix s) eqn:E; [|done]. intros [= <-]. split; [done|].
  unfold ends_with in E. apply starts_with_spec in E as [u E]. apply (f_equal reverse) in E.
  rewrite reverse_involutive, reverse_app, reverse_involutive in E. rewrite E at 2. rewrite E, length_app.
  replace (length (reverse u) + length suffix - length suffix) with (length (reverse u)) by lia. by rewrite take_app_length.
Qed.

Lemma ends_with_suffix suffix s : ends_with suffix (s ++ suffix) = true.
Proof. unfold ends_with. apply starts_with_spec. exists (reverse s). by rewrite reverse_app. Qed.

Lemma ends_with_spec suffix s : ends_with suffix s = true ↔ ∃ u, s = u ++ suffix.
Proof.
  split; [|intros [u ->]; apply ends_with_suffix].
  unfold ends_with. intros [u E]%starts_with_spec. exists (reverse u). apply (f_equal reverse) in E.
  by rewrite reverse_involutive, reverse_app, reverse_involutive in E.
Qed.

(** What the walk has collected: files of it that may be deleted. *)
Definition deletable (t : Tree) (w : list Path) (p : Path) : Prop :=
  p ∈ w ∧ is_cleanup_candidate_at t p (name_lower p) = true.
Definition collected (t : Tree) (w : list Path) (s : list Path * gmap str (N * Path)) : Prop :=
  Forall (deletable t w) s.1 ∧ map_Forall (λ _ np, deletable t w np.2) s.2.

Lemma rar_step_collected t w s p : p ∈ w → collected t w s → collected t w (rar_step t s p).
Proof.
  intros Hw [H1 H2]. unfold rar_step. destruct (strip_suffix (lit ".rar") (name_lower p)) as [stem|] eqn:Hr.
  - apply strip_suffix_Some in Hr as [Hr _].
    assert (deletable t w p) as Hp.
    { split; [done|]. unfold is_cleanup_candidate_at, is_cleanup_candidate. rewrite Hr, !orb_true_r. done. }
    assert (collected t w (s.1 ++ [p], s.2)) by (split; [apply Forall_app; split; [done|by constructor]|done]).
    destruct (part_number stem) as [[? num]|]; [case_decide|]; done.
  - destruct (parse_rar_volume (name_lower p)) as [|] eqn:Hv; [done|].
    destruct (split_numeric_volume (name_lower p)) as [[set num]|] eqn:Hn; [|done].
    destruct (has_rar_signature t p) eqn:Hs; [|done]. split; [done|]. simpl.
    assert (deletable t w p) as Hp.
    { split; [done|]. unfold is_cleanup_candidate_at. rewrite Hv, Hn, Hs. destruct (is_cleanup_candidate _); [done|].
      by destruct (ends_with (lit ".rar") (name_lower p)). }
    apply map_Forall_insert_2; [|done]. destruct (s.2 !! set) as [[lowest q]|] eqn:Hq; [|done].
    case_decide; [done|]. exact (H2 _ _ Hq).
Qed.

Lemma rar_files_deletable t dir p : p ∈ find_rar_files t dir → deletable t (walk t dir) p.
Proof.
  unfold find_rar_files. assert (collected t (walk t dir) (foldl (rar_step t) ([], ∅) (walk t dir))) as Hc.
  { assert (∀ l s, (∀ q, q ∈ l → q ∈ walk t dir) → collected t (walk t dir) s →
      collected t (walk t dir) (foldl (rar_step t) s l)) as Hl.
    { induction l as [|q l IH]; intros s Hin Hs; [done|]. apply IH; [intros; apply Hin; by right|].
      apply rar_step_collected; [apply Hin; by left|done]. }
    apply Hl; [done|]. split; [constructor|apply map_Forall_empty]. }
  destruct (foldl _ _ _) as [first sets]. destruct Hc as [H1 H2]. simpl in *. unfold sort_paths.
  rewrite merge_sort_Permutation, elem_of_app. intros [Hp|Hp]; [rewrite Forall_forall in H1; by apply H1|].
  apply list_elem_of_fmap in Hp as ([k np] & -> & Hk%elem_of_map_to_list). exact (H2 _ _ Hk).
Qed.

Lemma archive_type_candidate name : is_Some (archive_type name) → is_cleanup_candidate name = true.
Proof.
  unfold archive_type, is_cleanup_candidate.
  destruct (ends_with (lit ".7z") name) eqn:E1; [intros _; by rewrite !orb_true_r|].
  destruct (ends_with (lit ".7z.enc") name) eqn:E2; [intros _; by rewrite !orb_true_r|]. simpl.
  destruct (is_split_7z_first_volume name) eqn:E3.
  { intros _. assert (is_split_7z_volume name = true) as ->; [|by rewrite !orb_true_r].
    unfold is_split_7z_first_volume in E3. destruct (strip_suffix (lit ".001") name) as [stem|] eqn:Hs; [|done].
    apply strip_suffix_Some in Hs as [_ ->]. unfold is_split_7z_volume.
    rewrite (rfind_sub_at (lit ".") _ (length stem)).
    - rewrite take_app_length, drop_app_add. by rewrite E3.
    - rewrite length_app. lia.
    - by rewrite drop_app_length.
    - intros j Hj Hl. rewrite length_app in Hl. simpl in Hl. rewrite drop_app_ge by lia.
      by destruct (j - length stem) as [|[|[|[|[|?]]]]] eqn:E; [lia|..]. }
  destruct (ends_with (lit ".tar") name); [intros _; by rewrite !orb_true_r|].
  destruct (ends_with (lit ".zip") name); [intros _; by rewrite !orb_true_r|]. by intros [? ?].
Qed.

(** Every archive that will be extracted is among the files a cleanup may
    delete. *)
Theorem archives_are_cleaned t dir ty p : (ty, p) ∈ find_archives t dir → p ∈ find_cleanup_files t dir.
Proof.
  unfold find_archives, find_cleanup_files, sort_paths. rewrite !merge_sort_Permutation, elem_of_app.
  rewrite list_elem_of_filter.
  intros [(q & [= -> ->] & Hq)%list_elem_of_fmap|(q & Hq & Ht)%list_elem_of_omap].
  - destruct (rar_files_deletable t dir q Hq). done.
  - apply fmap_Some in Ht as (ty' & Ht & [= -> ->]). split; [|done].
    unfold is_cleanup_candidate_at. by rewrite archive_type_candidate by done.
Qed.

(** ** Volume names *)

(** The suffix of the volume [k] of a set in the old style, from [.r00] on. *)
Definition old_suffix (k : N) : str := [46; 114 + (k - 1) / 100; 48 + ((k - 1) / 10) `mod` 10; 48 + (k - 1) `mod` 10]%N.

Lemma lower_length s : length (to_ascii_lowercase s) = length s.
Proof. apply length_map. Qed.
Lemma lower_id s : Forall (λ c, (c < 65 ∨ 90 < c)%N) s → to_ascii_lowercase s = s.
Proof.
  induction 1 as [|c s Hc _ IH]; [done|]. cbn [to_ascii_lowercase map]. unfold to_ascii_lowercase in IH. rewrite IH.
  unfold to_ascii_lowercase_char. by rewrite bool_decide_eq_false_2 by lia.
Qed.
Lemma ends_with_last p c s d : c ≠ d → ends_with (p ++ [c]) (s ++ [d]) = false.
Proof.
  intros Hne. unfold ends_with. rewrite !reverse_app. simpl. by rewrite bool_decide_eq_false_2.
Qed.

Lemma old_suffix_digits k :
  (1 ≤ k ≤ 900)%N → ∃ a b c, old_suffix k = [46; 114 + a; 48 + b; 48 + c]%N ∧ (a ≤ 8)%N ∧ (b < 10)%N ∧ (c < 10)%N ∧
    k = (a * 100 + b * 10 + c + 1)%N.
Proof.
  intros Hk. eexists _, _, _. split; [reflexivity|].
  pose proof (N.mod_upper_bound (k - 1) 10 ltac:(lia)) as H1. pose proof (N.mod_upper_bound ((k - 1) / 10) 10 ltac:(lia)) as H2.
  pose proof (N.div_mod (k - 1) 10 ltac:(lia)) as E1. pose proof (N.div_mod ((k - 1) / 10) 10 ltac:(lia)) as E2.
  rewrite N.Div0.div_div in E2. change (10 * 10)%N with 100%N in E2.
  generalize dependent ((k - 1) / 100)%N. generalize dependent (((k - 1) / 10) `mod` 10)%N.
  generalize dependent ((k - 1) `mod` 10)%N. generalize dependent ((k - 1) / 10)%N. intros. split_and!; lia.
Qed.

(** Volumes of the old style are told apart: set and number are read back. *)
Theorem old_volume_roundtrip set k :
  set ≠ [] → (1 ≤ k ≤ 900)%N → parse_rar_volume (set ++ old_suffix k) = Some {| set_name := set; volume_number := k |}.
Proof.
  intros Hset Hk. unfold parse_rar_volume. rewrite lower_app.
  destruct (old_suffix_digits k Hk) as (a & b & c & -> & Ha & Hb & Hc & ->).
  rewrite (lower_id [_; _; _; _]) by (repeat (apply Forall_cons_2; [lia|]); constructor).
  assert (strip_suffix (lit ".rar") (to_ascii_lowercase set ++ [46; 114 + a; 48 + b; 48 + c]%N) = None) as ->.
  { unfold strip_suffix. replace (to_ascii_lowercase set ++ [46; 114 + a; 48 + b; 48 + c]%N) with
      ((to_ascii_lowercase set ++ [46; 114 + a; 48 + b]%N) ++ [48 + c]%N) by (by rewrite <- app_assoc).
    change (lit ".rar") with (lit ".ra" ++ [114]%N). rewrite ends_with_last; [done|]. lia. }
  rewrite !length_app, lower_length. cbn [length].
  destruct set as [|x set]; [done|]. rewrite decide_True by (simpl; lia).
  replace (length (x :: set) + 4 - 4) with (length (to_ascii_lowercase (x :: set))) by (rewrite lower_length; lia).
  rewrite drop_app_length, lower_length, take_app_length.
  unfold is_volume_letter, is_ascii_digit. rewrite !bool_decide_eq_true_2 by lia. simpl andb. cbv iota.
  do 2 f_equal. lia.
Qed.

(** Volumes of the new style, with any digits that make a number. *)
Theorem new_volume_roundtrip set ds v :
  ds ≠ [] → all_digits ds = true → parse_u32 ds = Some v →
  parse_rar_volume (set ++ lit ".part" ++ ds ++ lit ".rar") = Some {| set_name := set; volume_number := v - 1 |}.
Proof.
  intros Hne Hds Hv. unfold parse_rar_volume.
  assert (to_ascii_lowercase ds = ds) as Hlow.
  { apply lower_id, Forall_forall. intros c Hc. apply list_elem_of_In in Hc. unfold all_digits in Hds.
    rewrite forallb_forall in Hds. specialize (Hds c Hc). apply bool_decide_eq_true in Hds. lia. }
  rewrite !lower_app, Hlow. change (to_ascii_lowercase (lit ".part")) with (lit ".part").
  change (to_ascii_lowercase (lit ".rar")) with (lit ".rar").
  set (stem := to_ascii_lowercase set ++ lit ".part" ++ ds).
  assert (strip_suffix (lit ".rar") (to_ascii_lowercase set ++ lit ".part" ++ ds ++ lit ".rar") = Some stem) as ->.
  { replace (to_ascii_lowercase set ++ lit ".part" ++ ds ++ lit ".rar") with (stem ++ lit ".rar").
    - unfold strip_suffix. rewrite ends_with_suffix, length_app, Nat.add_sub, take_app_length. done.
    - unfold stem. by rewrite <- !app_assoc. }
  assert (part_number stem = Some (length (to_ascii_lowercase set), v)) as ->.
  { unfold part_number, stem. rewrite (rfind_sub_at (lit ".part") _ (length (to_ascii_lowercase set))).
    - cbn [mbind option_bind]. rewrite drop_app_add. change (drop 5 (lit ".part" ++ ds)) with ds.
      rewrite bool_decide_eq_false_2 by done. simpl. by rewrite Hds, Hv.
    - rewrite length_app. lia.
    - rewrite drop_app_length. apply starts_with_spec. by exists ds.
    - intros j Hj Hl. rewrite drop_app_ge by lia. destruct (starts_with _ _) eqn:Hs; [|done]. exfalso.
      apply starts_with_spec in Hs as [u Hs].
      assert ((46%N :: lit "part" ++ u) = drop (j - length (to_ascii_lowercase set) - 1) (lit "part" ++ ds)) as Hd.
      { assert (lit ".part" = 46%N :: lit "part") as Ep by done. rewrite !Ep in Hs. cbn [app] in Hs.
        destruct (j - length (to_ascii_lowercase set)) as [|i] eqn:Ei; [lia|]. cbn [drop] in Hs.
        replace (S i - 1) with i by lia. by rewrite Hs. }
      assert (46%N ∈ lit "part" ++ ds) as Hin.
      { rewrite <- (take_drop (j - length (to_ascii_lowercase set) - 1) (lit "part" ++ ds)), <- Hd. apply elem_of_app. right. by left. }
      apply elem_of_app in Hin as [Hin|Hin]; [vm_compute in Hin; repeat (apply elem_of_cons in Hin as [Hin|Hin]; [done|]); by apply elem_of_nil in Hin|].
      unfold all_digits in Hds. rewrite forallb_forall in Hds. apply list_elem_of_In in Hin. specialize (Hds _ Hin). done. }
  rewrite lower_length, take_app_length. done.
Qed.

Module DetectExamples.
Definition rar : bytes := RAR4_SIGNATURE ++ [Byte.x00].
Definition all (l : list string) : Path := lit <$> l.

(** Two obfuscated sets of one name in two folders are taken for one: one first
    volume is found, yet all volumes may be deleted. *)
Example sets_of_one_name :
  let t : Tree := {[ all ["j"; "cd1"; "s.01"] := rar; all ["j"; "cd2"; "s.01"] := rar ]} in
  length (find_rar_files t (all ["j"])) = 1 ∧ length (find_cleanup_files t (all ["j"])) = 2.
Proof. by vm_compute. Qed.

(** Of a set numbered from zero the second volume is taken for the first. *)
Example set_numbered_from_zero :
  let t : Tree := {[ all ["j"; "s.part0.rar"] := rar; all ["j"; "s.part1.rar"] := rar ]} in
  find_rar_files t (all ["j"]) = [all ["j"; "s.part1.rar"]] ∧
  parse_rar_volume (lit "s.part0.rar") = parse_rar_volume (lit "s.part1.rar").
Proof. by vm_compute. Qed.

(** Payload that only looks like a volume is kept. *)
Example rom_is_kept :
  let t : Tree := {[ all ["j"; "game.r64"] := [Byte.x00]; all ["j"; "s.rar"] := rar; all ["j"; "s.r00"] := rar ]} in
  has_usable_output t (all ["j"]) true = Some true ∧
  find_cleanup_files t (all ["j"]) = [all ["j"; "s.r00"]; all ["j"; "s.rar"]].
Proof. by vm_compute. Qed.
End DetectExamples.
