(* ===== verification/Cleanup.v ===== *)
(** * The cleanup after an extraction

    The last stage of [crates/nzb-postproc/src/pipeline.rs]: which files are
    deleted, by kind and by the rules of the category, and the matching of a
    name against a pattern with wildcards. *)
From S2P Require Import Prelude Str Detect.

(** ** Wildcards *)
Definition STAR : byte := Byte.x2a.
Definition QUESTION : byte := Byte.x3f.

(** The first loop of [wildcard_match]; [None] if the fuel runs out. The result
    is how far into the pattern it came, or that there is no match. *)
Fixpoint match_loop (fuel : nat) (p v : bytes) (pi vi : nat) (star : option nat) (sv : nat) : option (option nat) :=
  match fuel with
  | 0 => None
  | S fuel' =>
    match v !! vi with
    | None => Some (Some pi)
    | Some c =>
      if decide (p !! pi = Some c ∨ p !! pi = Some QUESTION) then match_loop fuel' p v (S pi) (S vi) star sv
      else if decide (p !! pi = Some STAR) then match_loop fuel' p v (S pi) vi (Some pi) vi
      else match star with
           | Some si => match_loop fuel' p v (S si) (S sv) star (S sv)
           | None => Some None
           end
    end
  end.

(** The second loop: only stars may be left. *)
Definition only_stars (l : bytes) : bool := forallb (λ c, bool_decide (c = STAR)) l.

Definition match_fuel (p v : bytes) : nat := (length v + 2) * (length p + length v + 1).

Definition wildcard_match_bytes (p v : bytes) : bool :=
  match match_loop (match_fuel p v) p v 0 0 None 0 with
  | Some (Some pi) => only_stars (drop pi p)
  | _ => false
  end.
Definition wildcard_match (pattern value : str) : bool := wildcard_match_bytes (as_bytes pattern) (as_bytes value).

(** What a pattern means. *)
Fixpoint glob (p v : bytes) : Prop :=
  match p with
  | [] => v = []
  | c :: p' =>
    if decide (c = STAR) then ∃ k, k ≤ length v ∧ glob p' (drop k v)
    else ∃ d v', v = d :: v' ∧ (c = QUESTION ∨ c = d) ∧ glob p' v'
  end.

(** *** The loop ends *)
Definition progress_measure (p v : bytes) (pi vi : nat) (star : option nat) (sv : nat) : nat :=
  (length v + 1 - match star with Some _ => S sv | None => 0 end) * (length p + length v + 1) +
  ((length p - pi) + (length v - vi)).

Lemma match_loop_ends fuel p v : ∀ pi vi star sv,
  pi ≤ length p → vi ≤ length v → sv ≤ vi → (∀ si, star = Some si → si < length p) →
  progress_measure p v pi vi star sv < fuel → is_Some (match_loop fuel p v pi vi star sv).
Proof.
  induction fuel as [|fuel IH]; intros pi vi star sv Hp Hv Hsv Hstar Hm; [lia|]. cbn [match_loop].
  destruct (v !! vi) as [c|] eqn:Hc; [|done]. apply lookup_lt_Some in Hc.
  unfold progress_measure in Hm. set (w := length p + length v + 1) in *. case_decide as H1; [|case_decide as H2].
  - assert (pi < length p) by (destruct H1 as [H1|H1]; by apply lookup_lt_Some in H1).
    apply IH; [lia|lia|lia|done|]. unfold progress_measure. fold w. lia.
  - assert (pi < length p) by (by apply lookup_lt_Some in H2).
    apply IH; [lia|lia|lia|by intros si [= <-]|]. unfold progress_measure. fold w.
    assert ((length v + 1 - S vi) * w ≤ (length v + 1 - match star with Some _ => S sv | None => 0 end) * w)
      by (apply Nat.mul_le_mono_r; destruct star; lia). lia.
  - destruct star as [si|]; [|done]. specialize (Hstar si eq_refl).
    apply IH; [lia|lia|lia|by intros ? [= <-]|]. unfold progress_measure. fold w.
    assert ((length v + 1 - S (S sv)) * w + w = (length v + 1 - S sv) * w) as E.
    { replace (length v + 1 - S sv) with (S (length v + 1 - S (S sv))) by lia. lia. }
    assert (length p - S si + (length v - S sv) < w) by lia. lia.
Qed.

Lemma match_loop_total p v : is_Some (match_loop (match_fuel p v) p v 0 0 None 0).
Proof. apply match_loop_ends; [lia..|done|]. unfold progress_measure, match_fuel. lia. Qed.

(** *** What it decides *)
Lemma glob_star p v : glob (STAR :: p) v ↔ ∃ k, k ≤ length v ∧ glob p (drop k v).
Proof. cbn [glob]. by rewrite decide_True. Qed.
Lemma glob_char c p v : c ≠ STAR → glob (c :: p) v ↔ ∃ d v', v = d :: v' ∧ (c = QUESTION ∨ c = d) ∧ glob p v'.
Proof. intros Hc. cbn [glob]. by rewrite decide_False. Qed.

Lemma only_stars_glob p : only_stars p = true ↔ glob p [].
Proof.
  induction p as [|c p IH]; [done|]. cbn [only_stars forallb]. rewrite andb_true_iff, bool_decide_eq_true.
  change (forallb _ p) with (only_stars p). rewrite IH. destruct (decide (c = STAR)) as [->|Hc].
  - rewrite glob_star. split; [intros [_ H]; exists 0; split; [simpl; lia|exact H]|].
    intros (k & Hk & H). simpl in Hk. by replace k with 0 in H by lia.
  - rewrite glob_char by done. split; [tauto|]. by intros (d & v' & ? & _).
Qed.

(** Text without a star, against text of its length. *)
Lemma glob_segment seg p v :
  STAR ∉ seg → glob (seg ++ p) v → length seg ≤ length v ∧ glob p (drop (length seg) v).
Proof.
  revert v. induction seg as [|c seg IH]; intros v Hs; [simpl; intros H; split; [lia|done]|].
  apply not_elem_of_cons in Hs as [Hc Hs]. cbn [app]. rewrite glob_char by done.
  intros (d & v' & -> & _ & H). destruct (IH v' Hs H). simpl. split; [lia|done].
Qed.

(** What is yet to be found: the rest of the pattern here, or what follows the
    last star further on. *)
Definition still_matches (p v : bytes) (pi vi : nat) (star : option nat) (sv : nat) : Prop :=
  glob (drop pi p) (drop vi v) ∨
  ∃ si k, star = Some si ∧ sv < k ≤ length v ∧ glob (drop (S si) p) (drop k v).

(** Since the last star only plain text was matched. *)
Definition since_star (p : bytes) (pi vi : nat) (star : option nat) (sv : nat) : Prop :=
  match star with
  | None => True
  | Some si => ∃ seg, drop (S si) p = seg ++ drop pi p ∧ (STAR ∉ seg) ∧ vi = sv + length seg
  end.

Lemma match_step_char p v pi vi star sv c x :
  p !! pi = Some x → x = c ∨ x = QUESTION → x ≠ STAR → v !! vi = Some c → since_star p pi vi star sv →
  since_star p (S pi) (S vi) star sv ∧ (still_matches p v (S pi) (S vi) star sv ↔ still_matches p v pi vi star sv).
Proof.
  intros Hx Hxc Hns Hc Hseg. pose proof (drop_S _ _ _ Hx) as Ep. pose proof (drop_S _ _ _ Hc) as Ev. split.
  - destruct star as [si|]; [|done]. destruct Hseg as (seg & E & Hs & ->). exists (seg ++ [x]).
    rewrite <- app_assoc. cbn [app]. rewrite <- Ep, length_app. split_and!; [done| |simpl; lia].
    intros [|[|H]%elem_of_cons]%elem_of_app; [done..|by apply elem_of_nil in H].
  - unfold still_matches. rewrite Ep, Ev, glob_char by done. split; (intros [H|H]; [left|by right]).
    + exists c, (drop (S vi) v). split_and!; [done|naive_solver|done].
    + by destruct H as (d & v' & [= <- <-] & _ & H).
Qed.

Lemma match_step_star p v pi vi star sv :
  p !! pi = Some STAR → vi ≤ length v → since_star p pi vi star sv →
  still_matches p v (S pi) vi (Some pi) vi ↔ still_matches p v pi vi star sv.
Proof.
  intros Hx Hv Hseg. pose proof (drop_S _ _ _ Hx) as Ep. unfold still_matches. rewrite Ep, glob_star. split.
  - intros [H|(si & k & [= <-] & Hk & H)]; left.
    + exists 0. split; [lia|]. rewrite drop_drop. by rewrite Nat.add_0_r.
    + exists (k - vi). rewrite length_drop, drop_drop. split; [lia|]. by replace (vi + (k - vi)) with k by lia.
  - assert (∀ j, vi ≤ j ≤ length v → glob (drop (S pi) p) (drop j v) →
      glob (drop (S pi) p) (drop vi v) ∨ ∃ si k, Some pi = Some si ∧ vi < k ≤ length v ∧ glob (drop (S si) p) (drop k v)) as Hj.
    { intros j Hj H. destruct (decide (j = vi)) as [->|]; [by left|right]. exists pi, j. split_and!; [done|lia|lia|done]. }
    intros [(k & Hk & H)|(si & k & -> & Hk & H)].
    + rewrite length_drop in Hk. rewrite drop_drop in H. apply (Hj (vi + k)); [lia|done].
    + destruct Hseg as (seg & E & Hs & Evi). rewrite E, Ep in H. apply glob_segment in H as [Hl H]; [|done].
      rewrite length_drop in Hl. rewrite drop_drop, glob_star in H. destruct H as (j & Hjl & H).
      rewrite length_drop in Hjl. rewrite drop_drop in H. apply (Hj (k + length seg + j)); [lia|done].
Qed.

Lemma match_step_back p v pi vi star sv c :
  p !! pi ≠ Some c → p !! pi ≠ Some QUESTION → p !! pi ≠ Some STAR → v !! vi = Some c → sv ≤ vi →
  still_matches p v pi vi star sv ↔
  match star with Some si => still_matches p v (S si) (S sv) star (S sv) | None => False end.
Proof.
  intros H1 H2 H3 Hc Hsv. pose proof (drop_S _ _ _ Hc) as Ev. pose proof (lookup_lt_Some _ _ _ Hc) as Hlt.
  assert (¬ glob (drop pi p) (drop vi v)) as Hno.
  { destruct (p !! pi) as [x|] eqn:Hx.
    - rewrite (drop_S _ _ _ Hx), Ev, glob_char by congruence. intros (d & v' & [= <- <-] & [|] & _); congruence.
    - apply lookup_ge_None in Hx. rewrite drop_ge by done. simpl. by rewrite Ev. }
  unfold still_matches. destruct star as [si|].
  - split.
    + intros [H|(si' & k & [= <-] & Hk & H)]; [done|]. destruct (decide (k = S sv)) as [->|]; [by left|].
      right. exists si, k. split_and!; [done|lia|lia|done].
    + intros [H|(si' & k & [= <-] & Hk & H)]; right; [exists si, (S sv)|exists si, k]; (split_and!; [done|lia|lia|done]).
  - split; [|done]. by intros [H|(si & k & ? & _)].
Qed.

Lemma match_loop_spec fuel p v : STAR ∉ v → ∀ pi vi star sv r,
  vi ≤ length v → sv ≤ vi → since_star p pi vi star sv → match_loop fuel p v pi vi star sv = Some r →
  (∃ pi', r = Some pi' ∧ only_stars (drop pi' p) = true) ↔ still_matches p v pi vi star sv.
Proof.
  intros Hstar. induction fuel as [|fuel IH]; intros pi vi star sv r Hv Hsv Hseg; [done|]. cbn [match_loop].
  destruct (v !! vi) as [c|] eqn:Hc.
  - pose proof (lookup_lt_Some _ _ _ Hc) as Hlt.
    assert (c ≠ STAR) as Hcs by (intros ->; apply Hstar; by eapply list_elem_of_lookup_2).
    case_decide as H1; [|case_decide as H2].
    + assert (∃ x, p !! pi = Some x ∧ (x = c ∨ x = QUESTION) ∧ x ≠ STAR) as (x & Hx & Hxc & Hns) by (destruct H1; naive_solver).
      destruct (match_step_char p v pi vi star sv c x Hx Hxc Hns Hc Hseg) as [Hseg' E]. rewrite <- E. apply IH; [lia|lia|done].
    + rewrite <- (match_step_star p v pi vi star sv H2 Hv Hseg). apply IH; [lia|lia|]. exists [].
      split_and!; [done|by intros ?%elem_of_nil|simpl; lia].
    + rewrite (match_step_back p v pi vi star sv c) by (done || naive_solver). destruct star as [si|].
      * apply IH; [lia|lia|]. exists []. split_and!; [done|by intros ?%elem_of_nil|simpl; lia].
      * intros [= <-]. split; [by intros (? & ? & _)|done].
  - apply lookup_ge_None in Hc. intros [= <-]. unfold still_matches. rewrite (drop_ge v vi) by lia. split.
    + intros (pi' & [= <-] & H). left. by apply only_stars_glob.
    + intros [H|(si & k & -> & Hk & H)]; [exists pi; split; [done|by apply only_stars_glob]|].
      destruct Hseg as (seg & E & Hs & Evi). rewrite E in H. apply glob_segment in H as [Hl _]; [|done].
      rewrite length_drop in Hl. lia.
Qed.

(** C32. The matching of a name against a pattern ends, for any two strings, and
    of a name without a star it decides what the pattern means: a star is any
    text, a question mark any one byte, everything else itself. *)
Theorem wildcard_match_glob pattern value :
  is_Some (match_loop (match_fuel (as_bytes pattern) (as_bytes value)) (as_bytes pattern) (as_bytes value) 0 0 None 0) ∧
  (STAR ∉ as_bytes value → wildcard_match pattern value = true ↔ glob (as_bytes pattern) (as_bytes value)).
Proof.
  set (p := as_bytes pattern). set (v := as_bytes value). split; [apply match_loop_total|]. intros Hs.
  unfold wildcard_match, wildcard_match_bytes. fold p v. destruct (match_loop_total p v) as [r Hr]. rewrite Hr.
  pose proof (match_loop_spec (match_fuel p v) p v Hs 0 0 None 0 r ltac:(lia) ltac:(lia) I Hr) as E.
  assert (still_matches p v 0 0 None 0 ↔ glob p v) as <-.
  { unfold still_matches. rewrite !drop_0. split; [by intros [H|(si & k & ? & _)]|by left]. }
  rewrite <- E. destruct r as [pi|]; [|naive_solver].
  split; [by exists pi|]. by intros (pi' & [= <-] & H).
Qed.

(** A star in the name is taken for the star of the pattern. *)
Example star_in_name : wildcard_match (lit "*.nfo") (lit "*a.nfo") = false ∧ wildcard_match (lit "*.nfo") (lit "a.nfo") = true.
Proof. by vm_compute. Qed.

(** ** The stage *)
Inductive StageStatus := Success | Failed | Skipped.
#[export] Instance StageStatus_eq_dec : EqDecision StageStatus.
Proof. solve_decision. Defined.

(** [Path::extension] *)
Definition extension (p : Path) : option str :=
  name ← file_name p;
  dot ← rfind_sub (lit ".") name;
  if decide (dot = 0) then None else Some (drop (dot + 1) name).

(** A PAR2 file, by its extension. *)
Definition has_par2_extension (p : Path) : bool :=
  match extension p with Some e => eq_ignore_ascii_case e (lit "par2") | None => false end.

Definition is_regular_file (t : Tree) (p : Path) : bool := bool_decide (is_Some (t !! p)).

Definition normalized_extensions (l : list str) : list str :=
  filter (λ e, 1 < length e)
    ((λ e, let e := to_ascii_lowercase (trim e) in if starts_with (lit ".") e then e else lit "." ++ e) <$> l).

Definition forward_slashes (s : str) : str := (λ c, if decide (c = 92)%N then 47%N else c) <$> s.
Definition normalized_patterns (l : list str) : list str :=
  filter (λ p, p ≠ []) ((λ p, to_ascii_lowercase (forward_slashes p)) <$> l).

(** The rules of the category, on a file beneath [root]. *)
Definition rules_match (exts patterns : list str) (root p : Path) : bool :=
  let relative := to_ascii_lowercase (forward_slashes (join (lit "/") (drop (length root) p))) in
  let filename := name_lower p in
  existsb (λ e, ends_with e filename) exts ||
  existsb (λ pat, wildcard_match pat relative || wildcard_match pat filename) patterns.

Section cleanup.
(** Files the system refuses to delete. *)
Context (undeletable : Path → bool).
Context (job_dir cleanup_root : Path).

Definition planned (t : Tree) (extracted : list Path) (cleanup_patterns unwanted_extensions : list str)
    (delete_archives : bool) : list Path :=
  let found := find_cleanup_files t job_dir in
  let files :=
    if delete_archives then found ++ filter (λ p, is_regular_file t p = true) extracted
    else filter (λ p, has_par2_extension p = true) found in
  let exts := normalized_extensions unwanted_extensions in
  let patterns := normalized_patterns cleanup_patterns in
  let by_rules := [job_dir; cleanup_root] ≫= λ root, filter (λ p, rules_match exts patterns root p = true) (walk t root) in
  dedup (sort_paths (files ++ by_rules)).

Definition under_allowed_root (p : Path) : bool := bool_decide (job_dir `prefix_of` p ∨ cleanup_root `prefix_of` p).

(** One file: the tree after it, and whether it was removed. *)
Definition remove_one (t : Tree) (p : Path) : Tree * bool :=
  if under_allowed_root p && is_regular_file t p && negb (undeletable p) then (delete p t, true) else (t, false).

Fixpoint remove_all (t : Tree) (l : list Path) : Tree * N * N :=
  match l with
  | [] => (t, 0, 0)%N
  | p :: l' =>
    let '(t1, ok) := remove_one t p in
    let '(t2, removed, errors) := remove_all t1 l' in
    if ok : bool then (t2, u32_add 1 removed, errors) else (t2, removed, u32_add 1 errors)
  end.

(** The tree, the status, and the files removed and the errors where there was
    anything to do. *)
Definition run_cleanup_stage_with_rules (t : Tree) (extracted : list Path)
    (cleanup_patterns unwanted_extensions : list str) (delete_archives : bool) : Tree * StageStatus * option (N * N) :=
  let files := planned t extracted cleanup_patterns unwanted_extensions delete_archives in
  if decide (files = []) then (t, Skipped, None)
  else
    let '(t', removed, errors) := remove_all t files in
    (t', if decide (errors = 0%N) then Success else Failed, Some (removed, errors)).

(** *** What it leaves *)
Lemma remove_all_lookup l : ∀ t p,
  (remove_all t l).1.1 !! p =
    if decide (p ∈ l ∧ under_allowed_root p = true ∧ undeletable p = false) then None else t !! p.
Proof.
  induction l as [|q l IH]; intros t p; cbn [remove_all].
  { rewrite decide_False; [done|]. by intros [?%elem_of_nil _]. }
  destruct (remove_one t q) as [t1 ok] eqn:Hq. specialize (IH t1 p).
  destruct (remove_all t1 l) as [[t2 removed] errors]. simpl in IH.
  assert ((if ok then (t2, u32_add 1 removed, errors) else (t2, removed, u32_add 1 errors)).1.1 = t2) as -> by (by destruct ok).
  rewrite IH. unfold remove_one in Hq.
  destruct (decide (p = q)) as [->|Hne].
  - destruct (decide (under_allowed_root q = true ∧ undeletable q = false)) as [[Ha Hu]|Hno].
    + rewrite (decide_True (P := q ∈ q :: l ∧ _)) by (split_and!; [by left|done|done]). case_decide; [done|].
      rewrite Ha, Hu in Hq. simpl in Hq. rewrite andb_true_r in Hq. unfold is_regular_file in Hq.
      case_bool_decide as Hr; simplify_eq; [by rewrite lookup_delete_eq|]. by apply eq_None_not_Some.
    + rewrite (decide_False (P := q ∈ q :: l ∧ _)) by tauto. rewrite decide_False by tauto.
      destruct (under_allowed_root q && is_regular_file t q && negb (undeletable q)) eqn:E; [|by simplify_eq].
      exfalso. apply Hno. apply andb_true_iff in E as [[? _]%andb_true_iff ?%negb_true_iff]. done.
  - assert (t1 !! p = t !! p) as ->.
    { destruct (_ && _); simplify_eq; [by rewrite lookup_delete_ne|done]. }
    destruct (decide (p ∈ l ∧ under_allowed_root p = true ∧ undeletable p = false)) as [H|H];
      destruct (decide (p ∈ q :: l ∧ under_allowed_root p = true ∧ undeletable p = false)) as [H'|H']; try done; exfalso.
    + apply H'. split; [right; tauto|tauto].
    + apply H. destruct H' as [[|]%elem_of_cons ?]; [done|tauto].
Qed.

(** What a cleanup deletes: files beneath the job's folder of a kind that may
    be deleted, PAR2 files alone when archives are to be kept; the archives
    extracted; files the rules name. *)
Definition doomed (t : Tree) (extracted : list Path) (cleanup_patterns unwanted_extensions : list str)
    (delete_archives : bool) (p : Path) : Prop :=
  (beneath job_dir p ∧ is_cleanup_candidate_at t p (name_lower p) = true ∧
     (delete_archives = true ∨ has_par2_extension p = true)) ∨
  (delete_archives = true ∧ p ∈ extracted ∧ under_allowed_root p = true) ∨
  ∃ root, (root = job_dir ∨ root = cleanup_root) ∧ beneath root p ∧
    rules_match (normalized_extensions unwanted_extensions) (normalized_patterns cleanup_patterns) root p = true.

Lemma elem_of_walk t dir p : p ∈ walk t dir ↔ beneath dir p ∧ is_Some (t !! p).
Proof.
  unfold walk. rewrite list_elem_of_filter. apply and_iff_compat_l. rewrite list_elem_of_fmap. split.
  - intros ([q c] & -> & Hq%elem_of_map_to_list). by eexists.
  - intros [c Hc]. exists (p, c). by rewrite elem_of_map_to_list.
Qed.

Lemma beneath_allowed p : beneath job_dir p ∨ beneath cleanup_root p → under_allowed_root p = true.
Proof. unfold under_allowed_root, beneath. rewrite bool_decide_eq_true. tauto. Qed.

Lemma elem_of_planned t extracted pats exts del p :
  (p ∈ planned t extracted pats exts del ∧ under_allowed_root p = true) ↔
  is_Some (t !! p) ∧ doomed t extracted pats exts del p.
Proof.
  unfold planned. rewrite elem_of_dedup. unfold sort_paths. rewrite merge_sort_Permutation, elem_of_app.
  assert (p ∈ find_cleanup_files t job_dir ↔
    beneath job_dir p ∧ is_Some (t !! p) ∧ is_cleanup_candidate_at t p (name_lower p) = true) as Hfound.
  { unfold find_cleanup_files, sort_paths. rewrite merge_sort_Permutation, list_elem_of_filter, elem_of_walk. tauto. }
  assert (p ∈ ([job_dir; cleanup_root] ≫= λ root, filter (λ p, rules_match (normalized_extensions exts)
    (normalized_patterns pats) root p = true) (walk t root)) ↔ is_Some (t !! p) ∧
    ∃ root, (root = job_dir ∨ root = cleanup_root) ∧ beneath root p ∧
      rules_match (normalized_extensions exts) (normalized_patterns pats) root p = true) as Hrules.
  { rewrite list_elem_of_bind. split.
    - intros (root & [Hm [Hb Hs]%elem_of_walk]%list_elem_of_filter & Hr). split; [done|]. exists root.
      split; [|done]. apply elem_of_cons in Hr as [->|Hr]; [by left|]. apply list_elem_of_singleton in Hr as ->. by right.
    - intros (Hs & root & Hr & Hb & Hm). exists root. split; [by apply list_elem_of_filter; rewrite elem_of_walk|].
      destruct Hr as [->| ->]; [by left|by right; left]. }
  rewrite Hrules. unfold doomed. clear Hrules.
  assert (beneath job_dir p → under_allowed_root p = true) as HB by (intros; apply beneath_allowed; tauto).
  assert ((∃ root, (root = job_dir ∨ root = cleanup_root) ∧ beneath root p ∧
    rules_match (normalized_extensions exts) (normalized_patterns pats) root p = true) → under_allowed_root p = true) as HR.
  { intros (root & [->| ->] & Hb & _); apply beneath_allowed; tauto. }
  generalize dependent (∃ root, (root = job_dir ∨ root = cleanup_root) ∧ beneath root p ∧
    rules_match (normalized_extensions exts) (normalized_patterns pats) root p = true). intros R HR.
  generalize dependent (beneath job_dir p). intros B Hfound HB. destruct del.
  - rewrite elem_of_app, Hfound, list_elem_of_filter. unfold is_regular_file. rewrite bool_decide_eq_true.
    assert (true = true) by done. tauto.
  - rewrite list_elem_of_filter, Hfound. assert (false ≠ true) by done. tauto.
Qed.

Lemma cleanup_lookup t extracted pats exts del p :
  (run_cleanup_stage_with_rules t extracted pats exts del).1.1 !! p =
    if decide (p ∈ planned t extracted pats exts del ∧ under_allowed_root p = true ∧ undeletable p = false)
    then None else t !! p.
Proof.
  unfold run_cleanup_stage_with_rules. case_decide as He.
  - rewrite He. rewrite decide_False; [done|]. by intros [?%elem_of_nil _].
  - rewrite <- remove_all_lookup. by destruct (remove_all t _) as [[t2 r] e].
Qed.

(** A file the cleanup does not leave is gone, and one it may delete. *)
Lemma cleanup_deletes_exactly_at t extracted pats exts del p :
  (run_cleanup_stage_with_rules t extracted pats exts del).1.1 !! p = t !! p ∨
  (run_cleanup_stage_with_rules t extracted pats exts del).1.1 !! p = None ∧ doomed t extracted pats exts del p.
Proof.
  rewrite cleanup_lookup. case_decide as H; [right|by left]. split; [done|]. destruct H as (H1 & H2 & _).
  by apply (elem_of_planned t extracted pats exts del p).
Qed.

(** C30. A cleanup deletes exactly what it should: of the files that are there,
    those of a kind that may be deleted beneath the job's folder (only PAR2 files
    when archives are kept), the archives that were extracted, and those the
    rules of the category name beneath either folder, unless the system refuses.
    Every other file stays as it is, in the two folders and elsewhere. *)
Theorem cleanup_deletes_exactly t extracted pats exts del p :
  let t' := (run_cleanup_stage_with_rules t extracted pats exts del).1.1 in
  (doomed t extracted pats exts del p → undeletable p = false → t' !! p = None) ∧
  (¬ doomed t extracted pats exts del p ∨ undeletable p = true → t' !! p = t !! p).
Proof.
  intros t'. pose proof (elem_of_planned t extracted pats exts del p) as Hp.
  subst t'. rewrite cleanup_lookup. split.
  - intros Hd Hu. destruct (t !! p) as [c|] eqn:Hc; [|by case_decide]. rewrite decide_True; [done|].
    assert (p ∈ planned t extracted pats exts del ∧ under_allowed_root p = true) by (apply Hp; by split). tauto.
  - intros Hd. case_decide as H; [|done]. destruct H as (H1 & H2 & H3).
    destruct (proj1 Hp (conj H1 H2)) as [_ Hdo]. destruct Hd as [Hd|Hd]; [done|congruence].
Qed.
End cleanup.
