(* ===== verification/PostProc.v ===== *)
(** * The post-processing of a finished download

    [crates/nzb-postproc/src/pipeline.rs]: the recovery sets are verified and
    repaired, archives are extracted, nested ones too, and what is no longer
    needed is deleted. The disk is a tree of files ([Detect]); external programs
    and [rust-par2] are parameters. Timings and the text of the messages are
    left out: a message is what it is made of. *)
From coqutil Require Import Datatypes.RecordSetters.
From S2P Require Import Prelude Str FileSystem SliceMap Par2Match SliceTracker Inflight FoldRepair Detect Cleanup.
From S2P Require RepairFold Models.
Import Models(JobFailureCode(..)).
Import TriangleBracketNotations.
#[local] Open Scope record_set.

(** ** The tree as a file system

    A path is cut at its slashes. [broken] are the paths the system does not let
    be written. *)
Definition chars (p : path) : str := Byte.to_N <$> String.list_byte_of_string p.
Definition decode (p : path) : Path := split_char 47 (chars p).
Definition encode (p : Path) : str := Str.join (lit "/") p.

Section tree_fs.
Context (broken : Path → bool).

#[export] Instance tree_fs : FileSystem Tree := {
  fs_read t p := t !! decode p;
  fs_write t p d := if broken (decode p) then (t, false) else (<[decode p := d]> t, true);
  fs_remove t p := delete (decode p) t;
  fs_open t p := if broken (decode p) then (t, false) else (<[decode p := default [] (t !! decode p)]> t, true);
  fs_write_at t p off d :=
    if broken (decode p) then (t, false)
    else (<[decode p := splice (default [] (t !! decode p)) (N.to_nat off) d]> t, true);
}.
#[export] Instance tree_set_len : SetLen Tree := λ t p n,
  if broken (decode p) then (t, false)
  else (<[decode p := vec_resize (N.to_nat n) Byte.x00 (default [] (t !! decode p))]> t, true).

Lemma chars_inj p q : chars p = chars q → p = q.
Proof.
  unfold chars. intros E.
  assert (∀ l k : list byte, Byte.to_N <$> l = Byte.to_N <$> k → l = k) as Hinj.
  { induction l as [|x l IH]; intros [|y k]; try done. rewrite !fmap_cons. intros [= Hx Hl].
    rewrite (IH k Hl). f_equal. apply (f_equal Byte.of_N) in Hx. rewrite !Byte.of_to_N in Hx. congruence. }
  apply Hinj in E. rewrite <- (String.string_of_list_byte_of_string p), <- (String.string_of_list_byte_of_string q). by rewrite E.
Qed.

Lemma split_char_inj c s t : split_char c s = split_char c t → s = t.
Proof.
  unfold split_char. revert t. induction s as [|x s IH]; intros [|y t]; cbn [split_by]; [done|..].
  - case_bool_decide; [intros [= E]; by destruct (split_by_ne (λ x, bool_decide (x = c)) t)|].
    by destruct (split_by _ t).
  - case_bool_decide; [intros [= E]; by destruct (split_by_ne (λ x, bool_decide (x = c)) s)|].
    by destruct (split_by _ s).
  - case_bool_decide as Hx; case_bool_decide as Hy; subst.
    + intros [= E]. by rewrite (IH t E).
    + by destruct (split_by _ t).
    + by destruct (split_by _ s).
    + destruct (split_by _ s) as [|p ps] eqn:Es; [by destruct (split_by_ne _ _ Es)|].
      destruct (split_by _ t) as [|q qs] eqn:Et; [by destruct (split_by_ne _ _ Et)|].
      intros [= -> -> ->]. f_equal. by apply IH.
Qed.

Lemma decode_inj p q : decode p = decode q → p = q.
Proof. intros E. by apply chars_inj, (split_char_inj 47). Qed.

#[export] Instance tree_fs_laws : FileSystemLaws Tree.
Proof.
  split; simpl; intros; repeat case_match; simplify_eq; try done;
    rewrite ?lookup_insert_eq; try (rewrite lookup_insert_ne by (by intros ?%decode_inj)); try done.
  - rewrite lookup_delete_ne; [done|]. by intros ?%decode_inj.
  - by simplify_option_eq.
Qed.
#[export] Instance tree_set_len_laws : SetLenLaws Tree.
Proof.
  split; unfold fs_set_len, tree_set_len; simpl; intros; case_match; simplify_eq; try done;
    rewrite ?lookup_insert_eq; [by simplify_option_eq|]. rewrite lookup_insert_ne; [done|]. by intros ?%decode_inj.
Qed.
End tree_fs.

#[export] Instance byte_countable : Countable byte := inj_countable Byte.to_N Byte.of_N Byte.of_to_N.

(** ** Verify and repair *)
Inductive RepairPath := FromFold | FromDisk.
Record VerifyNote := { note_source : VerifySource; note_bytes_skipped : N }.
Record RepairNote := { note_path : RepairPath; fallback : option (option FoldRepairError); slices_read : nat }.
Record RepairResult := { rr_success : bool; rr_blocks_repaired : N; rr_files_repaired : N }.
Inductive VerifyRepairOutcome :=
  | AllCorrect (intact_count : nat) (verify : VerifyNote)
  | DamagedSet (verify : VerifyNote) (repair : RepairNote) (intact damaged missing : nat) (blocks_needed blocks_available : N)
      (repair_result : option RepairResult).

(** What a stage says. *)
Inductive StageName := Verify | Repair | Extract | CleanUp.
Inductive ExtractNote := Depth (depth : nat) (ty : ArchiveType) (ok : bool) | DepthLimit.
Inductive StageMessage :=
  | ContentMissing (articles : nat)
  | NoPar2Files
  | ParseFailed (error : str) (repairing : bool)
  | CleanRenamed (sets : nat)
  | SetVerified (number count : nat) (o : VerifyRepairOutcome)
  | SetRepaired (number count : nat) (r : option RepairResult) (note : RepairNote)
  | TaskPanicked
  | RepairRun (ok : bool)
  | Archives (notes : list ExtractNote)
  | NoArchives
  | NothingToClean
  | RemovedFiles (removed errors : N).
Record StageResult := { stage_name : StageName; stage_status : StageStatus; stage_message : StageMessage }.
Record PostProcResult := {
  success : bool; stages : list StageResult; error : option (list StageMessage); result_failure_code : option JobFailureCode;
}.

Inductive ExtractResult := Extracted | ExtractFailed | PasswordRequired | ExtractError.

Section pipeline.
Context {G : Type} `{GF : RepairFold.Gf16 G}.
Context (broken : Path → bool).
#[local] Existing Instance tree_fs.
#[local] Existing Instance tree_set_len.
Abbreviation fs_tree := (tree_fs broken).
Implicit Types (t : Tree) (fold : option (RepairFold.RepairFold G)).

(** [rust-par2] *)
Context (par2_verify : Par2FileSet → str → Tree → VerifyResult) (blocks_needed : VerifyResult → N).
Context (all_correct : VerifyResult → bool).
Context (load_recovery_blocks : Tree → str → Par2FileSet → list (N * bytes)).
(** [repair_from_verify], or [_no_reverify]; [None] is an error. *)
Context (repair_from_verify : bool → Par2FileSet → str → VerifyResult → Tree → Tree * option RepairResult).

(** With the fold, where there is one and there are enough recovery slices. *)
Definition try_fold (set : Par2FileSet) (dir : str) (v : VerifyResult) (src : VerifySource) fold t
    : option (RepairFold.RepairFold G) * Tree * (RepairResult * nat + option (option FoldRepairError)) :=
  match fold with
  | None => (fold, t, inr None)
  | Some f =>
    if decide (blocks_needed v ≤ recovery_blocks_available v)%N then
      match repair_from_fold (SL := tree_set_len broken) load_recovery_blocks dir set v f t with
      | (f, t, Ok done) =>
        if (match src with Disk => all_correct (par2_verify set dir t) | _ => true end) : bool then
          (Some f, t, inl ({| rr_success := true; rr_blocks_repaired := blocks_repaired done;
                              rr_files_repaired := N.of_nat (files_repaired done) |}, slices_read_at_solve done))
        else (Some f, t, inr (Some None))
      | (f, t, Err e) => (Some f, t, inr (Some (Some e)))
      end
    else (fold, t, inr None)
  end.

(** What the repair from the disk reads: every slice of the set but the bad. *)
Definition slices_read_from_disk (set : Par2FileSet) (v : VerifyResult) : nat :=
  foldr Nat.add 0 ((λ f, slice_count f (N.max (set_slice_size set) 1)) <$> (map_to_list (set_files set)).*2)
  - N.to_nat (blocks_needed v).

Definition verify_repair_set (set : Par2FileSet) (dir : str) (map : option SliceMapSummary) fold t
    : option (RepairFold.RepairFold G) * Tree * VerifyRepairOutcome :=
  let set_verify := verify_set (H := tree_fs broken) par2_verify blocks_needed dir t set map in
  let v := result set_verify in
  let verify := {| note_source := source set_verify; note_bytes_skipped := bytes_skipped set_verify |} in
  if all_correct v then (fold, t, AllCorrect (length (intact v)) verify)
  else
    match try_fold set dir v (source set_verify) fold t with
    | (fold, t, inl (r, read)) =>
      (fold, t, DamagedSet verify {| note_path := FromFold; fallback := None; slices_read := read |}
                  (length (intact v)) (length (damaged v)) (length (missing v)) (blocks_needed v)
                  (recovery_blocks_available v) (Some r))
    | (fold, t, inr why) =>
      let '(t, r) := repair_from_verify (match source set_verify with Disk => true | _ => false end) set dir v t in
      (fold, t, DamagedSet verify
                  {| note_path := FromDisk; fallback := why; slices_read := slices_read_from_disk set v |}
                  (length (intact v)) (length (damaged v)) (length (missing v)) (blocks_needed v)
                  (recovery_blocks_available v) r)
    end.

(** *** Several sets *)
(** [rust_par2::parse] and the id of a set. *)
Context (par2_parse : Tree → Path → Prelude.result str Par2FileSet) (recovery_set_id : Par2FileSet → N).

Definition parse_step t (s : list Par2FileSet * list str * gset N) (p : Path) : list Par2FileSet * list str * gset N :=
  let '(sets, errors, ids) := s in
  match par2_parse t p with
  | Ok set => if decide (recovery_set_id set ∈ ids) then s else (sets ++ [set], errors, {[recovery_set_id set]} ∪ ids)
  | Err e => (sets, errors ++ [e], ids)
  end.
Definition parse_par2_sets t (paths : list Path) : list Par2FileSet * list str :=
  (foldl (parse_step t) ([], [], ∅) (filter (λ p, is_par2_volume (name_lower p) = false) paths)).1.

Record PostProcConfig := {
  cleanup_after_extract : bool;
  delete_archives : bool;
  output_dir : option Path;
  articles_failed : nat;
  content_articles_failed : nat;
  skip_extract : bool;
  password : option str;
  max_nested_archive_depth : nat;
  slice_map : option SliceMapSummary;
  trust_inflight_verify : bool;
  repair_fold : option (RepairFold.RepairFold G);
}.

Definition maps_for_sets (sets : list Par2FileSet) (config : PostProcConfig) : list (option SliceMapSummary) :=
  let map := if trust_inflight_verify config then slice_map config else None in
  let fits := (λ set, match map with Some m => map_fits set m | None => false end) <$> sets in
  let unique := bool_decide (length (filter (λ f, f = true) fits) = 1) in
  (λ fit : bool, if fit && unique then map else None) <$> fits.

(** Each set in turn; the fold is for the set the map was matched to. *)
Fixpoint verify_repair_sets (dir : str) (l : list (Par2FileSet * option SliceMapSummary)) fold t
    : Tree * list VerifyRepairOutcome :=
  match l with
  | [] => (t, [])
  | (set, map) :: l' =>
    let '(fold', t, o) :=
      verify_repair_set set dir map (match map with Some _ => fold | None => None end) t in
    let '(t, os) := verify_repair_sets dir l' (match map with Some _ => fold' | None => fold end) t in
    (t, o :: os)
  end.

(** *** Renaming to the names of the set

    A name of the set is a path beneath the folder, without [.] and [..]. *)
Context (hash_16k : bytes → bytes).
(** [Path::exists]: a file, or a folder with something in it. *)
Definition exists_path t (p : Path) : bool := bool_decide (is_Some (t !! p)) || negb (bool_decide (walk t p = [])).

Definition expected_names (set : Par2FileSet) : gmap bytes str :=
  foldl (λ m f, <[p_hash_16k f := p_filename f]> m) ∅ (map_to_list (set_files set)).*2.

Definition rename_step (expected : gmap bytes str) (dir : Path) t (p : Path) : Tree :=
  match t !! p with
  | None => t
  | Some c =>
    let current_name := default [] (file_name p) in
    if ends_with (lit ".par2") (to_ascii_lowercase current_name) then t
    else match expected !! hash_16k c with
         | None => t
         | Some par2_name =>
           let new_path := dir ++ split_char 47 par2_name in
           if negb (bool_decide (current_name = par2_name)) && negb (exists_path t new_path)
              && negb (broken p) && negb (broken new_path)
           then <[new_path := c]> (delete p t) else t
         end
  end.

Definition rename_to_par2_names (set : Par2FileSet) (dir : Path) t : Tree :=
  if existsb (λ f, exists_path t (dir ++ split_char 47 (p_filename f))) (map_to_list (set_files set)).*2 then t
  else foldl (rename_step (expected_names set) dir) t (filter (λ p, length p = S (length dir)) (walk t dir)).

(** Renaming loses no file: the same contents are there, under other names. *)
Lemma rename_step_contents expected dir t p :
  (map_to_list (rename_step expected dir t p)).*2 ≡ₚ (map_to_list t).*2.
Proof.
  unfold rename_step. destruct (t !! p) as [c|] eqn:Hc; [|done]. case_match; [done|].
  destruct (expected !! hash_16k c) as [nm|]; [|done].
  destruct (_ && _) eqn:E; [|done]. apply andb_true_iff in E as [[[_ E]%andb_true_iff _]%andb_true_iff _].
  apply negb_true_iff in E. unfold exists_path in E. apply orb_false_iff in E as [E _].
  apply bool_decide_eq_false in E. apply eq_None_not_Some in E.
  rewrite map_to_list_insert.
  - simpl. rewrite <- (map_to_list_delete t p c Hc). done.
  - destruct (decide (dir ++ split_char 47 nm = p)) as [->|Hne]; [by rewrite lookup_delete_eq|by rewrite lookup_delete_ne].
Qed.

Lemma rename_contents set dir t : (map_to_list (rename_to_par2_names set dir t)).*2 ≡ₚ (map_to_list t).*2.
Proof.
  unfold rename_to_par2_names. destruct (existsb _ _); [done|]. generalize (filter (λ p, length p = S (length dir)) (walk t dir)).
  intros l. generalize (expected_names set). intros e. revert t. induction l as [|p l IH]; intros t; [done|].
  cbn [foldl]. rewrite IH. apply rename_step_contents.
Qed.

(** *** Extraction *)
(** An extractor: the tree after it, and what it says. *)
Context (extract : ArchiveType → Path → Path → option str → Tree → Tree * ExtractResult).

Definition extractor_password (ty : ArchiveType) (password : option str) : option str :=
  match ty with Rar | SevenZip => password | Tar | Zip => None end.

Definition extract_failure (r : ExtractResult) : option JobFailureCode :=
  match r with
  | Extracted => None
  | PasswordRequired => Some ArchivePasswordRequired
  | ExtractFailed | ExtractError => Some ArchiveInvalid
  end.

(** The archives of a round: the last failure counts. *)
Fixpoint extract_round (depth : nat) (output_dir : Path) (password : option str) (l : list (ArchiveType * Path)) t
    : Tree * list ExtractNote * option JobFailureCode :=
  match l with
  | [] => (t, [], None)
  | (ty, p) :: l' =>
    let '(t, r) := extract ty p output_dir (extractor_password ty password) t in
    let '(t, notes, code) := extract_round depth output_dir password l' t in
    (t, Depth depth ty (match r with Extracted => true | _ => false end) :: notes,
     match code with Some _ => code | None => extract_failure r end)
  end.

(** [filter(|path| processed.insert(path))] *)
Fixpoint unprocessed (processed : gset Path) (l : list (ArchiveType * Path)) : list (ArchiveType * Path) :=
  match l with
  | [] => []
  | a :: l' => if decide (a.2 ∈ processed) then unprocessed processed l'
               else a :: unprocessed ({[a.2]} ∪ processed) l'
  end.

Record ExtractState := {
  x_tree : Tree;
  x_processed : gset Path;
  x_extracted : list Path;
  x_scan_dir : Path;
  x_notes : list ExtractNote;
  x_failure : option JobFailureCode;
}.

(** The rounds, [rounds] more of them from [depth] on. *)
Fixpoint extract_rounds (rounds depth : nat) (extra : list (ArchiveType * Path)) (output_dir : Path)
    (password : option str) (s : ExtractState) : ExtractState :=
  match rounds with
  | 0 => s
  | S rounds' =>
    let archives := unprocessed (x_processed s) (find_archives (x_tree s) (x_scan_dir s) ++ extra) in
    if decide (archives = []) then s
    else
      let '(t, notes, code) := extract_round depth output_dir password archives (x_tree s) in
      let s' := {| x_tree := t; x_processed := list_to_set archives.*2 ∪ x_processed s;
                   x_extracted := x_extracted s ++ archives.*2;
                   x_scan_dir := match code with None => output_dir | Some _ => x_scan_dir s end;
                   x_notes := x_notes s ++ notes; x_failure := code |} in
      match code with
      | None => extract_rounds rounds' (S depth) [] output_dir password s'
      | Some _ => s'
      end
  end.

Definition run_extract_stage (source_dir : Path) (extra : list (ArchiveType * Path)) (output_dir : Path)
    (password : option str) (max_depth : nat) t : Tree * StageResult * list Path * option JobFailureCode :=
  let processed := if decide (source_dir = output_dir) then ∅ else list_to_set (find_archives t output_dir).*2 in
  let s := extract_rounds (S max_depth) 0 extra output_dir password
    {| x_tree := t; x_processed := processed; x_extracted := []; x_scan_dir := source_dir; x_notes := []; x_failure := None |} in
  let left_over := negb (forallb (λ p, bool_decide (p ∈ x_processed s)) (find_archives (x_tree s) (x_scan_dir s)).*2) in
  let limit := bool_decide (x_failure s = None) && left_over in
  if decide (x_extracted s = []) then
    (x_tree s, {| stage_name := Extract; stage_status := Skipped; stage_message := NoArchives |}, [], None)
  else
    let code := if limit then Some ArchiveInvalid else x_failure s in
    (x_tree s,
     {| stage_name := Extract; stage_status := match code with None => Success | Some _ => Failed end;
        stage_message := Archives (if limit then x_notes s ++ [DepthLimit] else x_notes s) |},
     x_extracted s, code).

(** *** All stages *)
(** [par2_repair] of an index file: repaired, success; [None] is an error. *)
Context (par2_repair : Path → Tree → Tree * option (bool * bool)).

Definition run_repair_stage (job_dir : Path) t : Tree * StageResult :=
  match find_par2_files t job_dir with
  | [] => (t, {| stage_name := Repair; stage_status := Skipped; stage_message := NoPar2Files |})
  | index :: _ =>
    let '(t, r) := par2_repair index t in
    let ok := match r with Some (repaired, ok) => repaired || ok | None => false end in
    (t, {| stage_name := Repair; stage_status := if ok then Success else Failed; stage_message := RepairRun ok |})
  end.

(** The stages so far, whether they are all right, and the code of a failure. *)
Record Progress := { pg_tree : Tree; pg_stages : list StageResult; pg_ok : bool; pg_failure : option JobFailureCode }.

Definition say (s : Progress) (name : StageName) (status : StageStatus) (message : StageMessage) : Progress :=
  {| pg_tree := pg_tree s; pg_ok := pg_ok s; pg_failure := pg_failure s;
     pg_stages := pg_stages s ++ [{| stage_name := name; stage_status := status; stage_message := message |}] |}.
Definition fail (s : Progress) (code : JobFailureCode) : Progress :=
  {| pg_tree := pg_tree s; pg_ok := false; pg_failure := Some code; pg_stages := pg_stages s |}.

(** The stages of one set. *)
Definition report_outcome (number count : nat) (s : Progress) (o : VerifyRepairOutcome) : Progress :=
  let s := say s Verify Success (SetVerified number count o) in
  match o with
  | AllCorrect _ _ => s
  | DamagedSet _ note _ _ _ _ _ r =>
    let ok := match r with Some r => rr_success r | None => false end in
    let s := if ok then s else fail s RepairFailed in
    say s Repair (if ok then Success else Failed) (SetRepaired number count r note)
  end.
Fixpoint report_outcomes (number count : nat) (s : Progress) (l : list VerifyRepairOutcome) : Progress :=
  match l with
  | [] => s
  | o :: l' => report_outcomes (S number) count (report_outcome number count s o) l'
  end.

(** Verification and repair. [panic] is what the blocking task leaves of the
    tree when it panics. *)
Definition verify_stage (panic : option Tree) (job_dir : Path) (config : PostProcConfig) (s : Progress) : Progress :=
  let t := pg_tree s in
  match find_par2_files t job_dir with
  | [] =>
    if decide (0 < content_articles_failed config) then
      say (fail s ArticlesUnavailable) Verify Failed (ContentMissing (content_articles_failed config))
    else say s Verify Skipped NoPar2Files
  | par2_files =>
    let '(sets, errors) := parse_par2_sets t par2_files in
    match sets with
    | [] =>
      let error := default (lit "no PAR2 index file found") (head errors) in
      if decide (articles_failed config = 0) then say s Verify Skipped (ParseFailed error false)
      else
        let s := say s Verify Skipped (ParseFailed error true) in
        let '(t, r) := run_repair_stage job_dir t in
        let s := {| pg_tree := t; pg_stages := pg_stages s; pg_ok := pg_ok s; pg_failure := pg_failure s |} in
        let s := if decide (stage_status r = Failed) then fail s RepairFailed else s in
        say s (stage_name r) (stage_status r) (stage_message r)
    | _ =>
      let t := foldl (λ t set, rename_to_par2_names set job_dir t) t sets in
      let with_tree t := {| pg_tree := t; pg_stages := pg_stages s; pg_ok := pg_ok s; pg_failure := pg_failure s |} in
      if decide (articles_failed config = 0) then say (with_tree t) Verify Skipped (CleanRenamed (length sets))
      else
        match panic with
        | Some t => say (fail (with_tree t) RepairFailed) Verify Failed TaskPanicked
        | None =>
          let '(t, outcomes) :=
            verify_repair_sets (encode job_dir) (zip sets (maps_for_sets sets config)) (repair_fold config) t in
          report_outcomes 1 (length sets) (with_tree t) outcomes
        end
    end
  end.

Definition is_path_eq (a b : Path) : bool := bool_decide (a = b).

Definition extract_stage (job_dir : Path) (config : PostProcConfig) (s : Progress) : Progress * list Path :=
  let t := pg_tree s in
  let output_dir := default job_dir (output_dir config) in
  let source_dir := if skip_extract config then output_dir else job_dir in
  let job_dir_archives :=
    if skip_extract config && negb (is_path_eq source_dir job_dir)
    then filter (λ a : ArchiveType * Path, a.1 ≠ Rar) (find_archives t job_dir) else [] in
  let '(t, r, processed, code) :=
    run_extract_stage source_dir job_dir_archives output_dir (password config) (max_nested_archive_depth config) t in
  let s := {| pg_tree := t; pg_stages := pg_stages s; pg_ok := pg_ok s; pg_failure := pg_failure s |} in
  let s := match stage_status r with
           | Failed => fail s (default ArchiveInvalid code)
           | Success => {| pg_tree := pg_tree s; pg_stages := pg_stages s; pg_ok := true; pg_failure := pg_failure s |}
           | Skipped => s
           end in
  (say s (stage_name r) (stage_status r) (stage_message r), processed).

Context (undeletable : Path → bool).

Definition cleanup_stage (job_dir : Path) (config : PostProcConfig) (patterns exts : list str) (extracted : list Path)
    (s : Progress) : Progress :=
  let '(t, status, r) :=
    run_cleanup_stage_with_rules undeletable job_dir (default job_dir (output_dir config)) (pg_tree s) extracted
      patterns exts (delete_archives config) in
  say {| pg_tree := t; pg_stages := pg_stages s; pg_ok := pg_ok s; pg_failure := pg_failure s |} CleanUp status
    (match r with Some (removed, errors) => RemovedFiles removed errors | None => NothingToClean end).

Definition finish (s : Progress) : PostProcResult :=
  {| success := pg_ok s; stages := pg_stages s;
     error := if pg_ok s then None
              else Some (stage_message <$> filter (λ r, stage_status r = Failed) (pg_stages s));
     result_failure_code := if pg_ok s then None
                            else match pg_failure s with Some c => Some c | None => Some DownloadFailed end |}.

Definition run_stages (panic : option Tree) (job_dir : Path) (config : PostProcConfig) (patterns exts : list str)
    (unpack : bool) t : Tree * PostProcResult :=
  let s := verify_stage panic job_dir config {| pg_tree := t; pg_stages := []; pg_ok := true; pg_failure := None |} in
  let '(s, extracted) := if unpack && pg_ok s then extract_stage job_dir config s else (s, []) in
  let s := if unpack && pg_ok s && cleanup_after_extract config
           then cleanup_stage job_dir config patterns exts extracted s else s in
  (pg_tree s, finish s).
End pipeline.
