(* ===== verification/PostProcProps.v ===== *)
(** * What post-processing keeps and what it says

    A set that is reported correct, or repaired from the fold, is; archives are
    extracted once each, and none is left behind; the stages and the result
    agree; nothing is deleted but after success, and then only what a cleanup
    may delete. *)
From S2P Require Import Prelude Str FileSystem SliceMap Par2Match SliceTracker Inflight FoldRepair Detect Cleanup PostProc.
From S2P Require RepairFold Models.
Import Models(JobFailureCode(..)).

(** ** Verification and repair of a set *)
Section verify.
Context {G : Type} `{GF : RepairFold.Gf16 G} (broken : Path → bool).
Context (digest : N → bytes → SliceDigest).
Context (par2_verify : Par2FileSet → str → Tree → VerifyResult) (blocks_needed : VerifyResult → N).
Context `{PV : !Par2Verify (H := tree_fs broken) digest par2_verify blocks_needed}.
Context (all_correct : VerifyResult → bool).
(** All is correct when nothing is damaged or missing. *)
Context (Hcorrect : ∀ v, all_correct v = true → damaged v = [] ∧ missing v = []).
Context (load_recovery_blocks : Tree → str → Par2FileSet → list (N * bytes)).
Context (repair_from_verify : bool → Par2FileSet → str → VerifyResult → Tree → Tree * option RepairResult).
Context (dir : str) (set : Par2FileSet) (original : str → bytes).
Context `{GL : !RepairFold.Gf16Laws G (N.to_nat (set_slice_size set))}.

(** The files of the set with bytes in them are on the disk as the set was made
    from them. What a longer file had beyond its size is still there: a repair
    shortens no file. *)
Definition files_original (t t' : Tree) : Prop :=
  ∀ f, f ∈ files_in_order set → (0 < p_size f)%N →
  t' !! decode (join dir (p_filename f)) =
    Some (original (p_filename f) ++ drop (N.to_nat (p_size f)) (default [] (t !! decode (join dir (p_filename f))))).

(** C5. What verification and repair report of a set is so. When the slice map
    calls no bad slice good, the fold was fed the set's own slices and the
    recovery slices in the folder are the set's: if all is reported correct, every
    file of the set that is not empty begins with its original bytes; and after a
    repair from the fold every such file does, those that were missing included,
    and is exactly that unless it was longer than the set says, when what it had
    beyond is still there. No other path is touched: not the empty files of the
    set, which stay missing if they are, nor any file outside it. *)
Theorem verify_repair_restores map fold t fold' t' outcome :
  set_ok dir set original → NoDup (file_order set) → (N.of_nat (total_slices set) ≤ 2 ^ 32)%N →
  genuine set original digest →
  (∀ m, map = Some m →
     each_file (set_slice_size set) (never_lenient (H := tree_fs broken) digest dir t (set_slice_size set)) (sm_states m) 0 (ordered_files set)) →
  (∀ f, fold = Some f → RepairFold.sound (N.to_nat (set_slice_size set)) (slices_of_set set original) f) →
  RepairFold.good_recovery (N.to_nat (set_slice_size set)) (slices_of_set set original)
    (recovery_map (load_recovery_blocks t dir set)) →
  verify_repair_set broken par2_verify blocks_needed all_correct load_recovery_blocks repair_from_verify set dir map fold t
    = (fold', t', outcome) →
  match outcome with
  | AllCorrect _ _ => t' = t ∧ files_original t t
  | DamagedSet _ note _ _ _ _ _ r =>
    note_path note = FromFold →
    (∃ r', r = Some r' ∧ rr_success r' = true) ∧ files_original t t' ∧
    ∀ q, (∀ f, f ∈ files_in_order set → (0 < p_size f)%N → q ≠ join dir (p_filename f)) → t' !! decode q = t !! decode q
  end.
Proof.
  intros HS Hnd Hsm Hg Hmap Hfold Hrec. unfold verify_repair_set.
  pose proof (verified_outside dir set original HS digest par2_verify blocks_needed map t Hnd Hsm Hg Hmap) as Hout.
  pose proof (nothing_reported_files dir set original HS digest par2_verify blocks_needed map t Hnd Hg Hmap) as Hfine.
  cbv zeta in Hfine. set (v := result (verify_set par2_verify blocks_needed dir t set map)) in *.
  destruct (all_correct v) eqn:Hc.
  { intros [= <- <- <-]. destruct (Hcorrect v Hc) as [Hd Hm]. split; [done|]. intros f Hf Hp. exact (Hfine Hd Hm f Hf Hp). }
  unfold try_fold. destruct fold as [f|].
  2: { destruct (repair_from_verify _ _ _ _ _) as [t2 r]. by intros [= <- <- <-]. }
  case_decide.
  2: { destruct (repair_from_verify _ _ _ _ _) as [t2 r]. by intros [= <- <- <-]. }
  destruct (repair_from_fold _ _ _ _ _ _) as [[f1 t1] [done|e]] eqn:Hr.
  2: { destruct (repair_from_verify _ _ _ _ _) as [t2 r]. by intros [= <- <- <-]. }
  destruct (match source _ with Disk => _ | _ => true end).
  2: { destruct (repair_from_verify _ _ _ _ _) as [t2 r]. by intros [= <- <- <-]. }
  intros [= <- <- <-] _.
  destruct (fold_repair_restores load_recovery_blocks dir set original HS v f f1 t t1 (Ok done) (Hfold f eq_refl) Hrec Hout Hr)
    as [Hq [Hfiles _]].
  split; [by eexists|]. split; [exact Hfiles|exact Hq].
Qed.
End verify.

(** ** Extraction *)
Section extraction.
Context (extract : ArchiveType → Path → Path → option str → Tree → Tree * ExtractResult).

Lemma unprocessed_spec l : ∀ processed,
  NoDup (unprocessed processed l).*2 ∧
  (∀ p, p ∈ (unprocessed processed l).*2 → p ∉ processed) ∧
  (∀ p, p ∈ l.*2 → p ∈ processed ∨ p ∈ (unprocessed processed l).*2).
Proof.
  induction l as [|[ty p] l IH]; intros processed; cbn [unprocessed].
  { split_and!; [constructor|by intros p ?%elem_of_nil|by intros p ?%elem_of_nil]. }
  cbn [snd]. case_decide as Hp.
  - destruct (IH processed) as (H1 & H2 & H3). split_and!; [done|done|]. intros q [->|Hq]%elem_of_cons; [by left|by apply H3].
  - destruct (IH ({[p]} ∪ processed)) as (H1 & H2 & H3). cbn [fmap list_fmap snd]. split_and!.
    + constructor; [|done]. intros Hin. apply H2 in Hin. set_solver.
    + intros q [->|Hq]%elem_of_cons; [done|]. apply H2 in Hq. set_solver.
    + intros q [->|Hq]%elem_of_cons; [right; by left|]. destruct (H3 q Hq) as [Hin|Hin]; [|right; by right].
      apply elem_of_union in Hin as [->%elem_of_singleton|Hin]; [right; by left|by left].
Qed.

(** Opening archives one after the other: the tree in the end, and what each
    extractor said. *)
Fixpoint open_all (output_dir : Path) (password : option str) (l : list (ArchiveType * Path)) (t : Tree)
    : Tree * list ExtractResult :=
  match l with
  | [] => (t, [])
  | (ty, p) :: l' =>
    let '(t, r) := extract ty p output_dir (extractor_password ty password) t in
    let '(t, rs) := open_all output_dir password l' t in
    (t, r :: rs)
  end.

Lemma open_all_app output_dir password l1 l2 t :
  open_all output_dir password (l1 ++ l2) t =
    ((open_all output_dir password l2 (open_all output_dir password l1 t).1).1,
     (open_all output_dir password l1 t).2 ++ (open_all output_dir password l2 (open_all output_dir password l1 t).1).2).
Proof.
  revert t. induction l1 as [|[ty p] l1 IH]; intros t; [by destruct (open_all output_dir password l2 t) eqn:E; simpl; rewrite E|].
  cbn [app open_all]. destruct (extract _ _ _ _ _) as [t1 r]. rewrite IH.
  destruct (open_all output_dir password l1 t1) as [t2 rs]. done.
Qed.

(** A round opens its archives in turn; the last failure is its own. *)
Lemma extract_round_opens depth output_dir password l : ∀ t t' notes code,
  extract_round extract depth output_dir password l t = (t', notes, code) →
  t' = (open_all output_dir password l t).1 ∧
  code = last (omap extract_failure (open_all output_dir password l t).2).
Proof.
  induction l as [|[ty p] l IH]; intros t t' notes code; cbn [extract_round open_all]; [by intros [= <- <- <-]|].
  destruct (extract _ _ _ _ _) as [t1 r]. destruct (extract_round _ _ _ _ _ _) as [[t2 notes2] code2] eqn:Hr.
  destruct (IH _ _ _ _ Hr) as [-> ->]. destruct (open_all output_dir password l t1) as [t3 rs]. intros [= <- <- <-]. split; [done|].
  cbn [snd omap list_omap]. destruct (extract_failure r) as [c|]; [|by destruct (last _)].
  rewrite last_cons. by destruct (last _).
Qed.

(** What holds between the rounds: [before] are the archives not to be touched,
    [first] those the first round sees, [t0] the tree at the start and [opened]
    what was opened since. *)
Record rounds_ok (before : gset Path) (first : list (ArchiveType * Path)) (output_dir : Path) (password : option str)
    (t0 : Tree) (opened : list (ArchiveType * Path)) (s : ExtractState) : Prop := {
  ro_extracted : x_extracted s = opened.*2;
  ro_tree : x_tree s = (open_all output_dir password opened t0).1;
  ro_failure : x_failure s = last (omap extract_failure (open_all output_dir password opened t0).2);
  ro_once : NoDup (x_extracted s);
  ro_processed p : p ∈ x_processed s ↔ p ∈ x_extracted s ∨ p ∈ before;
  ro_apart p : p ∈ x_extracted s → p ∉ before;
  ro_found k a : opened !! k = Some a →
    a ∈ first ∨ ∃ j, j ≤ k ∧ a ∈ find_archives (open_all output_dir password (take j opened) t0).1 output_dir;
}.

Lemma unprocessed_subset l a : ∀ processed, a ∈ unprocessed processed l → a ∈ l.
Proof.
  induction l as [|x l IH]; intros processed; cbn [unprocessed]; [done|].
  case_decide; [intros Ha; right; by eapply IH|]. intros [->|Ha]%elem_of_cons; [by left|right; by eapply IH].
Qed.

(** One round more. *)
Lemma round_ok before first output_dir password t0 opened s depth l t notes code :
  rounds_ok before first output_dir password t0 opened s → x_failure s = None →
  (∀ a, a ∈ l → a ∈ first ∨ a ∈ find_archives (x_tree s) output_dir) →
  let archives := unprocessed (x_processed s) l in
  extract_round extract depth output_dir password archives (x_tree s) = (t, notes, code) →
  ∀ scan notes', rounds_ok before first output_dir password t0 (opened ++ archives)
    {| x_tree := t; x_processed := list_to_set archives.*2 ∪ x_processed s; x_extracted := x_extracted s ++ archives.*2;
       x_scan_dir := scan; x_notes := notes'; x_failure := code |}.
Proof.
  intros [He Ht Hf Ho Hp Ha Hfo] Hnone Hl archives Hr scan notes'.
  destruct (unprocessed_spec l (x_processed s)) as (H1 & H2 & _). fold archives in H1, H2.
  destruct (extract_round_opens _ _ _ _ _ _ _ _ Hr) as [-> ->].
  split; cbn [x_tree x_processed x_extracted x_failure].
  - by rewrite fmap_app, He.
  - by rewrite open_all_app, Ht.
  - rewrite open_all_app, Ht. cbn [snd]. rewrite Hf in Hnone. apply last_None in Hnone.
    by rewrite omap_app, Hnone.
  - apply NoDup_app. split_and!; [done| |done]. intros p Hin Hin'. apply H2 in Hin'. apply Hin', Hp. by left.
  - intros p. rewrite elem_of_union, elem_of_list_to_set, elem_of_app, Hp. tauto.
  - intros p [Hin|Hin]%elem_of_app; [by apply Ha|]. intros Hb. apply H2 in Hin. apply Hin, Hp. by right.
  - intros k a Hk. apply lookup_app_Some in Hk as [Hk|[Hge Hk]].
    + destruct (Hfo k a Hk) as [?|(j & Hj & Hin)]; [by left|right]. exists j. split; [done|].
      rewrite take_app_le; [done|]. apply lookup_lt_Some in Hk. lia.
    + apply list_elem_of_lookup_2, unprocessed_subset, Hl in Hk as [?|Hin]; [by left|right].
      exists (length opened). split; [done|]. rewrite take_app_length. by rewrite <- Ht.
Qed.

(** The rounds from one that has not failed: they keep the invariant, open all
    that the next sees, and scan the output folder once they have opened
    something. *)
Lemma extract_rounds_ok before first output_dir password t0 rounds : ∀ depth extra opened s,
  rounds_ok before first output_dir password t0 opened s → x_failure s = None →
  (∀ a, a ∈ find_archives (x_tree s) (x_scan_dir s) ++ extra → a ∈ first ∨ a ∈ find_archives (x_tree s) output_dir) →
  (x_extracted s ≠ [] → x_scan_dir s = output_dir) →
  let s' := extract_rounds extract rounds depth extra output_dir password s in
  (∃ opened', rounds_ok before first output_dir password t0 opened' s') ∧ x_processed s ⊆ x_processed s' ∧
  (rounds ≠ 0 → ∀ p, p ∈ (find_archives (x_tree s) (x_scan_dir s) ++ extra).*2 → p ∈ x_processed s') ∧
  (x_failure s' = None → x_extracted s' ≠ [] → x_scan_dir s' = output_dir).
Proof.
  induction rounds as [|rounds IH]; intros depth extra opened s Hs Hnone Hl Hscan; cbv zeta; cbn [extract_rounds]; [split_and!; [eauto|done|done|auto]|].
  set (l := find_archives _ _ ++ extra) in *. destruct (unprocessed_spec l (x_processed s)) as (_ & _ & H3).
  case_decide as Hempty.
  { split_and!; [eauto|done| |auto]. intros _ p Hp. destruct (H3 p Hp) as [|Hin]; [done|].
    rewrite Hempty in Hin. by apply elem_of_nil in Hin. }
  destruct (extract_round _ _ _ _ _ _) as [[t notes] code] eqn:Hr.
  pose proof (round_ok _ _ _ _ _ _ _ _ _ _ _ _ Hs Hnone Hl Hr
    (match code with None => output_dir | Some _ => x_scan_dir s end) (x_notes s ++ notes)) as Hok.
  set (archives := unprocessed (x_processed s) l) in *. set (s1 := {| x_tree := t |}) in *.
  assert (x_processed s ⊆ x_processed s1) as Hsub by apply union_subseteq_r.
  assert (∀ p, p ∈ l.*2 → p ∈ x_processed s1) as Hall.
  { intros p Hp. apply elem_of_union. destruct (H3 p Hp) as [|Hin]; [by right|left]. by apply elem_of_list_to_set. }
  destruct code as [c|]; [split_and!; [eauto|done|auto|done]|].
  destruct (IH (S depth) [] _ s1 Hok eq_refl) as (Hok' & Hsub' & _ & Hsc); [|done|].
  { intros a. rewrite app_nil_r. by right. }
  split_and!; [done|by etrans| |done]. intros _ p Hp. by apply Hsub', Hall.
Qed.

Lemma no_failure rs : last (omap extract_failure rs) = None → Forall (λ x, x = Extracted) rs.
Proof.
  intros H%last_None. induction rs as [|r rs IH]; [done|]. cbn [omap list_omap] in H. destruct r; simpl in H; try done.
  constructor; [done|by apply IH].
Qed.

End extraction.

(** ** The stages *)
Section stages.
Context {G : Type} `{GF : RepairFold.Gf16 G} (broken : Path → bool).
Context (par2_verify : Par2FileSet → str → Tree → VerifyResult) (blocks_needed : VerifyResult → N).
Context (all_correct : VerifyResult → bool).
Context (load_recovery_blocks : Tree → str → Par2FileSet → list (N * bytes)).
Context (repair_from_verify : bool → Par2FileSet → str → VerifyResult → Tree → Tree * option RepairResult).
Context (par2_parse : Tree → Path → Prelude.result str Par2FileSet) (recovery_set_id : Par2FileSet → N).
Context (hash_16k : bytes → bytes).
Context (extract : ArchiveType → Path → Path → option str → Tree → Tree * ExtractResult).
Context (par2_repair : Path → Tree → Tree * option (bool * bool)) (undeletable : Path → bool).
Context (panic : option Tree) (job_dir : Path) (config : PostProcConfig (G := G)).

Abbreviation verify_stage := (verify_stage broken par2_verify blocks_needed all_correct load_recovery_blocks
  repair_from_verify par2_parse recovery_set_id hash_16k par2_repair panic job_dir config).
Abbreviation run_stages := (run_stages broken par2_verify blocks_needed all_correct load_recovery_blocks
  repair_from_verify par2_parse recovery_set_id hash_16k extract par2_repair undeletable panic job_dir config).

Definition failed (r : StageResult) : bool := bool_decide (stage_status r = Failed).

(** The progress agrees with the stages reported. *)
Record consistent (names : list StageName) (s : Progress) : Prop := {
  cons_ok : pg_ok s = negb (existsb failed (pg_stages s));
  cons_failure : pg_ok s = true ↔ pg_failure s = None;
  cons_names : Forall (λ r, stage_name r ∈ names) (pg_stages s);
}.

Lemma consistent_say names s name status m :
  consistent names s → name ∈ names → status ≠ Failed → consistent names (say s name status m).
Proof.
  intros [H1 H2 H3] Hn Hs. split; cbn [say pg_ok pg_failure pg_stages]; [|done|apply Forall_app; split; [done|by constructor]].
  rewrite existsb_app, H1. cbn [existsb]. rewrite !orb_false_r. unfold failed at 3. cbn [stage_status].
  by rewrite bool_decide_eq_false_2, orb_false_r.
Qed.

Lemma consistent_fail names s name code m :
  Forall (λ r, stage_name r ∈ names) (pg_stages s) → name ∈ names → consistent names (say (fail s code) name Failed m).
Proof.
  intros H3 Hn. split; cbn [say fail pg_ok pg_failure pg_stages]; [|done|apply Forall_app; split; [done|by constructor]].
  rewrite existsb_app. simpl. by rewrite orb_true_r.
Qed.

Lemma consistent_tree names s t :
  consistent names s →
  consistent names {| pg_tree := t; pg_stages := pg_stages s; pg_ok := pg_ok s; pg_failure := pg_failure s |}.
Proof. by intros []. Qed.

Lemma report_outcome_consistent number count s o :
  consistent [Verify; Repair] s → consistent [Verify; Repair] (report_outcome number count s o).
Proof.
  intros Hs. assert (consistent [Verify; Repair] (say s Verify Success (SetVerified number count o))) as Hv
    by (apply consistent_say; [done|by left|done]).
  unfold report_outcome. destruct o as [|v note ni nd nm need have r]; [done|].
  destruct (match r with Some r => rr_success r | None => false end).
  - apply consistent_say; [done|right; by left|done].
  - apply consistent_fail; [apply Hv|right; by left].
Qed.

Lemma report_outcomes_consistent l : ∀ number count s,
  consistent [Verify; Repair] s → consistent [Verify; Repair] (report_outcomes number count s l).
Proof. induction l as [|o l IH]; intros number count s Hs; [done|]. by apply IH, report_outcome_consistent. Qed.

Lemma verify_stage_consistent s : consistent [Verify; Repair] s → consistent [Verify; Repair] (verify_stage s).
Proof.
  intros Hs. assert (Verify ∈ [Verify; Repair]) as HV by (by left). assert (Repair ∈ [Verify; Repair]) as HR by (by right; left).
  unfold PostProc.verify_stage. destruct (find_par2_files _ _) as [|p ps].
  { case_decide; [apply consistent_fail; [apply Hs|done]|by apply consistent_say]. }
  destruct (parse_par2_sets _ _ _ _) as [[|set sets] errors].
  - case_decide; [by apply consistent_say|]. set (s1 := say s Verify Skipped _).
    assert (consistent [Verify; Repair] s1) as H1 by (by apply consistent_say).
    destruct (run_repair_stage _ _ _) as [t r] eqn:Hr.
    assert (stage_name r = Repair) as Hn.
    { unfold run_repair_stage in Hr. destruct (find_par2_files _ _); [by simplify_eq|].
      destruct (par2_repair _ _) as [t2 o]. by simplify_eq. }
    rewrite Hn. case_decide as Hf.
    + rewrite Hf. apply consistent_fail; [apply H1|done].
    + apply consistent_say; [by apply consistent_tree|done|done].
  - case_decide; [apply consistent_say; [by apply consistent_tree|done|done]|].
    destruct panic; [apply consistent_fail; [apply Hs|done]|].
    destruct (verify_repair_sets _ _ _ _ _ _ _ _ _ _) as [t outcomes].
    by apply report_outcomes_consistent, consistent_tree.
Qed.

Abbreviation start t := {| pg_tree := t; pg_stages := []; pg_ok := true; pg_failure := None |}.

Lemma start_consistent names t : consistent names (start t).
Proof. by split. Qed.

(** Extraction adds its one stage. *)
Lemma extract_stage_spec s :
  pg_ok s = true → pg_failure s = None →
  ∃ x, stage_name x = Extract ∧
    pg_stages (extract_stage extract job_dir config s).1 = pg_stages s ++ [x] ∧
    pg_ok (extract_stage extract job_dir config s).1 = negb (failed x) ∧
    (pg_ok (extract_stage extract job_dir config s).1 = true ↔ pg_failure (extract_stage extract job_dir config s).1 = None).
Proof.
  intros Hok Hf. unfold extract_stage. destruct (run_extract_stage _ _ _ _ _ _ _) as [[[t r] ex] code] eqn:Hr.
  assert (stage_name r = Extract) as Hn.
  { unfold run_extract_stage in Hr. case_decide; by simplify_eq. }
  exists {| stage_name := stage_name r; stage_status := stage_status r; stage_message := stage_message r |}.
  unfold failed. cbn [stage_name stage_status fst]. rewrite Hn.
  destruct (stage_status r); cbn [say fail pg_stages pg_ok pg_failure]; rewrite ?Hok, ?Hf; done.
Qed.

Lemma cleanup_stage_spec patterns exts extracted s :
  ∃ x, stage_name x = CleanUp ∧
    pg_stages (cleanup_stage undeletable job_dir config patterns exts extracted s) = pg_stages s ++ [x] ∧
    pg_ok (cleanup_stage undeletable job_dir config patterns exts extracted s) = pg_ok s ∧
    pg_failure (cleanup_stage undeletable job_dir config patterns exts extracted s) = pg_failure s.
Proof.
  unfold cleanup_stage. destruct (run_cleanup_stage_with_rules _ _ _ _ _ _ _ _) as [[t status] r].
  eexists. by split; [|split; [reflexivity|]].
Qed.

Lemma finish_agrees s :
  (pg_ok s = true ↔ pg_failure s = None) →
  (success (finish s) = true ↔ error (finish s) = None) ∧
  (success (finish s) = true ↔ result_failure_code (finish s) = None).
Proof.
  intros H. unfold finish. cbn [success error result_failure_code]. destruct (pg_ok s); [done|].
  split; [done|]. split; [done|]. by destruct (pg_failure s).
Qed.

Lemma failed_messages l : existsb failed l = true → stage_message <$> filter (λ r, stage_status r = Failed) l ≠ [].
Proof.
  induction l as [|x l IH]; [done|]. cbn [existsb]. rewrite filter_cons. unfold failed at 1.
  case_bool_decide; case_decide; [done..|]. exact IH.
Qed.

(** C28. The result of post-processing agrees with its stages. It is a success
    exactly when there is no error, when there is no failure code, and when no
    check, repair or extraction failed; an error has something to say. Extraction
    is run, once, exactly when it is asked for and no check or repair failed;
    cleanup, last, exactly after a success; and its own failure fails nothing. *)
Theorem pipeline_result patterns exts unpack t t' r :
  run_stages patterns exts unpack t = (t', r) →
  (success r = true ↔ error r = None) ∧ (success r = true ↔ result_failure_code r = None) ∧ error r ≠ Some [] ∧
  ∃ checks opened cleaned,
    stages r = checks ++ opened ++ cleaned ∧
    Forall (λ x, stage_name x ∈ [Verify; Repair]) checks ∧
    (opened = [] ∨ ∃ x, opened = [x] ∧ stage_name x = Extract) ∧
    (cleaned = [] ∨ ∃ x, cleaned = [x] ∧ stage_name x = CleanUp) ∧
    success r = negb (existsb failed (checks ++ opened)) ∧
    (opened ≠ [] ↔ unpack = true ∧ existsb failed checks = false) ∧
    (cleaned ≠ [] ↔ unpack = true ∧ success r = true ∧ cleanup_after_extract config = true).
Proof.
  unfold PostProc.run_stages. set (s := verify_stage (start t)).
  destruct (verify_stage_consistent _ (start_consistent _ t)) as [Hok Hf Hn]. fold s in Hok, Hf, Hn.
  destruct (if unpack && pg_ok s then _ else _) as [s2 extracted] eqn:H2. intros [= <- <-].
  assert (∃ opened, pg_stages s2 = pg_stages s ++ opened ∧ (opened = [] ∨ ∃ x, opened = [x] ∧ stage_name x = Extract) ∧
    pg_ok s2 = negb (existsb failed (pg_stages s2)) ∧ (pg_ok s2 = true ↔ pg_failure s2 = None) ∧
    (opened ≠ [] ↔ unpack = true ∧ pg_ok s = true)) as (opened & E2 & Hop & Hok2 & Hf2 & Hun).
  { destruct (unpack && pg_ok s) eqn:Hu.
    - apply andb_true_iff in Hu as [-> Ho]. destruct (extract_stage_spec s Ho (proj1 Hf Ho)) as (x & Hx & E & Eo & Ef).
      rewrite H2 in E, Eo, Ef. cbn [fst] in E, Eo, Ef. exists [x]. split_and!; [done|right; by exists x| |done|done].
      rewrite Eo, E, existsb_app. rewrite Hok in Ho. apply negb_true_iff in Ho. rewrite Ho. simpl. by rewrite orb_false_r.
    - injection H2 as <- <-. exists []. rewrite app_nil_r. split_and!; [done|by left|done|done|].
      apply andb_false_iff in Hu. split; [done|]. intros [-> H]. rewrite H in Hu. by destruct Hu. }
  set (s3 := if unpack && pg_ok s2 && cleanup_after_extract config then _ else s2).
  assert (∃ cleaned, pg_stages s3 = pg_stages s2 ++ cleaned ∧ (cleaned = [] ∨ ∃ x, cleaned = [x] ∧ stage_name x = CleanUp) ∧
    pg_ok s3 = pg_ok s2 ∧ pg_failure s3 = pg_failure s2 ∧
    (cleaned ≠ [] ↔ unpack = true ∧ pg_ok s2 = true ∧ cleanup_after_extract config = true)) as (cleaned & E3 & Hcl & Hok3 & Hf3 & Hcu).
  { subst s3. destruct (unpack && pg_ok s2 && cleanup_after_extract config) eqn:Hu.
    - destruct (cleanup_stage_spec patterns exts extracted s2) as (x & Hx & E & Eo & Ef).
      apply andb_true_iff in Hu as [[Hu1 Hu2]%andb_true_iff Hu3].
      exists [x]. split_and!; [done|right; by exists x|done|done|done].
    - exists []. rewrite app_nil_r. split_and!; [done|by left|done|done|]. split; [done|].
      intros (-> & H1 & H3). rewrite H1, H3 in Hu. done. }
  rewrite <- Hok3, <- Hf3 in Hf2. destruct (finish_agrees s3 Hf2) as [He Hc].
  split; [done|]. split; [done|]. split.
  { unfold finish. cbn [error]. intros E. assert (negb (existsb failed (pg_stages s2)) = false) as Ho by (destruct (pg_ok s3); [done|congruence]).
    apply negb_false_iff in Ho. destruct (pg_ok s3); [done|]. injection E as E. revert E. apply failed_messages. by rewrite E3, existsb_app, Ho. }
  exists (pg_stages s), opened, cleaned. change (stages (finish s3)) with (pg_stages s3). change (success (finish s3)) with (pg_ok s3).
  rewrite E3, E2, <- app_assoc, Hok3, Hok2, E2. split_and!; [done|done|done|done|done| |].
  - rewrite Hun, Hok, negb_true_iff. done.
  - rewrite Hcu, Hok2, E2. done.
Qed.

(** *** What is deleted *)
Abbreviation out := (default job_dir (output_dir config)).

(** An extractor writes beneath the output folder it is given, and nowhere else.
    What is there already it may write over. *)
Definition extractor_confined : Prop := ∀ ty p o pw t q, ¬ o `prefix_of` q → (extract ty p o pw t).1 !! q = t !! q.

Lemma open_all_outside (Hk : extractor_confined) o pw l q : ¬ o `prefix_of` q → ∀ t, (open_all extract o pw l t).1 !! q = t !! q.
Proof.
  intros Hq. induction l as [|[ty p] l IH]; intros t; [done|]. cbn [open_all].
  pose proof (Hk ty p o (extractor_password ty pw) t q Hq) as H.
  destruct (extract ty p o (extractor_password ty pw) t) as [t1 x]. specialize (IH t1).
  destruct (open_all extract o pw l t1) as [t2 rs]. cbn [fst] in *. congruence.
Qed.

Lemma extract_rounds_outside (Hk : extractor_confined) rounds o pw q : ¬ o `prefix_of` q → ∀ depth extra s,
  x_tree (extract_rounds extract rounds depth extra o pw s) !! q = x_tree s !! q.
Proof.
  intros Hq. induction rounds as [|rounds IH]; intros depth extra s; [done|]. cbn [extract_rounds]. case_decide; [done|].
  destruct (extract_round _ _ _ _ _ _) as [[t notes] code] eqn:Hr.
  destruct (extract_round_opens _ _ _ _ _ _ _ _ _ Hr) as [-> _].
  destruct code; [|rewrite IH]; by apply open_all_outside.
Qed.

Lemma run_extract_stage_outside (Hk : extractor_confined) source extra o pw depth t t' r ex code q :
  run_extract_stage extract source extra o pw depth t = (t', r, ex, code) → ¬ o `prefix_of` q → t' !! q = t !! q.
Proof.
  intros Hr Hq. revert Hr. unfold run_extract_stage. set (s0 := {| x_tree := t |}). set (s' := extract_rounds _ _ _ _ _ _ s0).
  assert (x_tree s' !! q = t !! q) as H by exact (extract_rounds_outside Hk _ _ _ q Hq _ _ s0).
  clearbody s'. case_decide; intros E; by simplify_eq.
Qed.

Lemma extract_stage_outside (Hk : extractor_confined) s q :
  ¬ out `prefix_of` q → pg_tree (extract_stage extract job_dir config s).1 !! q = pg_tree s !! q.
Proof.
  intros Hq. unfold extract_stage. destruct (run_extract_stage _ _ _ _ _ _ _) as [[[t r] ex] code] eqn:Hr.
  rewrite <- (run_extract_stage_outside Hk _ _ _ _ _ _ _ _ _ _ q Hr Hq). cbn [fst say pg_tree]. by destruct (stage_status r).
Qed.

Lemma verify_stage_contents t :
  articles_failed config = 0 → (map_to_list (pg_tree (verify_stage (start t)))).*2 ≡ₚ (map_to_list t).*2.
Proof.
  intros H0. unfold PostProc.verify_stage. cbn [pg_tree]. destruct (find_par2_files _ _) as [|p ps]; [by case_decide|].
  destruct (parse_par2_sets _ _ _ _) as [[|set sets] errors]; rewrite decide_True by done; [done|]. cbn [say pg_tree].
  generalize (set :: sets). intros l. revert t. induction l as [|x l IH]; intros t; [done|]. cbn [foldl].
  by rewrite IH, rename_contents.
Qed.

(** C6. Nothing is deleted but after success. The cleanup runs only after a
    success that was asked to unpack and to clean up: otherwise the tree in the
    end is the one the extraction left, and the one the verification left when
    nothing was extracted. Given that extractors write only beneath the output
    folder, the extraction changes nothing outside it; in it they may write over
    what was there, and do, being told to. A cleanup takes away only what a
    cleanup may, and leaves the rest as it was. And of a download without a
    missing article, verification loses no bytes: it only renames. *)
Theorem deleted_only_after_success patterns exts unpack t t' r :
  extractor_confined → run_stages patterns exts unpack t = (t', r) →
  let checked := verify_stage (start t) in
  let '(unpacked, extracted) :=
    if unpack && pg_ok checked then extract_stage extract job_dir config checked else (checked, []) in
  (success r = false ∨ unpack = false ∨ cleanup_after_extract config = false → t' = pg_tree unpacked) ∧
  (pg_ok checked = false ∨ unpack = false → t' = pg_tree checked) ∧
  (∀ q, ¬ out `prefix_of` q → pg_tree unpacked !! q = pg_tree checked !! q) ∧
  (∀ q, t' !! q = pg_tree unpacked !! q ∨
     t' !! q = None ∧ doomed job_dir out (pg_tree unpacked) extracted patterns exts (delete_archives config) q) ∧
  (articles_failed config = 0 → (map_to_list (pg_tree checked)).*2 ≡ₚ (map_to_list t).*2).
Proof.
  intros Hk Hrun checked. revert Hrun. unfold PostProc.run_stages. fold checked.
  assert (∀ q, ¬ out `prefix_of` q → pg_tree (if unpack && pg_ok checked then extract_stage extract job_dir config checked
    else (checked, [])).1 !! q = pg_tree checked !! q) as Hout
    by (intros q Hq; destruct (unpack && pg_ok checked); [by apply extract_stage_outside|done]).
  assert (pg_ok checked = false ∨ unpack = false → (if unpack && pg_ok checked then extract_stage extract job_dir config checked
    else (checked, [])).1 = checked ∧ unpack && pg_ok checked = false) as Hno.
  { intros [E|E]; rewrite E, ?andb_false_r; done. }
  destruct (if unpack && pg_ok checked then _ else _) as [unpacked extracted] eqn:Hx. cbn [fst] in Hout, Hno.
  set (final := if unpack && pg_ok unpacked && cleanup_after_extract config then _ else unpacked). intros [= <- <-].
  assert (unpack && pg_ok unpacked && cleanup_after_extract config = false → final = unpacked) as Hfin
    by (intros E; unfold final; by rewrite E).
  assert (pg_ok final = pg_ok unpacked) as Hok.
  { unfold final. destruct (unpack && pg_ok unpacked && cleanup_after_extract config); [|done]. by destruct (cleanup_stage_spec patterns exts extracted unpacked) as (x & _ & _ & E & _). }
  split_and!; [| |exact Hout| |apply verify_stage_contents].
  - intros H. rewrite Hfin; [done|]. unfold finish in H. cbn [success] in H. rewrite Hok in H.
    destruct H as [->|[->| ->]]; by rewrite ?andb_false_r.
  - intros H. destruct (Hno H) as [<- E]. rewrite Hfin; [done|]. destruct H as [H| ->]; [|done].
    apply andb_false_iff in E as [->|E]; [done|]. by rewrite H, andb_false_r.
  - intros q. unfold final. destruct (unpack && pg_ok unpacked && cleanup_after_extract config); [|by left]. unfold cleanup_stage.
    pose proof (cleanup_deletes_exactly_at undeletable job_dir out (pg_tree unpacked) extracted patterns exts
      (delete_archives config) q) as Hc.
    destruct (run_cleanup_stage_with_rules _ _ _ _ _ _ _ _) as [[t2 status] rr]. cbn [fst say pg_tree] in *. exact Hc.
Qed.
End stages.
