(* ===== verification/PostProcRuns.v ===== *)
(** * Runs of post-processing

    A verifier that satisfies the laws of [Par2Verify], and the theorems of
    [Inflight], [FoldRepair] and [PostProcProps] at concrete downloads. *)
From S2P Require Import Prelude Str FileSystem SliceMap Par2Match SliceTracker Inflight FoldRepair Detect Cleanup PostProc PostProcProps.
From S2P Require RepairFold Models.

(** ** A verifier *)
Section verifier.
Context (digest : N → bytes → SliceDigest) (available : N).

Definition simple_verdict (ssize : N) (f : Par2File) (dir : str) (t : Tree) : FileVerdict :=
  match on_disk (H := tree_fs (λ _, false)) dir t f with
  | None => FileMissing {| mf_filename := p_filename f; mf_block_count := N.of_nat (slice_count f ssize) |}
  | Some n =>
    if decide (n = p_size f) then
      match damaged_entry f (slice_count f ssize) (as_u32 <$> bad_slices (H := tree_fs (λ _, false)) digest dir t ssize f) with
      | Some d => FileDamaged d | None => FileIntact end
    else FileDamaged {| df_filename := p_filename f; df_size := p_size f; df_block_count := as_u32 (slice_count f ssize);
                        df_total := as_u32 (slice_count f ssize); df_indices := [] |}
  end.

Definition simple_verify (set : Par2FileSet) (dir : str) (t : Tree) : VerifyResult :=
  let v f := simple_verdict (set_slice_size set) f dir t in
  {| intact := omap (λ f, match v f with
       | FileIntact => Some {| vf_filename := p_filename f; vf_size := p_size f |} | _ => None end) (files_in_order set);
     damaged := omap (λ f, match v f with FileDamaged d => Some d | _ => None end) (files_in_order set);
     missing := omap (λ f, match v f with FileMissing m => Some m | _ => None end) (files_in_order set);
     recovery_blocks_available := available; repair_possible := true |}.

Definition simple_needed (r : VerifyResult) : N :=
  (foldr N.add 0 (df_block_count <$> damaged r) + foldr N.add 0 (mf_block_count <$> missing r))%N.

#[export] Instance simple_par2 : Par2Verify (H := tree_fs (λ _, false)) digest simple_verify simple_needed.
Proof.
  refine (@Build_Par2Verify _ (tree_fs (λ _, false)) digest simple_verify simple_needed simple_verdict _ _ _ _ _ _ _); try done.
  - intros ssize f dir t E. unfold simple_verdict. rewrite E. by rewrite decide_True.
  - intros ssize f dir t. unfold simple_verdict. destruct (on_disk dir t f) as [n|]; [|done].
    case_decide; [|split; [done|intros; by left]].
    assert (∀ k, k < slice_count f ssize → slice_ok (H := tree_fs (λ _, false)) digest dir t ssize f k = false →
      as_u32 k ∈ as_u32 <$> bad_slices (H := tree_fs (λ _, false)) digest dir t ssize f) as Hbad.
    { intros k Hk Hok. apply list_elem_of_fmap_2. apply list_elem_of_filter. split; [done|]. apply elem_of_seq. lia. }
    destruct (as_u32 <$> bad_slices _ _ _ _ _) as [|b l]; simpl.
    + intros k Hk. apply not_false_iff_true. intros Hok. by apply Hbad, elem_of_nil in Hok.
    + split; [done|]. intros k Hk Hok. right. by apply Hbad.
Qed.
End verifier.

Module PostProcExamples.
#[local] Existing Instance RepairFold.BoolGf.
#[local] Existing Instance RepairFold.BoolGfLaws.
Definition digest (ssize : N) (b : bytes) : SliceDigest := {| md5 := b; crc32 := 0 |}.
Definition f : Par2File :=
  {| p_filename := lit "f"; p_hash_16k := [Byte.x0f; Byte.x55]; p_size := 2;
     p_slices := [digest 1 [Byte.x0f]; digest 1 [Byte.x55]] |}.
Definition set : Par2FileSet :=
  {| set_slice_size := 1; file_order := [0%N]; set_files := {[0%N := f]}; set_recovery_block_count := 1 |}.
Definition original (name : str) : bytes := [Byte.x0f; Byte.x55].
(** The second slice was never written. *)
Definition half_written : Tree := {[ [lit "j"; lit "f"] := [Byte.x0f; Byte.x00] ]}.
Definition half_map : SliceMapSummary :=
  {| sm_states := [Verified; Damaged]; sm_recovery_block_count := 1; sm_damaged := 1; sm_unknown := 0 |}.
Definition half_fold : RepairFold.RepairFold bool :=
  foldl (@RepairFold.exec bool RepairFold.BoolGf) RepairFold.demo_fold [RepairFold.Feed [(0, [Byte.x0f])]].
Definition load (t : Tree) (dir : str) (s : Par2FileSet) : list (N * bytes) := [(0%N, [Byte.x5a])].
Definition no_disk_repair (reverify : bool) (s : Par2FileSet) (dir : str) (v : VerifyResult) (t : Tree)
    : Tree * option RepairResult := (t, None).
Definition all_right (v : VerifyResult) : bool := bool_decide (damaged v = [] ∧ missing v = []).

Lemma set_is_ok : set_ok (lit "j") set original.
Proof.
  split.
  - done.
  - vm_compute. repeat constructor. by intros ?%elem_of_nil.
  - intros a b Ha Hb _. apply list_elem_of_singleton in Ha as ->. by apply list_elem_of_singleton in Hb as ->.
  - intros a Ha. by apply list_elem_of_singleton in Ha as ->.
Qed.

Lemma set_genuine : genuine set original digest.
Proof.
  intros a k b Ha Hk _. apply list_elem_of_singleton in Ha as ->.
  destruct k as [|[|k]]; [by intros [= <-]..|]. vm_compute in Hk. lia.
Qed.

Lemma half_map_strict t :
  t = half_written →
  each_file 1 (never_lenient (H := tree_fs (λ _, false)) digest (lit "j") t 1) (sm_states half_map) 0 (ordered_files set).
Proof. intros ->. split; [|done]. intros [|[|k]]; [by vm_compute|done|done]. Qed.

Lemma half_fold_sound : RepairFold.sound 1 (slices_of_set set original) half_fold.
Proof.
  assert (RepairFold.sized 1 (slices_of_set set original)) as HD by (by repeat constructor).
  apply (RepairFold.history_sound 1 (slices_of_set set original) HD); [|by repeat constructor].
  by apply (RepairFold.new_sound 1 (slices_of_set set original) HD 1 [0%N]).
Qed.

Lemma half_recovery_good :
  RepairFold.good_recovery 1 (slices_of_set set original) (recovery_map (load half_written (lit "j") set)).
Proof.
  intros e data He _. change (recovery_map _) with ({[0%N := [Byte.x5a]]} : gmap N bytes) in He.
  apply lookup_singleton_Some in He as [<- <-]. by vm_compute.
Qed.

Lemma verify_repair_restores_witness :
  ∃ fold' t' note r,
    verify_repair_set (λ _, false) (simple_verify digest 1) simple_needed all_right load no_disk_repair set (lit "j")
      (Some half_map) (Some half_fold) half_written = (fold', t', DamagedSet {| note_source := InFlight; note_bytes_skipped := 2 |} note 0 1 0 1 1 (Some r)) ∧
    t' !! [lit "j"; lit "f"] = Some [Byte.x0f; Byte.x55].
Proof.
  destruct (verify_repair_set (λ _, false) (simple_verify digest 1) simple_needed all_right load no_disk_repair set (lit "j")
    (Some half_map) (Some half_fold) half_written) as [[fold' t'] outcome] eqn:E.
  pose proof (verify_repair_restores (GL := RepairFold.BoolGfLaws _) (λ _, false) digest (simple_verify digest 1) simple_needed all_right
    ltac:(intros v Hv; by apply bool_decide_eq_true in Hv) load no_disk_repair (lit "j") set original
    (Some half_map) (Some half_fold) half_written fold' t' outcome set_is_ok ltac:(apply NoDup_singleton) ltac:(vm_compute; done)
    set_genuine ltac:(intros m [= <-]; by apply half_map_strict) ltac:(intros g [= <-]; apply half_fold_sound)
    half_recovery_good E) as H.
  assert (∃ note r, outcome = DamagedSet {| note_source := InFlight; note_bytes_skipped := 2 |} note 0 1 0 1 1 (Some r) ∧ note_path note = FromFold) as (note & r & -> & Hn).
  { assert ((verify_repair_set (λ _, false) (simple_verify digest 1) simple_needed all_right load no_disk_repair set (lit "j")
      (Some half_map) (Some half_fold) half_written).2 = outcome) as <- by (by rewrite E). eexists _, _. split; vm_compute; reflexivity. }
  exists fold', t', note, r. split; [done|]. destruct (H Hn) as (_ & Hf & _).
  pose proof (Hf f ltac:(by left) ltac:(done)) as Hfile. vm_compute in Hfile. exact Hfile.
Defined.

Lemma inflight_agrees_with_disk_witness :
  let v := verify_set (H := tree_fs (λ _, false)) (simple_verify digest 1) simple_needed (lit "j") half_written set (Some half_map) in
  simple_needed (result v) = 1%N ∧ bytes_from_disk v = 0%N.
Proof.
  intros v. assert (map_fits set half_map = true) as H1 by (by vm_compute).
  assert (foldr N.add 0 (p_size <$> files_in_order set) < 2 ^ 64)%N as H2 by (by vm_compute).
  assert (each_file 1 (truthful (H := tree_fs (λ _, false)) digest (lit "j") half_written 1) (sm_states half_map) 0
    (ordered_files set)) as H3.
  { split; [|done]. intros [|[|[|k]]]; split; intros E; first [discriminate E|by vm_compute]. }
  destruct (inflight_agrees_with_disk (H := tree_fs (λ _, false)) digest (simple_verify digest 1) simple_needed (lit "j")
    half_written set half_map H1 ltac:(apply NoDup_singleton) H2 H3) as (_ & _ & _ & _ & E & _ & _ & Hd).
  fold v in E, Hd. split; [rewrite E; by vm_compute|apply Hd; by vm_compute].
Defined.
End PostProcExamples.

(** ** A set with an empty file *)
Module EmptyFile.
#[local] Existing Instance RepairFold.BoolGf.
Definition digest := PostProcExamples.digest.
Definition full : Par2File :=
  {| p_filename := lit "f"; p_hash_16k := []; p_size := 1; p_slices := [digest 1 [Byte.x0f]] |}.
Definition empty : Par2File := {| p_filename := lit "e"; p_hash_16k := []; p_size := 0; p_slices := [] |}.
Definition set : Par2FileSet :=
  {| set_slice_size := 1; file_order := [0%N; 1%N]; set_files := {[0%N := full; 1%N := empty]}; set_recovery_block_count := 1 |}.
Definition map : SliceMapSummary :=
  {| sm_states := [Verified]; sm_recovery_block_count := 1; sm_damaged := 0; sm_unknown := 0 |}.
Definition fold : RepairFold.RepairFold bool :=
  match @RepairFold.new bool RepairFold.BoolGf 1 1 [0%N] with Ok f => f | Err _ => RepairFold.demo_fold end.

(** An empty file that is missing needs no slice: the fold repairs nothing and
    the set passes for repaired, the file still missing. *)
Example empty_file_stays_missing :
  let '(_, t, o) := verify_repair_set (λ _, false) (simple_verify digest 1) simple_needed PostProcExamples.all_right
    PostProcExamples.load PostProcExamples.no_disk_repair set (lit "j") (Some map) (Some fold)
    {[ [lit "j"; lit "f"] := [Byte.x0f] ]} in
  t !! [lit "j"; lit "e"] = None ∧
  o = DamagedSet {| note_source := Partial; note_bytes_skipped := 1 |}
        {| note_path := FromFold; fallback := None; slices_read := 1 |} 1 0 1 0 1
        (Some {| rr_success := true; rr_blocks_repaired := 0; rr_files_repaired := 0 |}).
Proof. by vm_compute. Qed.
End EmptyFile.

(** ** A whole run *)
Module RunExamples.
(** A zip that holds a film and another zip, which holds a text. *)
Definition unzip (ty : ArchiveType) (p out : Path) (pw : option str) (t : Tree) : Tree * ExtractResult :=
  if decide (p = [lit "j"; lit "a.zip"]) then
    (<[out ++ [lit "film.mkv"] := [Byte.x01]]> (<[out ++ [lit "b.zip"] := [Byte.x02]]> t), Extracted)
  else (<[out ++ [lit "b.txt"] := [Byte.x03]]> t, Extracted).
Definition zipped : Tree := {[ [lit "j"; lit "a.zip"] := [Byte.x00]; [lit "j"; lit "a.nfo"] := [Byte.x04] ]}.
Definition out : Path := [lit "o"].

Definition plain (depth : nat) (failed : nat) : PostProcConfig (G := bool) :=
  {| cleanup_after_extract := true; delete_archives := true; output_dir := Some out; articles_failed := failed;
     content_articles_failed := failed; skip_extract := false; password := None; max_nested_archive_depth := depth;
     slice_map := None; trust_inflight_verify := true; repair_fold := None |}.

Definition run (depth failed : nat) : Tree * PostProcResult :=
  run_stages (GF := RepairFold.BoolGf) (λ _, false) (simple_verify PostProcExamples.digest 0) simple_needed
    PostProcExamples.all_right PostProcExamples.load PostProcExamples.no_disk_repair (λ _ _, Err []) (λ _, 0%N) id
    unzip (λ _ t, (t, None)) (λ _, false) None [lit "j"] (plain depth failed) [lit "*.nfo"] [] true zipped.

(** Both archives are opened and deleted, the rules delete the text file of the
    poster, the film and the nested text stay. *)
Example run_all :
  success (run 5 0).2 = true ∧
  (map_to_list (run 5 0).1).*1 ≡ₚ [out ++ [lit "film.mkv"]; out ++ [lit "b.txt"]].
Proof. split; [by vm_compute|]. apply (bool_decide_unpack _). by vm_compute. Qed.

(** One level is not enough: the run fails and deletes nothing. *)
Example run_too_deep :
  success (run 0 0).2 = false ∧ result_failure_code (run 0 0).2 = Some Models.ArchiveInvalid ∧
  (run 0 0).1 !! [lit "j"; lit "a.zip"] = Some [Byte.x00].
Proof. by vm_compute. Qed.

(** Articles are missing and there is nothing to repair from: nothing is opened. *)
Example run_unrepairable :
  map_to_list (run 5 2).1 = map_to_list zipped ∧ success (run 5 2).2 = false ∧ length (stages (run 5 2).2) = 1.
Proof. by vm_compute. Qed.

Lemma unzip_confined : extractor_confined unzip.
Proof.
  intros ty p o pw t q Hq. unfold unzip. case_decide; cbn [fst];
    rewrite !lookup_insert_ne; try done; intros <-; by apply Hq, prefix_app_r.
Qed.


Lemma pipeline_result_witness : error (run 5 0).2 = None ∧ result_failure_code (run 5 0).2 = None.
Proof.
  destruct (pipeline_result (GF := RepairFold.BoolGf) (λ _, false) (simple_verify PostProcExamples.digest 0) simple_needed
    PostProcExamples.all_right PostProcExamples.load PostProcExamples.no_disk_repair (λ _ _, Err []) (λ _, 0%N) id
    unzip (λ _ t, (t, None)) (λ _, false) None [lit "j"] (plain 5 0) [lit "*.nfo"] [] true zipped (run 5 0).1 (run 5 0).2
    (surjective_pairing _)) as (He & Hc & _).
  assert (success (run 5 0).2 = true) as Hs by (by vm_compute). split; [by apply He|by apply Hc].
Defined.

(** One level of nesting is not enough, so the run fails: what the folder of the
    job had is still there. *)
Lemma deleted_only_after_success_witness :
  success (run 0 0).2 = false ∧ (run 0 0).1 !! [lit "j"; lit "a.zip"] = Some [Byte.x00].
Proof.
  pose proof (deleted_only_after_success (GF := RepairFold.BoolGf) (λ _, false) (simple_verify PostProcExamples.digest 0) simple_needed
    PostProcExamples.all_right PostProcExamples.load PostProcExamples.no_disk_repair (λ _ _, Err []) (λ _, 0%N) id
    unzip (λ _ t, (t, None)) (λ _, false) None [lit "j"] (plain 0 0) [lit "*.nfo"] [] true zipped (run 0 0).1 (run 0 0).2
    unzip_confined (surjective_pairing _)) as H.
  assert (success (run 0 0).2 = false) as Hs by (by vm_compute). split; [exact Hs|].
  cbv zeta in H. destruct (if true && pg_ok _ then _ else _) as [unpacked extracted].
  destruct H as (Hend & _ & Hout & _). rewrite (Hend (or_introl Hs)), Hout; [by vm_compute|].
  intros [k Hk]. discriminate Hk.
Defined.

Lemma wildcard_match_glob_witness :
  wildcard_match (lit "*.n?o") (lit "a.b.nfo") = true ∧ glob (as_bytes (lit "*.n?o")) (as_bytes (lit "a.b.nfo")).
Proof.
  destruct (wildcard_match_glob (lit "*.n?o") (lit "a.b.nfo")) as [_ H].
  assert (wildcard_match (lit "*.n?o") (lit "a.b.nfo") = true) as E by (by vm_compute).
  split; [exact E|]. apply H; [|exact E]. intros Hs. by apply (bool_decide_pack _) in Hs.
Defined.

Lemma cleanup_deletes_exactly_witness :
  (run_cleanup_stage_with_rules (λ _, false) [lit "j"] out zipped [] [] [] true).1.1 !! [lit "j"; lit "a.zip"] = None ∧
  (run_cleanup_stage_with_rules (λ _, false) [lit "j"] out zipped [] [] [] true).1.1 !! [lit "j"; lit "a.nfo"] = Some [Byte.x04].
Proof.
  destruct (cleanup_deletes_exactly (λ _, false) [lit "j"] out zipped [] [] [] true [lit "j"; lit "a.zip"]) as [H _].
  split; [|by vm_compute]. apply H; [left|done]. split; [|split; [by vm_compute|by left]].
  split; [by exists [lit "a.zip"]|]. simpl. lia.
Defined.
End RunExamples.
